(* ===== verification/_CoqProject ===== *)
-Q . S2P
Prelude.v
Domain.v
Utf8.v
F64.v
Acl.v
Convert.v
Parse.v
Config.v
Deserialize.v
Breaker.v
RateLimit.v
Ports.v
Handlers.v
Auth.v
Pool.v
Fred.v
Jwks.v
AuthService.v
Documents.v
PoolSpec.v
Observability.v
Executors.v
Server.v
Service.v
Wire.v
System.v
Gateway.v
Main.v
Accept.v
Profile.v
Conformance.v
Replay.v
