(* ===== verification/Prelude.v ===== *)
(** * srh-rs, an Upstash-compatible HTTP proxy for Redis: a verification library

    ** The program

    The proxy takes Redis commands as JSON over HTTP, authenticates the caller,
    applies a command policy and a rate limit, runs the commands on a pool of
    Redis connections and writes the replies as JSON.  It is built as ports and
    adapters: the handlers ([src/src/http]) and the pure domain
    ([src/src/domain]) reach everything else through the traits of
    [src/src/ports/mod.rs], which the adapters ([src/src/adapters]) implement.

    A request goes through the parts in this order: the extractor
    authenticates it (static tokens, JWTs, introspection) and probes the
    caller's bucket; the handler reads and parses the body, charges the bucket,
    checks every command against the policy, normalises it, acquires a
    connection (circuit breaker, waiting queue, semaphore, client lock), runs
    the commands, gives the connection back, charges the replies against a size
    budget and serialises them.

    ** Files

    Each file opens with what it holds; the sources are under [src/src].

    - [Prelude.v]: results with the [?] operator, 64-bit integers, time, ASCII,
      the ordered-map operations of [BTreeMap], the tactics and hint databases,
      labelled steps.
    - [Domain.v]: the enums and structs of [domain/resp.rs],
      [domain/identity.rs] and the command of [ports/mod.rs].
    - [Utf8.v]: [String::from_utf8] and [from_utf8_lossy] on bytes; white space.
    - [F64.v]: IEEE binary64 arithmetic (the Standard Library's [SpecFloat]) as
      the rate limiter uses it.
    - [Acl.v]: [domain/acl.rs] and [domain/compat.rs], tables included.
    - [Convert.v]: [domain/convert.rs], the response budget and serializer.
    - [Parse.v]: [http/parse.rs], the streaming parsers over a lazily read
      JSON document.
    - [Config.v]: [config.rs], the three configuration sources and validation.
    - [Deserialize.v]: the derived deserializers of [config.rs]: what the field
      types and serde attributes of the raw records declare, as declarations
      that a generic reader interprets.
    - [Breaker.v]: [domain/breaker.rs].
    - [RateLimit.v]: [domain/rate_limit.rs].
    - [Ports.v]: [ports/mod.rs] as a type of calls, programs that make calls,
      and runs against an environment that answers them.
    - [Handlers.v]: [error.rs] and [http/command.rs], [pipeline.rs],
      [multi_exec.rs], [extractors.rs], [health.rs] as such programs.
    - [Auth.v]: [adapters/static_auth.rs], [auth_chain.rs], [jwt_auth.rs], and
      the chain [main.rs] builds.
    - [Pool.v]: [adapters/breaker_executor.rs] and [pool_manager.rs].
    - [Fred.v]: [adapters/fred_executor.rs].
    - [Jwks.v]: [adapters/outbound_http.rs], [http_jwks.rs],
      [http_introspect.rs].
    - [AuthService.v]: many authentications at once over one introspection cache
      and one key source.
    - [Documents.v]: the derived deserializers of the documents that come from
      the network: discovery, introspection answers, JWT claims.
    - [PoolSpec.v]: the abstract machine of exclusive leases, which [Pool.v]
      refines, and the measure by which pools come to rest.
    - [Observability.v]: [http/observability.rs], with the audit contexts that
      a request's future and handler share in a store.
    - [Executors.v]: the trait [CommandExecutor] as a class with its laws; the
      breaker, Fred and scripted executors as instances; the contracts and
      fakes of [testsupport].
    - [Server.v]: [http/mod.rs], routes and layers: admission, timeout, body
      limit, observation, and the drop of a request at any await.
    - [Service.v]: many requests at once over shared limiter and leases.
    - [Wire.v]: the operations of [fred_executor.rs] message by message.
    - [System.v]: the service over the pool manager, leases taken from and given
      back to the pools.
    - [Gateway.v]: the whole gateway: [System.v], [AuthService.v] and [Wire.v]
      in one machine.
    - [Main.v]: [main.rs], start-up, maintenance and shutdown, and
      [adapters/system_clock.rs].
    - [Accept.v]: the accept loop of [main.rs] and its orderly shutdown.
    - [Profile.v]: [bin/profile-inproc.rs], the profiling harness and its HTTP
      client.
    - [Conformance.v], [Replay.v]: unit tests of the repository evaluated on the
      model.

    ** How code is represented

    Pure functions are functions.  A component behind a mutex (breaker,
    limiter, caches) is a record and one function per operation, with the
    clock's reading as an argument; a step relation over the operations, with
    ghost state where needed, gives the reachable states, and invariants are by
    induction on it.  Where components are composed, a step carries a label (the
    call a request was answered and the answer, the request dropped, what an
    operation returned), and the composed machine takes the steps of its parts
    with the same label together; what a part may answer is a relation
    ([Authority] in [Service.v]) that the composition fixes.  The pool is shared
    without one lock, so its operations are cut at each access to shared state
    and requests interleave there, are dropped at their await points and unwind
    their guards in the order Rust drops them.  The loops over pools of the
    maintenance task and of the shutdown are cut at their awaits.  Handlers and authenticators are programs over calls (type
    [Prog]); statements quantify over the environment (type [Oracle]), which
    answers as it likes given the history, so other requests in between are
    covered.  What components promise to one another is a class with laws
    ([CommandExecutor] and [LawfulExecutor] in [Executors.v], the router's
    dispatch and the tower layers in [Server.v]); clients are verified against
    the laws and the implementations satisfy them.

    Errors are values of [result].  [u64] and [usize] values are [Z] with
    wrapping, saturating and checked operations written out; [f64] is
    binary64.  [HashMap] is [gmap], its iteration order a parameter where the
    code iterates; strings and byte buffers are sequences of bytes.

    A derived deserializer is what the attributes in the source declare: a list
    of fields with their types, what an absent field is, and whether others are
    refused.  [Deserialize.deserialize_struct] gives such a declaration the
    meaning serde documents; the theorems relate it to looking each field up.

    Third-party code is a parameter of the definitions that use it: the JSON
    tokenizer and printers, SHA-256, base64, the JWT decoder, the URL parser,
    the network, the router's matching of paths, and Fred, the Redis client.
    No property of a parameter is assumed beyond what a theorem states as a
    hypothesis.

    ** What is shown

    - Requests ([Handlers.v]): whatever the environment does, nothing reaches a
      pool before the caller's bucket was charged for it, only permitted
      commands are sent, leases are returned exactly once; pipelines keep their
      slots in line; a transaction with a refused command reaches no pool; the
      extractor's guards.
    - Pools ([Pool.v], [Breaker.v]): waiters bounded, permits and client locks
      conserved, one probe per half-open breaker with a holder that settles it,
      no deadlock, acquisition in bounded steps, eviction only of idle pools;
      the breaker opens exactly on a streak of failures, and its delay is enough.
    - Redis traffic ([Fred.v]): the exact sequence of a transaction, the
      conversion of replies and which failures the breaker counts.
    - Policy ([Acl.v]): the check equals a declarative policy, is monotone and
      insensitive to case, refuses session commands to everybody; normalisation
      does not change its answer.
    - Limits ([RateLimit.v], [Convert.v], [Parse.v]): the limiter's invariant
      with floating point, exactness of its decision, isolation of identities;
      the response budget charges the tree that is written, node by node, and
      its text is at most six times the charge; the streaming parsers equal a
      reference on the parsed value and enforce their bounds.
    - Authentication ([Auth.v], [Jwks.v]): what an accepted JWT has passed, the
      identity it gives, which authenticator decides, freshness of cached
      answers, throttling of key refreshes, origin and use of cached keys.
      [AuthService.v] joins them: an accepted credential is a static token, or a
      JWT checked with a key its issuer published and confirmed by the
      authorization service, the answer being at most the time to live old when
      it comes from the cache, whatever interleaves.
      [Documents.v]: introspection fails closed, claims are unambiguous.
    - Configuration ([Config.v], [Deserialize.v]): validation equals a
      declarative condition; the legacy, new-style and environment sources;
      digests round trip; misspelt fields are refused in every section; what
      loads is valid with every number in range, which discharges the ranges
      other theorems assume.
    - Executors ([Executors.v]): an executor around Fred with a breaker is
      lawful; with a lawful executor the pipeline endpoint answers every
      command in its place.
    - Observation ([Observability.v]): gauges and counters account for every
      request, also the dropped ones; one audit line per response except a
      probe's success.
    - Server ([Server.v], [Service.v]): from the socket to the response, also
      when shed, timed out or dropped, a request follows the protocol of
      [Handlers.v]; each refusal has its status, by the load, the length and the
      time; the audit line names the caller.  Under any interleaving of requests with maintenance and time the
      leases handed out are those of requests in flight, and distinct.  The
      bridge is [Service.steps_replay]: what a concurrent run answers a request
      is what some oracle answers it.
    - Pools as leases ([PoolSpec.v]): refinement of the abstract machine, and
      rest in a bounded number of steps.
    - The whole system ([System.v]): it projects to a run of the service and a
      run of the pool manager; a request runs on a connection nobody else has,
      of a pool built for its caller with the connection string and settings
      configured, and every handle a pool gave out is some request's.
    - The gateway ([Gateway.v]): every command ever put on a Redis connection is
      a readiness PING, or was permitted to a caller whose credential was vouched
      for, on a connection of that caller's pool; the operations of a connection
      never interleave, and one that returned leaves no transaction open
      ([dropped_transactions_stay_open]: one that is dropped can); only
      failures that the callers of a pool met on its connections open its
      breaker.
    - Process ([Main.v]): start-up succeeds exactly when its parts do and with
      the first error otherwise; from any configuration that loads, the shared
      state stays well-formed under requests, maintenance and shutdown, which
      go from await to await; a shutdown leaves only pools built during it.
    - Shutdown ([Accept.v]): connections, maintenance and pools end in this
      order, and within the deadline and the awaits on Fred whatever the
      connections do.  A pool is left only if connections outlived the deadline
      and used it meanwhile ([overrun_connection_rebuilds_a_pool]).
    - Profiling client ([Profile.v]): the end of each response is found however
      the stream is cut, and counted once; its request is framed likewise.
    - Tests ([Conformance.v], [Replay.v]): the model passes the repository's unit tests.

    ** Bounds and fuel

    Parsers and printers recurse on their input.  [Fred.frame_within_depth] and
    [Convert.charge_within_depth] recurse on the depth bound of the code, 64.
    [Pool.acquire_entry] takes fuel; [Pool.acquire_outcomes] shows that the
    size of the pool plus six is enough.  Runs of the breaker are kept below
    2^64 changes of generation.  Instants are unbounded integers.
    [Service.v] and [Server.v] take the calls of a request from its program,
    which is finite.  [Profile.drive] recurses on the turns of its loop.

    ** What is not modelled

    The delivery of signals and the log subscriber of [main.rs], the sockets and
    HTTP codec of hyper, and the listeners of the metrics exporter: whether a
    listener, a client or the SIGTERM handler could be made is a parameter of
    [Main.start].  How long Fred takes to quit a pool and to end its connection
    task is a parameter of [Accept.happen], a duration for every entry.  The
    network side of Fred: [Fred.v] has the options it is built with and the
    commands it is sent.  The runtimes, the transport and the printed report of
    the profiling harness.  How JSON text becomes a value: the tests of
    [config.rs] are replayed from the values their texts denote.  How
    [jsonwebtoken] reads a key set and checks a signature.  The tests of
    [outbound_http.rs] over sockets.  Metrics and log lines other than those of
    [observability.rs] and the gauges of permits and breaker states.  The connections of [Accept.v] and the requests of
    [Gateway.v] are separate machines: which requests a connection carries is
    hyper's business; a connection that closes is, for its requests, the drop
    that [Gateway.v] allows at every await.  Fred's own queue per client and its
    reconnection are behind the answers of [Wire.v], which may depend on all that
    was sent on the client. *)
From Stdlib Require Export Ascii.
From stdpp Require Export base tactics numbers list gmap strings sorting.

(** ** Results *)

(** Rust's [Result<A, E>]. *)
Inductive result (A E : Type) : Type :=
| Ok (a : A)
| Err (e : E).
Arguments Ok {A E} a.
Arguments Err {A E} e.

#[export] Instance result_eq_dec {A E : Type} `{!EqDecision A, !EqDecision E} :
  EqDecision (result A E).
Proof. solve_decision. Defined.

(** Notations of the development live in a scope of their own. *)
Declare Scope srh_scope.
Delimit Scope srh_scope with srh.
Open Scope srh_scope.

(** The [?] operator: an error returns from the enclosing function. *)
Notation "'let?' p := e 'in' k" :=
  (match e with Ok p => k | Err err => Err err end)
  (at level 10, p pattern, e at level 100, k at level 200) : srh_scope.

Definition result_map {A B E : Type} (f : A → B) (r : result A E) : result B E :=
  match r with Ok a => Ok (f a) | Err e => Err e end.

Definition map_err {A E F : Type} (f : E → F) (r : result A E) : result A F :=
  match r with Ok a => Ok a | Err e => Err (f e) end.

Definition ok_or {A E : Type} (e : E) (o : option A) : result A E :=
  match o with Some a => Ok a | None => Err e end.

Definition is_ok {A E : Type} (r : result A E) : bool :=
  match r with Ok _ => true | Err _ => false end.

(** A [for] loop whose body may return early with an error. *)
Fixpoint try_for_each {A E : Type} (f : A → result unit E) (l : list A) : result unit E :=
  match l with
  | [] => Ok tt
  | a :: l => let? _ := f a in try_for_each f l
  end.

(** [collect::<Result<Vec<_>, _>>]: all the values, or the first error. *)
Fixpoint collect_ok {A E : Type} (l : list (result A E)) : result (list A) E :=
  match l with
  | [] => Ok []
  | r :: l => let? a := r in let? rest := collect_ok l in Ok (a :: rest)
  end.

(** ** Machine integers *)

(** Integers of the program are [Z] with their 64-bit range written out
    ([usize] is 64 bits wide on the targets the crate is released for). *)
Definition u64_max : Z := 2 ^ 64 - 1.
Definition usize_max : Z := u64_max.

Definition in_u64 (z : Z) : Prop := (0 ≤ z ≤ u64_max)%Z.

Definition wrapping_add (a b : Z) : Z := ((a + b) mod 2 ^ 64)%Z.
Definition saturating_add (a b : Z) : Z := Z.min (a + b) u64_max.
Definition saturating_sub (a b : Z) : Z := Z.max (a - b) 0.
Definition saturating_mul (a b : Z) : Z := Z.min (a * b) u64_max.
Definition checked_add (a b : Z) : option Z :=
  if decide (a + b ≤ u64_max)%Z then Some (a + b)%Z else None.
Definition checked_sub (a b : Z) : option Z :=
  if decide (b ≤ a)%Z then Some (a - b)%Z else None.
Definition checked_mul (a b : Z) : option Z :=
  if decide (a * b ≤ u64_max)%Z then Some (a * b)%Z else None.

Definition bool_to_Z (b : bool) : Z := if b then 1 else 0.

(** ** Time *)

(** An [Instant] is a number of nanoseconds on the monotonic clock and a
    [Duration] a non-negative number of nanoseconds. *)
Definition nanos_per_sec : Z := 1000000000.
Definition from_secs (s : Z) : Z := (s * nanos_per_sec)%Z.
Definition from_millis (ms : Z) : Z := (ms * 1000000)%Z.
Definition as_secs (d : Z) : Z := (d / nanos_per_sec)%Z.
Definition subsec_nanos (d : Z) : Z := (d mod nanos_per_sec)%Z.

(** [Instant - Instant] and [saturating_duration_since]: zero when time went
    backwards. *)
Definition duration_since (later earlier : Z) : Z := Z.max (later - earlier) 0.

(** ** ASCII case *)

Definition is_ascii_lower (c : ascii) : bool :=
  (97 <=? N_of_ascii c)%N && (N_of_ascii c <=? 122)%N.
Definition is_ascii_upper (c : ascii) : bool :=
  (65 <=? N_of_ascii c)%N && (N_of_ascii c <=? 90)%N.
Definition is_ascii_digit (c : ascii) : bool :=
  (48 <=? N_of_ascii c)%N && (N_of_ascii c <=? 57)%N.

Definition ascii_upper (c : ascii) : ascii :=
  if is_ascii_lower c then ascii_of_N (N_of_ascii c - 32) else c.
Definition ascii_lower (c : ascii) : ascii :=
  if is_ascii_upper c then ascii_of_N (N_of_ascii c + 32) else c.

Fixpoint string_map (f : ascii → ascii) (s : string) : string :=
  match s with
  | EmptyString => EmptyString
  | String c s => String (f c) (string_map f s)
  end.

Definition to_ascii_uppercase : string → string := string_map ascii_upper.
Definition to_ascii_lowercase : string → string := string_map ascii_lower.
Definition eq_ignore_ascii_case (a b : string) : bool :=
  String.eqb (to_ascii_lowercase a) (to_ascii_lowercase b).

(** [str::strip_prefix]. *)
Fixpoint strip_prefix (p s : string) : option string :=
  match p, s with
  | EmptyString, _ => Some s
  | String c p, String c' s => if Ascii.eqb c c' then strip_prefix p s else None
  | String _ _, EmptyString => None
  end.

(** [{byte:02x}] for every byte. *)
Definition hex_char (n : N) : ascii :=
  if (n <? 10)%N then ascii_of_N (48 + n) else ascii_of_N (87 + n).

Fixpoint hex_bytes (b : string) : string :=
  match b with
  | EmptyString => EmptyString
  | String c b =>
      String (hex_char (N_of_ascii c / 16)) (String (hex_char (N_of_ascii c mod 16)) (hex_bytes b))
  end.

(** [slice::contains] on a list of strings. *)
Definition contains (l : list string) (s : string) : bool := bool_decide (s ∈ l).

(** ** Ordered maps *)

(** [BTreeMap::first_key_value] and [pop_first] over a finite map whose keys
    have a decidable total order. *)
Section OrderedMap.
Context {K A : Type} `{Countable K} (R : relation K) `{!RelDecision R, !PartialOrder R, !Total R}.

Definition first_of (l : list (K * A)) : option (K * A) :=
  foldr (λ kv best,
    match best with
    | None => Some kv
    | Some b => if decide (R kv.1 b.1) then Some kv else Some b
    end) None l.

Definition first_key_value (m : gmap K A) : option (K * A) := first_of (map_to_list m).

Definition pop_first (m : gmap K A) : option (K * A) * gmap K A :=
  match first_key_value m with
  | None => (None, m)
  | Some kv => (Some kv, delete kv.1 m)
  end.
End OrderedMap.

(** ** Automation *)

(** Hints and rewrite rules that close the routine side conditions. *)
Create HintDb srh discriminated.
Create Rewrite HintDb srh_simpl.

(** Destructs the scrutinee of every [match] of the goal and of the
    hypotheses, keeping the equations. *)
Ltac break_match :=
  match goal with
  | |- context [match ?x with _ => _ end] => destruct x eqn:?
  | H : context [match ?x with _ => _ end] |- _ => destruct x eqn:?
  end.

Ltac break_matches := repeat (break_match; simplify_eq/=).

(** Turns boolean comparisons into propositions. *)
Ltac bools :=
  repeat match goal with
  | H : (_ && _)%bool = true |- _ => apply andb_true_iff in H; destruct H
  | H : (_ || _)%bool = false |- _ => apply orb_false_iff in H; destruct H
  | H : (_ || _)%bool = true |- _ => apply orb_true_iff in H
  | H : (_ && _)%bool = false |- _ => apply andb_false_iff in H
  | H : negb _ = true |- _ => apply negb_true_iff in H
  | H : negb _ = false |- _ => apply negb_false_iff in H
  | H : bool_decide _ = true |- _ => apply bool_decide_eq_true in H
  | H : bool_decide _ = false |- _ => apply bool_decide_eq_false in H
  | H : String.eqb _ _ = true |- _ => apply String.eqb_eq in H
  | H : String.eqb _ _ = false |- _ => apply String.eqb_neq in H
  end.

(** Linear arithmetic with division and remainder by constants. *)
Ltac lia_div := zify; Z.to_euclidean_division_equations; lia.

(** Case analysis on the 256 values of a byte. *)
Ltac byte_cases c := destruct c as [[] [] [] [] [] [] [] []].

(** ** Lemmas *)

Section OrderedMapFacts.
Context {K A : Type} `{Countable K} (R : relation K) `{!RelDecision R, !PartialOrder R, !Total R}.

Lemma first_of_None (l : list (K * A)) : first_of R l = None ↔ l = [].
Proof.
  split; [|by intros ->]. destruct l as [|kv l]; [done|]. simpl.
  destruct (first_of R l); [case_decide|]; done.
Qed.

Lemma first_of_Some (l : list (K * A)) kv :
  first_of R l = Some kv → kv ∈ l ∧ ∀ kv', kv' ∈ l → R kv.1 kv'.1.
Proof.
  revert kv. induction l as [|x l IH]; intros kv; [done|]. simpl.
  destruct (first_of R l) as [b|] eqn:Hb.
  - destruct (IH b eq_refl) as [Hin Hmin]. case_decide as Hx; intros [= <-].
    + split; [left|]. intros kv' [->|Hk]%elem_of_cons; [reflexivity|].
      etrans; [done|]. by apply Hmin.
    + split; [by right|]. intros kv' [->|Hk]%elem_of_cons; [|by apply Hmin].
      destruct (total R x.1 b.1); done.
  - intros [= <-]. apply first_of_None in Hb as ->.
    split; [left|]. intros kv' [->|Hk%elem_of_nil]%elem_of_cons; [reflexivity|done].
Qed.

Lemma first_key_value_None (m : gmap K A) : first_key_value R m = None ↔ m = ∅.
Proof. unfold first_key_value. by rewrite first_of_None, map_to_list_empty_iff. Qed.

Lemma first_key_value_Some (m : gmap K A) k a :
  first_key_value R m = Some (k, a) →
  m !! k = Some a ∧ ∀ k' a', m !! k' = Some a' → R k k'.
Proof.
  intros [Hin Hmin]%first_of_Some. split; [by apply elem_of_map_to_list|].
  intros k' a' Hk'. apply (Hmin (k', a')). by apply elem_of_map_to_list.
Qed.
End OrderedMapFacts.

(** A decidable property of bytes holds when it is checked on all of them. *)
Lemma byte_forall (P : ascii → bool) :
  forallb (λ k, P (ascii_of_N (N.of_nat k))) (seq 0 256) = true → ∀ c, P c = true.
Proof.
  rewrite List.forallb_forall. intros Hall c.
  rewrite <- (ascii_N_embedding c), <- (N2Nat.id (N_of_ascii c)).
  apply Hall, List.in_seq. pose proof (N_ascii_bounded c). lia.
Qed.

Lemma ascii_upper_idem c : ascii_upper (ascii_upper c) = ascii_upper c.
Proof. by byte_cases c. Qed.

Lemma ascii_lower_upper c : ascii_lower (ascii_upper c) = ascii_lower c.
Proof. by byte_cases c. Qed.

Lemma ascii_upper_lower c : ascii_upper (ascii_lower c) = ascii_upper c.
Proof. by byte_cases c. Qed.

Lemma string_map_compose f g s : string_map f (string_map g s) = string_map (f ∘ g) s.
Proof. induction s; f_equal/=; auto. Qed.

Lemma string_map_ext f g s : (∀ c, f c = g c) → string_map f s = string_map g s.
Proof. intros Hfg. induction s; f_equal/=; auto. Qed.

Lemma string_map_length f s : String.length (string_map f s) = String.length s.
Proof. induction s; f_equal/=; auto. Qed.

Lemma to_ascii_uppercase_idem s :
  to_ascii_uppercase (to_ascii_uppercase s) = to_ascii_uppercase s.
Proof.
  unfold to_ascii_uppercase. rewrite string_map_compose.
  apply string_map_ext, ascii_upper_idem.
Qed.

Lemma to_ascii_lowercase_upper s :
  to_ascii_lowercase (to_ascii_uppercase s) = to_ascii_lowercase s.
Proof.
  unfold to_ascii_uppercase, to_ascii_lowercase. rewrite string_map_compose.
  apply string_map_ext, ascii_lower_upper.
Qed.

Lemma to_ascii_uppercase_lower s :
  to_ascii_uppercase (to_ascii_lowercase s) = to_ascii_uppercase s.
Proof.
  unfold to_ascii_uppercase, to_ascii_lowercase. rewrite string_map_compose.
  apply string_map_ext, ascii_upper_lower.
Qed.

(** Two strings are equal up to ASCII case when they have the same upper-case
    form. *)
Lemma eq_ignore_ascii_case_iff a b :
  eq_ignore_ascii_case a b = true ↔ to_ascii_uppercase a = to_ascii_uppercase b.
Proof.
  unfold eq_ignore_ascii_case. rewrite String.eqb_eq. split; intros Heq.
  - by rewrite <- (to_ascii_uppercase_lower a), Heq, to_ascii_uppercase_lower.
  - by rewrite <- (to_ascii_lowercase_upper a), Heq, to_ascii_lowercase_upper.
Qed.

Lemma string_length_append (a b : string) :
  String.length (a +:+ b) = String.length a + String.length b.
Proof. induction a; simpl; unfold String.app in *; simpl; auto. Qed.

Lemma strip_prefix_app p s : strip_prefix p (p +:+ s) = Some s.
Proof. induction p as [|c p IH]; [done|]. unfold String.append. cbn. by rewrite Ascii.eqb_refl. Qed.

Lemma hex_bytes_length b : String.length (hex_bytes b) = 2 * String.length b.
Proof. induction b as [|c b IH]; [done|]. simpl. lia. Qed.

(** Loops and ladders of guards succeed when every step does. *)
Lemma try_for_each_ok {A E} (f : A → result unit E) l :
  try_for_each f l = Ok tt ↔ Forall (λ a, f a = Ok tt) l.
Proof.
  induction l as [|a l IH]; simpl; [split; by constructor|].
  rewrite Forall_cons, <- IH. destruct (f a) as [[]|]; split; try done; by intros [? ?].
Qed.

Lemma guard_ok {E} (b : bool) (e : E) (k : result unit E) :
  (if b then Err e else k) = Ok tt ↔ b = false ∧ k = Ok tt.
Proof. destruct b; split; try done; by intros [? ?]. Qed.

Lemma let_ok {E} (r : result unit E) (k : result unit E) :
  (let? _ := r in k) = Ok tt ↔ r = Ok tt ∧ k = Ok tt.
Proof. destruct r as [[]|]; split; try done; by intros [? ?]. Qed.

Lemma contains_true l s : contains l s = true ↔ s ∈ l.
Proof. apply bool_decide_eq_true. Qed.

Lemma contains_false l s : contains l s = false ↔ s ∉ l.
Proof. apply bool_decide_eq_false. Qed.

Lemma list_filter_ext_elem {A} (P Q : A → Prop) `{!∀ x, Decision (P x), !∀ x, Decision (Q x)}
    (l : list A) :
  (∀ x, x ∈ l → P x ↔ Q x) → filter P l = filter Q l.
Proof.
  induction l as [|x l IH]; intros Hpq; [done|]. rewrite !filter_cons.
  rewrite IH by (intros y Hy; apply Hpq; by right).
  destruct (Hpq x ltac:(left)). repeat case_decide; tauto || done.
Qed.

Lemma decide_elem_of_cons_ne {A B} `{!EqDecision A} (x y : A) (l : list A) (a b : B) :
  x ≠ y → (if decide (x ∈ y :: l) then a else b) = (if decide (x ∈ l) then a else b).
Proof. intros Hne. repeat case_decide; set_solver. Qed.

(** ** Labelled steps *)

(** A step of a labelled system, whatever its label. *)
Definition some_step {L S : Type} (step : L → S → S → Prop) (s s' : S) : Prop := ∃ l, step l s s'.

Lemma some_step_once {L S : Type} (step : L → S → S → Prop) l s s' : step l s s' → rtc (some_step step) s s'.
Proof. intros Hs. apply rtc_once. by exists l. Qed.

Lemma run_labelled {L S : Type} (step : L → S → S → Prop) l s s' : rtc (step l) s s' → rtc (some_step step) s s'.
Proof. apply rtc_subrel. intros x y Hs. by exists l. Qed.

(** What every step preserves, every run preserves. *)
Lemma run_preserves {L S : Type} (step : L → S → S → Prop) (I : S → Prop) :
  (∀ l s s', I s → step l s s' → I s') → ∀ s s', rtc (some_step step) s s' → I s → I s'.
Proof. intros Hstep. induction 1 as [|s1 s2 s3 [l Hl] _ IH]; eauto. Qed.

(** Runs are carried along a map that carries steps to runs. *)
Lemma run_simulates {L S T : Type} (step : L → S → S → Prop) (R : T → T → Prop) (f : S → T) :
  (∀ l s s', step l s s' → rtc R (f s) (f s')) → ∀ s s', rtc (some_step step) s s' → rtc R (f s) (f s').
Proof. intros Hstep. induction 1 as [|s1 s2 s3 [l Hl] _ IH]; [done|]. etrans; eauto. Qed.

#[export] Hint Rewrite to_ascii_uppercase_idem to_ascii_lowercase_upper
  to_ascii_uppercase_lower string_map_length : srh_simpl.
