(* ===== verification/Domain.v ===== *)
(** * Domain data: RESP values, errors, identities and commands

    The enums and structs of [src/src/domain/resp.rs],
    [src/src/domain/identity.rs] and the command record of
    [src/src/ports/mod.rs].  A Rust [String] and a [Bytes] buffer are both a
    Rocq [string], that is a sequence of 8-bit bytes (the [String]s are those
    that are valid UTF-8, see [Utf8.v]); a [HashSet<String>] is a
    [gset string]. *)
From S2P Require Import Prelude.

(** Raw bytes of a [Bytes] buffer. *)
Abbreviation bytes := string.

(** ** RESP values and errors *)

(** A transport-independent RESP2 value. *)
Module RespValue.
Inductive RespValue : Type :=
| Simple (s : string)
| Bulk (b : bytes)
| Int (z : Z)
| Nil
| Array (l : list RespValue).
End RespValue.
Abbreviation RespValue := RespValue.RespValue.

(** The induction principle that reaches into the arrays. *)
Section RespValueInd.
Context (P : RespValue → Prop).
Hypothesis HSimple : ∀ s, P (RespValue.Simple s).
Hypothesis HBulk : ∀ b, P (RespValue.Bulk b).
Hypothesis HInt : ∀ z, P (RespValue.Int z).
Hypothesis HNil : P RespValue.Nil.
Hypothesis HArray : ∀ l, Forall P l → P (RespValue.Array l).

Fixpoint RespValue_nested_ind (v : RespValue) : P v :=
  match v with
  | RespValue.Simple s => HSimple s
  | RespValue.Bulk b => HBulk b
  | RespValue.Int z => HInt z
  | RespValue.Nil => HNil
  | RespValue.Array l =>
      HArray l ((fix go (l : list RespValue) : Forall P l :=
        match l with
        | [] => List.Forall_nil P
        | v :: l => List.Forall_cons P v l (RespValue_nested_ind v) (go l)
        end) l)
  end.
End RespValueInd.

(** A command execution failure. *)
Module ExecError.
Inductive ExecError : Type :=
| Transport (message : string)
| Timeout
| Redis (message : string)
| ResponseTooLarge.
End ExecError.
Abbreviation ExecError := ExecError.ExecError.

(** [impl Display for ExecError]. *)
Definition exec_error_display (e : ExecError) : string :=
  match e with
  | ExecError.Transport message | ExecError.Redis message => message
  | ExecError.Timeout => "Redis command timed out"
  | ExecError.ResponseTooLarge => "Redis response is too large"
  end.

(** A bounded pool-acquisition failure. *)
Module AcquireError.
Inductive AcquireError : Type :=
| UnknownPool (pool : string)
| Overloaded
| PoolOpen (retry_after_secs : Z)
| Internal (message : string).
End AcquireError.
Abbreviation AcquireError := AcquireError.AcquireError.

(** [impl Display for AcquireError]. *)
Definition acquire_error_display (e : AcquireError) : string :=
  match e with
  | AcquireError.UnknownPool pool => "unknown Redis pool '" +:+ pool +:+ "'"
  | AcquireError.Overloaded => "Redis pool is overloaded"
  | AcquireError.PoolOpen _ => "Redis backend is unavailable"
  | AcquireError.Internal message => message
  end.

(** Result of a readiness PING for a built pool. *)
Module PoolReadinessStatus.
Inductive PoolReadinessStatus : Type :=
| Ready
| Unavailable (reason : string).
End PoolReadinessStatus.
Abbreviation PoolReadinessStatus := PoolReadinessStatus.PoolReadinessStatus.

(** Readiness of an already-built Redis pool. *)
Record PoolReadiness : Type := mkPoolReadiness {
  readiness_pool : string;
  readiness_status : PoolReadinessStatus;
}.

(** ** Identities *)

(** Authenticated permissions and routing information. *)
Record Identity : Type := mkIdentity {
  subject : string;
  bucket_key : string;
  pool : string;
  read_only : bool;
  is_admin : bool;
  legacy : bool;
  allowed_commands : option (gset string);
  blocked_commands : gset string;
  allowed_script_sha256 : gset string;
  key_prefix : option string;
}.

(** A JWT verification algorithm selected from trusted JWK metadata. *)
Module JwtAlgorithm.
Inductive JwtAlgorithm : Type := Rs256 | Rs384 | Rs512 | Es256 | Es384.
End JwtAlgorithm.
Abbreviation JwtAlgorithm := JwtAlgorithm.JwtAlgorithm.

(** Trusted verification-key material cached by a JWKS source. *)
Record CachedKey : Type := mkCachedKey {
  algorithm : JwtAlgorithm;
  material : bytes;
}.

(** A definitive authentication failure or a dependency outage. *)
Module AuthError.
Inductive AuthError : Type :=
| Rejected
| Forbidden (message : string)
| ServiceUnavailable (message : string).
End AuthError.
Abbreviation AuthError := AuthError.AuthError.

(** [impl Display for AuthError]. *)
Definition auth_error_display (e : AuthError) : string :=
  match e with
  | AuthError.Rejected => "authentication rejected"
  | AuthError.Forbidden message | AuthError.ServiceUnavailable message => message
  end.

Module JwksError.
Inductive JwksError : Type :=
| NotFound
| Unavailable (message : string).
End JwksError.
Abbreviation JwksError := JwksError.JwksError.

(** [impl Display for JwksError]. *)
Definition jwks_error_display (e : JwksError) : string :=
  match e with
  | JwksError.NotFound => "no matching signing key"
  | JwksError.Unavailable message => message
  end.

(** [string_error!(IntrospectError)]: a newtype around its text. *)
Record IntrospectError : Type := mkIntrospectError { introspect_message : string }.

(** ** Commands *)

(** A raw Redis command after request argument conversion. *)
Record RedisCommand : Type := mkRedisCommand {
  name : string;
  args : list bytes;
}.

(** ** Decidable equality *)

#[export] Instance ExecError_eq_dec : EqDecision ExecError.
Proof. solve_decision. Defined.
#[export] Instance AcquireError_eq_dec : EqDecision AcquireError.
Proof. solve_decision. Defined.
#[export] Instance AuthError_eq_dec : EqDecision AuthError.
Proof. solve_decision. Defined.
#[export] Instance JwksError_eq_dec : EqDecision JwksError.
Proof. solve_decision. Defined.
#[export] Instance JwtAlgorithm_eq_dec : EqDecision JwtAlgorithm.
Proof. solve_decision. Defined.
#[export] Instance CachedKey_eq_dec : EqDecision CachedKey.
Proof. solve_decision. Defined.
#[export] Instance RedisCommand_eq_dec : EqDecision RedisCommand.
Proof. solve_decision. Defined.
#[export] Instance Identity_eq_dec : EqDecision Identity.
Proof. solve_decision. Defined.

(** Equality of nested values needs the nested recursion. *)
#[export] Instance RespValue_eq_dec : EqDecision RespValue.
Proof.
  refine (fix go v w : Decision (v = w) :=
    match v, w with
    | RespValue.Simple s, RespValue.Simple s' => cast_if (decide (s = s'))
    | RespValue.Bulk b, RespValue.Bulk b' => cast_if (decide (b = b'))
    | RespValue.Int z, RespValue.Int z' => cast_if (decide (z = z'))
    | RespValue.Nil, RespValue.Nil => left eq_refl
    | RespValue.Array l, RespValue.Array l' => cast_if (@list_eq_dec _ go l l')
    | _, _ => right _
    end); abstract congruence.
Defined.
