(* ===== verification/Utf8.v ===== *)
(** * UTF-8 validity and lossy decoding

    What the program uses of the standard library's text handling:
    [str::from_utf8] (validity) and [String::from_utf8_lossy], which replaces
    every maximal ill-formed part of the input by U+FFFD (bytes EF BF BD).
    [utf8_chunks] is the decoder both are defined from; it follows
    [core::str::lossy], character by character.  With them, the characters of a
    text and which are white space. *)
From S2P Require Import Prelude.

Definition byte_in (lo hi : N) (c : ascii) : bool :=
  (lo <=? N_of_ascii c)%N && (N_of_ascii c <=? hi)%N.

(** A continuation byte, 10xxxxxx. *)
Definition is_cont (c : ascii) : bool := byte_in 128 191 c.

(** The table [UTF8_CHAR_WIDTH]; 0 for a byte no character starts with. *)
Definition utf8_char_width (c : ascii) : nat :=
  if byte_in 0 127 c then 1
  else if byte_in 194 223 c then 2
  else if byte_in 224 239 c then 3
  else if byte_in 240 244 c then 4
  else 0.

(** The second byte of a three- or four-byte character: shortest form, no
    surrogates, no code point above U+10FFFF. *)
Definition second_ok (b c : ascii) : bool :=
  if Ascii.eqb b "224" then byte_in 160 191 c
  else if Ascii.eqb b "237" then byte_in 128 159 c
  else if Ascii.eqb b "240" then byte_in 144 191 c
  else if Ascii.eqb b "244" then byte_in 128 143 c
  else is_cont c.

(** The characters of a byte string, [None] for an ill-formed part. *)
Fixpoint utf8_chunks (s : string) : list (option string) :=
  match s with
  | EmptyString => []
  | String b s1 =>
      match utf8_char_width b with
      | 1 => Some (String b EmptyString) :: utf8_chunks s1
      | 2 =>
          match s1 with
          | String c1 s2 =>
              if is_cont c1 then Some (String b (String c1 EmptyString)) :: utf8_chunks s2
              else None :: utf8_chunks s1
          | EmptyString => [None]
          end
      | 3 =>
          match s1 with
          | String c1 s2 =>
              if second_ok b c1 then
                match s2 with
                | String c2 s3 =>
                    if is_cont c2
                    then Some (String b (String c1 (String c2 EmptyString))) :: utf8_chunks s3
                    else None :: utf8_chunks s2
                | EmptyString => [None]
                end
              else None :: utf8_chunks s1
          | EmptyString => [None]
          end
      | 4 =>
          match s1 with
          | String c1 s2 =>
              if second_ok b c1 then
                match s2 with
                | String c2 s3 =>
                    if is_cont c2 then
                      match s3 with
                      | String c3 s4 =>
                          if is_cont c3
                          then Some (String b (String c1 (String c2 (String c3 EmptyString))))
                                 :: utf8_chunks s4
                          else None :: utf8_chunks s3
                      | EmptyString => [None]
                      end
                    else None :: utf8_chunks s2
                | EmptyString => [None]
                end
              else None :: utf8_chunks s1
          | EmptyString => [None]
          end
      | _ => None :: utf8_chunks s1
      end
  end.

Definition REPLACEMENT : string := String "239" (String "191" (String "189" EmptyString)).

Definition concat_string (l : list string) : string := foldr String.append EmptyString l.

(** [str::from_utf8(..).is_ok()]. *)
Definition valid_utf8 (s : string) : bool := forallb (λ o, bool_decide (is_Some o)) (utf8_chunks s).

Definition from_utf8_lossy (s : string) : string :=
  concat_string (default REPLACEMENT <$> utf8_chunks s).

(** The characters with the Unicode property [White_Space], as UTF-8. *)
Definition is_whitespace (c : string) : bool :=
  match String.list_ascii_of_string c with
  | [b] => let n := N_of_ascii b in ((9 <=? n) && (n <=? 13) || (n =? 32))%N
  | ["194"%char; b] => let n := N_of_ascii b in ((n =? 133) || (n =? 160))%N
  | ["225"%char; "154"%char; "128"%char] => true
  | ["226"%char; "128"%char; b] =>
      let n := N_of_ascii b in ((128 <=? n) && (n <=? 138) || (n =? 168) || (n =? 169) || (n =? 175))%N
  | ["226"%char; "129"%char; "159"%char] => true
  | ["227"%char; "128"%char; "128"%char] => true
  | _ => false
  end.

(** The characters of a valid UTF-8 text. *)
Definition chars (s : string) : list string := omap id (utf8_chunks s).

Fixpoint take_while {A} (f : A → bool) (l : list A) : list A :=
  match l with
  | [] => []
  | x :: l => if f x then x :: take_while f l else []
  end.

Fixpoint drop_while {A} (f : A → bool) (l : list A) : list A :=
  match l with
  | [] => []
  | x :: l' => if f x then drop_while f l' else l
  end.

(** ** Lemmas *)

(** Induction over the decoder: one character or one ill-formed part at a
    time. *)
Inductive decoded : string → list (option string) → Prop :=
| decoded_nil : decoded EmptyString []
| decoded_char c s l :
    c ≠ EmptyString → utf8_chunks c = [Some c] →
    (∀ t, utf8_chunks (String.append c t) = Some c :: utf8_chunks t) →
    decoded s l → decoded (String.append c s) (Some c :: l)
| decoded_bad b s t l :
    (* the ill-formed part starts with a byte that is not ASCII *)
    byte_in 0 127 b = false →
    decoded s l → decoded (String b (String.append t s)) (None :: l).

Lemma utf8_chunks_decoded s : decoded s (utf8_chunks s).
Proof.
  remember (String.length s) as n eqn:Hn. assert (String.length s ≤ n) as Hle by lia. clear Hn.
  revert s Hle. induction n as [|n IH]; intros s Hle.
  { destruct s; [constructor|simpl in Hle; lia]. }
  assert (∀ b t s', s = String b (String.append t s') → byte_in 0 127 b = false →
    decoded s (None :: utf8_chunks s')) as Hbad.
  { intros b t s' -> Hb. apply decoded_bad; [done|]. apply IH. simpl in Hle.
    rewrite string_length_append in Hle. lia. }
  destruct s as [|b s1]; [constructor|]. cbn [utf8_chunks].
  destruct (utf8_char_width b) as [|[|[|[|[|]]]]] eqn:Hw.
  - apply (Hbad b ""); [done|]. unfold utf8_char_width in Hw. by break_matches.
  - apply (decoded_char (String b EmptyString)); [done| |..].
    + cbn. by rewrite Hw.
    + intros t. unfold String.append. cbn. by rewrite Hw.
    + apply IH. simpl in Hle. lia.
  - assert (byte_in 0 127 b = false) by (unfold utf8_char_width in Hw; by break_matches).
    destruct s1 as [|c1 s2]; [by apply (Hbad b "" EmptyString)|].
    destruct (is_cont c1) eqn:H1; [|by apply (Hbad b "")].
    apply (decoded_char (String b (String c1 EmptyString))); [done| |..].
    + cbn. by rewrite Hw, H1.
    + intros t. unfold String.append. cbn. by rewrite Hw, H1.
    + apply IH. simpl in Hle. lia.
  - assert (byte_in 0 127 b = false) by (unfold utf8_char_width in Hw; by break_matches).
    destruct s1 as [|c1 s2]; [by apply (Hbad b "" EmptyString)|].
    destruct (second_ok b c1) eqn:H1; [|by apply (Hbad b "")].
    destruct s2 as [|c2 s3]; [by apply (Hbad b (String c1 "") EmptyString)|].
    destruct (is_cont c2) eqn:H2; [|by apply (Hbad b (String c1 ""))].
    apply (decoded_char (String b (String c1 (String c2 EmptyString)))); [done| |..].
    + cbn. by rewrite Hw, H1, H2.
    + intros t. unfold String.append. cbn. by rewrite Hw, H1, H2.
    + apply IH. simpl in Hle. lia.
  - assert (byte_in 0 127 b = false) by (unfold utf8_char_width in Hw; by break_matches).
    destruct s1 as [|c1 s2]; [by apply (Hbad b "" EmptyString)|].
    destruct (second_ok b c1) eqn:H1; [|by apply (Hbad b "")].
    destruct s2 as [|c2 s3]; [by apply (Hbad b (String c1 "") EmptyString)|].
    destruct (is_cont c2) eqn:H2; [|by apply (Hbad b (String c1 ""))].
    destruct s3 as [|c3 s4]; [by apply (Hbad b (String c1 (String c2 "")) EmptyString)|].
    destruct (is_cont c3) eqn:H3; [|by apply (Hbad b (String c1 (String c2 "")))].
    apply (decoded_char (String b (String c1 (String c2 (String c3 EmptyString))))); [done| |..].
    + cbn. by rewrite Hw, H1, H2, H3.
    + intros t. unfold String.append. cbn. by rewrite Hw, H1, H2, H3.
    + apply IH. simpl in Hle. lia.
  - unfold utf8_char_width in Hw. by break_matches.
Qed.

Lemma concat_string_cons c l : concat_string (c :: l) = c +:+ concat_string l.
Proof. done. Qed.

(** Valid text is decoded to itself. *)
Lemma from_utf8_lossy_valid s : valid_utf8 s = true → from_utf8_lossy s = s.
Proof.
  unfold valid_utf8, from_utf8_lossy. induction (utf8_chunks_decoded s) as [|c s l ?? _ _ IH|];
    [done| |done].
  cbn [forallb fmap list_fmap default]. intros Hv. rewrite concat_string_cons. f_equal. auto.
Qed.

Lemma chars_concat s : valid_utf8 s = true → concat_string (chars s) = s.
Proof.
  unfold valid_utf8, chars. induction (utf8_chunks_decoded s) as [|c s l ?? _ _ IH|]; [done| |done].
  cbn [forallb omap list_omap id]. intros Hv. rewrite concat_string_cons. f_equal. auto.
Qed.

(** The result of lossy decoding is always valid text. *)
Lemma from_utf8_lossy_is_valid s : valid_utf8 (from_utf8_lossy s) = true.
Proof.
  unfold valid_utf8, from_utf8_lossy. induction (utf8_chunks_decoded s) as [|c s l ?? Hc _ IH|b s t l ? _ IH];
    [done|..]; cbn [fmap list_fmap default]; rewrite concat_string_cons.
  - rewrite Hc. exact IH.
  - exact IH.
Qed.

(** Lossy decoding at most triples the number of bytes. *)
Lemma from_utf8_lossy_length s :
  String.length (from_utf8_lossy s) ≤ 3 * String.length s.
Proof.
  unfold from_utf8_lossy. induction (utf8_chunks_decoded s) as [|c s l ?? Hc _ IH|b s t l ? _ IH];
    [done|..]; cbn [fmap list_fmap default]; rewrite concat_string_cons, string_length_append; simpl.
  - rewrite string_length_append. lia.
  - rewrite string_length_append. lia.
Qed.

(** Text of ASCII characters only. *)
Definition is_ascii (s : string) : bool := forallb (byte_in 0 127) (String.list_ascii_of_string s).

Lemma is_ascii_app s t : is_ascii (s +:+ t) = is_ascii s && is_ascii t.
Proof.
  unfold is_ascii. induction s as [|c s IH]; [done|].
  unfold String.append; cbn. fold (String.append s t). by rewrite IH, andb_assoc.
Qed.

(** Lossy decoding cannot make a keyword out of other bytes: when the result
    is ASCII, it is the input. *)
Lemma from_utf8_lossy_ascii s : is_ascii (from_utf8_lossy s) = true → from_utf8_lossy s = s.
Proof.
  unfold from_utf8_lossy. induction (utf8_chunks_decoded s) as [|c s l ?? Hc _ IH|b s t l ? _ IH];
    [done|..]; cbn [fmap list_fmap default]; rewrite concat_string_cons, is_ascii_app.
  - intros [_ Ha]%andb_true_iff. f_equal. auto.
  - done.
Qed.

Lemma is_ascii_upper_iff s : is_ascii (to_ascii_uppercase s) = is_ascii s.
Proof.
  unfold is_ascii, to_ascii_uppercase. induction s as [|c s IH]; [done|].
  cbn [string_map String.list_ascii_of_string forallb]. rewrite IH. f_equal. by byte_cases c.
Qed.

(** ASCII text is valid. *)
Lemma is_ascii_valid s : is_ascii s = true → valid_utf8 s = true.
Proof.
  unfold is_ascii, valid_utf8. induction s as [|c s IH]; [done|].
  cbn [String.list_ascii_of_string forallb]. intros [Hc Hs]%andb_true_iff.
  cbn [utf8_chunks]. unfold utf8_char_width. rewrite Hc. cbn [forallb]. auto.
Qed.

Lemma from_utf8_lossy_ascii_id s : is_ascii s = true → from_utf8_lossy s = s.
Proof. intros. by apply from_utf8_lossy_valid, is_ascii_valid. Qed.

(** ASCII case does not change how bytes group into characters. *)
Lemma upper_width c : utf8_char_width (ascii_upper c) = utf8_char_width c.
Proof. by byte_cases c. Qed.

Lemma upper_cont c : is_cont (ascii_upper c) = is_cont c.
Proof. by byte_cases c. Qed.

Lemma upper_byte_in lo hi c : (128 ≤ lo)%N → byte_in lo hi (ascii_upper c) = byte_in lo hi c.
Proof.
  intros Hlo. unfold byte_in. destruct (decide (N_of_ascii c < 128)%N) as [Hc|Hc].
  - assert (N_of_ascii (ascii_upper c) < 128)%N as Hc' by (revert Hc; by byte_cases c).
    rewrite (proj2 (N.leb_gt lo (N_of_ascii c))), (proj2 (N.leb_gt lo (N_of_ascii (ascii_upper c)))) by lia.
    done.
  - assert (ascii_upper c = c) as ->; [|done]. revert Hc. by byte_cases c.
Qed.

Lemma upper_second b c : second_ok (ascii_upper b) (ascii_upper c) = second_ok b c.
Proof.
  assert (∀ x, (128 ≤ N_of_ascii x)%N → Ascii.eqb (ascii_upper b) x = Ascii.eqb b x) as Hb.
  { intros x Hx. destruct (decide (N_of_ascii b < 128)%N) as [Hlt|Hge].
    - assert (N_of_ascii (ascii_upper b) < 128)%N by (revert Hlt; by byte_cases b).
      assert (ascii_upper b ≠ x ∧ b ≠ x) as [H1%Ascii.eqb_neq H2%Ascii.eqb_neq]
        by (split; intros Heq; rewrite Heq in *; lia).
      by rewrite H1, H2.
    - assert (ascii_upper b = b) as ->; [|done]. revert Hge. by byte_cases b. }
  unfold second_ok. rewrite !Hb by done. unfold is_cont. by rewrite !upper_byte_in.
Qed.

Lemma utf8_chunks_upper s :
  utf8_chunks (to_ascii_uppercase s) = fmap (M:=option) to_ascii_uppercase <$> utf8_chunks s.
Proof.
  remember (String.length s) as n eqn:Hn. assert (String.length s ≤ n) as Hle by lia. clear Hn.
  revert s Hle. induction n as [|n IH]; intros [|b s1] Hle; [done|cbn in Hle; lia|done|].
  assert (∀ o s', String.length s' ≤ n →
    fmap (M:=option) to_ascii_uppercase o :: utf8_chunks (to_ascii_uppercase s') =
      fmap (M:=option) to_ascii_uppercase <$> o :: utf8_chunks s') as Hstep.
  { intros o s' Hs'. by rewrite fmap_cons, (IH s' Hs'). }
  unfold to_ascii_uppercase in *. cbn [String.length] in Hle.
  cbn [string_map utf8_chunks]. rewrite upper_width.
  destruct (utf8_char_width b) as [|[|[|[|[|]]]]].
  - apply (Hstep None). lia.
  - apply (Hstep (Some (String b EmptyString))). lia.
  - destruct s1 as [|c1 s2]; [done|]. cbn [string_map String.length] in *. rewrite upper_cont.
    destruct (is_cont c1); [|apply (Hstep None (String c1 s2)); cbn; lia].
    apply (Hstep (Some (String b (String c1 EmptyString)))). lia.
  - destruct s1 as [|c1 s2]; [done|]. cbn [string_map String.length] in *. rewrite upper_second.
    destruct (second_ok b c1); [|apply (Hstep None (String c1 s2)); cbn; lia].
    destruct s2 as [|c2 s3]; [done|]. cbn [string_map String.length] in *. rewrite upper_cont.
    destruct (is_cont c2); [|apply (Hstep None (String c2 s3)); cbn; lia].
    apply (Hstep (Some (String b (String c1 (String c2 EmptyString))))). lia.
  - destruct s1 as [|c1 s2]; [done|]. cbn [string_map String.length] in *. rewrite upper_second.
    destruct (second_ok b c1); [|apply (Hstep None (String c1 s2)); cbn; lia].
    destruct s2 as [|c2 s3]; [done|]. cbn [string_map String.length] in *. rewrite upper_cont.
    destruct (is_cont c2); [|apply (Hstep None (String c2 s3)); cbn; lia].
    destruct s3 as [|c3 s4]; [done|]. cbn [string_map String.length] in *. rewrite upper_cont.
    destruct (is_cont c3); [|apply (Hstep None (String c3 s4)); cbn; lia].
    apply (Hstep (Some (String b (String c1 (String c2 (String c3 EmptyString)))))). lia.
  - apply (Hstep None). lia.
Qed.

Lemma valid_utf8_upper s : valid_utf8 (to_ascii_uppercase s) = valid_utf8 s.
Proof.
  unfold valid_utf8. rewrite utf8_chunks_upper. induction (utf8_chunks s) as [|[c|] l IH]; [done|..]; cbn; done.
Qed.
