(* ===== verification/F64.v ===== *)
(** * IEEE 754 double precision

    [f64] as the Standard Library's [spec_float] with 53 bits of mantissa and
    exponent bound 1024, and the operations the rate limiter uses: arithmetic
    rounds to nearest even; comparisons are false on NaN; [min] and [max]
    return the other operand when one is NaN; the cast to [u64] truncates and
    saturates. *)
From Stdlib Require Import SpecFloat.
From S2P Require Import Prelude.

Abbreviation f64 := spec_float.

Definition f64_add : f64 → f64 → f64 := SFadd 53 1024.
Definition f64_sub : f64 → f64 → f64 := SFsub 53 1024.
Definition f64_mul : f64 → f64 → f64 := SFmul 53 1024.
Definition f64_div : f64 → f64 → f64 := SFdiv 53 1024.
Definition f64_neg : f64 → f64 := SFopp.
Definition f64_le : f64 → f64 → bool := SFleb.
Definition f64_lt : f64 → f64 → bool := SFltb.

(** [z as f64] for an unsigned integer. *)
Definition f64_of_Z (z : Z) : f64 := binary_normalize 53 1024 z 0 false.

Definition f64_zero : f64 := S754_zero false.
Definition f64_one : f64 := f64_of_Z 1.

Definition is_nan (x : f64) : bool :=
  match x with S754_nan => true | _ => false end.
Definition is_finite (x : f64) : bool :=
  match x with S754_zero _ | S754_finite _ _ _ => true | _ => false end.

Definition f64_min (x y : f64) : f64 :=
  if is_nan x then y else if is_nan y then x else if f64_le x y then x else y.
Definition f64_max (x y : f64) : f64 :=
  if is_nan x then y else if is_nan y then x else if f64_le y x then x else y.

(** [f64::ceil]: a number with a non-negative exponent is an integer. *)
Definition f64_ceil (x : f64) : f64 :=
  match x with
  | S754_finite s m e =>
      if decide (0 ≤ e)%Z then x
      else if s then
        let q := (Z.pos m `div` 2 ^ (- e))%Z in
        if decide (q = 0)%Z then S754_zero true else f64_neg (f64_of_Z q)
      else f64_of_Z (- ((- Z.pos m) / 2 ^ (- e)))
  | _ => x
  end.

(** [x as u64]. *)
Definition f64_as_u64 (x : f64) : Z :=
  match x with
  | S754_zero _ | S754_nan => 0
  | S754_infinity s => if s then 0 else u64_max
  | S754_finite s m e =>
      if s then 0
      else if decide (0 ≤ e)%Z then Z.min (Z.pos m * 2 ^ e) u64_max
      else Z.min (Z.pos m `div` 2 ^ (- e)) u64_max
  end.

(** [Duration::as_secs_f64]. *)
Definition as_secs_f64 (d : Z) : f64 :=
  f64_add (f64_of_Z (as_secs d)) (f64_div (f64_of_Z (subsec_nanos d)) (f64_of_Z nanos_per_sec)).

(** ** Comparison facts *)

Lemma f64_min_le_r x y : is_nan y = false → f64_le (f64_min x y) y = true.
Proof.
  intros Hy. unfold f64_min. rewrite Hy.
  assert (f64_le y y = true) as Hrefl.
  { destruct y as [s|s| |s m e]; try done; try (by destruct s). unfold f64_le, SFleb. simpl.
    rewrite Z.compare_refl. fold (Pos.compare m m). rewrite Pos.compare_refl. by destruct s. }
  destruct (is_nan x); [done|]. by destruct (f64_le x y) eqn:?.
Qed.

Lemma f64_min_not_nan x y : is_nan y = false → is_nan (f64_min x y) = false.
Proof. intros Hy. unfold f64_min. rewrite Hy. by destruct (is_nan x) eqn:?, (f64_le x y). Qed.

(** Below a finite bound and not at or below zero: a finite number. *)
Lemma f64_positive_finite x y :
  is_finite y = true → f64_le x y = true → is_nan x = false → f64_le x f64_zero = false →
  is_finite x = true.
Proof.
  intros Hy Hle Hx Hpos. destruct x as [s|[]| |s m e]; try done.
  unfold f64_le, SFleb in Hle. by destruct y.
Qed.

(** ** Rounding of integers *)

Lemma digits2_pos_bounds p :
  (2 ^ (Z.pos (digits2_pos p) - 1) ≤ Z.pos p < 2 ^ Z.pos (digits2_pos p))%Z.
Proof.
  induction p as [p IH|p IH|]; simpl digits2_pos; [| |done].
  all: rewrite Pos2Z.inj_succ.
  all: replace (Z.succ (Z.pos (digits2_pos p)) - 1)%Z
         with (Z.succ (Z.pos (digits2_pos p) - 1)) by lia.
  all: rewrite !Z.pow_succ_r by lia; lia.
Qed.

Lemma shr_1_m r : (0 ≤ shr_m r)%Z → shr_m (shr_1 r) = (shr_m r / 2)%Z.
Proof.
  destruct r as [[|[p|p|]|p] rr rs]; simpl; intros Hm; try done; try lia.
  - rewrite Pos2Z.inj_xI. apply (Z.div_unique _ _ _ 1); lia.
  - rewrite Pos2Z.inj_xO. apply (Z.div_unique _ _ _ 0); lia.
Qed.

Lemma iter_shr_m p r :
  (0 ≤ shr_m r)%Z → shr_m (SpecFloat.iter_pos shr_1 p r) = (shr_m r / 2 ^ Z.pos p)%Z.
Proof.
  revert r. induction p as [p IH|p IH|]; intros r Hr; simpl.
  - assert (0 ≤ shr_m (shr_1 r))%Z by (rewrite shr_1_m by done; by apply Z.div_pos).
    rewrite !IH, shr_1_m; [|done|done|rewrite IH by done; apply Z.div_pos; [done|lia]].
    rewrite !Z.div_div by lia. f_equal. rewrite Pos2Z.inj_xI.
    rewrite <- Z.pow_add_r, <- Z.pow_succ_r by lia. f_equal. lia.
  - rewrite !IH; [|done|rewrite IH by done; apply Z.div_pos; [done|lia]].
    rewrite Z.div_div by lia. f_equal. rewrite Pos2Z.inj_xO.
    rewrite <- Z.pow_add_r by lia. f_equal. lia.
  - by apply shr_1_m.
Qed.

(** Shifting keeps a mantissa non-negative, and positive when the shift is
    shorter than it. *)
Lemma shr_fexp_m m e l :
  (0 ≤ m)%Z → (0 ≤ shr_m (shr_fexp 53 1024 m e l).1)%Z.
Proof.
  intros Hm. unfold shr_fexp, shr.
  assert (shr_m (shr_record_of_loc m l) = m) as Hr by (by destruct l as [|[]]).
  case_match; simpl; rewrite ?iter_shr_m, Hr; rewrite ?Hr; try done.
  apply Z.div_pos; lia.
Qed.

Lemma round_nearest_even_nonneg m l : (0 ≤ m)%Z → (0 ≤ round_nearest_even m l)%Z.
Proof. destruct l as [|[]]; simpl; try case_match; lia. Qed.

(** Rounding a non-negative mantissa never produces NaN. *)
Lemma binary_round_aux_not_nan s m e l :
  (0 ≤ m)%Z → is_nan (binary_round_aux 53 1024 s m e l) = false.
Proof.
  intros Hm. unfold binary_round_aux.
  pose proof (shr_fexp_m m e l Hm) as H1.
  destruct (shr_fexp 53 1024 m e l) as [mrs1 e1]; simpl in H1.
  pose proof (shr_fexp_m _ e1 loc_Exact
    (round_nearest_even_nonneg _ (loc_of_shr_record mrs1) H1)) as H2.
  destruct (shr_fexp 53 1024 _ e1 loc_Exact) as [mrs2 e2]; simpl in H2.
  destruct (shr_m mrs2); [done| |lia]. by case_match.
Qed.

Lemma binary_normalize_not_nan z e s : is_nan (binary_normalize 53 1024 z e s) = false.
Proof.
  destruct z; [done| |]; simpl; unfold binary_round; case_match; by apply binary_round_aux_not_nan.
Qed.

(** The difference of two finite numbers is a number. *)
Lemma f64_sub_not_nan x y :
  is_finite x = true → is_finite y = true → is_nan (f64_sub x y) = false.
Proof.
  intros Hx Hy. destruct x as [sx|sx| |sx mx ex], y as [sy|sy| |sy my ey]; try done;
    try (by destruct sx, sy).
  apply binary_normalize_not_nan.
Qed.

(** ** Conversions of positive integers stay positive *)

(** A mantissa and exponent whose value is at least one. *)
Definition at_least_one (m e : Z) : Prop :=
  (1 ≤ m ∧ (e < 0 → 2 ^ (- e) ≤ m))%Z.

Lemma iter_xO p k : Z.pos (Pos.iter xO p k) = (Z.pos p * 2 ^ Z.pos k)%Z.
Proof.
  induction k as [|k IH] using Pos.peano_ind.
  - change (2 ^ 1)%Z with 2%Z. simpl. lia.
  - rewrite Pos.iter_succ, Pos2Z.inj_xO, IH, Pos2Z.inj_succ, Z.pow_succ_r by lia. ring.
Qed.

Lemma shr_at_least_one m e l :
  (-1000 ≤ e)%Z → at_least_one m e →
  let r := shr_fexp 53 1024 m e l in at_least_one (shr_m r.1) r.2 ∧ (-1000 ≤ r.2)%Z.
Proof.
  intros He [Hm Hme]. destruct m as [|m|m]; [lia| |lia].
  unfold shr_fexp, shr, at_least_one. cbn [Zdigits2].
  pose proof (digits2_pos_bounds m) as Hd.
  assert (shr_m (shr_record_of_loc (Z.pos m) l) = Z.pos m) as Hr by (by destruct l as [|[]]).
  destruct (fexp 53 1024 (Z.pos (digits2_pos m) + e) - e)%Z as [|k|k] eqn:Hk; simpl;
    rewrite ?iter_shr_m, Hr by lia; rewrite ?Hr; try (split_and!; done).
  assert (Z.pos k = Z.pos (digits2_pos m) - 53)%Z as Hkd.
  { unfold fexp, emin in Hk. lia. }
  assert (2 ^ Z.pos k ≤ Z.pos m)%Z as Hkm.
  { etrans; [apply Z.pow_le_mono_r; [lia|]|apply Hd]. lia. }
  split_and!; [|intros He'|lia].
  - apply Z.div_le_lower_bound; lia.
  - apply Z.div_le_lower_bound; [lia|]. rewrite <- Z.pow_add_r by lia.
    replace (Z.pos k + - (e + Z.pos k))%Z with (- e)%Z by lia. apply Hme. lia.
Qed.

Lemma round_at_least_one m e :
  (-1000 ≤ e)%Z → at_least_one m e →
  (1 ≤ f64_as_u64 (binary_round_aux 53 1024 false m e loc_Exact))%Z.
Proof.
  intros He Hm. unfold binary_round_aux.
  pose proof (shr_at_least_one m e loc_Exact He Hm) as [[H1 H1'] He1].
  destruct (shr_fexp 53 1024 m e loc_Exact) as [mrs1 e1]; simpl in *.
  assert (at_least_one (round_nearest_even (shr_m mrs1) (loc_of_shr_record mrs1)) e1) as H2.
  { unfold at_least_one. destruct (loc_of_shr_record mrs1) as [|[]]; simpl; try case_match; lia. }
  pose proof (shr_at_least_one _ e1 loc_Exact He1 H2) as [[H3 H3'] _].
  destruct (shr_fexp 53 1024 _ e1 loc_Exact) as [mrs2 e2]; simpl in *.
  destruct (shr_m mrs2) as [|m2|m2]; [lia| |lia].
  case_match; simpl; [|done]. assert (1 ≤ u64_max)%Z by done.
  case_decide.
  - pose proof (Z.pow_pos_nonneg 2 e2). nia.
  - apply Z.min_glb; [|done]. apply Z.div_le_lower_bound; lia.
Qed.

Lemma of_Z_as_u64_pos n : (1 ≤ n)%Z → (1 ≤ f64_as_u64 (f64_of_Z n))%Z.
Proof.
  intros Hn. destruct n as [|p|p]; [lia| |lia]. unfold f64_of_Z, binary_normalize, binary_round.
  unfold shl_align. rewrite !Z.add_0_r, Z.sub_0_r.
  destruct (fexp 53 1024 (Z.pos (digits2_pos p))) as [|k|k] eqn:Hk;
    apply round_at_least_one; unfold at_least_one; try lia.
  - unfold fexp, emin in Hk. lia.
  - rewrite iter_xO. split; [pose proof (Z.pow_pos_nonneg 2 (Z.pos k)); nia|].
    intros _. rewrite Pos2Z.opp_neg. nia.
Qed.

(** [x.ceil().max(1.0) as u64] is at least one, NaN and infinities included. *)
Lemma ceil_max_one x : (1 ≤ f64_as_u64 (f64_max (f64_ceil x) f64_one))%Z.
Proof.
  unfold f64_max. destruct (is_nan (f64_ceil x)); [done|]. change (is_nan f64_one) with false.
  destruct (f64_le f64_one (f64_ceil x)) eqn:Hle; [|done].
  destruct x as [s|s| |s m e]; try done; [by destruct s|]. simpl in *.
  case_decide as He.
  - destruct s; [by vm_compute in Hle|]. simpl. rewrite decide_True by done.
    pose proof (Z.pow_pos_nonneg 2 e). assert (1 ≤ u64_max)%Z by done. nia.
  - destruct s.
    + case_decide; [done|].
      assert (1 ≤ Z.pos m `div` 2 ^ (- e))%Z as Hq.
      { pose proof (Z.div_pos (Z.pos m) (2 ^ (- e))). lia. }
      destruct (Z.pos m `div` 2 ^ (- e))%Z as [|q|q]; [lia| |lia].
      pose proof (binary_normalize_not_nan (Z.pos q) 0 false) as Hnn.
      pose proof (of_Z_as_u64_pos (Z.pos q) Hq) as Hpos. unfold f64_of_Z in *.
      destruct (binary_normalize 53 1024 (Z.pos q) 0 false) as [[]|[]| |[] ? ?]; done.
    + apply of_Z_as_u64_pos.
      assert ((- Z.pos m) `div` 2 ^ (- e) < 0)%Z; [|lia].
      apply Z.div_lt_upper_bound; lia.
Qed.

(** ** Signs *)

(** Not below zero (NaN and both zeros included). *)
Definition f64_nonneg (x : f64) : Prop := f64_lt x f64_zero = false.

Lemma f64_nonneg_cases x :
  f64_nonneg x ↔
    match x with S754_infinity s | S754_finite s _ _ => s = false | _ => True end.
Proof. unfold f64_nonneg, f64_lt, SFltb. by destruct x as [s|[]| |[] m e]. Qed.

Lemma binary_round_aux_nonneg m e l : f64_nonneg (binary_round_aux 53 1024 false m e l).
Proof.
  apply f64_nonneg_cases. unfold binary_round_aux.
  repeat (case_match; simplify_eq; try done).
Qed.

Lemma f64_of_Z_nonneg z : (0 ≤ z)%Z → f64_nonneg (f64_of_Z z).
Proof.
  intros Hz. destruct z; [done| |lia]. unfold f64_of_Z, binary_normalize, binary_round.
  case_match. apply binary_round_aux_nonneg.
Qed.

Lemma f64_add_nonneg x y : f64_nonneg x → f64_nonneg y → f64_nonneg (f64_add x y).
Proof.
  rewrite (f64_nonneg_cases x), (f64_nonneg_cases y). intros Hx Hy.
  destruct x as [sx|sx| |sx mx ex], y as [sy|sy| |sy my ey]; simplify_eq/=; try done;
    try (by destruct sx, sy).
  unfold f64_add, SFadd. simpl. unfold binary_round. case_match. apply binary_round_aux_nonneg.
Qed.

Lemma f64_mul_nonneg x y : f64_nonneg x → f64_nonneg y → f64_nonneg (f64_mul x y).
Proof.
  rewrite (f64_nonneg_cases x), (f64_nonneg_cases y). intros Hx Hy.
  destruct x as [sx|sx| |sx mx ex], y as [sy|sy| |sy my ey]; simplify_eq/=; try done.
  apply binary_round_aux_nonneg.
Qed.

Lemma f64_div_nonneg x y : f64_nonneg x → f64_nonneg y → y ≠ S754_zero true →
  f64_nonneg (f64_div x y).
Proof.
  rewrite (f64_nonneg_cases x), (f64_nonneg_cases y). intros Hx Hy Hz.
  destruct x as [sx|sx| |sx mx ex], y as [sy|sy| |sy my ey]; simplify_eq/=; try done;
    try (by destruct sy).
  unfold f64_div, SFdiv. repeat case_match. apply binary_round_aux_nonneg.
Qed.

Lemma f64_min_nonneg x y : f64_nonneg x → f64_nonneg y → f64_nonneg (f64_min x y).
Proof. unfold f64_min. by repeat case_match. Qed.

Lemma as_secs_f64_nonneg d : (0 ≤ d)%Z → f64_nonneg (as_secs_f64 d).
Proof.
  intros Hd. unfold as_secs_f64, as_secs, subsec_nanos. apply f64_add_nonneg.
  - apply f64_of_Z_nonneg. by apply Z.div_pos.
  - apply f64_div_nonneg; [|done|by vm_compute].
    apply f64_of_Z_nonneg. by apply Z.mod_pos_bound.
Qed.

(** For a number, [0.0 <= x] is the negation of [x < 0.0]. *)
Lemma f64_le_zero_nonneg x : is_nan x = false → f64_le f64_zero x = negb (f64_lt x f64_zero).
Proof. by destruct x as [s|[]| |[] m e]. Qed.

#[export] Hint Resolve f64_of_Z_nonneg f64_add_nonneg f64_mul_nonneg f64_min_nonneg
  as_secs_f64_nonneg : srh.

(** ** Integers below 2^64 convert to finite numbers *)

Lemma digits_le m k : (0 ≤ k)%Z → (Z.pos m < 2 ^ k)%Z → (Z.pos (digits2_pos m) ≤ k)%Z.
Proof.
  intros Hk Hm. pose proof (digits2_pos_bounds m) as [Hd _].
  assert (Z.pos (digits2_pos m) - 1 < k)%Z; [|lia].
  apply (Z.pow_lt_mono_r_iff 2); lia.
Qed.

Lemma shr_fexp_bound m e l :
  (0 ≤ m < 2 ^ 65)%Z → (-52 ≤ e ≤ 100)%Z →
  let r := shr_fexp 53 1024 m e l in
  (0 ≤ shr_m r.1 ≤ m)%Z ∧ (-52 ≤ r.2 ≤ Z.max e (12 + e))%Z.
Proof.
  intros Hm He. unfold shr_fexp, shr.
  assert (shr_m (shr_record_of_loc m l) = m) as Hr by (by destruct l as [|[]]).
  assert (0 ≤ Zdigits2 m ≤ 65)%Z as Hd.
  { destruct m as [|m|m]; simpl; [lia| |lia]. split; [lia|]. apply digits_le; lia. }
  destruct (fexp 53 1024 (Zdigits2 m + e) - e)%Z as [|k|k] eqn:Hk; simpl;
    rewrite ?iter_shr_m, Hr by lia; rewrite ?Hr; unfold fexp, emin in Hk; split_and!; try lia.
  - apply Z.div_pos; lia.
  - apply Z.div_le_upper_bound; [lia|]. pose proof (Z.pow_pos_nonneg 2 (Z.pos k)). nia.
Qed.

Lemma round_finite s m e :
  (0 ≤ m < 2 ^ 64)%Z → (-52 ≤ e ≤ 0)%Z →
  is_finite (binary_round_aux 53 1024 s m e loc_Exact) = true.
Proof.
  intros Hm He. unfold binary_round_aux.
  pose proof (shr_fexp_bound m e loc_Exact ltac:(lia) ltac:(lia)) as [H1 He1].
  destruct (shr_fexp 53 1024 m e loc_Exact) as [mrs1 e1]; simpl in *.
  assert (0 ≤ round_nearest_even (shr_m mrs1) (loc_of_shr_record mrs1) < 2 ^ 65)%Z as H2.
  { destruct (loc_of_shr_record mrs1) as [|[]]; simpl; try case_match; lia. }
  pose proof (shr_fexp_bound _ e1 loc_Exact H2 ltac:(lia)) as [H3 He2].
  destruct (shr_fexp 53 1024 _ e1 loc_Exact) as [mrs2 e2]; simpl in *.
  destruct (shr_m mrs2); [done| |lia].
  destruct (Z.leb_spec e2 (1024 - 53)); [done|lia].
Qed.

Lemma f64_of_Z_finite z : in_u64 z → is_finite (f64_of_Z z) = true.
Proof.
  unfold in_u64, u64_max. intros Hz. destruct z as [|p|p]; [done| |lia].
  unfold f64_of_Z, binary_normalize, binary_round, shl_align. rewrite !Z.add_0_r, Z.sub_0_r.
  pose proof (digits_le p 64 ltac:(lia) ltac:(lia)) as Hd.
  destruct (fexp 53 1024 (Z.pos (digits2_pos p))) as [|k|k] eqn:Hk;
    unfold fexp, emin in Hk; apply round_finite; try lia.
  rewrite iter_xO. pose proof (digits2_pos_bounds p) as [_ Hp].
  split; [lia|]. apply Z.lt_le_trans with (2 ^ Z.pos (digits2_pos p) * 2 ^ Z.pos k)%Z.
  - apply Z.mul_lt_mono_pos_r; [lia|done].
  - rewrite <- Z.pow_add_r by lia. apply Z.pow_le_mono_r; lia.
Qed.
