(* ===== verification/Acl.v ===== *)
(** * The command policy of [src/src/domain/acl.rs] and the argument
      normalisation of [src/src/domain/compat.rs]

    [check] decides whether an identity may run a converted command.  The
    SHA-256 of the [sha2] crate is the section variable [sha256]; nothing is
    assumed of it.  [permitted] states the policy declaratively and
    [check_decides_policy] shows that the code implements it; the other
    theorems are the security consequences the comments of the code claim. *)
From S2P Require Import Prelude Domain Utf8.

(** ** Tables *)

Definition HARD_DENY : list string :=
  ["CONFIG"; "SHUTDOWN"; "DEBUG"; "SLAVEOF"; "REPLICAOF"; "MIGRATE"; "MODULE"; "SAVE";
   "BGSAVE"; "BGREWRITEAOF"; "LASTSAVE"; "ACL"; "CLIENT"; "CLUSTER"; "LATENCY"; "MONITOR";
   "PSYNC"; "SYNC"; "FAILOVER"; "RESET"; "SLOWLOG"; "COMMAND"; "MEMORY"; "HELLO"; "SELECT";
   "SWAPDB"; "AUTH"; "QUIT"; "MULTI"; "EXEC"; "DISCARD"; "WATCH"; "UNWATCH"; "SUBSCRIBE";
   "PSUBSCRIBE"; "UNSUBSCRIBE"; "PUNSUBSCRIBE"; "SSUBSCRIBE"; "SUNSUBSCRIBE"; "PUBLISH";
   "PUBSUB"; "BLPOP"; "BRPOP"; "BLMOVE"; "BRPOPLPUSH"; "BLMPOP"; "BZPOPMIN"; "BZPOPMAX";
   "BZMPOP"; "WAIT"; "WAITAOF"; "SCRIPT"; "FUNCTION"].

Definition SCRIPTING : list string :=
  ["EVAL"; "EVALSHA"; "EVALSHA_RO"; "EVAL_RO"; "FCALL"; "FCALL_RO"].

Definition DEFAULT_BLOCK : list string :=
  ["FLUSHALL"; "FLUSHDB"; "KEYS"; "RANDOMKEY"; "INFO"; "DBSIZE"].

Definition READ_COMMANDS : list string :=
  ["GET"; "MGET"; "GETRANGE"; "STRLEN"; "EXISTS"; "TYPE"; "TTL"; "PTTL"; "EXPIRETIME";
   "PEXPIRETIME"; "HGET"; "HMGET"; "HGETALL"; "HKEYS"; "HVALS"; "HLEN"; "HEXISTS"; "HSTRLEN";
   "HRANDFIELD"; "LRANGE"; "LLEN"; "LINDEX"; "LPOS"; "SMEMBERS"; "SISMEMBER"; "SMISMEMBER";
   "SCARD"; "SRANDMEMBER"; "SINTER"; "SUNION"; "SDIFF"; "SINTERCARD"; "ZRANGE";
   "ZRANGEBYSCORE"; "ZRANGEBYLEX"; "ZREVRANGE"; "ZREVRANGEBYSCORE"; "ZREVRANGEBYLEX";
   "ZSCORE"; "ZMSCORE"; "ZCARD"; "ZCOUNT"; "ZLEXCOUNT"; "ZRANK"; "ZREVRANK"; "ZRANDMEMBER";
   "GETBIT"; "BITCOUNT"; "BITPOS"; "BITFIELD_RO"; "XRANGE"; "XREVRANGE"; "XLEN"; "XREAD";
   "XINFO"; "GEOPOS"; "GEODIST"; "GEOHASH"; "GEOSEARCH"; "PFCOUNT"; "OBJECT"; "DUMP";
   "TOUCH"; "TIME"; "PING"; "ECHO"; "SORT_RO"; "LCS"; "SUBSTR"].

(** A pure command-policy rejection. *)
Module AclError.
Inductive AclError : Type :=
| InvalidCommand
| Forbidden (message : string).
End AclError.
Abbreviation AclError := AclError.AclError.

#[export] Instance AclError_eq_dec : EqDecision AclError.
Proof. solve_decision. Defined.

(** ** Helpers *)

Definition denied (name : string) : AclError :=
  AclError.Forbidden ("NOPERM this token does not have permission to run '" +:+ name +:+ "'").

Definition hex_digest (b : bytes) : string := hex_bytes b.

(** The explicit admin allowlist: command and upper-cased first argument. *)
Definition admin_allow (name : string) (subcommand : option bytes) : bool :=
  let subcommand := (to_ascii_uppercase ∘ from_utf8_lossy) <$> subcommand in
  if String.eqb name "CONFIG" then from_option (contains ["GET"]) false subcommand
  else if String.eqb name "CLIENT" then from_option (contains ["LIST"; "INFO"]) false subcommand
  else if String.eqb name "SLOWLOG" then from_option (contains ["GET"; "LEN"]) false subcommand
  else if String.eqb name "INFO" then true
  else if String.eqb name "COMMAND" then
    from_option (contains ["COUNT"; "INFO"; "DOCS"]) false subcommand
  else if String.eqb name "LATENCY" then
    from_option (contains ["HISTORY"; "LATEST"]) false subcommand
  else if String.eqb name "MEMORY" then
    from_option (contains ["USAGE"; "STATS"; "DOCTOR"]) false subcommand
  else if String.eqb name "ACL" then from_option (contains ["WHOAMI"]) false subcommand
  else false.

(** Whether some argument is the keyword [k], whatever its case. *)
Definition has_keyword (k : string) (l : list bytes) : bool :=
  existsb (λ a, eq_ignore_ascii_case a k) l.

(** ** The check *)

Section Acl.
Context (sha256 : bytes → bytes).

Definition check_scripting (identity : Identity) (n : string) (command : RedisCommand) :
    result unit AclError :=
  if negb (contains SCRIPTING n) then Ok tt
  else if negb (contains ["EVAL"; "EVAL_RO"] n)
          || bool_decide (allowed_script_sha256 identity = ∅) then Err (denied n)
  else
    let? script := ok_or (denied n) (head (args command)) in
    let digest := hex_digest (sha256 script) in
    if bool_decide (digest ∉ allowed_script_sha256 identity) then Err (denied n) else Ok tt.

Definition check (identity : Identity) (command : RedisCommand) : result unit AclError :=
  if String.eqb (name command) "" then Err AclError.InvalidCommand
  else
    let n := to_ascii_uppercase (name command) in
    let admin_allowed := is_admin identity && admin_allow n (head (args command)) in
    if contains HARD_DENY n && negb admin_allowed then Err (denied n)
    else
      let? _ := check_scripting identity n command in
      if contains ["XREAD"; "XREADGROUP"] n && has_keyword "BLOCK" (args command) then
        Err (AclError.Forbidden "NOPERM blocking XREAD is not allowed")
      else if bool_decide (is_Some (key_prefix identity)) && contains ["SORT"; "SORT_RO"] n
              && existsb (λ a, eq_ignore_ascii_case a "BY" || eq_ignore_ascii_case a "GET")
                   (args command) then
        Err (denied n)
      else if bool_decide (n ∈ blocked_commands identity) then Err (denied n)
      else
        let explicitly_allowed :=
          from_option (λ commands : gset string, bool_decide (n ∈ commands)) false
            (allowed_commands identity) in
        if negb (legacy identity) && contains DEFAULT_BLOCK n && negb explicitly_allowed
           && negb admin_allowed then Err (denied n)
        else if from_option (λ commands : gset string, bool_decide (n ∉ commands)) false
                  (allowed_commands identity) then Err (denied n)
        else if read_only identity && negb (contains READ_COMMANDS n) then Err (denied n)
        else Ok tt.
End Acl.

(** ** Compatibility normalisation *)

Module Compat.
(** Applies [f] to the last element. *)
Fixpoint last_mut (f : bytes → bytes) (l : list bytes) : list bytes :=
  match l with
  | [] => []
  | [x] => [f x]
  | x :: l => x :: last_mut f l
  end.

Definition normalize (command : RedisCommand) : RedisCommand :=
  if String.eqb (name command) "GEODIST" && (length (args command) =? 4) then
    match last (args command) with
    | Some unit =>
        if contains ["M"; "KM"; "FT"; "MI"] unit
        then mkRedisCommand (name command) (last_mut to_ascii_lowercase (args command))
        else command
    | None => command
    end
  else command.
End Compat.

(** ** The policy, declaratively *)

(** The subcommands an administrator may run, by command. *)
Definition ADMIN_SUBCOMMANDS : gmap string (list string) :=
  list_to_map [("CONFIG", ["GET"]); ("CLIENT", ["LIST"; "INFO"]); ("SLOWLOG", ["GET"; "LEN"]);
    ("COMMAND", ["COUNT"; "INFO"; "DOCS"]); ("LATENCY", ["HISTORY"; "LATEST"]);
    ("MEMORY", ["USAGE"; "STATS"; "DOCTOR"]); ("ACL", ["WHOAMI"])].

(** The command name the policy looks at. *)
Abbreviation upper_name c := (to_ascii_uppercase (name c)).

Definition exempt (i : Identity) (c : RedisCommand) : Prop :=
  is_admin i = true ∧
  (upper_name c = "INFO" ∨
   ∃ a l, head (args c) = Some a ∧ ADMIN_SUBCOMMANDS !! upper_name c = Some l ∧
     to_ascii_uppercase a ∈ l).

Record permitted (sha256 : bytes → bytes) (i : Identity) (c : RedisCommand) : Prop := {
  permitted_named : name c ≠ "";
  permitted_hard : upper_name c ∈ HARD_DENY → exempt i c;
  permitted_script : upper_name c ∈ SCRIPTING →
    upper_name c ∈ ["EVAL"; "EVAL_RO"] ∧
    ∃ script, head (args c) = Some script ∧
      hex_digest (sha256 script) ∈ allowed_script_sha256 i;
  permitted_block : upper_name c ∈ ["XREAD"; "XREADGROUP"] →
    Forall (λ a, to_ascii_uppercase a ≠ "BLOCK") (args c);
  permitted_keys : is_Some (key_prefix i) → upper_name c ∈ ["SORT"; "SORT_RO"] →
    Forall (λ a, to_ascii_uppercase a ∉ ["BY"; "GET"]) (args c);
  permitted_blocked : upper_name c ∉ blocked_commands i;
  permitted_default : upper_name c ∈ DEFAULT_BLOCK →
    legacy i = true ∨ (∃ l, allowed_commands i = Some l ∧ upper_name c ∈ l) ∨ exempt i c;
  permitted_allowed : ∀ l, allowed_commands i = Some l → upper_name c ∈ l;
  permitted_read : read_only i = true → upper_name c ∈ READ_COMMANDS;
}.

(** ** Lemmas *)

(** Upper-casing the lossily decoded subcommand compares it with a keyword as
    upper-casing its bytes does. *)
Lemma keyword_lossy a k :
  is_ascii k = true →
  to_ascii_uppercase (from_utf8_lossy a) = k ↔ to_ascii_uppercase a = k.
Proof.
  intros Hk. split; intros <-; rewrite is_ascii_upper_iff in Hk.
  - by rewrite (from_utf8_lossy_ascii a Hk).
  - by rewrite (from_utf8_lossy_ascii_id a Hk).
Qed.

Lemma contains_lossy a l :
  forallb is_ascii l = true →
  contains l (to_ascii_uppercase (from_utf8_lossy a)) = contains l (to_ascii_uppercase a).
Proof.
  unfold contains. intros Hl. apply bool_decide_ext.
  induction l as [|k l IH]; [by rewrite !elem_of_nil|].
  cbn in Hl. apply andb_true_iff in Hl as [Hk Hl]. rewrite !elem_of_cons, (IH Hl).
  pose proof (keyword_lossy a k Hk). split; intros [?|?]; naive_solver.
Qed.

Lemma admin_allow_sub l o :
  forallb is_ascii l = true →
  from_option (contains l) false ((to_ascii_uppercase ∘ from_utf8_lossy) <$> o) = true ↔
  ∃ a, o = Some a ∧ to_ascii_uppercase a ∈ l.
Proof.
  intros Hl. destruct o as [a|]; cbn; [|naive_solver].
  rewrite contains_lossy, contains_true by done. naive_solver.
Qed.

Lemma admin_allow_iff i c :
  is_admin i && admin_allow (upper_name c) (head (args c)) = true ↔ exempt i c.
Proof.
  unfold exempt, admin_allow. rewrite andb_true_iff. apply and_iff_compat_l.
  generalize (upper_name c) (head (args c)); intros n o.
  assert (∀ l, n ≠ "INFO" → ADMIN_SUBCOMMANDS !! n = Some l →
    (∃ a, o = Some a ∧ to_ascii_uppercase a ∈ l) ↔
    n = "INFO" ∨ ∃ a l, o = Some a ∧ ADMIN_SUBCOMMANDS !! n = Some l ∧ to_ascii_uppercase a ∈ l)
    as Hn.
  { intros l Hi Hl. split; [intros (a & ? & ?); eauto 10|].
    intros [?|(a & l' & ? & ? & ?)]; simplify_eq; eauto. }
  repeat match goal with
  | |- context [String.eqb n ?k] => destruct (String.eqb_spec n k) as [->|]
  end; try (rewrite admin_allow_sub by reflexivity; apply Hn; [discriminate|reflexivity]).
  - split; [by left|done].
  - split; [done|]. intros [?|(a & l & _ & Hl & _)]; [done|].
    apply elem_of_list_to_map_2 in Hl. repeat (apply elem_of_cons in Hl as [[=]|Hl]; [done|]).
    by apply elem_of_nil in Hl.
Qed.

Lemma existsb_keyword (P : bytes → Prop) (f : bytes → bool) l :
  (∀ a, f a = true ↔ ¬ P a) → (∀ a, Decision (P a)) → existsb f l = false ↔ Forall P l.
Proof.
  intros Hf Hdec. rewrite Forall_forall. rewrite <- not_true_iff_false, List.existsb_exists.
  split.
  - intros Hn a Ha. destruct (Hdec a); [done|]. destruct Hn. exists a.
    split; [by apply list_elem_of_In|by apply Hf].
  - intros Hall (a & Ha%list_elem_of_In & Hfa%Hf). auto.
Qed.

Lemma has_keyword_false k l :
  to_ascii_uppercase k = k →
  has_keyword k l = false ↔ Forall (λ a, to_ascii_uppercase a ≠ k) l.
Proof.
  intros Hk. apply existsb_keyword; [|solve_decision].
  intros a. rewrite eq_ignore_ascii_case_iff, Hk. destruct (decide (to_ascii_uppercase a = k)); tauto.
Qed.

Lemma by_get_false l :
  existsb (λ a, eq_ignore_ascii_case a "BY" || eq_ignore_ascii_case a "GET") l = false ↔
  Forall (λ a, to_ascii_uppercase a ∉ ["BY"; "GET"]) l.
Proof.
  apply existsb_keyword; [|solve_decision].
  intros a. rewrite orb_true_iff, !eq_ignore_ascii_case_iff.
  change (to_ascii_uppercase "BY") with "BY". change (to_ascii_uppercase "GET") with "GET".
  generalize (to_ascii_uppercase a). intros s.
  destruct (decide (s ∈ ["BY"; "GET"])) as [Hin|Hin]; set_solver.
Qed.

Lemma existsb_Forall2 {A} (f : A → bool) l l' :
  Forall2 (λ a a', f a = f a') l l' → existsb f l = existsb f l'.
Proof. induction 1 as [|???? Hxy ? IH]; [done|]. simpl. by rewrite Hxy, IH. Qed.

Lemma andb_false_impl (a b : bool) : a && b = false ↔ (a = true → b = false).
Proof. destruct a, b; naive_solver. Qed.

Section AclFacts.
Context (sha256 : bytes → bytes).

Lemma allowed_false (o : option (gset string)) n :
  from_option (λ commands : gset string, bool_decide (n ∉ commands)) false o = false ↔
  ∀ l, o = Some l → n ∈ l.
Proof.
  destruct o as [l|]; simpl; [|split; [by intros _ l|done]].
  case_bool_decide as Hin; split; try done.
  - intros H. specialize (H l eq_refl). done.
  - intros _ l' [= <-]. by destruct (decide (n ∈ l)).
Qed.

Lemma explicitly_allowed_true (o : option (gset string)) n :
  from_option (λ commands : gset string, bool_decide (n ∈ commands)) false o = true ↔
  ∃ l, o = Some l ∧ n ∈ l.
Proof.
  destruct o as [l|]; simpl; [|split; [done|by intros (? & ? & _)]].
  rewrite bool_decide_eq_true. split; [eauto|by intros (? & [= <-] & ?)].
Qed.

Lemma check_scripting_ok i n c :
  check_scripting sha256 i n c = Ok tt ↔
  (n ∈ SCRIPTING → n ∈ ["EVAL"; "EVAL_RO"] ∧
    ∃ script, head (args c) = Some script ∧
      hex_digest (sha256 script) ∈ allowed_script_sha256 i).
Proof.
  unfold check_scripting. destruct (contains SCRIPTING n) eqn:Hs; simpl;
    [apply contains_true in Hs|apply contains_false in Hs; by split].
  destruct (contains ["EVAL"; "EVAL_RO"] n) eqn:He; simpl;
    [apply contains_true in He|apply contains_false in He; split; [done|]; by intros [? _]%(λ H, H Hs)].
  case_bool_decide as Hempty; [split; [done|]; intros (_ & s & _ & Hin)%(λ H, H Hs); set_solver|].
  destruct (head (args c)) as [script|]; simpl; [|split; [done|]; by intros (_ & s & [=] & _)%(λ H, H Hs)].
  case_bool_decide as Hd; [split; [done|]; by intros (_ & s & [= <-] & ?)%(λ H, H Hs)|].
  split; [|done]. intros _ _. split; [done|]. exists script. split; [done|]. by destruct (decide (hex_digest (sha256 script) ∈ allowed_script_sha256 i)).
Qed.

Lemma check_scripting_err i n c e : check_scripting sha256 i n c = Err e → e = denied n.
Proof.
  unfold check_scripting. destruct (head (args c)); simpl; intros;
    repeat (case_match; simplify_eq/=); done.
Qed.

(** Every refusal of a named command is the NOPERM message of that command,
    or the one about blocking reads. *)
Lemma check_err i c e :
  check sha256 i c = Err e →
  (e = AclError.InvalidCommand ∧ name c = "") ∨
  (name c ≠ "" ∧ (e = denied (upper_name c) ∨
    (e = AclError.Forbidden "NOPERM blocking XREAD is not allowed" ∧
     upper_name c ∈ ["XREAD"; "XREADGROUP"]))).
Proof.
  unfold check. destruct (String.eqb_spec (name c) "") as [Hn|Hn]; [intros [= <-]; auto|].
  intros Hc. right. split; [done|]. revert Hc.
  destruct (contains HARD_DENY _ && _); [intros [= <-]; auto|].
  destruct (check_scripting _ _ _ _) eqn:Hs; [|intros [= <-]; apply check_scripting_err in Hs; auto].
  destruct (contains ["XREAD"; "XREADGROUP"] _ && _) eqn:Hx.
  { intros [= <-]. bools. right. split; [done|]. by apply contains_true. }
  repeat (case_match; try (intros [= <-]; auto)); done.
Qed.

Lemma check_ok i c : check sha256 i c = Ok tt ↔ permitted sha256 i c.
Proof.
  unfold check. cbv zeta. rewrite guard_ok, String.eqb_neq, guard_ok, let_ok.
  rewrite !guard_ok, check_scripting_ok, <- andb_assoc.
  rewrite !andb_false_impl, !contains_true, has_keyword_false, by_get_false by reflexivity.
  rewrite !negb_false_iff, !bool_decide_eq_true, bool_decide_eq_false, admin_allow_iff.
  rewrite contains_true, allowed_false.
  split.
  - intros (Hn & Hhard & Hs & Hb & Hk & Hbl & Hd & Hal & Hr & _). split; auto.
    intros Hin. destruct (legacy i); [by left|]. right. rewrite <- explicitly_allowed_true.
    rewrite (proj2 (contains_true _ _) Hin) in Hd. simpl in Hd.
    destruct (from_option _ false (allowed_commands i)); [by left|by right; apply Hd].
  - intros [Hn Hhard Hs Hb Hk Hbl Hd Hal Hr]. split_and!; auto.
    intros [[Hl Hin%contains_true]%andb_true_iff Hx%negb_true_iff]%andb_true_iff.
    destruct (Hd Hin) as [Hleg|[Hex|?]]; [by rewrite Hleg in Hl| |done].
    apply explicitly_allowed_true in Hex. congruence.
Qed.
End AclFacts.

(** ** Properties *)

(** C11. The command check decides the policy: it succeeds exactly on the
    commands the declarative policy permits, and otherwise answers with the
    invalid-command error for an empty name, with the NOPERM message naming
    the upper-cased command, or with the blocking-read message for the XREAD
    family. *)
Theorem check_decides_policy sha256 i c :
  (check sha256 i c = Ok tt ↔ permitted sha256 i c) ∧
  ∀ e, check sha256 i c = Err e →
    (e = AclError.InvalidCommand ∧ name c = "") ∨
    (name c ≠ "" ∧ (e = denied (upper_name c) ∨
      (e = AclError.Forbidden "NOPERM blocking XREAD is not allowed" ∧
       upper_name c ∈ ["XREAD"; "XREADGROUP"]))).
Proof. split; [apply check_ok|apply check_err]. Qed.

(** The hard-denied commands with no administrative subcommand at all: the
    ones that change the state of a pooled connection, block it, or control
    the server. *)
Definition never_exempt (n : string) : Prop :=
  n ∈ HARD_DENY ∧ ADMIN_SUBCOMMANDS !! n = None.

Lemma hard_deny_not_info n : n ∈ HARD_DENY → n ≠ "INFO".
Proof. intros Hin ->. revert Hin. apply contains_false. reflexivity. Qed.

(** Unlike a permitted command, a hard-denied one names its refusal. *)
Lemma check_hard_denied sha256 i c :
  upper_name c ∈ HARD_DENY → ¬ exempt i c → check sha256 i c = Err (denied (upper_name c)).
Proof.
  intros Hin Hex. unfold check.
  destruct (String.eqb_spec (name c) "") as [Hn|_].
  { exfalso. revert Hin. rewrite Hn. apply contains_false. reflexivity. }
  apply contains_true in Hin. rewrite Hin.
  destruct (is_admin i && admin_allow _ _) eqn:Ha; [by apply admin_allow_iff in Ha|done].
Qed.

(** Commands that change the session of a pooled connection, block it or
    control the server are refused to every identity, administrators
    included, in every spelling of the name and with any arguments; a
    hard-denied command outside that set is refused to every identity that is
    not an administrator. *)
Theorem session_commands_refused sha256 i c :
  (never_exempt (upper_name c) → check sha256 i c = Err (denied (upper_name c))) ∧
  (upper_name c ∈ HARD_DENY → is_admin i = false →
   check sha256 i c = Err (denied (upper_name c))) ∧
  Forall never_exempt
    ["MULTI"; "EXEC"; "DISCARD"; "WATCH"; "UNWATCH"; "HELLO"; "SELECT"; "SWAPDB"; "AUTH"; "QUIT";
     "RESET"; "MONITOR"; "SUBSCRIBE"; "PSUBSCRIBE"; "SSUBSCRIBE"; "UNSUBSCRIBE"; "PUNSUBSCRIBE";
     "SUNSUBSCRIBE"; "BLPOP"; "BRPOP"; "BLMOVE"; "BRPOPLPUSH"; "BLMPOP"; "BZPOPMIN"; "BZPOPMAX";
     "BZMPOP"; "WAIT"; "WAITAOF"; "SCRIPT"; "FUNCTION"; "MODULE"; "MIGRATE"; "SLAVEOF";
     "REPLICAOF"; "SHUTDOWN"; "DEBUG"].
Proof.
  split_and!.
  - intros [Hin Hno]. apply check_hard_denied; [done|].
    intros [_ [Hi|(a & l & _ & Hl & _)]]; [by apply hard_deny_not_info in Hi|congruence].
  - intros Hin Ha. apply check_hard_denied; [done|]. intros [? _]. congruence.
  - repeat (apply Forall_cons; split; [split; [by apply contains_true|reflexivity]|]). by constructor.
Qed.

(** The spelling of a command does not matter: two commands whose names
    differ only in ASCII case, and whose arguments after the first do so too,
    get the same answer, error message included. *)
Theorem check_case_insensitive sha256 i c c' :
  eq_ignore_ascii_case (name c) (name c') = true → head (args c) = head (args c') →
  Forall2 (λ a a', eq_ignore_ascii_case a a' = true) (args c) (args c') →
  check sha256 i c = check sha256 i c'.
Proof.
  intros Hname%eq_ignore_ascii_case_iff Hhead Hargs.
  assert (∀ f : bytes → bool, (∀ a a', to_ascii_lowercase a = to_ascii_lowercase a' → f a = f a') →
    existsb f (args c) = existsb f (args c')) as Hex.
  { intros f Hf. apply existsb_Forall2. eapply Forall2_impl; [exact Hargs|].
    intros a a' Haa%String.eqb_eq. auto. }
  assert (∀ k, has_keyword k (args c) = has_keyword k (args c')) as Hk.
  { intros k. apply Hex. intros a a' Haa. unfold eq_ignore_ascii_case. by rewrite Haa. }
  assert (existsb (λ a, eq_ignore_ascii_case a "BY" || eq_ignore_ascii_case a "GET") (args c) =
          existsb (λ a, eq_ignore_ascii_case a "BY" || eq_ignore_ascii_case a "GET") (args c')) as Hby.
  { apply Hex. intros a a' Haa. unfold eq_ignore_ascii_case. by rewrite Haa. }
  assert (String.eqb (name c) "" = String.eqb (name c') "") as Hempty.
  { revert Hname. by destruct (name c), (name c'). }
  unfold check, check_scripting. by rewrite Hempty, Hname, Hhead, Hk, Hby.
Qed.

(** [i'] has at most the rights of [i].  An allowlist of its own must not name
    the commands that are blocked by default, since naming one is how it is
    enabled. *)
Record restricts (i' i : Identity) : Prop := {
  restricts_admin : is_admin i' = true → is_admin i = true;
  restricts_legacy : legacy i' = true → legacy i = true;
  restricts_read : read_only i = true → read_only i' = true;
  restricts_blocked : blocked_commands i ⊆ blocked_commands i';
  restricts_scripts : allowed_script_sha256 i' ⊆ allowed_script_sha256 i;
  restricts_prefix : is_Some (key_prefix i) → is_Some (key_prefix i');
  restricts_allowed : match allowed_commands i with
    | Some l => ∃ l', allowed_commands i' = Some l' ∧ l' ⊆ l
    | None => ∀ l' n, allowed_commands i' = Some l' → n ∈ l' → n ∉ DEFAULT_BLOCK
    end;
}.

Lemma exempt_restricts i' i c : restricts i' i → exempt i' c → exempt i c.
Proof. intros Hr [Ha Hs]. split; [by eapply restricts_admin|done]. Qed.

(** Restricting an identity never permits more: whatever an identity with
    at most the rights of another may run, the other may run too. *)
Theorem restriction_is_monotone sha256 i' i c :
  restricts i' i → check sha256 i' c = Ok tt → check sha256 i c = Ok tt.
Proof.
  intros Hr. rewrite !check_ok. intros [Hn Hh Hs Hb Hk Hbl Hd Hal Hre].
  pose proof (exempt_restricts _ _ c Hr) as Hex. destruct Hr as [Ha Hl Hro Hbs Hsc Hp Hall].
  assert (∀ l, allowed_commands i = Some l → upper_name c ∈ l) as Hal'.
  { intros l Hil. rewrite Hil in Hall. destruct Hall as (l' & Hl' & Hsub). eauto. }
  split; auto.
  - intros Hin. destruct (Hs Hin) as [? (s & ? & ?)]. eauto.
  - intros Hin. destruct (Hd Hin) as [?|[(l' & Hl' & Hin')|?]]; [by left; auto| |by auto].
    right; left. destruct (allowed_commands i) as [l|] eqn:Hil; [by eauto|].
    by destruct (Hall l' _ Hl' Hin').
Qed.

Definition plain_identity : Identity :=
  mkIdentity "alice" "k" "default" false false false None ∅ ∅ None.
Definition reader_identity : Identity :=
  mkIdentity "alice" "k" "default" true false false None {[ "MGET" ]} ∅ None.

Lemma restriction_is_monotone_witness :
  check (λ b, b) plain_identity (mkRedisCommand "get" ["key"]) = Ok tt.
Proof.
  apply (restriction_is_monotone (λ b, b) reader_identity).
  - split; simpl; try done; set_solver.
  - vm_compute. reflexivity.
Defined.

Lemma check_case_insensitive_witness :
  check (λ b, b) plain_identity (mkRedisCommand "xRead" ["x"; "block"]) =
  check (λ b, b) plain_identity (mkRedisCommand "XREAD" ["x"; "BLOCK"]).
Proof.
  apply (check_case_insensitive (λ b, b) plain_identity);
    [reflexivity|reflexivity|repeat constructor].
Defined.

Lemma read_commands_disjoint n :
  n ∈ READ_COMMANDS → (n ∉ HARD_DENY) ∧ (n ∉ SCRIPTING) ∧ (n ∉ DEFAULT_BLOCK).
Proof.
  assert (forallb (λ n, negb (contains HARD_DENY n) && negb (contains SCRIPTING n) &&
    negb (contains DEFAULT_BLOCK n)) READ_COMMANDS = true) as Hall by (vm_compute; reflexivity).
  rewrite List.forallb_forall in Hall. intros Hin%list_elem_of_In%Hall. bools.
  by rewrite <- !contains_false.
Qed.

(** A read-only identity is confined to the table of read commands: it
    runs no script even when the script is approved, no hard-denied and no
    default-blocked command even as an administrator, and no blocking read. *)
Theorem read_only_confined sha256 i c :
  read_only i = true → check sha256 i c = Ok tt →
  (upper_name c ∈ READ_COMMANDS) ∧
  (upper_name c ∉ HARD_DENY) ∧ (upper_name c ∉ SCRIPTING) ∧ (upper_name c ∉ DEFAULT_BLOCK) ∧
  (upper_name c = "XREAD" → Forall (λ a, to_ascii_uppercase a ≠ "BLOCK") (args c)).
Proof.
  intros Hro [_ _ _ Hb _ _ _ _ Hr]%check_ok. specialize (Hr Hro).
  destruct (read_commands_disjoint _ Hr) as (? & ? & ?). split_and!; auto.
  intros Heq. apply Hb. rewrite Heq. left.
Qed.

Lemma read_only_confined_witness : "XREAD" ∈ READ_COMMANDS.
Proof.
  apply (read_only_confined (λ b, b) reader_identity (mkRedisCommand "xread" ["COUNT"; "1"]));
    [reflexivity|vm_compute; reflexivity].
Defined.

Lemma normalize_cases c :
  Compat.normalize c = c ∨
  ∃ k m1 m2 unit, c = mkRedisCommand "GEODIST" [k; m1; m2; unit] ∧
    unit ∈ ["M"; "KM"; "FT"; "MI"] ∧
    Compat.normalize c = mkRedisCommand "GEODIST" [k; m1; m2; to_ascii_lowercase unit].
Proof.
  unfold Compat.normalize. destruct c as [n l]; simpl.
  destruct (String.eqb_spec n "GEODIST") as [->|]; simpl; [|by left].
  destruct l as [|k [|m1 [|m2 [|u [|]]]]]; simpl; try by left.
  destruct (contains _ u) eqn:Hu; [|by left]. apply contains_true in Hu. right. by eauto 10.
Qed.

Lemma check_normalize sha256 i c : check sha256 i (Compat.normalize c) = check sha256 i c.
Proof.
  destruct (normalize_cases c) as [->|(k & m1 & m2 & u & -> & Hu & ->)]; [done|].
  repeat (apply elem_of_cons in Hu as [->|Hu]; [reflexivity|]). by apply elem_of_nil in Hu.
Qed.

(** Normalisation lower-cases the unit of a four-argument GEODIST and
    changes nothing else, so it is idempotent, and since it never touches what
    the policy looks at, checking before or after it gives the same answer. *)
Theorem normalize_correct sha256 i c :
  name (Compat.normalize c) = name c ∧
  (Compat.normalize c = c ∨
   ∃ k m1 m2 unit, c = mkRedisCommand "GEODIST" [k; m1; m2; unit] ∧
     unit ∈ ["M"; "KM"; "FT"; "MI"] ∧
     Compat.normalize c = mkRedisCommand "GEODIST" [k; m1; m2; to_ascii_lowercase unit]) ∧
  Compat.normalize (Compat.normalize c) = Compat.normalize c ∧
  check sha256 i (Compat.normalize c) = check sha256 i c.
Proof.
  pose proof (normalize_cases c) as Hcases. pose proof (check_normalize sha256 i c) as Hcheck.
  destruct Hcases as [Heq|(k & m1 & m2 & u & -> & Hu & Heq)]; [by rewrite !Heq; auto|].
  split_and!; [by rewrite Heq|by eauto 10| |done]. rewrite Heq. clear -Hu.
  repeat (apply elem_of_cons in Hu as [->|Hu]; [reflexivity|]). by apply elem_of_nil in Hu.
Qed.
