(* ===== verification/Convert.v ===== *)
(** * Value conversion of [src/src/domain/convert.rs]

    Requests: [json_value_to_bytes] turns one JSON argument into the bytes
    sent to Redis.  Responses: [charge_response_budget] charges a reply against
    the response budget and bounds its nesting, and [ResponseJson] is the
    serializer that writes it; the main theorem relates the two: the charge is
    the cost of the tree the serializer is called with, and the JSON text of an
    accepted reply is at most six times what was charged for it.  The number,
    string and compact-JSON printers of [serde_json] and the base64 encoder are
    parameters. *)
From S2P Require Import Prelude Domain Utf8 F64.

(** ** [serde_json::Value] *)

(** [serde_json::Number] without the arbitrary-precision feature. *)
Module Number.
Inductive Number : Type :=
| PosInt (u : Z)
| NegInt (i : Z)
| Float (f : f64).
End Number.
Abbreviation Number := Number.Number.

(** An object is the list of the entries of a [BTreeMap], in key order. *)
Module Value.
Inductive Value : Type :=
| Null
| Bool (b : bool)
| Number (n : Number)
| String (s : string)
| Array (l : list Value)
| Object (m : list (string * Value)).
End Value.
Abbreviation Value := Value.Value.

(** ** Data *)

Definition NODE_COST : Z := 8.
Definition MAX_DEPTH : nat := 64.

Module Encoding.
Inductive Encoding : Type := None | Base64.
End Encoding.
Abbreviation Encoding := Encoding.Encoding.

#[export] Instance Encoding_eq_dec : EqDecision Encoding.
Proof. solve_decision. Defined.

Module ConversionError.
Inductive ConversionError : Type := InvalidCommand | ResponseTooLarge.
End ConversionError.
Abbreviation ConversionError := ConversionError.ConversionError.

#[export] Instance ConversionError_eq_dec : EqDecision ConversionError.
Proof. solve_decision. Defined.

(** The calls a reply makes on the serializer. *)
Module Ser.
Inductive Ser : Type :=
| Str (s : string)
| I64 (z : Z)
| Nothing
| Seq (l : list Ser).
End Ser.
Abbreviation Ser := Ser.Ser.

(** ** Requests *)

Section JsonValue.
(** [Number::to_string] and [serde_json::to_string]. *)
Context (number_to_string : Number → string) (value_to_string : Value → result string unit).

Definition json_value_to_bytes (value : Value) : result bytes ConversionError :=
  match value with
  | Value.String s => Ok s
  | Value.Number n => Ok (number_to_string n)
  | Value.Bool b => Ok (if b then "true" else "false")
  | Value.Null => Ok "null"
  | Value.Array _ | Value.Object _ =>
      map_err (λ _, ConversionError.InvalidCommand) (value_to_string value)
  end.
End JsonValue.

(** ** Responses *)

(** The length of a buffer as a [usize]. *)
Definition len (s : string) : Z := Z.of_nat (String.length s).

(** The budget is passed along: its value after an error is never read. *)
Definition charge (budget amount : Z) : result Z ConversionError :=
  ok_or ConversionError.ResponseTooLarge (checked_sub budget amount).

Definition base64_encoded_len (input_len : Z) : result Z ConversionError :=
  ok_or ConversionError.ResponseTooLarge
    (length ← checked_add input_len 2;
     let groups := (length / 3)%Z in
     checked_mul groups 4).

Fixpoint charge_within_depth (value : RespValue) (encoding : Encoding) (budget : Z)
    (depth_remaining : nat) : result Z ConversionError :=
  match depth_remaining with
  | 0 => Err ConversionError.ResponseTooLarge
  | S depth_remaining =>
      let? budget := charge budget NODE_COST in
      match value with
      | RespValue.Simple s =>
          if bool_decide (encoding = Encoding.Base64) && negb (String.eqb s "OK") then
            let? n := base64_encoded_len (len s) in charge budget n
          else charge budget (len s)
      | RespValue.Bulk b =>
          if bool_decide (encoding = Encoding.Base64) then
            let? n := base64_encoded_len (len b) in charge budget n
          else charge budget (len (from_utf8_lossy b))
      | RespValue.Int _ | RespValue.Nil => Ok budget
      | RespValue.Array values =>
          (fix go (values : list RespValue) (budget : Z) : result Z ConversionError :=
             match values with
             | [] => Ok budget
             | v :: values =>
                 let? budget := charge_within_depth v encoding budget depth_remaining in
                 go values budget
             end) values budget
      end
  end.

Definition charge_response_budget (value : RespValue) (encoding : Encoding) (budget : Z) :
    result Z ConversionError :=
  charge_within_depth value encoding budget MAX_DEPTH.

Section Serialize.
(** [STANDARD.encode] of the [base64] crate. *)
Context (base64 : bytes → string).

(** [impl Serialize for ResponseJson]. *)
Fixpoint response_json (value : RespValue) (encoding : Encoding) : Ser :=
  match value with
  | RespValue.Simple s =>
      if bool_decide (encoding = Encoding.Base64) && negb (String.eqb s "OK")
      then Ser.Str (base64 s) else Ser.Str s
  | RespValue.Bulk b =>
      if bool_decide (encoding = Encoding.Base64)
      then Ser.Str (base64 b) else Ser.Str (from_utf8_lossy b)
  | RespValue.Int z => Ser.I64 z
  | RespValue.Nil => Ser.Nothing
  | RespValue.Array values => Ser.Seq ((λ v, response_json v encoding) <$> values)
  end.
End Serialize.

(** ** What is written *)

(** What a tree of serializer calls costs: a fixed amount per node and the bytes
    of its strings, before the quotes, escapes, digits and separators of the JSON
    text. *)
Fixpoint ser_cost (s : Ser) : Z :=
  match s with
  | Ser.Str s => NODE_COST + len s
  | Ser.I64 _ | Ser.Nothing => NODE_COST
  | Ser.Seq l => NODE_COST + foldr (λ s n, ser_cost s + n)%Z 0%Z l
  end.

(** The JSON text of the tree: a string and an integer as [serde_json] prints
    them, the elements of a sequence in brackets with commas between them. *)
Section Text.
Context (json_str : string → string) (json_i64 : Z → string).

Fixpoint json_text (s : Ser) : string :=
  match s with
  | Ser.Str s => json_str s
  | Ser.I64 z => json_i64 z
  | Ser.Nothing => "null"
  | Ser.Seq l => "[" +:+ String.concat "," (json_text <$> l) +:+ "]"
  end.
End Text.

(** The integers of the tree are the 64-bit integers of a reply. *)
Fixpoint ser_i64 (s : Ser) : bool :=
  match s with
  | Ser.I64 z => bool_decide (- 2 ^ 63 ≤ z < 2 ^ 63)%Z
  | Ser.Seq l => forallb ser_i64 l
  | _ => true
  end.

Fixpoint ser_depth (s : Ser) : nat :=
  match s with
  | Ser.Seq l => S (foldr (λ s n, Nat.max (ser_depth s) n) 0 l)
  | _ => 1
  end.

(** The longest string of the tree is valid text: what is written is JSON. *)
Fixpoint ser_valid (s : Ser) : bool :=
  match s with
  | Ser.Str s => valid_utf8 s
  | Ser.I64 _ | Ser.Nothing => true
  | Ser.Seq l => forallb ser_valid l
  end.

(** ** Lemmas *)

Lemma len_nonneg s : (0 ≤ len s)%Z.
Proof. unfold len. lia. Qed.

Lemma charge_spec b n :
  charge b n =
  if decide (n ≤ b)%Z then Ok (b - n)%Z else Err ConversionError.ResponseTooLarge.
Proof. unfold charge, checked_sub. by case_decide. Qed.

(** Folding a fallible charge over a list, as the arrays do. *)
Fixpoint charge_all {A} (f : A → Z → result Z ConversionError) (l : list A) (budget : Z) :
    result Z ConversionError :=
  match l with
  | [] => Ok budget
  | a :: l => let? budget := f a budget in charge_all f l budget
  end.

Lemma charge_array values enc b d :
  charge_within_depth (RespValue.Array values) enc b (S d) =
  let? b := charge b NODE_COST in
  charge_all (λ v b, charge_within_depth v enc b d) values b.
Proof.
  simpl. destruct (charge b NODE_COST) as [b'|]; [|done].
  revert b'. induction values as [|v values IH]; intros b'; simpl; [done|].
  by destruct (charge_within_depth v enc b' d).
Qed.

(** The cost of one node, when it fits. *)
Definition charged (ok : bool) (cost b : Z) : result Z ConversionError :=
  if ok && bool_decide (cost ≤ b)%Z then Ok (b - cost)%Z else Err ConversionError.ResponseTooLarge.

Lemma charge_charged b n : charge b n = charged true n b.
Proof. rewrite charge_spec. unfold charged. repeat case_decide || case_bool_decide; done || lia. Qed.

Lemma charged_then ok1 ok2 c1 c2 b :
  (0 ≤ c2)%Z →
  (let? b := charged ok1 c1 b in charged ok2 c2 b) = charged (ok1 && ok2) (c1 + c2) b.
Proof.
  intros Hc2. unfold charged. destruct ok1; simpl; [|done].
  case_bool_decide; [|case_bool_decide; [lia|by rewrite andb_false_r]].
  destruct ok2; simpl; [|done]. repeat case_bool_decide; try lia; [f_equal; lia|done].
Qed.

Lemma charge_all_charged {A} (f : A → Z → result Z ConversionError) (ok : A → bool) (cost : A → Z) l b :
  Forall (λ a, (0 ≤ cost a)%Z ∧ ∀ b, in_u64 b → f a b = charged (ok a) (cost a) b) l →
  in_u64 b →
  charge_all f l b = charged (forallb ok l) (foldr (λ a n, cost a + n)%Z 0%Z l) b.
Proof.
  intros Hall. revert b. induction Hall as [|a l [Hc Hf] Hall IH]; intros b Hb; simpl.
  { unfold charged, in_u64 in *. simpl. rewrite bool_decide_true by lia. f_equal. lia. }
  assert (0 ≤ foldr (λ a n, cost a + n)%Z 0%Z l)%Z as Hpos.
  { clear -Hall. induction Hall as [|? ? []]; simpl; lia. }
  rewrite Hf by done. rewrite <- (charged_then (ok a)) by done.
  destruct (charged (ok a) (cost a) b) as [b'|] eqn:Hch; [|done]. apply IH.
  unfold charged, in_u64 in *. case_match; simplify_eq. bools. lia.
Qed.

Lemma foldr_max_le {A} (f : A → nat) l d :
  bool_decide (foldr (λ a n, Nat.max (f a) n) 0 l ≤ d) = forallb (λ a, bool_decide (f a ≤ d)) l.
Proof.
  induction l as [|a l IH]; cbn [foldr forallb]; [by rewrite bool_decide_true by lia|].
  rewrite <- IH. repeat case_bool_decide; simpl; done || lia.
Qed.

Lemma foldr_fmap_cost {A B} (g : A → B) (f : B → Z) l :
  foldr (λ s n, f s + n)%Z 0%Z (g <$> l) = foldr (λ a n, f (g a) + n)%Z 0%Z l.
Proof. induction l as [|a l IH]; [done|]. cbn. by rewrite <- IH. Qed.

Lemma forallb_fmap {A B} (g : A → B) (f : B → bool) l : forallb f (g <$> l) = forallb (f ∘ g) l.
Proof. induction l as [|a l IH]; simpl; [done|]. by rewrite <- IH. Qed.

Section ResponseFacts.
Context (base64 : bytes → string).
(** The encoder pads to groups of four characters. *)
Hypothesis base64_len : ∀ b, String.length (base64 b) = 4 * ((String.length b + 2) / 3).

Lemma base64_encoded_len_spec s b :
  in_u64 b →
  (let? n := base64_encoded_len (len s) in charge b n) = charge b (len (base64 s)).
Proof.
  intros Hb. unfold base64_encoded_len, checked_add, checked_mul, len. simpl.
  rewrite base64_len. set (n := String.length s).
  rewrite (Nat2Z.inj_mul 4), Nat2Z.inj_div, Nat2Z.inj_add. change (Z.of_nat 2) with 2%Z.
  change (Z.of_nat 3) with 3%Z. change (Z.of_nat 4) with 4%Z.
  pose proof (Z.div_mod (Z.of_nat n + 2) 3 ltac:(done)) as Hdiv.
  pose proof (Z.mod_pos_bound (Z.of_nat n + 2) 3 ltac:(done)) as Hmod.
  rewrite !charge_spec. unfold in_u64, u64_max in *.
  repeat (case_decide; simpl); rewrite ?charge_spec; repeat case_decide; simpl;
    try done; try (exfalso; lia); try (f_equal; lia).
Qed.

Lemma ser_cost_pos s : (NODE_COST ≤ ser_cost s)%Z.
Proof.
  revert s. fix IH 1. intros [s| | |l]; simpl; [pose proof (len_nonneg s); lia|lia|lia|].
  induction l as [|s l IHl]; simpl; [lia|]. pose proof (IH s). unfold NODE_COST in *. lia.
Qed.

Lemma charged_u64 ok b b' : in_u64 b → charged ok NODE_COST b = Ok b' → in_u64 b'.
Proof. unfold charged, in_u64, NODE_COST. intros. case_match; simplify_eq. bools. lia. Qed.

Lemma depth_zero v enc b c :
  charge_within_depth v enc b 0 =
  charged (bool_decide (ser_depth (response_json base64 v enc) ≤ 0)) c b.
Proof.
  unfold charged. rewrite bool_decide_false by (destruct v; simpl; repeat case_match; simpl; lia).
  by destruct v.
Qed.

Lemma leaf_node b d :
  (let? b' := charge b NODE_COST in Ok b') = charged (bool_decide (1 ≤ S d)) NODE_COST b.
Proof. rewrite charge_charged, bool_decide_true by lia. by destruct (charged _ _ _). Qed.

Lemma node_then b s d k :
  in_u64 b → (∀ b', in_u64 b' → k b' = charge b' (len s)) →
  (let? b' := charge b NODE_COST in k b') =
  charged (bool_decide (1 ≤ S d)) (NODE_COST + len s) b.
Proof.
  intros Hb Hk. rewrite charge_charged, bool_decide_true by lia.
  rewrite <- (charged_then true true) by apply len_nonneg.
  destruct (charged true NODE_COST b) as [b'|] eqn:Hch; [|done].
  rewrite Hk, charge_charged; [done|]. exact (charged_u64 _ _ _ Hb Hch).
Qed.

Lemma charge_within_depth_charged v enc b d :
  in_u64 b →
  charge_within_depth v enc b d =
  charged (bool_decide (ser_depth (response_json base64 v enc) ≤ d))
    (ser_cost (response_json base64 v enc)) b.
Proof.
  revert b d. induction v as [s|s|z| |l IH] using RespValue_nested_ind; intros b d Hb;
    (destruct d as [|d]; [apply depth_zero|]).
  - cbn [charge_within_depth response_json]. destruct (_ && negb _); cbn [ser_cost ser_depth].
    + apply (node_then b (base64 s)); [done|]. intros. by apply base64_encoded_len_spec.
    + by apply (node_then b s).
  - cbn [charge_within_depth response_json]. case_bool_decide; cbn [ser_cost ser_depth].
    + apply (node_then b (base64 s)); [done|]. intros. by apply base64_encoded_len_spec.
    + by apply (node_then b (from_utf8_lossy s)).
  - apply leaf_node.
  - apply leaf_node.
  - rewrite charge_array, charge_charged. cbn [response_json ser_cost ser_depth].
    rewrite (bool_decide_ext (S _ ≤ S d) (foldr (λ s n, Nat.max (ser_depth s) n) 0
      ((λ v, response_json base64 v enc) <$> l) ≤ d)) by lia.
    rewrite foldr_max_le, forallb_fmap, foldr_fmap_cost, <- (andb_true_l (forallb _ _)).
    rewrite <- charged_then.
    + destruct (charged true NODE_COST b) as [b'|] eqn:Hch; [|done].
      apply charge_all_charged; [|exact (charged_u64 _ _ _ Hb Hch)].
      eapply Forall_impl; [exact IH|]. intros v Hv. split; [|intros; by apply Hv].
      etrans; [|apply ser_cost_pos]. done.
    + clear. induction l as [|v l IHl]; simpl; [lia|].
      pose proof (ser_cost_pos (response_json base64 v enc)). unfold NODE_COST in *. lia.
Qed.
End ResponseFacts.

(** ** An encoder with the assumed behaviour *)

(** RFC 4648 base64, the instance the witnesses use. *)
Definition b64_char (n : N) : ascii :=
  if (n <? 26)%N then ascii_of_N (65 + n)
  else if (n <? 52)%N then ascii_of_N (71 + n)
  else if (n <? 62)%N then ascii_of_N (n - 4)
  else if (n =? 62)%N then "+"%char else "/"%char.

Fixpoint b64_encode (s : bytes) : string :=
  match s with
  | EmptyString => EmptyString
  | String a EmptyString =>
      let a := N_of_ascii a in
      String (b64_char (a / 4)) (String (b64_char (a mod 4 * 16)) "==")
  | String a (String b EmptyString) =>
      let a := N_of_ascii a in let b := N_of_ascii b in
      String (b64_char (a / 4)) (String (b64_char (a mod 4 * 16 + b / 16))
        (String (b64_char (b mod 16 * 4)) "="))
  | String a (String b (String c rest)) =>
      let a := N_of_ascii a in let b := N_of_ascii b in let c := N_of_ascii c in
      String (b64_char (a / 4)) (String (b64_char (a mod 4 * 16 + b / 16))
        (String (b64_char (b mod 16 * 4 + c / 64)) (String (b64_char (c mod 64))
          (b64_encode rest))))
  end.

(** Induction three bytes at a time. *)
Lemma string_ind3 (P : string → Prop) :
  P "" → (∀ a, P (String a "")) → (∀ a b, P (String a (String b ""))) →
  (∀ a b c s, P s → P (String a (String b (String c s)))) → ∀ s, P s.
Proof.
  intros H0 H1 H2 H3. fix IH 1. intros [|a [|b [|c s]]]; [exact H0|exact (H1 a)|exact (H2 a b)|exact (H3 a b c s (IH s))].
Qed.

Lemma b64_encode_length b : String.length (b64_encode b) = 4 * ((String.length b + 2) / 3).
Proof.
  induction b as [|a|a b|a b c s IH] using string_ind3; try reflexivity.
  cbn [b64_encode String.length]. rewrite IH.
  replace (S (S (S (String.length s))) + 2) with (String.length s + 2 + 1 * 3) by lia.
  rewrite Nat.div_add by done. lia.
Qed.

(** Each character stands for its own six bits, and none is the padding. *)
Definition b64_table : list ascii := b64_char ∘ N.of_nat <$> seq 0 64.

Lemma b64_char_inj m n : (m < 64)%N → (n < 64)%N → b64_char m = b64_char n → m = n.
Proof.
  intros Hm Hn Heq. assert (NoDup b64_table) as Hnd by (apply (bool_decide_unpack _); by vm_compute).
  assert (∀ k, (k < 64)%N → b64_table !! N.to_nat k = Some (b64_char k)) as Hk.
  { intros k Hk. unfold b64_table. rewrite list_lookup_fmap, lookup_seq_lt by lia. simpl.
    unfold compose. by rewrite N2Nat.id. }
  pose proof (Hk m Hm) as H1. rewrite Heq in H1.
  pose proof (NoDup_lookup _ _ _ _ Hnd H1 (Hk n Hn)). lia.
Qed.

Lemma b64_char_not_pad n : (n < 64)%N → b64_char n ≠ "="%char.
Proof.
  intros Hn. assert (forallb (λ k, negb (Ascii.eqb (b64_char (N.of_nat k)) "=")) (seq 0 64) = true)
    as Hall by (vm_compute; reflexivity).
  rewrite List.forallb_forall in Hall. specialize (Hall (N.to_nat n)).
  rewrite N2Nat.id in Hall. intros Heq. rewrite Heq in Hall.
  discriminate Hall. apply List.in_seq. lia.
Qed.

Lemma byte_bound c : (N_of_ascii c < 256)%N.
Proof. apply N_ascii_bounded. Qed.

Lemma N_of_ascii_inj a b : N_of_ascii a = N_of_ascii b → a = b.
Proof. intros Heq. by rewrite <- (ascii_N_embedding a), Heq, ascii_N_embedding. Qed.

(** The first character and the top of the second determine the first byte. *)
Lemma first_byte a b x y :
  (x < 16)%N → (y < 16)%N →
  b64_char (N_of_ascii a / 4) = b64_char (N_of_ascii b / 4) →
  b64_char (N_of_ascii a mod 4 * 16 + x) = b64_char (N_of_ascii b mod 4 * 16 + y) →
  a = b ∧ x = y.
Proof.
  intros Hx Hy H1 H2. pose proof (byte_bound a). pose proof (byte_bound b).
  apply b64_char_inj in H1; [|lia_div..]. apply b64_char_inj in H2; [|lia_div..].
  split; [apply N_of_ascii_inj|]; lia_div.
Qed.

(** So do the second with the top of the third, and the third with the last. *)
Lemma second_byte a b x y :
  (x < 4)%N → (y < 4)%N → (N_of_ascii a / 16 = N_of_ascii b / 16)%N →
  b64_char (N_of_ascii a mod 16 * 4 + x) = b64_char (N_of_ascii b mod 16 * 4 + y) →
  a = b ∧ x = y.
Proof.
  intros Hx Hy H1 H2. apply b64_char_inj in H2; [|lia_div..].
  split; [apply N_of_ascii_inj|]; lia_div.
Qed.

Lemma third_byte a b :
  (N_of_ascii a / 64 = N_of_ascii b / 64)%N →
  b64_char (N_of_ascii a mod 64) = b64_char (N_of_ascii b mod 64) → a = b.
Proof.
  intros H1 H2. apply b64_char_inj in H2; [|lia_div..]. apply N_of_ascii_inj. lia_div.
Qed.

Lemma high_bits c : (N_of_ascii c / 16 < 16)%N ∧ (N_of_ascii c / 64 < 4)%N.
Proof. pose proof (byte_bound c). lia_div. Qed.

(** A data character is not the padding. *)
Ltac pad_absurd :=
  exfalso; match goal with
  | H : "="%char = b64_char _ |- _ => symmetry in H; revert H; apply b64_char_not_pad
  | H : b64_char _ = "="%char |- _ => revert H; apply b64_char_not_pad
  end.

Lemma b64_encode_inj s t : b64_encode s = b64_encode t → s = t.
Proof.
  assert (∀ c, (0 < 16)%N ∧ (0 < 4)%N ∧ (N_of_ascii c / 16 < 16)%N ∧ (N_of_ascii c / 64 < 4)%N)
    as Hb by (intros c; destruct (high_bits c); split_and!; done).
  revert t. induction s as [|a|a b|a b c s IH] using string_ind3;
    intros [|a' [|b' [|c' t]]]; cbn [b64_encode]; try discriminate; try done;
    intros Heq; injection Heq; clear Heq; intros.
  all: try (pad_absurd; try pose proof (high_bits c); try pose proof (high_bits c'); lia_div).
  - destruct (first_byte a a' 0 0); rewrite ?N.add_0_r; try done. by subst.
  - destruct (first_byte a a' (N_of_ascii b / 16) (N_of_ascii b' / 16)); try done; try apply Hb.
    destruct (second_byte b b' 0 0); rewrite ?N.add_0_r; try done. by subst.
  - destruct (first_byte a a' (N_of_ascii b / 16) (N_of_ascii b' / 16)); try done; try apply Hb.
    destruct (second_byte b b' (N_of_ascii c / 64) (N_of_ascii c' / 64)); try done; try apply Hb.
    f_equal; [done|]. f_equal; [done|]. f_equal; [by apply third_byte|by apply IH].
Qed.

(** ** Properties *)

(** The text of a tree is at most six times its cost: a byte of a string is
    escaped to at most six, and eight covers what a node adds. *)
Section TextSize.
Context (json_str : string → string) (json_i64 : Z → string).
Hypothesis json_str_length : ∀ s, String.length (json_str s) ≤ 2 + 6 * String.length s.
Hypothesis json_i64_length : ∀ z, (- 2 ^ 63 ≤ z < 2 ^ 63)%Z → String.length (json_i64 z) ≤ 20.
Abbreviation json_text := (json_text json_str json_i64).

Lemma concat_length l :
  (len (String.concat "," l) ≤ foldr (λ s n, len s + 1 + n)%Z 0%Z l)%Z.
Proof.
  unfold len. induction l as [|s [|s' l] IH]; [done|cbn; lia|]. cbn [String.concat foldr] in *.
  rewrite !string_length_append. cbn [String.length]. lia.
Qed.

Lemma json_text_length s : ser_i64 s = true → (len (json_text s) + 1 ≤ 6 * ser_cost s)%Z.
Proof.
  revert s. fix IH 1. intros [s|z| |l] Hi; cbn [ser_cost Convert.json_text]; unfold NODE_COST.
  - pose proof (json_str_length s). unfold len. lia.
  - cbn in Hi. apply bool_decide_eq_true in Hi. pose proof (json_i64_length z Hi). unfold len. lia.
  - by vm_compute.
  - assert (foldr (λ s n, len s + 1 + n)%Z 0%Z (json_text <$> l) ≤ 6 * foldr (λ s n, ser_cost s + n)%Z 0%Z l)%Z as Hl.
    { cbn in Hi. induction l as [|s l IHl]; [done|]. cbn in Hi |- *. apply andb_true_iff in Hi as [Hs Hl].
      specialize (IHl Hl). pose proof (IH s Hs). cbn in *. lia. }
    pose proof (concat_length (json_text <$> l)). unfold len in *.
    rewrite !string_length_append. cbn [String.length]. lia.
Qed.
End TextSize.

(** C31. What is charged for a reply: eight for every node of what the
    serializer writes plus the bytes of its strings, after base64 or lossy UTF-8
    encoding and before JSON escaping.  The budget accepts a reply exactly when
    this cost fits and the nesting is at most [MAX_DEPTH]; it then takes the
    cost off the budget, and otherwise the error is always ResponseTooLarge.
    The JSON text itself, with its quotes, escapes, digits and separators, can be
    larger than the charge, but at most six times. *)
Theorem budget_charges_what_is_written (base64 : bytes → string) (json_str : string → string) (json_i64 : Z → string)
    v enc b :
  (∀ x, String.length (base64 x) = 4 * ((String.length x + 2) / 3)) →
  (∀ s, String.length (json_str s) ≤ 2 + 6 * String.length s) →
  (∀ z, (- 2 ^ 63 ≤ z < 2 ^ 63)%Z → String.length (json_i64 z) ≤ 20) →
  in_u64 b →
  let out := response_json base64 v enc in
  charge_response_budget v enc b =
    (if decide (ser_depth out ≤ MAX_DEPTH ∧ (ser_cost out ≤ b)%Z)
     then Ok (b - ser_cost out)%Z else Err ConversionError.ResponseTooLarge) ∧
  (ser_i64 out = true → ∀ left, charge_response_budget v enc b = Ok left →
     (len (json_text json_str json_i64 out) ≤ 6 * (b - left))%Z).
Proof.
  intros Hlen Hstr Hint Hb out.
  assert (charge_response_budget v enc b =
    if decide (ser_depth out ≤ MAX_DEPTH ∧ (ser_cost out ≤ b)%Z)
    then Ok (b - ser_cost out)%Z else Err ConversionError.ResponseTooLarge) as Hc.
  { unfold charge_response_budget. rewrite (charge_within_depth_charged base64 Hlen) by done. unfold charged. fold out.
    repeat case_bool_decide; case_decide; simpl; naive_solver. }
  split; [exact Hc|]. intros Hi left. rewrite Hc. case_decide; intros [= <-].
  pose proof (json_text_length json_str json_i64 Hstr Hint out Hi). lia.
Qed.

(** JSON strings and integers, for the witness: the escapes of RFC 8259. *)
Definition hex_digit (n : N) : ascii := ascii_of_N (if (n <? 10)%N then 48 + n else 87 + n).
Fixpoint escaped (s : string) : string :=
  match s with
  | EmptyString => EmptyString
  | String c s =>
      let n := N_of_ascii c in
      if (n <? 32)%N then
        String "092" ("u00" +:+ String (hex_digit (n / 16)) (String (hex_digit (n mod 16)) (escaped s)))
      else if (n =? 34)%N || (n =? 92)%N then String "092" (String c (escaped s))
      else String c (escaped s)
  end.
Definition quoted (s : string) : string := String "034" (escaped s +:+ String "034" EmptyString).

Lemma escaped_length s : String.length (escaped s) ≤ 6 * String.length s.
Proof.
  induction s as [|c s IH]; [cbn; lia|]. cbn [escaped]. cbv zeta.
  destruct (_ <? 32)%N; [|destruct (_ || _)]; cbn [String.length]; rewrite ?string_length_append; cbn in *; lia.
Qed.

Lemma quoted_length s : String.length (quoted s) ≤ 2 + 6 * String.length s.
Proof. unfold quoted. cbn. rewrite string_length_append. cbn. pose proof (escaped_length s). lia. Qed.

Lemma budget_charges_what_is_written_witness :
  let reply := RespValue.Array [RespValue.Nil; RespValue.Bulk (String "000" (String "001" "x"))] in
  charge_response_budget reply Encoding.None 40 = Ok 13%Z ∧
  (len (json_text quoted (λ _, "0") (response_json b64_encode reply Encoding.None)) ≤ 6 * (40 - 13))%Z.
Proof.
  destruct (budget_charges_what_is_written b64_encode quoted (λ _, "0")
    (RespValue.Array [RespValue.Nil; RespValue.Bulk (String "000" (String "001" "x"))]) Encoding.None 40)
    as [Hc Ht]; [exact b64_encode_length|exact quoted_length|intros; cbn; lia|by vm_compute|].
  cbv zeta. assert (charge_response_budget (RespValue.Array
    [RespValue.Nil; RespValue.Bulk (String "000" (String "001" "x"))]) Encoding.None 40 = Ok 13%Z) as H13
    by (rewrite Hc; vm_compute; reflexivity).
  split; [exact H13|]. apply Ht; [by vm_compute|exact H13].
Defined.

(** Control characters make the text of an accepted reply larger than the budget. *)
Example escapes_exceed_the_charge :
  let reply := RespValue.Bulk (String "000" (String "000" (String "000" (String "000" "")))) in
  charge_response_budget reply Encoding.None 12 = Ok 0%Z ∧
  len (json_text quoted (λ _, "0") (response_json b64_encode reply Encoding.None)) = 26%Z.
Proof. by vm_compute. Qed.

(** The replies a base64 response does not tell apart: a status and a bulk
    string of the same bytes, except for the status OK. *)
Fixpoint payload (v : RespValue) : RespValue :=
  match v with
  | RespValue.Simple s => if String.eqb s "OK" then v else RespValue.Bulk s
  | RespValue.Array l => RespValue.Array (payload <$> l)
  | _ => v
  end.

Lemma list_fmap_inj_Forall {A B C} (f : A → B) (g : A → C) l l' :
  Forall (λ x, ∀ y, f x = f y → g x = g y) l → f <$> l = f <$> l' → g <$> l = g <$> l'.
Proof.
  intros Hall. revert l'. induction Hall as [|x l Hx _ IH]; intros [|y l'] Heq; try done.
  rewrite !fmap_cons in *. injection Heq as Hxy Hl. f_equal; auto.
Qed.

(** C40. The base64 encoding is lossless for arbitrary binary replies: two
    replies written alike carry the same values, byte for byte, up to the
    difference between a status and a bulk string. *)
Theorem base64_response_lossless (base64 : bytes → string) v w :
  Inj (=) (=) base64 → (∀ x, String.length (base64 x) = 4 * ((String.length x + 2) / 3)) →
  response_json base64 v Encoding.Base64 = response_json base64 w Encoding.Base64 →
  payload v = payload w.
Proof.
  intros Hinj Hlen. assert (∀ x, base64 x ≠ "OK") as Hok.
  { intros x Hx. specialize (Hlen x). rewrite Hx in Hlen. simpl in Hlen. lia. }
  revert w. induction v as [s|s|z| |l IH] using RespValue_nested_ind;
    intros [s'|s'|z'| |l']; simpl; try done; intros Heq;
    repeat match goal with
    | _ : context [String.eqb ?x "OK"] |- _ => destruct (String.eqb_spec x "OK"); simpl in *
    end;
    simplify_eq; try done; try (by exfalso; eapply Hok).
  f_equal. exact (list_fmap_inj_Forall _ payload _ _ IH Heq).
Qed.

Lemma base64_response_lossless_witness :
  payload (RespValue.Simple "a") = payload (RespValue.Bulk "a").
Proof.
  apply (base64_response_lossless b64_encode);
    [exact b64_encode_inj|exact b64_encode_length|reflexivity].
Defined.

(** The strings of a reply that Rust keeps as [String] are valid text. *)
Fixpoint resp_valid (v : RespValue) : bool :=
  match v with
  | RespValue.Simple s => valid_utf8 s
  | RespValue.Array l => forallb resp_valid l
  | _ => true
  end.

(** A plain-text response is always valid JSON text: every string written
    is valid UTF-8, a bulk string that is valid text is written unchanged, and
    any other is written at no more than three times its size. *)
Theorem plain_response_is_text (base64 : bytes → string) v b :
  (resp_valid v = true → ser_valid (response_json base64 v Encoding.None) = true) ∧
  (valid_utf8 b = true →
   response_json base64 (RespValue.Bulk b) Encoding.None = Ser.Str b) ∧
  (ser_cost (response_json base64 (RespValue.Bulk b) Encoding.None) ≤ NODE_COST + 3 * len b)%Z.
Proof.
  split_and!.
  - induction v as [s|s|z| |l IH] using RespValue_nested_ind; simpl; try done.
    + intros _. apply from_utf8_lossy_is_valid.
    + intros Hl. rewrite forallb_fmap. apply List.forallb_forall. intros x Hx.
      rewrite List.forallb_forall in Hl. rewrite Forall_forall in IH.
      apply IH; [by apply list_elem_of_In|by apply Hl].
  - intros Hb. simpl. by rewrite from_utf8_lossy_valid.
  - simpl. unfold len. pose proof (from_utf8_lossy_length b). lia.
Qed.
