(* ===== verification/Parse.v ===== *)
(** * Request parsing of [src/src/http/parse.rs]

    Commands and pipelines are deserialized straight from the JSON text with a
    request-wide budget of JSON nodes, kept in two shared cells.  The
    tokenizer of [serde_json] is a parameter: [from_slice] gives the document
    it delivers.  Since the visitors stop at the first error, a document
    ([Node]) is what can be delivered lazily: a tree whose leaves may be syntax
    errors, whose sequences and maps may break off, and whose elements carry
    whether [IgnoredAny] would skip over them.  The visitors are computations
    in a state and error monad over the cells.  The theorems compare them with
    the eager reference: build the whole value, count its nodes, convert. *)
From S2P Require Import Prelude Domain F64 Convert.

(** ** Documents *)

Module Node.
Inductive Node : Type :=
| Invalid                                  (* a syntax error, or nesting too deep *)
| Null
| Bool (b : bool)
| U64 (z : Z)
| I64 (z : Z)
| F64 (f : f64)
| Str (s : string)
| Seq (elems : list (bool * Node)) (ends : bool)
| Map (entries : list (string * Node)) (ends : MapEnd)
(** How a map ends: at its closing brace; at an error before a key, inside a
    key, or between a key and its value. *)
with MapEnd : Type :=
| Closed
| Broken
| BadKey
| NoColon.
End Node.
Abbreviation Node := Node.Node.

(** What the tokenizer delivers for a body: the value, and whether only
    whitespace follows it. *)
Record Document : Type := mkDocument {
  root : Node;
  ends_clean : bool;
}.

(** ** Errors and cells *)

Module ParseError.
Inductive ParseError : Type := Invalid | PipelineTooLarge | RequestTooComplex.
End ParseError.
Abbreviation ParseError := ParseError.ParseError.

Module LimitExceeded.
Inductive LimitExceeded : Type := PipelineCommands | RequestElements.
End LimitExceeded.
Abbreviation LimitExceeded := LimitExceeded.LimitExceeded.

Record Cells : Type := mkCells {
  remaining : Z;
  exceeded : option LimitExceeded;
}.

(** A visitor: reads and writes the cells, and may fail with a deserializer
    error, whose text is never looked at. *)
Definition Visit (A : Type) : Type := Cells → result A unit * Cells.

Definition fail {A} : Visit A := λ st, (Err tt, st).

#[export] Instance Visit_ret : MRet Visit := λ A a st, (Ok a, st).
#[export] Instance Visit_bind : MBind Visit := λ A B f m st,
  match m st with
  | (Ok a, st) => f a st
  | (Err e, st) => (Err e, st)
  end.

Definition classify (exceeded : option LimitExceeded) : ParseError :=
  match exceeded with
  | Some LimitExceeded.PipelineCommands => ParseError.PipelineTooLarge
  | Some LimitExceeded.RequestElements => ParseError.RequestTooComplex
  | None => ParseError.Invalid
  end.

(** [charge]: takes one node off the budget. *)
Definition charge_node : Visit unit := λ st,
  match checked_sub (remaining st) 1 with
  | None => (Err tt, mkCells (remaining st) (Some LimitExceeded.RequestElements))
  | Some next => (Ok tt, mkCells next (exceeded st))
  end.

(** ** Numbers and objects of [serde_json] *)

(** [Number::from(i64)] and [Number::from_f64]. *)
Definition number_from_i64 (z : Z) : Number :=
  if decide (z < 0)%Z then Number.NegInt z else Number.PosInt z.
Definition number_from_f64 (f : f64) : option Number :=
  if is_finite f then Some (Number.Float f) else None.

(** [Map::insert] into a map ordered by key; a later duplicate wins. *)
Fixpoint map_insert (k : string) (v : Value) (m : list (string * Value)) : list (string * Value) :=
  match m with
  | [] => [(k, v)]
  | (k', v') :: m' =>
      match String.compare k k' with
      | Lt => (k, v) :: m
      | Eq => (k, v) :: m'
      | Gt => (k', v') :: map_insert k v m'
      end
  end.

(** ** Visitors *)

(** [KeySeed]: [None] for a key whose text is malformed. *)
Definition key_seed (k : option string) : Visit string :=
  _ ← charge_node; match k with Some s => mret s | None => fail end.

(** [ValueVisitor]; each element and each entry value goes through [ValueSeed],
    which charges a node first. *)
Fixpoint value_visitor (n : Node) : Visit Value :=
  match n with
  | Node.Invalid => fail
  | Node.Null => mret Value.Null
  | Node.Bool b => mret (Value.Bool b)
  | Node.U64 z => mret (Value.Number (Number.PosInt z))
  | Node.I64 z => mret (Value.Number (number_from_i64 z))
  | Node.F64 f =>
      match number_from_f64 f with Some x => mret (Value.Number x) | None => fail end
  | Node.Str s => mret (Value.String s)
  | Node.Seq elems ends =>
      (fix go (elems : list (bool * Node)) (values : list Value) : Visit Value :=
         match elems with
         | [] => if ends then mret (Value.Array values) else fail
         | (_, e) :: elems =>
             _ ← charge_node; v ← value_visitor e; go elems (values ++ [v])
         end) elems []
  | Node.Map entries ends =>
      (fix go (entries : list (string * Node)) (values : list (string * Value)) : Visit Value :=
         match entries with
         | [] =>
             match ends with
             | Node.Closed => mret (Value.Object values)
             | Node.Broken => fail
             | Node.BadKey => _ ← key_seed None; fail
             | Node.NoColon => _ ← key_seed (Some ""); fail
             end
         | (k, e) :: entries =>
             k ← key_seed (Some k);
             _ ← charge_node; v ← value_visitor e; go entries (map_insert k v values)
         end) entries []
  end.

(** [ValueSeed::deserialize]. *)
Definition value_seed (n : Node) : Visit Value := _ ← charge_node; value_visitor n.

Section Parse.
Context (number_to_string : Number → string) (value_to_string : Value → result string unit).

Definition nested (v : Value) : Visit bytes := λ st,
  (map_err (λ _, tt) (json_value_to_bytes number_to_string value_to_string v), st).

(** [ArgumentVisitor]. *)
Definition argument_visitor (n : Node) : Visit bytes :=
  match n with
  | Node.Invalid => fail
  | Node.Null => mret "null"
  | Node.Bool b => mret (if b then "true" else "false")
  | Node.U64 z => mret (number_to_string (Number.PosInt z))
  | Node.I64 z => mret (number_to_string (number_from_i64 z))
  | Node.F64 f =>
      match number_from_f64 f with Some x => mret (number_to_string x) | None => fail end
  | Node.Str s => mret s
  | Node.Seq _ _ | Node.Map _ _ => v ← value_visitor n; nested v
  end.

(** [ArgumentSeed::deserialize]. *)
Definition argument_seed (n : Node) : Visit bytes := _ ← charge_node; argument_visitor n.

(** [NameSeed::deserialize]. *)
Definition name_seed (n : Node) : Visit string :=
  _ ← charge_node; match n with Node.Str s => mret s | _ => fail end.

(** [CommandVisitor::visit_seq]. *)
Fixpoint arguments (elems : list (bool * Node)) (ends : bool) (args : list bytes) :
    Visit (list bytes) :=
  match elems with
  | [] => if ends then mret args else fail
  | (_, e) :: elems => a ← argument_seed e; arguments elems ends (args ++ [a])
  end.

Definition command_visitor (elems : list (bool * Node)) (ends : bool) : Visit RedisCommand :=
  match elems with
  | [] => fail
  | (_, e) :: elems =>
      name ← name_seed e; args ← arguments elems ends []; mret (mkRedisCommand name args)
  end.

(** [CommandSeed::deserialize]. *)
Definition command_seed (n : Node) : Visit RedisCommand :=
  _ ← charge_node;
  match n with Node.Seq elems ends => command_visitor elems ends | _ => fail end.

(** [PipelineVisitor::visit_seq]; the budget of commands counts down. *)
Fixpoint pipeline_visitor (max_commands : nat) (elems : list (bool * Node)) (ends : bool)
    (commands : list RedisCommand) : Visit (list RedisCommand) :=
  match max_commands with
  | 0 =>
      match elems with
      | [] => if ends then mret commands else fail
      | (skips, _) :: _ => λ st,
          if skips : bool
          then (Err tt, mkCells (remaining st) (Some LimitExceeded.PipelineCommands))
          else (Err tt, st)
      end
  | S max_commands =>
      match elems with
      | [] => if ends then mret commands else fail
      | (_, e) :: elems =>
          c ← command_seed e; pipeline_visitor max_commands elems ends (commands ++ [c])
      end
  end.

(** [PipelineSeed::deserialize]. *)
Definition pipeline_seed (max_commands : nat) (n : Node) : Visit (list RedisCommand) :=
  _ ← charge_node;
  match n with
  | Node.Seq elems ends => pipeline_visitor max_commands elems ends []
  | _ => fail
  end.

(** ** Entry points *)

(** Runs a seed over a document with fresh cells, then [deserializer.end()]. *)
Definition run_seed {A} (seed : Visit A) (clean : bool) (max_request_elements : Z) : result A ParseError :=
  match seed (mkCells max_request_elements None) with
  | (Err _, st) => Err (classify (exceeded st))
  | (Ok a, _) => if clean then Ok a else Err ParseError.Invalid
  end.

Context (from_slice : bytes → Document).

Definition command (body : bytes) (max_request_elements : Z) : result RedisCommand ParseError :=
  let d := from_slice body in
  run_seed (command_seed (root d)) (ends_clean d) max_request_elements.

Definition pipeline (body : bytes) (max_commands max_request_elements : Z) :
    result (list RedisCommand) ParseError :=
  let d := from_slice body in
  run_seed (pipeline_seed (Z.to_nat max_commands) (root d)) (ends_clean d) max_request_elements.
End Parse.

(** ** The eager reference *)

(** The value a document denotes, when it is complete. *)
Fixpoint node_value (n : Node) : option Value :=
  match n with
  | Node.Invalid => None
  | Node.Null => Some Value.Null
  | Node.Bool b => Some (Value.Bool b)
  | Node.U64 z => Some (Value.Number (Number.PosInt z))
  | Node.I64 z => Some (Value.Number (number_from_i64 z))
  | Node.F64 f => Value.Number <$> number_from_f64 f
  | Node.Str s => Some (Value.String s)
  | Node.Seq elems ends =>
      vs ← (fix go (elems : list (bool * Node)) : option (list Value) :=
        match elems with
        | [] => Some []
        | (_, e) :: elems => v ← node_value e; vs ← go elems; Some (v :: vs)
        end) elems;
      if ends then Some (Value.Array vs) else None
  | Node.Map entries ends =>
      kvs ← (fix go (entries : list (string * Node)) : option (list (string * Value)) :=
        match entries with
        | [] => Some []
        | (k, e) :: entries => v ← node_value e; kvs ← go entries; Some ((k, v) :: kvs)
        end) entries;
      match ends with
      | Node.Closed => Some (Value.Object (foldl (λ m kv, map_insert kv.1 kv.2 m) [] kvs))
      | _ => None
      end
  end.

(** The JSON nodes of a document: values, and the keys of objects. *)
Fixpoint node_count (n : Node) : nat :=
  match n with
  | Node.Seq elems _ => S (foldr (λ e k, node_count e.2 + k) 0 elems)
  | Node.Map entries ends =>
      S (foldr (λ e k, S (node_count e.2) + k) 0 entries
         + match ends with Node.BadKey | Node.NoColon => 1 | _ => 0 end)
  | _ => 1
  end.

Section Reference.
Context (number_to_string : Number → string) (value_to_string : Value → result string unit).

Definition argument_bytes (v : Value) : option bytes :=
  match json_value_to_bytes number_to_string value_to_string v with
  | Ok b => Some b
  | Err _ => None
  end.

(** A command is an array of a name and arguments. *)
Definition reference_command (v : Value) : option RedisCommand :=
  match v with
  | Value.Array (Value.String s :: vs) => mkRedisCommand s <$> mapM argument_bytes vs
  | _ => None
  end.

Definition node_command (n : Node) : option RedisCommand := node_value n ≫= reference_command.
End Reference.

(** ** Budgeted computations *)

(** A visitor that needs [c] nodes of budget: with fewer it stops with the
    budget flag set, with enough it behaves as with an unlimited budget. *)
Definition budgeted {A} (p : Visit A) (c : nat) (r : result A unit) : Prop :=
  ∀ m ex, (0 ≤ m)%Z →
  p (mkCells m ex) =
    if decide (Z.of_nat c ≤ m)%Z then (r, mkCells (m - Z.of_nat c) ex)
    else (Err tt, mkCells 0 (Some LimitExceeded.RequestElements)).

(** A visitor that computes [o], looking at [k] nodes when it succeeds and at
    no more when it fails. *)
Definition costs {A} (p : Visit A) (k : nat) (o : option A) : Prop :=
  ∃ c, budgeted p c (ok_or tt o) ∧ c ≤ k ∧ (is_Some o → c = k).

Lemma costs_ret {A} (a : A) : costs (mret a) 0 (Some a).
Proof.
  exists 0. split_and!; [|done|done]. intros m ex Hm. rewrite decide_True by done.
  by rewrite Z.sub_0_r.
Qed.

Lemma costs_fail {A} k : costs (@fail A) k None.
Proof.
  exists 0. split_and!; [|lia|by intros []]. intros m ex Hm. rewrite decide_True by done.
  by rewrite Z.sub_0_r.
Qed.

Lemma costs_charge : costs charge_node 1 (Some tt).
Proof.
  exists 1. split_and!; [|done|done]. intros m ex Hm. unfold charge_node, checked_sub; simpl.
  repeat case_decide; try lia; [done|]. assert (m = 0)%Z as -> by lia. done.
Qed.

Lemma costs_bind {A B} (p : Visit A) (f : A → Visit B) k k' o g :
  costs p k o → (∀ a, o = Some a → costs (f a) k' (g a)) →
  costs (p ≫= f) (k + k') (o ≫= g).
Proof.
  intros (c & Hp & Hle & Hc) Hf. destruct o as [a|]; simpl.
  - destruct (Hf a eq_refl) as (d & Hd & Hdle & Hdc). rewrite Hc in * by eauto.
    exists (k + d). split_and!; [|lia|intros Ho; rewrite (Hdc Ho); lia].
    intros m ex Hm. unfold mbind, Visit_bind. rewrite Hp by done.
    case_decide; [|rewrite decide_False by lia; done].
    cbn [ok_or]. rewrite Hd by lia. case_decide; [rewrite decide_True by lia|by rewrite decide_False by lia].
    do 2 f_equal. lia.
  - exists c. split_and!; [|lia|by intros []].
    intros m ex Hm. unfold mbind, Visit_bind. rewrite Hp by done. by case_decide.
Qed.

Lemma costs_ext {A} (p : Visit A) k k' o o' : costs p k o → k = k' → o = o' → costs p k' o'.
Proof. by intros ? -> ->. Qed.

Lemma costs_weaken {A} (p : Visit A) k k' : costs p k None → k ≤ k' → costs p k' None.
Proof. intros (c & Hp & Hle & Hc) Hk. exists c. split_and!; [done|lia|by intros []]. Qed.

#[export] Hint Resolve costs_ret costs_fail costs_charge : srh.

(** A bind after a visitor known to succeed. *)
Lemma costs_let {A B} (p : Visit A) (f : A → Visit B) k n a o :
  costs p k (Some a) → costs (f a) n o → costs (p ≫= f) (k + n) o.
Proof. intros Hp Hf. apply (costs_bind _ _ k n (Some a) (λ _, o)); [done|]. by intros ? [= <-]. Qed.

(** A charge before a visitor adds one node. *)
Lemma costs_seed {A} (p : Visit A) k o : costs p k o → costs (_ ← charge_node; p) (S k) o.
Proof. intros Hp. apply (costs_let charge_node _ 1 k tt); [apply costs_charge|done]. Qed.

(** ** The visitors against the reference *)

(** Induction that reaches into sequences and maps. *)
Section NodeInd.
Context (P : Node → Prop).
Hypothesis HInvalid : P Node.Invalid.
Hypothesis HNull : P Node.Null.
Hypothesis HBool : ∀ b, P (Node.Bool b).
Hypothesis HU64 : ∀ z, P (Node.U64 z).
Hypothesis HI64 : ∀ z, P (Node.I64 z).
Hypothesis HF64 : ∀ f, P (Node.F64 f).
Hypothesis HStr : ∀ s, P (Node.Str s).
Hypothesis HSeq : ∀ elems ends, Forall (P ∘ snd) elems → P (Node.Seq elems ends).
Hypothesis HMap : ∀ entries ends, Forall (P ∘ snd) entries → P (Node.Map entries ends).

Fixpoint Node_nested_ind (n : Node) : P n :=
  match n with
  | Node.Invalid => HInvalid
  | Node.Null => HNull
  | Node.Bool b => HBool b
  | Node.U64 z => HU64 z
  | Node.I64 z => HI64 z
  | Node.F64 f => HF64 f
  | Node.Str s => HStr s
  | Node.Seq elems ends =>
      HSeq elems ends ((fix go (l : list (bool * Node)) : Forall (P ∘ snd) l :=
        match l with
        | [] => List.Forall_nil _
        | e :: l => List.Forall_cons (P ∘ snd) e l (Node_nested_ind e.2) (go l)
        end) elems)
  | Node.Map entries ends =>
      HMap entries ends ((fix go (l : list (string * Node)) : Forall (P ∘ snd) l :=
        match l with
        | [] => List.Forall_nil _
        | e :: l => List.Forall_cons (P ∘ snd) e l (Node_nested_ind e.2) (go l)
        end) entries)
  end.
End NodeInd.

(** The loops of [ValueVisitor], named. *)
Definition value_elems (ends : bool) :=
  fix go (elems : list (bool * Node)) (values : list Value) : Visit Value :=
    match elems with
    | [] => if ends then mret (Value.Array values) else fail
    | (_, e) :: elems => _ ← charge_node; v ← value_visitor e; go elems (values ++ [v])
    end.

Definition value_entries (ends : Node.MapEnd) :=
  fix go (entries : list (string * Node)) (values : list (string * Value)) : Visit Value :=
    match entries with
    | [] =>
        match ends with
        | Node.Closed => mret (Value.Object values)
        | Node.Broken => fail
        | Node.BadKey => _ ← key_seed None; fail
        | Node.NoColon => _ ← key_seed (Some ""); fail
        end
    | (k, e) :: entries =>
        k ← key_seed (Some k);
        _ ← charge_node; v ← value_visitor e; go entries (map_insert k v values)
    end.

Lemma value_visitor_seq elems ends :
  value_visitor (Node.Seq elems ends) = value_elems ends elems [].
Proof. reflexivity. Qed.

Lemma value_visitor_map entries ends :
  value_visitor (Node.Map entries ends) = value_entries ends entries [].
Proof. reflexivity. Qed.

Lemma mapM_elems_eq (elems : list (bool * Node)) :
  (fix go (elems : list (bool * Node)) : option (list Value) :=
     match elems with
     | [] => Some []
     | (_, e) :: elems => v ← node_value e; vs ← go elems; Some (v :: vs)
     end) elems = mapM (node_value ∘ snd) elems.
Proof. induction elems as [|[b e] elems IH]; [done|]. cbn. by rewrite IH. Qed.

Lemma node_value_seq elems ends :
  node_value (Node.Seq elems ends) =
  vs ← mapM (node_value ∘ snd) elems; if ends then Some (Value.Array vs) else None.
Proof. cbn [node_value]. by rewrite mapM_elems_eq. Qed.

Definition entry_value (kv : string * Node) : option (string * Value) :=
  v ← node_value kv.2; Some (kv.1, v).

Lemma mapM_entries_eq (entries : list (string * Node)) :
  (fix go (entries : list (string * Node)) : option (list (string * Value)) :=
     match entries with
     | [] => Some []
     | (k, e) :: entries => v ← node_value e; kvs ← go entries; Some ((k, v) :: kvs)
     end) entries = mapM entry_value entries.
Proof.
  induction entries as [|[k e] entries IH]; [done|]. cbn. unfold entry_value at 1. cbn.
  destruct (node_value e); [|done]. cbn. by rewrite IH.
Qed.

Lemma node_value_map entries ends :
  node_value (Node.Map entries ends) =
  kvs ← mapM entry_value entries;
  match ends with
  | Node.Closed => Some (Value.Object (foldl (λ m kv, map_insert kv.1 kv.2 m) [] kvs))
  | _ => None
  end.
Proof. cbn [node_value]. by rewrite mapM_entries_eq. Qed.

Definition value_ok (n : Node) : Prop := costs (value_visitor n) (pred (node_count n)) (node_value n).

Lemma node_count_pos n : node_count n = S (pred (node_count n)).
Proof. by destruct n. Qed.

Lemma value_seed_ok n : value_ok n → costs (value_seed n) (node_count n) (node_value n).
Proof. intros Hn. rewrite node_count_pos. by apply costs_seed. Qed.

Lemma value_elems_ok ends elems values :
  Forall (value_ok ∘ snd) elems →
  costs (value_elems ends elems values) (foldr (λ e k, node_count e.2 + k) 0 elems)
    (vs ← mapM (node_value ∘ snd) elems;
     if ends then Some (Value.Array (values ++ vs)) else None).
Proof.
  intros Hall. revert values. induction Hall as [|[b e] elems He _ IH]; intros values; cbn.
  - rewrite app_nil_r. destruct ends; eauto with srh.
  - change (costs (_ ← charge_node; v ← value_visitor e; value_elems ends elems (values ++ [v]))
      (node_count e + foldr (λ e k, node_count e.2 + k) 0 elems)
      (vs ← (v ← node_value e; vs ← mapM (node_value ∘ snd) elems; Some (v :: vs));
       if ends then Some (Value.Array (values ++ vs)) else None)).
    rewrite node_count_pos. apply costs_seed.
    eapply costs_ext; [eapply costs_bind; [exact He|intros v _; apply IH]|done|].
    cbn [snd]. destruct (node_value e) as [v|]; [|done]. cbn.
    destruct (mapM _ elems); [|done]. cbn. by rewrite <- app_assoc.
Qed.

Lemma key_seed_ok k : costs (key_seed (Some k)) 1 (Some k).
Proof. apply costs_seed, costs_ret. Qed.

Lemma value_entries_ok ends entries values :
  Forall (value_ok ∘ snd) entries →
  costs (value_entries ends entries values)
    (foldr (λ e k, S (node_count e.2) + k) 0 entries
     + match ends with Node.BadKey | Node.NoColon => 1 | _ => 0 end)
    (kvs ← mapM entry_value entries;
     match ends with
     | Node.Closed => Some (Value.Object (foldl (λ m kv, map_insert kv.1 kv.2 m) values kvs))
     | _ => None
     end).
Proof.
  intros Hall. revert values. induction Hall as [|[k e] entries He _ IH]; intros values.
  - destruct ends; cbn; eauto with srh.
    + apply (costs_bind (key_seed None) _ 1 0 None (λ _ : string, None)); [|done].
      apply costs_seed, costs_fail.
    + apply (costs_let _ _ 1 0 ""); [apply key_seed_ok|]. eauto with srh.
  - cbn [mapM value_entries foldr]. fold (value_entries ends).
    eapply costs_ext; [eapply costs_let; [apply key_seed_ok|]; apply costs_seed; eapply costs_bind;
      [exact He|intros v _; apply IH]| |].
    + simpl. rewrite (node_count_pos e). simpl. lia.
    + cbn. unfold entry_value at 2. cbn. destruct (node_value e) as [v|]; [|done]. cbn.
      by destruct (mapM _ entries).
Qed.

Lemma value_visitor_ok n : value_ok n.
Proof.
  unfold value_ok. induction n as [| | | | |f|s|elems ends IH|entries ends IH] using Node_nested_ind;
    try (cbn; by eauto with srh).
  - cbn. destruct (number_from_f64 f); cbn; eauto with srh.
  - rewrite value_visitor_seq, node_value_seq. by apply value_elems_ok.
  - rewrite value_visitor_map, node_value_map. by apply value_entries_ok.
Qed.

Lemma mapM_bind {A B C} (f : A → option B) (g : B → option C) l :
  mapM f l ≫= mapM g = mapM (λ a, f a ≫= g) l.
Proof.
  induction l as [|a l IH]; [done|]. cbn. rewrite <- IH.
  destruct (f a) as [b|]; [|done]. cbn. destruct (mapM f l) as [bs|]; cbn; [done|].
  by destruct (g b).
Qed.

Section CommandFacts.
Context (number_to_string : Number → string) (value_to_string : Value → result string unit).
Abbreviation arg_bytes := (argument_bytes number_to_string value_to_string).
Abbreviation node_cmd := (node_command number_to_string value_to_string).

Lemma nested_ok v : costs (nested number_to_string value_to_string v) 0 (arg_bytes v).
Proof.
  exists 0. split_and!; [|done|done]. intros m ex Hm. rewrite decide_True, Z.sub_0_r by done.
  unfold nested, argument_bytes. by destruct (json_value_to_bytes _ _ v).
Qed.

Lemma argument_seed_ok n :
  costs (argument_seed number_to_string value_to_string n) (node_count n)
    (node_value n ≫= arg_bytes).
Proof.
  rewrite node_count_pos. apply costs_seed. pose proof (value_visitor_ok n) as Hn.
  destruct n as [| | | | |f| |elems ends|entries ends]; try (cbn; by eauto with srh).
  - cbn. destruct (number_from_f64 f); cbn; eauto with srh.
  - rewrite <- (Nat.add_0_r (pred _)). eapply costs_bind; [exact Hn|]. intros v _. apply nested_ok.
  - rewrite <- (Nat.add_0_r (pred _)). eapply costs_bind; [exact Hn|]. intros v _. apply nested_ok.
Qed.

Lemma arguments_ok ends elems args :
  costs (arguments number_to_string value_to_string elems ends args)
    (foldr (λ e k, node_count e.2 + k) 0 elems)
    (bs ← mapM (λ e, node_value e.2 ≫= arg_bytes) elems;
     if ends then Some (args ++ bs) else None).
Proof.
  revert args. induction elems as [|[b e] elems IH]; intros args.
  - cbn. rewrite app_nil_r. destruct ends; eauto with srh.
  - cbn [arguments foldr mapM].
    eapply costs_ext; [eapply costs_bind; [apply argument_seed_ok|intros a _; apply IH]|done|].
    cbn. destruct (node_value e ≫= arg_bytes) as [a|]; [|done]. cbn.
    destruct (mapM _ elems); [|done]. cbn. by rewrite <- app_assoc.
Qed.

Lemma node_value_string e s : node_value e = Some (Value.String s) → e = Node.Str s.
Proof.
  destruct e as [| | | | |f| |elems ends|entries ends]; cbn; intros; simplify_eq; try done.
  - by destruct (number_from_f64 f).
  - destruct (_ elems); simplify_eq/=. by destruct ends.
  - destruct (_ entries); simplify_eq/=. by destruct ends.
Qed.

(** Only an array that starts with a string is a command. *)
Lemma node_command_seq elems ends :
  node_cmd (Node.Seq elems ends) =
  match elems with
  | (_, Node.Str s) :: rest =>
      bs ← mapM (λ e, node_value e.2 ≫= arg_bytes) rest;
      if ends then Some (mkRedisCommand s bs) else None
  | _ => None
  end.
Proof.
  unfold node_command. rewrite node_value_seq. destruct elems as [|[b e] rest].
  { by destruct ends. }
  pose proof (mapM_bind (node_value ∘ snd) arg_bytes rest) as Hmap. cbn in Hmap.
  cbn [mapM]. change ((node_value ∘ snd) (b, e)) with (node_value e).
  assert ((∃ s, e = Node.Str s) ∨ ∀ s, e ≠ Node.Str s) as [[s ->]|Hne]
    by (destruct e; naive_solver).
  - cbn. rewrite <- Hmap. destruct (mapM (node_value ∘ snd) rest) as [vs|]; [|done]. cbn.
    destruct ends; cbn; by destruct (mapM arg_bytes vs).
  - transitivity (@None RedisCommand); [|destruct e; naive_solver].
    destruct (node_value e) as [v|] eqn:He; [|done]. cbn.
    destruct (mapM (node_value ∘ snd) rest) as [vs|]; [|done]. cbn.
    destruct ends; [|done]. cbn. destruct v; try done.
    by apply node_value_string, Hne in He.
Qed.

Lemma command_seed_ok n :
  costs (command_seed number_to_string value_to_string n) (node_count n) (node_cmd n).
Proof.
  rewrite node_count_pos. apply costs_seed.
  destruct n as [| | | | |f| |elems ends|entries ends];
    try (eapply costs_ext; [apply costs_fail|done|]; unfold node_command; cbn; try done).
  - by destruct (number_from_f64 f).
  - rewrite node_command_seq. destruct elems as [|[b e] rest]; [apply costs_fail|].
    cbn [command_visitor node_count pred foldr snd].
    destruct e as [| | | | | |s| |]; try (eapply costs_weaken; [|apply le_n];
      eapply (costs_bind _ _ _ _ None (λ _ : string, None)); [|done];
      rewrite node_count_pos; apply costs_seed; apply costs_fail).
    eapply costs_ext; [eapply costs_let; [apply costs_seed, costs_ret|];
      eapply costs_bind; [apply arguments_ok|intros args _; apply costs_ret]|..].
    + simpl. lia.
    + cbn. destruct (mapM _ rest) as [bs|]; [|done]. cbn. by destruct ends.
  - rewrite mapM_entries_eq. destruct (mapM _ entries); [|done]. by destruct ends.
Qed.
End CommandFacts.

(** ** Pipelines *)

Definition nodes_of (elems : list (bool * Node)) : nat := foldr (λ e k, node_count e.2 + k) 0 elems.

Section PipelineFacts.
Context (number_to_string : Number → string) (value_to_string : Value → result string unit).
Abbreviation node_cmd := (node_command number_to_string value_to_string).

(** The commands of the first elements, as many as the limit allows. *)
Definition commands_visitor : list (bool * Node) → list RedisCommand → Visit (list RedisCommand) :=
  fix go elems commands :=
    match elems with
    | [] => mret commands
    | (_, e) :: elems =>
        c ← command_seed number_to_string value_to_string e; go elems (commands ++ [c])
    end.

(** What follows them. *)
Definition pipeline_tail (rest : list (bool * Node)) (ends : bool) (commands : list RedisCommand) :
    Visit (list RedisCommand) :=
  match rest with
  | [] => if ends then mret commands else fail
  | (skips, _) :: _ => λ st,
      if skips : bool
      then (Err tt, mkCells (remaining st) (Some LimitExceeded.PipelineCommands))
      else (Err tt, st)
  end.

Lemma pipeline_visitor_split max elems ends commands st :
  pipeline_visitor number_to_string value_to_string max elems ends commands st =
  (cs ← commands_visitor (take max elems) commands; pipeline_tail (drop max elems) ends cs) st.
Proof.
  revert elems commands st. induction max as [|max IH]; intros elems commands st; [by destruct elems|].
  destruct elems as [|[b e] elems]; [done|]. cbn. unfold mbind, Visit_bind at 1 2 3.
  destruct (command_seed _ _ e st) as [[c|] st']; [|done]. apply IH.
Qed.

Lemma commands_visitor_ok elems commands :
  costs (commands_visitor elems commands) (nodes_of elems)
    (cs ← mapM (node_cmd ∘ snd) elems; Some (commands ++ cs)).
Proof.
  revert commands. induction elems as [|[b e] elems IH]; intros commands.
  - cbn. rewrite app_nil_r. apply costs_ret.
  - cbn [commands_visitor nodes_of foldr mapM]. fold commands_visitor. fold (nodes_of elems).
    eapply costs_ext; [eapply costs_bind; [apply command_seed_ok|intros c _; apply IH]|done|].
    change ((node_cmd ∘ snd) (b, e)) with (node_cmd e). destruct (node_cmd e) as [c|]; [|done]. cbn.
    destruct (mapM _ elems); [|done]. cbn. by rewrite <- app_assoc.
Qed.
End PipelineFacts.

(** Running a visitor from fresh cells. *)
Lemma run_costs {A} (p : Visit A) k o clean m :
  costs p k o → (0 ≤ m)%Z →
  match o with
  | Some a => run_seed p clean m =
      if decide (Z.of_nat k ≤ m)%Z then (if clean then Ok a else Err ParseError.Invalid)
      else Err ParseError.RequestTooComplex
  | None => ∃ c, c ≤ k ∧ run_seed p clean m =
      if decide (Z.of_nat c ≤ m)%Z then Err ParseError.Invalid else Err ParseError.RequestTooComplex
  end.
Proof.
  intros (c & Hp & Hle & Hc) Hm. unfold run_seed. destruct o as [a|].
  - rewrite Hp by done. rewrite <- (Hc ltac:(eauto)). by case_decide.
  - exists c. split; [done|]. rewrite Hp by done. by case_decide.
Qed.

(** ** Properties *)

Section Properties.
Context (number_to_string : Number → string) (value_to_string : Value → result string unit).
Context (from_slice : bytes → Document).
Abbreviation node_cmd := (node_command number_to_string value_to_string).
Abbreviation parse_command := (command number_to_string value_to_string from_slice).
Abbreviation parse_pipeline := (pipeline number_to_string value_to_string from_slice).

Lemma command_matches body m :
  (0 ≤ m)%Z →
  let d := from_slice body in
  let nodes := Z.of_nat (node_count (root d)) in
  match node_cmd (root d) with
  | Some c => parse_command body m =
      if decide (nodes ≤ m)%Z then (if ends_clean d then Ok c else Err ParseError.Invalid)
      else Err ParseError.RequestTooComplex
  | None => parse_command body m = Err ParseError.Invalid ∨
      (m < nodes)%Z ∧ parse_command body m = Err ParseError.RequestTooComplex
  end.
Proof.
  intros Hm d nodes. unfold command. fold d.
  pose proof (run_costs _ _ _ (ends_clean d) m
    (command_seed_ok number_to_string value_to_string (root d)) Hm) as Hrun.
  destruct (node_cmd (root d)) as [c|]; [exact Hrun|].
  destruct Hrun as (c & Hc & ->). case_decide; [by left|]. right. split; [lia|done].
Qed.

(** C14. The streaming command parser agrees with the eager reference (build
    the JSON value, convert each argument with [json_value_to_bytes]) and its
    budget is exact: a document that denotes a command is accepted, with that
    command, exactly when its JSON nodes, object keys included, fit the budget,
    and is otherwise refused as too complex; any other document is refused, as
    too complex only if it has more nodes than the budget. *)
Theorem command_matches_reference body m :
  (0 ≤ m)%Z →
  let d := from_slice body in
  let nodes := Z.of_nat (node_count (root d)) in
  match node_cmd (root d) with
  | Some c => parse_command body m =
      if decide (nodes ≤ m)%Z then (if ends_clean d then Ok c else Err ParseError.Invalid)
      else Err ParseError.RequestTooComplex
  | None => parse_command body m = Err ParseError.Invalid ∨
      (m < nodes)%Z ∧ parse_command body m = Err ParseError.RequestTooComplex
  end.
Proof. exact (command_matches body m). Qed.

Lemma pipeline_run body max m elems ends :
  let d := from_slice body in
  root d = Node.Seq elems ends →
  parse_pipeline body max m =
  match (_ ← charge_node; commands_visitor number_to_string value_to_string
           (take (Z.to_nat max) elems) []) (mkCells m None) with
  | (Ok cs, st) =>
      run_seed (λ _, pipeline_tail (drop (Z.to_nat max) elems) ends cs st) (ends_clean d) m
  | (Err _, st) => Err (classify (exceeded st))
  end.
Proof.
  intros d Hroot. unfold pipeline, run_seed, pipeline_seed. fold d. rewrite Hroot.
  unfold mbind, Visit_bind. destruct (charge_node _) as [[u|] st]; [|done].
  rewrite pipeline_visitor_split. unfold mbind, Visit_bind.
  by destruct (commands_visitor _ _ _ _ _) as [[cs|] st'].
Qed.

Lemma pipeline_matches body max m elems ends :
  (0 ≤ m)%Z → (0 ≤ max)%Z →
  let d := from_slice body in
  root d = Node.Seq elems ends →
  let first := take (Z.to_nat max) elems in
  let nodes := Z.of_nat (S (nodes_of first)) in
  match mapM (node_cmd ∘ snd) first, drop (Z.to_nat max) elems with
  | Some cs, [] => parse_pipeline body max m =
      if decide (nodes ≤ m)%Z then
        (if ends && ends_clean d then Ok cs else Err ParseError.Invalid)
      else Err ParseError.RequestTooComplex
  | Some _, (skips, _) :: _ => parse_pipeline body max m =
      if decide (nodes ≤ m)%Z then
        Err (if skips : bool then ParseError.PipelineTooLarge else ParseError.Invalid)
      else Err ParseError.RequestTooComplex
  | None, _ => parse_pipeline body max m = Err ParseError.Invalid ∨
      (m < nodes)%Z ∧ parse_pipeline body max m = Err ParseError.RequestTooComplex
  end.
Proof.
  intros Hm Hmax d Hroot first nodes.
  destruct (costs_seed _ _ _ (commands_visitor_ok number_to_string value_to_string first []))
    as (c & Hp & Hle & Hc).
  pose proof (pipeline_run body max m elems ends Hroot) as Hrun. fold d first in Hrun.
  rewrite Hp in Hrun by done. rewrite !Hrun. clear Hrun Hp.
  destruct (mapM (node_cmd ∘ snd) first) as [cs|]; cbn in *.
  - subst nodes. rewrite <- (Hc ltac:(eauto)). case_decide; [|by destruct (drop _ _) as [|[] ?]].
    destruct (drop (Z.to_nat max) elems) as [|[[] ?] ?]; cbn; try done. by destruct ends.
  - case_decide; [by left|]. right. split; [lia|done].
Qed.

(** C30. The pipeline parser decodes the commands of an array in order.  With
    at most [max] elements it accepts exactly when every element denotes a
    command, the array is complete and the nodes fit the budget.  With more it
    never accepts: when the first [max] are commands that fit the budget, the
    error is PipelineTooLarge (if the next element can be skipped over), and
    nothing after the limit is charged. *)
Theorem pipeline_matches_reference body max m elems ends :
  (0 ≤ m)%Z → (0 ≤ max)%Z →
  let d := from_slice body in
  root d = Node.Seq elems ends →
  let first := take (Z.to_nat max) elems in
  let nodes := Z.of_nat (S (nodes_of first)) in
  match mapM (node_cmd ∘ snd) first, drop (Z.to_nat max) elems with
  | Some cs, [] => parse_pipeline body max m =
      if decide (nodes ≤ m)%Z then
        (if ends && ends_clean d then Ok cs else Err ParseError.Invalid)
      else Err ParseError.RequestTooComplex
  | Some _, (skips, _) :: _ => parse_pipeline body max m =
      if decide (nodes ≤ m)%Z then
        Err (if skips : bool then ParseError.PipelineTooLarge else ParseError.Invalid)
      else Err ParseError.RequestTooComplex
  | None, _ => parse_pipeline body max m = Err ParseError.Invalid ∨
      (m < nodes)%Z ∧ parse_pipeline body max m = Err ParseError.RequestTooComplex
  end.
Proof. exact (pipeline_matches body max m elems ends). Qed.

(** The elements a command takes up: the array, its name, its arguments. *)
Definition command_elements (c : RedisCommand) : nat := 2 + length (args c).

Lemma nodes_of_length elems : length elems ≤ nodes_of elems.
Proof.
  induction elems as [|[b e] elems IH]; simpl; [lia|]. rewrite (node_count_pos e).
  lia.
Qed.

Lemma command_elements_le n c : node_cmd n = Some c → command_elements c ≤ node_count n.
Proof.
  destruct n as [| | | | |f| |elems ends|entries ends]; try (unfold node_command; done).
  - unfold node_command. cbn. by destruct (number_from_f64 f).
  - rewrite node_command_seq. destruct elems as [|[b [| | | | | |s| |]] rest]; try done.
    destruct (mapM _ rest) as [bs|] eqn:Hbs; [|done]. destruct ends; [|done]. intros [= <-].
    apply mapM_Some_1, Forall2_length in Hbs. pose proof (nodes_of_length rest).
    unfold command_elements, nodes_of in *. cbn. lia.
  - unfold node_command. rewrite node_value_map. destruct (mapM _ entries); [|done]. by destruct ends.
Qed.

(** What is accepted is bounded by the two limits, whatever the body: at
    most [max] commands, and arrays, names and arguments within the request
    element budget. *)
Theorem accepted_requests_are_bounded body max m :
  (0 ≤ m)%Z → (0 ≤ max)%Z →
  (∀ c, parse_command body m = Ok c → (Z.of_nat (command_elements c) ≤ m)%Z) ∧
  (∀ cs, parse_pipeline body max m = Ok cs →
     (Z.of_nat (length cs) ≤ max)%Z ∧
     (Z.of_nat (S (sum_list_with command_elements cs)) ≤ m)%Z).
Proof.
  intros Hm Hmax. split.
  - intros c Hc. pose proof (command_matches body m Hm) as Href. cbv zeta in Href.
    destruct (node_cmd _) as [c'|] eqn:Hn; [|destruct Href as [Href|[_ Href]]; congruence].
    rewrite Hc in Href. case_decide; [|done]. destruct (ends_clean _); simplify_eq.
    apply command_elements_le in Hn. lia.
  - intros cs Hcs. destruct (root (from_slice body)) as [| | | | | | |elems ends|] eqn:Hroot.
    8:{ pose proof (pipeline_matches body max m elems ends Hm Hmax Hroot) as Href. cbv zeta in Href.
        destruct (mapM _ _) as [cs'|] eqn:Hfirst; [|destruct Href as [Href|[_ Href]]; congruence].
        destruct (drop _ elems) as [|[? ?] ?]; rewrite Hcs in Href; [|by case_decide].
        case_decide; [|done]. destruct (ends && _); simplify_eq.
        apply mapM_Some_1 in Hfirst. split.
        - apply Forall2_length in Hfirst. rewrite length_take in Hfirst. lia.
        - enough (sum_list_with command_elements cs' ≤ nodes_of (take (Z.to_nat max) elems)) by lia.
          clear -Hfirst. induction Hfirst as [|[b e] c l l' He _ IH]; [done|].
          cbn [sum_list_with nodes_of foldr]. fold (nodes_of l).
          apply command_elements_le in He. cbn [snd] in *. lia. }
    all: exfalso; revert Hcs; unfold pipeline, pipeline_seed, run_seed; rewrite Hroot;
      unfold mbind, Visit_bind; by destruct (charge_node _) as [[[]|] ?].
Qed.
End Properties.

(** Documents for the witnesses: a command with a nested argument, and a
    pipeline of two commands. *)
Definition sample_document : Document :=
  mkDocument (Node.Seq [(true, Node.Str "GET");
    (true, Node.Map [("a", Node.Seq [(true, Node.U64 1)] true)] Node.Closed)] true) true.
Definition sample_pipeline : Document :=
  mkDocument (Node.Seq [(true, Node.Seq [(true, Node.Str "PING")] true);
    (true, Node.Seq [(true, Node.Str "PING")] true)] true) true.

Lemma command_matches_reference_witness :
  command (λ _, "1") (λ _, Ok "{}") (λ _, sample_document) "" 5 = Err ParseError.RequestTooComplex.
Proof. apply (command_matches_reference (λ _, "1") (λ _, Ok "{}") (λ _, sample_document) "" 5). done. Defined.

Lemma pipeline_matches_reference_witness :
  pipeline (λ _, "1") (λ _, Ok "{}") (λ _, sample_pipeline) "" 1 10 = Err ParseError.PipelineTooLarge.
Proof.
  exact (pipeline_matches_reference (λ _, "1") (λ _, Ok "{}") (λ _, sample_pipeline) "" 1 10
    [(true, Node.Seq [(true, Node.Str "PING")] true);
     (true, Node.Seq [(true, Node.Str "PING")] true)] true ltac:(done) ltac:(done) eq_refl).
Defined.

Lemma accepted_requests_are_bounded_witness :
  (Z.of_nat 2 ≤ 2)%Z ∧ (Z.of_nat 5 ≤ 10)%Z.
Proof.
  apply (accepted_requests_are_bounded (λ _, "1") (λ _, Ok "{}") (λ _, sample_pipeline) "" 2 10
    ltac:(done) ltac:(done)) with (cs := [mkRedisCommand "PING" []; mkRedisCommand "PING" []]).
  vm_compute. reflexivity.
Defined.
