(* ===== verification/Config.v ===== *)
(** * Configuration of [src/src/config.rs]

    The configuration records, the raw records they are read from, the three
    ways of loading them (environment, legacy file, new file), the environment
    overrides and the validation.  Parameters: the derived deserializers
    (built in [Deserialize.v]) and the JSON reader of serde, the file system, the socket-address and URL
    parsers, SHA-256, and the iteration order of hash maps ([hash_iter]), of
    which only that it enumerates the map is assumed. *)
From S2P Require Import Prelude Domain F64 Convert.

Definition DEFAULT_CONFIG_PATH : string := "./srh-config/tokens.json".

(** ** Configuration records *)

(** A wrapper that redacts its debug output and wipes itself when dropped. *)
Record SecretString : Type := SecretString_new { expose : string }.

(** [impl Debug for SecretString]. *)
Definition secret_debug (s : SecretString) : string :=
  String "034" ("<redacted>" +:+ String "034" EmptyString).

Record TlsConfig : Type := mkTlsConfig {
  tls_cert : string;
  tls_key : string;
}.

Record RateLimitConfig : Type := mkRateLimitConfig { per_token_commands_per_sec : Z }.

Record LoadConfig : Type := mkLoadConfig {
  max_in_flight : Z;
  max_response_bytes : Z;
  shed_retry_after_secs : Z;
  body_read_timeout_ms : Z;
}.

Record ServerConfig : Type := mkServerConfig {
  port : Z;
  bind : string;
  tls : option TlsConfig;
  max_body_bytes : Z;
  max_pipeline_commands : Z;
  max_request_elements : Z;
  http_timeout_ms : Z;
  rate_limit : RateLimitConfig;
  load : LoadConfig;
  metrics_bind : string;
}.

Record IntrospectionConfig : Type := mkIntrospectionConfig {
  introspection_enabled : bool;
  introspection_url : string;
  introspection_client_id : string;
  introspection_client_secret : SecretString;
  introspection_cache_secs : Z;
}.

Record JwtConfig : Type := mkJwtConfig {
  jwt_issuer : string;
  jwt_audience : string;
  jwks_refresh_secs : Z;
  role_prefix : string;
  jwt_client_id : string;
  introspection : IntrospectionConfig;
}.

Record StaticTokenConfig : Type := mkStaticTokenConfig {
  token_pool : string;
  token_read_only : bool;
  token_legacy : bool;
  token_allowed_commands : option (gset string);
  token_blocked_commands : gset string;
  token_allowed_script_sha256 : gset string;
  token_key_prefix : option string;
}.

Record AuthConfig : Type := mkAuthConfig {
  jwt : option JwtConfig;
  static_tokens : gmap string StaticTokenConfig;
}.

Record BreakerConfig : Type := mkBreakerConfig {
  breaker_failure_threshold : Z;
  breaker_cooldown_ms : Z;
}.

Record PoolConfig : Type := mkPoolConfig {
  connection_string : SecretString;
  max_connections : Z;
  command_timeout_ms : Z;
  acquire_timeout_ms : Z;
  max_waiters : Z;
  pool_breaker : BreakerConfig;
  pool_allowed_script_sha256 : gset string;
}.

Record Config : Type := mkConfig {
  server : ServerConfig;
  auth : AuthConfig;
  pools : gmap string PoolConfig;
}.

Module ConfigError.
Inductive ConfigError : Type :=
| Read (path : string) (source : string)
| Json (message : string)
| MissingEnvironment (name : string)
| InvalidEnvironment (name : string) (reason : string)
| Validation (message : string).
End ConfigError.
Abbreviation ConfigError := ConfigError.ConfigError.

(** ** Raw records *)

Record RawLegacyToken : Type := mkRawLegacyToken {
  legacy_srh_id : option string;
  legacy_connection_string : string;
  legacy_max_connections : Z;
}.

Record RawRateLimitConfig : Type := mkRawRateLimit { raw_per_token_commands_per_sec : Z }.

Record RawLoadConfig : Type := mkRawLoad {
  raw_max_in_flight : Z;
  raw_max_response_bytes : Z;
  raw_shed_retry_after_secs : Z;
  raw_body_read_timeout_ms : Z;
}.

Record RawServerConfig : Type := mkRawServer {
  raw_port : Z;
  raw_bind : string;
  raw_tls : option TlsConfig;
  raw_max_body_bytes : Z;
  raw_max_pipeline_commands : Z;
  raw_max_request_elements : Z;
  raw_http_timeout_ms : Z;
  raw_rate_limit : RawRateLimitConfig;
  raw_load : RawLoadConfig;
  raw_metrics_bind : string;
}.

Record RawIntrospectionConfig : Type := mkRawIntrospection {
  raw_introspection_enabled : bool;
  raw_introspection_url : string;
  raw_introspection_client_id : string;
  raw_introspection_client_secret : string;
  raw_introspection_cache_secs : Z;
}.

Record RawJwtConfig : Type := mkRawJwt {
  raw_issuer : string;
  raw_audience : string;
  raw_jwks_refresh_secs : Z;
  raw_role_prefix : string;
  raw_jwt_client_id : string;
  raw_introspection : RawIntrospectionConfig;
}.

Record RawStaticTokenConfig : Type := mkRawStaticToken {
  raw_token_pool : string;
  raw_token_read_only : bool;
  raw_token_allowed_commands : option (list string);
  raw_token_blocked_commands : list string;
  raw_token_allowed_script_sha256 : list string;
  raw_token_key_prefix : option string;
}.

Record RawBreakerConfig : Type := mkRawBreaker {
  raw_failure_threshold : Z;
  raw_cooldown_ms : Z;
}.

Record RawPoolConfig : Type := mkRawPool {
  raw_connection_string : string;
  raw_max_connections : Z;
  raw_command_timeout_ms : Z;
  raw_acquire_timeout_ms : Z;
  raw_max_waiters : option Z;
  raw_breaker : RawBreakerConfig;
  raw_allowed_script_sha256 : list string;
}.

Record RawAuthConfig : Type := mkRawAuth {
  raw_jwt : option RawJwtConfig;
  raw_static_tokens : gmap string RawStaticTokenConfig;
}.

Record RawConfig : Type := mkRawConfig {
  raw_server : RawServerConfig;
  raw_auth : RawAuthConfig;
  raw_pools : gmap string RawPoolConfig;
}.

(** ** Defaults and conversions *)

(** [ServerConfig::default]. *)
Definition server_default : ServerConfig :=
  mkServerConfig 80 "127.0.0.1" None 10485760 1000 10000 10000 (mkRateLimitConfig 0)
    (mkLoadConfig 512 33554432 1 2000) "127.0.0.1:9422".

(** [RawRateLimitConfig::default] and [RawLoadConfig::default]. *)
Definition raw_rate_limit_default : RawRateLimitConfig := mkRawRateLimit 0.
Definition raw_load_default : RawLoadConfig :=
  let load := load server_default in
  mkRawLoad (max_in_flight load) (max_response_bytes load) (shed_retry_after_secs load)
    (body_read_timeout_ms load).

(** [RawServerConfig::default]. *)
Definition raw_server_default : RawServerConfig :=
  let server := server_default in
  mkRawServer (port server) (bind server) (tls server) (max_body_bytes server)
    (max_pipeline_commands server) (max_request_elements server) (http_timeout_ms server)
    raw_rate_limit_default raw_load_default (metrics_bind server).

Definition raw_introspection_default : RawIntrospectionConfig :=
  mkRawIntrospection false "" "" "" 30.
Definition raw_jwt_default : RawJwtConfig :=
  mkRawJwt "" "" 600 "redis:" "srh" raw_introspection_default.
Definition raw_static_token_default : RawStaticTokenConfig := mkRawStaticToken "" false None [] [] None.
Definition default_max_connections : Z := 3.
Definition raw_breaker_default : RawBreakerConfig := mkRawBreaker 10 2000.
Definition raw_pool_default : RawPoolConfig :=
  mkRawPool "" default_max_connections 2000 500 None raw_breaker_default [].
Definition raw_config_default : RawConfig :=
  mkRawConfig raw_server_default (mkRawAuth None ∅) ∅.

(** The [From] conversions of the raw records. *)
Definition rate_limit_from (raw : RawRateLimitConfig) : RateLimitConfig :=
  mkRateLimitConfig (raw_per_token_commands_per_sec raw).
Definition load_from (raw : RawLoadConfig) : LoadConfig :=
  mkLoadConfig (raw_max_in_flight raw) (raw_max_response_bytes raw)
    (raw_shed_retry_after_secs raw) (raw_body_read_timeout_ms raw).
Definition server_from (raw : RawServerConfig) : ServerConfig :=
  mkServerConfig (raw_port raw) (raw_bind raw) (raw_tls raw) (raw_max_body_bytes raw)
    (raw_max_pipeline_commands raw) (raw_max_request_elements raw) (raw_http_timeout_ms raw)
    (rate_limit_from (raw_rate_limit raw)) (load_from (raw_load raw)) (raw_metrics_bind raw).
Definition introspection_from (raw : RawIntrospectionConfig) : IntrospectionConfig :=
  mkIntrospectionConfig (raw_introspection_enabled raw) (raw_introspection_url raw)
    (raw_introspection_client_id raw)
    (SecretString_new (raw_introspection_client_secret raw)) (raw_introspection_cache_secs raw).
Definition jwt_from (raw : RawJwtConfig) : JwtConfig :=
  mkJwtConfig (raw_issuer raw) (raw_audience raw) (raw_jwks_refresh_secs raw)
    (raw_role_prefix raw) (raw_jwt_client_id raw) (introspection_from (raw_introspection raw)).
Definition breaker_from (raw : RawBreakerConfig) : BreakerConfig :=
  mkBreakerConfig (raw_failure_threshold raw) (raw_cooldown_ms raw).

(** [PoolConfig::new]. *)
Definition pool_new (connection_string : string)
    (max_connections command_timeout_ms acquire_timeout_ms : Z) (max_waiters : option Z)
    (breaker : option RawBreakerConfig) : PoolConfig :=
  mkPoolConfig (SecretString_new connection_string) max_connections command_timeout_ms
    acquire_timeout_ms (default (saturating_mul max_connections 4) max_waiters)
    (breaker_from (default raw_breaker_default breaker)) ∅.

Definition default_token (pool : string) (legacy : bool) : StaticTokenConfig :=
  mkStaticTokenConfig pool false legacy None ∅ ∅ None.

Definition same_legacy_pool (left right : PoolConfig) : bool :=
  String.eqb (expose (connection_string left)) (expose (connection_string right))
  && (max_connections left =? max_connections right)%Z.

Definition has_connection_string (v : Value) : bool :=
  match v with
  | Value.Object entries => bool_decide ("connection_string" ∈ entries.*1)
  | _ => false
  end.

Definition uppercase_set (values : list string) : gset string :=
  list_to_set (to_ascii_uppercase <$> values).
Definition lowercase_set (values : list string) : gset string :=
  list_to_set (to_ascii_lowercase <$> values).

(** ** Digests *)

Definition hex_nibble (byte : ascii) : option N :=
  let b := N_of_ascii byte in
  if is_ascii_digit byte then Some (b - 48)%N
  else if (97 <=? b)%N && (b <=? 102)%N then Some (b - 97 + 10)%N
  else if (65 <=? b)%N && (b <=? 70)%N then Some (b - 65 + 10)%N
  else None.

Definition invalid_digest_hex : ConfigError :=
  ConfigError.Validation "sha256 token keys must contain only hex".

(** The loop over [chunks_exact(2)]. *)
Fixpoint digest_pairs (hex : string) : result bytes ConfigError :=
  match hex with
  | String h (String l hex) =>
      let? high := ok_or invalid_digest_hex (hex_nibble h) in
      let? low := ok_or invalid_digest_hex (hex_nibble l) in
      let? rest := digest_pairs hex in
      Ok (String (ascii_of_N (N.lor (N.shiftl high 4) low)) rest)
  | _ => Ok EmptyString
  end.

Definition digest_hex (digest : bytes) : string := hex_bytes digest.
Definition digest_prefix (digest : bytes) : string := String.substring 0 8 (digest_hex digest).

(** ** Environment *)

(** [str::parse] for an unsigned integer type whose largest value is [max]. *)
Fixpoint parse_digits (max : Z) (s : string) (acc : Z) : result Z string :=
  match s with
  | EmptyString => Ok acc
  | String c s =>
      if is_ascii_digit c then
        let next := (acc * 10 + Z.of_N (N_of_ascii c - 48))%Z in
        if decide (next ≤ max)%Z then parse_digits max s next
        else Err "number too large to fit in target type"
      else Err "invalid digit found in string"
  end.

Definition parse_unsigned (max : Z) (s : string) : result Z string :=
  match s with
  | EmptyString => Err "cannot parse integer from empty string"
  | String "+" EmptyString => Err "invalid digit found in string"
  | String "+" s => parse_digits max s 0
  | s => parse_digits max s 0
  end.

Definition u16_max : Z := 65535.

Definition validate_nonzero (name : string) (value : Z) : result unit ConfigError :=
  if decide (value = 0%Z) then Err (ConfigError.Validation (name +:+ " must be greater than zero"))
  else Ok tt.

Section Environment.
Context (get : string → option string).

Definition required (name : string) : result string ConfigError :=
  ok_or (ConfigError.MissingEnvironment name) (get name).

Definition parse_env (max : Z) (name : string) : result (option Z) ConfigError :=
  match get name with
  | None => Ok None
  | Some value =>
      result_map Some (map_err (ConfigError.InvalidEnvironment name) (parse_unsigned max value))
  end.

Definition parse_bool_env (name : string) : result (option bool) ConfigError :=
  match get name with
  | None => Ok None
  | Some value =>
      if contains ["true"; "1"] value then Ok (Some true)
      else if contains ["false"; "0"] value then Ok (Some false)
      else Err (ConfigError.InvalidEnvironment name "expected true, false, 1, or 0")
  end.

(** [Config::apply_server_overrides]. *)
Definition with_bind (s : ServerConfig) (b : string) : ServerConfig :=
  mkServerConfig (port s) b (tls s) (max_body_bytes s) (max_pipeline_commands s)
    (max_request_elements s) (http_timeout_ms s) (rate_limit s) (load s) (metrics_bind s).
Definition with_port (s : ServerConfig) (p : Z) : ServerConfig :=
  mkServerConfig p (bind s) (tls s) (max_body_bytes s) (max_pipeline_commands s)
    (max_request_elements s) (http_timeout_ms s) (rate_limit s) (load s) (metrics_bind s).

Definition apply_server_overrides (c : Config) : result Config ConfigError :=
  let s := server c in
  let s := match get "SRH_BIND" with Some b => with_bind s b | None => s end in
  let? p := parse_env u16_max "SRH_PORT" in
  let s := match p with Some p => with_port s p | None => s end in
  let? ipv6 := parse_bool_env "SRH_IPV6" in
  let s := if default false ipv6
           then with_bind s (if String.eqb (bind s) "0.0.0.0" then "::" else "::1") else s in
  Ok (mkConfig s (auth c) (pools c)).
End Environment.

(** ** Loading *)

Section Load.
Context (sha256 : bytes → bytes).
Context (hash_iter : ∀ A, gmap string A → list (string * A)).
(** [SocketAddr::from_str] and [Url::parse]: the scheme, or the error's text. *)
Context (parse_socket_addr : string → result unit string).
Context (parse_url : string → result string string).
(** [serde_json::from_str], and the derived [from_value] of the raw records. *)
Context (from_str : string → result Value string).
Context (legacy_from_value : Value → result (gmap string RawLegacyToken) string).
Context (raw_from_value : Value → result RawConfig string).
(** [fs::read_to_string]. *)
Context (read_to_string : string → result string string).

Definition digest_token (token : string) : bytes := sha256 token.

Definition parse_configured_digest (token : string) : result bytes ConfigError :=
  match strip_prefix "sha256:" token with
  | None => Ok (digest_token token)
  | Some hex =>
      if negb (String.length hex =? 64) then
        Err (ConfigError.Validation "sha256 token keys must contain exactly 64 hex characters")
      else digest_pairs hex
  end.

(** [Config::from_env_mode]. *)
Definition from_env_mode (get : string → option string) : result Config ConfigError :=
  let? token := required get "SRH_TOKEN" in
  let? conn := required get "SRH_CONNECTION_STRING" in
  let? max_conns := parse_env get usize_max "SRH_MAX_CONNECTIONS" in
  let digest := digest_token token in
  let tokens := {[ digest := default_token "default" true ]} in
  let ps := {[ "default" := pool_new conn (default 3%Z max_conns) 2000 500 None None ]} in
  Ok (mkConfig server_default (mkAuthConfig None tokens) ps).

(** The pool a legacy entry names, and its definition. *)
Definition legacy_pool_name (entry : string * RawLegacyToken) : string :=
  match legacy_srh_id entry.2 with
  | Some id => if String.eqb id "" then digest_prefix (digest_token entry.1) else id
  | None => digest_prefix (digest_token entry.1)
  end.

Definition legacy_candidate (entry : string * RawLegacyToken) : PoolConfig :=
  pool_new (legacy_connection_string entry.2) (legacy_max_connections entry.2) 2000 500 None None.

(** The body of the loop of [Config::from_legacy_value]. *)
Definition legacy_entry (acc : gmap string StaticTokenConfig * gmap string PoolConfig)
    (entry : string * RawLegacyToken) :
    result (gmap string StaticTokenConfig * gmap string PoolConfig) ConfigError :=
  let '(tokens, ps) := acc in
  let digest := digest_token entry.1 in
  let pool := legacy_pool_name entry in
  let candidate := legacy_candidate entry in
  let? ps :=
    match ps !! pool with
    | Some existing =>
        if negb (same_legacy_pool existing candidate) then
          Err (ConfigError.Validation ("legacy srh_id '" +:+ pool +:+ "' has conflicting pool definitions"))
        else Ok ps
    | None => Ok (<[pool := candidate]> ps)
    end in
  Ok (<[digest := default_token pool true]> tokens, ps).

Fixpoint legacy_loop (entries : list (string * RawLegacyToken))
    (acc : gmap string StaticTokenConfig * gmap string PoolConfig) :
    result (gmap string StaticTokenConfig * gmap string PoolConfig) ConfigError :=
  match entries with
  | [] => Ok acc
  | e :: entries => let? acc := legacy_entry acc e in legacy_loop entries acc
  end.

(** [Config::from_legacy_value]. *)
Definition from_legacy_value (v : Value) : result Config ConfigError :=
  let? entries := map_err ConfigError.Json (legacy_from_value v) in
  let? acc := legacy_loop (hash_iter _ entries) (∅, ∅) in
  Ok (mkConfig server_default (mkAuthConfig None acc.1) acc.2).

(** The token and pool loops of [Config::from_new_value]. *)
Definition new_token (e : RawStaticTokenConfig) : StaticTokenConfig :=
  mkStaticTokenConfig (raw_token_pool e) (raw_token_read_only e) false
    (uppercase_set <$> raw_token_allowed_commands e)
    (uppercase_set (raw_token_blocked_commands e))
    (lowercase_set (raw_token_allowed_script_sha256 e)) (raw_token_key_prefix e).

Fixpoint new_tokens (entries : list (string * RawStaticTokenConfig))
    (tokens : gmap string StaticTokenConfig) : result (gmap string StaticTokenConfig) ConfigError :=
  match entries with
  | [] => Ok tokens
  | (token, e) :: entries =>
      let? digest := parse_configured_digest token in
      new_tokens entries (<[digest := new_token e]> tokens)
  end.

Definition new_pool (p : RawPoolConfig) : PoolConfig :=
  let waiters :=
    match raw_max_waiters p with
    | Some w => Some w
    | None => checked_mul (raw_max_connections p) 4
    end in
  let n := pool_new (raw_connection_string p) (raw_max_connections p) (raw_command_timeout_ms p)
             (raw_acquire_timeout_ms p) waiters (Some (raw_breaker p)) in
  mkPoolConfig (connection_string n) (max_connections n) (command_timeout_ms n)
    (acquire_timeout_ms n) (max_waiters n) (pool_breaker n)
    (lowercase_set (raw_allowed_script_sha256 p)).

(** The scripts a pool approves are copied into the tokens routed to it. *)
Definition widen (ps : gmap string PoolConfig) (t : StaticTokenConfig) : StaticTokenConfig :=
  match ps !! token_pool t with
  | Some p =>
      mkStaticTokenConfig (token_pool t) (token_read_only t) (token_legacy t)
        (token_allowed_commands t) (token_blocked_commands t)
        (token_allowed_script_sha256 t ∪ pool_allowed_script_sha256 p) (token_key_prefix t)
  | None => t
  end.

(** [Config::from_new_value]. *)
Definition from_new_value (v : Value) : result Config ConfigError :=
  let? raw := map_err ConfigError.Json (raw_from_value v) in
  let? tokens := new_tokens (hash_iter _ (raw_static_tokens (raw_auth raw))) ∅ in
  let ps := new_pool <$> raw_pools raw in
  let tokens := widen ps <$> tokens in
  Ok (mkConfig (server_from (raw_server raw))
        (mkAuthConfig (jwt_from <$> raw_jwt (raw_auth raw)) tokens) ps).

(** ** Validation *)

Definition is_http (scheme : string) : bool := contains ["http"; "https"] scheme.

(** The part of [Config::validate] about the JWT section. *)
Definition validate_jwt (j : JwtConfig) : result unit ConfigError :=
  let? scheme := map_err (λ e, ConfigError.Validation ("auth.jwt.issuer is not a valid URL: " +:+ e))
                   (parse_url (jwt_issuer j)) in
  if negb (is_http scheme) then Err (ConfigError.Validation "auth.jwt.issuer must use http or https")
  else if String.eqb (jwt_audience j) "" || String.eqb (jwt_client_id j) "" then
    Err (ConfigError.Validation "auth.jwt.audience and auth.jwt.client_id must not be empty")
  else
    let? _ := validate_nonzero "auth.jwt.jwks_refresh_secs" (jwks_refresh_secs j) in
    let i := introspection j in
    if introspection_enabled i then
      let? scheme := map_err (λ e, ConfigError.Validation
                       ("auth.jwt.introspection.url is not a valid URL: " +:+ e))
                       (parse_url (introspection_url i)) in
      if negb (is_http scheme) then
        Err (ConfigError.Validation "auth.jwt.introspection.url must use http or https")
      else if String.eqb (introspection_client_id i) ""
              || String.eqb (expose (introspection_client_secret i)) "" then
        Err (ConfigError.Validation "enabled JWT introspection requires client_id and client_secret")
      else validate_nonzero "auth.jwt.introspection.cache_secs" (introspection_cache_secs i)
    else Ok tt.

Definition validate_token (ps : gmap string PoolConfig) (t : StaticTokenConfig) : result unit ConfigError :=
  match ps !! token_pool t with
  | Some _ => Ok tt
  | None =>
      Err (ConfigError.Validation ("static token references missing pool '" +:+ token_pool t +:+ "'"))
  end.

Definition validate_pool (http_timeout : Z) (np : string * PoolConfig) : result unit ConfigError :=
  let '(name, p) := np in
  let field f := "pools." +:+ name +:+ "." +:+ f in
  let overflow := ConfigError.Validation ("timeouts overflow for pool '" +:+ name +:+ "'") in
  if String.eqb (expose (connection_string p)) "" then
    Err (ConfigError.Validation (field "connection_string must not be empty"))
  else
    let? _ := validate_nonzero (field "max_connections") (max_connections p) in
    let? _ := validate_nonzero (field "command_timeout_ms") (command_timeout_ms p) in
    let? _ := validate_nonzero (field "acquire_timeout_ms") (acquire_timeout_ms p) in
    let? _ := validate_nonzero (field "max_waiters") (max_waiters p) in
    let? _ := validate_nonzero (field "breaker.failure_threshold")
                (breaker_failure_threshold (pool_breaker p)) in
    let? _ := validate_nonzero (field "breaker.cooldown_ms") (breaker_cooldown_ms (pool_breaker p)) in
    let? command_and_reset := ok_or overflow (checked_mul (command_timeout_ms p) 2) in
    let? total := ok_or overflow (checked_add (acquire_timeout_ms p) command_and_reset) in
    if decide (http_timeout ≤ total)%Z then
      Err (ConfigError.Validation ("pool '" +:+ name +:+
        "' requires acquire_timeout_ms + 2 * command_timeout_ms < http_timeout_ms"))
    else Ok tt.

(** [Config::validate]. *)
Definition validate (c : Config) : result unit ConfigError :=
  let s := server c in
  let? _ := validate_nonzero "server.port" (port s) in
  let? _ := validate_nonzero "server.max_body_bytes" (max_body_bytes s) in
  let? _ := validate_nonzero "server.max_pipeline_commands" (max_pipeline_commands s) in
  let? _ := validate_nonzero "server.max_request_elements" (max_request_elements s) in
  let? _ := validate_nonzero "server.http_timeout_ms" (http_timeout_ms s) in
  let? _ := validate_nonzero "server.load.max_in_flight" (max_in_flight (load s)) in
  let? _ := validate_nonzero "server.load.max_response_bytes" (max_response_bytes (load s)) in
  let? _ := validate_nonzero "server.load.shed_retry_after_secs" (shed_retry_after_secs (load s)) in
  let? _ := validate_nonzero "server.load.body_read_timeout_ms" (body_read_timeout_ms (load s)) in
  let? _ := map_err (λ e, ConfigError.Validation
              ("server.metrics_bind is not a valid socket address: " +:+ e))
              (parse_socket_addr (metrics_bind s)) in
  let? _ := match jwt (auth c) with Some j => validate_jwt j | None => Ok tt end in
  let? _ := try_for_each (λ kt, validate_token (pools c) kt.2)
              (hash_iter _ (static_tokens (auth c))) in
  try_for_each (validate_pool (http_timeout_ms s)) (hash_iter _ (pools c)).

(** [Config::from_json]. *)
Definition from_json (json : string) : result Config ConfigError :=
  let? v := map_err ConfigError.Json (from_str json) in
  let is_legacy :=
    match v with Value.Object entries => existsb (has_connection_string ∘ snd) entries | _ => false end in
  let? c := if is_legacy then from_legacy_value v else from_new_value v in
  let? _ := validate c in
  Ok c.

(** [Config::from_path]. *)
Definition from_path (path : string) : result Config ConfigError :=
  let? json := map_err (ConfigError.Read path) (read_to_string path) in
  from_json json.

(** [Config::from_environment]. *)
Definition from_environment (get : string → option string) : result Config ConfigError :=
  let mode := default "file" (get "SRH_MODE") in
  let? c :=
    if String.eqb mode "env" then from_env_mode get
    else if String.eqb mode "file" then from_path (default DEFAULT_CONFIG_PATH (get "SRH_CONFIG_PATH"))
    else Err (ConfigError.InvalidEnvironment "SRH_MODE" "expected `file` or `env`") in
  let? c := apply_server_overrides get c in
  let? _ := validate c in
  Ok c.
End Load.

(** ** Digest lemmas *)

Lemma hex_nibble_char n : (n < 16)%N → hex_nibble (hex_char n) = Some n.
Proof.
  intros Hn. assert (forallb (λ k, bool_decide (hex_nibble (hex_char (N.of_nat k)) = Some (N.of_nat k)))
    (seq 0 16) = true) as Hall by (vm_compute; reflexivity).
  rewrite List.forallb_forall in Hall. specialize (Hall (N.to_nat n)). rewrite N2Nat.id in Hall.
  eapply bool_decide_eq_true_1, Hall, List.in_seq. lia.
Qed.

Lemma hex_nibble_inv c n : hex_nibble c = Some n → (n < 16)%N ∧ hex_char n = ascii_lower c.
Proof.
  intros Hc. assert (match hex_nibble c with
    | Some n => (n <? 16)%N && Ascii.eqb (hex_char n) (ascii_lower c) | None => true end = true) as Hb.
  { revert c Hc. intros c _. revert c. apply byte_forall. vm_compute. reflexivity. }
  rewrite Hc in Hb. apply andb_true_iff in Hb as [Hn He].
  split; [by apply N.ltb_lt|by apply Ascii.eqb_eq].
Qed.

(** Two nibbles make the byte, and the byte gives the nibbles back. *)
Lemma nibbles_of_byte c :
  ascii_of_N (N.lor (N.shiftl (N_of_ascii c / 16) 4) (N_of_ascii c mod 16)) = c.
Proof. by byte_cases c. Qed.

Lemma byte_of_nibbles h l :
  (h < 16)%N → (l < 16)%N →
  let b := N_of_ascii (ascii_of_N (N.lor (N.shiftl h 4) l)) in (b / 16 = h)%N ∧ (b mod 16 = l)%N.
Proof.
  intros Hh Hl.
  assert (forallb (λ h, forallb (λ l,
    let b := N_of_ascii (ascii_of_N (N.lor (N.shiftl (N.of_nat h) 4) (N.of_nat l))) in
    ((b / 16 =? N.of_nat h) && (b mod 16 =? N.of_nat l))%N) (seq 0 16)) (seq 0 16) = true)
    as Hall by (vm_compute; reflexivity).
  rewrite List.forallb_forall in Hall. specialize (Hall (N.to_nat h)).
  rewrite List.forallb_forall in Hall.
  assert (∀ n, (n < 16)%N → List.In (N.to_nat n) (seq 0 16)) as Hin by (intros; apply List.in_seq; lia).
  specialize (Hall (Hin _ Hh) (N.to_nat l) (Hin _ Hl)). rewrite !N2Nat.id in Hall.
  apply andb_true_iff in Hall as [H1 H2]. split; by apply N.eqb_eq.
Qed.

Lemma digest_pairs_hex d : digest_pairs (hex_bytes d) = Ok d.
Proof.
  induction d as [|c d IH]; [done|]. cbn [hex_bytes digest_pairs].
  pose proof (N_ascii_bounded c).
  rewrite !hex_nibble_char by lia_div. cbn. rewrite IH. by rewrite nibbles_of_byte.
Qed.

Lemma digest_pairs_inv k hex d :
  String.length hex = 2 * k → digest_pairs hex = Ok d →
  String.length d = k ∧ hex_bytes d = to_ascii_lowercase hex.
Proof.
  revert hex d. induction k as [|k IH]; intros hex d Hlen.
  { destruct hex; [|done]. by intros [= <-]. }
  destruct hex as [|h [|l hex]]; [done|simpl in Hlen; lia|]. simpl in Hlen. cbn [digest_pairs].
  destruct (hex_nibble h) as [nh|] eqn:Hh; [|done]. destruct (hex_nibble l) as [nl|] eqn:Hl; [|done].
  cbn [ok_or]. destruct (digest_pairs hex) as [rest|] eqn:Hrest; [|done]. intros [= <-].
  destruct (IH hex rest) as [Hk Hhex]; [lia|done|].
  apply hex_nibble_inv in Hh as [Hnh Hch], Hl as [Hnl Hcl].
  destruct (byte_of_nibbles nh nl Hnh Hnl) as [H1 H2].
  split; [simpl; lia|]. cbn [hex_bytes]. rewrite H1, H2, Hch, Hcl, Hhex. done.
Qed.

(** ** Validity *)

Section Valid.
Context (parse_socket_addr : string → result unit string) (parse_url : string → result string string).

Definition http_url (u : string) : Prop := ∃ scheme, parse_url u = Ok scheme ∧ is_http scheme = true.

Record valid_jwt (j : JwtConfig) : Prop := {
  valid_issuer : http_url (jwt_issuer j);
  valid_audience : jwt_audience j ≠ "";
  valid_client : jwt_client_id j ≠ "";
  valid_refresh : jwks_refresh_secs j ≠ 0%Z;
  valid_introspection : introspection_enabled (introspection j) = true →
    http_url (introspection_url (introspection j)) ∧
    introspection_client_id (introspection j) ≠ "" ∧
    expose (introspection_client_secret (introspection j)) ≠ "" ∧
    introspection_cache_secs (introspection j) ≠ 0%Z;
}.

Record valid_pool (http_timeout : Z) (p : PoolConfig) : Prop := {
  valid_connection : expose (connection_string p) ≠ "";
  valid_connections : max_connections p ≠ 0%Z;
  valid_command_timeout : command_timeout_ms p ≠ 0%Z;
  valid_acquire_timeout : acquire_timeout_ms p ≠ 0%Z;
  valid_waiters : max_waiters p ≠ 0%Z;
  valid_threshold : breaker_failure_threshold (pool_breaker p) ≠ 0%Z;
  valid_cooldown : breaker_cooldown_ms (pool_breaker p) ≠ 0%Z;
  valid_timeouts : (acquire_timeout_ms p + 2 * command_timeout_ms p < http_timeout)%Z;
}.

Record valid_config (c : Config) : Prop := {
  valid_port : port (server c) ≠ 0%Z;
  valid_body : max_body_bytes (server c) ≠ 0%Z;
  valid_commands : max_pipeline_commands (server c) ≠ 0%Z;
  valid_elements : max_request_elements (server c) ≠ 0%Z;
  valid_http_timeout : http_timeout_ms (server c) ≠ 0%Z;
  valid_in_flight : max_in_flight (load (server c)) ≠ 0%Z;
  valid_response : max_response_bytes (load (server c)) ≠ 0%Z;
  valid_retry : shed_retry_after_secs (load (server c)) ≠ 0%Z;
  valid_body_timeout : body_read_timeout_ms (load (server c)) ≠ 0%Z;
  valid_metrics : parse_socket_addr (metrics_bind (server c)) = Ok tt;
  valid_jwt_section : ∀ j, jwt (auth c) = Some j → valid_jwt j;
  valid_tokens : map_Forall (λ _ t, is_Some (pools c !! token_pool t)) (static_tokens (auth c));
  valid_pools : map_Forall (λ _ p, valid_pool (http_timeout_ms (server c)) p) (pools c);
}.

(** The fields the code keeps in unsigned 64-bit integers. *)
Definition timeouts_in_range (c : Config) : Prop :=
  in_u64 (http_timeout_ms (server c)) ∧
  map_Forall (λ _ p, in_u64 (command_timeout_ms p) ∧ in_u64 (acquire_timeout_ms p)) (pools c).

Lemma validate_nonzero_ok n z : validate_nonzero n z = Ok tt ↔ z ≠ 0%Z.
Proof. unfold validate_nonzero. case_decide; split; done || congruence. Qed.

Lemma let_ok_bind {A E} (r : result A E) (k : A → result unit E) :
  (let? a := r in k a) = Ok tt ↔ ∃ a, r = Ok a ∧ k a = Ok tt.
Proof. destruct r as [a|]; split; [eauto|by intros (? & [= <-] & ?)|done|by intros (? & ? & _)]. Qed.

Lemma map_err_ok {A E F} (f : E → F) (r : result A E) a : map_err f r = Ok a ↔ r = Ok a.
Proof. destruct r; simpl; split; congruence. Qed.

Lemma validate_jwt_ok j : validate_jwt parse_url j = Ok tt ↔ valid_jwt j.
Proof.
  unfold validate_jwt. cbv zeta. rewrite let_ok_bind.
  setoid_rewrite map_err_ok. setoid_rewrite guard_ok. setoid_rewrite guard_ok. setoid_rewrite let_ok.
  split.
  - intros (scheme & Hurl & Hhttp & He & Hr & Hi). bools.
    apply validate_nonzero_ok in Hr. split; try done; [by eexists|].
    intros Hen. rewrite Hen in Hi. apply let_ok_bind in Hi as (scheme' & Hurl' & Hi).
    apply map_err_ok in Hurl'. apply guard_ok in Hi as [Hh Hi]. apply guard_ok in Hi as [Hc Hi]. bools.
    apply validate_nonzero_ok in Hi. split_and!; try done. by eexists.
  - intros [(scheme & Hurl & Hhttp) Ha Hc Hr Hi]. exists scheme. rewrite Hhttp.
    apply String.eqb_neq in Ha, Hc. rewrite Ha, Hc. split_and!; try done; [by apply validate_nonzero_ok|].
    destruct (introspection_enabled _); [|done].
    destruct (Hi eq_refl) as ((scheme' & Hurl' & Hhttp') & Hci & Hcs & Hcache).
    apply String.eqb_neq in Hci, Hcs. rewrite Hurl'. cbn. rewrite Hhttp', Hci, Hcs. cbn.
    by apply validate_nonzero_ok.
Qed.

Lemma validate_pool_ok t n p :
  in_u64 t → in_u64 (acquire_timeout_ms p) →
  validate_pool t (n, p) = Ok tt ↔ valid_pool t p.
Proof.
  intros Ht Ha. unfold validate_pool. rewrite guard_ok, String.eqb_neq. rewrite !let_ok, !validate_nonzero_ok.
  assert ((let? command_and_reset := ok_or (ConfigError.Validation
             ("timeouts overflow for pool '" +:+ n +:+ "'")) (checked_mul (command_timeout_ms p) 2) in
    let? total := ok_or (ConfigError.Validation ("timeouts overflow for pool '" +:+ n +:+ "'"))
                    (checked_add (acquire_timeout_ms p) command_and_reset) in
    if decide (t ≤ total)%Z then
      Err (ConfigError.Validation ("pool '" +:+ n +:+
        "' requires acquire_timeout_ms + 2 * command_timeout_ms < http_timeout_ms"))
    else Ok tt) = Ok tt ↔ (acquire_timeout_ms p + 2 * command_timeout_ms p < t)%Z) as ->.
  { unfold checked_mul, checked_add, in_u64 in *.
    repeat (case_decide; simpl); split; try done; intros; lia || (exfalso; lia). }
  split; [intros (?&?&?&?&?&?&?&?); by split|intros []; by split_and!].
Qed.
End Valid.

(** ** Loading lemmas *)

Section LoadFacts.
Context (hash_iter : ∀ A, gmap string A → list (string * A)).
Hypothesis hash_iter_perm : ∀ A (m : gmap string A), hash_iter A m ≡ₚ map_to_list m.
Context (parse_socket_addr : string → result unit string).
Context (parse_url : string → result string string).

(** A loop over a hash map visits every entry, in some order. *)
Lemma hash_iter_Forall {A} (P : string * A → Prop) (m : gmap string A) :
  Forall P (hash_iter A m) ↔ map_Forall (λ k a, P (k, a)) m.
Proof. rewrite hash_iter_perm, map_Forall_to_list. apply Forall_iff. by intros [k a]. Qed.

Lemma elem_of_hash_iter {A} (m : gmap string A) k a : (k, a) ∈ hash_iter A m ↔ m !! k = Some a.
Proof. by rewrite hash_iter_perm, elem_of_map_to_list. Qed.

Lemma NoDup_hash_iter {A} (m : gmap string A) : NoDup (hash_iter A m).*1.
Proof. rewrite hash_iter_perm. apply NoDup_fst_map_to_list. Qed.

Lemma hash_iter_singleton {A} k (a : A) : hash_iter A {[ k := a ]} = [(k, a)].
Proof. apply Permutation_singleton_r. by rewrite hash_iter_perm, map_to_list_singleton. Qed.

Lemma validate_token_ok ps t : validate_token ps t = Ok tt ↔ is_Some (ps !! token_pool t).
Proof. unfold validate_token. destruct (ps !! token_pool t); split; eauto; [done|by intros []]. Qed.

Lemma map_Forall_iff_strong {A} (P Q : string → A → Prop) (m : gmap string A) :
  (∀ k a, m !! k = Some a → P k a ↔ Q k a) → map_Forall P m ↔ map_Forall Q m.
Proof. intros Hpq. split; intros Hall k a Hk; apply (Hpq k a Hk); auto. Qed.

Lemma validate_ok c :
  timeouts_in_range c →
  validate hash_iter parse_socket_addr parse_url c = Ok tt ↔
  valid_config parse_socket_addr parse_url c.
Proof.
  intros [Ht Hps]. unfold validate. cbv zeta. rewrite !let_ok, !validate_nonzero_ok, map_err_ok.
  rewrite !try_for_each_ok, !hash_iter_Forall.
  rewrite (map_Forall_iff_strong _ (λ _ p, valid_pool (http_timeout_ms (server c)) p)).
  2:{ intros k p Hk. destruct (Hps k p Hk). by apply validate_pool_ok. }
  rewrite (map_Forall_iff_strong _ (λ _ t, is_Some (pools c !! token_pool t)) (static_tokens _)).
  2:{ intros k t Hk. apply validate_token_ok. }
  assert (match jwt (auth c) with Some j => validate_jwt parse_url j | None => Ok tt end = Ok tt ↔
    ∀ j, jwt (auth c) = Some j → valid_jwt parse_url j) as ->.
  { destruct (jwt (auth c)) as [j|]; [rewrite validate_jwt_ok|]; split; try done; [by intros ? ? [= <-]|auto]. }
  split; [intros (?&?&?&?&?&?&?&?&?&?&?&?&?); by split|intros []; by split_and!].
Qed.

End LoadFacts.

(** ** Legacy files and new-style tokens *)

Section TokenFacts.
Context (sha256 : bytes → bytes).

(** Inserting the images of distinct keys in turn. *)
Lemma foldl_insert_lookup {A B} (key : A → string) (f : A → B) l (m : gmap string B) :
  NoDup (key <$> l) →
  (∀ a, a ∈ l → foldl (λ m a, <[key a := f a]> m) m l !! key a = Some (f a)) ∧
  (∀ k, k ∉ key <$> l → foldl (λ m a, <[key a := f a]> m) m l !! k = m !! k).
Proof.
  revert m. induction l as [|a l IH]; intros m; [intros _; split; [by intros a ?%elem_of_nil|done]|].
  rewrite fmap_cons, NoDup_cons. intros [Ha Hnd]. simpl. destruct (IH (<[key a := f a]> m) Hnd) as [H1 H2].
  split.
  - intros b [->|Hb]%elem_of_cons; [|by apply H1]. rewrite H2 by done. by rewrite lookup_insert_eq.
  - intros k Hk. rewrite not_elem_of_cons in Hk. destruct Hk as [Hka Hk].
    rewrite H2 by done. by rewrite lookup_insert_ne.
Qed.

(** The definitions of a legacy file agree where they name the same pool. *)
Definition legacy_consistent (entries : list (string * RawLegacyToken)) : Prop :=
  ∀ e e', e ∈ entries → e' ∈ entries →
    legacy_pool_name sha256 e = legacy_pool_name sha256 e' → legacy_candidate e = legacy_candidate e'.

Lemma same_legacy_candidate e e' :
  same_legacy_pool (legacy_candidate e) (legacy_candidate e') = true ↔
  legacy_candidate e = legacy_candidate e'.
Proof.
  unfold same_legacy_pool, legacy_candidate, pool_new; simpl.
  rewrite andb_true_iff, String.eqb_eq, Z.eqb_eq. split; [by intros [-> ->]|].
  by intros [= -> -> _].
Qed.

(** One turn of the loop, when the pools so far come from the entries [seen]. *)
Definition legacy_pools_of (seen : list (string * RawLegacyToken)) (ps : gmap string PoolConfig) : Prop :=
  (∀ e, e ∈ seen → ps !! legacy_pool_name sha256 e = Some (legacy_candidate e)) ∧
  (∀ n p, ps !! n = Some p → ∃ e, e ∈ seen ∧ legacy_pool_name sha256 e = n).

Lemma legacy_entry_spec seen e tokens ps :
  legacy_pools_of seen ps →
  match legacy_entry sha256 (tokens, ps) e with
  | Ok (tokens', ps') =>
      tokens' = <[digest_token sha256 e.1 := default_token (legacy_pool_name sha256 e) true]> tokens ∧
      legacy_pools_of (e :: seen) ps'
  | Err err => err = ConfigError.Validation ("legacy srh_id '" +:+ legacy_pool_name sha256 e +:+
      "' has conflicting pool definitions") ∧ ¬ legacy_consistent (e :: seen)
  end.
Proof.
  intros [Hin Hof]. unfold legacy_entry. destruct (ps !! legacy_pool_name sha256 e) as [p|] eqn:Hp.
  - destruct (Hof _ _ Hp) as (e' & He' & Hn). pose proof (Hin e' He') as Hp'. rewrite Hn, Hp in Hp'.
    injection Hp' as ->. destruct (same_legacy_pool _ _) eqn:Hs; simpl.
    + apply same_legacy_candidate in Hs. split; [done|]. split.
      * intros e0 [->|He0]%elem_of_cons; [by rewrite Hp, Hs|auto].
      * intros n p Hnp. destruct (Hof n p Hnp) as (e0 & ? & ?). exists e0. set_solver.
    + split; [done|]. intros Hc. specialize (Hc e' e ltac:(set_solver) ltac:(set_solver) Hn).
      apply same_legacy_candidate in Hc. congruence.
  - split; [done|]. split.
    + intros e0 [->|He0]%elem_of_cons; [by rewrite lookup_insert_eq|].
      rewrite lookup_insert_ne; [auto|]. intros Hn. rewrite Hn, (Hin _ He0) in Hp. done.
    + intros n p. destruct (decide (legacy_pool_name sha256 e = n)) as [<-|Hn].
      { intros _. exists e. set_solver. }
      rewrite lookup_insert_ne by done. intros Hnp. destruct (Hof n p Hnp) as (e0 & ? & ?).
      exists e0. set_solver.
Qed.

Lemma legacy_loop_spec entries seen tokens ps :
  legacy_pools_of seen ps →
  match legacy_loop sha256 entries (tokens, ps) with
  | Ok (tokens', ps') =>
      tokens' = foldl (λ m e, <[digest_token sha256 e.1 :=
        default_token (legacy_pool_name sha256 e) true]> m) tokens entries ∧
      ∃ seen', seen' ≡ₚ seen ++ entries ∧ legacy_pools_of seen' ps'
  | Err _ => ¬ legacy_consistent (seen ++ entries)
  end.
Proof.
  revert seen tokens ps. induction entries as [|e entries IH]; intros seen tokens ps Hps;
    cbn [legacy_loop foldl].
  { split; [done|]. exists seen. by rewrite app_nil_r. }
  pose proof (legacy_entry_spec seen e tokens ps Hps) as He.
  destruct (legacy_entry sha256 (tokens, ps) e) as [[tokens1 ps1]|err].
  - destruct He as [Ht He]. specialize (IH (e :: seen) tokens1 ps1 He).
    assert (seen ++ e :: entries ≡ₚ (e :: seen) ++ entries) as Hperm
      by (symmetry; apply Permutation_middle).
    destruct (legacy_loop sha256 entries (tokens1, ps1)) as [[tokens' ps']|err].
    + destruct IH as (-> & seen' & Hseen & Hof). split; [by rewrite Ht|]. exists seen'. by rewrite Hperm.
    + intros Hc. apply IH. intros a a'. rewrite <- !Hperm. apply Hc.
  - destruct He as [_ Hc]. intros Hc'. apply Hc. intros a a' Ha Ha'. apply Hc'; set_solver.
Qed.

(** Tokens of a new-style file: each comes from an entry. *)
Lemma new_tokens_spec entries tokens tokens' :
  new_tokens sha256 entries tokens = Ok tokens' →
  Forall (λ e, is_ok (parse_configured_digest sha256 e.1) = true) entries ∧
  ∀ d t, tokens' !! d = Some t →
    tokens !! d = Some t ∨
    ∃ k e, (k, e) ∈ entries ∧ parse_configured_digest sha256 k = Ok d ∧ t = new_token e.
Proof.
  revert tokens. induction entries as [|[k e] entries IH]; intros tokens; simpl.
  { intros [= <-]. split; [constructor|by left]. }
  destruct (parse_configured_digest sha256 k) as [d|] eqn:Hd; [|done].
  intros [Hall Hspec]%IH. split; [constructor; [cbn; by rewrite Hd|done]|].
  intros d' t Hdt. destruct (Hspec d' t Hdt) as [Hin|(k' & e' & ? & ? & ?)].
  - destruct (decide (d = d')) as [<-|Hne].
    + rewrite lookup_insert_eq in Hin. injection Hin as <-. right. exists k, e. set_solver.
    + rewrite lookup_insert_ne in Hin by done. by left.
  - right. exists k', e'. set_solver.
Qed.

End TokenFacts.

(** ** Properties *)

(** C32. Validation accepts exactly the valid configurations, whatever the
    iteration order of the hash maps: every size and timeout positive, URLs and
    addresses well formed, every static token routed to a configured pool, and
    for each pool the acquire timeout plus twice the command timeout below the
    HTTP timeout, as integers without overflow. *)
Theorem validate_decides (hash_iter : ∀ A, gmap string A → list (string * A))
    parse_socket_addr parse_url c :
  (∀ A (m : gmap string A), hash_iter A m ≡ₚ map_to_list m) → timeouts_in_range c →
  validate hash_iter parse_socket_addr parse_url c = Ok tt ↔
  valid_config parse_socket_addr parse_url c.
Proof. intros Hiter Hr. by apply validate_ok. Qed.

(** The hash maps of the witnesses, and a configuration file's contents. *)
Definition sample_iter (A : Type) (m : gmap string A) : list (string * A) := map_to_list m.
Definition sample_legacy : gmap string RawLegacyToken :=
  {[ "secret" := mkRawLegacyToken (Some "main") "redis://localhost" 3 ]}.
Definition sample_env (name : string) : option string :=
  if String.eqb name "SRH_MODE" then Some "env"
  else if String.eqb name "SRH_TOKEN" then Some "secret"
  else if String.eqb name "SRH_CONNECTION_STRING" then Some "redis://localhost"
  else None.

Lemma validate_decides_witness :
  valid_config (λ _, Ok tt) (λ _, Ok "https")
    (mkConfig server_default (mkAuthConfig None {[ "d" := default_token "default" true ]})
       {[ "default" := pool_new "redis://localhost" 3 2000 500 None None ]}).
Proof.
  apply (validate_decides sample_iter (λ _, Ok tt) (λ _, Ok "https")).
  - by intros A m.
  - split; [vm_compute; split; discriminate|]. apply map_Forall_singleton.
    vm_compute. repeat split; discriminate.
  - vm_compute. reflexivity.
Defined.

(** A digest key round-trips: the lower-case hexadecimal form of any
    32-byte digest, after the prefix, is read back as that digest; whatever is
    read from a prefixed key is 32 bytes long and prints as the key's
    hexadecimal part in lower case; and a key without the prefix is hashed. *)
Theorem digest_roundtrip sha256 token d :
  (String.length d = 32 → parse_configured_digest sha256 ("sha256:" +:+ digest_hex d) = Ok d) ∧
  (∀ hex, token = "sha256:" +:+ hex → parse_configured_digest sha256 token = Ok d →
     String.length d = 32 ∧ digest_hex d = to_ascii_lowercase hex) ∧
  (strip_prefix "sha256:" token = None → parse_configured_digest sha256 token = Ok (sha256 token)).
Proof.
  unfold parse_configured_digest, digest_hex. split_and!.
  - intros Hd. rewrite strip_prefix_app, hex_bytes_length, Hd. apply digest_pairs_hex.
  - intros hex ->. rewrite strip_prefix_app.
    destruct (Nat.eqb_spec (String.length hex) 64) as [Hlen|]; [|done]. simpl.
    intros Hd. by apply (digest_pairs_inv 32).
  - by intros ->.
Qed.

(** A legacy file loads exactly when the entries that share a pool name
    agree on its definition; then the pools are those of the entries, every
    entry's token is mapped to its pool under the legacy policy when the token
    digests differ, and nothing depends on the iteration order. *)
Theorem legacy_load_spec sha256 (hash_iter : ∀ A, gmap string A → list (string * A))
    legacy_from_value v entries :
  (∀ A (m : gmap string A), hash_iter A m ≡ₚ map_to_list m) →
  legacy_from_value v = Ok entries →
  (is_ok (from_legacy_value sha256 hash_iter legacy_from_value v) = true ↔
   legacy_consistent sha256 (map_to_list entries)) ∧
  ∀ c, from_legacy_value sha256 hash_iter legacy_from_value v = Ok c →
    (∀ n p, pools c !! n = Some p ↔
       ∃ t e, entries !! t = Some e ∧ legacy_pool_name sha256 (t, e) = n ∧
         p = pool_new (legacy_connection_string e) (legacy_max_connections e) 2000 500 None None) ∧
    (NoDup (sha256 <$> (map_to_list entries).*1) →
     ∀ t e, entries !! t = Some e →
       static_tokens (auth c) !! sha256 t = Some (default_token (legacy_pool_name sha256 (t, e)) true)) ∧
    server c = server_default ∧ jwt (auth c) = None.
Proof.
  intros Hiter Hv. unfold from_legacy_value. rewrite Hv. cbn [map_err].
  pose proof (legacy_loop_spec sha256 (hash_iter _ entries) [] ∅ ∅) as Hloop.
  destruct (legacy_loop sha256 (hash_iter _ entries) (∅, ∅)) as [[tokens ps]|err].
  2:{ split; [|done]. split; [done|]. intros Hc. exfalso. apply Hloop.
      { split; [by intros ? ?%elem_of_nil|]. intros n p. by rewrite lookup_empty. }
      intros e e'. rewrite !Hiter. apply Hc. }
  destruct Hloop as (-> & seen & Hseen & Hin & Hof).
  { split; [by intros ? ?%elem_of_nil|]. intros n p. by rewrite lookup_empty. }
  assert (∀ e, e ∈ seen ↔ entries !! e.1 = Some e.2) as Hmem.
  { intros [t e]. by rewrite Hseen, app_nil_l, (elem_of_hash_iter _ Hiter). }
  split.
  - split; [intros _|done]. intros e e' He He' Hn.
    rewrite <- (Hiter _ entries) in He, He'.
    assert (e ∈ seen ∧ e' ∈ seen) as [Hs Hs'] by (split; rewrite Hseen; done).
    pose proof (Hin e Hs) as H1. rewrite Hn, (Hin e' Hs') in H1. congruence.
  - intros c [= <-]. cbn. split_and!; try done.
    + intros n p. split.
      * intros Hp. destruct (Hof n p Hp) as ([t e] & He & Hn). exists t, e.
        rewrite <- Hn, (Hin _ He) in Hp. apply Hmem in He. split_and!; [done|done|].
        by injection Hp.
      * intros (t & e & He & <- & ->). apply (Hin (t, e)). by apply Hmem.
    + intros Hnd t e He.
      apply (foldl_insert_lookup (λ e, digest_token sha256 e.1)
        (λ e, default_token (legacy_pool_name sha256 e) true) _ ∅) with (a := (t, e)).
      * rewrite Hiter. by rewrite <- list_fmap_compose in Hnd.
      * by apply (elem_of_hash_iter _ Hiter).
Qed.

Lemma legacy_load_spec_witness :
  is_ok (from_legacy_value (λ t, "digest of " +:+ t) sample_iter (λ _, Ok sample_legacy) Value.Null) = true.
Proof.
  apply (legacy_load_spec (λ t, "digest of " +:+ t) sample_iter (λ _, Ok sample_legacy) Value.Null
           sample_legacy (λ A m, Permutation_refl _) eq_refl).
  intros e e' He He' _. unfold sample_legacy in *. rewrite map_to_list_singleton in He, He'. set_solver.
Defined.

(** The tokens of a new-style file carry the policy of their entry: never
    the legacy one; command lists in upper case, so that the command policy
    finds them however the file spells them; and the approved scripts are the
    token's own and those of the pool it is routed to, in lower case. *)
Theorem new_file_policy sha256 (hash_iter : ∀ A, gmap string A → list (string * A))
    raw_from_value v raw c d t :
  (∀ A (m : gmap string A), hash_iter A m ≡ₚ map_to_list m) →
  raw_from_value v = Ok raw → from_new_value sha256 hash_iter raw_from_value v = Ok c →
  static_tokens (auth c) !! d = Some t →
  ∃ k e, raw_static_tokens (raw_auth raw) !! k = Some e ∧
    parse_configured_digest sha256 k = Ok d ∧
    token_legacy t = false ∧ token_read_only t = raw_token_read_only e ∧
    token_pool t = raw_token_pool e ∧ token_key_prefix t = raw_token_key_prefix e ∧
    (∀ n, n ∈ token_blocked_commands t ↔
       ∃ n', n' ∈ raw_token_blocked_commands e ∧ n = to_ascii_uppercase n') ∧
    (token_allowed_commands t = None ↔ raw_token_allowed_commands e = None) ∧
    (∀ l l' n, token_allowed_commands t = Some l → raw_token_allowed_commands e = Some l' →
       n ∈ l ↔ ∃ n', n' ∈ l' ∧ n = to_ascii_uppercase n') ∧
    (∀ h, h ∈ token_allowed_script_sha256 t ↔
       (∃ h', h' ∈ raw_token_allowed_script_sha256 e ∧ h = to_ascii_lowercase h') ∨
       (∃ p h', raw_pools raw !! raw_token_pool e = Some p ∧
          h' ∈ raw_allowed_script_sha256 p ∧ h = to_ascii_lowercase h')).
Proof.
  intros Hiter Hraw. unfold from_new_value. rewrite Hraw. cbn [map_err].
  destruct (new_tokens sha256 _ ∅) as [tokens|] eqn:Htok; [|done]. intros [= <-]. cbn [auth static_tokens].
  rewrite lookup_fmap, fmap_Some. intros (t0 & Ht0 & ->).
  apply new_tokens_spec in Htok as [_ Hspec].
  destruct (Hspec d t0 Ht0) as [Hnone|(k & e & Hke & Hk & ->)]; [by rewrite lookup_empty in Hnone|].
  apply (elem_of_hash_iter _ Hiter) in Hke. exists k, e.
  unfold widen. cbn [token_pool new_token]. rewrite lookup_fmap.
  assert (∀ l n, n ∈ uppercase_set l ↔ ∃ n', n' ∈ l ∧ n = to_ascii_uppercase n') as Hup.
  { intros l n. unfold uppercase_set. rewrite elem_of_list_to_set, list_elem_of_fmap. naive_solver. }
  assert (∀ l h, h ∈ lowercase_set l ↔ ∃ h', h' ∈ l ∧ h = to_ascii_lowercase h') as Hlow.
  { intros l n. unfold lowercase_set. rewrite elem_of_list_to_set, list_elem_of_fmap. naive_solver. }
  assert (∀ (o : option (list string)) l l' n, uppercase_set <$> o = Some l → o = Some l' →
    n ∈ l ↔ ∃ n', n' ∈ l' ∧ n = to_ascii_uppercase n') as Hal.
  { intros o l l' n Ho ->. injection Ho as <-. apply Hup. }
  destruct (raw_pools raw !! raw_token_pool e) as [p|] eqn:Hp; cbn;
    split_and!; try done; try apply Hup; try apply fmap_None; try apply Hal.
  - intros h. rewrite elem_of_union, !Hlow. split; [|naive_solver].
    intros [?|(h' & ? & ?)]; [by left|right; eauto].
  - intros h. rewrite Hlow. split; [by left|]. intros [?|(? & ? & ? & _)]; done.
Qed.

Definition sample_raw : RawConfig :=
  mkRawConfig raw_server_default
    (mkRawAuth None {[ "secret" := mkRawStaticToken "main" true None ["flushall"] ["AB"] None ]})
    {[ "main" := raw_pool_default ]}.

Lemma new_file_policy_witness : "FLUSHALL" ∈ token_blocked_commands
  (mkStaticTokenConfig "main" true false None {[ "FLUSHALL" ]} ({[ "ab" ]} ∪ ∅) None).
Proof.
  destruct (new_file_policy (λ t, t) sample_iter (λ _, Ok sample_raw) Value.Null sample_raw
    (mkConfig server_default
      (mkAuthConfig None {[ "secret" :=
         mkStaticTokenConfig "main" true false None {[ "FLUSHALL" ]} ({[ "ab" ]} ∪ ∅) None ]})
      {[ "main" := new_pool raw_pool_default ]}) "secret"
    (mkStaticTokenConfig "main" true false None {[ "FLUSHALL" ]} ({[ "ab" ]} ∪ ∅) None))
    as (k & e & Hk & _ & _ & _ & _ & _ & Hb & _).
  - by intros A m.
  - reflexivity.
  - vm_compute. reflexivity.
  - reflexivity.
  - apply Hb. change (raw_static_tokens (raw_auth sample_raw)) with
      ({[ "secret" := mkRawStaticToken "main" true None ["flushall"] ["AB"] None ]} : gmap string _) in Hk.
    apply lookup_singleton_Some in Hk as [_ <-]. exists "flushall". split; [left|reflexivity].
Defined.

(** Whatever way it is loaded, a configuration that loads is valid, with
    the environment's overrides applied before the final validation; an unknown
    mode is refused; and the original environment interface (a token and a
    connection string) always gives the documented single-pool configuration
    with the legacy token. *)
Theorem environment_load sha256 (hash_iter : ∀ A, gmap string A → list (string * A))
    parse_socket_addr parse_url from_str legacy_from_value raw_from_value read_to_string get :
  (∀ A (m : gmap string A), hash_iter A m ≡ₚ map_to_list m) →
  let load := from_environment sha256 hash_iter parse_socket_addr parse_url from_str
                legacy_from_value raw_from_value read_to_string get in
  (∀ c, load = Ok c → timeouts_in_range c → valid_config parse_socket_addr parse_url c) ∧
  (∀ mode, get "SRH_MODE" = Some mode → mode ∉ ["env"; "file"] →
     load = Err (ConfigError.InvalidEnvironment "SRH_MODE" "expected `file` or `env`")) ∧
  (∀ token conn, get "SRH_MODE" = Some "env" → get "SRH_TOKEN" = Some token →
     get "SRH_CONNECTION_STRING" = Some conn → conn ≠ "" →
     Forall (λ n, get n = None) ["SRH_MAX_CONNECTIONS"; "SRH_BIND"; "SRH_PORT"; "SRH_IPV6"] →
     parse_socket_addr "127.0.0.1:9422" = Ok tt →
     load = Ok (mkConfig server_default
       (mkAuthConfig None {[ sha256 token := default_token "default" true ]})
       {[ "default" := pool_new conn 3 2000 500 None None ]})).
Proof.
  intros Hiter load. subst load. unfold from_environment. split_and!.
  - intros c Hl Hr. apply (validate_ok hash_iter Hiter); [done|].
    destruct (if String.eqb _ "env" then _ else _ : result Config ConfigError) as [c0|]; [|done].
    destruct (apply_server_overrides get c0) as [c1|]; [|done].
    destruct (validate _ _ _ c1) as [[]|] eqn:Hv; [|done]. by injection Hl as <-.
  - intros mode -> Hm. simpl. destruct (String.eqb_spec mode "env") as [->|]; [set_solver|].
    destruct (String.eqb_spec mode "file") as [->|]; [set_solver|done].
  - intros token conn -> Ht Hc Hne Henv Hsock. rewrite !Forall_cons in Henv.
    destruct Henv as (Hmax & Hb & Hp & Hv6 & _). cbn [default String.eqb]. cbn.
    unfold from_env_mode, apply_server_overrides, required, parse_env, parse_bool_env.
    rewrite Ht, Hc, Hmax, Hb, Hp, Hv6. cbn -[validate].
    erewrite (λ c H, proj2 (validate_ok hash_iter Hiter parse_socket_addr parse_url c H)); [done|..].
    + split; [vm_compute; split; discriminate|]. apply map_Forall_singleton.
      vm_compute. repeat split; discriminate.
    + split; cbn; try done; apply map_Forall_singleton; cbn; [by rewrite lookup_singleton_eq; eauto|].
      by split.
Qed.

Lemma environment_load_witness :
  is_ok (from_environment (λ t, t) sample_iter (λ _, Ok tt) (λ _, Err "") (λ _, Err "") (λ _, Err "")
    (λ _, Err "") (λ _, Err "") sample_env) = true.
Proof.
  destruct (environment_load (λ t, t) sample_iter (λ _, Ok tt) (λ _, Err "") (λ _, Err "") (λ _, Err "")
    (λ _, Err "") (λ _, Err "") sample_env (λ A m, Permutation_refl _)) as (_ & _ & Henv).
  rewrite (Henv "secret" "redis://localhost"); try done. by repeat constructor.
Defined.
