(* ===== verification/Deserialize.v ===== *)
(** * Reading configuration files: the derived deserializers of [src/src/config.rs]

    [Config.v] takes the step from a JSON value to the raw records as a
    parameter.  Here that step is built from what the source declares: for each
    raw record its fields with their types, and the attributes [default],
    [default = "..."] and [deny_unknown_fields].  The first part is the meaning
    serde documents for such a declaration; [Struct] is a declaration, and
    [deserialize_struct] reads a value by it, field by field in the order of
    the document.  The second part has one declaration per record.  Which text
    an error prints is a parameter ([display]). *)
From S2P Require Import Prelude Domain Convert Config.

(** ** Declarations and how they are read *)

(** The errors a deserializer can give. *)
Module DeError.
Inductive DeError : Type :=
| InvalidType (expected : string)
| InvalidValue (expected : string)
| InvalidLength (len : nat)
| UnknownField (field : string) (expected : list string)
| MissingField (field : string)
| DuplicateField (field : string).
End DeError.
Abbreviation DeError := DeError.DeError.

Abbreviation Decoder A := (Value → result A DeError).

(** [String], [bool] and the unsigned integers: a number in range, without
    fraction. *)
Definition de_string : Decoder string := λ v,
  match v with Value.String s => Ok s | _ => Err (DeError.InvalidType "a string") end.

Definition de_bool : Decoder bool := λ v,
  match v with Value.Bool b => Ok b | _ => Err (DeError.InvalidType "a boolean") end.

Definition de_uint (name : string) (max : Z) : Decoder Z := λ v,
  match v with
  | Value.Number (Number.PosInt u) =>
      if decide (0 ≤ u ≤ max)%Z then Ok u else Err (DeError.InvalidValue name)
  | Value.Number (Number.NegInt _) => Err (DeError.InvalidValue name)
  | _ => Err (DeError.InvalidType name)
  end.
Definition de_u16 : Decoder Z := de_uint "u16" u16_max.
Definition de_u64 : Decoder Z := de_uint "u64" u64_max.
Definition de_usize : Decoder Z := de_uint "usize" usize_max.

(** [Option<T>], [Vec<T>] and [HashMap<String, T>]. *)
Definition de_option {A} (de : Decoder A) : Decoder (option A) := λ v,
  match v with Value.Null => Ok None | v => result_map Some (de v) end.

Definition de_vec {A} (de : Decoder A) : Decoder (list A) := λ v,
  match v with
  | Value.Array l => collect_ok (de <$> l)
  | _ => Err (DeError.InvalidType "a sequence")
  end.

Fixpoint de_entries {A} (de : Decoder A) (entries : list (string * Value)) (m : gmap string A) :
    result (gmap string A) DeError :=
  match entries with
  | [] => Ok m
  | (k, v) :: entries => let? a := de v in de_entries de entries (<[k := a]> m)
  end.

Definition de_map {A} (de : Decoder A) : Decoder (gmap string A) := λ v,
  match v with
  | Value.Object entries => de_entries de entries ∅
  | _ => Err (DeError.InvalidType "a map")
  end.

(** A record declaration: the constructor, and for each field its name, type
    and the value it takes when it is absent, if it may be. *)
Inductive Struct (A : Type) : Type :=
| Build (a : A)
| Field (T : Type) (name : string) (de : Decoder T) (absent : option T) (rest : Struct (T → A)).
Arguments Build {A} a.
Arguments Field {A T} name de absent rest.

Definition required_field {T A} (name : string) (de : Decoder T) (rest : Struct (T → A)) : Struct A :=
  Field name de None rest.
Definition default_field {T A} (name : string) (de : Decoder T) (d : T) (rest : Struct (T → A)) : Struct A :=
  Field name de (Some d) rest.
Notation "s |> f" := (f s) (at level 50, left associativity, only parsing) : srh_scope.

(** The names of the fields, first declared first. *)
Fixpoint names {A} (s : Struct A) : list string :=
  match s with Build _ => [] | Field name _ _ rest => names rest ++ [name] end.

(** One optional slot per field, filled as the document is read. *)
Fixpoint Slots {A} (s : Struct A) : Type :=
  match s with Build _ => unit | @Field _ T _ _ _ rest => Slots rest * option T end.

Fixpoint no_slots {A} (s : Struct A) : Slots s :=
  match s return Slots s with Build _ => tt | Field _ _ _ rest => (no_slots rest, None) end.

(** An entry of the document goes to the slot of its name, which must be
    empty; [None] when no field has the name. *)
Fixpoint fill {A} (s : Struct A) (k : string) (v : Value) :
    Slots s → option (result (Slots s) DeError) :=
  match s return Slots s → option (result (Slots s) DeError) with
  | Build _ => λ _, None
  | Field name de _ rest => λ '(sl, o),
      if String.eqb name k then
        Some (match o with
              | Some _ => Err (DeError.DuplicateField k)
              | None => let? x := de v in Ok (sl, Some x)
              end)
      else (λ r, let? sl := r in Ok (sl, o)) <$> fill rest k v sl
  end.

(** After the document: empty slots take the absent value, or are missing. *)
Fixpoint finish {A} (s : Struct A) : Slots s → result A DeError :=
  match s return Slots s → result A DeError with
  | Build a => λ _, Ok a
  | Field name _ absent rest => λ '(sl, o),
      let? f := finish rest sl in
      let? x := match o with Some x => Ok x | None => ok_or (DeError.MissingField name) absent end in
      Ok (f x)
  end.

Section DeserializeStruct.
Context (deny_unknown_fields : bool).

Fixpoint visit_entries {A} (s : Struct A) (entries : list (string * Value)) (sl : Slots s) :
    result (Slots s) DeError :=
  match entries with
  | [] => Ok sl
  | (k, v) :: entries =>
      match fill s k v sl with
      | Some r => let? sl := r in visit_entries s entries sl
      | None =>
          if deny_unknown_fields then Err (DeError.UnknownField k (names s))
          else visit_entries s entries sl
      end
  end.

Definition visit_map {A} (s : Struct A) (entries : list (string * Value)) : result A DeError :=
  let? sl := visit_entries s entries (no_slots s) in finish s sl.

(** A record may also be given as an array of its fields in order; what is left
    of the array is returned. *)
Fixpoint visit_seq {A} (s : Struct A) (l : list Value) : result (A * list Value) DeError :=
  match s with
  | Build a => Ok (a, l)
  | Field name de absent rest =>
      let? fl := visit_seq rest l in
      let '(f, l) := fl in
      match l with
      | v :: l => let? x := de v in Ok (f x, l)
      | [] => let? x := ok_or (DeError.InvalidLength (length (names rest))) absent in Ok (f x, [])
      end
  end.

Definition deserialize_struct {A} (s : Struct A) : Decoder A := λ v,
  match v with
  | Value.Object entries => visit_map s entries
  | Value.Array l =>
      let? al := visit_seq s l in
      match al.2 with [] => Ok al.1 | _ => Err (DeError.InvalidLength (length l)) end
  | _ => Err (DeError.InvalidType "struct")
  end.
End DeserializeStruct.

(** ** The records of [config.rs] *)

Definition tls_struct : Struct TlsConfig :=
  Build mkTlsConfig |> required_field "cert" de_string |> required_field "key" de_string.
Definition de_tls : Decoder TlsConfig := deserialize_struct true tls_struct.

Definition legacy_token_struct : Struct RawLegacyToken :=
  Build mkRawLegacyToken
  |> default_field "srh_id" (de_option de_string) None
  |> required_field "connection_string" de_string
  |> default_field "max_connections" de_usize default_max_connections.
Definition de_legacy_token : Decoder RawLegacyToken := deserialize_struct false legacy_token_struct.

Definition rate_limit_struct : Struct RawRateLimitConfig :=
  Build mkRawRateLimit
  |> default_field "per_token_commands_per_sec" de_u64
       (raw_per_token_commands_per_sec raw_rate_limit_default).
Definition de_rate_limit : Decoder RawRateLimitConfig := deserialize_struct true rate_limit_struct.

Definition load_struct : Struct RawLoadConfig :=
  let d := raw_load_default in
  Build mkRawLoad
  |> default_field "max_in_flight" de_usize (raw_max_in_flight d)
  |> default_field "max_response_bytes" de_usize (raw_max_response_bytes d)
  |> default_field "shed_retry_after_secs" de_u64 (raw_shed_retry_after_secs d)
  |> default_field "body_read_timeout_ms" de_u64 (raw_body_read_timeout_ms d).
Definition de_load : Decoder RawLoadConfig := deserialize_struct true load_struct.

Definition server_struct : Struct RawServerConfig :=
  let d := raw_server_default in
  Build mkRawServer
  |> default_field "port" de_u16 (raw_port d)
  |> default_field "bind" de_string (raw_bind d)
  |> default_field "tls" (de_option de_tls) (raw_tls d)
  |> default_field "max_body_bytes" de_usize (raw_max_body_bytes d)
  |> default_field "max_pipeline_commands" de_usize (raw_max_pipeline_commands d)
  |> default_field "max_request_elements" de_usize (raw_max_request_elements d)
  |> default_field "http_timeout_ms" de_u64 (raw_http_timeout_ms d)
  |> default_field "rate_limit" de_rate_limit (raw_rate_limit d)
  |> default_field "load" de_load (raw_load d)
  |> default_field "metrics_bind" de_string (raw_metrics_bind d).
Definition de_server : Decoder RawServerConfig := deserialize_struct true server_struct.

Definition introspection_struct : Struct RawIntrospectionConfig :=
  let d := raw_introspection_default in
  Build mkRawIntrospection
  |> default_field "enabled" de_bool (raw_introspection_enabled d)
  |> default_field "url" de_string (raw_introspection_url d)
  |> default_field "client_id" de_string (raw_introspection_client_id d)
  |> default_field "client_secret" de_string (raw_introspection_client_secret d)
  |> default_field "cache_secs" de_u64 (raw_introspection_cache_secs d).
Definition de_introspection : Decoder RawIntrospectionConfig :=
  deserialize_struct true introspection_struct.

Definition jwt_struct : Struct RawJwtConfig :=
  let d := raw_jwt_default in
  Build mkRawJwt
  |> default_field "issuer" de_string (raw_issuer d)
  |> default_field "audience" de_string (raw_audience d)
  |> default_field "jwks_refresh_secs" de_u64 (raw_jwks_refresh_secs d)
  |> default_field "role_prefix" de_string (raw_role_prefix d)
  |> default_field "client_id" de_string (raw_jwt_client_id d)
  |> default_field "introspection" de_introspection (raw_introspection d).
Definition de_jwt : Decoder RawJwtConfig := deserialize_struct true jwt_struct.

Definition static_token_struct : Struct RawStaticTokenConfig :=
  let d := raw_static_token_default in
  Build mkRawStaticToken
  |> default_field "pool" de_string (raw_token_pool d)
  |> default_field "read_only" de_bool (raw_token_read_only d)
  |> default_field "allowed_commands" (de_option (de_vec de_string)) (raw_token_allowed_commands d)
  |> default_field "blocked_commands" (de_vec de_string) (raw_token_blocked_commands d)
  |> default_field "allowed_script_sha256" (de_vec de_string) (raw_token_allowed_script_sha256 d)
  |> default_field "key_prefix" (de_option de_string) (raw_token_key_prefix d).
Definition de_static_token : Decoder RawStaticTokenConfig :=
  deserialize_struct true static_token_struct.

Definition breaker_struct : Struct RawBreakerConfig :=
  let d := raw_breaker_default in
  Build mkRawBreaker
  |> default_field "failure_threshold" de_usize (raw_failure_threshold d)
  |> default_field "cooldown_ms" de_u64 (raw_cooldown_ms d).
Definition de_breaker : Decoder RawBreakerConfig := deserialize_struct true breaker_struct.

Definition pool_struct : Struct RawPoolConfig :=
  let d := raw_pool_default in
  Build mkRawPool
  |> default_field "connection_string" de_string (raw_connection_string d)
  |> default_field "max_connections" de_usize (raw_max_connections d)
  |> default_field "command_timeout_ms" de_u64 (raw_command_timeout_ms d)
  |> default_field "acquire_timeout_ms" de_u64 (raw_acquire_timeout_ms d)
  |> default_field "max_waiters" (de_option de_usize) (raw_max_waiters d)
  |> default_field "breaker" de_breaker (raw_breaker d)
  |> default_field "allowed_script_sha256" (de_vec de_string) (raw_allowed_script_sha256 d).
Definition de_pool : Decoder RawPoolConfig := deserialize_struct true pool_struct.

Definition auth_struct : Struct RawAuthConfig :=
  let d := raw_auth raw_config_default in
  Build mkRawAuth
  |> default_field "jwt" (de_option de_jwt) (raw_jwt d)
  |> default_field "static_tokens" (de_map de_static_token) (raw_static_tokens d).
Definition de_auth : Decoder RawAuthConfig := deserialize_struct true auth_struct.

Definition config_struct : Struct RawConfig :=
  let d := raw_config_default in
  Build mkRawConfig
  |> default_field "server" de_server (raw_server d)
  |> default_field "auth" de_auth (raw_auth d)
  |> default_field "pools" (de_map de_pool) (raw_pools d).
Definition de_config : Decoder RawConfig := deserialize_struct true config_struct.

(** [serde_json::from_value] at the two types [Config::from_json] reads. *)
Section FromValue.
Context (display : DeError → string).
Definition legacy_from_value (v : Value) : result (gmap string RawLegacyToken) string :=
  map_err display (de_map de_legacy_token v).
Definition raw_from_value (v : Value) : result RawConfig string := map_err display (de_config v).
End FromValue.

(** ** The reference: reading field by field *)

(** The first value under a key, and the first position of a name. *)
Fixpoint assoc (k : string) (entries : list (string * Value)) : option Value :=
  match entries with
  | [] => None
  | (k', v) :: entries => if String.eqb k k' then Some v else assoc k entries
  end.

Fixpoint index_of (k : string) (l : list string) : option nat :=
  match l with
  | [] => None
  | k' :: l => if String.eqb k k' then Some 0 else S <$> index_of k l
  end.

(** The value a record gives to a field, by name in an object and by position
    in an array. *)
Definition entry_at (fields : list string) (v : Value) (k : string) : option Value :=
  match v with
  | Value.Object entries => assoc k entries
  | Value.Array l => index_of k fields ≫= (l !!.)
  | _ => None
  end.

(** Reads each field where [at_] finds it, without walking the document. *)
Fixpoint read {A} (s : Struct A) (at_ : string → option Value) : result A DeError :=
  match s with
  | Build a => Ok a
  | Field name de absent rest =>
      let? f := read rest at_ in
      let? x := match at_ name with
                | Some v => de v
                | None => ok_or (DeError.MissingField name) absent
                end in
      Ok (f x)
  end.

(** What a document may look like for a declaration. *)
Definition shape_ok (deny : bool) (fields : list string) (v : Value) : Prop :=
  match v with
  | Value.Object entries => deny = true → entries.*1 ⊆ fields
  | Value.Array l => length l ≤ length fields
  | _ => False
  end.

(** No key twice, as in the map of a parsed object. *)
Definition unique_keys (v : Value) : Prop :=
  match v with Value.Object entries => NoDup entries.*1 | _ => True end.

(** ** Lemmas on the reading of a document *)

Lemma index_of_app_l k l l' : k ∈ l → index_of k (l ++ l') = index_of k l.
Proof.
  induction l as [|a l IH]; [by intros ?%elem_of_nil|]. cbn.
  destruct (String.eqb_spec k a); [done|]. intros [?|Hk]%elem_of_cons; [done|]. by rewrite IH.
Qed.

Lemma index_of_snoc k l : k ∉ l → index_of k (l ++ [k]) = Some (length l).
Proof.
  induction l as [|a l IH]; cbn; [by rewrite String.eqb_refl|]. intros Hk.
  destruct (String.eqb_spec k a); [set_solver|]. rewrite IH by set_solver. done.
Qed.

Lemma assoc_None k entries : assoc k entries = None ↔ k ∉ entries.*1.
Proof.
  induction entries as [|[k' v] entries IH]; cbn; [set_solver|].
  destruct (String.eqb_spec k k') as [->|]; [set_solver|]. rewrite IH. set_solver.
Qed.

Lemma assoc_elem k v entries : assoc k entries = Some v → (k, v) ∈ entries.
Proof.
  induction entries as [|[k' v'] entries IH]; cbn; [done|].
  destruct (String.eqb_spec k k') as [->|]; [intros [= ->]; left|]. intros ?. right. auto.
Qed.

Lemma read_ext {A} (s : Struct A) g g' : (∀ n, n ∈ names s → g n = g' n) → read s g = read s g'.
Proof.
  induction s as [A a|A T name de absent rest IH]; intros Hg; [done|]. cbn in *.
  rewrite IH by set_solver. by rewrite Hg by set_solver.
Qed.

(** The slots hold what [get] finds. *)
Fixpoint slots_from {A} (get : string → option Value) (s : Struct A) : Slots s → Prop :=
  match s return Slots s → Prop with
  | Build _ => λ _, True
  | Field name de _ rest => λ '(sl, o),
      slots_from get rest sl ∧
      match get name with Some v => ∃ x, de v = Ok x ∧ o = Some x | None => o = None end
  end.

Lemma slots_from_ext {A} (s : Struct A) g g' sl :
  (∀ n, n ∈ names s → g n = g' n) → slots_from g s sl → slots_from g' s sl.
Proof.
  induction s as [A a|A T name de absent rest IH]; intros Hg; [done|]. destruct sl as [sl o]. cbn in *.
  rewrite <- (Hg name) by set_solver. intros [? ?]. split; [|done]. apply IH; [set_solver|done].
Qed.

Lemma no_slots_from {A} (s : Struct A) : slots_from (λ _, None) s (no_slots s).
Proof. induction s as [|A T name de absent rest IH]; cbn; auto. Qed.

Lemma finish_reads {A} (s : Struct A) g sl : slots_from g s sl → finish s sl = read s g.
Proof.
  induction s as [A a|A T name de absent rest IH]; [done|]. destruct sl as [sl o]. cbn. intros [Hsl Ho].
  rewrite (IH _ Hsl). destruct (read rest g) as [f|]; [|done].
  destruct (g name) as [v|]; [destruct Ho as (x & -> & ->)|rewrite Ho]; done.
Qed.

Lemma read_slots {A} (s : Struct A) g a : read s g = Ok a → ∃ sl, slots_from g s sl.
Proof.
  induction s as [A a'|A T name de absent rest IH]; [by exists tt|]. cbn.
  destruct (read rest g) as [f|] eqn:Hf; [|done]. destruct (IH f eq_refl) as [sl Hsl].
  destruct (g name) as [v|] eqn:Hv; [|by exists (sl, None)].
  destruct (de v) as [x|] eqn:Hx; [|done]. intros _. exists (sl, Some x). eauto.
Qed.

(** Filling a slot extends what has been found. *)
Definition extend (k : string) (v : Value) (get : string → option Value) (n : string) : option Value :=
  if String.eqb n k then Some v else get n.

Lemma fill_spec {A} (s : Struct A) k v get sl :
  NoDup (names s) → slots_from get s sl →
  match fill s k v sl with
  | None => k ∉ names s
  | Some (Ok sl') => k ∈ names s ∧ get k = None ∧ slots_from (extend k v get) s sl'
  | Some (Err _) => k ∈ names s ∧ (get k = None → ∀ g sl', g k = Some v → ¬ slots_from g s sl')
  end.
Proof.
  induction s as [A a|A T name de absent rest IH]; [set_solver|]. destruct sl as [sl o]. cbn [names].
  intros [Hnd [Hni _]]%NoDup_app [Hsl Ho]. cbn [fill].
  destruct (String.eqb_spec name k) as [->|Hne].
  - destruct (get k) as [w|] eqn:Hk.
    { destruct Ho as (x & _ & ->). split; [set_solver|done]. }
    rewrite Ho. destruct (de v) as [x|] eqn:Hx.
    + split_and!; [set_solver|done|]. cbn. split.
      * eapply slots_from_ext; [|exact Hsl]. intros n Hn. unfold extend.
        destruct (String.eqb_spec n k) as [->|]; [|done]. by destruct (Hni k Hn ltac:(left)).
      * unfold extend. rewrite String.eqb_refl. eauto.
    + split; [set_solver|]. intros _ g [sl' o'] Hg [_ Hs]. rewrite Hg in Hs. destruct Hs as (x & Hx2 & _). congruence.
  - specialize (IH sl Hnd Hsl). destruct (fill rest k v sl) as [[sl'|e]|]; cbn.
    + destruct IH as (? & ? & ?). split_and!; [set_solver|done|done|].
      unfold extend. by destruct (String.eqb_spec name k).
    + destruct IH as [? He]. split; [set_solver|]. intros Hk g [sl' o'] Hg [Hs _]. by eapply He.
    + set_solver.
Qed.

Lemma visit_entries_spec {A} deny (s : Struct A) entries get sl sl' :
  NoDup (names s) → slots_from get s sl → visit_entries deny s entries sl = Ok sl' →
  (deny = true → entries.*1 ⊆ names s) ∧
  slots_from (λ n, match assoc n entries with Some v => Some v | None => get n end) s sl' ∧
  (∀ n, n ∈ names s → is_Some (assoc n entries) → get n = None).
Proof.
  intros Hnd. revert get sl. induction entries as [|[k v] entries IH]; intros get sl Hsl; cbn.
  { intros [= <-]. split_and!; [set_solver|done|]. intros n _ [? ?]; done. }
  pose proof (fill_spec s k v get sl Hnd Hsl) as Hfill. destruct (fill s k v sl) as [[sl1|e]|]; [|done|].
  - destruct Hfill as (Hk & Hgk & Hsl1). intros (Hsub & Hs & Hnew)%(IH _ _ Hsl1). split_and!.
    + intros Hd. specialize (Hsub Hd). set_solver.
    + eapply slots_from_ext; [|exact Hs]. intros n Hn. unfold extend.
      destruct (String.eqb_spec n k) as [->|]; [|done].
      destruct (assoc k entries) as [w|] eqn:Hw; [|done].
      pose proof (Hnew k Hn ltac:(eauto)) as Hno. unfold extend in Hno. by rewrite String.eqb_refl in Hno.
    + intros n Hn. destruct (String.eqb_spec n k) as [->|Hne]; [done|]. intros Ha.
      specialize (Hnew n Hn Ha). unfold extend in Hnew. by destruct (String.eqb_spec n k).
  - destruct deny; [done|]. intros (_ & Hs & Hnew)%(IH _ _ Hsl). split_and!; [done| |].
    + eapply slots_from_ext; [|exact Hs]. intros n Hn. by destruct (String.eqb_spec n k) as [->|].
    + intros n Hn. destruct (String.eqb_spec n k) as [->|Hne]; [done|]. by apply Hnew.
Qed.

(** Conversely a document whose fields can be read is accepted. *)
Lemma visit_entries_total {A} deny (s : Struct A) entries get sl slf :
  NoDup (names s) → NoDup entries.*1 → (deny = true → entries.*1 ⊆ names s) →
  (∀ n, n ∈ entries.*1 → get n = None) → slots_from get s sl →
  slots_from (λ n, match assoc n entries with Some v => Some v | None => get n end) s slf →
  ∃ sl', visit_entries deny s entries sl = Ok sl'.
Proof.
  intros Hnd. revert get sl. induction entries as [|[k v] entries IH];
    intros get sl Hndk Hsub Hnew Hsl Hslf; cbn; [eauto|].
  apply NoDup_cons in Hndk as [Hkn Hndk].
  pose proof (fill_spec s k v get sl Hnd Hsl) as Hfill. destruct (fill s k v sl) as [[sl1|e]|].
  - destruct Hfill as (Hk & Hgk & Hsl1). apply (IH (extend k v get)); try done.
    + intros Hd. specialize (Hsub Hd). set_solver.
    + intros n Hn. unfold extend. destruct (String.eqb_spec n k) as [->|]; [done|]. apply Hnew. set_solver.
    + eapply slots_from_ext; [|exact Hslf]. intros n _. cbn. unfold extend.
      destruct (String.eqb_spec n k) as [->|]; [|done]. apply assoc_None in Hkn. cbn in Hkn. by rewrite Hkn.
  - destruct Hfill as [_ He]. exfalso. eapply He; [apply Hnew; set_solver| |exact Hslf].
    cbn. by rewrite String.eqb_refl.
  - destruct deny; [exfalso; set_solver|]. apply (IH get); try done; [set_solver|].
    eapply slots_from_ext; [|exact Hslf]. intros n Hn. cbn. by destruct (String.eqb_spec n k) as [->|].
Qed.

Lemma visit_seq_spec {A} (s : Struct A) l a r :
  NoDup (names s) →
  visit_seq s l = Ok (a, r) ↔
  r = drop (length (names s)) l ∧ read s (λ k, index_of k (names s) ≫= (l !!.)) = Ok a.
Proof.
  revert a r. induction s as [A a'|A T name de absent rest IH]; intros a r; [cbn; naive_solver|].
  cbn [names visit_seq read]. intros [Hnd [Hni _]]%NoDup_app.
  rewrite (read_ext rest _ (λ k, index_of k (names rest) ≫= (l !!.)))
    by (intros n Hn; by rewrite index_of_app_l).
  rewrite index_of_snoc by (intros Hn; by destruct (Hni _ Hn ltac:(left))). cbn [mbind option_bind].
  rewrite length_app. cbn [length]. rewrite Nat.add_1_r.
  destruct (read rest _) as [f|e] eqn:Hrd.
  - assert (visit_seq rest l = Ok (f, drop (length (names rest)) l)) as -> by by apply IH.
    destruct (l !! length (names rest)) as [v|] eqn:Hl.
    + rewrite (drop_S _ _ _ Hl). destruct (de v); naive_solver.
    + apply lookup_ge_None in Hl. rewrite !drop_ge by lia. destruct absent; cbn; naive_solver.
  - destruct (visit_seq rest l) as [[f r']|] eqn:Hs; [|naive_solver].
    by destruct (proj1 (IH f r' Hnd) eq_refl).
Qed.

Lemma deserialize_reads {A} deny (s : Struct A) v a :
  NoDup (names s) → deserialize_struct deny s v = Ok a →
  shape_ok deny (names s) v ∧ read s (entry_at (names s) v) = Ok a.
Proof.
  intros Hnd. destruct v as [| | | |l|entries]; try done; cbn.
  - destruct (visit_seq s l) as [[b r]|] eqn:Hs; [|done]. apply visit_seq_spec in Hs as [-> Hr]; [|done].
    cbn. destruct (drop _ l) as [|w r] eqn:Hd; [|done]. intros [= <-]. split; [|done].
    apply (f_equal length) in Hd. rewrite length_drop in Hd. cbn in Hd. lia.
  - unfold visit_map. destruct (visit_entries deny s entries (no_slots s)) as [sl|] eqn:Hs; [|done].
    apply (visit_entries_spec _ _ _ _ _ _ Hnd (no_slots_from s)) in Hs as (Hsub & Hs & _).
    intros Hf. rewrite (finish_reads _ _ _ Hs) in Hf. split; [done|]. rewrite <- Hf. apply read_ext.
    intros n _. cbn. by destruct (assoc n entries).
Qed.

Lemma reads_deserialize {A} deny (s : Struct A) v a :
  NoDup (names s) → unique_keys v →
  shape_ok deny (names s) v → read s (entry_at (names s) v) = Ok a → deserialize_struct deny s v = Ok a.
Proof.
  intros Hnd Hu. destruct v as [| | | |l|entries]; try done; cbn.
  - intros Hl Hr. pose proof (proj2 (visit_seq_spec s l a _ Hnd) (conj eq_refl Hr)) as ->. cbn.
    by rewrite drop_ge.
  - intros Hsub Hr. destruct (read_slots _ _ _ Hr) as [slf Hslf].
    assert (slots_from (λ n, match assoc n entries with Some v => Some v | None => None end) s slf) as Hslf'.
    { eapply slots_from_ext; [|exact Hslf]. intros n _. cbn. by destruct (assoc n entries). }
    destruct (visit_entries_total deny s entries _ (no_slots s) slf Hnd Hu Hsub (λ _ _, eq_refl)
      (no_slots_from s) Hslf') as [sl Hs].
    unfold visit_map. rewrite Hs. apply (visit_entries_spec _ _ _ _ _ _ Hnd (no_slots_from s)) in Hs as (_ & Hs & _).
    rewrite (finish_reads _ _ _ Hs), <- Hr. apply read_ext. intros n _. cbn. by destruct (assoc n entries).
Qed.

(** ** The sections of a new-style file *)

Module Part.
Inductive Part : Type :=
| Root | Server | Tls | RateLimit | Load | Auth | Jwt | Introspection | StaticToken | Pool | Breaker.
End Part.
Abbreviation Part := Part.Part.

(** The field names the documentation lists for each section. *)
Definition fields_of (s : Part) : list string :=
  match s with
  | Part.Root => ["server"; "auth"; "pools"]
  | Part.Server => ["port"; "bind"; "tls"; "max_body_bytes"; "max_pipeline_commands";
      "max_request_elements"; "http_timeout_ms"; "rate_limit"; "load"; "metrics_bind"]
  | Part.Tls => ["cert"; "key"]
  | Part.RateLimit => ["per_token_commands_per_sec"]
  | Part.Load => ["max_in_flight"; "max_response_bytes"; "shed_retry_after_secs"; "body_read_timeout_ms"]
  | Part.Auth => ["jwt"; "static_tokens"]
  | Part.Jwt => ["issuer"; "audience"; "jwks_refresh_secs"; "role_prefix"; "client_id"; "introspection"]
  | Part.Introspection => ["enabled"; "url"; "client_id"; "client_secret"; "cache_secs"]
  | Part.StaticToken => ["pool"; "read_only"; "allowed_commands"; "blocked_commands";
      "allowed_script_sha256"; "key_prefix"]
  | Part.Pool => ["connection_string"; "max_connections"; "command_timeout_ms"; "acquire_timeout_ms";
      "max_waiters"; "breaker"; "allowed_script_sha256"]
  | Part.Breaker => ["failure_threshold"; "cooldown_ms"]
  end.

(** The fields that hold a section, and those that hold a map of sections. *)
Definition child (s : Part) (k : string) : option Part :=
  match s, k with
  | Part.Root, "server" => Some Part.Server
  | Part.Root, "auth" => Some Part.Auth
  | Part.Server, "tls" => Some Part.Tls
  | Part.Server, "rate_limit" => Some Part.RateLimit
  | Part.Server, "load" => Some Part.Load
  | Part.Auth, "jwt" => Some Part.Jwt
  | Part.Jwt, "introspection" => Some Part.Introspection
  | Part.Pool, "breaker" => Some Part.Breaker
  | _, _ => None
  end.
Definition map_child (s : Part) (k : string) : option Part :=
  match s, k with
  | Part.Root, "pools" => Some Part.Pool
  | Part.Auth, "static_tokens" => Some Part.StaticToken
  | _, _ => None
  end.

(** [located v s w]: the document [v] has, somewhere, the section [s] with the
    contents [w]. *)
Inductive located (v : Value) : Part → Value → Prop :=
| located_root : located v Part.Root v
| located_child s w k s' w' :
    located v s w → child s k = Some s' → entry_at (fields_of s) w k = Some w' → w' ≠ Value.Null →
    located v s' w'
| located_entry s w k s' entries name w' :
    located v s w → map_child s k = Some s' → entry_at (fields_of s) w k = Some (Value.Object entries) →
    (name, w') ∈ entries → located v s' w'.

(** Whether the decoder of a section accepts a value. *)
Definition accepts (s : Part) (w : Value) : bool :=
  match s with
  | Part.Root => is_ok (de_config w)
  | Part.Server => is_ok (de_server w)
  | Part.Tls => is_ok (de_tls w)
  | Part.RateLimit => is_ok (de_rate_limit w)
  | Part.Load => is_ok (de_load w)
  | Part.Auth => is_ok (de_auth w)
  | Part.Jwt => is_ok (de_jwt w)
  | Part.Introspection => is_ok (de_introspection w)
  | Part.StaticToken => is_ok (de_static_token w)
  | Part.Pool => is_ok (de_pool w)
  | Part.Breaker => is_ok (de_breaker w)
  end.

(** The test a declaration makes of the field [k]. *)
Fixpoint field_accepts {A} (s : Struct A) (k : string) : option (Value → bool) :=
  match s with
  | Build _ => None
  | Field name de _ rest => if String.eqb name k then Some (λ v, is_ok (de v)) else field_accepts rest k
  end.

Lemma read_field {A} (s : Struct A) g a k test v :
  read s g = Ok a → field_accepts s k = Some test → g k = Some v → test v = true.
Proof.
  induction s as [A a'|A T name de absent rest IH]; [done|]. cbn.
  destruct (read rest g) as [f|]; [|done]. destruct (String.eqb_spec name k) as [->|].
  - intros Hr [= <-] Hg. rewrite Hg in Hr. by destruct (de v).
  - intros _ Ht Hg. by eapply IH.
Qed.

Lemma struct_field {A} deny (s : Struct A) w k test v :
  NoDup (names s) → is_ok (deserialize_struct deny s w) = true → entry_at (names s) w k = Some v →
  field_accepts s k = Some test → test v = true.
Proof.
  intros Hnd Hok Hv Ht. destruct (deserialize_struct deny s w) as [a|] eqn:Ha; [|done].
  apply deserialize_reads in Ha as [_ Ha]; [|done]. by eapply read_field.
Qed.

Lemma struct_shape {A} deny (s : Struct A) w :
  NoDup (names s) → is_ok (deserialize_struct deny s w) = true → shape_ok deny (names s) w.
Proof.
  intros Hnd Hok. destruct (deserialize_struct deny s w) as [a|] eqn:Ha; [|done].
  by apply deserialize_reads in Ha as [? _].
Qed.

Lemma de_option_accepts {A} (de : Decoder A) v :
  is_ok (de_option de v) = true → v ≠ Value.Null → is_ok (de v) = true.
Proof. destruct v; cbn; try done; by destruct (de _). Qed.

Lemma de_map_accepts {A} (de : Decoder A) entries name v :
  is_ok (de_map de (Value.Object entries)) = true → (name, v) ∈ entries → is_ok (de v) = true.
Proof.
  cbn. generalize (∅ : gmap string A). induction entries as [|[k w] entries IH]; intros m; [set_solver|].
  cbn. destruct (de w) as [a|] eqn:Hw; [|done]. intros Hok [[= <- <-]|Hin]%elem_of_cons; [by rewrite Hw|].
  by eapply IH.
Qed.

Ltac no_dup_names := apply (bool_decide_unpack _); vm_compute; exact I.

Lemma accepts_shape s w : accepts s w = true → shape_ok true (fields_of s) w.
Proof. destruct s; intros Hok; (refine (struct_shape true _ w _ Hok); no_dup_names). Qed.

Lemma accepts_child s k s' w w' :
  accepts s w = true → child s k = Some s' → entry_at (fields_of s) w k = Some w' → w' ≠ Value.Null →
  accepts s' w' = true.
Proof.
  intros Hok Hc He Hn. destruct s; cbn in Hc; try done; repeat (case_match; try done); simplify_eq;
    (unshelve epose proof (struct_field true _ w _ _ w' _ Hok He eq_refl) as Ht; [no_dup_names|];
    exact Ht || exact (de_option_accepts _ _ Ht Hn)).
Qed.

Lemma accepts_entry s k s' w entries name w' :
  accepts s w = true → map_child s k = Some s' →
  entry_at (fields_of s) w k = Some (Value.Object entries) → (name, w') ∈ entries → accepts s' w' = true.
Proof.
  intros Hok Hc He Hin. destruct s; cbn in Hc; try done; repeat (case_match; try done); simplify_eq;
    (unshelve epose proof (struct_field true _ w _ _ _ _ Hok He eq_refl) as Ht; [no_dup_names|];
    exact (de_map_accepts _ _ _ _ Ht Hin)).
Qed.

Lemma accepted_sections v s w : is_ok (de_config v) = true → located v s w → accepts s w = true.
Proof.
  intros Hok Hl. induction Hl as [|s w k s' w' _ IH Hc He Hn|s w k s' entries name w' _ IH Hc He Hin];
    [exact Hok|by eapply accepts_child|by eapply accepts_entry].
Qed.

(** ** The numbers of a configuration are in range *)

Definition server_in_range (s : ServerConfig) : Prop :=
  (0 ≤ port s ≤ u16_max)%Z ∧ in_u64 (max_body_bytes s) ∧ in_u64 (max_pipeline_commands s) ∧
  in_u64 (max_request_elements s) ∧ in_u64 (http_timeout_ms s) ∧
  in_u64 (per_token_commands_per_sec (rate_limit s)) ∧ in_u64 (max_in_flight (load s)) ∧
  in_u64 (max_response_bytes (load s)) ∧ in_u64 (shed_retry_after_secs (load s)) ∧
  in_u64 (body_read_timeout_ms (load s)).

Definition jwt_in_range (j : JwtConfig) : Prop :=
  in_u64 (jwks_refresh_secs j) ∧ in_u64 (introspection_cache_secs (introspection j)).

Definition pool_in_range (p : PoolConfig) : Prop :=
  in_u64 (max_connections p) ∧ in_u64 (command_timeout_ms p) ∧ in_u64 (acquire_timeout_ms p) ∧
  in_u64 (max_waiters p) ∧ in_u64 (breaker_failure_threshold (pool_breaker p)) ∧
  in_u64 (breaker_cooldown_ms (pool_breaker p)).

Definition config_in_range (c : Config) : Prop :=
  server_in_range (server c) ∧ (∀ j, jwt (auth c) = Some j → jwt_in_range j) ∧
  map_Forall (λ _, pool_in_range) (pools c).

(** What a decoder guarantees of the values it gives. *)
Class Typed {A} (de : Decoder A) (P : A → Prop) : Prop := typed v a : de v = Ok a → P a.
Class TypedStruct {A} (s : Struct A) (P : A → Prop) : Prop := typed_struct g a : read s g = Ok a → P a.

#[export] Instance de_string_typed : Typed de_string (λ _, True).
Proof. done. Qed.
#[export] Instance de_bool_typed : Typed de_bool (λ _, True).
Proof. done. Qed.
#[export] Instance de_vec_typed {A} (de : Decoder A) : Typed (de_vec de) (λ _, True).
Proof. done. Qed.

Lemma de_uint_typed name max : Typed (de_uint name max) (λ z, 0 ≤ z ≤ max)%Z.
Proof. intros v z Hz. unfold de_uint in Hz. by break_matches. Qed.
#[export] Instance de_u16_typed : Typed de_u16 (λ z, 0 ≤ z ≤ u16_max)%Z.
Proof. apply de_uint_typed. Qed.
#[export] Instance de_u64_typed : Typed de_u64 in_u64.
Proof. apply de_uint_typed. Qed.
#[export] Instance de_usize_typed : Typed de_usize in_u64.
Proof. apply de_uint_typed. Qed.

#[export] Instance de_option_typed {A} (de : Decoder A) P :
  Typed de P → Typed (de_option de) (λ o, ∀ x, o = Some x → P x).
Proof.
  intros Hde v o Ho x ->. destruct v; cbn in Ho; try done;
    (destruct (de _) as [y|] eqn:Hy; [|done]; injection Ho as ->; by apply Hde in Hy).
Qed.

#[export] Instance de_map_typed {A} (de : Decoder A) P :
  Typed de P → Typed (de_map de) (map_Forall (λ _, P)).
Proof.
  intros Hde v m. destruct v as [| | | | |entries]; try done. cbn.
  assert (map_Forall (λ _, P) (∅ : gmap string A)) as Hm by apply map_Forall_empty. revert Hm.
  generalize (∅ : gmap string A). induction entries as [|[k v] entries IH]; intros m0 Hm0; cbn; [by intros [= <-]|].
  destruct (de v) as [a|] eqn:Ha; [|done]. apply IH, map_Forall_insert_2; [by eapply Hde|done].
Qed.

Lemma typed_build {A} (a : A) (P : A → Prop) : P a → TypedStruct (Build a) P.
Proof. by intros Ha g b [= <-]. Qed.

Lemma typed_field {T A} name (de : Decoder T) absent (rest : Struct (T → A)) (Q : T → Prop) (P : A → Prop) :
  Typed de Q → (∀ d, absent = Some d → Q d) → TypedStruct rest (λ f, ∀ x, Q x → P (f x)) →
  TypedStruct (Field name de absent rest) P.
Proof.
  intros Hde Hab Hrest g a. cbn. destruct (read rest g) as [f|] eqn:Hf; [|done]. specialize (Hrest g f Hf).
  destruct (g name) as [v|]; [destruct (de v) as [x|] eqn:Hx; [|done]|destruct absent as [x|]; [|done]];
    intros [= <-]; eauto.
Qed.

Lemma typed_deserialize {A} deny (s : Struct A) P :
  NoDup (names s) → TypedStruct s P → Typed (deserialize_struct deny s) P.
Proof. intros Hnd Hs v a Ha. apply deserialize_reads in Ha as [_ Ha]; [|done]. by eapply Hs. Qed.

(** Goes through the fields of a declaration: each has a typed decoder and a
    default in range. *)
Ltac solve_range := repeat split; vm_compute; discriminate.
Ltac typed_fields :=
  apply typed_deserialize; [no_dup_names|];
  repeat (eapply typed_field; [apply _|intros ? [= <-]; first [exact I | done | apply map_Forall_empty | solve_range]|]);
  apply typed_build; intros.

#[export] Instance de_tls_typed : Typed de_tls (λ _, True).
Proof. done. Qed.
#[export] Instance de_static_token_typed : Typed de_static_token (λ _, True).
Proof. done. Qed.
#[export] Instance de_rate_limit_typed :
  Typed de_rate_limit (λ r, in_u64 (per_token_commands_per_sec (rate_limit_from r))).
Proof. by typed_fields. Qed.
#[export] Instance de_load_typed :
  Typed de_load (λ r, in_u64 (max_in_flight (load_from r)) ∧ in_u64 (max_response_bytes (load_from r)) ∧
    in_u64 (shed_retry_after_secs (load_from r)) ∧ in_u64 (body_read_timeout_ms (load_from r))).
Proof. typed_fields. by split_and!. Qed.
#[export] Instance de_server_typed : Typed de_server (λ r, server_in_range (server_from r)).
Proof. typed_fields. unfold server_in_range. cbn. naive_solver. Qed.
#[export] Instance de_introspection_typed :
  Typed de_introspection (λ r, in_u64 (introspection_cache_secs (introspection_from r))).
Proof. by typed_fields. Qed.
#[export] Instance de_jwt_typed : Typed de_jwt (λ r, jwt_in_range (jwt_from r)).
Proof. typed_fields. by split. Qed.
#[export] Instance de_breaker_typed :
  Typed de_breaker (λ r, in_u64 (breaker_failure_threshold (breaker_from r)) ∧
    in_u64 (breaker_cooldown_ms (breaker_from r))).
Proof. typed_fields. by split. Qed.

Lemma waiters_in_range n w :
  in_u64 n → (∀ x, w = Some x → in_u64 x) → in_u64 (default (saturating_mul n 4) w).
Proof.
  intros Hn Hw. destruct w as [x|]; [by apply Hw|]. unfold in_u64, saturating_mul in *.
  cbn. change u64_max with 18446744073709551615%Z in *. lia.
Qed.

#[export] Instance de_pool_typed : Typed de_pool (λ r, pool_in_range (new_pool r)).
Proof.
  typed_fields. unfold pool_in_range. cbn. destruct_and?. split_and!; try done.
  apply waiters_in_range; [done|]. intros w Hw. destruct x3 as [w'|]; [naive_solver|].
  unfold checked_mul, in_u64 in *. case_decide; [|done]. injection Hw as <-. lia.
Qed.
#[export] Instance de_auth_typed :
  Typed de_auth (λ r, ∀ j, raw_jwt r = Some j → jwt_in_range (jwt_from j)).
Proof. typed_fields. auto. Qed.
#[export] Instance de_config_typed :
  Typed de_config (λ r, server_in_range (server_from (raw_server r)) ∧
    (∀ j, raw_jwt (raw_auth r) = Some j → jwt_in_range (jwt_from j)) ∧
    map_Forall (λ _ p, pool_in_range (new_pool p)) (raw_pools r)).
Proof. typed_fields. by split_and!. Qed.
#[export] Instance de_legacy_token_typed : Typed de_legacy_token (λ t, in_u64 (legacy_max_connections t)).
Proof. by typed_fields. Qed.

(** *** The three sources *)

Lemma parse_digits_range max s acc z :
  (0 ≤ acc ≤ max)%Z → parse_digits max s acc = Ok z → (0 ≤ z ≤ max)%Z.
Proof.
  revert acc. induction s as [|c s IH]; intros acc Hacc; cbn; [by intros [= <-]|].
  destruct (is_ascii_digit c); [|done]. case_decide; [|done]. apply IH. lia.
Qed.

Lemma parse_unsigned_range max s z : (0 ≤ max)%Z → parse_unsigned max s = Ok z → (0 ≤ z ≤ max)%Z.
Proof.
  intros Hm. unfold parse_unsigned.
  repeat match goal with
  | |- Err _ = Ok _ → _ => done
  | |- parse_digits _ _ _ = _ → _ => apply parse_digits_range; lia
  | |- context [match ?x with _ => _ end] => destruct x
  end.
Qed.

Lemma parse_env_range get max name z :
  (0 ≤ max)%Z → parse_env get max name = Ok (Some z) → (0 ≤ z ≤ max)%Z.
Proof.
  intros Hm. unfold parse_env. destruct (get name) as [s|]; [|done].
  destruct (parse_unsigned max s) as [y|] eqn:Hy; [|done]. intros [= <-]. by eapply parse_unsigned_range.
Qed.

Lemma server_default_in_range : server_in_range server_default.
Proof. solve_range. Qed.

(** A pool with the timeouts of the legacy and environment sources. *)
Lemma legacy_pool_in_range conn n : in_u64 n → pool_in_range (pool_new conn n 2000 500 None None).
Proof.
  intros Hn. split_and!; [done|solve_range|solve_range| |solve_range|solve_range].
  by apply (waiters_in_range n None).
Qed.

Section Sources.
Context (display : DeError → string) (sha256 : bytes → bytes).
Context (hash_iter : ∀ A, gmap string A → list (string * A)).
Hypothesis hash_iter_perm : ∀ A (m : gmap string A), hash_iter A m ≡ₚ map_to_list m.

Lemma from_env_mode_in_range get c : from_env_mode sha256 get = Ok c → config_in_range c.
Proof.
  unfold from_env_mode. destruct (required get "SRH_TOKEN") as [token|]; [|done].
  destruct (required get "SRH_CONNECTION_STRING") as [conn|]; [|done].
  destruct (parse_env get usize_max _) as [n|] eqn:Hn; [|done]. intros [= <-].
  split_and!; [apply server_default_in_range|done|]. apply map_Forall_singleton, legacy_pool_in_range.
  destruct n as [n|]; [|solve_range]. by apply parse_env_range in Hn.
Qed.

Lemma from_new_value_in_range v c :
  from_new_value sha256 hash_iter (raw_from_value display) v = Ok c → config_in_range c.
Proof.
  unfold from_new_value, raw_from_value. destruct (de_config v) as [raw|] eqn:Hraw; [|done]. cbn.
  destruct (new_tokens _ _ _) as [tokens|]; [|done]. intros [= <-].
  apply de_config_typed in Hraw as (Hs & Hj & Hp). split_and!; cbn; [done| |].
  - intros j (rj & Hrj & ->)%fmap_Some. by apply Hj.
  - intros n p. rewrite lookup_fmap, fmap_Some. intros (rp & Hrp & ->). by eapply Hp.
Qed.

Lemma from_legacy_value_in_range v c :
  from_legacy_value sha256 hash_iter (legacy_from_value display) v = Ok c → config_in_range c.
Proof.
  unfold from_legacy_value, legacy_from_value.
  destruct (de_map de_legacy_token v) as [entries|] eqn:He; [|done]. cbn.
  apply (de_map_typed _ _ de_legacy_token_typed) in He.
  pose proof (legacy_loop_spec sha256 (hash_iter _ entries) [] ∅ ∅) as Hloop.
  destruct (legacy_loop sha256 (hash_iter _ entries) (∅, ∅)) as [[tokens ps]|err]; [|done].
  destruct Hloop as (-> & seen & Hseen & Hin & Hof).
  { split; [by intros ? ?%elem_of_nil|]. intros n p. by rewrite lookup_empty. }
  intros [= <-]. split_and!; cbn; [apply server_default_in_range|done|].
  intros n p Hp. destruct (Hof n p Hp) as ([t e] & Hte & Hn). rewrite <- Hn, (Hin _ Hte) in Hp.
  injection Hp as <-. apply legacy_pool_in_range. rewrite Hseen, app_nil_l in Hte.
  apply (elem_of_hash_iter _ hash_iter_perm) in Hte. by eapply He.
Qed.

Lemma overrides_in_range get c c' :
  config_in_range c → apply_server_overrides get c = Ok c' → config_in_range c'.
Proof.
  intros (Hs & Hj & Hp). unfold apply_server_overrides.
  destruct (parse_env get u16_max "SRH_PORT") as [p|] eqn:Hport; [|done].
  destruct (parse_bool_env get "SRH_IPV6") as [b|]; [|done]. intros [= <-].
  split_and!; cbn; [|done|done]. destruct Hs as [? Hs].
  destruct p as [p|]; [apply parse_env_range in Hport; [|done]|];
    destruct (get "SRH_BIND"), (default false b); split; done.
Qed.

Context (parse_socket_addr : string → result unit string) (parse_url : string → result string string).
Context (from_str : string → result Value string) (read_to_string : string → result string string).

(** [Config::from_environment] with the deserializers of this file. *)
Definition load_config (get : string → option string) : result Config ConfigError :=
  from_environment sha256 hash_iter parse_socket_addr parse_url from_str (legacy_from_value display)
    (raw_from_value display) read_to_string get.

Lemma from_path_in_range path c :
  from_path sha256 hash_iter parse_socket_addr parse_url from_str (legacy_from_value display)
    (raw_from_value display) read_to_string path = Ok c → config_in_range c.
Proof.
  unfold from_path, from_json. destruct (read_to_string path) as [json|]; [|done]. cbn.
  destruct (from_str json) as [v|]; [|done]. cbn.
  destruct (match v with Value.Object _ => _ | _ => false end).
  - destruct (from_legacy_value _ _ _ v) as [c0|] eqn:Hc0; [|done].
    destruct (validate _ _ _ c0) as [[]|]; [|done]. intros [= <-]. by eapply from_legacy_value_in_range.
  - destruct (from_new_value _ _ _ v) as [c0|] eqn:Hc0; [|done].
    destruct (validate _ _ _ c0) as [[]|]; [|done]. intros [= <-]. by eapply from_new_value_in_range.
Qed.

Lemma load_config_sound get c :
  load_config get = Ok c → config_in_range c ∧ valid_config parse_socket_addr parse_url c.
Proof.
  unfold load_config, from_environment.
  set (source := if String.eqb _ "env" then _ else _).
  assert (∀ c0, source = Ok c0 → config_in_range c0) as Hsource.
  { intros c0. unfold source. destruct (String.eqb _ "env"); [apply from_env_mode_in_range|].
    destruct (String.eqb _ "file"); [apply from_path_in_range|done]. }
  destruct source as [c0|]; [|done]. specialize (Hsource c0 eq_refl).
  destruct (apply_server_overrides get c0) as [c1|] eqn:Hover; [|done].
  destruct (validate _ _ _ c1) as [[]|] eqn:Hv; [|done]. intros [= <-].
  assert (config_in_range c1) as Hr by by eapply overrides_in_range.
  split; [done|]. apply (validate_ok hash_iter hash_iter_perm); [|done].
  destruct Hr as (Hs & _ & Hp). split; [apply Hs|]. intros n p Hnp.
  destruct (Hp n p Hnp) as (_ & ? & ? & _). by split.
Qed.
End Sources.

(** ** Properties *)

(** Without [deny_unknown_fields] unknown entries make no difference. *)
Lemma fill_unknown {A} (s : Struct A) k v sl : k ∉ names s → fill s k v sl = None.
Proof.
  induction s as [|A T name de absent rest IH]; [done|]. destruct sl as [sl o]. cbn. intros Hk.
  destruct (String.eqb_spec name k) as [->|]; [set_solver|]. by rewrite IH by set_solver.
Qed.

Lemma visit_entries_filter {A} (s : Struct A) entries sl :
  visit_entries false s (filter (λ e, e.1 ∈ names s) entries) sl = visit_entries false s entries sl.
Proof.
  revert sl. induction entries as [|[k v] entries IH]; intros sl; [done|].
  rewrite filter_cons. case_decide as Hk; cbn in Hk |- *.
  - destruct (fill s k v sl) as [[]|]; auto.
  - rewrite (fill_unknown s k v sl Hk). apply IH.
Qed.

(** Whether [Config::from_json] reads the document as a legacy file. *)
Definition legacy_document (v : Value) : bool :=
  match v with Value.Object entries => existsb (has_connection_string ∘ snd) entries | _ => false end.

Section FailClosed.
Context (display : DeError → string) (sha256 : bytes → bytes).
Context (hash_iter : ∀ A, gmap string A → list (string * A)).
Context (parse_socket_addr : string → result unit string) (parse_url : string → result string string).
Context (from_str : string → result Value string).
Abbreviation from_json := (from_json sha256 hash_iter parse_socket_addr parse_url from_str
  (legacy_from_value display) (raw_from_value display)).

(** C15. Misspelt options fail closed.  In a new-style file, a field that a
    section does not have, in any section at any depth (a token's policy, a
    pool, the JWT or introspection settings, ...), makes the whole file be
    refused as malformed, so a restriction is never silently dropped; an
    accepted file has in every section only the section's own fields.  A legacy
    entry, on the contrary, is read as if its unknown fields were not there. *)
Theorem unknown_fields_fail_closed json v :
  from_str json = Ok v → legacy_document v = false →
  (∀ s entries k, located v s (Value.Object entries) → k ∈ entries.*1 → k ∉ fields_of s →
     ∃ e, from_json json = Err (ConfigError.Json (display e))) ∧
  (∀ c s w, from_json json = Ok c → located v s w → shape_ok true (fields_of s) w) ∧
  (∀ entries, de_legacy_token (Value.Object entries) =
     de_legacy_token (Value.Object
       (filter (λ e, e.1 ∈ ["srh_id"; "connection_string"; "max_connections"]) entries))).
Proof.
  intros Hv Hleg. unfold Config.from_json. rewrite Hv. cbn [map_err].
  fold (legacy_document v). rewrite Hleg. unfold from_new_value, raw_from_value. split_and!.
  - intros s entries k Hl Hk Hunknown. destruct (de_config v) as [raw|e] eqn:Hraw; [|by exists e].
    exfalso. apply Hunknown.
    assert (accepts s (Value.Object entries) = true) as Hok.
    { eapply accepted_sections; [|exact Hl]. by rewrite Hraw. }
    by apply (accepts_shape _ _ Hok eq_refl).
  - intros c s w Hc Hl. apply accepts_shape, (accepted_sections v); [|done]. by destruct (de_config v).
  - intros entries. cbn. unfold visit_map. symmetry.
    by rewrite <- (visit_entries_filter legacy_token_struct entries).
Qed.
End FailClosed.

(** C23. Every configuration that loads, from the environment or from a file of
    either format, has all its numbers within the integer types the code keeps
    them in (the port in 16 bits, sizes, rates and timeouts in 64) and is valid:
    validation, which computes sums of timeouts, decided it without overflow. *)
Theorem loaded_config_is_valid display sha256 (hash_iter : ∀ A, gmap string A → list (string * A))
    parse_socket_addr parse_url from_str read_to_string get c :
  (∀ A (m : gmap string A), hash_iter A m ≡ₚ map_to_list m) →
  load_config display sha256 hash_iter parse_socket_addr parse_url from_str read_to_string get = Ok c →
  config_in_range c ∧ valid_config parse_socket_addr parse_url c.
Proof. intros Hiter. by apply load_config_sound. Qed.

(** ** Witnesses *)

(** A file with a misspelt restriction, and one that is accepted. *)
Definition str (s : string) : Value := Value.String s.
Definition num (z : Z) : Value := Value.Number (Number.PosInt z).
Definition misspelt_file : Value :=
  Value.Object [("auth", Value.Object [("static_tokens", Value.Object [("token",
    Value.Object [("pool", str "cache"); ("read_ony", Value.Bool true)])])])].
Definition plain_file : Value :=
  Value.Object [
    ("auth", Value.Object [("static_tokens", Value.Object [("token",
       Value.Object [("pool", str "cache"); ("read_only", Value.Bool true)])])]);
    ("pools", Value.Object [("cache",
       Value.Object [("connection_string", str "redis://localhost:6379"); ("max_connections", num 5)])]);
    ("server", Value.Object [("port", num 8080)])].

Lemma unknown_fields_fail_closed_witness :
  ∃ e, from_json (λ t, t) sample_iter (λ _, Ok tt) (λ _, Err "") (λ _, Ok misspelt_file)
    (legacy_from_value (λ _, "malformed")) (raw_from_value (λ _, "malformed")) "" =
    Err (ConfigError.Json ((λ _ : DeError, "malformed") e)).
Proof.
  destruct (unknown_fields_fail_closed (λ _, "malformed") (λ t, t) sample_iter (λ _, Ok tt) (λ _, Err "")
    (λ _, Ok misspelt_file) "" misspelt_file eq_refl eq_refl) as [Hbad _].
  apply (Hbad Part.StaticToken [("pool", str "cache"); ("read_ony", Value.Bool true)] "read_ony").
  - assert (∀ w, assoc "auth" [("auth", w)] = Some w) as Hget by done.
    pose proof (located_child misspelt_file _ _ "auth" Part.Auth _ (located_root _) eq_refl (Hget _)
      ltac:(discriminate)) as Hauth.
    by eapply (located_entry _ _ _ "static_tokens" _ _ "token" _ Hauth eq_refl eq_refl); left.
  - right. left.
  - apply (bool_decide_unpack _). vm_compute. exact I.
Defined.

Lemma loaded_config_is_valid_witness :
  match load_config (λ _, "malformed") (λ t, t) sample_iter (λ _, Ok tt) (λ _, Err "") (λ _, Ok plain_file)
    (λ _, Ok "") (λ _, None) with
  | Ok c => config_in_range c ∧ port (server c) = 8080%Z
  | Err _ => False
  end.
Proof.
  pose proof (λ c, loaded_config_is_valid (λ _, "malformed") (λ t, t) sample_iter (λ _, Ok tt) (λ _, Err "")
    (λ _, Ok plain_file) (λ _, Ok "") (λ _, None) c (λ A m, Permutation_refl _)) as Hl.
  destruct (load_config _ _ _ _ _ _ _ _) as [c|e] eqn:Hc; [|exfalso; by vm_compute in Hc].
  split; [apply (Hl c eq_refl)|]. vm_compute in Hc. by injection Hc as <-.
Defined.
