(* ===== verification/Breaker.v ===== *)
(** * The circuit breaker of [src/src/domain/breaker.rs]

    A clock-injected state machine with one half-open probe.  Every operation
    of the code runs under the breaker's mutex, so it is a function of the
    protected [Inner] record; the injected clock's reading is the argument
    [now].  [step] is the relation of the system made of the breaker, the
    permits that were handed out and the clock; the theorems about reachable
    states are by induction on it. *)
From S2P Require Import Prelude.

(** ** Data *)

Module BreakerState.
Inductive BreakerState : Type := Closed | HalfOpen | Open.
End BreakerState.
Abbreviation BreakerState := BreakerState.BreakerState.

#[export] Instance BreakerState_eq_dec : EqDecision BreakerState.
Proof. solve_decision. Defined.

Record BreakerPermit : Type := mkPermit {
  permit_generation : Z;
  probe : bool;
}.

#[export] Instance BreakerPermit_eq_dec : EqDecision BreakerPermit.
Proof. solve_decision. Defined.

Module BreakerTransition.
Inductive BreakerTransition : Type := Opened | ProbeStarted | Closed.
End BreakerTransition.
Abbreviation BreakerTransition := BreakerTransition.BreakerTransition.

#[export] Instance BreakerTransition_eq_dec : EqDecision BreakerTransition.
Proof. solve_decision. Defined.

Record BreakerAdmission : Type := mkAdmission {
  permit : BreakerPermit;
  transition : option BreakerTransition;
}.

Record Inner : Type := mkInner {
  state : BreakerState;
  consecutive_failures : Z;
  opened_at : option Z;
  generation : Z;
}.

(** The fields of [Breaker] that never change. *)
Record BreakerParams : Type := mkBreakerParams {
  failure_threshold : Z;
  cooldown : Z;
}.

(** ** Operations *)

(** [Breaker::new]. *)
Definition breaker_new : Inner := mkInner BreakerState.Closed 0 None 0.

Definition seconds_ceil (d : Z) : Z :=
  saturating_add (as_secs d) (bool_to_Z (0 <? subsec_nanos d)%Z).

(** [Breaker::admit]. *)
Definition breaker_admit (b : BreakerParams) (now : Z) (inner : Inner) :
    result BreakerAdmission Z * Inner :=
  match state inner with
  | BreakerState.Closed =>
      (Ok (mkAdmission (mkPermit (generation inner) false) None), inner)
  | BreakerState.HalfOpen => (Err (seconds_ceil (cooldown b)), inner)
  | BreakerState.Open =>
      let elapsed :=
        match opened_at inner with
        | None => 0%Z
        | Some opened => duration_since now opened
        end in
      if decide (cooldown b ≤ elapsed)%Z then
        let g := wrapping_add (generation inner) 1 in
        (Ok (mkAdmission (mkPermit g true) (Some BreakerTransition.ProbeStarted)),
         mkInner BreakerState.HalfOpen (consecutive_failures inner) (opened_at inner) g)
      else (Err (seconds_ceil (cooldown b - elapsed)), inner)
  end.

(** [Breaker::record]. *)
Definition record (b : BreakerParams) (now : Z) (p : BreakerPermit) (failed : bool)
    (inner : Inner) : option BreakerTransition * Inner :=
  if decide (permit_generation p ≠ generation inner) then (None, inner)
  else if probe p then
    if decide (state inner ≠ BreakerState.HalfOpen) then (None, inner)
    else
      let g := wrapping_add (generation inner) 1 in
      if failed then
        (Some BreakerTransition.Opened,
         mkInner BreakerState.Open (consecutive_failures inner) (Some now) g)
      else
        (Some BreakerTransition.Closed, mkInner BreakerState.Closed 0 None g)
  else if decide (state inner ≠ BreakerState.Closed) then (None, inner)
  else if failed then
    let failures := (consecutive_failures inner + 1)%Z in
    if decide (failure_threshold b ≤ failures)%Z then
      (Some BreakerTransition.Opened,
       mkInner BreakerState.Open failures (Some now) (wrapping_add (generation inner) 1))
    else
      (None, mkInner (state inner) failures (opened_at inner) (generation inner))
  else
    (None, mkInner (state inner) 0 (opened_at inner) (generation inner)).

(** [Breaker::cancel]. *)
Definition cancel (p : BreakerPermit) (inner : Inner) : Inner :=
  if negb (probe p) then inner
  else if decide (state inner = BreakerState.HalfOpen ∧ permit_generation p = generation inner)
  then mkInner BreakerState.Open (consecutive_failures inner) (opened_at inner)
         (wrapping_add (generation inner) 1)
  else inner.

(** ** The system: breaker, outstanding permits, clock *)

Record Sys : Type := mkSys {
  sys_inner : Inner;
  sys_now : Z;
  held : list BreakerPermit;
}.

Definition sys_init (now : Z) : Sys := mkSys breaker_new now [].

(** A permit that can still move the breaker out of its half-open state. *)
Definition live_probe (inner : Inner) (p : BreakerPermit) : Prop :=
  probe p = true ∧ permit_generation p = generation inner.

#[export] Instance live_probe_dec inner p : Decision (live_probe inner p).
Proof. unfold live_probe. apply _. Defined.

(** One step: time passes, a caller is admitted or turned away, or the holder
    of a permit records an outcome or cancels.  The generation counter is a
    [u64]; the premises keep the run below 2^64 transitions. *)
Inductive step (b : BreakerParams) : Sys → Sys → Prop :=
| step_tick inner now now' ps :
    (now ≤ now')%Z →
    step b (mkSys inner now ps) (mkSys inner now' ps)
| step_admit inner inner' now ps a :
    breaker_admit b now inner = (Ok a, inner') →
    (generation inner < u64_max)%Z →
    step b (mkSys inner now ps) (mkSys inner' now (permit a :: ps))
| step_reject inner inner' now ps retry :
    breaker_admit b now inner = (Err retry, inner') →
    step b (mkSys inner now ps) (mkSys inner' now ps)
| step_record inner inner' now ps ps' p failed t :
    ps ≡ₚ p :: ps' →
    record b now p failed inner = (t, inner') →
    (generation inner < u64_max)%Z →
    step b (mkSys inner now ps) (mkSys inner' now ps')
| step_cancel inner now ps ps' p :
    ps ≡ₚ p :: ps' →
    (generation inner < u64_max)%Z →
    step b (mkSys inner now ps) (mkSys (cancel p inner) now ps').

Definition reachable (b : BreakerParams) (s : Sys) : Prop :=
  ∃ now, rtc (step b) (sys_init now) s.

(** A run of requests on a closed breaker: each one is admitted and records
    its outcome with the permit it got. *)
Definition serve (b : BreakerParams) (now : Z) (failed : bool) (inner : Inner) : Inner :=
  match breaker_admit b now inner with
  | (Ok a, inner') => (record b now (permit a) failed inner').2
  | (Err _, inner') => inner'
  end.

Definition serve_all (b : BreakerParams) (now : Z) (outcomes : list bool) (inner : Inner) : Inner :=
  foldl (λ i failed, serve b now failed i) inner outcomes.

(** ** Invariants *)

Record breaker_inv (b : BreakerParams) (inner : Inner) : Prop := {
  inv_failures : (0 ≤ consecutive_failures inner ≤ Z.max 1 (failure_threshold b))%Z;
  inv_closed : state inner = BreakerState.Closed →
    (consecutive_failures inner < Z.max 1 (failure_threshold b))%Z;
  inv_opened : opened_at inner = None ↔ state inner = BreakerState.Closed;
  inv_generation : in_u64 (generation inner);
}.

Record sys_inv (b : BreakerParams) (s : Sys) : Prop := {
  sys_breaker : breaker_inv b (sys_inner s);
  sys_permits : Forall (λ p, permit_generation p ≤ generation (sys_inner s))%Z (held s);
  sys_probes : length (filter (live_probe (sys_inner s)) (held s)) =
    if decide (state (sys_inner s) = BreakerState.HalfOpen) then 1 else 0;
  sys_clock : ∀ opened, opened_at (sys_inner s) = Some opened → (opened ≤ sys_now s)%Z;
}.

(** ** Lemmas *)

Ltac breaker_unfold :=
  unfold breaker_admit, record, cancel, breaker_new in *; repeat (case_match; simplify_eq/=);
  repeat case_decide; simplify_eq/=.

Lemma wrapping_add_u64 a b : in_u64 (wrapping_add a b).
Proof.
  unfold wrapping_add, in_u64, u64_max.
  pose proof (Z.mod_pos_bound (a + b) (2 ^ 64) eq_refl). lia.
Qed.

Lemma wrapping_succ g : in_u64 g → (g < u64_max)%Z → wrapping_add g 1 = (g + 1)%Z.
Proof. unfold in_u64, wrapping_add, u64_max. intros. apply Z.mod_small. lia. Qed.

#[export] Hint Resolve wrapping_add_u64 : srh.

Lemma new_inv b : breaker_inv b breaker_new.
Proof. split; simpl; [lia|lia|done|unfold in_u64, u64_max; lia]. Qed.

Lemma admit_inv b now inner r inner' :
  breaker_inv b inner → breaker_admit b now inner = (r, inner') → breaker_inv b inner'.
Proof.
  intros [Hf Hc Ho Hg] Ha. unfold breaker_admit in Ha.
  destruct (state inner) eqn:Hs; [| |case_decide]; simplify_eq/=; split; simpl;
    rewrite ?Hs; auto with srh; naive_solver.
Qed.

Lemma record_inv b now p failed inner t inner' :
  breaker_inv b inner → record b now p failed inner = (t, inner') → breaker_inv b inner'.
Proof.
  intros [Hf Hc Ho Hg] Hr. unfold record in Hr.
  repeat (case_decide || case_match); simplify_eq/=; split; simpl;
    auto with srh; try naive_solver lia.
  all: destruct (state inner) eqn:?; try done; naive_solver lia.
Qed.

Lemma cancel_inv b p inner : breaker_inv b inner → breaker_inv b (cancel p inner).
Proof.
  intros [Hf Hc Ho Hg]. unfold cancel. case_match; [done|].
  case_decide as Hs; [|done]. destruct Hs as [Hs _].
  split; simpl; auto with srh; [done|]. rewrite Ho, Hs. done.
Qed.

#[export] Hint Resolve new_inv admit_inv record_inv cancel_inv : srh.

(** Permits of an older generation are not live. *)
Lemma no_live_probe inner (ps : list BreakerPermit) g :
  Forall (λ p, permit_generation p ≤ g)%Z ps → (g < generation inner)%Z →
  filter (live_probe inner) ps = [].
Proof.
  intros Hps Hlt. induction Hps as [|p ps Hp _ IH]; [done|].
  rewrite filter_cons_False; [done|]. intros [_ ?]. lia.
Qed.

Lemma filter_live_ext inner inner' (ps : list BreakerPermit) :
  generation inner = generation inner' →
  filter (live_probe inner) ps = filter (live_probe inner') ps.
Proof.
  intros Hg. apply list_filter_iff. intros p. unfold live_probe. by rewrite Hg.
Qed.

Lemma permits_grow ps g g' :
  Forall (λ p, permit_generation p ≤ g)%Z ps → (g ≤ g')%Z →
  Forall (λ p, permit_generation p ≤ g')%Z ps.
Proof. intros Hps Hle. eapply Forall_impl; [done|]. simpl. lia. Qed.

(** What an operation on the breaker does to the generation and the state. *)
Lemma admit_cases b now inner a inner' :
  breaker_inv b inner → (generation inner < u64_max)%Z →
  breaker_admit b now inner = (Ok a, inner') →
  (inner' = inner ∧ state inner = BreakerState.Closed ∧
     permit a = mkPermit (generation inner) false) ∨
  (state inner = BreakerState.Open ∧ state inner' = BreakerState.HalfOpen ∧
     generation inner' = (generation inner + 1)%Z ∧
     permit a = mkPermit (generation inner') true).
Proof.
  intros Hinv Hg Ha. unfold breaker_admit in Ha.
  rewrite wrapping_succ in Ha by (done || apply Hinv).
  destruct (state inner) eqn:Hs; [| |case_decide]; simplify_eq/=; auto.
Qed.

Lemma admit_err_inner b now inner r inner' :
  breaker_admit b now inner = (Err r, inner') → inner' = inner.
Proof. unfold breaker_admit. intros Ha. repeat (case_match; simplify_eq/=); done. Qed.

(** An operation that holds permit [p] either leaves generation and state
    alone, [p] not being a live probe, or bumps the generation and leaves the
    half-open state. *)
Definition spends (p : BreakerPermit) (inner inner' : Inner) : Prop :=
  (generation inner' = generation inner ∧ state inner' = state inner ∧
     (live_probe inner p → state inner ≠ BreakerState.HalfOpen)) ∨
  (generation inner' = (generation inner + 1)%Z ∧ state inner' ≠ BreakerState.HalfOpen ∧
     (state inner = BreakerState.HalfOpen → live_probe inner p)).

Lemma record_spends b now p failed inner t inner' :
  breaker_inv b inner → (generation inner < u64_max)%Z →
  record b now p failed inner = (t, inner') → spends p inner inner'.
Proof.
  intros Hinv Hg Hr. unfold record, spends, live_probe in *.
  rewrite wrapping_succ in Hr by (done || apply Hinv).
  destruct p as [gp [|]]; simpl in *; repeat (case_decide || case_match); simplify_eq/=;
    try (left; split_and!; naive_solver); right; split_and!; intros; split_and?; congruence.
Qed.

Lemma cancel_spends b p inner :
  breaker_inv b inner → (generation inner < u64_max)%Z → spends p inner (cancel p inner).
Proof.
  intros Hinv Hg. unfold cancel, spends, live_probe.
  rewrite wrapping_succ by (done || apply Hinv).
  destruct p as [gp [|]]; simpl; [|naive_solver].
  case_decide; simpl; [right|left]; naive_solver.
Qed.

(** [opened_at] is only ever set to the present. *)
Lemma record_opened b now p failed inner t inner' opened :
  record b now p failed inner = (t, inner') → opened_at inner' = Some opened →
  opened_at inner = Some opened ∨ opened = now.
Proof. unfold record. intros. repeat (case_decide || case_match); simplify_eq/=; auto. Qed.

Lemma cancel_opened p inner : opened_at (cancel p inner) = opened_at inner.
Proof. unfold cancel. repeat (case_decide || case_match); done. Qed.

Lemma admit_opened b now inner r inner' :
  breaker_admit b now inner = (r, inner') → opened_at inner' = opened_at inner.
Proof. unfold breaker_admit. intros. repeat (case_decide || case_match); simplify_eq/=; auto. Qed.

(** Spending one outstanding permit keeps the count of live probes exact. *)
Lemma spend_inv b now p ps ps' inner inner' :
  sys_inv b (mkSys inner now ps) → ps ≡ₚ p :: ps' → breaker_inv b inner' →
  (∀ opened, opened_at inner' = Some opened →
     opened_at inner = Some opened ∨ opened = now) →
  spends p inner inner' → sys_inv b (mkSys inner' now ps').
Proof.
  intros [Hb Hp Hl Hck] Hperm Hb' Hop Hs.
  assert (∀ o, opened_at inner' = Some o → (o ≤ now)%Z) as Hck'.
  { intros o [?%Hck| ->]%Hop; [done|lia]. } simpl in *. rewrite Hperm in Hp.
  apply Forall_cons in Hp as [Hp Hps].
  rewrite Hperm, filter_cons in Hl.
  destruct Hs as [(Hg & Hst & Hlive)|(Hg & Hst & Hlive)]; split; simpl; auto.
  - by rewrite Hg.
  - rewrite (filter_live_ext inner' inner), Hst by done.
    destruct (decide (live_probe inner p)) as [Hlp|]; [|done].
    rewrite decide_False in Hl by auto. done.
  - apply (permits_grow _ _ _ Hps). lia.
  - rewrite (no_live_probe _ _ _ Hps) by lia. by rewrite decide_False.
Qed.

Lemma step_inv b s s' : sys_inv b s → step b s s' → sys_inv b s'.
Proof.
  intros Hinv Hstep. destruct Hstep as
    [inner now now' ps|inner inner' now ps a Ha Hg|inner inner' now ps r Ha
    |inner inner' now ps ps' p failed t Hperm Hr Hg|inner now ps ps' p Hperm Hg].
  - destruct Hinv as [Hb Hp Hl Hck]; simpl in *. split; simpl; auto.
    intros o Ho%Hck. lia.
  - destruct Hinv as [Hb Hp Hl Hck]; simpl in *.
    rewrite <- (admit_opened _ _ _ _ _ Ha) in Hck.
    pose proof (admit_inv _ _ _ _ _ Hb Ha) as Hb'.
    destruct (admit_cases _ _ _ _ _ Hb Hg Ha) as [(-> & Hs & ->)|(Hs & Hs' & Hg' & ->)];
      split; cbn [held sys_inner]; auto.
    + constructor; [done|done].
    + constructor; [done|]. apply (permits_grow _ _ _ Hp). lia.
    + rewrite filter_cons_True by done. simpl.
      rewrite (no_live_probe _ _ _ Hp) by lia. by rewrite decide_True.
  - apply admit_err_inner in Ha as ->. done.
  - eapply spend_inv; [done|done| | |].
    + eapply record_inv; [apply Hinv|done].
    + intros o. by eapply record_opened.
    + eapply record_spends; [apply Hinv|done..].
  - eapply spend_inv; [done|done| | |].
    + apply cancel_inv, Hinv.
    + intros o. rewrite cancel_opened. auto.
    + eapply cancel_spends; [apply Hinv|done].
Qed.

Lemma init_inv b now : sys_inv b (sys_init now).
Proof. split; simpl; [auto with srh|done|done|done]. Qed.

Lemma reachable_inv b s : reachable b s → sys_inv b s.
Proof.
  intros [now Hrtc]. pose proof (init_inv b now) as Hinit.
  induction Hrtc as [|s1 s2 s3 Hstep _ IH]; [done|]. eauto using step_inv.
Qed.

(** ** What a breaker holds against its backend *)

(** [n] recorded failures account for the breaker's count, and for its not
    being closed. *)
Definition accounted (b : BreakerParams) (n : nat) (inner : Inner) : Prop :=
  (consecutive_failures inner ≤ Z.of_nat n)%Z ∧
  (state inner ≠ BreakerState.Closed → failure_threshold b ≤ Z.of_nat n)%Z.

Lemma accounted_new b n : accounted b n breaker_new.
Proof. split; cbn; [lia|done]. Qed.

Lemma accounted_mono b n n' inner : n ≤ n' → accounted b n inner → accounted b n' inner.
Proof. intros ? [? Hs]. split; [lia|]. intros Hst. specialize (Hs Hst). lia. Qed.

Lemma accounted_admit b n now inner :
  accounted b n inner → accounted b n (breaker_admit b now inner).2.
Proof.
  unfold accounted, breaker_admit. intros [? Hs].
  destruct (state inner) eqn:Hst; cbn; rewrite ?Hst; try done. case_decide; cbn; rewrite ?Hst; done || auto.
Qed.

Lemma accounted_cancel b n p inner : accounted b n inner → accounted b n (cancel p inner).
Proof.
  unfold accounted, cancel. intros [? Hs]. destruct (probe p); cbn; [|done]. case_decide as Hp; cbn; [|done].
  destruct Hp as [Hst _]. rewrite Hst in Hs. auto.
Qed.

Lemma accounted_record b n now p (failed : bool) inner :
  accounted b n inner → accounted b ((if failed then 1 else 0) + n) (record b now p failed inner).2.
Proof.
  unfold accounted, record. intros [? Hs].
  assert (state inner = BreakerState.HalfOpen → failure_threshold b ≤ Z.of_nat n)%Z as Hhalf
    by (intros Hst; rewrite Hst in Hs; auto).
  assert (∀ m : nat, n ≤ m → state inner ≠ BreakerState.Closed → (failure_threshold b ≤ Z.of_nat m)%Z) as Hmore
    by (intros m Hm Hst; specialize (Hs Hst); lia).
  case_decide; [cbn; split; [lia|]; apply Hmore; lia|]. destruct (probe p).
  - case_decide as Hst; [cbn; split; [lia|]; apply Hmore; lia|]. specialize (Hhalf Hst).
    destruct failed; cbn; split; try done; lia.
  - case_decide as Hst; [cbn; split; [lia|]; apply Hmore; lia|].
    destruct failed; [case_decide|]; cbn; split; try done; lia.
Qed.

(** ** Theorems *)

(** In the half-open state only a live probe moves the breaker. *)
Lemma half_open_moves b now p failed inner :
  state inner = BreakerState.HalfOpen →
  if decide (live_probe inner p)
  then state (record b now p failed inner).2 ≠ BreakerState.HalfOpen ∧ state (cancel p inner) ≠ BreakerState.HalfOpen
  else record b now p failed inner = (None, inner) ∧ cancel p inner = inner.
Proof.
  intros Hs. unfold record, cancel. case_decide as Hl.
  - destruct Hl as [Hp Hg]. rewrite Hp, Hg, Hs. cbn. rewrite !decide_False by congruence.
    rewrite decide_True by done. by destruct failed.
  - destruct (probe p) eqn:Hp; cbn.
    + assert (permit_generation p ≠ generation inner) as Hg by (intros Hg; by apply Hl).
      rewrite decide_True by done. by rewrite decide_False by tauto.
    + rewrite Hs. split; [|done]. case_decide; [done|]. by rewrite decide_True.
Qed.

(** Exactly one element of a list satisfies a predicate. *)
Lemma filter_one {A} (P : A → Prop) `{∀ x, Decision (P x)} (l : list A) :
  length (filter P l) = 1 → ∃ x rest, l ≡ₚ x :: rest ∧ P x ∧ Forall (λ y, ¬ P y) rest.
Proof.
  intros Hl. destruct (filter P l) as [|x [|]] eqn:Hf; [done| |done].
  exists x, (filter (λ y, ¬ P y) l). split_and!.
  - rewrite <- (filter_app_complement P l) at 1. by rewrite Hf.
  - assert (x ∈ filter P l) as Hx by (rewrite Hf; by left). by apply list_elem_of_filter in Hx as [? _].
  - apply Forall_forall. intros y Hy. by apply list_elem_of_filter in Hy as [? _].
Qed.

(** C16. In every reachable state the number of outstanding permits that can
    still settle the current probe is exactly one while the breaker is
    half-open and zero otherwise: at most one probe runs at a time, and a
    half-open breaker always has a holder that can move it on.  That holder does
    move it on, whatever outcome it records and also when it cancels, and no
    other outstanding permit, a stale one included, changes a half-open breaker
    in any way. *)
Theorem one_probe_at_a_time b s :
  reachable b s →
  length (filter (live_probe (sys_inner s)) (held s)) =
    (if decide (state (sys_inner s) = BreakerState.HalfOpen) then 1 else 0) ∧
  (state (sys_inner s) = BreakerState.HalfOpen →
   ∃ p rest, held s ≡ₚ p :: rest ∧
     (∀ now failed, state (record b now p failed (sys_inner s)).2 ≠ BreakerState.HalfOpen) ∧
     state (cancel p (sys_inner s)) ≠ BreakerState.HalfOpen ∧
     ∀ q, q ∈ rest →
       (∀ now failed, record b now q failed (sys_inner s) = (None, sys_inner s)) ∧ cancel q (sys_inner s) = sys_inner s).
Proof.
  intros Hs. pose proof (sys_probes _ _ (reachable_inv _ _ Hs)) as Hn. split; [done|]. intros Hst.
  rewrite decide_True in Hn by done. destruct (filter_one _ _ Hn) as (p & rest & Hp & Hl & Hr).
  pose proof (λ now p failed, half_open_moves b now p failed (sys_inner s) Hst) as Hmove.
  exists p, rest. split_and!; [done|..].
  - intros now failed. specialize (Hmove now p failed). rewrite decide_True in Hmove by done. apply Hmove.
  - specialize (Hmove 0%Z p false). rewrite decide_True in Hmove by done. apply Hmove.
  - intros q Hq. rewrite Forall_forall in Hr. split; [intros now failed; specialize (Hmove now q failed)|
      specialize (Hmove 0%Z q false)]; rewrite decide_False in Hmove by auto; apply Hmove.
Qed.

(** Two requests on a breaker with threshold one: the first fails and opens it,
    and after the cooldown a third is the probe, the second still outstanding. *)
Definition probing_params : BreakerParams := mkBreakerParams 1 7.
Definition probing_sys : Sys :=
  mkSys (mkInner BreakerState.HalfOpen 1 (Some 10%Z) 2) 20 [mkPermit 2 true; mkPermit 0 false].

Lemma probing_reachable : reachable probing_params probing_sys.
Proof.
  exists 10%Z. assert (0 < u64_max ∧ 1 < u64_max)%Z as [H0 H1] by (unfold u64_max; lia).
  eapply rtc_l; [by eapply (step_admit _ breaker_new _ 10 [] (mkAdmission (mkPermit 0 false) None))|].
  eapply rtc_l; [by eapply (step_admit _ breaker_new _ 10 _ (mkAdmission (mkPermit 0 false) None))|].
  eapply rtc_l; [by eapply (step_record _ breaker_new _ 10 _ [mkPermit 0 false] (mkPermit 0 false) true)|].
  eapply rtc_l; [by apply (step_tick _ (mkInner BreakerState.Open 1 (Some 10%Z) 1) 10 20)|].
  eapply rtc_l; [|apply rtc_refl].
  by eapply (step_admit _ (mkInner BreakerState.Open 1 (Some 10%Z) 1) _ 20 _
    (mkAdmission (mkPermit 2 true) (Some BreakerTransition.ProbeStarted))).
Qed.

Lemma one_probe_at_a_time_witness :
  length (filter (live_probe (sys_inner probing_sys)) (held probing_sys)) = 1 ∧
  ∃ p rest, held probing_sys ≡ₚ p :: rest ∧ length rest = 1 ∧
    ∀ q, q ∈ rest → cancel q (sys_inner probing_sys) = sys_inner probing_sys.
Proof.
  destruct (one_probe_at_a_time probing_params probing_sys probing_reachable) as [Hn Hp]. split; [exact Hn|].
  destruct (Hp eq_refl) as (p & rest & Hr & _ & _ & Hq). exists p, rest. split_and!; [done| |intros q Hin; by apply Hq].
  apply Permutation_length in Hr. by injection Hr.
Defined.

(** Whatever the holder of the live probe does, the breaker leaves the
    half-open state: a success closes it and clears the failure count, a
    failure reopens it with a cooldown that starts now, and a cancelled probe
    reopens it with the old cooldown, so that the next admission probes
    again. *)
Theorem probe_settles b now p failed inner :
  state inner = BreakerState.HalfOpen → live_probe inner p →
  record b now p failed inner =
    (Some (if failed then BreakerTransition.Opened else BreakerTransition.Closed),
     if failed
     then mkInner BreakerState.Open (consecutive_failures inner) (Some now)
            (wrapping_add (generation inner) 1)
     else mkInner BreakerState.Closed 0 None (wrapping_add (generation inner) 1)) ∧
  cancel p inner =
    mkInner BreakerState.Open (consecutive_failures inner) (opened_at inner)
      (wrapping_add (generation inner) 1).
Proof.
  intros Hs [Hp Hg]. unfold record, cancel. rewrite Hp, Hg, Hs; simpl.
  rewrite !decide_False by congruence.
  rewrite decide_True by done. by destruct failed.
Qed.

Lemma probe_settles_witness :
  record (mkBreakerParams 1 1) 9 (mkPermit 3 true) false
    (mkInner BreakerState.HalfOpen 1 (Some 4%Z) 3) =
    (Some BreakerTransition.Closed, mkInner BreakerState.Closed 0 None 4).
Proof.
  apply (probe_settles (mkBreakerParams 1 1) 9 (mkPermit 3 true) false
           (mkInner BreakerState.HalfOpen 1 (Some 4%Z) 3)); [reflexivity|split; reflexivity].
Defined.

(** A permit from an earlier generation is inert: recording any outcome
    with it or cancelling it changes nothing and reports no transition, so a
    slow request cannot disturb the breaker after it moved on. *)
Theorem stale_permit_inert b now p failed inner :
  permit_generation p ≠ generation inner →
  record b now p failed inner = (None, inner) ∧ cancel p inner = inner.
Proof.
  intros Hne. unfold record, cancel. rewrite decide_True by done. split; [done|].
  destruct (probe p); simpl; [|done]. rewrite decide_False; [done|]. tauto.
Qed.

Lemma stale_permit_inert_witness :
  record (mkBreakerParams 1 1) 9 (mkPermit 2 true) true
    (mkInner BreakerState.HalfOpen 1 (Some 4%Z) 3) =
    (None, mkInner BreakerState.HalfOpen 1 (Some 4%Z) 3).
Proof.
  apply (stale_permit_inert (mkBreakerParams 1 1) 9 (mkPermit 2 true) true
           (mkInner BreakerState.HalfOpen 1 (Some 4%Z) 3)). discriminate.
Defined.

Lemma seconds_ceil_bounds d :
  (0 < d ≤ from_secs u64_max)%Z →
  (0 < seconds_ceil d ∧ from_secs (seconds_ceil d - 1) < d ≤ from_secs (seconds_ceil d))%Z.
Proof.
  unfold seconds_ceil, saturating_add, as_secs, subsec_nanos, from_secs, bool_to_Z.
  intros Hd. pose proof (Z.div_mod d nanos_per_sec ltac:(done)).
  pose proof (Z.mod_pos_bound d nanos_per_sec eq_refl).
  unfold nanos_per_sec in *. destruct (Z.ltb_spec 0 (d mod 1000000000)); lia.
Qed.

(** A breaker that is open and cooling down refuses with a delay of whole
    seconds that is positive, never shorter than the rest of the cooldown and
    longer by less than a second, and a caller that waits that long is
    admitted as the probe (when nobody moved the breaker in between). *)
Theorem retry_after_is_enough b s r inner' :
  reachable b s → (cooldown b ≤ from_secs u64_max)%Z →
  let inner := sys_inner s in
  state inner = BreakerState.Open → breaker_admit b (sys_now s) inner = (Err r, inner') →
  inner' = inner ∧ (0 < r)%Z ∧
  (∃ opened, opened_at inner = Some opened ∧
     let remaining := (cooldown b - duration_since (sys_now s) opened)%Z in
     (from_secs (r - 1) < remaining ≤ from_secs r)%Z) ∧
  ∀ now', (sys_now s + from_secs r ≤ now')%Z →
    ∃ inner'', breaker_admit b now' inner =
      (Ok (mkAdmission (mkPermit (wrapping_add (generation inner) 1) true)
             (Some BreakerTransition.ProbeStarted)), inner'') ∧
      state inner'' = BreakerState.HalfOpen.
Proof.
  intros Hreach Hcool inner Hs Ha. subst inner.
  destruct (reachable_inv _ _ Hreach) as [Hinv _ _ Hck].
  destruct s as [inner now ps]; simpl in *.
  pose proof (admit_err_inner _ _ _ _ _ Ha) as ->.
  destruct (opened_at inner) as [opened|] eqn:Hop;
    [|rewrite (proj1 (inv_opened _ _ Hinv) Hop) in Hs; done].
  specialize (Hck _ eq_refl). unfold breaker_admit in *. rewrite Hs, Hop in *.
  case_decide as Hlt; simplify_eq.
  destruct (seconds_ceil_bounds (cooldown b - duration_since now opened)) as [Hr Hb].
  { unfold duration_since in *. lia. }
  split_and!; [done|done|eauto|]. intros now' Hnow'. rewrite decide_True; [eauto|].
  unfold duration_since in *. lia.
Qed.

(** One failed request at time 10 opens a breaker whose threshold is one. *)
Definition tripped_params : BreakerParams := mkBreakerParams 1 (from_millis 1500).
Definition tripped_sys : Sys := mkSys (mkInner BreakerState.Open 1 (Some 10%Z) 1) 10 [].

Lemma tripped_reachable : reachable tripped_params tripped_sys.
Proof.
  exists 10%Z. eapply rtc_l.
  { eapply (step_admit _ breaker_new breaker_new 10 [] (mkAdmission (mkPermit 0 false) None));
      [reflexivity|unfold u64_max; simpl; lia]. }
  eapply rtc_l; [|apply rtc_refl].
  eapply (step_record _ breaker_new _ 10 _ [] (mkPermit 0 false) true);
    [reflexivity|reflexivity|unfold u64_max; simpl; lia].
Qed.

Lemma retry_after_is_enough_witness :
  ∃ inner'',
    breaker_admit tripped_params (10 + from_secs 2) (sys_inner tripped_sys) =
      (Ok (mkAdmission (mkPermit 2 true) (Some BreakerTransition.ProbeStarted)), inner'') ∧
    state inner'' = BreakerState.HalfOpen.
Proof.
  apply (retry_after_is_enough tripped_params tripped_sys 2 (sys_inner tripped_sys)).
  - exact tripped_reachable.
  - vm_compute. discriminate.
  - reflexivity.
  - reflexivity.
  - vm_compute. discriminate.
Defined.

(** The failure count of a well-formed breaker fits the machine word it is
    kept in, so its increment cannot overflow. *)
Theorem failures_never_overflow b now p failed inner t inner' :
  (1 ≤ failure_threshold b ≤ usize_max)%Z → breaker_inv b inner →
  record b now p failed inner = (t, inner') →
  (0 ≤ consecutive_failures inner' ≤ failure_threshold b ∧ failure_threshold b ≤ usize_max)%Z.
Proof.
  intros Ht Hinv Hr. pose proof (inv_failures _ _ (record_inv _ _ _ _ _ _ _ Hinv Hr)). lia.
Qed.

(** ** The failure streak that opens the breaker *)

(** [n] consecutive failures occur somewhere in [outcomes]. *)
Definition has_streak (n : nat) (outcomes : list bool) : Prop :=
  ∃ i, ∀ j, j < n → outcomes !! (i + j) = Some true.

Definition closed_at (b : BreakerParams) (k : nat) (inner : Inner) : Prop :=
  breaker_inv b inner ∧ state inner = BreakerState.Closed ∧
  consecutive_failures inner = Z.of_nat k.

Lemma serve_open b now failed inner :
  (0 < cooldown b)%Z → state inner = BreakerState.Open → opened_at inner = Some now →
  serve b now failed inner = inner.
Proof.
  intros Hc Hs Ho. unfold serve, breaker_admit. rewrite Hs, Ho.
  rewrite decide_False; [done|]. unfold duration_since. lia.
Qed.

Lemma serve_all_open b now outcomes inner :
  (0 < cooldown b)%Z → state inner = BreakerState.Open → opened_at inner = Some now →
  serve_all b now outcomes inner = inner.
Proof.
  intros. unfold serve_all. induction outcomes as [|o os IH]; [done|]. simpl.
  rewrite serve_open by done. apply IH.
Qed.

Lemma serve_closed b now (failed : bool) k inner :
  (1 ≤ failure_threshold b)%Z → closed_at b k inner →
  if failed then
    if decide (failure_threshold b ≤ Z.of_nat (S k))%Z
    then state (serve b now failed inner) = BreakerState.Open ∧
         opened_at (serve b now failed inner) = Some now
    else closed_at b (S k) (serve b now failed inner)
  else closed_at b 0 (serve b now failed inner).
Proof.
  intros Ht (Hinv & Hs & Hk). unfold serve. destruct (breaker_admit b now inner) as [r inner1] eqn:Ha.
  unfold breaker_admit in Ha. rewrite Hs in Ha. simplify_eq/=.
  destruct (record _ _ _ _ _) as [t inner2] eqn:Hr.
  pose proof (record_inv _ _ _ _ _ _ _ Hinv Hr) as Hinv2.
  unfold record in Hr. simpl in Hr. rewrite !decide_False in Hr by congruence.
  rewrite Hk in Hr. replace (Z.of_nat k + 1)%Z with (Z.of_nat (S k)) in Hr by lia.
  unfold closed_at. destruct failed; [case_decide|]; simplify_eq/=; auto.
Qed.

Lemma has_streak_app n k os :
  k < n → has_streak n (replicate k true ++ false :: os) ↔ has_streak n os.
Proof.
  intros Hk. split; intros [i Hi].
  - destruct (decide (i ≤ k)) as [Hle|Hgt].
    + specialize (Hi (k - i) ltac:(lia)). replace (i + (k - i)) with k in Hi by lia.
      rewrite lookup_app_r in Hi; rewrite length_replicate in *; [|lia].
      by rewrite Nat.sub_diag in Hi.
    + exists (i - k - 1). intros j Hj. specialize (Hi j Hj).
      rewrite lookup_app_r in Hi; rewrite length_replicate in *; [|lia].
      by replace (i + j - k) with (S (i - k - 1 + j)) in Hi by lia.
  - exists (k + 1 + i). intros j Hj. rewrite lookup_app_r; rewrite length_replicate; [|lia].
    replace (k + 1 + i + j - k) with (S (i + j)) by lia. simpl. auto.
Qed.

Lemma replicate_cons_app k (os : list bool) :
  replicate k true ++ true :: os = replicate (S k) true ++ os.
Proof. by rewrite replicate_S_end, <- app_assoc. Qed.

Lemma serve_all_closed b now n k outcomes inner :
  (0 < cooldown b)%Z → failure_threshold b = Z.of_nat n → k < n → closed_at b k inner →
  let s := state (serve_all b now outcomes inner) in
  (s = BreakerState.Open ∧ has_streak n (replicate k true ++ outcomes)) ∨
  (s = BreakerState.Closed ∧ ¬ has_streak n (replicate k true ++ outcomes)).
Proof.
  intros Hc Ht. revert k inner. induction outcomes as [|failed os IH]; intros k inner Hk Hat; simpl.
  - right. split; [apply Hat|]. intros [i Hi]. specialize (Hi k Hk).
    apply lookup_lt_Some in Hi. rewrite app_nil_r, length_replicate in Hi. lia.
  - pose proof (serve_closed b now failed k inner ltac:(lia) Hat) as Hserve.
    fold (serve_all b now os (serve b now failed inner)). destruct failed.
    + rewrite replicate_cons_app. case_decide as Hn.
      * destruct Hserve as [Hs Ho]. rewrite serve_all_open by done. left. split; [done|].
        exists 0. intros j Hj. rewrite lookup_app_l by (rewrite length_replicate; lia).
        apply lookup_replicate_2. lia.
      * apply IH; [lia|done].
    + rewrite has_streak_app by done. apply (IH 0); [lia|done].
Qed.

(** C39. Serving requests on a fresh breaker opens it exactly when
    [failure_threshold] consecutive requests failed at some point; otherwise
    it stays closed (a success in between resets the count). *)
Theorem opens_on_consecutive_failures b now n outcomes :
  (0 < cooldown b)%Z → failure_threshold b = Z.of_nat n → 0 < n →
  (state (serve_all b now outcomes breaker_new) = BreakerState.Open ↔ has_streak n outcomes) ∧
  (state (serve_all b now outcomes breaker_new) = BreakerState.Closed ↔ ¬ has_streak n outcomes).
Proof.
  intros Hc Ht Hn. pose proof (serve_all_closed b now n 0 outcomes breaker_new Hc Ht Hn) as H.
  simpl in H. destruct H as [[-> Hs]|[-> Hs]]; [|by split..].
  split; [by auto with srh|done].
Qed.

Lemma opens_on_consecutive_failures_witness :
  state (serve_all (mkBreakerParams 2 5) 0 [true; false; true; true] breaker_new) =
    BreakerState.Open.
Proof.
  apply (opens_on_consecutive_failures (mkBreakerParams 2 5) 0 2
           [true; false; true; true]); [done|done|lia|].
  exists 2. intros [|[|j]] Hj; [reflexivity|reflexivity|lia].
Defined.
