(* ===== verification/RateLimit.v ===== *)
(** * The rate limiter of [src/src/domain/rate_limit.rs]

    A debt-aware token bucket per credential with a recency index.  All the
    state is behind one mutex, so an operation is a function on
    [LimiterState]; the clock reading is the argument [now].  A [BTreeMap] is a
    [gmap] whose first entry is found by [first_key_value]; the iteration
    order of the [HashMap], which the code does not control, is an argument of
    [sweep_idle]. *)
From S2P Require Import Prelude F64.

(** ** Data *)

Definition MAX_BUCKETS : Z := 100000.
Definition IDLE_EVICTION : Z := from_secs 900.

Record RateLimitExceeded : Type := mkExceeded { retry_after_secs : Z }.

Record Bucket : Type := mkBucket {
  balance : f64;
  updated : Z;
  last_access : Z;
  order : Z;
  key : string;
  indebted : bool;
}.

Record Lru : Type := mkLru {
  credit : gmap Z string;
  debt : gmap Z string;
  next_order : Z;
}.

Record Buckets : Type := mkBuckets {
  entries : gmap string Bucket;
  lru : Lru;
}.

Module Access.
Inductive Access : Type := Probe | Charge (command_count : Z).
End Access.
Abbreviation Access := Access.Access.

(** The immutable fields of [RateLimiter]. *)
Record RateLimiter : Type := mkRateLimiter {
  rate : Z;
  capacity : f64;
  max_buckets : Z;
}.

(** The mutable ones: the buckets and the atomic counter. *)
Record LimiterState : Type := mkLimiterState {
  buckets : Buckets;
  debt_forgiven_evictions : Z;
}.

(** ** Operations *)

Definition with_max_buckets (r max : Z) : RateLimiter :=
  mkRateLimiter r (f64_of_Z (saturating_mul r 2)) (Z.max max 1).
Definition limiter_new (r : Z) : RateLimiter := with_max_buckets r MAX_BUCKETS.
Definition limiter_init : LimiterState := mkLimiterState (mkBuckets ∅ (mkLru ∅ ∅ 0)) 0.

(** [Lru::unlink]. *)
Definition unlink (b : Bucket) (l : Lru) : Lru :=
  if indebted b
  then mkLru (credit l) (delete (order b) (debt l)) (next_order l)
  else mkLru (delete (order b) (credit l)) (debt l) (next_order l).

(** [Lru::link]: the bucket gets the next access number and goes into the
    index its balance names. *)
Definition link (b : Bucket) (l : Lru) : Bucket * Lru :=
  let b' := mkBucket (balance b) (updated b) (last_access b) (next_order l) (key b)
              (f64_lt (balance b) f64_zero) in
  let n := wrapping_add (next_order l) 1 in
  (b', if indebted b'
       then mkLru (credit l) (<[order b' := key b']> (debt l)) n
       else mkLru (<[order b' := key b']> (credit l)) (debt l) n).

Definition refill (b : Bucket) (now r : Z) (cap : f64) : Bucket :=
  let elapsed := as_secs_f64 (duration_since now (updated b)) in
  mkBucket (f64_min (f64_add (balance b) (f64_mul elapsed (f64_of_Z r))) cap) now
    (last_access b) (order b) (key b) (indebted b).

Definition exceeded (rl : RateLimiter) (bal : f64) : RateLimitExceeded :=
  let deficit := f64_max (f64_neg bal) f64_zero in
  mkExceeded (f64_as_u64 (f64_max (f64_ceil (f64_div deficit (f64_of_Z (rate rl)))) f64_one)).

Definition settle (rl : RateLimiter) (b : Bucket) (a : Access) :
    result unit RateLimitExceeded * Bucket :=
  if f64_le (balance b) f64_zero then (Err (exceeded rl (balance b)), b)
  else
    match a with
    | Access.Charge n =>
        (Ok tt, mkBucket (f64_sub (balance b) (f64_of_Z (Z.max n 1))) (updated b)
                  (last_access b) (order b) (key b) (indebted b))
    | Access.Probe => (Ok tt, b)
    end.

(** The least-recently used credit bucket goes first; only when every bucket
    is indebted is the oldest debt forgiven. *)
Definition evict_one (es : gmap string Bucket) (l : Lru) : bool * gmap string Bucket * Lru :=
  let '(candidate, forgave_debt, l') :=
    match pop_first (≤)%Z (credit l) with
    | (Some c, credit') => (Some c, false, mkLru credit' (debt l) (next_order l))
    | (None, _) =>
        let '(c, debt') := pop_first (≤)%Z (debt l) in
        (c, true, mkLru (credit l) debt' (next_order l))
    end in
  match candidate with
  | Some (_, k) => (forgave_debt, delete k es, l')
  | None => (false, es, l')
  end.

(** [RateLimiter::access]. *)
Definition access (rl : RateLimiter) (now : Z) (k : string) (a : Access) (st : LimiterState) :
    result unit RateLimitExceeded * LimiterState :=
  if decide (rate rl = 0)%Z then (Ok tt, st)
  else
    let es := entries (buckets st) in
    let l := lru (buckets st) in
    match es !! k with
    | Some b =>
        let l1 := unlink b l in
        let b1 := refill b now (rate rl) (capacity rl) in
        let b2 := mkBucket (balance b1) (updated b1) now (order b1) (key b1) (indebted b1) in
        let '(r, b3) := settle rl b2 a in
        let '(b4, l2) := link b3 l1 in
        (r, mkLimiterState (mkBuckets (<[k := b4]> es) l2) (debt_forgiven_evictions st))
    | None =>
        let '(forgave, es1, l1) :=
          if decide (max_buckets rl ≤ Z.of_nat (size es))%Z then evict_one es l
          else (false, es, l) in
        let forgiven :=
          if forgave then wrapping_add (debt_forgiven_evictions st) 1
          else debt_forgiven_evictions st in
        let b0 := mkBucket (capacity rl) now now 0 k false in
        let '(r, b1) := settle rl b0 a in
        let '(b2, l2) := link b1 l1 in
        (r, mkLimiterState (mkBuckets (<[k := b2]> es1) l2) forgiven)
    end.

Definition limiter_probe (rl : RateLimiter) (now : Z) (k : string) :=
  access rl now k Access.Probe.
Definition limiter_charge (rl : RateLimiter) (now : Z) (k : string) (command_count : Z) :=
  access rl now k (Access.Charge command_count).

(** One turn of the scan of [sweep_idle]. *)
Definition sweep_one (rl : RateLimiter) (now : Z)
    (acc : gmap string Bucket * Lru * list string) (k : string) :
    gmap string Bucket * Lru * list string :=
  let '(es, l, idle) := acc in
  match es !! k with
  | None => acc
  | Some b =>
      let b1 := refill b now (rate rl) (capacity rl) in
      let '(b2, l') :=
        if indebted b1 && f64_le f64_zero (balance b1)
        then (mkBucket (balance b1) (updated b1) (last_access b1) (order b1) (key b1) false,
              mkLru (<[order b1 := k]> (credit l)) (delete (order b1) (debt l)) (next_order l))
        else (b1, l) in
      let idle' :=
        if f64_le f64_zero (balance b2) &&
           bool_decide (IDLE_EVICTION ≤ duration_since now (last_access b2))%Z
        then idle ++ [k] else idle in
      (<[k := b2]> es, l', idle')
  end.

(** Removal of one idle key. *)
Definition sweep_remove (acc : gmap string Bucket * Lru) (k : string) :
    gmap string Bucket * Lru :=
  let '(es, l) := acc in
  match es !! k with
  | Some b => (delete k es, unlink b l)
  | None => acc
  end.

(** [RateLimiter::sweep_idle]; [ks] is the order in which the hash map yields
    its keys. *)
Definition sweep_idle (rl : RateLimiter) (now : Z) (ks : list string) (st : LimiterState) :
    Z * LimiterState :=
  if decide (rate rl = 0)%Z then (0%Z, st)
  else
    let '(es, l, idle) :=
      foldl (sweep_one rl now) (entries (buckets st), lru (buckets st), []) ks in
    let '(es', l') := foldl sweep_remove (es, l) idle in
    (Z.of_nat (length idle),
     mkLimiterState (mkBuckets es' l') (debt_forgiven_evictions st)).

(** [RateLimiter::bucket_count]. *)
Definition bucket_count (st : LimiterState) : Z := Z.of_nat (size (entries (buckets st))).

(** [take_debt_forgiven_evictions]. *)
Definition take_debt_forgiven_evictions (st : LimiterState) : Z * LimiterState :=
  (debt_forgiven_evictions st, mkLimiterState (buckets st) 0).

(** ** The recency index *)

Definition index (d : bool) (l : Lru) : gmap Z string := if d then debt l else credit l.

(** Every retained bucket is in the index its recorded state names, under its
    own access number, and the indexes hold nothing else. *)
Record indexed (es : gmap string Bucket) (l : Lru) : Prop := {
  ix_entry : ∀ k b, es !! k = Some b → key b = k ∧ index (indebted b) l !! order b = Some k;
  ix_index : ∀ d o k, index d l !! o = Some k →
    (o < next_order l)%Z ∧ ∃ b, es !! k = Some b ∧ order b = o ∧ indebted b = d;
  ix_inj : ∀ k k' b b', es !! k = Some b → es !! k' = Some b' → order b = order b' → k = k';
  ix_next : (0 ≤ next_order l ≤ u64_max)%Z;
}.

Lemma index_unlink d b l :
  index d (unlink b l) =
    if decide (d = indebted b) then delete (order b) (index d l) else index d l.
Proof. unfold unlink, index. by destruct d, (indebted b). Qed.

Lemma unlink_next b l : next_order (unlink b l) = next_order l.
Proof. unfold unlink. by case_match. Qed.

Lemma index_link d b l :
  index d (link b l).2 =
    if decide (d = f64_lt (balance b) f64_zero)
    then <[next_order l := key b]> (index d l) else index d l.
Proof. unfold link, index. simpl. by destruct d, (f64_lt (balance b) f64_zero). Qed.

Lemma link_next b l : next_order (link b l).2 = wrapping_add (next_order l) 1.
Proof. unfold link. simpl. by case_match. Qed.

Lemma wrapping_add_succ n :
  (0 ≤ n < u64_max)%Z → wrapping_add n 1 = (n + 1)%Z.
Proof. unfold wrapping_add, u64_max. intros. apply Z.mod_small. lia. Qed.

(** Access numbers in use are below the next one. *)
Lemma indexed_order es l k b : indexed es l → es !! k = Some b → (order b < next_order l)%Z.
Proof.
  intros Hix Hk. destruct (ix_entry _ _ Hix _ _ Hk) as [_ Hin].
  by destruct (ix_index _ _ Hix _ _ _ Hin).
Qed.

Lemma indexed_remove es l k b :
  indexed es l → es !! k = Some b → indexed (delete k es) (unlink b l).
Proof.
  intros Hix Hk. split.
  - intros k' b' [Hne Hk']%lookup_delete_Some.
    destruct (ix_entry _ _ Hix _ _ Hk') as [Hkey Hin]. split; [done|].
    rewrite index_unlink. case_decide as Hd; [|done].
    rewrite lookup_delete_ne; [done|]. intros Ho.
    apply Hne. by eapply (ix_inj _ _ Hix).
  - intros d o k'. rewrite index_unlink, unlink_next. intros Hin.
    destruct (ix_entry _ _ Hix _ _ Hk) as [_ Hkin].
    assert (index d l !! o = Some k' ∧ (d = indebted b → o ≠ order b)) as [Hin' Hne].
    { case_decide; [apply lookup_delete_Some in Hin as []|]; naive_solver. }
    destruct (ix_index _ _ Hix _ _ _ Hin') as (Hlt & b' & Hb' & Ho' & Hd').
    split; [done|]. exists b'. split_and!; [|done|done].
    rewrite lookup_delete_ne; [done|]. intros <-. naive_solver.
  - intros k1 k2 b1 b2 [_ H1]%lookup_delete_Some [_ H2]%lookup_delete_Some.
    by apply (ix_inj _ _ Hix).
  - rewrite unlink_next. apply Hix.
Qed.

Lemma indexed_add es l k b :
  indexed es l → es !! k = None → key b = k → (next_order l < u64_max)%Z →
  indexed (<[k := (link b l).1]> es) (link b l).2.
Proof.
  intros Hix Hk Hkey Hlt. pose proof (ix_next _ _ Hix) as Hn. split.
  - intros k' b' [[<- <-]|[Hne Hk']]%lookup_insert_Some.
    + split; [done|]. rewrite index_link. simpl. rewrite decide_True by done.
      rewrite Hkey. apply lookup_insert_eq.
    + destruct (ix_entry _ _ Hix _ _ Hk') as [Hkey' Hin]. split; [done|].
      rewrite index_link. case_decide; [|done].
      destruct (ix_index _ _ Hix _ _ _ Hin) as [Ho _].
      rewrite lookup_insert_ne by lia. done.
  - intros d o k'. rewrite index_link, link_next, wrapping_add_succ by lia. intros Hin.
    assert ((o = next_order l ∧ k' = k ∧ d = f64_lt (balance b) f64_zero) ∨
            index d l !! o = Some k') as [(-> & -> & ->)|Hin'].
    { case_decide; [apply lookup_insert_Some in Hin|]; naive_solver. }
    + split; [lia|]. eexists. rewrite lookup_insert_eq. split_and!; done.
    + destruct (ix_index _ _ Hix _ _ _ Hin') as (Ho & b' & Hb' & ? & ?).
      split; [lia|]. exists b'. rewrite lookup_insert_ne by congruence. done.
  - intros k1 k2 b1 b2 H1 H2 Ho.
    apply lookup_insert_Some in H1 as [[<- <-]|[Hne1 H1]];
      apply lookup_insert_Some in H2 as [[<- <-]|[Hne2 H2]]; simpl in *; [done| | |].
    + pose proof (indexed_order _ _ _ _ Hix H2). lia.
    + pose proof (indexed_order _ _ _ _ Hix H1). lia.
    + by eapply (ix_inj _ _ Hix).
  - rewrite link_next, wrapping_add_succ; lia.
Qed.

Lemma replace_inj es l k b b' :
  indexed es l → es !! k = Some b → order b' = order b →
  ∀ k1 k2 b1 b2, <[k := b']> es !! k1 = Some b1 → <[k := b']> es !! k2 = Some b2 →
    order b1 = order b2 → k1 = k2.
Proof.
  intros Hix Hk Ho k1 k2 b1 b2 H1 H2 Heq.
  apply lookup_insert_Some in H1 as [[<- <-]|[Hne1 H1]];
    apply lookup_insert_Some in H2 as [[<- <-]|[Hne2 H2]]; simpl in *; [done| | |];
    eapply (ix_inj _ _ Hix); eauto; congruence.
Qed.

(** Replacing a bucket by one that keeps its place. *)
Lemma indexed_replace es l k b b' :
  indexed es l → es !! k = Some b →
  key b' = k → order b' = order b → indebted b' = indebted b →
  indexed (<[k := b']> es) l.
Proof.
  intros Hix Hk Hkey Ho Hd. split; [| |by eapply replace_inj|apply Hix].
  - intros k' b'' [[<- <-]|[Hne Hk']]%lookup_insert_Some.
    + rewrite Ho, Hd. split; [done|]. by apply (ix_entry _ _ Hix).
    + by apply (ix_entry _ _ Hix).
  - intros d o k' Hin. destruct (ix_index _ _ Hix _ _ _ Hin) as (Hlt & b'' & Hb'' & Ho'' & Hd'').
    split; [done|]. destruct (decide (k = k')) as [<-|].
    + exists b'. rewrite lookup_insert_eq. simplify_eq. done.
    + exists b''. by rewrite lookup_insert_ne.
Qed.

(** Moving an indebted bucket to the credit index. *)
Lemma indexed_forgive es l k b b' :
  indexed es l → es !! k = Some b → indebted b = true →
  key b' = k → order b' = order b → indebted b' = false →
  indexed (<[k := b']> es)
    (mkLru (<[order b := k]> (credit l)) (delete (order b) (debt l)) (next_order l)).
Proof.
  intros Hix Hk Hdebt Hkey Ho Hd. destruct (ix_entry _ _ Hix _ _ Hk) as [_ Hin].
  rewrite Hdebt in Hin. destruct (ix_index _ _ Hix _ _ _ Hin) as [Hlt _].
  split; [| |by eapply replace_inj|apply Hix].
  - intros k' b'' [[<- <-]|[Hne Hk']]%lookup_insert_Some.
    + rewrite Ho, Hd. split; [done|]. apply lookup_insert_eq.
    + destruct (ix_entry _ _ Hix _ _ Hk') as [Hkey' Hin']. split; [done|].
      assert (order b ≠ order b'') by (intros Heq; apply Hne; by eapply (ix_inj _ _ Hix)).
      destruct (indebted b''); simpl in *; [by rewrite lookup_delete_ne|].
      by rewrite lookup_insert_ne.
  - intros d o k' Hin'.
    assert ((d = false ∧ o = order b ∧ k' = k) ∨ (index d l !! o = Some k' ∧ (d = true → o ≠ order b)))
      as [(-> & -> & ->)|[Hold Hne]].
    { destruct d; simpl in Hin'; [apply lookup_delete_Some in Hin'|apply lookup_insert_Some in Hin'];
        naive_solver. }
    + split; [done|]. exists b'. rewrite lookup_insert_eq. done.
    + destruct (ix_index _ _ Hix _ _ _ Hold) as (Hlt' & b'' & Hb'' & Ho'' & Hd'').
      split; [done|]. exists b''. rewrite lookup_insert_ne; [done|].
      intros <-. simplify_eq. naive_solver.
Qed.

(** ** Well-formed limiter states *)

(** What [RateLimiter::new] establishes about the parameters. *)
Record params_ok (rl : RateLimiter) : Prop := {
  ok_finite : is_finite (capacity rl) = true;
  ok_nonneg : f64_nonneg (capacity rl);
  ok_max : (1 ≤ max_buckets rl)%Z;
  ok_rate : in_u64 (rate rl);
}.

Lemma with_max_buckets_ok r m : in_u64 r → params_ok (with_max_buckets r m).
Proof.
  intros Hr. unfold in_u64 in Hr. split; simpl; [| |lia|done].
  - apply f64_of_Z_finite. unfold saturating_mul, in_u64. lia.
  - apply f64_of_Z_nonneg. unfold saturating_mul, u64_max. lia.
Qed.

(** Balances are numbers and the recorded side of the index is their sign. *)
Definition bucket_ok (b : Bucket) : Prop :=
  is_nan (balance b) = false ∧ indebted b = f64_lt (balance b) f64_zero.

Record limiter_wf (rl : RateLimiter) (st : LimiterState) : Prop := {
  wf_indexed : indexed (entries (buckets st)) (lru (buckets st));
  wf_buckets : map_Forall (λ _, bucket_ok) (entries (buckets st));
  wf_size : (Z.of_nat (size (entries (buckets st))) ≤ max_buckets rl)%Z;
}.

Lemma limiter_init_wf rl : params_ok rl → limiter_wf rl limiter_init.
Proof.
  intros Hok. split; simpl.
  - split; simpl; [|intros []; simpl| |unfold u64_max; lia];
      intros; by rewrite ?lookup_empty in *.
  - apply map_Forall_empty.
  - rewrite map_size_empty. pose proof (ok_max _ Hok). lia.
Qed.

Lemma finite_not_nan x : is_finite x = true → is_nan x = false.
Proof. by destruct x. Qed.

(** Every balance the limiter decides on is a number at most the capacity. *)
Lemma refill_balance rl b now :
  params_ok rl →
  let bal := balance (refill b now (rate rl) (capacity rl)) in
  is_nan bal = false ∧ f64_le bal (capacity rl) = true.
Proof.
  intros Hok. pose proof (finite_not_nan _ (ok_finite _ Hok)). simpl.
  split; [by apply f64_min_not_nan|by apply f64_min_le_r].
Qed.

(** Refilling never creates debt. *)
Lemma refill_nonneg rl b now :
  params_ok rl → f64_nonneg (balance b) →
  f64_nonneg (balance (refill b now (rate rl) (capacity rl))).
Proof.
  intros Hok Hb. unfold refill, duration_since. simpl.
  pose proof (ok_rate _ Hok) as [Hr _].
  apply f64_min_nonneg; [|apply Hok]. apply f64_add_nonneg; [done|].
  apply f64_mul_nonneg; [apply as_secs_f64_nonneg; lia|by apply f64_of_Z_nonneg].
Qed.

Definition access_in_range (a : Access) : Prop :=
  match a with Access.Charge n => in_u64 n | Access.Probe => True end.

(** The balance [settle] leaves behind. *)
Definition settled (seen : f64) (a : Access) : f64 :=
  if f64_le seen f64_zero then seen
  else match a with
       | Access.Charge n => f64_sub seen (f64_of_Z (Z.max n 1))
       | Access.Probe => seen
       end.

Lemma settle_spec rl b a :
  settle rl b a =
    (if f64_le (balance b) f64_zero then Err (exceeded rl (balance b)) else Ok tt,
     mkBucket (settled (balance b) a) (updated b) (last_access b) (order b) (key b) (indebted b)).
Proof. unfold settle, settled. destruct b; simpl. by destruct (f64_le _ _), a. Qed.

Lemma settle_retry rl b a e b' :
  settle rl b a = (Err e, b') → (1 ≤ retry_after_secs e)%Z.
Proof.
  rewrite settle_spec. destruct (f64_le (balance b) f64_zero); [|done].
  intros [= <- _]. apply ceil_max_one.
Qed.

Lemma settled_not_nan rl seen a :
  params_ok rl → access_in_range a → is_nan seen = false → f64_le seen (capacity rl) = true →
  is_nan (settled seen a) = false.
Proof.
  intros Hok Ha Hnan Hle. unfold settled. destruct (f64_le seen f64_zero) eqn:Hz; [done|].
  destruct a as [|n]; [done|]. apply f64_sub_not_nan.
  - eapply f64_positive_finite; [apply Hok|done..].
  - apply f64_of_Z_finite. simpl in Ha. unfold in_u64, u64_max in *. lia.
Qed.

Lemma link_bucket_ok b l : is_nan (balance b) = false → bucket_ok (link b l).1.
Proof. done. Qed.

(** What eviction removes: the least recently used bucket without debt, or,
    when every bucket is in debt, the least recently used one. *)
Record victim (es : gmap string Bucket) (k : string) (b : Bucket) : Prop := {
  victim_in : es !! k = Some b;
  victim_oldest : ∀ k' b', es !! k' = Some b' → indebted b' = indebted b →
    (order b ≤ order b')%Z;
  victim_debt : indebted b = true → map_Forall (λ _ b', indebted b' = true) es;
}.

Lemma evict_one_spec es l :
  indexed es l → es ≠ ∅ →
  ∃ k b, victim es k b ∧ evict_one es l = (indebted b, delete k es, unlink b l).
Proof.
  intros Hix Hne. unfold evict_one, pop_first.
  destruct (first_key_value (≤)%Z (credit l)) as [[o k]|] eqn:Hc; simpl.
  - destruct (first_key_value_Some (≤)%Z _ _ _ Hc) as [Hin Hmin].
    destruct (ix_index _ _ Hix false o k Hin) as (_ & b & Hb & <- & Hd).
    exists k, b. split; [|unfold unlink; by rewrite Hd].
    split; [done| |by rewrite Hd]. intros k' b' Hb' Hd'.
    destruct (ix_entry _ _ Hix _ _ Hb') as [_ Hin']. rewrite Hd', Hd in Hin'.
    by eapply Hmin.
  - apply first_key_value_None in Hc.
    assert (map_Forall (λ _ b', indebted b' = true) es) as Hall.
    { intros k b Hb. destruct (ix_entry _ _ Hix _ _ Hb) as [_ Hin].
      destruct (indebted b); [done|]. simpl in Hin. by rewrite Hc, lookup_empty in Hin. }
    destruct (first_key_value (≤)%Z (debt l)) as [[o k]|] eqn:Hd; simpl.
    + destruct (first_key_value_Some (≤)%Z _ _ _ Hd) as [Hin Hmin].
      destruct (ix_index _ _ Hix true o k Hin) as (_ & b & Hb & <- & Hdb).
      exists k, b. split; [|unfold unlink; by rewrite Hdb].
      split; [done| |done]. intros k' b' Hb' _.
      destruct (ix_entry _ _ Hix _ _ Hb') as [_ Hin']. rewrite (Hall _ _ Hb') in Hin'.
      by eapply Hmin.
    + apply first_key_value_None in Hd. exfalso.
      apply map_choose in Hne as (k & b & Hb).
      destruct (ix_entry _ _ Hix _ _ Hb) as [_ Hin]. rewrite (Hall _ _ Hb) in Hin.
      simpl in Hin. by rewrite Hd, lookup_empty in Hin.
Qed.

(** ** An access in one equation *)

(** The balance an access decides on: the refilled one, or a full bucket for a
    credential without one. *)
Definition seen_balance (rl : RateLimiter) (now : Z) (k : string) (st : LimiterState) : f64 :=
  match entries (buckets st) !! k with
  | Some b => balance (refill b now (rate rl) (capacity rl))
  | None => capacity rl
  end.

(** The buckets and the index in which the accessed bucket is (re-)linked. *)
Definition room (rl : RateLimiter) (k : string) (st : LimiterState) :
    bool * gmap string Bucket * Lru :=
  let es := entries (buckets st) in
  let l := lru (buckets st) in
  match es !! k with
  | Some b => (false, delete k es, unlink b l)
  | None =>
      if decide (max_buckets rl ≤ Z.of_nat (size es))%Z then evict_one es l else (false, es, l)
  end.

Lemma access_unfold rl now k a st :
  rate rl ≠ 0%Z → indexed (entries (buckets st)) (lru (buckets st)) →
  let seen := seen_balance rl now k st in
  let '(forgave, es, l) := room rl k st in
  ∃ b, key b = k ∧ balance b = settled seen a ∧ updated b = now ∧ last_access b = now ∧
    access rl now k a st =
      (if f64_le seen f64_zero then Err (exceeded rl seen) else Ok tt,
       mkLimiterState (mkBuckets (<[k := (link b l).1]> es) (link b l).2)
         (if forgave then wrapping_add (debt_forgiven_evictions st) 1
          else debt_forgiven_evictions st)).
Proof.
  intros Hr Hix. unfold access, room, seen_balance. rewrite (decide_False _ _ Hr).
  destruct (entries (buckets st) !! k) as [b|] eqn:Hb.
  - destruct (ix_entry _ _ Hix _ _ Hb) as [Hkey _]. rewrite settle_spec.
    eexists (mkBucket _ now now (order b) k (indebted b)).
    rewrite insert_delete_eq. split_and!; [done..|]. simpl. by rewrite Hkey.
  - destruct (if decide _ then _ else _) as [[forgave es] l]. rewrite settle_spec.
    eexists (mkBucket _ now now 0 k false). split_and!; [done..|]. done.
Qed.

(** What making room changes. *)
Record room_ok (rl : RateLimiter) (k : string) (st : LimiterState)
    (forgave : bool) (es : gmap string Bucket) (l : Lru) : Prop := {
  room_indexed : indexed es l;
  room_absent : es !! k = None;
  room_size : (Z.of_nat (size es) < max_buckets rl)%Z;
  room_next : next_order l = next_order (lru (buckets st));
  room_others : ∀ k', k' ≠ k →
    es !! k' = entries (buckets st) !! k' ∨
    (entries (buckets st) !! k = None ∧
     (max_buckets rl ≤ bucket_count st)%Z ∧ es !! k' = None ∧
     ∃ b, victim (entries (buckets st)) k' b ∧ indebted b = forgave);
  room_forgave : forgave = true →
    entries (buckets st) !! k = None ∧ (max_buckets rl ≤ bucket_count st)%Z ∧
    map_Forall (λ _ b, indebted b = true) (entries (buckets st));
}.

Lemma room_spec rl k st :
  params_ok rl → limiter_wf rl st →
  let '(forgave, es, l) := room rl k st in room_ok rl k st forgave es l.
Proof.
  intros Hok [Hix Hbs Hsize]. unfold room.
  destruct (entries (buckets st) !! k) as [b|] eqn:Hb.
  - split; [by apply indexed_remove|apply lookup_delete_eq| |apply unlink_next| |done].
    + assert (size (entries (buckets st)) ≠ 0).
      { intros Hz%map_size_empty_iff. by rewrite Hz, lookup_empty in Hb. }
      rewrite map_size_delete_Some by eauto. lia.
    + intros k' Hne. left. by apply lookup_delete_ne.
  - case_decide as Hfull.
    + destruct (evict_one_spec _ _ Hix) as (kv & bv & Hv & ->).
      { intros Hz. rewrite Hz, map_size_empty in Hfull. pose proof (ok_max _ Hok). lia. }
      pose proof (victim_in _ _ _ Hv) as Hin.
      split; [by apply indexed_remove| | |apply unlink_next| |].
      * rewrite lookup_delete_ne; [done|]. intros ->. congruence.
      * assert (size (entries (buckets st)) ≠ 0).
        { intros Hz%map_size_empty_iff. by rewrite Hz, lookup_empty in Hin. }
        rewrite map_size_delete_Some by eauto. lia.
      * intros k' Hne. destruct (decide (kv = k')) as [<-|]; [right|left; by apply lookup_delete_ne].
        split_and!; [done|done|apply lookup_delete_eq|eauto].
      * intros Hd. split_and!; [done|done|by eapply victim_debt].
    + split; [done|done|lia|done|by left|done].
Qed.

Lemma f64_le_refl x : is_nan x = false → f64_le x x = true.
Proof.
  intros Hx. pose proof (f64_min_le_r x x Hx) as Hm. unfold f64_min in Hm. rewrite Hx in Hm.
  destruct (f64_le x x) eqn:Hxx; [done|]. by rewrite Hxx in Hm.
Qed.

Lemma seen_balance_ok rl now k st :
  params_ok rl →
  is_nan (seen_balance rl now k st) = false ∧
  f64_le (seen_balance rl now k st) (capacity rl) = true.
Proof.
  intros Hok. unfold seen_balance.
  destruct (entries (buckets st) !! k) as [b|]; [by apply refill_balance|].
  pose proof (finite_not_nan _ (ok_finite _ Hok)) as Hc. split; [done|by apply f64_le_refl].
Qed.

(** Every access keeps a limiter state well-formed (below 2^64 accesses). *)
Lemma access_wf rl now k a st r st' :
  params_ok rl → limiter_wf rl st → access_in_range a →
  (next_order (lru (buckets st)) < u64_max)%Z →
  access rl now k a st = (r, st') → limiter_wf rl st'.
Proof.
  intros Hok Hwf Ha Hn Hacc.
  destruct (decide (rate rl = 0)%Z) as [Hz|Hr].
  { unfold access in Hacc. rewrite decide_True in Hacc by done. by simplify_eq. }
  pose proof (access_unfold rl now k a st Hr (wf_indexed _ _ Hwf)) as Hun.
  pose proof (room_spec rl k st Hok Hwf) as Hroom.
  destruct (seen_balance_ok rl now k st Hok) as [Hnan Hle].
  destruct (room rl k st) as [[forgave es] l].
  destruct Hun as (b & Hkey & Hbal & _ & _ & Heq). rewrite Heq in Hacc. simplify_eq.
  destruct Hroom as [Hix Habs Hsize Hnext Hoth _]. split; simpl.
  - apply indexed_add; [done|done|done|lia].
  - apply map_Forall_insert; [done|]. split.
    + apply link_bucket_ok. rewrite Hbal. by eapply settled_not_nan.
    + intros k' b' Hb'. destruct (decide (k' = key b)) as [->|Hne]; [congruence|].
      destruct (Hoth k' Hne) as [Ho|(_ & _ & Ho & _)]; [|congruence].
      eapply (wf_buckets _ _ Hwf). by rewrite <- Ho.
  - rewrite map_size_insert_None by done. lia.
Qed.

(** ** The idle sweep *)

(** A bucket after the scan looked at it. *)
Definition swept (rl : RateLimiter) (now : Z) (b : Bucket) : Bucket :=
  let b1 := refill b now (rate rl) (capacity rl) in
  mkBucket (balance b1) now (last_access b) (order b) (key b)
    (indebted b && negb (f64_le f64_zero (balance b1))).

Definition is_idle (now : Z) (b : Bucket) : bool :=
  f64_le f64_zero (balance b) && bool_decide (IDLE_EVICTION ≤ duration_since now (last_access b))%Z.

Lemma sweep_one_spec rl now es l idle k b :
  indexed es l → es !! k = Some b →
  ∃ l', sweep_one rl now (es, l, idle) k =
          (<[k := swept rl now b]> es, l',
           if is_idle now (swept rl now b) then idle ++ [k] else idle) ∧
        indexed (<[k := swept rl now b]> es) l' ∧ next_order l' = next_order l.
Proof.
  intros Hix Hb. destruct (ix_entry _ _ Hix _ _ Hb) as [Hkey _].
  unfold sweep_one, is_idle, swept. rewrite Hb.
  destruct b as [bal u la o k' d]. unfold refill. simpl in *. subst k'.
  set (bal' := f64_min _ _) in *.
  destruct d, (f64_le f64_zero bal') eqn:Hle; cbn [andb negb balance last_access];
    rewrite ?Hle; eexists; (split; [reflexivity|]); split; try done.
  1: by apply (indexed_forgive es l k (mkBucket bal u la o k true)).
  all: by eapply (indexed_replace es l k); [done|done|..].
Qed.

(** Whether the scan marks key [k] of [es] for removal. *)
Definition idle_key (rl : RateLimiter) (now : Z) (es : gmap string Bucket) (k : string) : bool :=
  match es !! k with Some b => is_idle now (swept rl now b) | None => false end.

Lemma sweep_scan rl now ks es l idle :
  indexed es l → NoDup ks → Forall (λ k, is_Some (es !! k)) ks →
  ∃ es' l', foldl (sweep_one rl now) (es, l, idle) ks =
      (es', l', idle ++ filter (λ k, idle_key rl now es k = true) ks) ∧
    indexed es' l' ∧ next_order l' = next_order l ∧
    ∀ k, es' !! k = if decide (k ∈ ks) then swept rl now <$> es !! k else es !! k.
Proof.
  revert es l idle. induction ks as [|k ks IH]; intros es l idle Hix Hnd Hall.
  { exists es, l. simpl. rewrite app_nil_r. split_and!; [done..|].
    intros k. by destruct (decide (k ∈ [])) as [?%elem_of_nil|]. }
  apply NoDup_cons in Hnd as [Hk Hnd]. apply Forall_cons in Hall as [[b Hb] Hall].
  destruct (sweep_one_spec rl now es l idle k b Hix Hb) as (l1 & Heq & Hix1 & Hn1).
  assert (∀ k', k' ∈ ks → <[k := swept rl now b]> es !! k' = es !! k') as Hsame.
  { intros k' Hk'. apply lookup_insert_ne. by intros ->. }
  destruct (IH (<[k := swept rl now b]> es) l1
      (if is_idle now (swept rl now b) then idle ++ [k] else idle)) as (es' & l' & Hf & Hix' & Hn' & Hes').
  { done. } { done. }
  { apply Forall_forall. intros k' Hk'. rewrite Hsame by done. by eapply Forall_forall in Hall. }
  exists es', l'. cbn [foldl]. rewrite Heq, Hf. split_and!; [|done|congruence|].
  - f_equal. assert (idle_key rl now es k = is_idle now (swept rl now b)) as Hid
      by (unfold idle_key; by rewrite Hb).
    assert (filter (λ k', idle_key rl now (<[k := swept rl now b]> es) k' = true) ks =
            filter (λ k', idle_key rl now es k' = true) ks) as ->.
    { apply list_filter_ext_elem. intros k' Hk'. unfold idle_key. by rewrite Hsame. }
    rewrite filter_cons, Hid. destruct (is_idle now (swept rl now b)); simpl; [|done].
    by rewrite <- app_assoc.
  - intros k'. rewrite Hes'. destruct (decide (k' = k)) as [->|Hne].
    + rewrite decide_False, decide_True by (done || by left).
      by rewrite lookup_insert_eq, Hb.
    + rewrite lookup_insert_ne by done.
      by rewrite decide_elem_of_cons_ne.
Qed.

Lemma sweep_remove_all ks es l :
  indexed es l → NoDup ks → Forall (λ k, is_Some (es !! k)) ks →
  ∃ es' l', foldl sweep_remove (es, l) ks = (es', l') ∧ indexed es' l' ∧
    size es' + length ks = size es ∧
    ∀ k, es' !! k = if decide (k ∈ ks) then None else es !! k.
Proof.
  revert es l. induction ks as [|k ks IH]; intros es l Hix Hnd Hall.
  { exists es, l. split_and!; [done|done|simpl; lia|].
    intros k. by destruct (decide (k ∈ [])) as [?%elem_of_nil|]. }
  apply NoDup_cons in Hnd as [Hk Hnd]. apply Forall_cons in Hall as [[b Hb] Hall].
  destruct (IH (delete k es) (unlink b l)) as (es' & l' & Hf & Hix' & Hs & Hes').
  { by apply indexed_remove. } { done. }
  { apply Forall_forall. intros k' Hk'. rewrite lookup_delete_ne by (by intros ->).
    by eapply Forall_forall in Hall. }
  exists es', l'. cbn [foldl sweep_remove]. rewrite Hb. split_and!; [done|done| |].
  - assert (size es ≠ 0).
    { intros Hz%map_size_empty_iff. by rewrite Hz, lookup_empty in Hb. }
    rewrite map_size_delete_Some in Hs by eauto. simpl. lia.
  - intros k'. rewrite Hes'. destruct (decide (k' = k)) as [->|Hne].
    + by rewrite (decide_False (P := k ∈ ks)), decide_True, lookup_delete_eq by (done || by left).
    + rewrite lookup_delete_ne by done.
      by rewrite decide_elem_of_cons_ne.
Qed.

Lemma swept_bucket_ok rl now b : params_ok rl → bucket_ok b → bucket_ok (swept rl now b).
Proof.
  intros Hok [Hnan Hd]. destruct (refill_balance rl b now Hok) as [Hnan' _].
  split; [done|]. cbn [swept indebted balance].
  rewrite f64_le_zero_nonneg, negb_involutive by done. rewrite Hd.
  destruct (f64_lt (balance b) f64_zero) eqn:Hlt; [done|]. symmetry.
  by apply (refill_nonneg rl b now Hok).
Qed.

Lemma sweep_idle_spec rl now ks st n st' :
  params_ok rl → limiter_wf rl st → rate rl ≠ 0%Z →
  ks ≡ₚ (map_to_list (entries (buckets st))).*1 →
  sweep_idle rl now ks st = (n, st') →
  limiter_wf rl st' ∧ (n + bucket_count st' = bucket_count st)%Z ∧
  debt_forgiven_evictions st' = debt_forgiven_evictions st ∧
  entries (buckets st') =
    filter (λ kb, is_idle now kb.2 = false) (swept rl now <$> entries (buckets st)).
Proof.
  intros Hok [Hix Hbs Hsize] Hr Hks Hsw. unfold sweep_idle in Hsw.
  rewrite decide_False in Hsw by done.
  assert (NoDup ks) as Hnd by (rewrite Hks; apply NoDup_fst_map_to_list).
  assert (∀ k, k ∈ ks ↔ is_Some (entries (buckets st) !! k)) as Hdom.
  { intros k. rewrite Hks, list_elem_of_fmap. split.
    - intros ([k' b] & -> & Hin). apply elem_of_map_to_list in Hin. eauto.
    - intros [b Hb]. exists (k, b). by rewrite elem_of_map_to_list. }
  destruct (sweep_scan rl now ks _ _ [] Hix Hnd) as (es1 & l1 & Heq & Hix1 & Hn1 & Hes1).
  { apply Forall_forall. intros k. apply Hdom. }
  rewrite Heq in Hsw. simpl in Hsw.
  set (idle := filter (λ k, idle_key rl now (entries (buckets st)) k = true) ks) in *.
  assert (∀ k, k ∈ idle ↔ k ∈ ks ∧ idle_key rl now (entries (buckets st)) k = true) as Hidle.
  { intros k. unfold idle. rewrite list_elem_of_filter. tauto. }
  assert (∀ k, es1 !! k = swept rl now <$> entries (buckets st) !! k) as Hswept.
  { intros k. rewrite Hes1. case_decide as Hin; [done|].
    destruct (entries (buckets st) !! k) eqn:Hb; [|done].
    exfalso. apply Hin, Hdom. eauto. }
  destruct (sweep_remove_all idle es1 l1 Hix1) as (es2 & l2 & Heq2 & Hix2 & Hs2 & Hes2).
  { by apply NoDup_filter. }
  { apply Forall_forall. intros k [Hin _]%Hidle. rewrite Hswept.
    apply Hdom in Hin as [b ->]. eauto. }
  rewrite Heq2 in Hsw. simplify_eq. simpl.
  assert (size es1 = size (entries (buckets st))) as Hs1.
  { replace es1 with (swept rl now <$> entries (buckets st)); [apply map_size_fmap|].
    apply map_eq. intros k. by rewrite Hswept, lookup_fmap. }
  assert (es2 = filter (λ kb, is_idle now kb.2 = false) (swept rl now <$> entries (buckets st))) as He2.
  { apply map_eq. intros k. rewrite Hes2, Hswept.
    destruct (entries (buckets st) !! k) as [b|] eqn:Hb; simpl.
    - assert (k ∈ idle ↔ is_idle now (swept rl now b) = true) as Hiff.
      { rewrite Hidle, Hdom, Hb. unfold idle_key. rewrite Hb. naive_solver. }
      destruct (is_idle now (swept rl now b)) eqn:Hi.
      + rewrite decide_True by tauto. symmetry. apply map_lookup_filter_None_2. right.
        intros b'. rewrite lookup_fmap, Hb. intros [= <-]. simpl. congruence.
      + rewrite decide_False by (rewrite Hiff; done). symmetry.
        apply map_lookup_filter_Some_2; [|done]. by rewrite lookup_fmap, Hb.
    - symmetry. destruct (decide (k ∈ idle)); apply map_lookup_filter_None_2; left;
        by rewrite lookup_fmap, Hb. }
  split_and!; [|unfold bucket_count; simpl; lia|done|done].
  split; simpl; [done| |lia]. rewrite He2. intros k b [Hb _]%map_lookup_filter_Some.
  rewrite lookup_fmap in Hb. apply fmap_Some in Hb as (b0 & Hb0 & ->).
  apply swept_bucket_ok; [done|]. by eapply Hbs.
Qed.

(** ** Theorems *)

(** What can happen to a limiter: an access (probe or charge), the
    maintenance sweep in whatever order the hash map yields, and the drain of
    the eviction counter.  The access counter is a [u64]; the premise keeps the
    run below 2^64 accesses. *)
Inductive limiter_step (rl : RateLimiter) : LimiterState → LimiterState → Prop :=
| ls_access now k a r st st' :
    access_in_range a → (next_order (lru (buckets st)) < u64_max)%Z →
    access rl now k a st = (r, st') → limiter_step rl st st'
| ls_sweep now ks n st st' :
    ks ≡ₚ (map_to_list (entries (buckets st))).*1 →
    sweep_idle rl now ks st = (n, st') → limiter_step rl st st'
| ls_take st : limiter_step rl st (take_debt_forgiven_evictions st).2.

Lemma limiter_step_wf rl st st' :
  params_ok rl → limiter_wf rl st → limiter_step rl st st' → limiter_wf rl st'.
Proof.
  intros Hok Hwf Hstep.
  destruct Hstep as [now k a r st1 st2 Ha Hn Hacc|now ks n st1 st2 Hks Hsw|st1].
  - by eapply access_wf.
  - destruct (decide (rate rl = 0)%Z) as [Hz|Hr].
    + unfold sweep_idle in Hsw. rewrite decide_True in Hsw by done. by simplify_eq.
    + by destruct (sweep_idle_spec _ _ _ _ _ _ Hok Hwf Hr Hks Hsw).
  - destruct Hwf. by split.
Qed.

(** C13. After any sequence of probes, charges, sweeps and counter drains the
    limiter is well-formed: every retained bucket is indexed exactly once, in
    the index of its sign and under its own access number; the indexes hold
    nothing else; no balance is NaN; and at most [max_buckets] buckets are
    retained. *)
Theorem limiter_invariant r max st :
  in_u64 r → rtc (limiter_step (with_max_buckets r max)) limiter_init st →
  limiter_wf (with_max_buckets r max) st.
Proof.
  intros Hr Hrtc. pose proof (with_max_buckets_ok r max Hr) as Hok.
  pose proof (limiter_init_wf _ Hok) as Hinit.
  induction Hrtc as [|st1 st2 st3 Hstep _ IH]; eauto using limiter_step_wf.
Qed.

Lemma limiter_invariant_witness :
  limiter_wf (with_max_buckets 10 2) (limiter_charge (with_max_buckets 10 2) 5 "token" 100 limiter_init).2.
Proof.
  apply (limiter_invariant 10 2); [unfold in_u64, u64_max; lia|].
  apply rtc_once. eapply (ls_access _ 5 "token" (Access.Charge 100)).
  - simpl. unfold in_u64, u64_max. lia.
  - reflexivity.
  - apply surjective_pairing.
Defined.

(** C35. An access on an enabled limiter decides on the refilled balance,
    which never exceeds the capacity: it is refused exactly when that balance
    is not positive, and then leaves it unchanged (a refused request is not
    charged, a probe never is); otherwise a charge is taken in full, at least
    one token, whatever debt that creates. *)
Theorem access_decides rl now k a st r st' :
  params_ok rl → limiter_wf rl st → rate rl ≠ 0%Z →
  access rl now k a st = (r, st') →
  let seen := seen_balance rl now k st in
  f64_le seen (capacity rl) = true ∧
  r = (if f64_le seen f64_zero then Err (exceeded rl seen) else Ok tt) ∧
  ∃ b, entries (buckets st') !! k = Some b ∧ updated b = now ∧ last_access b = now ∧
    balance b =
      (if f64_le seen f64_zero then seen
       else match a with
            | Access.Charge n => f64_sub seen (f64_of_Z (Z.max n 1))
            | Access.Probe => seen
            end).
Proof.
  intros Hok Hwf Hr Hacc seen. destruct (seen_balance_ok rl now k st Hok) as [_ Hle].
  pose proof (access_unfold rl now k a st Hr (wf_indexed _ _ Hwf)) as Hun.
  destruct (room rl k st) as [[forgave es] l].
  destruct Hun as (b & Hkey & Hbal & Hu & Hla & Heq). rewrite Heq in Hacc. simplify_eq.
  split_and!; [done|done|]. simpl. rewrite lookup_insert_eq.
  eexists; split_and!; [done|done|done|]. exact Hbal.
Qed.

Lemma access_decides_witness :
  f64_le (seen_balance (with_max_buckets 10 2) 5 "token" limiter_init)
    (capacity (with_max_buckets 10 2)) = true.
Proof.
  apply (access_decides (with_max_buckets 10 2) 5 "token" Access.Probe limiter_init (Ok tt)
           (limiter_probe (with_max_buckets 10 2) 5 "token" limiter_init).2).
  - apply with_max_buckets_ok. unfold in_u64, u64_max. lia.
  - apply limiter_init_wf, with_max_buckets_ok. unfold in_u64, u64_max. lia.
  - discriminate.
  - reflexivity.
Defined.

(** An access touches no other credential's bucket, except that a new
    credential arriving at the bound evicts exactly the victim: the least
    recently used bucket without debt, or, when all are in debt, the least
    recently used one. *)
Theorem access_isolates rl now k a st r st' k' :
  params_ok rl → limiter_wf rl st → access rl now k a st = (r, st') → k' ≠ k →
  entries (buckets st') !! k' = entries (buckets st) !! k' ∨
  (entries (buckets st) !! k = None ∧ (max_buckets rl ≤ bucket_count st)%Z ∧
   entries (buckets st') !! k' = None ∧ ∃ b, victim (entries (buckets st)) k' b).
Proof.
  intros Hok Hwf Hacc Hne. destruct (decide (rate rl = 0)%Z) as [Hz|Hr].
  { unfold access in Hacc. rewrite decide_True in Hacc by done. simplify_eq. by left. }
  pose proof (access_unfold rl now k a st Hr (wf_indexed _ _ Hwf)) as Hun.
  pose proof (room_spec rl k st Hok Hwf) as Hroom.
  destruct (room rl k st) as [[forgave es] l].
  destruct Hun as (b & _ & _ & _ & _ & Heq). rewrite Heq in Hacc. simplify_eq. simpl.
  rewrite lookup_insert_ne by done.
  destruct (room_others _ _ _ _ _ _ Hroom k' Hne) as [?|(? & ? & ? & bv & ? & _)]; eauto 10.
Qed.

Lemma access_isolates_witness :
  entries (buckets (limiter_charge (with_max_buckets 10 1) 5 "b" 1
    (limiter_charge (with_max_buckets 10 1) 5 "a" 1 limiter_init).2).2) !! "a" = None.
Proof.
  set (st := (limiter_charge (with_max_buckets 10 1) 5 "a" 1 limiter_init).2).
  destruct (access_isolates (with_max_buckets 10 1) 5 "b" (Access.Charge 1) st (Ok tt)
    (limiter_charge (with_max_buckets 10 1) 5 "b" 1 st).2 "a") as [H|(_ & _ & H & _)].
  - apply with_max_buckets_ok. unfold in_u64, u64_max. lia.
  - eapply (access_wf (with_max_buckets 10 1) 5 "a" (Access.Charge 1) limiter_init (Ok tt)).
    + apply with_max_buckets_ok. unfold in_u64, u64_max. lia.
    + apply limiter_init_wf, with_max_buckets_ok. unfold in_u64, u64_max. lia.
    + simpl. unfold in_u64, u64_max. lia.
    + reflexivity.
    + vm_compute. reflexivity.
  - vm_compute. reflexivity.
  - discriminate.
  - vm_compute in H. vm_compute. congruence.
  - exact H.
Defined.

(** The maintenance sweep, in any order of the hash map, keeps exactly
    the buckets that are in debt after refilling or were used within the last
    fifteen minutes; it reports the number it dropped and never forgives a
    debt. *)
Theorem sweep_keeps_debt_and_recent rl now ks st n st' :
  params_ok rl → limiter_wf rl st → rate rl ≠ 0%Z →
  ks ≡ₚ (map_to_list (entries (buckets st))).*1 →
  sweep_idle rl now ks st = (n, st') →
  (n + bucket_count st' = bucket_count st)%Z ∧
  debt_forgiven_evictions st' = debt_forgiven_evictions st ∧
  ∀ k, entries (buckets st') !! k =
    match entries (buckets st) !! k with
    | Some b =>
        let b' := swept rl now b in
        if f64_le f64_zero (balance b') &&
           bool_decide (IDLE_EVICTION ≤ duration_since now (last_access b))%Z
        then None else Some b'
    | None => None
    end.
Proof.
  intros Hok Hwf Hr Hks Hsw.
  destruct (sweep_idle_spec _ _ _ _ _ _ Hok Hwf Hr Hks Hsw) as (_ & Hn & Hf & ->).
  split_and!; [done|done|]. intros k. rewrite map_lookup_filter, lookup_fmap.
  destruct (entries (buckets st) !! k) as [b|]; [|done]. simpl.
  unfold is_idle. cbn [last_access swept].
  by destruct (f64_le f64_zero _ && _); case_guard.
Qed.

Lemma sweep_keeps_debt_and_recent_witness :
  let rl := with_max_buckets 1 2 in
  let st := (limiter_charge rl 0 "debt" 10000 (limiter_charge rl 0 "credit" 1 limiter_init).2).2 in
  let st' := (sweep_idle rl (from_secs 901) ["credit"; "debt"] st).2 in
  entries (buckets st') !! "credit" = None.
Proof.
  intros rl st st'.
  assert (params_ok rl) as Hok by (apply with_max_buckets_ok; unfold in_u64, u64_max; lia).
  assert (in_u64 10000 ∧ in_u64 1) as [H4 H1] by (unfold in_u64, u64_max; lia).
  assert (limiter_wf rl st) as Hwf.
  { eapply (access_wf rl 0 "debt" (Access.Charge 10000) _ (Ok tt)); [done| |done|..].
    - eapply (access_wf rl 0 "credit" (Access.Charge 1) limiter_init (Ok tt));
        [done|by apply limiter_init_wf|done|done|reflexivity].
    - done.
    - vm_compute. reflexivity. }
  destruct (sweep_keeps_debt_and_recent rl (from_secs 901) ["credit"; "debt"] st 1 st')
    as (_ & _ & H); [done|done|done| | |].
  - vm_compute. reflexivity.
  - vm_compute. reflexivity.
  - rewrite H. vm_compute. reflexivity.
Defined.

(** Every refusal asks the caller to wait at least one second, and a
    limiter with rate zero never refuses and keeps no state. *)
Theorem refusal_and_disabled rl now k a st :
  (∀ e st', access rl now k a st = (Err e, st') → (1 ≤ retry_after_secs e)%Z) ∧
  (rate rl = 0%Z → access rl now k a st = (Ok tt, st) ∧ ∀ ks, sweep_idle rl now ks st = (0%Z, st)).
Proof.
  split.
  - intros e st' Hacc. unfold access in Hacc. case_decide; [done|].
    repeat (case_match; simplify_eq/=); eauto using settle_retry.
  - intros Hz. split; [|intros ks]; [unfold access|unfold sweep_idle]; by rewrite (decide_True _ _ Hz).
Qed.
