(* ===== verification/Ports.v ===== *)
(** * The ports of [src/src/ports/mod.rs] as effects

    Handlers and adapters reach the outside world (Redis, the authentication
    services, the clocks, the shared rate limiter, the request body, metrics
    and the audit log) only through calls.  A call is a constructor of [Eff]
    indexed by the type of its answer, and code that makes calls is a [Prog],
    a tree that says which call comes next for each answer.  [run] answers the
    calls with an oracle that sees the history, so a statement about all
    oracles covers every behaviour of the environment, other requests that
    interleave with this one included; it also records the calls made.  The
    handle returned by [acquire] is a lease, released exactly where the code
    drops it. *)
From S2P Require Import Prelude Domain Acl RateLimit.

(** ** Effects *)

(** Reading the request body: [to_bytes] under a timeout. *)
Module BodyRead.
Inductive BodyRead : Type := Body (b : bytes) | Timeout | Failed.
End BodyRead.
Abbreviation BodyRead := BodyRead.BodyRead.

(** What is counted and logged for observers; it has no influence on answers. *)
Module Note.
Inductive Note : Type :=
| AuditIdentity (i : Identity)
| AuditCommand (name : option string) (count : Z)
| Counter (name : string) (label : option (string * string)) (by_ : Z).
End Note.
Abbreviation Note := Note.Note.

(** A lease on a pool's executor. *)
Record ExecutorHandle : Type := mkHandle { lease : Z }.

Module Eff.
Inductive Eff : Type → Type :=
(* the request and the observers *)
| ReadBody : Eff BodyRead
| Emit (n : Note) : Eff unit
(* the shared rate limiter *)
| Probe (key : string) : Eff (result unit RateLimitExceeded)
| Charge (key : string) (count : Z) : Eff (result unit RateLimitExceeded)
| TakeForgiven : Eff Z
(* Authenticator, JwksSource, Introspector, Clock *)
| Authenticate (bearer : string) : Eff (result (option Identity) AuthError)
| KeyFor (kid : string) : Eff (result CachedKey JwksError)
| IsActive (token : string) : Eff (result bool IntrospectError)
(* the introspection cache shared by the requests *)
| CacheGet (digest : bytes) : Eff (option bool)
| CacheInsert (digest : bytes) (active : bool) : Eff unit
| UnixSecs : Eff Z
| Instant : Eff Z
(* ExecutorProvider, CommandExecutor and the end of a lease *)
| Acquire (pool : string) : Eff (result ExecutorHandle AcquireError)
| Readiness : Eff (list PoolReadiness)
| Execute (h : ExecutorHandle) (cmd : RedisCommand) : Eff (result RespValue ExecError)
| Pipeline (h : ExecutorHandle) (cmds : list RedisCommand) : Eff (list (result RespValue ExecError))
| Transaction (h : ExecutorHandle) (cmds : list RedisCommand) :
    Eff (result (list (result RespValue ExecError)) ExecError)
| Release (h : ExecutorHandle) : Eff unit.
End Eff.
Abbreviation Eff := Eff.Eff.

(** ** Programs *)

Inductive Prog (A : Type) : Type :=
| Ret (a : A)
| Vis {X : Type} (e : Eff X) (k : X → Prog A).
Arguments Ret {A} a.
Arguments Vis {A X} e k.

Fixpoint prog_bind {A B : Type} (p : Prog A) (f : A → Prog B) : Prog B :=
  match p with
  | Ret a => f a
  | Vis e k => Vis e (λ x, prog_bind (k x) f)
  end.

Definition perform {X : Type} (e : Eff X) : Prog X := Vis e Ret.

(** Sequencing, and sequencing with the [?] operator. *)
Notation "'do' x <- p ; k" := (prog_bind p (λ x, k))
  (at level 10, x pattern, p at level 100, k at level 200) : srh_scope.
Notation "'do?' x <- p ; k" :=
  (prog_bind p (λ r, match r with Ok x => k | Err err => Ret (Err err) end))
  (at level 10, x pattern, p at level 100, k at level 200) : srh_scope.

(** ** Runs *)

(** A call that was made, with the part of its answer the statements use. *)
Module Call.
Inductive Call : Type :=
| Charge (key : string) (count : Z) (ok : bool)
| Probe (key : string) (ok : bool)
| Authenticate (bearer : string)
| Acquire (pool : string) (h : option ExecutorHandle)
| Execute (h : ExecutorHandle) (cmds : list RedisCommand)
| Transaction (h : ExecutorHandle) (cmds : list RedisCommand)
| Release (h : ExecutorHandle)
| Silent.
End Call.
Abbreviation Call := Call.Call.

Definition call_of {X : Type} (e : Eff X) : X → Call :=
  match e in Eff X return X → Call with
  | Eff.Charge key count => λ r, Call.Charge key count (is_ok r)
  | Eff.Probe key => λ r, Call.Probe key (is_ok r)
  | Eff.Authenticate bearer => λ _, Call.Authenticate bearer
  | Eff.Acquire pool => λ r, Call.Acquire pool (match r with Ok h => Some h | Err _ => None end)
  | Eff.Execute h cmd => λ _, Call.Execute h [cmd]
  | Eff.Pipeline h cmds => λ _, Call.Execute h cmds
  | Eff.Transaction h cmds => λ _, Call.Transaction h cmds
  | Eff.Release h => λ _, Call.Release h
  | _ => λ _, Call.Silent
  end.

(** The environment: an answer to every call, given the history. *)
Definition Oracle : Type := ∀ X, Eff X → list Call → X.

(** The calls made, most recent first, and the result. *)
Fixpoint run {A : Type} (orc : Oracle) (p : Prog A) (hist : list Call) : list Call * A :=
  match p with
  | Ret a => (hist, a)
  | Vis e k => let x := orc _ e hist in run orc (k x) (call_of e x :: hist)
  end.

(** ** [ExecutorHandle] *)

(** [ExecutorHandle::execute_and_release] and its pipeline and transaction
    counterparts: the lease ends before the result is returned. *)
Definition execute_and_release (h : ExecutorHandle) (cmd : RedisCommand) :
    Prog (result RespValue ExecError) :=
  do r <- perform (Eff.Execute h cmd); do _ <- perform (Eff.Release h); Ret r.

Definition pipeline_and_release (h : ExecutorHandle) (cmds : list RedisCommand) :
    Prog (list (result RespValue ExecError)) :=
  do r <- perform (Eff.Pipeline h cmds); do _ <- perform (Eff.Release h); Ret r.

Definition transaction_and_release (h : ExecutorHandle) (cmds : list RedisCommand) :
    Prog (result (list (result RespValue ExecError)) ExecError) :=
  do r <- perform (Eff.Transaction h cmds); do _ <- perform (Eff.Release h); Ret r.

(** ** Lemmas *)

Lemma run_bind {A B} orc (p : Prog A) (f : A → Prog B) hist :
  run orc (prog_bind p f) hist = let '(h, a) := run orc p hist in run orc (f a) h.
Proof. revert hist. induction p as [a|X e k IH]; intros hist; [done|]. simpl. apply IH. Qed.

(** A run only adds to the history. *)
Lemma run_extends {A} orc (p : Prog A) hist : ∃ new, (run orc p hist).1 = new ++ hist.
Proof.
  revert hist. induction p as [a|X e k IH]; intros hist; simpl; [by exists []|].
  destruct (IH (orc X e hist) (call_of e (orc X e hist) :: hist)) as [new ->].
  exists (new ++ [call_of e (orc X e hist)]). by rewrite <- app_assoc.
Qed.
