(* ===== verification/Handlers.v ===== *)
(** * The HTTP handlers of [src/src/http/] and the errors of [src/src/error.rs]

    The three API handlers, the identity extractor and the health endpoints as
    programs over the ports ([Ports.v]).  The request body reader and the
    header map are what axum provides; a response is its status, its
    [Retry-After] header and its JSON body.  The theorems hold for every
    oracle, that is whatever the environment answers. *)
From S2P Require Import Prelude Domain Utf8 F64 Acl Convert Parse Config RateLimit Ports.

(** ** Errors and responses *)

Module AppError.
Inductive AppError : Type :=
| Unauthorized
| Forbidden (message : string)
| BadRequest (message : string)
| RedisError (message : string)
| RateLimited (retry_after_secs : Z)
| AuthServiceUnavailable
| Overloaded (retry_after_secs : Z)
| PoolOpen (retry_after_secs : Z) (reason : string)
| ResponseTooLarge
| RequestBodyTimeout
| Internal (error : string).
End AppError.
Abbreviation AppError := AppError.AppError.

(** [From<ConversionError>] and [From<AclError>]. *)
Definition app_error_of_conversion (e : ConversionError) : AppError :=
  match e with
  | ConversionError.InvalidCommand => AppError.BadRequest "Invalid command"
  | ConversionError.ResponseTooLarge => AppError.ResponseTooLarge
  end.

Definition app_error_of_acl (e : AclError) : AppError :=
  match e with
  | AclError.InvalidCommand => AppError.BadRequest "Invalid command"
  | AclError.Forbidden message => AppError.Forbidden message
  end.

(** One entry of a pipeline or transaction response. *)
Module Slot.
Inductive Slot : Type :=
| Result (value : RespValue) (encoding : Encoding)
| Error (message : string).
End Slot.
Abbreviation Slot := Slot.Slot.

(** JSON bodies. *)
Module Body.
Inductive Body : Type :=
| Error (message : string)                       (* {"error": message} *)
| Envelope (value : RespValue) (encoding : Encoding) (* {"result": ...} *)
| Slots (l : list Slot)                          (* [{"result": ...} | {"error": ...}] *)
| Status (status : string)                       (* {"status": status} *)
| Readiness (status : string) (pools : gmap string PoolReadinessStatus).
End Body.
Abbreviation Body := Body.Body.

Record Response : Type := mkResponse {
  status : Z;
  retry_after : option Z;
  body : Body;
}.

(** [AppError::into_response]: the status, the message and the header. *)
Definition into_response (e : AppError) : Prog Response :=
  do _ <- match e with
          | AppError.ResponseTooLarge =>
              perform (Eff.Emit (Note.Counter "srh_shed_total" (Some ("cause", "response_too_large")) 1))
          | _ => Ret tt
          end;
  let '(status, message, retry_after) :=
    match e with
    | AppError.Unauthorized => (401%Z, "Unauthorized", None)
    | AppError.Forbidden message => (403%Z, message, None)
    | AppError.BadRequest message | AppError.RedisError message => (400%Z, message, None)
    | AppError.RateLimited secs => (429%Z, "Rate limit exceeded", Some secs)
    | AppError.AuthServiceUnavailable => (503%Z, "Authentication service unavailable", None)
    | AppError.Overloaded secs => (503%Z, "Server overloaded", Some secs)
    | AppError.PoolOpen secs _ => (503%Z, "Backend unavailable", Some secs)
    | AppError.ResponseTooLarge => (502%Z, "Response too large", None)
    | AppError.RequestBodyTimeout => (408%Z, "Request body timeout", None)
    | AppError.Internal _ => (500%Z, "Internal server error", None)
    end in
  Ret (mkResponse status retry_after (Body.Error message)).

(** [Json(body).into_response()]. *)
Definition json_response (b : Body) : Response := mkResponse 200 None b.

(** ** Shared helpers of [src/src/http/command.rs] *)

(** [axum::http::HeaderMap::get] and [HeaderValue::to_str]: the first value of
    a header, if it is visible ASCII. *)
Definition Headers : Type := string → option string.

Definition response_encoding (headers : Headers) : Encoding :=
  match headers "upstash-encoding" with
  | Some value => if eq_ignore_ascii_case value "base64" then Encoding.Base64 else Encoding.None
  | None => Encoding.None
  end.

Definition record_debt_forgiveness : Prog unit :=
  do count <- perform Eff.TakeForgiven;
  if decide (0 < count)%Z then
    perform (Eff.Emit (Note.Counter "srh_shed_total"
      (Some ("cause", "debt_forgiven_by_eviction")) count))
  else Ret tt.

(** The result of a limiter call as an [AppError], counted when refused. *)
Definition rate_limited (r : result unit RateLimitExceeded) : Prog (result unit AppError) :=
  match r with
  | Ok _ => Ret (Ok tt)
  | Err e =>
      do _ <- perform (Eff.Emit (Note.Counter "srh_rate_limit_rejections_total" None 1));
      Ret (Err (AppError.RateLimited (retry_after_secs e)))
  end.

Definition charge_rate_limit (bucket_key : string) (command_count : Z) : Prog (result unit AppError) :=
  do r <- perform (Eff.Charge bucket_key command_count);
  do result <- rate_limited r;
  do _ <- record_debt_forgiveness;
  Ret result.

Definition read_body : Prog (result bytes AppError) :=
  do r <- perform Eff.ReadBody;
  Ret (match r with
       | BodyRead.Body b => Ok b
       | BodyRead.Timeout => Err AppError.RequestBodyTimeout
       | BodyRead.Failed => Err (AppError.BadRequest "Invalid command")
       end).

Definition map_exec_error (cfg : Config) (e : ExecError) : AppError :=
  match e with
  | ExecError.Redis message => AppError.RedisError message
  | ExecError.ResponseTooLarge => AppError.ResponseTooLarge
  | ExecError.Timeout =>
      AppError.PoolOpen (shed_retry_after_secs (load (server cfg))) "Redis command timed out"
  | ExecError.Transport reason =>
      AppError.PoolOpen (shed_retry_after_secs (load (server cfg))) reason
  end.

Definition map_acquire_error (cfg : Config) (e : AcquireError) : AppError :=
  match e with
  | AcquireError.UnknownPool pool =>
      AppError.Internal ("identity referenced unknown Redis pool '" +:+ pool +:+ "'")
  | AcquireError.Overloaded => AppError.Overloaded (shed_retry_after_secs (load (server cfg)))
  | AcquireError.PoolOpen secs => AppError.PoolOpen secs "circuit breaker cooldown active"
  | AcquireError.Internal message => AppError.Internal message
  end.

(** [acquire(..).await.map_err(..)]. *)
Definition acquire (cfg : Config) (pool : string) : Prog (result ExecutorHandle AppError) :=
  do r <- perform (Eff.Acquire pool); Ret (map_err (map_acquire_error cfg) r).

(** ** The identity extractor of [src/src/http/extractors.rs] *)

(** [str::split_once(' ')]. *)
Fixpoint split_once_space (s : string) : option (string * string) :=
  match s with
  | EmptyString => None
  | String c s =>
      if Ascii.eqb c " " then Some (EmptyString, s)
      else match split_once_space s with Some (a, b) => Some (String c a, b) | None => None end
  end.

Definition unauthorized (kind : string) : Prog AppError :=
  do _ <- perform (Eff.Emit (Note.Counter "srh_auth_failures_total" (Some ("kind", kind)) 1));
  Ret AppError.Unauthorized.

Definition reject {A} (kind : string) : Prog (result A AppError) :=
  do e <- unauthorized kind; Ret (Err e).

Definition map_auth_error (e : AuthError) : Prog AppError :=
  let count kind := perform (Eff.Emit (Note.Counter "srh_auth_failures_total" (Some ("kind", kind)) 1)) in
  match e with
  | AuthError.Rejected => do _ <- count "rejected"; Ret AppError.Unauthorized
  | AuthError.Forbidden reason => do _ <- count "forbidden"; Ret (AppError.Forbidden reason)
  | AuthError.ServiceUnavailable _ => do _ <- count "unavailable"; Ret AppError.AuthServiceUnavailable
  end.

(** [AuthedIdentity::from_request_parts]. *)
Definition from_request_parts (headers : Headers) : Prog (result Identity AppError) :=
  match headers "authorization" with
  | None => reject "missing_or_malformed"
  | Some authorization =>
      match split_once_space authorization with
      | None => reject "missing_or_malformed"
      | Some (scheme, bearer) =>
          if negb (eq_ignore_ascii_case scheme "Bearer") || String.eqb bearer "" then
            reject "missing_or_malformed"
          else
            do r <- perform (Eff.Authenticate bearer);
            match r with
            | Err e => do e <- map_auth_error e; Ret (Err e)
            | Ok None => reject "rejected"
            | Ok (Some who) =>
                do r <- perform (Eff.Probe (bucket_key who));
                do probe <- rate_limited r;
                do _ <- record_debt_forgiveness;
                Ret (result_map (λ _, who) probe)
            end
      end
  end.

(** ** The API handlers *)

Section Handlers.
Context (sha256 : bytes → bytes).
Context (number_to_string : Number → string) (value_to_string : Value → result string unit).
Context (from_slice : bytes → Document).
Context (cfg : Config).

Abbreviation parse_command := (Parse.command number_to_string value_to_string from_slice).
Abbreviation parse_pipeline := (Parse.pipeline number_to_string value_to_string from_slice).

(** [command::execute]. *)
Definition command_execute (who : Identity) (headers : Headers) : Prog (result Response AppError) :=
  do _ <- perform (Eff.Emit (Note.AuditIdentity who));
  do? body <- read_body;
  match parse_command body (max_request_elements (server cfg)) with
  | Err error =>
      do? _ <- charge_rate_limit (bucket_key who) 1;
      Ret (Err (match error with
                | ParseError.RequestTooComplex => AppError.BadRequest "Request too complex"
                | ParseError.Invalid | ParseError.PipelineTooLarge => AppError.BadRequest "Invalid command"
                end))
  | Ok command =>
      do _ <- perform (Eff.Emit (Note.AuditCommand (Some (name command)) 1));
      do? _ <- charge_rate_limit (bucket_key who) 1;
      match check sha256 who command with
      | Err e => Ret (Err (app_error_of_acl e))
      | Ok _ =>
          let command := Compat.normalize command in
          do? handle <- acquire cfg (pool who);
          do r <- execute_and_release handle command;
          do? value <- Ret (map_err (map_exec_error cfg) r);
          let budget := max_response_bytes (load (server cfg)) in
          let encoding := response_encoding headers in
          do? _ <- Ret (map_err app_error_of_conversion (charge_response_budget value encoding budget));
          Ret (Ok (json_response (Body.Envelope value encoding)))
      end
  end.

(** The error a pipeline or transaction that does not parse is answered with. *)
Definition pipeline_parse_error (e : ParseError) : AppError :=
  match e with
  | ParseError.Invalid => AppError.BadRequest "Invalid command"
  | ParseError.PipelineTooLarge => AppError.BadRequest "Pipeline too large"
  | ParseError.RequestTooComplex => AppError.BadRequest "Request too complex"
  end.

(** The policy loop of [pipeline::execute]: the commands to run, and for each
    command of the request whether it was denied. *)
Fixpoint pipeline_check (who : Identity) (commands : list RedisCommand)
    (allowed : list RedisCommand) (slots : list (option Slot)) :
    result (list RedisCommand * list (option Slot)) AppError :=
  match commands with
  | [] => Ok (allowed, slots)
  | command :: commands =>
      match check sha256 who command with
      | Ok _ => pipeline_check who commands (allowed ++ [Compat.normalize command]) (slots ++ [None])
      | Err (AclError.Forbidden message) =>
          pipeline_check who commands allowed (slots ++ [Some (Slot.Error message)])
      | Err error => Err (app_error_of_acl error)
      end
  end.

(** One executor result as a slot, charged against the shared budget. *)
Definition result_slot (encoding : Encoding) (budget : Z) (r : result RespValue ExecError) :
    result (Slot * Z) AppError :=
  match r with
  | Ok value =>
      let? budget := map_err app_error_of_conversion (charge_response_budget value encoding budget) in
      Ok (Slot.Result value encoding, budget)
  | Err (ExecError.Redis message) => Ok (Slot.Error message, budget)
  | Err ExecError.ResponseTooLarge => Err AppError.ResponseTooLarge
  | Err ExecError.Timeout => Ok (Slot.Error "Redis command timed out", budget)
  | Err (ExecError.Transport _) => Ok (Slot.Error "Internal server error", budget)
  end.

(** The response loop of [pipeline::execute]: what is left of the results is
    returned with the response. *)
Fixpoint pipeline_slots (encoding : Encoding) (slots : list (option Slot))
    (results : list (result RespValue ExecError)) (budget : Z) (response : list Slot) :
    result (list Slot * list (result RespValue ExecError)) AppError :=
  match slots with
  | [] => Ok (response, results)
  | Some denied :: slots => pipeline_slots encoding slots results budget (response ++ [denied])
  | None :: slots =>
      match results with
      | [] => Err (AppError.Internal "pipeline executor returned too few results")
      | r :: results =>
          let? sb := result_slot encoding budget r in
          pipeline_slots encoding slots results sb.2 (response ++ [sb.1])
      end
  end.

(** [pipeline::execute]. *)
Definition pipeline_execute (who : Identity) (headers : Headers) : Prog (result Response AppError) :=
  do _ <- perform (Eff.Emit (Note.AuditIdentity who));
  do? body <- read_body;
  match parse_pipeline body (max_pipeline_commands (server cfg)) (max_request_elements (server cfg)) with
  | Err error =>
      do? _ <- charge_rate_limit (bucket_key who) 1;
      Ret (Err (pipeline_parse_error error))
  | Ok commands =>
      let command_count := Z.of_nat (length commands) in
      do _ <- perform (Eff.Emit (Note.AuditCommand (Some "PIPELINE") command_count));
      do? _ <- charge_rate_limit (bucket_key who) command_count;
      do? checked <- Ret (pipeline_check who commands [] []);
      let '(allowed_commands, slots) := checked in
      if decide (command_count = 0%Z) then Ret (Ok (json_response (Body.Slots [])))
      else
        do? results <-
          match allowed_commands with
          | [] => Ret (Ok [])
          | _ =>
              do? handle <- acquire cfg (pool who);
              do r <- pipeline_and_release handle allowed_commands; Ret (Ok r)
          end;
        let budget := max_response_bytes (load (server cfg)) in
        let encoding := response_encoding headers in
        do? done_ <- Ret (pipeline_slots encoding slots results budget []);
        let '(response, rest) := done_ in
        match rest with
        | _ :: _ => Ret (Err (AppError.Internal "pipeline executor returned too many results"))
        | [] => Ret (Ok (json_response (Body.Slots response)))
        end
  end.

(** The response loop of [multi_exec::execute]. *)
Fixpoint transaction_slots (encoding : Encoding) (results : list (result RespValue ExecError))
    (budget : Z) : result (list Slot) AppError :=
  match results with
  | [] => Ok []
  | r :: results =>
      let? sb := result_slot encoding budget r in
      let? rest := transaction_slots encoding results sb.2 in
      Ok (sb.1 :: rest)
  end.

(** [multi_exec::execute]. *)
Definition multi_exec_execute (who : Identity) (headers : Headers) : Prog (result Response AppError) :=
  do _ <- perform (Eff.Emit (Note.AuditIdentity who));
  do? body <- read_body;
  match parse_pipeline body (max_pipeline_commands (server cfg)) (max_request_elements (server cfg)) with
  | Err error =>
      do? _ <- charge_rate_limit (bucket_key who) 1;
      Ret (Err (pipeline_parse_error error))
  | Ok commands =>
      do _ <- perform (Eff.Emit (Note.AuditCommand (Some "MULTI-EXEC") (Z.of_nat (length commands))));
      match commands with
      | [] =>
          do? _ <- charge_rate_limit (bucket_key who) 1;
          Ret (Err (AppError.BadRequest "Invalid command"))
      | _ =>
          do? _ <- charge_rate_limit (bucket_key who) (Z.of_nat (length commands));
          do? _ <- Ret (try_for_each (λ c, map_err app_error_of_acl (check sha256 who c)) commands);
          let commands := Compat.normalize <$> commands in
          do? handle <- acquire cfg (pool who);
          do r <- transaction_and_release handle commands;
          do? results <- Ret (map_err (map_exec_error cfg) r);
          let budget := max_response_bytes (load (server cfg)) in
          let encoding := response_encoding headers in
          do? response <- Ret (transaction_slots encoding results budget);
          Ret (Ok (json_response (Body.Slots response)))
      end
  end.
End Handlers.

(** ** Health *)

Definition health : Response := json_response (Body.Status "ok").

(** [health::ready]: readiness is shown to loopback peers only. *)
Definition ready (is_loopback : bool) : Prog Response :=
  if negb is_loopback then Ret (mkResponse 404 None (Body.Error "Not found"))
  else
    do pools <- perform Eff.Readiness;
    let all_ready :=
      forallb (λ p, match readiness_status p with
                    | PoolReadinessStatus.Ready => true
                    | PoolReadinessStatus.Unavailable _ => false
                    end) pools in
    let entries := foldl (λ m p, <[readiness_pool p := readiness_status p]> m) ∅ pools in
    Ret (mkResponse (if all_ready then 200 else 503) None
           (Body.Readiness (if all_ready then "ready" else "not_ready") entries)).

(** [not_found], [method_not_allowed] and the handler of the admission layer. *)
Definition not_found : Response := mkResponse 404 None (Body.Error "Not found").
Definition method_not_allowed : Response := mkResponse 405 None (Body.Error "Method not allowed").

(** ** Serialization of the slots *)

Section SlotJson.
Context (base64 : bytes → string).

(** [impl Serialize for Slot]: the key and the value of the only entry. *)
Definition slot_json (s : Slot) : string * Ser :=
  match s with
  | Slot.Result value encoding => ("result", response_json base64 value encoding)
  | Slot.Error message => ("error", Ser.Str message)
  end.
End SlotJson.

(** ** The protocol of a request *)

(** How far a request has got: nothing charged; [n] commands charged; holding a
    lease; the backend used under the lease; lease returned. *)
Module Phase.
Inductive Phase : Type :=
| Idle
| Charged (n : Z)
| Leased (n : Z) (h : ExecutorHandle)
| Used (h : ExecutorHandle)
| Finished.
End Phase.
Abbreviation Phase := Phase.Phase.

#[export] Instance ExecutorHandle_eq_dec : EqDecision ExecutorHandle.
Proof. solve_decision. Defined.

Section Protocol.
Context (sha256 : bytes → bytes) (who : Identity).

(** The commands may go to the backend: each passes the policy, and no more
    of them than were charged. *)
Definition runnable (n : Z) (cmds : list RedisCommand) : Prop :=
  Forall (λ c, check sha256 who c = Ok tt) cmds ∧ (Z.of_nat (length cmds) ≤ n)%Z.

#[export] Instance runnable_dec n cmds : Decision (runnable n cmds).
Proof. unfold runnable. apply _. Defined.

(** The calls a request may make in each phase. *)
Definition phase_step (c : Call) (p : Phase) : option Phase :=
  match c, p with
  | Call.Silent, p => Some p
  | Call.Charge k n ok, Phase.Idle =>
      if String.eqb k (bucket_key who) then Some (if ok : bool then Phase.Charged n else Phase.Idle)
      else None
  | Call.Acquire p' (Some h), Phase.Charged n =>
      if String.eqb p' (pool who) then Some (Phase.Leased n h) else None
  | Call.Acquire p' None, Phase.Charged n =>
      if String.eqb p' (pool who) then Some (Phase.Charged n) else None
  | Call.Execute h' cmds, Phase.Leased n h | Call.Transaction h' cmds, Phase.Leased n h =>
      if decide (h' = h ∧ runnable n cmds) then Some (Phase.Used h) else None
  | Call.Release h', (Phase.Leased _ h | Phase.Used h) => if decide (h' = h) then Some Phase.Finished else None
  | _, _ => None
  end.

Definition phase_of (hist : list Call) : option Phase :=
  foldr (λ c p, p ≫= phase_step c) (Some Phase.Idle) hist.

(** A request that ends holds no lease. *)
Definition settled (p : option Phase) : Prop :=
  match p with
  | Some (Phase.Idle | Phase.Charged _ | Phase.Finished) => True
  | _ => False
  end.
End Protocol.

Arguments phase_of : simpl never.

(** ** Lemmas *)

Lemma run_charge orc key n hist :
  ∃ quiet r, run orc (charge_rate_limit key n) hist =
    (quiet ++ Call.Charge key n (is_ok r) :: hist, r) ∧ Forall (eq Call.Silent) quiet ∧
    (∀ e, r = Err e → ∃ secs, e = AppError.RateLimited secs).
Proof.
  unfold charge_rate_limit, record_debt_forgiveness, rate_limited. simpl.
  destruct (orc _ (Eff.Charge key n) hist) as [[]|e]; simpl; case_decide; simpl.
  - by exists [Call.Silent; Call.Silent], (Ok tt); split_and!; [|repeat constructor|].
  - by exists [Call.Silent], (Ok tt); split_and!; [|repeat constructor|].
  - exists [Call.Silent; Call.Silent; Call.Silent], (Err (AppError.RateLimited (retry_after_secs e))).
    split_and!; [done|repeat constructor|]. intros ? [= <-]. eauto.
  - exists [Call.Silent; Call.Silent], (Err (AppError.RateLimited (retry_after_secs e))).
    split_and!; [done|repeat constructor|]. intros ? [= <-]. eauto.
Qed.

Section PhaseFacts.
Context (sha256 : bytes → bytes) (who : Identity).
Abbreviation phase := (phase_of sha256 who).

Lemma phase_cons c hist : phase (c :: hist) = phase hist ≫= phase_step sha256 who c.
Proof. done. Qed.

Lemma phase_quiet quiet hist : Forall (eq Call.Silent) quiet → phase (quiet ++ hist) = phase hist.
Proof.
  induction 1 as [|c quiet <- _ IH]; [done|]. cbn [app]. rewrite phase_cons, IH. by destruct (phase hist).
Qed.

(** Charging leads to the charged phase, or the request ends there. *)
Lemma run_charge_phase orc n hist :
  phase hist = Some Phase.Idle →
  ∃ hist' r, run orc (charge_rate_limit (bucket_key who) n) hist = (hist', r) ∧
    phase hist' = Some (if is_ok r then Phase.Charged n else Phase.Idle).
Proof.
  intros Hp. destruct (run_charge orc (bucket_key who) n hist) as (quiet & r & -> & Hq & _).
  eexists _, r. split; [done|]. rewrite phase_quiet, phase_cons, Hp by done.
  simpl. by rewrite String.eqb_refl.
Qed.

(** A lease is used and returned. *)
Lemma run_acquire_phase orc cfg n hist :
  phase hist = Some (Phase.Charged n) →
  ∃ hist' r, run orc (acquire cfg (pool who)) hist = (hist', r) ∧
    phase hist' = Some (match r with Ok h => Phase.Leased n h | Err _ => Phase.Charged n end).
Proof.
  intros Hp. unfold acquire. simpl. eexists _, _. split; [done|].
  rewrite phase_cons, Hp. simpl.
  destruct (orc _ (Eff.Acquire (pool who)) hist) as [h|e]; simpl; by rewrite String.eqb_refl.
Qed.

Lemma used_released n h hist c cmds :
  phase hist = Some (Phase.Leased n h) → runnable sha256 who n cmds →
  c = Call.Execute h cmds ∨ c = Call.Transaction h cmds →
  phase (Call.Release h :: c :: hist) = Some Phase.Finished.
Proof.
  intros Hp Hr Hc. rewrite !phase_cons, Hp. simpl.
  destruct Hc as [->| ->]; simpl; rewrite decide_True by done; simpl; by rewrite decide_True.
Qed.
End PhaseFacts.

(** What the policy loop of a pipeline computes. *)
Section PipelineFacts.
Context (sha256 : bytes → bytes) (who : Identity).

Lemma pipeline_check_spec commands allowed slots allowed' slots' :
  pipeline_check sha256 who commands allowed slots = Ok (allowed', slots') →
  allowed' = allowed ++ (Compat.normalize <$> filter (λ c, check sha256 who c = Ok tt) commands) ∧
  slots' = slots ++ ((λ c, match check sha256 who c with
    | Err (AclError.Forbidden m) => Some (Slot.Error m) | _ => None end) <$> commands) ∧
  Forall (λ c, check sha256 who c ≠ Err AclError.InvalidCommand) commands.
Proof.
  revert allowed slots. induction commands as [|c commands IH]; intros allowed slots; cbn [pipeline_check].
  { intros [= <- <-]. rewrite !app_nil_r. split_and!; [done|done|constructor]. }
  rewrite filter_cons. destruct (check sha256 who c) as [[]|[|m]] eqn:Hc; try done.
  - rewrite decide_True by done. intros (-> & -> & Hall)%IH. rewrite !fmap_cons, Hc, <- !app_assoc.
    split_and!; [done|done|]. constructor; [congruence|done].
  - rewrite decide_False by done. intros (-> & -> & Hall)%IH. rewrite fmap_cons, Hc, <- !app_assoc.
    split_and!; [done|done|]. constructor; [congruence|done].
Qed.

Lemma checked_runnable commands n :
  (Z.of_nat (length commands) ≤ n)%Z →
  runnable sha256 who n (Compat.normalize <$> filter (λ c, check sha256 who c = Ok tt) commands).
Proof.
  intros Hn. split.
  - apply Forall_fmap, Forall_forall. intros c [Hc _]%list_elem_of_filter. simpl. by rewrite check_normalize.
  - rewrite length_fmap. pose proof (length_filter (λ c, check sha256 who c = Ok tt) commands). lia.
Qed.
End PipelineFacts.

Section HandlerProofs.
Context (sha256 : bytes → bytes).
Context (number_to_string : Number → string) (value_to_string : Value → result string unit).
Context (from_slice : bytes → Document) (cfg : Config) (who : Identity) (headers : Headers).
Abbreviation phase := (phase_of sha256 who).

Ltac charge orc n :=
  rewrite run_bind;
  match goal with |- context [run orc (charge_rate_limit _ n) ?h] =>
    let h' := fresh "hist" in let r := fresh "r" in let Hr := fresh "Hr" in let Hp := fresh "Hp" in
    destruct (run_charge_phase sha256 who orc n h eq_refl) as (h' & r & -> & Hp);
    destruct r; cbn [is_ok] in Hp; [|by cbn; rewrite Hp]
  end.

Ltac acquire_lease orc :=
  rewrite run_bind;
  match goal with Hp : phase ?h = Some (Phase.Charged ?n) |- context [run orc (acquire cfg _) ?h] =>
    let h' := fresh "hist" in let r := fresh "lease" in
    destruct (run_acquire_phase sha256 who orc cfg n h Hp) as (h' & r & -> & ?);
    destruct r as [r|]; [|by cbn; match goal with H : phase h' = _ |- _ => rewrite H end]
  end.

Lemma command_protocol orc :
  settled (phase (run orc (command_execute sha256 number_to_string value_to_string from_slice cfg who headers) []).1).
Proof.
  unfold command_execute, read_body. cbn -[charge_rate_limit acquire execute_and_release Parse.command].
  destruct (orc _ Eff.ReadBody _) as [b| |]; cbn -[charge_rate_limit acquire execute_and_release Parse.command];
    try done.
  destruct (Parse.command _ _ _ b _) as [c|e]; cbn -[charge_rate_limit acquire execute_and_release].
  - charge orc 1%Z. destruct (check sha256 who c) as [[]|] eqn:Hc; [|by cbn; rewrite Hp].
    acquire_lease orc. unfold execute_and_release. cbn.
    match goal with |- context [map_err _ ?r] => destruct (map_err (map_exec_error cfg) r) as [v|] end; cbn.
    all: try (destruct (map_err _ (charge_response_budget _ _ _)); cbn).
    all: erewrite used_released; eauto; split; [|done]; constructor; [|constructor]; by rewrite check_normalize.
  - charge orc 1%Z. cbn. by rewrite Hp.
Qed.

Lemma pipeline_protocol orc :
  settled (phase (run orc (pipeline_execute sha256 number_to_string value_to_string from_slice cfg who headers) []).1).
Proof.
  unfold pipeline_execute, read_body. cbn -[charge_rate_limit acquire pipeline_and_release Parse.pipeline].
  destruct (orc _ Eff.ReadBody _) as [b| |]; cbn -[charge_rate_limit acquire pipeline_and_release Parse.pipeline];
    try done.
  destruct (Parse.pipeline _ _ _ b _ _) as [cs|e]; cbn -[charge_rate_limit acquire pipeline_and_release].
  2:{ charge orc 1%Z. cbn. by rewrite Hp. }
  charge orc (Z.of_nat (length cs)).
  destruct (pipeline_check sha256 who cs [] []) as [[allowed slots]|e] eqn:Hck; cbn -[acquire pipeline_and_release];
    [|by rewrite Hp].
  apply pipeline_check_spec in Hck as (Ha & _ & _). cbn in Ha.
  case_decide; cbn -[acquire pipeline_and_release]; [by rewrite Hp|].
  rewrite run_bind. destruct allowed as [|c0 allowed0] eqn:Hal; [cbn; repeat (case_match; cbn); by rewrite Hp|].
  rewrite <- Hal in *. clear Hal. acquire_lease orc. unfold pipeline_and_release. cbn.
  repeat (case_match; cbn); (erewrite used_released; [done|eauto| |by left]); rewrite Ha; by apply checked_runnable.
Qed.

Lemma multi_exec_protocol orc :
  settled (phase (run orc (multi_exec_execute sha256 number_to_string value_to_string from_slice cfg who headers) []).1).
Proof.
  unfold multi_exec_execute, read_body. cbn -[charge_rate_limit acquire transaction_and_release Parse.pipeline].
  destruct (orc _ Eff.ReadBody _) as [b| |]; cbn -[charge_rate_limit acquire transaction_and_release Parse.pipeline];
    try done.
  destruct (Parse.pipeline _ _ _ b _ _) as [cs|e]; cbn -[charge_rate_limit acquire transaction_and_release].
  2:{ charge orc 1%Z. cbn. by rewrite Hp. }
  destruct cs as [|c0 cs0] eqn:Hcs; [charge orc 1%Z; cbn; by rewrite Hp|].
  rewrite <- Hcs. charge orc (Z.of_nat (length cs)).
  destruct (try_for_each _ cs) as [[]|e] eqn:Hall; cbn -[acquire transaction_and_release]; [|by rewrite Hp].
  apply try_for_each_ok in Hall. acquire_lease orc. unfold transaction_and_release. cbn.
  repeat (case_match; cbn); (erewrite used_released; [done|eauto| |by right]); (split; [|by rewrite length_fmap]);
    apply Forall_fmap; (eapply Forall_impl; [exact Hall|]); intros c; cbn;
    rewrite check_normalize; by destruct (check sha256 who c) as [[]|].
Qed.
End HandlerProofs.

(** ** Properties *)

(** C6. Every API request follows the protocol, whatever the environment
    answers: nothing reaches a pool before the caller's own bucket has been
    charged successfully, once; only the caller's pool is used; each command
    sent to Redis passes the command policy for this caller and there are no
    more of them than were charged; and when the handler returns, success or
    error, the lease it took has been given back exactly once. *)
Theorem requests_follow_protocol sha256 number_to_string value_to_string from_slice cfg who headers orc :
  let ended p := settled (phase_of sha256 who (run orc p []).1) in
  ended (command_execute sha256 number_to_string value_to_string from_slice cfg who headers) ∧
  ended (pipeline_execute sha256 number_to_string value_to_string from_slice cfg who headers) ∧
  ended (multi_exec_execute sha256 number_to_string value_to_string from_slice cfg who headers).
Proof. split_and!; [apply command_protocol|apply pipeline_protocol|apply multi_exec_protocol]. Qed.

(** How one executor result is shown to the client. *)
Definition shown (encoding : Encoding) (r : result RespValue ExecError) : option Slot :=
  match r with
  | Ok value => Some (Slot.Result value encoding)
  | Err (ExecError.Redis message) => Some (Slot.Error message)
  | Err ExecError.Timeout => Some (Slot.Error "Redis command timed out")
  | Err (ExecError.Transport _) => Some (Slot.Error "Internal server error")
  | Err ExecError.ResponseTooLarge => None
  end.

(** Commands, executor results and response slots in step: a denied command
    shows its denial and takes no result, any other shows the next result. *)
Inductive aligned (sha256 : bytes → bytes) (who : Identity) (encoding : Encoding) :
    list RedisCommand → list (result RespValue ExecError) → list Slot → Prop :=
| aligned_nil : aligned sha256 who encoding [] [] []
| aligned_denied c cs rs ss m :
    check sha256 who c = Err (AclError.Forbidden m) →
    aligned sha256 who encoding cs rs ss →
    aligned sha256 who encoding (c :: cs) rs (Slot.Error m :: ss)
| aligned_shown c cs r rs s ss :
    check sha256 who c = Ok tt → shown encoding r = Some s →
    aligned sha256 who encoding cs rs ss →
    aligned sha256 who encoding (c :: cs) (r :: rs) (s :: ss).

Lemma result_slot_shown encoding budget r s b :
  result_slot encoding budget r = Ok (s, b) → shown encoding r = Some s.
Proof.
  destruct r as [v|[m| |m|]]; simpl; try by intros [= <- _].
  destruct (charge_response_budget v encoding budget); simpl; [by intros [= <- _]|done].
Qed.

Lemma pipeline_slots_aligned sha256 who encoding cs rs budget response :
  Forall (λ c, check sha256 who c ≠ Err AclError.InvalidCommand) cs →
  ∀ acc, pipeline_slots encoding ((λ c, match check sha256 who c with
      | Err (AclError.Forbidden m) => Some (Slot.Error m) | _ => None end) <$> cs) rs budget acc =
    Ok (response, []) →
  ∃ ss, response = acc ++ ss ∧ aligned sha256 who encoding cs rs ss.
Proof.
  intros Hall. revert rs budget. induction Hall as [|c cs Hc _ IH]; intros rs budget acc.
  { cbn. intros [= <- ->]. exists []. rewrite app_nil_r. split; [done|constructor]. }
  rewrite fmap_cons. destruct (check sha256 who c) as [[]|[|m]] eqn:Hck; [|done|]; cbn.
  - destruct rs as [|r rs]; [done|].
    destruct (result_slot encoding budget r) as [[s b]|] eqn:Hs; [|done]. cbn.
    intros (ss & -> & Hss)%IH. exists (s :: ss). rewrite <- app_assoc. split; [done|].
    constructor; [done|by eapply result_slot_shown|done].
  - intros (ss & -> & Hss)%IH. exists (Slot.Error m :: ss). rewrite <- app_assoc. split; [done|].
    by constructor.
Qed.

(** The response loop against the checked commands: each slot in step, and no
    response unless the executor returned exactly as many results. *)
Lemma checked_slots_line_up sha256 who cs allowed slots encoding budget results :
  pipeline_check sha256 who cs [] [] = Ok (allowed, slots) →
  (∀ response, pipeline_slots encoding slots results budget [] = Ok (response, []) →
     aligned sha256 who encoding cs results response) ∧
  (length results ≠ length allowed → ∀ response, pipeline_slots encoding slots results budget [] ≠ Ok (response, [])).
Proof.
  intros (-> & -> & Hinv)%pipeline_check_spec. cbn [app].
  assert (∀ response, pipeline_slots encoding ((λ c, match check sha256 who c with
      | Err (AclError.Forbidden m) => Some (Slot.Error m) | _ => None end) <$> cs) results budget [] = Ok (response, []) →
    aligned sha256 who encoding cs results response) as Hal.
  { by intros response (ss & -> & Hal)%pipeline_slots_aligned. }
  split; [exact Hal|]. intros Hne response H%Hal. apply Hne. rewrite length_fmap. clear -H.
  induction H as [|c cs rs ss m Hc _ IH|c cs r rs s ss Hc _ _ IH]; [done|..]; rewrite filter_cons;
    [rewrite decide_False by congruence; done|rewrite decide_True by done; cbn; lia].
Qed.

Definition sample_who : Identity :=
  mkIdentity "alice" "bucket" "main" false false false None {[ "KEYS" ]} ∅ None.

(** A call that reaches a pool. *)
Definition backend_call (c : Call) : bool :=
  match c with
  | Call.Acquire _ _ | Call.Execute _ _ | Call.Transaction _ _ | Call.Release _ => true
  | _ => false
  end.

Lemma try_for_each_app {A E} (f : A → result unit E) l1 x l2 :
  Forall (λ a, f a = Ok tt) l1 → try_for_each f (l1 ++ x :: l2) =
  match f x with Ok _ => try_for_each f l2 | Err e => Err e end.
Proof. induction 1 as [|a l1 Ha _ IH]; [done|]. simpl. by rewrite Ha. Qed.

(** Charging reaches no pool, and fails only as a rate limit. *)
Lemma run_charge_quiet orc key n hist :
  existsb backend_call hist = false →
  ∃ hist' r, run orc (charge_rate_limit key n) hist = (hist', r) ∧
    existsb backend_call hist' = false ∧ ∀ e, r = Err e → ∃ secs, e = AppError.RateLimited secs.
Proof.
  intros Hh. destruct (run_charge orc key n hist) as (quiet & r & -> & Hq & He).
  eexists _, r. split_and!; [done| |done]. rewrite List.existsb_app. cbn. rewrite Hh, orb_false_r.
  clear -Hq. by induction Hq as [|c quiet <- _ IH].
Qed.

Lemma no_backend_call hist c : existsb backend_call hist = false → backend_call c = true → c ∉ hist.
Proof.
  intros Hh Hc Hin. apply not_true_iff_false in Hh. apply Hh, List.existsb_exists.
  exists c. by rewrite <- list_elem_of_In.
Qed.

(** The end of a pipeline request, from the acquisition on. *)
Lemma run_pipeline sha256 cfg who orc headers commands allowed slots hist hist' answer :
  existsb backend_call hist = false → allowed ≠ [] →
  pipeline_check sha256 who commands [] [] = Ok (allowed, slots) →
  run orc (do? results <- (do? handle <- acquire cfg (pool who);
                           do r <- pipeline_and_release handle allowed; Ret (Ok r));
           do? done_ <- Ret (pipeline_slots (response_encoding headers) slots results
             (max_response_bytes (load (server cfg))) []);
           let '(response, rest) := done_ in
           match rest with
           | _ :: _ => Ret (Err (AppError.Internal "pipeline executor returned too many results"))
           | [] => Ret (Ok (json_response (Body.Slots response)))
           end) hist = (hist', answer) →
  (is_ok answer = true → ∃ h, Call.Execute h allowed ∈ hist') ∧
  ∀ h sent, Call.Execute h sent ∈ hist' → sent = allowed ∧
    let leased := Call.Acquire (pool who) (Some h) :: hist in
    let results := orc _ (Eff.Pipeline h sent) leased in
    hist' = Call.Release h :: Call.Execute h sent :: leased ∧
    (length results ≠ length allowed → is_ok answer = false) ∧
    ∀ response, answer = Ok response → ∃ shown, response = json_response (Body.Slots shown) ∧
      aligned sha256 who (response_encoding headers) commands results shown.
Proof.
  intros Hh Hne Hck. unfold acquire, pipeline_and_release. cbn.
  assert (∀ h sent, Call.Execute h sent ∉ hist) as Hno by (intros; by apply no_backend_call).
  destruct (orc _ (Eff.Acquire (pool who)) hist) as [h0|e] eqn:Hacq; cbn.
  2:{ intros [= <- <-]. split; [done|]. intros h sent Hin. exfalso. set_solver. }
  set (leased := Call.Acquire (pool who) (Some h0) :: hist).
  set (results := orc _ (Eff.Pipeline h0 allowed) leased).
  destruct (checked_slots_line_up sha256 who commands allowed slots (response_encoding headers)
    (max_response_bytes (load (server cfg))) results Hck) as [Hal Hlen].
  intros Hrun. assert (hist' = Call.Release h0 :: Call.Execute h0 allowed :: leased) as Hhist'
    by (revert Hrun; by repeat (case_match; cbn); intros [= <- <-]).
  split. { intros _. exists h0. rewrite Hhist'. set_solver. }
  intros h sent Hin. rewrite Hhist' in Hin.
  assert (h = h0 ∧ sent = allowed) as [-> ->].
  { unfold leased in Hin. rewrite !elem_of_cons in Hin. specialize (Hno h sent). naive_solver. }
  split; [done|]. cbv zeta. fold leased results. split; [done|]. revert Hrun.
  destruct (pipeline_slots _ slots results _ []) as [[shown [|r rest]]|e]; cbn; intros [= _ <-]; cbn.
  - split; [intros Hne'; by destruct (Hlen Hne' shown)|]. intros response [= <-]. eauto.
  - by split.
  - by split.
Qed.

(** C29. A pipeline's response lines up with its request, whatever the
    environment answers.  The handler sends at most one batch, after acquiring
    and before releasing a lease of the caller's pool: exactly the permitted
    commands of the request, normalised and in order.  When it then answers with
    a response, the slots are, in the order of the commands, the denial of each
    denied command and the executor's results, in order, for the others; with
    fewer or more results than commands sent there is no response.  Without a
    batch it answers with a response only if no command is permitted, and then
    every slot is a denial. *)
Theorem pipeline_slots_line_up sha256 number_to_string value_to_string from_slice cfg who headers
    (orc : Oracle) b commands
    (Hbody : orc _ Eff.ReadBody [Call.Silent] = BodyRead.Body b)
    (Hparse : Parse.pipeline number_to_string value_to_string from_slice b
       (max_pipeline_commands (server cfg)) (max_request_elements (server cfg)) = Ok commands) :
  let '(hist, answer) := run orc
    (pipeline_execute sha256 number_to_string value_to_string from_slice cfg who headers) [] in
  let allowed := Compat.normalize <$> filter (λ c, check sha256 who c = Ok tt) commands in
  (∀ h sent, Call.Execute h sent ∈ hist →
     sent = allowed ∧ ∃ before,
       let leased := Call.Acquire (pool who) (Some h) :: before in
       let results := orc _ (Eff.Pipeline h sent) leased in
       existsb backend_call before = false ∧ hist = Call.Release h :: Call.Execute h sent :: leased ∧
       (length results ≠ length allowed → is_ok answer = false) ∧
       ∀ response, answer = Ok response → ∃ slots, response = json_response (Body.Slots slots) ∧
         aligned sha256 who (response_encoding headers) commands results slots) ∧
  ((∀ h sent, Call.Execute h sent ∉ hist) → ∀ response, answer = Ok response →
     allowed = [] ∧ ∃ slots, response = json_response (Body.Slots slots) ∧
       aligned sha256 who (response_encoding headers) commands [] slots).
Proof.
  destruct (run _ _ _) as [hist answer] eqn:Hrun. cbv zeta. revert Hrun.
  unfold pipeline_execute, read_body. cbn -[charge_rate_limit acquire pipeline_and_release Parse.pipeline].
  rewrite Hbody. cbn -[charge_rate_limit acquire pipeline_and_release Parse.pipeline]. rewrite Hparse.
  cbn -[charge_rate_limit acquire pipeline_and_release]. rewrite run_bind.
  match goal with |- context [run orc (charge_rate_limit ?k ?n) ?h0] =>
    destruct (run_charge_quiet orc k n h0 eq_refl) as (hist1 & r & -> & Hquiet & _) end.
  assert (∀ h sent, Call.Execute h sent ∉ hist1) as Hno by (intros; by apply no_backend_call).
  destruct r as [[]|e0]; [|intros [= <- <-]; split; [by intros h sent ?%Hno|done]].
  destruct (pipeline_check sha256 who commands [] []) as [[allowed slots]|e] eqn:Hck;
    [|intros [= <- <-]; split; [by intros h sent ?%Hno|done]].
  pose proof Hck as (Ha & Hs & Hinv)%pipeline_check_spec. cbn [app] in Ha, Hs. rewrite <- Ha.
  cbn -[acquire pipeline_and_release]. case_decide as Hz.
  { intros [= <- <-]. split; [by intros h sent ?%Hno|]. intros _ response [= <-].
    destruct commands as [|c commands]; [|cbn in Hz; lia]. rewrite Ha. split; [done|]. exists []. split; [done|constructor]. }
  destruct allowed as [|c0 allowed0] eqn:Hal.
  - cbn. destruct (checked_slots_line_up sha256 who commands [] slots (response_encoding headers)
      (max_response_bytes (load (server cfg))) [] Hck) as [Hali _].
    destruct (pipeline_slots _ slots [] _ []) as [[shown [|r rest]]|e] eqn:Hsl; cbn;
      intros [= <- <-]; (split; [by intros h sent ?%Hno|]); try done.
    intros _ response [= <-]. split; [done|]. exists shown. split; [done|by apply Hali].
  - rewrite <- Hal in *. intros Hrun.
    destruct (run_pipeline sha256 cfg who orc headers commands allowed slots hist1 hist answer) as [Hsent Hbatch];
      [done|by rewrite Hal|done|exact Hrun|].
    split.
    + intros h sent Hin. destruct (Hbatch h sent Hin) as (-> & Hh & Hlen & Hok). split; [done|]. by exists hist1.
    + intros Hnone response ->. destruct (Hsent eq_refl) as [h Hh]. by apply Hnone in Hh.
Qed.

(** The end of a transaction request, from the acquisition on. *)
Lemma run_transaction cfg who orc headers sent hist hist' answer :
  existsb backend_call hist = false →
  run orc (do? handle <- acquire cfg (pool who);
           do r <- transaction_and_release handle sent;
           do? results <- Ret (map_err (map_exec_error cfg) r);
           do? response <- Ret (transaction_slots (response_encoding headers) results
             (max_response_bytes (load (server cfg))));
           Ret (Ok (json_response (Body.Slots response)))) hist = (hist', answer) →
  ∀ h cmds, Call.Transaction h cmds ∈ hist' → cmds = sent.
Proof.
  intros Hh Hrun h cmds Hin.
  assert (Call.Transaction h cmds ∉ hist) as Hno by (by apply no_backend_call).
  revert Hrun. unfold acquire, transaction_and_release. cbn.
  destruct (orc _ (Eff.Acquire _) _) as [h0|]; cbn; [|intros [= <- <-]; set_solver].
  intros Hrun. assert (hist' = Call.Release h0 :: Call.Transaction h0 sent ::
    Call.Acquire (pool who) (Some h0) :: hist) as -> by (revert Hrun; by repeat (case_match; cbn); intros [= <- <-]).
  set_solver.
Qed.

(** C19. A transaction is all or nothing before it reaches Redis: if the
    request parses and some command of it is refused, then nothing is acquired
    and nothing is sent, and the answer is the refusal of the first such
    command (or the rate limiter's); a transaction that is sent has all the
    commands of the request, normalised and in order. *)
Theorem transaction_all_or_nothing sha256 number_to_string value_to_string from_slice cfg who headers
    (orc : Oracle) b commands :
  orc _ Eff.ReadBody [Call.Silent] = BodyRead.Body b →
  Parse.pipeline number_to_string value_to_string from_slice b
    (max_pipeline_commands (server cfg)) (max_request_elements (server cfg)) = Ok commands →
  let '(hist, answer) := run orc
    (multi_exec_execute sha256 number_to_string value_to_string from_slice cfg who headers) [] in
  (∀ l1 c l2 e, commands = l1 ++ c :: l2 → Forall (λ a, check sha256 who a = Ok tt) l1 →
     check sha256 who c = Err e →
     existsb backend_call hist = false ∧
     (answer = Err (app_error_of_acl e) ∨ ∃ secs, answer = Err (AppError.RateLimited secs))) ∧
  (∀ h sent, Call.Transaction h sent ∈ hist → sent = Compat.normalize <$> commands).
Proof.
  intros Hb Hparse. destruct (run _ _ _) as [hist answer] eqn:Hrun. revert Hrun.
  unfold multi_exec_execute, read_body. cbn -[charge_rate_limit acquire transaction_and_release Parse.pipeline].
  rewrite Hb. cbn -[charge_rate_limit acquire transaction_and_release Parse.pipeline]. rewrite Hparse.
  cbn -[charge_rate_limit acquire transaction_and_release].
  assert (∀ h sent hist', existsb backend_call hist' = false → Call.Transaction h sent ∉ hist') as Hno
    by (intros; by apply no_backend_call).
  destruct commands as [|c0 cs0] eqn:Hcs; [|rewrite <- Hcs in *; clear Hcs]; rewrite run_bind;
    match goal with |- context [run orc (charge_rate_limit ?k ?n) ?h] =>
      destruct (run_charge_quiet orc k n h eq_refl) as (hist1 & r & -> & Hquiet & He) end.
  { intros Hrun. assert (hist = hist1) as -> by (destruct r; by injection Hrun).
    split; [by intros [|? ?] ? ? ? [=]|]. by intros h sent ?%Hno. }
  destruct r as [[]|e0].
  2:{ intros [= <- <-]. split; [|by intros h sent ?%Hno].
      intros. split; [done|]. right. destruct (He e0 eq_refl) as [secs ->]. eauto. }
  assert (∀ l1 c l2 e, commands = l1 ++ c :: l2 → Forall (λ a, check sha256 who a = Ok tt) l1 →
    check sha256 who c = Err e →
    try_for_each (λ c, map_err app_error_of_acl (check sha256 who c)) commands = Err (app_error_of_acl e))
    as Hfirst.
  { intros l1 c l2 e -> Hl1 Hc. rewrite try_for_each_app; [by rewrite Hc|].
    eapply Forall_impl; [exact Hl1|]. intros a Ha. by rewrite Ha. }
  destruct (try_for_each _ commands) as [[]|e] eqn:Hall; intros Hrun.
  - split; [intros l1 c l2 e Heq Hl1 Hc; specialize (Hfirst l1 c l2 e Heq Hl1 Hc); done|].
    by eapply run_transaction.
  - injection Hrun as <- <-. split; [|by intros h sent ?%Hno].
    intros l1 c l2 e' Heq Hl1 Hc. split; [done|]. left.
    specialize (Hfirst l1 c l2 e' Heq Hl1 Hc). congruence.
Qed.

(** An environment in which every call succeeds, for the witnesses. *)
Definition sample_oracle (b : bytes) : Oracle := λ X e _,
  match e in Eff.Eff X return X with
  | Eff.ReadBody => BodyRead.Body b
  | Eff.Emit _ => tt
  | Eff.Probe _ => Ok tt
  | Eff.Charge _ _ => Ok tt
  | Eff.TakeForgiven => 0%Z
  | Eff.Authenticate _ => Ok (Some sample_who)
  | Eff.KeyFor _ => Err JwksError.NotFound
  | Eff.IsActive _ => Ok true
  | Eff.CacheGet _ => None
  | Eff.CacheInsert _ _ => tt
  | Eff.UnixSecs => 0%Z
  | Eff.Instant => 0%Z
  | Eff.Acquire _ => Ok (mkHandle 1)
  | Eff.Readiness => []
  | Eff.Execute _ _ => Ok (RespValue.Simple "PONG")
  | Eff.Pipeline _ cmds => (λ _, Ok RespValue.Nil) <$> cmds
  | Eff.Transaction _ cmds => Ok ((λ _, Ok RespValue.Nil) <$> cmds)
  | Eff.Release _ => tt
  end.

Definition sample_config : Config := mkConfig server_default (mkAuthConfig None ∅) ∅.

(** A request that runs through all phases. *)
Example request_reaches_backend :
  let hist := (run (sample_oracle "") (pipeline_execute (λ b, b) (λ _, "1") (λ _, Ok "{}")
    (λ _, sample_pipeline) sample_config sample_who (λ _, None)) []).1 in
  phase_of (λ b, b) sample_who hist = Some Phase.Finished.
Proof. vm_compute. reflexivity. Qed.

(** A pipeline of a denied and a permitted command. *)
Definition denied_pipeline : Document :=
  mkDocument (Node.Seq [(true, Node.Seq [(true, Node.Str "KEYS"); (true, Node.Str "*")] true);
                        (true, Node.Seq [(true, Node.Str "GET"); (true, Node.Str "k")] true)] true) true.

Lemma pipeline_slots_line_up_witness :
  let '(hist, answer) := run (sample_oracle "") (pipeline_execute (λ b, b) (λ _, "1") (λ _, Ok "{}")
    (λ _, denied_pipeline) sample_config sample_who (λ _, None)) [] in
  Call.Execute (mkHandle 1) [mkRedisCommand "GET" ["k"]] ∈ hist ∧
  ∃ slots, answer = Ok (json_response (Body.Slots slots)) ∧
    aligned (λ b, b) sample_who (response_encoding (λ _, None))
      [mkRedisCommand "KEYS" ["*"]; mkRedisCommand "GET" ["k"]] [Ok RespValue.Nil] slots.
Proof.
  pose proof (pipeline_slots_line_up (λ b, b) (λ _, "1") (λ _, Ok "{}") (λ _, denied_pipeline)
    sample_config sample_who (λ _, None) (sample_oracle "") ""
    [mkRedisCommand "KEYS" ["*"]; mkRedisCommand "GET" ["k"]] eq_refl ltac:(vm_compute; reflexivity)) as H.
  destruct (run _ _ _) as [hist answer] eqn:Hrun. destruct H as [H _].
  assert (Call.Execute (mkHandle 1) [mkRedisCommand "GET" ["k"]] ∈ hist ∧ is_ok answer = true) as [Hin Hok].
  { vm_compute in Hrun. injection Hrun as <- <-. split; [set_solver|done]. }
  split; [exact Hin|]. destruct answer as [response|e]; [|done].
  destruct (H _ _ Hin) as (_ & before & _ & _ & _ & Hshown). destruct (Hshown response eq_refl) as (slots & -> & Hal).
  exists slots. split; [done|exact Hal].
Defined.

Lemma transaction_all_or_nothing_witness :
  [mkRedisCommand "PING" []; mkRedisCommand "PING" []] =
  Compat.normalize <$> [mkRedisCommand "PING" []; mkRedisCommand "PING" []].
Proof.
  pose proof (transaction_all_or_nothing (λ b, b) (λ _, "1") (λ _, Ok "{}") (λ _, sample_pipeline)
    sample_config sample_who (λ _, None) (sample_oracle "") ""
    [mkRedisCommand "PING" []; mkRedisCommand "PING" []] eq_refl ltac:(vm_compute; reflexivity)) as H.
  destruct (run _ _ _) as [hist answer] eqn:Hrun. destruct H as [_ H].
  apply (H (mkHandle 1)). vm_compute in Hrun. injection Hrun as <- _. set_solver.
Defined.

(** Error responses: the status of each error, a [Retry-After] header
    exactly for rate limiting, overload and an open circuit, and no detail of
    an internal failure, a backend outage or an authentication outage in the
    body, which depends on the kind of error only. *)
Theorem error_responses (orc : Oracle) e hist :
  let r := (run orc (into_response e) hist).2 in
  status r = match e with
    | AppError.Unauthorized => 401 | AppError.Forbidden _ => 403
    | AppError.BadRequest _ | AppError.RedisError _ => 400 | AppError.RateLimited _ => 429
    | AppError.AuthServiceUnavailable | AppError.Overloaded _ | AppError.PoolOpen _ _ => 503
    | AppError.ResponseTooLarge => 502 | AppError.RequestBodyTimeout => 408
    | AppError.Internal _ => 500 end%Z ∧
  (∀ secs, retry_after r = Some secs ↔
     e = AppError.RateLimited secs ∨ e = AppError.Overloaded secs ∨
     ∃ reason, e = AppError.PoolOpen secs reason) ∧
  (∀ m, body r = Body.Error m →
     (∃ m', (e = AppError.Forbidden m' ∨ e = AppError.BadRequest m' ∨ e = AppError.RedisError m') ∧ m = m') ∨
     m ∈ ["Unauthorized"; "Rate limit exceeded"; "Authentication service unavailable";
          "Server overloaded"; "Backend unavailable"; "Response too large"; "Request body timeout";
          "Internal server error"]).
Proof.
  destruct e; cbn; (split_and!; [done|intros ?; split; [|]; naive_solver|]); intros m0 [= <-];
    first [left; by eauto 6 | right; set_solver].
Qed.

(** The extractor lets a request through only with an authorization
    header of the Bearer scheme with a non-empty credential that the
    authenticator recognised, and whose bucket is not in debt; without such a
    header the authenticator is not even asked and the answer is 401. *)
Theorem extractor_guards (orc : Oracle) headers :
  let '(hist, answer) := run orc (from_request_parts headers) [] in
  (∀ who, answer = Ok who →
     ∃ scheme bearer, headers "authorization" = Some (scheme +:+ String " " bearer) ∧
       eq_ignore_ascii_case scheme "Bearer" = true ∧ bearer ≠ "" ∧
       orc _ (Eff.Authenticate bearer) [] = Ok (Some who) ∧
       orc _ (Eff.Probe (bucket_key who)) [Call.Authenticate bearer] = Ok tt) ∧
  (∀ bearer, Call.Authenticate bearer ∈ hist →
     ∃ scheme, headers "authorization" = Some (scheme +:+ String " " bearer) ∧
       eq_ignore_ascii_case scheme "Bearer" = true ∧ bearer ≠ "") ∧
  ((∀ scheme bearer, headers "authorization" = Some (scheme +:+ String " " bearer) →
      eq_ignore_ascii_case scheme "Bearer" = false ∨ bearer = "") →
   answer = Err AppError.Unauthorized).
Proof.
  assert (∀ s a b, split_once_space s = Some (a, b) → s = a +:+ String " " b) as Hsplit.
  { induction s as [|c s IH]; [done|]. cbn. intros a b. destruct (Ascii.eqb_spec c " ") as [->|].
    - by intros [= <- <-].
    - destruct (split_once_space s) as [[a' b']|]; [|done]. intros [= <- <-]. by rewrite (IH a' b'). }
  unfold from_request_parts. destruct (headers "authorization") as [h|]; [|cbn; split_and!; done || set_solver].
  destruct (split_once_space h) as [[scheme bearer]|] eqn:Hs; [|cbn; split_and!; done || set_solver].
  apply Hsplit in Hs as ->.
  destruct (negb _ || _) eqn:Hb; [cbn; split_and!; [done|set_solver|done]|].
  apply orb_false_iff in Hb as [Hb1%negb_false_iff Hb2%String.eqb_neq].
  assert (∀ hist' : list Call, (∀ b, Call.Authenticate b ∈ hist' → b = bearer) →
    ∀ b, Call.Authenticate b ∈ hist' → ∃ scheme',
      Some (scheme +:+ String " " bearer) = Some (scheme' +:+ String " " b) ∧
      eq_ignore_ascii_case scheme' "Bearer" = true ∧ b ≠ "") as Hauth by (intros ? H ? ->%H; eauto).
  assert (∀ a, (∀ scheme0 bearer0, Some (scheme +:+ String " " bearer) = Some (scheme0 +:+ String " " bearer0) →
      eq_ignore_ascii_case scheme0 "Bearer" = false ∨ bearer0 = "") → a = Err AppError.Unauthorized :> result Identity AppError)
    as Habs.
  { intros a H. destruct (H scheme bearer eq_refl); congruence. }
  rewrite run_bind. cbn [perform run].
  destruct (orc _ (Eff.Authenticate bearer) []) as [[who|]|e] eqn:Ha; cbn [call_of].
  - rewrite run_bind. cbn [perform run call_of].
    destruct (orc _ (Eff.Probe (bucket_key who)) _) as [[]|e] eqn:Hp;
      cbn; case_decide; cbn; split_and!; try (apply Hauth; set_solver); try apply Habs; try done.
    all: intros ? [= <-]; by eauto 10.
  - cbn. split_and!; [done|apply Hauth; set_solver|apply Habs].
  - destruct e; cbn; (split_and!; [done|apply Hauth; set_solver|apply Habs]).
Qed.
