(* ===== verification/Auth.v ===== *)
(** * Authentication: [src/src/adapters/static_auth.rs],
      [src/src/adapters/auth_chain.rs] and [src/src/adapters/jwt_auth.rs]

    Static bearer tokens, the chain of authenticators (with the one that
    [src/src/main.rs] builds), and Keycloak access
    tokens with optional introspection.  The cryptography and the token
    decoder of [jsonwebtoken] are parameters: [decode] takes the key and the
    validation the code builds, so the theorems say with which settings a token
    was checked.  The introspection cache is modelled completely; requests see
    it as shared state through the effects [CacheGet] and [CacheInsert]. *)
From S2P Require Import Prelude Domain F64 Convert Config RateLimit Ports.

(** ** Static tokens *)

(** [StaticAuth::new]. *)
Definition static_identity (digest : bytes) (token : StaticTokenConfig) : Identity :=
  let key := digest_hex digest in
  mkIdentity (String.substring 0 8 key) key (token_pool token) (token_read_only token) false
    (token_legacy token) (token_allowed_commands token) (token_blocked_commands token)
    (token_allowed_script_sha256 token) (token_key_prefix token).

Definition static_auth_new (tokens : gmap string StaticTokenConfig) : gmap string Identity :=
  map_imap (λ digest token, Some (static_identity digest token)) tokens.

(** [StaticAuth::authenticate]. *)
Definition static_authenticate (sha256 : bytes → bytes) (identities : gmap string Identity)
    (bearer : string) : Prog (result (option Identity) AuthError) :=
  Ret (Ok (identities !! sha256 bearer)).

(** ** The chain *)

(** [AuthChain::authenticate] over its links. *)
Fixpoint chain_authenticate (links : list (string → Prog (result (option Identity) AuthError)))
    (bearer : string) : Prog (result (option Identity) AuthError) :=
  match links with
  | [] => Ret (Err AuthError.Rejected)
  | link :: links =>
      do? found <- link bearer;
      match found with
      | Some who => Ret (Ok (Some who))
      | None => chain_authenticate links bearer
      end
  end.

(** ** The introspection cache *)

Definition MAX_INTROSPECTION_ENTRIES : Z := 100000.
Definition CLOCK_SKEW_SECS : Z := 30.

Record CacheEntry : Type := mkCacheEntry {
  active : bool;
  expires_at : Z;
  cache_last_access : Z;
  cache_order : Z;
}.

(** The recency index is a [BTreeSet] ordered by access time, then by order,
    then by digest. *)
Definition LruKey : Type := Z * Z * bytes.

Definition lru_le (a b : LruKey) : Prop :=
  let '(t, o, d) := a in
  let '(t', o', d') := b in
  (t < t' ∨ t = t' ∧ (o < o' ∨ o = o' ∧ String.leb d d' = true))%Z.

Record IntrospectionEntries : Type := mkEntries {
  cache_entries : gmap bytes CacheEntry;
  cache_lru : gset LruKey;
  cache_next_order : Z;
}.

(** The constant fields of [IntrospectionCache]. *)
Record CacheParams : Type := mkCacheParams {
  ttl_secs : Z;
  max_entries : Z;
}.

(** [IntrospectionCache::new]. *)
Definition cache_new (ttl : Z) : CacheParams := mkCacheParams ttl MAX_INTROSPECTION_ENTRIES.
Definition cache_init : IntrospectionEntries := mkEntries ∅ ∅ 0.

#[export] Instance lru_le_dec a b : Decision (lru_le a b).
Proof. destruct a as [[t o] d], b as [[t' o'] d']. unfold lru_le. apply _. Defined.

(** [BTreeSet::pop_first]. *)
Definition lru_first (s : gset LruKey) : option LruKey :=
  foldr (λ k best, match best with
    | None => Some k
    | Some b => if decide (lru_le k b) then Some k else Some b
    end) None (elements s).

(** [IntrospectionCache::get]. *)
Definition cache_get (now : Z) (digest : bytes) (st : IntrospectionEntries) :
    option bool * IntrospectionEntries :=
  match cache_entries st !! digest with
  | None => (None, st)
  | Some entry =>
      let es := delete digest (cache_entries st) in
      let lru := cache_lru st ∖ {[ (cache_last_access entry, cache_order entry, digest) ]} in
      if decide (expires_at entry ≤ now)%Z then (None, mkEntries es lru (cache_next_order st))
      else
        let order := cache_next_order st in
        (Some (active entry),
         mkEntries (<[digest := mkCacheEntry (active entry) (expires_at entry) now order]> es)
           ({[ (now, order, digest) ]} ∪ lru) (wrapping_add order 1))
  end.

(** [IntrospectionCache::insert]. *)
Definition cache_insert (c : CacheParams) (now : Z) (digest : bytes) (a : bool)
    (st : IntrospectionEntries) : IntrospectionEntries :=
  let '(es, lru) :=
    match cache_entries st !! digest with
    | Some previous =>
        (delete digest (cache_entries st),
         cache_lru st ∖ {[ (cache_last_access previous, cache_order previous, digest) ]})
    | None =>
        if decide (max_entries c ≤ Z.of_nat (size (cache_entries st)))%Z then
          match lru_first (cache_lru st) with
          | Some ((_, _, oldest) as k) => (delete oldest (cache_entries st), cache_lru st ∖ {[ k ]})
          | None => (cache_entries st, cache_lru st)
          end
        else (cache_entries st, cache_lru st)
    end in
  let order := cache_next_order st in
  mkEntries
    (<[digest := mkCacheEntry a (now + from_secs (ttl_secs c)) now order]> es)
    ({[ (now, order, digest) ]} ∪ lru) (wrapping_add order 1).

(** One removal of the sweep. *)
Definition cache_remove (st : IntrospectionEntries) (digest : bytes) : IntrospectionEntries :=
  match cache_entries st !! digest with
  | Some e => mkEntries (delete digest (cache_entries st))
      (cache_lru st ∖ {[ (cache_last_access e, cache_order e, digest) ]}) (cache_next_order st)
  | None => st
  end.

(** [IntrospectionCache::sweep]; [ks] is the map's iteration order. *)
Definition is_expired (now : Z) (st : IntrospectionEntries) (k : bytes) : bool :=
  match cache_entries st !! k with
  | Some e => bool_decide (expires_at e ≤ now)%Z
  | None => false
  end.

Definition cache_sweep (now : Z) (ks : list bytes) (st : IntrospectionEntries) :
    Z * IntrospectionEntries :=
  let expired := filter (λ k, is_expired now st k = true) ks in
  (Z.of_nat (length expired), foldl cache_remove st expired).

(** ** JWT access tokens *)

Module Audience.
Inductive Audience : Type := One (value : string) | Many (values : list string) | Missing.
End Audience.
Abbreviation Audience := Audience.Audience.

(** [Audience::contains]. *)
Definition audience_contains (a : Audience) (expected : string) : bool :=
  match a with
  | Audience.One value => String.eqb value expected
  | Audience.Many values => existsb (λ value, String.eqb value expected) values
  | Audience.Missing => false
  end.

Record ClientAccess : Type := mkClientAccess { roles : list string }.

Record Claims : Type := mkClaims {
  sub : string;
  aud : Audience;
  azp : option string;
  typ : string;
  resource_access : gmap string ClientAccess;
  srh_pool : option string;
  srh_blocked_commands : list string;
  srh_key_prefix : option string;
}.

(** The algorithms of [jsonwebtoken] the code selects. *)
Module Algorithm.
Inductive Algorithm : Type := RS256 | RS384 | RS512 | ES256 | ES384.
End Algorithm.
Abbreviation Algorithm := Algorithm.Algorithm.

(** [fn algorithm]. *)
Definition jwt_algorithm (a : JwtAlgorithm) : Algorithm :=
  match a with
  | JwtAlgorithm.Rs256 => Algorithm.RS256
  | JwtAlgorithm.Rs384 => Algorithm.RS384
  | JwtAlgorithm.Rs512 => Algorithm.RS512
  | JwtAlgorithm.Es256 => Algorithm.ES256
  | JwtAlgorithm.Es384 => Algorithm.ES384
  end.

(** The fields of [jsonwebtoken::Validation] the code sets. *)
Record Validation : Type := mkValidation {
  validation_algorithm : Algorithm;
  leeway : Z;
  validate_nbf : bool;
  validate_aud : bool;
  issuers : list string;
  required_spec_claims : list string;
}.

(** The fields of [JwtAuth] that do not change: the policy, the scripts of each
    pool, and whether there is an introspector. *)
Record JwtAuth : Type := mkJwtAuth {
  jwt_config : JwtConfig;
  jwt_pools : gmap string (gset string);
  introspects : bool;
}.

(** [JwtAuth::new]. *)
Definition jwt_auth_new (config : JwtConfig) (ps : gmap string PoolConfig) (introspector : bool) :
    JwtAuth * CacheParams :=
  (mkJwtAuth config (pool_allowed_script_sha256 <$> ps) introspector,
   cache_new (introspection_cache_secs (introspection config))).

(** [JwtAuth::identity]. *)
Definition jwt_identity (j : JwtAuth) (c : Claims) : result Identity AuthError :=
  let roles :=
    match resource_access c !! jwt_client_id (jwt_config j) with Some a => roles a | None => [] end in
  let role name := existsb (String.eqb (role_prefix (jwt_config j) +:+ name)) roles in
  let? access :=
    if role "admin" then Ok (false, true)
    else if role "write" then Ok (false, false)
    else if role "read" then Ok (true, false)
    else Err (AuthError.Forbidden "NOPERM no redis role") in
  let '(read_only, is_admin) := access in
  let pool := default "default" (srh_pool c) in
  match jwt_pools j !! pool with
  | None => Err (AuthError.Forbidden "NOPERM invalid redis pool")
  | Some scripts =>
      Ok (mkIdentity (sub c) (sub c) pool read_only is_admin false None
            (list_to_set (to_ascii_uppercase <$> srh_blocked_commands c)) scripts (srh_key_prefix c))
  end.

Section Jwt.
(** [decode_header]: the key id of a well-formed header; the key of a JWK
    document; [decode]: the claims of a token that passes a validation. *)
Context {DecodingKey : Type}.
Context (decode_header : string → option (option string)).
Context (decoding_key : bytes → option DecodingKey).
Context (decode : string → DecodingKey → Validation → option Claims).
(** [URL_SAFE_NO_PAD.decode] and [serde_json::from_slice]. *)
Context (url_safe_decode : string → option bytes).
Context (json_from_slice : bytes → option Value).
Context (sha256 : bytes → bytes).

Definition jwt_validation (j : JwtAuth) (a : JwtAlgorithm) : Validation :=
  mkValidation (jwt_algorithm a) CLOCK_SKEW_SECS true false [jwt_issuer (jwt_config j)]
    ["exp"; "iss"; "sub"].

(** The introspection part of [JwtAuth::validate]. *)
Definition jwt_introspect (j : JwtAuth) (bearer : string) : Prog (result unit AuthError) :=
  if introspects j then
    let digest := sha256 bearer in
    do cached <- perform (Eff.CacheGet digest);
    do? active <-
      match cached with
      | Some active => Ret (Ok active)
      | None =>
          do r <- perform (Eff.IsActive bearer);
          match r with
          | Err e => Ret (Err (AuthError.ServiceUnavailable (introspect_message e)))
          | Ok active => do _ <- perform (Eff.CacheInsert digest active); Ret (Ok active)
          end
      end;
    Ret (if active : bool then Ok tt else Err AuthError.Rejected)
  else Ret (Ok tt).

(** [JwtAuth::validate]. *)
Definition jwt_validate (j : JwtAuth) (bearer : string) : Prog (result Identity AuthError) :=
  match decode_header bearer with
  | None | Some None => Ret (Err AuthError.Rejected)
  | Some (Some kid) =>
      do r <- perform (Eff.KeyFor kid);
      do? cached <- Ret (map_err (λ e, match e with
                          | JwksError.NotFound => AuthError.Rejected
                          | JwksError.Unavailable reason => AuthError.ServiceUnavailable reason
                          end) r);
      match decoding_key (material cached) with
      | None => Ret (Err AuthError.Rejected)
      | Some key =>
          match decode bearer key (jwt_validation j (algorithm cached)) with
          | None => Ret (Err AuthError.Rejected)
          | Some c =>
              let audience := jwt_audience (jwt_config j) in
              if negb (String.eqb (typ c) "Bearer")
                 || (negb (audience_contains (aud c) audience)
                     && negb (bool_decide (azp c = Some audience)))
              then Ret (Err AuthError.Rejected)
              else
                do? _ <- jwt_introspect j bearer;
                Ret (jwt_identity j c)
          end
      end
  end.

(** [bearer.bytes().filter(|b| b == '.').count()] and [split_once('.')]. *)
Fixpoint count_dots (s : string) : nat :=
  match s with
  | EmptyString => 0
  | String c s => if Ascii.eqb c "." then S (count_dots s) else count_dots s
  end.

Fixpoint before_dot (s : string) : option string :=
  match s with
  | EmptyString => None
  | String c s =>
      if Ascii.eqb c "." then Some EmptyString
      else match before_dot s with Some a => Some (String c a) | None => None end
  end.

Definition has_json_header (bearer : string) : bool :=
  match (before_dot bearer ≫= url_safe_decode) ≫= json_from_slice with
  | Some (Value.Object _) => true
  | _ => false
  end.

(** [JwtAuth::authenticate]. *)
Definition jwt_authenticate (j : JwtAuth) (bearer : string) :
    Prog (result (option Identity) AuthError) :=
  if negb (count_dots bearer =? 2) then Ret (Ok None)
  else
    match decode_header bearer with
    | None => Ret (if has_json_header bearer then Err AuthError.Rejected else Ok None)
    | Some _ => do r <- jwt_validate j bearer; Ret (result_map Some r)
    end.

(** The chain the server is started with: JWTs first when they are configured,
    then static tokens. *)
Definition server_authenticate (jwt : option JwtAuth) (tokens : gmap string StaticTokenConfig)
    (bearer : string) : Prog (result (option Identity) AuthError) :=
  let static_auth := static_authenticate sha256 (static_auth_new tokens) in
  match jwt with
  | Some j => chain_authenticate [jwt_authenticate j; static_auth] bearer
  | None => chain_authenticate [static_auth] bearer
  end.
End Jwt.

(** ** The cache: invariant and freshness *)

(** The cache together with the last answer inserted for each token and its
    time (a ghost), and the clock. *)
Record CacheSys : Type := mkCacheSys {
  cache_state : IntrospectionEntries;
  inserted : gmap bytes (bool * Z);
  cache_now : Z;
}.

Inductive cache_step (c : CacheParams) : CacheSys → CacheSys → Prop :=
| cache_tick st log now now' :
    (now ≤ now')%Z → cache_step c (mkCacheSys st log now) (mkCacheSys st log now')
| cache_step_get st log now d r st' :
    cache_get now d st = (r, st') → cache_step c (mkCacheSys st log now) (mkCacheSys st' log now)
| cache_step_insert st log now d a :
    cache_step c (mkCacheSys st log now)
      (mkCacheSys (cache_insert c now d a st) (<[d := (a, now)]> log) now)
| cache_step_sweep st log now ks n st' :
    cache_sweep now ks st = (n, st') → cache_step c (mkCacheSys st log now) (mkCacheSys st' log now).

Definition cache_reachable (c : CacheParams) (s : CacheSys) : Prop :=
  ∃ now, rtc (cache_step c) (mkCacheSys cache_init ∅ now) s.

(** The recency index lists exactly the entries. *)
Definition lru_indexes (es : gmap bytes CacheEntry) (lru : gset LruKey) : Prop :=
  ∀ t o d, (t, o, d) ∈ lru ↔
    ∃ e, es !! d = Some e ∧ cache_last_access e = t ∧ cache_order e = o.

Record cache_inv (c : CacheParams) (s : CacheSys) : Prop := {
  cache_indexed : lru_indexes (cache_entries (cache_state s)) (cache_lru (cache_state s));
  cache_bounded : (Z.of_nat (size (cache_entries (cache_state s))) ≤ Z.max 1 (max_entries c))%Z;
  cache_fresh : ∀ d e, cache_entries (cache_state s) !! d = Some e →
    ∃ at_, inserted s !! d = Some (active e, at_) ∧
      expires_at e = (at_ + from_secs (ttl_secs c))%Z ∧ (at_ ≤ cache_now s)%Z;
}.

(** Earlier, or as early and with a smaller order. *)
Definition no_later (a b : LruKey) : Prop := (a.1.1 < b.1.1 ∨ a.1.1 = b.1.1 ∧ a.1.2 ≤ b.1.2)%Z.

Lemma lru_first_Some s k : lru_first s = Some k → k ∈ s ∧ ∀ k', k' ∈ s → no_later k k'.
Proof.
  unfold lru_first. setoid_rewrite <- (elem_of_elements s). generalize (elements s) as l.
  intros l. revert k. induction l as [|x l IH]; intros k; [done|]. simpl.
  destruct (foldr _ None l) as [b|] eqn:Hb.
  - destruct (IH b eq_refl) as [Hin Hmin]. case_decide as Hx; intros [= <-].
    + split; [left|]. intros k' [->|Hk]%elem_of_cons; [unfold no_later; lia|].
      specialize (Hmin k' Hk). destruct x as [[t o] d], b as [[t' o'] d']. unfold no_later, lru_le in *.
      simpl in *. lia.
    + split; [by right|]. intros k' [->|Hk]%elem_of_cons; [|auto].
      destruct x as [[t o] d], b as [[t' o'] d']. unfold no_later, lru_le in *. simpl in *. lia.
  - intros [= <-]. destruct l as [|y l]; [|simpl in Hb; by repeat case_match].
    split; [left|]. intros k' [->|?%elem_of_nil]%elem_of_cons; [unfold no_later; lia|done].
Qed.

Lemma lru_first_None s : lru_first s = None → s = ∅.
Proof.
  unfold lru_first. intros Hn. apply leibniz_equiv, elements_empty_iff.
  destruct (elements s) as [|x l]; [done|]. simpl in Hn. by repeat case_match.
Qed.

Lemma lru_indexes_delete es lru d e :
  lru_indexes es lru → es !! d = Some e →
  lru_indexes (delete d es) (lru ∖ {[ (cache_last_access e, cache_order e, d) ]}).
Proof.
  intros Hi Hd t o d'. rewrite elem_of_difference, not_elem_of_singleton, (Hi t o d'). split.
  - intros [(e' & He' & <- & <-) Hne]. exists e'. split_and!; try done.
    rewrite lookup_delete_ne; [done|]. intros <-. simplify_eq.
  - intros (e' & [Hne He']%lookup_delete_Some & <- & <-). split; [eauto|]. congruence.
Qed.

Lemma lru_indexes_insert es lru d e :
  lru_indexes es lru → es !! d = None →
  lru_indexes (<[d := e]> es) ({[ (cache_last_access e, cache_order e, d) ]} ∪ lru).
Proof.
  intros Hi Hd t o d'. rewrite elem_of_union, elem_of_singleton, (Hi t o d'). split.
  - intros [[= -> -> ->]|(e' & He' & <- & <-)].
    + exists e. by rewrite lookup_insert_eq.
    + exists e'. rewrite lookup_insert_ne by congruence. done.
  - intros (e' & He' & <- & <-). apply lookup_insert_Some in He' as [[<- <-]|[Hne He']]; [by left|eauto].
Qed.

(** The entries a cache operation may leave behind: those it had, minus some. *)
Lemma cache_inv_shrink c s es lru n :
  cache_inv c s → lru_indexes es lru → es ⊆ cache_entries (cache_state s) →
  cache_inv c (mkCacheSys (mkEntries es lru n) (inserted s) (cache_now s)).
Proof.
  intros [Hi Hb Hf] Hi' Hsub. split; simpl; [done| |].
  - apply map_subseteq_size in Hsub. lia.
  - intros d e He. apply Hf. by eapply lookup_weaken.
Qed.

(** Writing an entry whose answer is the last one inserted. *)
Lemma cache_inv_write c s es lru n d a at_ now log :
  cache_inv c s → lru_indexes es lru → es ⊆ cache_entries (cache_state s) → es !! d = None →
  (Z.of_nat (S (size es)) ≤ Z.max 1 (max_entries c))%Z →
  log !! d = Some (a, at_) → (at_ ≤ now)%Z → cache_now s = now →
  (∀ d', d' ≠ d → log !! d' = inserted s !! d') →
  cache_inv c (mkCacheSys
    (mkEntries (<[d := mkCacheEntry a (at_ + from_secs (ttl_secs c)) now n]> es)
       ({[ (now, n, d) ]} ∪ lru) (wrapping_add n 1)) log now).
Proof.
  intros [Hi Hb Hf] Hi' Hsub Hd Hsize Hlog Hat Hnow Hother. split; simpl.
  - by apply (lru_indexes_insert es lru d (mkCacheEntry a (at_ + from_secs (ttl_secs c)) now n)).
  - by rewrite map_size_insert_None.
  - intros d' e [[<- <-]|[Hne He]]%lookup_insert_Some; [by exists at_|].
    rewrite Hother by done. rewrite <- Hnow. apply Hf. by eapply lookup_weaken.
Qed.

Lemma cache_remove_inv c st log now k :
  cache_inv c (mkCacheSys st log now) → cache_inv c (mkCacheSys (cache_remove st k) log now).
Proof.
  intros Hinv. unfold cache_remove. destruct (cache_entries st !! k) as [e|] eqn:Hk; [|done].
  apply (cache_inv_shrink c (mkCacheSys st log now)); [done| |apply delete_subseteq].
  apply lru_indexes_delete; [apply Hinv|done].
Qed.

Lemma size_delete_S {A} (m : gmap bytes A) k x : m !! k = Some x → S (size (delete k m)) = size m.
Proof.
  intros Hk. rewrite map_size_delete, Hk. destruct (size m) eqn:Hs; [|lia].
  apply map_size_empty_inv in Hs. by rewrite Hs, lookup_empty in Hk.
Qed.

Lemma cache_get_inv c st log now d r st' :
  cache_inv c (mkCacheSys st log now) → cache_get now d st = (r, st') →
  cache_inv c (mkCacheSys st' log now).
Proof.
  intros Hinv. unfold cache_get. destruct (cache_entries st !! d) as [e|] eqn:Hd; [|by intros [= _ <-]].
  pose proof (lru_indexes_delete _ _ d e (cache_indexed _ _ Hinv) Hd) as Hi.
  case_decide; intros [= _ <-].
  - apply (cache_inv_shrink c (mkCacheSys st log now)); [done|done|apply delete_subseteq].
  - destruct (cache_fresh _ _ Hinv d e Hd) as (at_ & Hlog & -> & Hat).
    eapply (cache_inv_write c (mkCacheSys st log now)); try done; [apply delete_subseteq| |].
    + by rewrite lookup_delete_eq.
    + pose proof (cache_bounded _ _ Hinv) as Hb. simpl in Hb. by rewrite (size_delete_S _ _ _ Hd).
Qed.

Lemma cache_insert_inv c st log now d a :
  cache_inv c (mkCacheSys st log now) →
  cache_inv c (mkCacheSys (cache_insert c now d a st) (<[d := (a, now)]> log) now).
Proof.
  intros Hinv. pose proof (cache_indexed _ _ Hinv) as Hi. pose proof (cache_bounded _ _ Hinv) as Hb.
  simpl in Hi, Hb. unfold cache_insert.
  assert (∀ es lru, lru_indexes es lru → es ⊆ cache_entries st → es !! d = None →
    (Z.of_nat (S (size es)) ≤ Z.max 1 (max_entries c))%Z →
    cache_inv c (mkCacheSys (mkEntries
      (<[d := mkCacheEntry a (now + from_secs (ttl_secs c)) now (cache_next_order st)]> es)
      ({[ (now, cache_next_order st, d) ]} ∪ lru) (wrapping_add (cache_next_order st) 1))
      (<[d := (a, now)]> log) now)) as Hwrite.
  { intros es lru Hi' Hsub Hd Hs. eapply (cache_inv_write c (mkCacheSys st log now)); try done.
    - by rewrite lookup_insert_eq.
    - intros d' Hne. by rewrite lookup_insert_ne. }
  destruct (cache_entries st !! d) as [e|] eqn:Hd.
  { apply Hwrite; [by apply lru_indexes_delete|apply delete_subseteq|by rewrite lookup_delete_eq|].
    by rewrite (size_delete_S _ _ _ Hd). }
  case_decide as Hfull; [|apply Hwrite; try done; lia].
  destruct (lru_first (cache_lru st)) as [[[t o] k]|] eqn:Hfirst.
  - apply lru_first_Some in Hfirst as [Hin _]. apply Hi in Hin as (e & He & <- & <-).
    apply Hwrite; [by apply lru_indexes_delete|apply delete_subseteq| |].
    + by rewrite lookup_delete_None; auto.
    + by rewrite (size_delete_S _ _ _ He).
  - apply lru_first_None in Hfirst. apply Hwrite; try done.
    assert (cache_entries st = ∅) as ->; [|rewrite map_size_empty; lia].
    apply map_eq. intros k. rewrite lookup_empty. destruct (cache_entries st !! k) as [e|] eqn:He; [|done].
    assert ((cache_last_access e, cache_order e, k) ∈ cache_lru st) as Hin by (apply Hi; eauto).
    rewrite Hfirst in Hin. set_solver.
Qed.

Lemma cache_step_inv c s s' : cache_inv c s → cache_step c s s' → cache_inv c s'.
Proof.
  intros Hinv Hstep. destruct Hstep as [st log now now' Hle|st log now d r st' Hget| |st log now ks n st' Hsw].
  - destruct Hinv as [Hi Hb Hf]. split; simpl in *; try done. intros d e He.
    destruct (Hf d e He) as (at_ & ? & ? & ?). exists at_. split_and!; try done. lia.
  - by eapply cache_get_inv.
  - by apply cache_insert_inv.
  - unfold cache_sweep in Hsw. injection Hsw as _ <-. generalize (filter (λ k, is_expired now st k = true) ks).
    intros l. revert st Hinv. induction l as [|k l IH]; intros st Hinv; [done|]. simpl.
    by apply IH, cache_remove_inv.
Qed.

Lemma cache_reachable_inv c s : cache_reachable c s → cache_inv c s.
Proof.
  intros [now Hs]. assert (cache_inv c (mkCacheSys cache_init ∅ now)) as Hinit.
  { split; simpl.
    - intros t o d. split; [set_solver|]. intros (e & He & _). by rewrite lookup_empty in He.
    - rewrite map_size_empty. lia.
    - intros d e. by rewrite lookup_empty. }
  induction Hs as [|s1 s2 s3 Hstep _ IH]; [done|]. apply IH. by eapply cache_step_inv.
Qed.

(** ** Properties *)

(** In every reachable state of the introspection cache, whatever the
    interleaving of lookups, insertions and sweeps: it holds at most its bound
    of entries, its recency index lists exactly those entries, and an answer
    it gives for a token is the last one inserted for it, less than the
    time-to-live ago; looking an answer up does not prolong its life. *)
Theorem cached_answers_are_fresh c s d a st' :
  cache_reachable c s →
  lru_indexes (cache_entries (cache_state s)) (cache_lru (cache_state s)) ∧
  (Z.of_nat (size (cache_entries (cache_state s))) ≤ Z.max 1 (max_entries c))%Z ∧
  (cache_get (cache_now s) d (cache_state s) = (Some a, st') →
   ∃ at_, inserted s !! d = Some (a, at_) ∧
     (at_ ≤ cache_now s < at_ + from_secs (ttl_secs c))%Z).
Proof.
  intros [Hi Hb Hf]%cache_reachable_inv. split_and!; [done|done|].
  unfold cache_get. destruct (cache_entries (cache_state s) !! d) as [e|] eqn:Hd; [|done].
  case_decide; [done|]. intros [= <- _]. destruct (Hf d e Hd) as (at_ & ? & ? & ?).
  exists at_. split; [done|lia].
Qed.

Lemma cached_answers_are_fresh_witness :
  ∃ at_, ({[ "d" := (true, 5%Z) ]} : gmap bytes (bool * Z)) !! "d" = Some (true, at_) ∧
    (at_ ≤ 6 < at_ + from_secs 30)%Z.
Proof.
  edestruct (cached_answers_are_fresh (cache_new 30)
    (mkCacheSys (cache_insert (cache_new 30) 5 "d" true cache_init) {[ "d" := (true, 5%Z) ]} 6) "d" true)
    as (_ & _ & H).
  - exists 5%Z. eapply rtc_l; [apply (cache_step_insert _ _ _ _ "d" true)|].
    eapply rtc_l; [|apply rtc_refl]. by apply cache_tick.
  - apply H. vm_compute. reflexivity.
Defined.

(** C33. A JWT is accepted only if its signature and claims were verified with
    a key the JWKS source trusts, under the algorithm recorded with that key
    (never one named by the token), the configured issuer and a leeway of
    thirty seconds; its type is Bearer, the configured audience is among its
    audiences or its authorized party; and, when introspection is on, the
    cache holds that it is active or, when the cache does not know, the
    authorization service answers so. *)
Theorem jwt_guards {DecodingKey} decode_header (decoding_key : bytes → option DecodingKey) decode sha256
    j bearer (orc : Oracle) hist hist' who :
  run orc (jwt_validate decode_header decoding_key decode sha256 j bearer) hist = (hist', Ok who) →
  ∃ kid key dk c,
    decode_header bearer = Some (Some kid) ∧ orc _ (Eff.KeyFor kid) hist = Ok key ∧
    decoding_key (material key) = Some dk ∧
    decode bearer dk (mkValidation (jwt_algorithm (algorithm key)) 30 true false
      [jwt_issuer (jwt_config j)] ["exp"; "iss"; "sub"]) = Some c ∧
    typ c = "Bearer" ∧
    (audience_contains (aud c) (jwt_audience (jwt_config j)) = true ∨
     azp c = Some (jwt_audience (jwt_config j))) ∧
    (introspects j = true →
       let h := Call.Silent :: hist in
       orc _ (Eff.CacheGet (sha256 bearer)) h = Some true ∨
       orc _ (Eff.CacheGet (sha256 bearer)) h = None ∧
       orc _ (Eff.IsActive bearer) (Call.Silent :: h) = Ok true) ∧
    jwt_identity j c = Ok who.
Proof.
  unfold jwt_validate. destruct (decode_header bearer) as [[kid|]|]; try done. cbn.
  destruct (orc _ (Eff.KeyFor kid) hist) as [key|e] eqn:Hkey; cbn; [|by destruct e].
  destruct (decoding_key (material key)) as [dk|] eqn:Hdk; [|done].
  destruct (decode bearer dk _) as [c|] eqn:Hc; [|done].
  destruct (_ || _) eqn:Hb; [done|]. apply orb_false_iff in Hb as [Ht%negb_false_iff%String.eqb_eq Ha].
  rewrite run_bind. intros Hrun. exists kid, key, dk, c. split_and!; try done.
  - apply andb_false_iff in Ha as [Ha%negb_false_iff|Ha%negb_false_iff]; [by left|].
    right. by apply bool_decide_eq_true in Ha.
  - intros Hi. revert Hrun. unfold jwt_introspect. rewrite Hi. cbn.
    match goal with |- context [orc _ (Eff.CacheGet ?d) ?h] =>
      destruct (orc _ (Eff.CacheGet d) h) as [[]|] eqn:Hget end; cbn; [by left|done|].
    match goal with |- context [orc _ (Eff.IsActive ?d) ?h] =>
      destruct (orc _ (Eff.IsActive d) h) as [[]|] eqn:Hact end; cbn; [by right|done..].
  - destruct (run orc (jwt_introspect sha256 j bearer) _) as [h [[]|]]; cbn in Hrun; [|done].
    by injection Hrun.
Qed.

(** The identity made from a token's claims: administrator exactly with
    the admin role of the configured client, read-only exactly without admin
    and write roles, refused without any role or with an unknown pool; never
    legacy, with the scripts of its pool and its own blocked commands in upper
    case. *)
Theorem jwt_identity_roles j c :
  let has r := ∃ a, resource_access c !! jwt_client_id (jwt_config j) = Some a ∧
                 (role_prefix (jwt_config j) +:+ r) ∈ roles a in
  let pool_name := default "default" (srh_pool c) in
  (∀ who, jwt_identity j c = Ok who →
     (is_admin who = true ↔ has "admin") ∧
     (read_only who = true ↔ ¬ has "admin" ∧ ¬ has "write") ∧
     (has "admin" ∨ has "write" ∨ has "read") ∧
     pool who = pool_name ∧ jwt_pools j !! pool_name = Some (allowed_script_sha256 who) ∧
     legacy who = false ∧ bucket_key who = sub c ∧ allowed_commands who = None ∧
     (∀ n, n ∈ blocked_commands who ↔ ∃ n', n' ∈ srh_blocked_commands c ∧ n = to_ascii_uppercase n')) ∧
  (¬ has "admin" → ¬ has "write" → ¬ has "read" →
   jwt_identity j c = Err (AuthError.Forbidden "NOPERM no redis role")) ∧
  (has "admin" ∨ has "write" ∨ has "read" → jwt_pools j !! pool_name = None →
   jwt_identity j c = Err (AuthError.Forbidden "NOPERM invalid redis pool")).
Proof.
  intros has pool_name. unfold jwt_identity. fold pool_name.
  set (rs := match resource_access c !! jwt_client_id (jwt_config j) with Some a => roles a | None => [] end).
  assert (∀ r, existsb (String.eqb (role_prefix (jwt_config j) +:+ r)) rs = true ↔ has r) as Hrole.
  { intros r. rewrite List.existsb_exists. subst rs has. cbv beta.
    destruct (resource_access c !! jwt_client_id (jwt_config j)) as [a|]; split.
    - intros (x & Hx & <-%String.eqb_eq). exists a. by rewrite list_elem_of_In.
    - intros (a' & [= <-] & Hin). eexists. rewrite <- list_elem_of_In. split; [exact Hin|apply String.eqb_refl].
    - by intros (x & [] & _).
    - by intros (a' & ? & _). }
  pose proof (Hrole "admin") as Ha. pose proof (Hrole "write") as Hw. pose proof (Hrole "read") as Hr.
  assert (∀ n, n ∈ (list_to_set (to_ascii_uppercase <$> srh_blocked_commands c) : gset string) ↔
    ∃ n', n' ∈ srh_blocked_commands c ∧ n = to_ascii_uppercase n') as Hup.
  { intros n. rewrite elem_of_list_to_set, list_elem_of_fmap. naive_solver. }
  assert (∀ (b : bool) r, (b = true ↔ has r) → if b then has r else ¬ has r) as Hcase.
  { intros [] r [H1 H2]; [by apply H1|]. by intros ?%H2. }
  apply Hcase in Ha, Hw, Hr. clearbody has. clear Hrole Hcase.
  destruct (existsb (String.eqb (role_prefix (jwt_config j) +:+ "admin")) rs),
    (existsb (String.eqb (role_prefix (jwt_config j) +:+ "write")) rs),
    (existsb (String.eqb (role_prefix (jwt_config j) +:+ "read")) rs); cbn;
    (destruct (jwt_pools j !! pool_name) as [scripts|] eqn:Hp; split_and!; try done; try tauto);
    intros who [= <-]; cbn; split_and!; done || tauto || (split; intros; done || tauto).
Qed.

(** A verified token for the witness, and an environment that trusts its key. *)
Definition sample_claims : Claims :=
  mkClaims "alice" (Audience.One "api") None "Bearer" {[ "srh" := mkClientAccess ["redis:read"] ]}
    None ["keys"] None.
Definition sample_jwt : JwtAuth :=
  mkJwtAuth (mkJwtConfig "https://issuer" "api" 600 "redis:" "srh"
    (mkIntrospectionConfig false "" "" (SecretString_new "") 30)) {[ "default" := ∅ ]} false.
Definition trusting_oracle : Oracle := λ X e _,
  match e in Eff.Eff X return X with
  | Eff.ReadBody => BodyRead.Failed
  | Eff.Emit _ => tt
  | Eff.Probe _ => Ok tt
  | Eff.Charge _ _ => Ok tt
  | Eff.TakeForgiven => 0%Z
  | Eff.Authenticate _ => Ok None
  | Eff.KeyFor _ => Ok (mkCachedKey JwtAlgorithm.Es256 "jwk")
  | Eff.IsActive _ => Ok true
  | Eff.CacheGet _ => None
  | Eff.CacheInsert _ _ => tt
  | Eff.UnixSecs => 0%Z
  | Eff.Instant => 0%Z
  | Eff.Acquire _ => Err AcquireError.Overloaded
  | Eff.Readiness => []
  | Eff.Execute _ _ => Err ExecError.Timeout
  | Eff.Pipeline _ _ => []
  | Eff.Transaction _ _ => Err ExecError.Timeout
  | Eff.Release _ => tt
  end.

Lemma jwt_guards_witness :
  ∃ kid key dk c,
    Some (Some "k1") = Some (Some kid) ∧ Ok (mkCachedKey JwtAlgorithm.Es256 "jwk") = Ok key :> result _ JwksError ∧
    Some (material key) = Some dk ∧ Some sample_claims = Some c ∧ typ c = "Bearer" ∧
    jwt_identity sample_jwt c =
      Ok (mkIdentity "alice" "alice" "default" true false false None {[ "KEYS" ]} ∅ None).
Proof.
  destruct (jwt_guards (λ _, Some (Some "k1")) Some (λ _ _ _, Some sample_claims) (λ b, b) sample_jwt "a.b.c"
    trusting_oracle [] [Call.Silent]
    (mkIdentity "alice" "alice" "default" true false false None {[ "KEYS" ]} ∅ None))
    as (kid & key & dk & c & ? & ? & ? & ? & ? & ? & ? & ?).
  - vm_compute. reflexivity.
  - exists kid, key, dk, c. split_and!; assumption.
Defined.

(** A chain never answers that it does not know a credential. *)
Lemma chain_never_unknown links bearer (orc : Oracle) hist :
  (run orc (chain_authenticate links bearer) hist).2 ≠ Ok None.
Proof.
  revert hist. induction links as [|l links IH]; intros hist; [done|]. cbn.
  rewrite run_bind. by destruct (run orc (l bearer) hist) as [h [[who|]|e]].
Qed.

(** What static tokens answer, without a call. *)
Definition static_answer (sha256 : bytes → bytes) (tokens : gmap string StaticTokenConfig)
    (bearer : string) : result (option Identity) AuthError :=
  match tokens !! sha256 bearer with
  | Some t => Ok (Some (static_identity (sha256 bearer) t))
  | None => Err AuthError.Rejected
  end.

Lemma static_last sha256 tokens bearer (orc : Oracle) hist :
  run orc (chain_authenticate [static_authenticate sha256 (static_auth_new tokens)] bearer) hist =
    (hist, static_answer sha256 tokens bearer).
Proof.
  unfold static_answer. cbn. unfold static_auth_new. rewrite map_lookup_imap.
  by destruct (tokens !! sha256 bearer).
Qed.

(** How the server routes a credential: it is never left undecided; when
    JWTs are off, or it does not have three dot-separated parts, its digest
    among the configured tokens decides alone and without any call; three
    parts with a decodable header are decided by JWT validation alone, so a
    refused JWT is never tried as a static token; and of the rest, a header
    that is a JSON object is rejected and anything else is a static token.
    Static tokens are never administrators. *)
Theorem credentials_are_routed {DecodingKey} decode_header (decoding_key : bytes → option DecodingKey) decode
    url_safe_decode json_from_slice sha256 jwt tokens bearer (orc : Oracle) hist :
  let auth := server_authenticate decode_header decoding_key decode url_safe_decode json_from_slice
                sha256 jwt tokens bearer in
  let static := (hist, static_answer sha256 tokens bearer) in
  (run orc auth hist).2 ≠ Ok None ∧
  (jwt = None ∨ count_dots bearer ≠ 2 → run orc auth hist = static) ∧
  (∀ j, jwt = Some j → count_dots bearer = 2 →
     match decode_header bearer with
     | Some _ =>
         let '(h, r) := run orc (jwt_validate decode_header decoding_key decode sha256 j bearer) hist in
         run orc auth hist = (h, result_map Some r)
     | None =>
         run orc auth hist =
           if has_json_header url_safe_decode json_from_slice bearer then (hist, Err AuthError.Rejected) else static
     end) ∧
  (∀ t, is_admin (static_identity (sha256 bearer) t) = false).
Proof.
  intros auth static. subst auth static. unfold server_authenticate. split_and!; [..|done].
  - destruct jwt; apply chain_never_unknown.
  - intros [->|Hd]; [apply static_last|]. destruct jwt as [j|]; [|apply static_last].
    cbn [chain_authenticate]. unfold jwt_authenticate at 1. rewrite (proj2 (Nat.eqb_neq _ _) Hd). cbn [negb].
    apply static_last.
  - intros j -> Hd. cbn [chain_authenticate]. unfold jwt_authenticate. rewrite Hd. cbn [negb Nat.eqb].
    destruct (decode_header bearer) as [o|] eqn:Ho.
    + rewrite !run_bind. by destruct (run orc (jwt_validate _ _ _ _ j bearer) hist) as [h [who|e]].
    + destruct (has_json_header url_safe_decode json_from_slice bearer); cbn [prog_bind]; [done|].
      apply static_last.
Qed.
