(* ===== verification/Pool.v ===== *)
(** * Connection pools: [src/src/adapters/pool_manager.rs] and
      [src/src/adapters/breaker_executor.rs]

    A pool entry is shared by all requests: a breaker, a bounded waiting
    queue, a semaphore with a permit per connection and a lock per client.
    The body of [acquire_entry] is cut at its accesses to shared state; a
    [Stage] is what a request holds between two of them (its guards included)
    and [advance] is the next access.  Requests interleave at these points,
    are dropped at their await points, and unwind their guards in the order
    the code drops them.  Fred's connections and the metrics (the gauge of
    permits in use apart) are left out: whether Fred builds a pool is a
    parameter. *)
From S2P Require Import Prelude Domain Config Breaker.

(** ** The breaker executor *)

Record BreakerExecutor : Type := mkBreakerExecutor {
  exec_permit : BreakerPermit;
  recorded : bool;
}.

(** [BreakerExecutor::new]. *)
Definition breaker_executor_new (p : BreakerPermit) : BreakerExecutor := mkBreakerExecutor p false.

Definition counts_as_failure (e : ExecError) : bool :=
  match e with ExecError.Transport _ | ExecError.Timeout => true | _ => false end.

(** [BreakerExecutor::record]. *)
Definition executor_record (b : BreakerParams) (now : Z) (errors : list ExecError)
    (x : BreakerExecutor) (inner : Inner) : BreakerExecutor * Inner :=
  let failed := existsb counts_as_failure errors in
  (mkBreakerExecutor (exec_permit x) true, (record b now (exec_permit x) failed inner).2).

(** [filter_map(|result| result.as_ref().err())]. *)
Definition errors_of {A : Type} (rs : list (result A ExecError)) : list ExecError :=
  omap (λ r, match r with Ok _ => None | Err e => Some e end) rs.

(** [BreakerExecutor::execute], [pipeline] and [transaction], given what the
    inner executor answered. *)
Definition executor_execute {A : Type} (b : BreakerParams) (now : Z) (answer : result A ExecError)
    (x : BreakerExecutor) (inner : Inner) : result A ExecError * (BreakerExecutor * Inner) :=
  (answer, executor_record b now (errors_of [answer]) x inner).

Definition executor_pipeline {A : Type} (b : BreakerParams) (now : Z)
    (answer : list (result A ExecError)) (x : BreakerExecutor) (inner : Inner) :
    list (result A ExecError) * (BreakerExecutor * Inner) :=
  (answer, executor_record b now (errors_of answer) x inner).

Definition executor_transaction {A : Type} (b : BreakerParams) (now : Z)
    (answer : result (list (result A ExecError)) ExecError) (x : BreakerExecutor) (inner : Inner) :
    result (list (result A ExecError)) ExecError * (BreakerExecutor * Inner) :=
  (answer,
   match answer with
   | Ok slots => executor_record b now (errors_of slots) x inner
   | Err error => executor_record b now [error] x inner
   end).

(** [Drop for BreakerExecutor]. *)
Definition executor_drop (x : BreakerExecutor) (inner : Inner) : Inner :=
  if recorded x then inner else cancel (exec_permit x) inner.

(** ** A pool entry *)

(** The fields of [PoolEntry] that never change; of the pool of clients, the
    connection string it was made from. *)
Record PoolParams : Type := mkPoolParams {
  pool_url : string;
  permit_count : nat;
  entry_max_waiters : Z;
  acquire_timeout : Z;
  command_timeout : Z;
  breaker_params : BreakerParams;
}.

(** The shared state of [PoolEntry]: a client lease is locked or not, a
    connection task has finished or not; of the gauges, the one for the
    permits in use. *)
Record PoolEntry : Type := mkPoolEntry {
  breaker : Inner;
  waiters : Z;
  available_permits : nat;
  client_leases : list bool;
  next_client : Z;
  connection_tasks : list bool;
  last_used : Z;
  permits_in_use : Z;
}.

Definition with_breaker (i : Inner) (e : PoolEntry) : PoolEntry :=
  mkPoolEntry i (waiters e) (available_permits e) (client_leases e) (next_client e)
    (connection_tasks e) (last_used e) (permits_in_use e).
Definition with_waiters (w : Z) (e : PoolEntry) : PoolEntry :=
  mkPoolEntry (breaker e) w (available_permits e) (client_leases e) (next_client e)
    (connection_tasks e) (last_used e) (permits_in_use e).
Definition with_permits (n : nat) (e : PoolEntry) : PoolEntry :=
  mkPoolEntry (breaker e) (waiters e) n (client_leases e) (next_client e)
    (connection_tasks e) (last_used e) (permits_in_use e).
Definition with_lease (i : nat) (locked : bool) (e : PoolEntry) : PoolEntry :=
  mkPoolEntry (breaker e) (waiters e) (available_permits e) (<[i := locked]> (client_leases e))
    (next_client e) (connection_tasks e) (last_used e) (permits_in_use e).
Definition with_next_client (n : Z) (e : PoolEntry) : PoolEntry :=
  mkPoolEntry (breaker e) (waiters e) (available_permits e) (client_leases e) n
    (connection_tasks e) (last_used e) (permits_in_use e).
Definition with_connection_tasks (l : list bool) (e : PoolEntry) : PoolEntry :=
  mkPoolEntry (breaker e) (waiters e) (available_permits e) (client_leases e) (next_client e)
    l (last_used e) (permits_in_use e).
Definition with_last_used (t : Z) (e : PoolEntry) : PoolEntry :=
  mkPoolEntry (breaker e) (waiters e) (available_permits e) (client_leases e) (next_client e)
    (connection_tasks e) t (permits_in_use e).
Definition with_gauge (delta : Z) (e : PoolEntry) : PoolEntry :=
  mkPoolEntry (breaker e) (waiters e) (available_permits e) (client_leases e) (next_client e)
    (connection_tasks e) (last_used e) (permits_in_use e + delta).

(** [PoolEntry::ensure_connection_task] and [restart_connection_task]:
    finished tasks are forgotten, a new one runs. *)
Definition ensure_connection_task (e : PoolEntry) : PoolEntry :=
  let tasks := filter (λ finished, finished = false) (connection_tasks e) in
  with_connection_tasks (match tasks with [] => [false] | _ => tasks end) e.

Definition restart_connection_task (e : PoolEntry) : PoolEntry :=
  with_connection_tasks (filter (λ finished, finished = false) (connection_tasks e) ++ [false]) e.

(** The waiting queue: the [fetch_update] of [acquire_entry] and
    [Drop for WaiterGuard]. *)
Definition waiter_enter (c : PoolParams) (e : PoolEntry) : option PoolEntry :=
  if decide (waiters e < entry_max_waiters c)%Z then Some (with_waiters (waiters e + 1) e) else None.

Definition waiter_drop (e : PoolEntry) : PoolEntry := with_waiters (wrapping_add (waiters e) (-1)) e.

(** ** Requests *)

(** What a request on its way through [acquire_entry], or a handle, holds. *)
Module Stage.
Inductive Stage : Type :=
(* the entry, nothing else *)
| Entered
(* [admission_guard] *)
| PastBreaker (p : BreakerPermit)
(* and [waiter]; awaiting the semaphore under a timeout *)
| Waiting (p : BreakerPermit)
(* and [permit] *)
| Granted (p : BreakerPermit)
(* [admission_guard] and [permit]; entering [acquire_client] *)
| Picking (p : BreakerPermit)
(* the loop of [acquire_client] *)
| Choosing (p : BreakerPermit) (start offset : nat)
(* awaiting the lock of client [start] *)
| Blocked (p : BreakerPermit) (start : nat)
(* [admission_guard], [permit] and [client_lease] *)
| Leased (p : BreakerPermit) (index : nat)
(* an [ExecutorHandle] *)
| Handle (x : BreakerExecutor) (index : nat)
(* dropping a handle: the executor is gone, the permit and the lease are not *)
| Closing (index : nat)
(* the permit is gone too *)
| Releasing (index : nat)
(* leaving without a handle: [admission_guard] is dropped last *)
| Unwinding (p : BreakerPermit) (r : option AcquireError).
End Stage.
Abbreviation Stage := Stage.Stage.

(** A request goes on, ends (with the error it returns, if any) or must wait. *)
Module Progress.
Inductive Progress : Type :=
| Goto (s : Stage)
| Done (r : option AcquireError)
| Pending.
End Progress.
Abbreviation Progress := Progress.Progress.

(** [PoolEntry::acquire_client]: the client the search starts from, one turn
    of its loop, and the wait for the first client. *)
Definition acquire_client_start (p : BreakerPermit) (e : PoolEntry) : PoolEntry * Progress :=
  let start := Z.to_nat (next_client e mod Z.of_nat (length (client_leases e))) in
  (with_next_client (wrapping_add (next_client e) 1) e, Progress.Goto (Stage.Choosing p start 0)).

Definition acquire_client_try (p : BreakerPermit) (start offset : nat) (e : PoolEntry) :
    PoolEntry * Progress :=
  let size := length (client_leases e) in
  if decide (offset < size) then
    let index := (start + offset) mod size in
    match client_leases e !! index with
    | Some false => (with_lease index true e, Progress.Goto (Stage.Leased p index))
    | _ => (e, Progress.Goto (Stage.Choosing p start (S offset)))
    end
  else (e, Progress.Goto (Stage.Blocked p start)).

Definition acquire_client_wait (p : BreakerPermit) (start : nat) (e : PoolEntry) : PoolEntry * Progress :=
  match client_leases e !! start with
  | Some false => (with_lease start true e, Progress.Goto (Stage.Leased p start))
  | _ => (e, Progress.Pending)
  end.

(** The next access of a request to its entry. *)
Definition advance (c : PoolParams) (now : Z) (e : PoolEntry) (s : Stage) : PoolEntry * Progress :=
  match s with
  | Stage.Entered =>
      match breaker_admit (breaker_params c) now (breaker e) with
      | (Err retry_after_secs, i) =>
          (with_breaker i e, Progress.Done (Some (AcquireError.PoolOpen retry_after_secs)))
      | (Ok a, i) =>
          let e := with_breaker i e in
          (if decide (transition a = Some BreakerTransition.ProbeStarted)
           then restart_connection_task e else e,
           Progress.Goto (Stage.PastBreaker (permit a)))
      end
  | Stage.PastBreaker p =>
      match waiter_enter c e with
      | None => (e, Progress.Goto (Stage.Unwinding p (Some AcquireError.Overloaded)))
      | Some e => (e, Progress.Goto (Stage.Waiting p))
      end
  | Stage.Waiting p =>
      match available_permits e with
      | O => (e, Progress.Pending)
      | S n => (with_permits n e, Progress.Goto (Stage.Granted p))
      end
  | Stage.Granted p => (with_gauge 1 (waiter_drop e), Progress.Goto (Stage.Picking p))
  | Stage.Picking p => acquire_client_start p e
  | Stage.Choosing p start offset => acquire_client_try p start offset e
  | Stage.Blocked p start => acquire_client_wait p start e
  | Stage.Leased p index => (e, Progress.Goto (Stage.Handle (breaker_executor_new p) index))
  | Stage.Handle _ _ => (e, Progress.Pending)
  | Stage.Closing index =>
      (with_permits (S (available_permits e)) (with_gauge (-1) e), Progress.Goto (Stage.Releasing index))
  | Stage.Releasing index => (with_lease index false e, Progress.Done None)
  | Stage.Unwinding p r => (with_breaker (cancel p (breaker e)) e, Progress.Done r)
  end.

(** A request dropped at an await point, and a handle dropped by its owner;
    the other stages have no await point. *)
Definition abandon (e : PoolEntry) (s : Stage) : option (PoolEntry * Stage) :=
  match s with
  | Stage.Waiting p => Some (waiter_drop e, Stage.Unwinding p None)
  | Stage.Blocked p _ => Some (with_permits (S (available_permits e)) e, Stage.Unwinding p None)
  | Stage.Handle x index => Some (with_breaker (executor_drop x (breaker e)) e, Stage.Closing index)
  | _ => None
  end.

(** The acquire timeout: the request leaves the queue and reports overload. *)
Definition expire (e : PoolEntry) (s : Stage) : option (PoolEntry * Stage) :=
  match s with
  | Stage.Waiting p => Some (waiter_drop e, Stage.Unwinding p (Some AcquireError.Overloaded))
  | _ => None
  end.

(** A command, pipeline or transaction of a handle returns with these errors. *)
Definition operate (c : PoolParams) (now : Z) (errors : list ExecError) (e : PoolEntry) (s : Stage) :
    option (PoolEntry * Stage) :=
  match s with
  | Stage.Handle x index =>
      let '(x, i) := executor_record (breaker_params c) now errors x (breaker e) in
      Some (with_breaker i e, Stage.Handle x index)
  | _ => None
  end.

(** [acquire_entry] when nobody interferes: the handle, the error, or the
    stage it must wait in. *)
Fixpoint acquire_entry (fuel : nat) (c : PoolParams) (now : Z) (e : PoolEntry) (s : Stage) :
    PoolEntry * result Stage (option AcquireError) :=
  match fuel with
  | O => (e, Ok s)
  | S fuel =>
      match advance c now e s with
      | (e, Progress.Goto s) => acquire_entry fuel c now e s
      | (e, Progress.Done r) => (e, Err r)
      | (e, Progress.Pending) => (e, Ok s)
      end
  end.

(** ** The system: an entry, the requests in flight, the clock *)

Record PoolSys : Type := mkPoolSys {
  entry : PoolEntry;
  tasks : list Stage;
  pool_now : Z;
}.

(** The entry [PoolManager::build] makes. *)
Definition new_entry (c : PoolParams) (unix_secs : Z) : PoolEntry :=
  mkPoolEntry breaker_new 0 (permit_count c) (replicate (permit_count c) false) 0 [false] unix_secs 0.

(** Steps of the whole system; as in the breaker's system, the premises keep
    the run below 2^64 changes of generation.  All but the recording of what an
    operation returned: *)
Inductive pool_move (c : PoolParams) : PoolSys → PoolSys → Prop :=
| pool_tick e ts now now' :
    (now ≤ now')%Z → pool_move c (mkPoolSys e ts now) (mkPoolSys e ts now')
| pool_enter e ts now :
    pool_move c (mkPoolSys e ts now) (mkPoolSys e (Stage.Entered :: ts) now)
| pool_advance e e' ts ts' s s' now :
    ts ≡ₚ s :: ts' → advance c now e s = (e', Progress.Goto s') →
    (generation (breaker e) < u64_max)%Z →
    pool_move c (mkPoolSys e ts now) (mkPoolSys e' (s' :: ts') now)
| pool_done e e' ts ts' s r now :
    ts ≡ₚ s :: ts' → advance c now e s = (e', Progress.Done r) →
    (generation (breaker e) < u64_max)%Z →
    pool_move c (mkPoolSys e ts now) (mkPoolSys e' ts' now)
| pool_leave e e' ts ts' s s' now :
    ts ≡ₚ s :: ts' → abandon e s = Some (e', s') ∨ expire e s = Some (e', s') →
    (generation (breaker e) < u64_max)%Z →
    pool_move c (mkPoolSys e ts now) (mkPoolSys e' (s' :: ts') now)
| pool_connection e ts now l :
    pool_move c (mkPoolSys e ts now) (mkPoolSys (with_connection_tasks l e) ts now)
| pool_touch e ts now unix_secs :
    pool_move c (mkPoolSys e ts now)
      (mkPoolSys (with_last_used unix_secs (ensure_connection_task e)) ts now).

Inductive pool_step (c : PoolParams) : PoolSys → PoolSys → Prop :=
| pool_moves s s' : pool_move c s s' → pool_step c s s'
| pool_operate e e' ts ts' s s' errors now :
    ts ≡ₚ s :: ts' → operate c now errors e s = Some (e', s') →
    (generation (breaker e) < u64_max)%Z →
    pool_step c (mkPoolSys e ts now) (mkPoolSys e' (s' :: ts') now).

Definition pool_reachable (c : PoolParams) (s : PoolSys) : Prop :=
  ∃ unix_secs now, rtc (pool_step c) (mkPoolSys (new_entry c unix_secs) [] now) s.

(** What the requests hold together. *)
Definition holds_waiter (s : Stage) : nat :=
  match s with Stage.Waiting _ | Stage.Granted _ => 1 | _ => 0 end.
Definition holds_permit (s : Stage) : nat :=
  match s with
  | Stage.Granted _ | Stage.Picking _ | Stage.Choosing _ _ _ | Stage.Blocked _ _
  | Stage.Leased _ _ | Stage.Handle _ _ | Stage.Closing _ => 1
  | _ => 0
  end.
Definition leased_client (s : Stage) : option nat :=
  match s with
  | Stage.Leased _ i | Stage.Handle _ i | Stage.Closing i | Stage.Releasing i => Some i
  | _ => None
  end.
Definition holds_lease (i : nat) (s : Stage) : nat :=
  if decide (leased_client s = Some i) then 1 else 0.

(** The permit of the breaker a request still has to record or cancel. *)
Definition unspent (s : Stage) : option BreakerPermit :=
  match s with
  | Stage.PastBreaker p | Stage.Waiting p | Stage.Granted p | Stage.Picking p
  | Stage.Choosing p _ _ | Stage.Blocked p _ | Stage.Leased p _ | Stage.Unwinding p _ => Some p
  | Stage.Handle x _ => if recorded x then None else Some (exec_permit x)
  | _ => None
  end.

Definition lease_locked (e : PoolEntry) (i : nat) : nat :=
  match client_leases e !! i with Some true => 1 | _ => 0 end.

(** ** The manager *)

Definition IDLE_EVICTION_SECS : Z := 900.
Definition READINESS_TIMEOUT : Z := from_millis 500.

(** The parameters [PoolManager::build] takes from a pool's configuration: where
    its clients connect to, and its limits, timeouts and breaker. *)
Definition pool_params (p : PoolConfig) : PoolParams :=
  mkPoolParams (expose (connection_string p)) (Z.to_nat (max_connections p)) (max_waiters p) (from_millis (acquire_timeout_ms p))
    (from_millis (command_timeout_ms p))
    (mkBreakerParams (breaker_failure_threshold (pool_breaker p))
       (from_millis (breaker_cooldown_ms (pool_breaker p)))).

(** Entries are shared: the manager and the requests in flight refer to them
    by reference, and an entry lives on after the manager forgot it. *)
Record PoolManager : Type := mkPoolManager {
  manager_pools : gmap string nat;
  heap : gmap nat (PoolParams * PoolSys);
}.

(** [PoolManager::new]. *)
Definition manager_new : PoolManager := mkPoolManager ∅ ∅.

Definition on_entry (f : PoolEntry → PoolEntry) (cs : PoolParams * PoolSys) : PoolParams * PoolSys :=
  (cs.1, mkPoolSys (f (entry cs.2)) (tasks cs.2) (pool_now cs.2)).

(** Where [evict_idle] and [PoolManager::shutdown] suspend, with the names
    they have left: between two names, in [quit().await] of an entry that left
    the map, or waiting for the connection tasks that were taken out of it. *)
Module Removal.
Inductive Removal : Type :=
| Next (names : list string)
| Quitting (names : list string) (id : nat)
| Closing (names : list string) (id : nat).
End Removal.
Abbreviation Removal := Removal.Removal.

Section Manager.
(** [FredConfig::from_url] and [Pool::new]: the error's text, or a pool. *)
Context (fred_pool : PoolConfig → result unit string).
Context (config : Config).

(** [PoolManager::get_or_build] at the two clocks' readings. *)
Definition get_or_build (unix_secs now : Z) (name : string) (m : PoolManager) :
    result nat AcquireError * PoolManager :=
  match pools config !! name with
  | None => (Err (AcquireError.UnknownPool name), m)
  | Some pool_config =>
      match manager_pools m !! name with
      | Some id =>
          (Ok id, mkPoolManager (manager_pools m)
             (alter (on_entry (λ e, with_last_used unix_secs (ensure_connection_task e))) id (heap m)))
      | None =>
          match fred_pool pool_config with
          | Err error => (Err (AcquireError.Internal error), m)
          | Ok _ =>
              let id := fresh (dom (heap m)) in
              let c := pool_params pool_config in
              (Ok id, mkPoolManager (<[name := id]> (manager_pools m))
                 (<[id := (c, mkPoolSys (new_entry c unix_secs) [] now)]> (heap m)))
          end
      end
  end.

(** The first half of [PoolManager::acquire]: the request enters the entry and
    goes on with [acquire_entry]. *)
Definition manager_acquire (unix_secs now : Z) (name : string) (m : PoolManager) :
    result nat AcquireError * PoolManager :=
  match get_or_build unix_secs now name m with
  | (Ok id, m) =>
      (Ok id, mkPoolManager (manager_pools m)
         (alter (λ cs, (cs.1, mkPoolSys (entry cs.2) (Stage.Entered :: tasks cs.2) (pool_now cs.2)))
            id (heap m)))
  | r => r
  end.

(** The condition of [remove_if] in [evict_idle]. *)
Definition pool_is_idle (unix_secs : Z) (c : PoolParams) (e : PoolEntry) : bool :=
  (IDLE_EVICTION_SECS <? saturating_sub unix_secs (last_used e))%Z &&
  (available_permits e =? permit_count c) && (waiters e =? 0)%Z.

(** What [PoolEntry::shutdown] does between its two awaits: the connection
    tasks are taken; after it, eviction resets the gauge.  [entry_evicted] is
    both, for an eviction that nothing interleaves with. *)
Definition entry_shutdown : PoolEntry → PoolEntry := with_connection_tasks [].
Definition reset_gauge (e : PoolEntry) : PoolEntry := with_gauge (- permits_in_use e) e.
Definition entry_evicted (e : PoolEntry) : PoolEntry := reset_gauge (entry_shutdown e).

(** The single accesses: an entry leaves the map, an entry that left it is
    changed. *)
Definition forget_pool (name : string) (m : PoolManager) : PoolManager :=
  mkPoolManager (delete name (manager_pools m)) (heap m).
Definition close_pool (after : PoolEntry → PoolEntry) (id : nat) (m : PoolManager) : PoolManager :=
  mkPoolManager (manager_pools m) (alter (on_entry after) id (heap m)).

(** Removing an entry from the map, and what happens to it then. *)
Definition remove_pool (after : PoolEntry → PoolEntry) (name : string) (id : nat) (m : PoolManager) :
    PoolManager :=
  mkPoolManager (delete name (manager_pools m)) (alter (on_entry after) id (heap m)).

(** One turn of the loop of [evict_idle], and the loop, when nothing interleaves
    with their awaits. *)
Definition evict_pool (unix_secs : Z) (name : string) (nm : nat * PoolManager) : nat * PoolManager :=
  let '(evicted, m) := nm in
  match manager_pools m !! name with
  | None => nm
  | Some id =>
      match heap m !! id with
      | Some (c, s) =>
          if pool_is_idle unix_secs c (entry s) then (S evicted, remove_pool entry_evicted name id m) else nm
      | None => nm
      end
  end.

Definition evict_idle (unix_secs : Z) (names : list string) (m : PoolManager) : nat * PoolManager :=
  foldl (λ nm name, evict_pool unix_secs name nm) (0, m) names.

(** [PoolManager::shutdown], likewise. *)
Definition manager_shutdown (names : list string) (m : PoolManager) : PoolManager :=
  foldl (λ m name, match manager_pools m !! name with
    | Some id => remove_pool entry_shutdown name id m
    | None => m
    end) m names.

(** Both loops, from one suspension to the next, [None] after the last name: [goes] is the
    condition under which an entry is removed, [after] what is done to it once
    it has been shut down. *)
Definition removal_turn (goes : nat → PoolManager → bool) (after : nat → PoolManager → PoolManager)
    (r : Removal) (m : PoolManager) : option (Removal * PoolManager) :=
  match r with
  | Removal.Next [] => None
  | Removal.Next (name :: names) =>
      match manager_pools m !! name with
      | Some id =>
          if goes id m then Some (Removal.Quitting names id, forget_pool name m) else Some (Removal.Next names, m)
      | None => Some (Removal.Next names, m)
      end
  | Removal.Quitting names id => Some (Removal.Closing names id, close_pool entry_shutdown id m)
  | Removal.Closing names id => Some (Removal.Next names, after id m)
  end.

Definition entry_is_idle (unix_secs : Z) (id : nat) (m : PoolManager) : bool :=
  match heap m !! id with Some (c, s) => pool_is_idle unix_secs c (entry s) | None => false end.

(** One turn of [evict_idle], which read the clock when it began, and of
    [PoolManager::shutdown]. *)
Definition evict_turn (unix_secs : Z) : Removal → PoolManager → option (Removal * PoolManager) :=
  removal_turn (entry_is_idle unix_secs) (close_pool reset_gauge).
Definition shutdown_turn : Removal → PoolManager → option (Removal * PoolManager) :=
  removal_turn (λ _ _, true) (λ _ m, m).

(** The manager and everything in flight. *)
Inductive manager_step : PoolManager → PoolManager → Prop :=
| manager_step_acquire unix_secs now name m r m' :
    manager_acquire unix_secs now name m = (r, m') → manager_step m m'
| manager_step_entry m id c s s' :
    heap m !! id = Some (c, s) → pool_step c s s' →
    manager_step m (mkPoolManager (manager_pools m) (<[id := (c, s')]> (heap m)))
| manager_step_evict unix_secs name n n' m m' :
    evict_pool unix_secs name (n, m) = (n', m') → manager_step m m'
| manager_step_shutdown name m :
    manager_step m (manager_shutdown [name] m)
| manager_step_forget name m :
    manager_step m (forget_pool name m)
| manager_step_close after id m :
    after = entry_shutdown ∨ after = reset_gauge → manager_step m (close_pool after id m).
End Manager.

(** ** Readiness *)

(** How the detached probe ended. *)
Module Probe.
Inductive Probe : Type :=
| Answered (r : result RespValue ExecError)
| Failed (error : string)
| TimedOut.
End Probe.
Abbreviation Probe := Probe.Probe.

Section Readiness.
(** [format!("{:?}", response)] and the decimal digits of a number. *)
Context (debug : RespValue → string) (decimal : Z → string).

(** The status [PoolManager::readiness] reports for one pool. *)
Definition readiness_status_of (c : PoolParams) (p : Probe) : PoolReadinessStatus :=
  let deadline := Z.min READINESS_TIMEOUT (command_timeout c) in
  match p with
  | Probe.Answered (Ok response) =>
      if decide (response = RespValue.Simple "PONG") then PoolReadinessStatus.Ready
      else PoolReadinessStatus.Unavailable ("unexpected readiness PING response: " +:+ debug response)
  | Probe.Answered (Err error) => PoolReadinessStatus.Unavailable (exec_error_display error)
  | Probe.Failed error => PoolReadinessStatus.Unavailable ("readiness probe task failed: " +:+ error)
  | Probe.TimedOut =>
      PoolReadinessStatus.Unavailable
        ("readiness PING timed out after " +:+ decimal (deadline / 1000000)%Z +:+ " ms")
  end.
End Readiness.

(** [PoolEntry::readiness_client]: the first client, in rotation, whose
    operation lock is free, else the first of the rotation. *)
Definition readiness_client (operations : list bool) (e : PoolEntry) : nat * PoolEntry :=
  let size := length operations in
  let start := Z.to_nat (next_client e mod Z.of_nat size) in
  let free := filter (λ i, operations !! i = Some false)
                ((λ offset, (start + offset) mod size) <$> seq 0 size) in
  (default start (head free), with_next_client (wrapping_add (next_client e) 1) e).

(** ** The invariant *)

(** A handle that recorded its outcome no longer holds a live probe. *)
Definition spent_ok (inner : Inner) (s : Stage) : Prop :=
  match s with
  | Stage.Handle x _ => recorded x = true →
      (permit_generation (exec_permit x) ≤ generation inner)%Z ∧ ¬ live_probe inner (exec_permit x)
  | _ => True
  end.

Definition start_ok (c : PoolParams) (s : Stage) : Prop :=
  match s with
  | Stage.Choosing _ start _ | Stage.Blocked _ start => start < permit_count c
  | _ => True
  end.

Record pool_inv (c : PoolParams) (s : PoolSys) : Prop := {
  inv_waiters : waiters (entry s) = Z.of_nat (sum_list_with holds_waiter (tasks s));
  inv_max_waiters : (waiters (entry s) ≤ entry_max_waiters c)%Z;
  inv_permits : available_permits (entry s) + sum_list_with holds_permit (tasks s) = permit_count c;
  inv_leases : ∀ i, lease_locked (entry s) i = sum_list_with (holds_lease i) (tasks s);
  inv_size : length (client_leases (entry s)) = permit_count c;
  inv_breaker : sys_inv (breaker_params c)
    (mkSys (breaker (entry s)) (pool_now s) (omap unspent (tasks s)));
  inv_spent : Forall (spent_ok (breaker (entry s))) (tasks s);
  inv_start : Forall (start_ok c) (tasks s);
}.

(** The parameters are machine integers. *)
Definition params_ok (c : PoolParams) : Prop := in_u64 (entry_max_waiters c).

(** *** The breaker's part *)

(** Holding or dropping a permit that is not a live probe. *)
Lemma hold_spent b inner now p ps :
  (permit_generation p ≤ generation inner)%Z → ¬ live_probe inner p →
  sys_inv b (mkSys inner now ps) ↔ sys_inv b (mkSys inner now (p :: ps)).
Proof.
  intros Hg Hl. split; intros [Hb Hp Hn Hc]; simpl in *; split; simpl; try done.
  - by constructor.
  - by rewrite filter_cons_False.
  - by apply Forall_cons in Hp as [_ Hp].
  - by rewrite filter_cons_False in Hn.
Qed.

(** An unspent permit that was recorded is spent. *)
Lemma record_spent b now p failed inner t inner' ps :
  sys_inv b (mkSys inner now (p :: ps)) → (generation inner < u64_max)%Z →
  record b now p failed inner = (t, inner') →
  (permit_generation p ≤ generation inner')%Z ∧ ¬ live_probe inner' p.
Proof.
  intros [Hb Hp Hn Hc] Hg Hr. simpl in *. apply Forall_cons in Hp as [Hp _].
  destruct (record_spends _ _ _ _ _ _ _ Hb Hg Hr) as [(He & Hs & Hl)|(He & Hs & Hl)];
    (split; [lia|]); unfold live_probe; [|intros [_ ?]; lia]. rewrite He. intros Hlive.
  rewrite filter_cons_True in Hn by done. simpl in Hn. destruct (decide _) as [Hh|]; [|lia].
  by apply Hl.
Qed.

(** Generations only grow, so spent permits stay spent. *)
Lemma spent_ok_grow inner inner' s :
  (generation inner ≤ generation inner')%Z → spent_ok inner s → spent_ok inner' s.
Proof.
  destruct s; simpl; try done. intros Hg H Hr. destruct (H Hr) as [Hle Hn]. split; [lia|].
  unfold live_probe in *. intros [Hp He]. apply Hn. split; [done|]. lia.
Qed.

(** How a step of one request moves the breaker's system and what it leaves
    of that request's permit. *)
Definition breaker_moves (b : BreakerParams) (now : Z) (i : Inner) (o : option BreakerPermit)
    (i' : Inner) (o' : option BreakerPermit) : Prop :=
  (generation i ≤ generation i')%Z ∧
  ∀ ps, sys_inv b (mkSys i now (option_list o ++ ps)) → sys_inv b (mkSys i' now (option_list o' ++ ps)).

Lemma moves_refl b now i o : breaker_moves b now i o i o.
Proof. by split. Qed.

Lemma spends_generation p inner inner' : spends p inner inner' → (generation inner ≤ generation inner')%Z.
Proof. intros [(-> & _)|(-> & _)]; lia. Qed.

Lemma moves_admit b now i a i' :
  breaker_inv b i → (generation i < u64_max)%Z → breaker_admit b now i = (Ok a, i') →
  breaker_moves b now i None i' (Some (permit a)).
Proof.
  intros Hb Hg Ha. split.
  - destruct (admit_cases _ _ _ _ _ Hb Hg Ha) as [(-> & _)|(_ & _ & -> & _)]; lia.
  - intros ps Hs. eapply step_inv; [exact Hs|]. by apply (step_admit b i i' now ps a).
Qed.

Lemma moves_cancel b now i p :
  breaker_inv b i → (generation i < u64_max)%Z → breaker_moves b now i (Some p) (cancel p i) None.
Proof.
  intros Hb Hg. split; [by eapply spends_generation, cancel_spends|].
  intros ps Hs. eapply step_inv; [exact Hs|]. by apply (step_cancel b i now (p :: ps) ps p).
Qed.

(** *** One request moves *)

(** What a move of a request from [s] to [s'] (nothing when it ends) does to
    the shared counters. *)
Record moves (c : PoolParams) (now : Z) (e : PoolEntry) (s : Stage) (e' : PoolEntry)
    (s' : option Stage) : Prop := {
  move_waiters : (waiters e' + Z.of_nat (holds_waiter s) =
    waiters e + Z.of_nat (sum_list_with holds_waiter (option_list s')))%Z;
  move_max : (waiters e ≤ entry_max_waiters c → waiters e' ≤ entry_max_waiters c)%Z;
  move_permits : available_permits e' + sum_list_with holds_permit (option_list s') =
    available_permits e + holds_permit s;
  move_leases : ∀ i, lease_locked e' i + holds_lease i s =
    lease_locked e i + sum_list_with (holds_lease i) (option_list s');
  move_size : length (client_leases e') = length (client_leases e);
  move_breaker : breaker_moves (breaker_params c) now (breaker e) (unspent s)
    (breaker e') (s' ≫= unspent);
  move_spent : Forall (spent_ok (breaker e')) (option_list s');
  move_start : Forall (start_ok c) (option_list s');
}.

Lemma pool_inv_perm c e ts ts' now :
  ts ≡ₚ ts' → pool_inv c (mkPoolSys e ts now) → pool_inv c (mkPoolSys e ts' now).
Proof.
  intros Hp [Hw Hm Hpe Hl Hs [Hb1 Hb2 Hb3 Hb4] Hsp Hst]; simpl in *. split; simpl; try done.
  - by rewrite <- Hp.
  - by rewrite <- Hp.
  - intros i. by rewrite <- Hp.
  - split; simpl; [done|by rewrite <- Hp| |done]. by rewrite <- Hp.
  - by rewrite <- Hp.
  - by rewrite <- Hp.
Qed.

Lemma omap_option_list (o : option Stage) (ts : list Stage) :
  omap unspent (option_list o ++ ts) = option_list (o ≫= unspent) ++ omap unspent ts.
Proof. destruct o as [s|]; [|done]. simpl. by destruct (unspent s). Qed.

Lemma pool_inv_move c now e s e' s' ts :
  pool_inv c (mkPoolSys e (s :: ts) now) → moves c now e s e' s' →
  pool_inv c (mkPoolSys e' (option_list s' ++ ts) now).
Proof.
  intros [Hw Hm Hpe Hl Hs Hb Hsp Hst] [Mw Mm Mp Ml Ms [Mg Mb] Msp Mst]; cbn [entry tasks pool_now] in *.
  split; cbn [entry tasks pool_now]; rewrite ?sum_list_with_app.
  - cbn in Hw. lia.
  - auto.
  - cbn in Hpe. lia.
  - intros i. rewrite sum_list_with_app. specialize (Hl i). specialize (Ml i). cbn in Hl. lia.
  - congruence.
  - rewrite omap_option_list. apply Mb. by rewrite <- (omap_option_list (Some s)).
  - apply Forall_app. split; [done|]. apply Forall_cons in Hsp as [_ Hsp].
    eapply Forall_impl; [exact Hsp|]. intros t. by apply spent_ok_grow.
  - apply Forall_app. split; [done|]. by apply Forall_cons in Hst as [_ ?].
Qed.

Lemma lease_locked_set e i b j :
  i < length (client_leases e) →
  lease_locked (with_lease i b e) j = if decide (j = i) then (if b then 1 else 0) else lease_locked e j.
Proof.
  intros Hi. unfold lease_locked, with_lease. cbn. case_decide as Hj.
  - subst. rewrite list_lookup_insert_eq by done. by destruct b.
  - by rewrite list_lookup_insert_ne.
Qed.

(** What the invariant says of one request. *)
Lemma inv_one c e s ts now :
  pool_inv c (mkPoolSys e (s :: ts) now) →
  (Z.of_nat (holds_waiter s) ≤ waiters e ≤ entry_max_waiters c)%Z ∧
  available_permits e + holds_permit s ≤ permit_count c ∧
  (∀ i, leased_client s = Some i → lease_locked e i = 1) ∧
  breaker_inv (breaker_params c) (breaker e) ∧ spent_ok (breaker e) s ∧ start_ok c s ∧
  length (client_leases e) = permit_count c.
Proof.
  intros [Hw Hm Hpe Hl Hs Hb Hsp Hst]; cbn in *. split_and!; try lia.
  - intros i Hi. specialize (Hl i). unfold holds_lease in Hl at 1. rewrite decide_True in Hl by done.
    unfold lease_locked in *. destruct (client_leases e !! i) as [[]|]; lia.
  - apply Hb.
  - by apply Forall_cons in Hsp as [? _].
  - by apply Forall_cons in Hst as [? _].
Qed.

(** Nothing locked. *)
Lemma free_leases e n :
  length (client_leases e) = n → (∀ i, lease_locked e i = 0) → client_leases e = replicate n false.
Proof.
  intros Hn Hl. apply list_eq_same_length with n; [by rewrite length_replicate|done|].
  intros i x y Hi Hx Hy. apply lookup_replicate in Hy as [-> _]. specialize (Hl i).
  unfold lease_locked in Hl. rewrite Hx in Hl. by destruct x.
Qed.

Lemma lease_locked_range e i : lease_locked e i = 1 → i < length (client_leases e).
Proof.
  unfold lease_locked. destruct (client_leases e !! i) as [b|] eqn:Hi; [|done].
  intros _. by eapply lookup_lt_Some.
Qed.

(** *** Every step of a request is such a move *)

Lemma waiter_drop_eq e :
  (1 ≤ waiters e ≤ u64_max)%Z → waiter_drop e = with_waiters (waiters e - 1) e.
Proof.
  intros Hw. unfold waiter_drop, wrapping_add, u64_max in *. f_equal. rewrite Z.mod_small; lia.
Qed.

Ltac moves_solve :=
  split; cbn; unfold holds_lease; cbn; rewrite ?Nat.add_0_r;
  try solve [done | lia | by apply moves_refl | by repeat constructor
    | by intros; lia | by intros; rewrite Nat.add_0_r].

Lemma moves_lease c now e s s' i :
  i < length (client_leases e) → lease_locked e i = 0 → leased_client s = None →
  leased_client s' = Some i → holds_waiter s = holds_waiter s' → holds_permit s = holds_permit s' →
  unspent s = unspent s' → spent_ok (breaker e) s' → start_ok c s' →
  moves c now e s (with_lease i true e) (Some s').
Proof.
  intros Hi Hfree Hs Hs' Hw Hp Hu Hsp Hst. split; cbn [option_list]; simpl; rewrite ?Hw, ?Hp; try lia.
  - intros j. rewrite lease_locked_set by done. unfold holds_lease. rewrite Hs, Hs'.
    rewrite (decide_False (P := None = Some j)) by done. destruct (decide (j = i)) as [->|Hne].
    + rewrite decide_True by done. lia.
    + rewrite decide_False by congruence. lia.
  - by rewrite length_insert.
  - rewrite Hu. apply moves_refl.
  - by repeat constructor.
  - by repeat constructor.
Qed.

Lemma advance_moves c now e s e' s' ts :
  params_ok c → pool_inv c (mkPoolSys e (s :: ts) now) → (generation (breaker e) < u64_max)%Z →
  advance c now e s = (e', Progress.Goto s') → moves c now e s e' (Some s').
Proof.
  intros Hc Hinv Hg. pose proof Hinv as (Hw & Hp & Hl & Hb & Hsp & Hst & Hsize)%inv_one.
  unfold params_ok, in_u64 in Hc.
  destruct s as [|p|p|p|p|p start offset|p start|p index|x index|index|index|p r]; cbn; unfold acquire_client_start, acquire_client_try, acquire_client_wait.
  - destruct (breaker_admit _ now (breaker e)) as [[a|r] i] eqn:Ha; [|done]. intros [= <- <-].
    pose proof (moves_admit _ _ _ _ _ Hb Hg Ha) as Hm. case_decide; moves_solve.
  - unfold waiter_enter. case_decide; intros [= <- <-]; moves_solve.
  - destruct (available_permits e) eqn:Ha; [done|]. intros [= <- <-]. moves_solve.
  - intros [= <- <-]. cbn in Hw. rewrite waiter_drop_eq by lia. moves_solve.
  - intros [= <- <-]. moves_solve. constructor; [|done]. cbn.
    cbn in Hp. pose proof (Z.mod_pos_bound (next_client e) (Z.of_nat (length (client_leases e)))). lia.
  - case_decide as Ho; [|intros [= <- <-]; moves_solve].
    assert ((start + offset) mod length (client_leases e) < length (client_leases e)) as Hi.
    { apply Nat.mod_upper_bound. lia. }
    destruct (client_leases e !! _) as [[]|] eqn:Hlk; intros [= <- <-]; [moves_solve| |moves_solve].
    apply moves_lease; try done. unfold lease_locked. by rewrite Hlk.
  - destruct (client_leases e !! start) as [[]|] eqn:Hlk; [done| |done]. intros [= <- <-].
    apply moves_lease; try done; [by eapply lookup_lt_Some|]. unfold lease_locked. by rewrite Hlk.
  - intros [= <- <-]. moves_solve.
  - done.
  - intros [= <- <-]. moves_solve.
  - done.
  - done.
Qed.

Lemma done_moves c now e s e' r ts :
  pool_inv c (mkPoolSys e (s :: ts) now) → (generation (breaker e) < u64_max)%Z →
  advance c now e s = (e', Progress.Done r) → moves c now e s e' None.
Proof.
  intros Hinv Hg. pose proof Hinv as (Hw & Hp & Hl & Hb & Hsp & Hst & Hsize)%inv_one.
  destruct s as [|p|p|p|p|p start offset|p start|p index|x index|index|index|p r']; cbn;
    unfold acquire_client_start, acquire_client_try, acquire_client_wait; try done.
  - destruct (breaker_admit _ now (breaker e)) as [[a|r'] i] eqn:Ha; [done|]. intros [= <- _].
    apply admit_err_inner in Ha as ->. moves_solve.
  - unfold waiter_enter. by case_decide.
  - by destruct (available_permits e).
  - by repeat case_match.
  - by repeat case_match.
  - intros [= <- _]. specialize (Hl index eq_refl). pose proof (lease_locked_range _ _ Hl) as Hr.
    split; cbn; try lia.
    + intros j. rewrite lease_locked_set by done. unfold holds_lease. cbn.
      destruct (decide (j = index)) as [->|Hne]; [rewrite decide_True by done; lia|].
      rewrite decide_False by congruence. lia.
    + by rewrite length_insert.
    + apply moves_refl.
    + constructor.
    + constructor.
  - intros [= <- _]. pose proof (moves_cancel (breaker_params c) now _ p Hb Hg). moves_solve.
Qed.

Lemma leave_moves c now e s e' s' ts :
  params_ok c → pool_inv c (mkPoolSys e (s :: ts) now) → (generation (breaker e) < u64_max)%Z →
  abandon e s = Some (e', s') ∨ expire e s = Some (e', s') → moves c now e s e' (Some s').
Proof.
  intros Hc Hinv Hg. pose proof Hinv as (Hw & Hp & Hl & Hb & Hsp & Hst & Hsize)%inv_one.
  unfold params_ok, in_u64 in Hc.
  destruct s as [|p|p|p|p|p start offset|p start|p index|x index|index|index|p r]; cbn; intros [|]; simplify_eq/=.
  - cbn in Hw. rewrite waiter_drop_eq by lia. moves_solve.
  - cbn in Hw. rewrite waiter_drop_eq by lia. moves_solve.
  - moves_solve.
  - unfold executor_drop. destruct (recorded x) eqn:Hr; cbn.
    + moves_solve. cbn. rewrite Hr. apply moves_refl.
    + pose proof (moves_cancel (breaker_params c) now _ (exec_permit x) Hb Hg). moves_solve.
      cbn. by rewrite Hr.
Qed.

Lemma operate_moves c now errors e s e' s' ts :
  pool_inv c (mkPoolSys e (s :: ts) now) → (generation (breaker e) < u64_max)%Z →
  operate c now errors e s = Some (e', s') → moves c now e s e' (Some s').
Proof.
  intros Hinv Hg. pose proof Hinv as (Hw & Hp & Hl & Hb & Hsp & Hst & Hsize)%inv_one.
  destruct s as [|p|p|p|p|p start offset|p start|p index|x index|index|index|p r]; cbn; try done.
  destruct (record _ now (exec_permit x) _ (breaker e)) as [t i] eqn:Hrec. cbn. intros [= <- <-].
  pose proof (spends_generation _ _ _ (record_spends _ _ _ _ _ _ _ Hb Hg Hrec)) as Hgen.
  assert (sys_inv (breaker_params c) (mkSys (breaker e) now (exec_permit x :: omap unspent ts))) as Hheld.
  { pose proof (inv_breaker _ _ Hinv) as Hbr. cbn in Hbr, Hsp. destruct (recorded x) eqn:Hr; [|done].
    by apply hold_spent; [apply Hsp..|]. }
  pose proof (record_spent _ _ _ _ _ _ _ _ Hheld Hg Hrec) as [Hle Hn].
  moves_solve. split; [done|]. intros ps Hps. cbn in *.
  assert (sys_inv (breaker_params c) (mkSys (breaker e) now (exec_permit x :: ps))) as Hps'.
  { destruct (recorded x) eqn:Hr; [|done]. by apply hold_spent; [apply Hsp..|]. }
  eapply step_inv; [exact Hps'|]. by eapply step_record.
Qed.

Lemma pool_step_inv c s s' : params_ok c → pool_inv c s → pool_step c s s' → pool_inv c s'.
Proof.
  intros Hc Hinv Hstep. destruct Hstep as [s s' [e ts now now' Hle|e ts now|e e' ts ts' s1 s2 now Hp Ha Hg|
    e e' ts ts' s1 r now Hp Ha Hg|e e' ts ts' s1 s2 now Hp Ha Hg|e ts now l|e ts now u]|e e' ts ts' s s' errors now Hp Ha Hg].
  - destruct Hinv as [Hw Hm Hpe Hl Hs Hb Hsp Hst]. split; try done. cbn in *.
    eapply step_inv; [exact Hb|]. by apply step_tick.
  - destruct Hinv as [Hw Hm Hpe Hl Hs Hb Hsp Hst]. split; try done; by constructor.
  - apply (pool_inv_perm _ _ _ _ _ Hp) in Hinv.
    by apply (pool_inv_move _ _ _ _ _ _ _ Hinv (advance_moves _ _ _ _ _ _ _ Hc Hinv Hg Ha)).
  - apply (pool_inv_perm _ _ _ _ _ Hp) in Hinv.
    by apply (pool_inv_move _ _ _ _ _ _ _ Hinv (done_moves _ _ _ _ _ _ _ Hinv Hg Ha)).
  - apply (pool_inv_perm _ _ _ _ _ Hp) in Hinv.
    by apply (pool_inv_move _ _ _ _ _ _ _ Hinv (leave_moves _ _ _ _ _ _ _ Hc Hinv Hg Ha)).
  - by destruct Hinv.
  - by destruct Hinv.
  - apply (pool_inv_perm _ _ _ _ _ Hp) in Hinv.
    by apply (pool_inv_move _ _ _ _ _ _ _ Hinv (operate_moves _ _ _ _ _ _ _ _ Hinv Hg Ha)).
Qed.

Lemma new_entry_inv c unix_secs now : params_ok c → pool_inv c (mkPoolSys (new_entry c unix_secs) [] now).
Proof.
  unfold params_ok, in_u64. intros Hc. split; cbn; try done; try lia.
  - intros i. unfold lease_locked. cbn. destruct (replicate _ false !! i) as [b|] eqn:Hi; [|done].
    by apply lookup_replicate in Hi as [-> _].
  - by rewrite length_replicate.
  - apply init_inv.
Qed.

Lemma pool_reachable_inv c s : params_ok c → pool_reachable c s → pool_inv c s.
Proof.
  intros Hc (u & now & Hs). pose proof (new_entry_inv c u now Hc) as Hinit.
  induction Hs as [|s1 s2 s3 Hstep _ IH]; [done|]. eauto using pool_step_inv.
Qed.

(** ** The breaker's accounts *)

(** [n] recorded failures account for the state of the entry's breaker. *)
Definition entry_accounted (c : PoolParams) (n : nat) (s : PoolSys) : Prop :=
  accounted (breaker_params c) n (breaker (entry s)).

Lemma advance_accounted c now e s n :
  accounted (breaker_params c) n (breaker e) → accounted (breaker_params c) n (breaker (advance c now e s).1).
Proof.
  intros Hn. pose proof (accounted_admit _ _ now _ Hn) as Ha.
  destruct s; cbn; unfold waiter_enter, acquire_client_start, acquire_client_try, acquire_client_wait; try done.
  - destruct (breaker_admit _ now (breaker e)) as [[a|r] i]; [|done]. by case_decide.
  - by case_decide.
  - by case_match.
  - by repeat case_match.
  - by repeat case_match.
  - by apply accounted_cancel.
Qed.

Lemma leave_accounted c e s e' s' n :
  abandon e s = Some (e', s') ∨ expire e s = Some (e', s') →
  accounted (breaker_params c) n (breaker e) → accounted (breaker_params c) n (breaker e').
Proof.
  intros [Hl|Hl] Hn; destruct s as [| | | | | | | |x ?| | |]; cbn in Hl; simplify_eq/=; try done.
  unfold executor_drop. destruct (recorded x); [done|]. by apply accounted_cancel.
Qed.

Lemma pool_move_accounted c n s s' : pool_move c s s' → entry_accounted c n s → entry_accounted c n s'.
Proof.
  unfold entry_accounted. destruct 1 as [|?|e e' ts ts' s1 s2 now _ Ha _|e e' ts ts' s1 r now _ Ha _|
    e e' ts ts' s1 s2 now _ Ha _|?|?]; cbn; try done.
  - intros Hn. apply (advance_accounted c now e s1) in Hn. by rewrite Ha in Hn.
  - intros Hn. apply (advance_accounted c now e s1) in Hn. by rewrite Ha in Hn.
  - by eapply leave_accounted.
Qed.

(** What an operation returned adds to the account. *)
Lemma operate_accounted c n now errors e s e' s' :
  operate c now errors e s = Some (e', s') → accounted (breaker_params c) n (breaker e) →
  accounted (breaker_params c) ((if existsb counts_as_failure errors then 1 else 0) + n) (breaker e').
Proof.
  intros Ho Hn. destruct s; cbn in Ho; try done. injection Ho as <- _. by apply accounted_record.
Qed.

(** ** Waiting and progress *)

Definition blocked_now (c : PoolParams) (now : Z) (e : PoolEntry) (s : Stage) : Prop :=
  (advance c now e s).2 = Progress.Pending.

Lemma sum_positive (f : Stage → nat) ts : 0 < sum_list_with f ts → ∃ s, s ∈ ts ∧ 0 < f s.
Proof.
  induction ts as [|s ts IH]; cbn; [lia|]. intros H. destruct (decide (0 < f s)) as [Hs|Hs].
  - exists s. split; [left|done].
  - destruct IH as (t & Ht & Hf); [lia|]. exists t. split; [by right|done].
Qed.

Lemma sum_zero (f : Stage → nat) ts : sum_list_with f ts = 0 → Forall (λ s, f s = 0) ts.
Proof. induction ts as [|s ts IH]; cbn; constructor; [lia|]. apply IH. lia. Qed.

(** A request that holds a client and cannot go on is a handle. *)
Lemma lease_holder_is_handle c now e s i :
  leased_client s = Some i → blocked_now c now e s → ∃ x, s = Stage.Handle x i.
Proof. unfold blocked_now. destruct s; cbn; intros; simplify_eq; eauto. Qed.

Lemma blocked_on_handle c s p start :
  pool_inv c s → Forall (blocked_now c (pool_now s) (entry s)) (tasks s) →
  Stage.Blocked p start ∈ tasks s → ∃ x i, Stage.Handle x i ∈ tasks s.
Proof.
  intros Hinv Hall Hin. rewrite Forall_forall in Hall.
  pose proof (Hall _ Hin) as Hb. unfold blocked_now in Hb. cbn in Hb. unfold acquire_client_wait in Hb.
  pose proof (inv_start _ _ Hinv) as Hst. rewrite Forall_forall in Hst. specialize (Hst _ Hin). cbn in Hst.
  rewrite <- (inv_size _ _ Hinv) in Hst. apply lookup_lt_is_Some in Hst as [b Hlk]. rewrite Hlk in Hb.
  destruct b; [|done]. pose proof (inv_leases _ _ Hinv start) as Hl. unfold lease_locked in Hl.
  rewrite Hlk in Hl. destruct (sum_positive (holds_lease start) (tasks s)) as (t & Ht & Hh); [lia|].
  unfold holds_lease in Hh. case_decide as Hc; [|lia].
  destruct (lease_holder_is_handle _ _ _ _ _ Hc (Hall _ Ht)) as [x ->]. eauto.
Qed.

(** The clients a set of requests holds are at most as many as the requests
    that hold one. *)
Lemma sum_swap {A} (f : nat → A → nat) (js : list nat) (ts : list A) :
  sum_list_with (λ i, sum_list_with (f i) ts) js = sum_list_with (λ t, sum_list_with (λ i, f i t) js) ts.
Proof.
  induction js as [|i js IH]; cbn.
  - induction ts as [|t ts IH]; cbn; [done|]. by rewrite <- IH.
  - rewrite IH. clear IH. induction ts as [|t ts IH]; cbn; [done|]. rewrite <- IH. lia.
Qed.

Lemma sum_le {A} (f g : A → nat) l : (∀ x, x ∈ l → f x ≤ g x) → sum_list_with f l ≤ sum_list_with g l.
Proof.
  induction l as [|x l IH]; intros H; cbn; [lia|].
  pose proof (H x ltac:(left)). specialize (IH (λ y Hy, H y ltac:(by right))). lia.
Qed.

Lemma sum_one (js : list nat) : sum_list_with (λ _, 1) js = length js.
Proof. induction js as [|i js IH]; cbn; [done|]. by rewrite IH. Qed.

Lemma leases_of_one (s : Stage) (js : list nat) :
  NoDup js → sum_list_with (λ i, holds_lease i s) js ≤ match leased_client s with Some _ => 1 | None => 0 end.
Proof.
  unfold holds_lease. destruct (leased_client s) as [j|].
  - induction 1 as [|i js Hi _ IH]; cbn; [lia|]. case_decide as Hij; [|lia]. injection Hij as <-.
    enough (sum_list_with (λ i, if decide (Some j = Some i) then 1 else 0) js = 0) by lia.
    clear IH. induction js as [|i js IH]; cbn; [done|].
    rewrite decide_False by set_solver. apply IH. set_solver.
  - induction 1 as [|i js Hi _ IH]; cbn; [lia|]. done.
Qed.

(** Nobody is between giving back its permit and its client. *)
Definition not_releasing (s : Stage) : Prop := match s with Stage.Releasing _ => False | _ => True end.

(** With a permit to spare a client is free. *)
Lemma free_client c s :
  pool_inv c s → Forall not_releasing (tasks s) → 0 < available_permits (entry s) →
  ∃ i, client_leases (entry s) !! i = Some false.
Proof.
  intros Hinv Hrel Hav. destruct (decide (Exists (λ b, b = false) (client_leases (entry s)))) as [Hex|Hno].
  { apply Exists_exists in Hex as (b & Hb & ->). by apply list_elem_of_lookup in Hb. }
  exfalso. set (n := permit_count c).
  assert (sum_list_with (lease_locked (entry s)) (seq 0 n) = n) as Hall.
  { rewrite <- (length_seq n 0) at 2. rewrite <- sum_one.
    assert (∀ l, (∀ i, i ∈ l → i < n) →
      sum_list_with (lease_locked (entry s)) l = sum_list_with (λ _, 1) l) as Hl.
    { induction l as [|i l IH]; intros Hi; cbn; [done|]. rewrite IH by set_solver. f_equal.
      specialize (Hi i ltac:(left)). unfold n in Hi. rewrite <- (inv_size _ _ Hinv) in Hi.
      apply lookup_lt_is_Some in Hi as [b Hb]. unfold lease_locked. rewrite Hb. destruct b; [done|].
      destruct Hno. apply Exists_exists. exists false. split; [|done]. by eapply list_elem_of_lookup_2. }
    apply Hl. intros i Hi. apply elem_of_seq in Hi. lia. }
  assert (sum_list_with (lease_locked (entry s)) (seq 0 n) ≤ sum_list_with holds_permit (tasks s)) as Hle.
  { transitivity (sum_list_with (λ i, sum_list_with (holds_lease i) (tasks s)) (seq 0 n)).
    { apply sum_le. intros i _. by rewrite (inv_leases _ _ Hinv i). }
    rewrite sum_swap. apply sum_le. intros t Ht.
    etrans; [apply leases_of_one, NoDup_seq|]. rewrite Forall_forall in Hrel. specialize (Hrel t Ht).
    by destruct t; cbn in *; lia || done. }
  pose proof (inv_permits _ _ Hinv). lia.
Qed.

(** The rotation starting anywhere visits every client. *)
Lemma rotation_reaches size start i :
  start < size → i < size → ∃ offset, offset < size ∧ (start + offset) mod size = i.
Proof.
  intros Hs Hi. exists (if decide (start ≤ i) then i - start else i + size - start). case_decide.
  - split; [lia|]. rewrite Nat.mod_small; lia.
  - split; [lia|]. replace (start + (i + size - start)) with (i + 1 * size) by lia.
    rewrite Nat.Div0.mod_add. apply Nat.mod_small. lia.
Qed.

(** The loop of [acquire_client] takes the first free client it meets. *)
Lemma choose_client c now e p start offset k fuel :
  offset + k < length (client_leases e) →
  client_leases e !! ((start + (offset + k)) mod length (client_leases e)) = Some false →
  ∃ i, client_leases e !! i = Some false ∧
    acquire_entry (k + 2 + fuel) c now e (Stage.Choosing p start offset) =
    acquire_entry fuel c now (with_lease i true e) (Stage.Handle (breaker_executor_new p) i).
Proof.
  revert offset. induction k as [|k IH]; intros offset Hlt Hfree.
  - rewrite Nat.add_0_r in *. eexists. split; [exact Hfree|]. cbn -[Nat.modulo]. unfold acquire_client_try.
    rewrite decide_True by done. by rewrite Hfree.
  - destruct (client_leases e !! ((start + offset) mod length (client_leases e))) as [[]|] eqn:Hlk.
    + destruct (IH (S offset)) as (i & Hi & Heq); [lia|by replace (S offset + k) with (offset + S k) by lia|].
      exists i. split; [done|]. rewrite <- Heq. cbn -[Nat.modulo]. unfold acquire_client_try at 1.
      rewrite decide_True by lia. by rewrite Hlk.
    + eexists. split; [exact Hlk|].
      replace (S k + 2 + fuel) with (2 + (S k + fuel)) by lia. cbn -[Nat.modulo]. unfold acquire_client_try.
      rewrite decide_True by lia. rewrite Hlk. by destruct fuel.
    + apply lookup_ge_None in Hlk. pose proof (Nat.mod_upper_bound (start + offset) (length (client_leases e))). lia.
Qed.

(** The search finds nothing when every client is locked. *)
Lemma choose_none c now e p start offset k :
  Forall (λ locked, locked = true) (client_leases e) → offset + k = length (client_leases e) →
  acquire_entry (S k) c now e (Stage.Choosing p start offset) = (e, Ok (Stage.Blocked p start)).
Proof.
  intros Hall. revert offset. induction k as [|k IH]; intros offset Hk.
  - cbn -[Nat.modulo]. unfold acquire_client_try. by rewrite decide_False by lia.
  - specialize (IH (S offset) ltac:(lia)). cbn -[Nat.modulo] in IH |- *. unfold acquire_client_try at 1.
    rewrite decide_True by lia. set (index := _ mod _).
    destruct (client_leases e !! index) as [locked|] eqn:Hi; [|exact IH].
    rewrite Forall_forall in Hall. by rewrite (Hall locked (list_elem_of_lookup_2 _ _ _ Hi)).
Qed.

(** ** The steps of the manager *)

Section ManagerSteps.
Context (fred_pool : PoolConfig → result unit string) (config : Config).

(** Whatever happens, a name refers to the entry it referred to before, or to
    one that did not exist. *)
Lemma manager_step_registered m m' :
  manager_step fred_pool config m m' →
  dom (heap m) ⊆ dom (heap m') ∧
  ∀ name id, manager_pools m' !! name = Some id → manager_pools m !! name = Some id ∨ id ∉ dom (heap m).
Proof.
  intros Hstep. destruct Hstep as [u now name m r m' Ha|m id c s s' Hl Hs|u name n n' m m' He|name m|name m|after id m Hafter].
  - unfold manager_acquire, get_or_build in Ha. repeat case_match; simplify_eq; cbn;
      rewrite ?dom_alter_L, ?dom_insert_L; (split; [set_solver|]); try (by left).
    intros n i [[<- <-]|[_ Hn]]%lookup_insert_Some; [right; apply is_fresh|by left].
  - cbn. rewrite dom_insert_L. split; [set_solver|by left].
  - unfold evict_pool in He. repeat case_match; simplify_eq; cbn; rewrite ?dom_alter_L; (split; [done|]); try (by left).
    intros n1 i [_ Hn]%lookup_delete_Some. by left.
  - cbn. case_match; cbn; rewrite ?dom_alter_L; (split; [done|]); [|by left].
    intros n1 i [_ Hn]%lookup_delete_Some. by left.
  - split; [done|]. cbn. intros n1 i [_ Hn]%lookup_delete_Some. by left.
  - cbn. rewrite dom_alter_L. split; [done|by left].
Qed.

(** A turn of either loop is at most one step of the manager. *)
Lemma removal_turn_step goes after x m x' m' :
  (∀ id m, rtc (manager_step fred_pool config) m (after id m)) →
  removal_turn goes after x m = Some (x', m') → rtc (manager_step fred_pool config) m m'.
Proof.
  intros Hafter. destruct x as [[|name names]|names id|names id]; cbn; [done|..]; intros H; repeat case_match; simplify_eq;
    try done; [apply rtc_once, manager_step_forget|apply rtc_once, manager_step_close; by left].
Qed.

Lemma evict_turn_step unix_secs x m x' m' :
  evict_turn unix_secs x m = Some (x', m') → rtc (manager_step fred_pool config) m m'.
Proof. apply removal_turn_step. intros id m0. apply rtc_once, manager_step_close. by right. Qed.

Lemma shutdown_turn_step x m x' m' :
  shutdown_turn x m = Some (x', m') → rtc (manager_step fred_pool config) m m'.
Proof. by apply removal_turn_step. Qed.
End ManagerSteps.

(** ** The manager's invariant *)

Section ManagerInv.
Context (fred_pool : PoolConfig → result unit string) (config : Config).
Hypothesis config_ok : ∀ name p, pools config !! name = Some p → in_u64 (max_waiters p).

Record manager_inv (m : PoolManager) : Prop := {
  heap_inv : ∀ id c s, heap m !! id = Some (c, s) → params_ok c ∧ pool_inv c s;
  heap_built : ∀ name id, manager_pools m !! name = Some id →
    ∃ p s, pools config !! name = Some p ∧ heap m !! id = Some (pool_params p, s);
  heap_distinct : ∀ name name' id, manager_pools m !! name = Some id →
    manager_pools m !! name' = Some id → name = name';
}.

(** Changing one entry of the heap. *)
Lemma manager_inv_alter ps h f id :
  manager_inv (mkPoolManager ps h) → (∀ cs, (f cs).1 = cs.1) →
  (∀ cs, params_ok cs.1 → pool_inv cs.1 cs.2 → pool_inv (f cs).1 (f cs).2) →
  manager_inv (mkPoolManager ps (alter f id h)).
Proof.
  intros [Hh Hb Hd] Hf1 Hf2. cbn in *. split; cbn; [| |done].
  - intros id' c s Hl. destruct (decide (id' = id)) as [->|Hne].
    + rewrite lookup_alter_eq in Hl. destruct (h !! id) as [cs|] eqn:Hid; [|done]. injection Hl as Hl.
      destruct (Hh id cs.1 cs.2) as [Hp Hi]; [by destruct cs|].
      specialize (Hf1 cs). specialize (Hf2 cs Hp Hi). rewrite Hl in Hf1, Hf2. cbn in *. by subst c.
    + rewrite lookup_alter_ne in Hl by done. by eapply Hh.
  - intros name id' Hn. destruct (Hb name id' Hn) as (p & s & Hp & Hl). exists p.
    destruct (decide (id' = id)) as [->|Hne].
    + exists (f (pool_params p, s)).2. split; [done|]. rewrite lookup_alter_eq, Hl. cbn. f_equal.
      pose proof (Hf1 (pool_params p, s)) as Hfst. destruct (f (pool_params p, s)) as [c' s']; cbn in *. congruence.
    + exists s. by rewrite lookup_alter_ne.
Qed.

Lemma manager_inv_put m id c s s' :
  manager_inv m → heap m !! id = Some (c, s) → pool_inv c s' →
  manager_inv (mkPoolManager (manager_pools m) (<[id := (c, s')]> (heap m))).
Proof.
  intros [Hh Hb Hd] Hl Hs'. split; cbn; [| |done].
  - intros id' c' t [[<- [= <- <-]]|[Hne Ht]]%lookup_insert_Some; [|by eapply Hh].
    split; [by eapply Hh|done].
  - intros n id' Hn. destruct (Hb n id' Hn) as (p & t & Hp & Ht). exists p.
    destruct (decide (id = id')) as [<-|Hne].
    + exists s'. rewrite lookup_insert_eq. split; congruence.
    + exists t. by rewrite lookup_insert_ne.
Qed.

Lemma manager_inv_delete m name :
  manager_inv m → manager_inv (mkPoolManager (delete name (manager_pools m)) (heap m)).
Proof.
  intros [Hh Hb Hd]. split; cbn; [done| |].
  - intros n id [_ Hn]%lookup_delete_Some. by apply Hb.
  - intros n n' id [_ Hn]%lookup_delete_Some [_ Hn']%lookup_delete_Some. by eapply Hd.
Qed.

Lemma remove_pool_inv after m name id :
  after = entry_shutdown ∨ after = entry_evicted →
  manager_inv m → manager_inv (remove_pool after name id m).
Proof.
  intros Hafter Hinv. unfold remove_pool.
  apply manager_inv_alter; [by apply manager_inv_delete|done|].
  intros [c s] _ Hi. by destruct Hafter as [->| ->], Hi.
Qed.

Lemma get_or_build_inv unix_secs now name m r m' :
  manager_inv m → get_or_build fred_pool config unix_secs now name m = (r, m') → manager_inv m'.
Proof.
  intros Hinv. unfold get_or_build. destruct (pools config !! name) as [p|] eqn:Hp; [|by intros [= _ <-]].
  destruct (manager_pools m !! name) as [id|] eqn:Hn.
  { intros [= _ <-]. apply manager_inv_alter; [by destruct m|done|]. intros [c s] _ Hi. by destruct Hi. }
  destruct (fred_pool p); [|by intros [= _ <-]]. intros [= _ <-].
  set (id := fresh (dom (heap m))). assert (heap m !! id = None) as Hid.
  { apply not_elem_of_dom, is_fresh. }
  destruct Hinv as [Hh Hb Hd]. split; cbn.
  - intros id' c s [[<- Hcs]|[Hne Hl]]%lookup_insert_Some; [|by eapply Hh]. simplify_eq.
    assert (params_ok (pool_params p)) by (by eapply config_ok). split; [done|]. by apply new_entry_inv.
  - intros n id' [[<- <-]|[Hne Hl]]%lookup_insert_Some.
    + eexists p, _. by rewrite lookup_insert_eq.
    + destruct (Hb n id' Hl) as (p' & s & Hp' & Hs). exists p', s. split; [done|].
      rewrite lookup_insert_ne; [done|]. congruence.
  - intros n n' id' [[<- <-]|[Hne Hl]]%lookup_insert_Some [[<- He]|[Hne' Hl']]%lookup_insert_Some; try done.
    + destruct (Hb n' _ Hl') as (? & ? & _ & Hs). congruence.
    + subst. destruct (Hb n _ Hl) as (? & ? & _ & Hs). congruence.
    + by eapply Hd.
Qed.

Lemma manager_step_inv m m' : manager_inv m → manager_step fred_pool config m m' → manager_inv m'.
Proof.
  intros Hinv Hstep. destruct Hstep as [u now name m r m' Ha|m id c s s' Hl Hs|u name n n' m m' He|name m|name m|after id m Hafter].
  - unfold manager_acquire in Ha. destruct (get_or_build _ _ u now name m) as [[id|err] m1] eqn:Hg;
      injection Ha as _ <-; [|by eapply get_or_build_inv].
    apply manager_inv_alter; [destruct m1; by eapply get_or_build_inv|done|]. intros [c s] Hp Hi. cbn in *.
    eapply pool_step_inv; [done|exact Hi|]. destruct s. apply pool_moves, pool_enter.
  - assert (pool_inv c s') as Hs'.
    { destruct (heap_inv _ Hinv _ _ _ Hl). by eapply pool_step_inv. }
    by apply manager_inv_put with s.
  - unfold evict_pool in He. repeat case_match; simplify_eq; try done. apply remove_pool_inv; auto.
  - cbn. case_match; [apply remove_pool_inv; auto|done].
  - by apply manager_inv_delete.
  - apply manager_inv_alter; [by destruct m|done|]. intros [c s] _ Hi. by destruct Hafter as [->| ->], Hi.
Qed.

Definition manager_reachable (m : PoolManager) : Prop := rtc (manager_step fred_pool config) manager_new m.

Lemma manager_reachable_inv m : manager_reachable m → manager_inv m.
Proof.
  intros Hm. assert (manager_inv manager_new) as Hinit by (by split; cbn).
  unfold manager_reachable in Hm. induction Hm as [|m1 m2 m3 Hstep _ IH]; [done|].
  eauto using manager_step_inv.
Qed.
End ManagerInv.

(** ** The loops of the manager when nothing interleaves *)

(** The turns of a loop, one after the other. *)
Definition turns (turn : Removal → PoolManager → option (Removal * PoolManager)) :
    Removal * PoolManager → Removal * PoolManager → Prop :=
  rtc (λ x y, turn x.1 x.2 = Some y).

(** An entry that goes is removed as a whole. *)
Lemma close_forgotten f g name id m :
  close_pool f id (close_pool g id (forget_pool name m)) = remove_pool (λ e, f (g e)) name id m.
Proof.
  unfold close_pool, forget_pool, remove_pool. cbn. f_equal. apply map_eq. intros i.
  destruct (decide (i = id)) as [->|Hi]; [|by rewrite !lookup_alter_ne].
  rewrite !lookup_alter_eq. by destruct (heap m !! id) as [[c [e ts t]]|].
Qed.

Lemma evict_idle_turns unix_secs names m :
  turns (evict_turn unix_secs) (Removal.Next names, m) (Removal.Next [], (evict_idle unix_secs names m).2).
Proof.
  unfold evict_idle. generalize 0 as n. revert m. induction names as [|name names IH]; intros m n; [apply rtc_refl|].
  cbn [foldl]. unfold evict_pool at 2. destruct (manager_pools m !! name) as [id|] eqn:Hn.
  2:{ eapply rtc_l; [|apply IH]. cbn. by rewrite Hn. }
  destruct (heap m !! id) as [[c s]|] eqn:Hid.
  2:{ eapply rtc_l; [|apply IH]. cbn. unfold entry_is_idle. by rewrite Hn, Hid. }
  destruct (pool_is_idle unix_secs c (entry s)) eqn:Hi.
  2:{ eapply rtc_l; [|apply IH]. cbn. unfold entry_is_idle. by rewrite Hn, Hid, Hi. }
  eapply rtc_l; [cbn; unfold entry_is_idle; rewrite Hn, Hid, Hi; reflexivity|]. eapply rtc_l; [reflexivity|].
  eapply rtc_l; [reflexivity|]. cbn. rewrite close_forgotten. apply IH.
Qed.

Lemma manager_shutdown_turns names m :
  turns shutdown_turn (Removal.Next names, m) (Removal.Next [], manager_shutdown names m).
Proof.
  revert m. induction names as [|name names IH]; intros m; [apply rtc_refl|].
  unfold manager_shutdown. cbn [foldl]. destruct (manager_pools m !! name) as [id|] eqn:Hn.
  2:{ eapply rtc_l; [|apply IH]. cbn. by rewrite Hn. }
  eapply rtc_l; [cbn; rewrite Hn; reflexivity|]. eapply rtc_l; [reflexivity|]. eapply rtc_l; [reflexivity|]. apply IH.
Qed.

(** ** Properties *)

(** C7. In every reachable state of a pool, whatever the interleaving of
    acquisitions, timeouts, dropped requests, commands and released handles:
    the waiter counter is the number of queued requests and never passes its
    bound, every permit is available or held by exactly one request, no client
    is leased to two requests, and a half-open breaker has exactly one request
    that still has to settle the probe.  When no request is left in flight,
    everything has been given back and the breaker is not half-open. *)
Theorem pool_conserves c s :
  params_ok c → pool_reachable c s →
  let e := entry s in
  waiters e = Z.of_nat (sum_list_with holds_waiter (tasks s)) ∧ (waiters e ≤ entry_max_waiters c)%Z ∧
  available_permits e + sum_list_with holds_permit (tasks s) = permit_count c ∧
  (∀ i, sum_list_with (holds_lease i) (tasks s) = if decide (client_leases e !! i = Some true) then 1 else 0) ∧
  length (filter (live_probe (breaker e)) (omap unspent (tasks s))) =
    (if decide (state (breaker e) = BreakerState.HalfOpen) then 1 else 0) ∧
  (tasks s = [] →
   waiters e = 0%Z ∧ available_permits e = permit_count c ∧
   client_leases e = replicate (permit_count c) false ∧ state (breaker e) ≠ BreakerState.HalfOpen).
Proof.
  intros Hc Hs. destruct (pool_reachable_inv _ _ Hc Hs) as [Hw Hm Hp Hl Hsz [_ _ Hb _] _ _].
  intros e. subst e. split_and!; try done.
  - intros i. rewrite <- Hl. unfold lease_locked.
    destruct (client_leases (entry s) !! i) as [[]|]; case_decide; done.
  - intros Hts. rewrite Hts in *. cbn in *. split_and!; [lia|lia| |].
    + by apply free_leases.
    + by case_decide.
Qed.

(** A pool of one connection whose only request holds a handle. *)
Definition one_connection : PoolParams := mkPoolParams "redis://one" 1 2 5 5 (mkBreakerParams 1 1).
Definition leased_pool : PoolSys :=
  mkPoolSys (mkPoolEntry breaker_new 0 0 [true] 1 [false] 0 1)
    [Stage.Handle (mkBreakerExecutor (mkPermit 0 false) false) 0] 0.

Lemma leased_pool_reachable : pool_reachable one_connection leased_pool.
Proof.
  exists 0%Z, 0%Z. eapply rtc_l; [apply pool_moves, pool_enter|].
  do 7 (eapply rtc_l; [eapply pool_moves, pool_advance; [reflexivity|reflexivity|done]|]; cbn).
  apply rtc_refl.
Qed.

Lemma pool_conserves_witness : available_permits (entry leased_pool) + 1 = 1.
Proof.
  apply (pool_conserves one_connection leased_pool); [done|].
  exact leased_pool_reachable.
Defined.

(** C37. A pool cannot lock up: if every request in flight waits, some of them
    is a handle in its owner's hands (whose commands have timeouts); requests
    never wait for each other in a circle. *)
Theorem pool_never_deadlocks c s :
  params_ok c → 0 < permit_count c → pool_reachable c s → tasks s ≠ [] →
  Forall (λ t, (advance c (pool_now s) (entry s) t).2 = Progress.Pending) (tasks s) →
  ∃ x i, Stage.Handle x i ∈ tasks s.
Proof.
  intros Hc Hn Hs Hne Hall. pose proof (pool_reachable_inv _ _ Hc Hs) as Hinv.
  fold (blocked_now c (pool_now s) (entry s)) in Hall.
  assert (∀ t, t ∈ tasks s → 0 < holds_permit t → ∃ x i, Stage.Handle x i ∈ tasks s) as Hhold.
  { intros t Ht Hp. pose proof (proj1 (Forall_forall _ _) Hall t Ht) as Hb. unfold blocked_now in Hb.
    destruct t; cbn in Hb, Hp; unfold acquire_client_start, acquire_client_try in Hb; try lia; try done; try (by repeat case_match); eauto.
    by eapply blocked_on_handle. }
  destruct (tasks s) as [|t ts] eqn:Hts; [done|]. rewrite <- Hts in *.
  assert (t ∈ tasks s) as Ht by (rewrite Hts; left).
  pose proof (proj1 (Forall_forall _ _) Hall t Ht) as Hb. unfold blocked_now in Hb.
  destruct t as [|p|p|p|p|p start offset|p start|p index|x index|index|index|p r]; cbn in Hb;
    unfold acquire_client_start, acquire_client_try, acquire_client_wait in Hb; try done; try (by repeat case_match); eauto.
  destruct (available_permits (entry s)) eqn:Hav; [|done].
  destruct (sum_positive holds_permit (tasks s)) as (u & Hu & Hpos); [|by eapply Hhold].
  pose proof (inv_permits _ _ Hinv). lia.
Qed.

Lemma pool_never_deadlocks_witness : ∃ x i, Stage.Handle x i ∈ tasks leased_pool.
Proof.
  apply (pool_never_deadlocks one_connection leased_pool); [done|cbn; lia| |done|].
  - exact leased_pool_reachable.
  - by repeat constructor.
Defined.

(** The entry after a successful admission. *)
Lemma admitted_entry c now e a i :
  breaker_admit (breaker_params c) now (breaker e) = (Ok a, i) →
  let e' := (advance c now e Stage.Entered).1 in
  advance c now e Stage.Entered = (e', Progress.Goto (Stage.PastBreaker (permit a))) ∧
  breaker e' = i ∧ waiters e' = waiters e ∧ available_permits e' = available_permits e ∧
  client_leases e' = client_leases e ∧ next_client e' = next_client e.
Proof. intros Ha. cbn. rewrite Ha. by case_decide. Qed.

Lemma acquire_handle fuel c now e x i :
  acquire_entry fuel c now e (Stage.Handle x i) = (e, Ok (Stage.Handle x i)).
Proof. by destruct fuel. Qed.

(** The first steps of an acquisition that finds a permit. *)
Lemma granted_run c now e e1 p fuel :
  advance c now e Stage.Entered = (e1, Progress.Goto (Stage.PastBreaker p)) →
  (0 ≤ waiters e1 < entry_max_waiters c)%Z → (entry_max_waiters c ≤ u64_max)%Z →
  0 < available_permits e1 →
  acquire_entry (5 + fuel) c now e Stage.Entered =
  acquire_entry fuel c now
    (with_next_client (wrapping_add (next_client e1) 1)
      (with_gauge 1 (with_permits (pred (available_permits e1)) e1)))
    (Stage.Choosing p (Z.to_nat (next_client e1 mod Z.of_nat (length (client_leases e1)))) 0).
Proof.
  intros Hadv Hw Hm Hp. cbn -[advance]. rewrite Hadv. cbn. unfold waiter_enter.
  rewrite decide_True by lia. cbn. destruct (available_permits e1) as [|n] eqn:Hav; [lia|]. cbn.
  rewrite waiter_drop_eq by (cbn; lia). cbn. unfold with_waiters, with_permits, with_next_client, with_gauge. cbn.
  by replace (waiters e1 + 1 - 1)%Z with (waiters e1) by lia.
Qed.

(** C36. What an acquisition returns, from any reachable state, when it runs from
    access to access with nothing else in between: an open or half-open breaker
    refuses it at once with the breaker's delay and leaves the pool as it was; a
    full queue refuses it as overloaded after giving its breaker permit back;
    with no permit left it waits in the queue; with a permit to spare and a
    client that is free it gets a free client in a number of steps bounded by the
    size of the pool, without blocking; and with a permit to spare but every
    client locked it ends up waiting for the lock of one client, permit in hand.
    A client is free whenever a permit is, unless a handle is just being
    released, between giving back its permit and its client. *)
Theorem acquire_outcomes c s a i :
  params_ok c → pool_reachable c s →
  let e := entry s in let now := pool_now s in let fuel := permit_count c + 6 in
  (∀ r, breaker_admit (breaker_params c) now (breaker e) = (Err r, i) →
     acquire_entry fuel c now e Stage.Entered = (e, Err (Some (AcquireError.PoolOpen r)))) ∧
  (breaker_admit (breaker_params c) now (breaker e) = (Ok a, i) →
   let admitted := (advance c now e Stage.Entered).1 in
   ((waiters e = entry_max_waiters c)%Z →
    acquire_entry fuel c now e Stage.Entered =
      (with_breaker (cancel (permit a) i) admitted, Err (Some AcquireError.Overloaded))) ∧
   ((waiters e < entry_max_waiters c)%Z → available_permits e = 0 →
    acquire_entry fuel c now e Stage.Entered =
      (with_waiters (waiters e + 1) admitted, Ok (Stage.Waiting (permit a)))) ∧
   ((waiters e < entry_max_waiters c)%Z → 0 < available_permits e →
    Forall not_releasing (tasks s) ∨ (∃ k, client_leases e !! k = Some false) →
    ∃ e' k, acquire_entry fuel c now e Stage.Entered =
        (e', Ok (Stage.Handle (breaker_executor_new (permit a)) k)) ∧
      client_leases e !! k = Some false ∧ client_leases e' = <[k := true]> (client_leases e) ∧
      waiters e' = waiters e ∧ S (available_permits e') = available_permits e ∧ breaker e' = i) ∧
   ((waiters e < entry_max_waiters c)%Z → 0 < available_permits e →
    Forall (λ locked, locked = true) (client_leases e) →
    Exists (λ t, ¬ not_releasing t) (tasks s) ∧
    ∃ e' start, acquire_entry fuel c now e Stage.Entered = (e', Ok (Stage.Blocked (permit a) start)) ∧
      start < permit_count c ∧ client_leases e' = client_leases e ∧
      waiters e' = waiters e ∧ S (available_permits e') = available_permits e ∧ breaker e' = i)).
Proof.
  intros Hc Hs e now fuel. pose proof (pool_reachable_inv _ _ Hc Hs) as Hinv.
  unfold params_ok, in_u64 in Hc. subst fuel. rewrite Nat.add_comm. split.
  { intros r Ha. cbn. rewrite Ha. apply admit_err_inner in Ha as ->. by destruct e. }
  intros Ha admitted. pose proof (admitted_entry c now e a i Ha) as (Hadv & Hb & Hw & Hp & Hl & Hn).
  fold admitted in Hadv, Hb, Hw, Hp, Hl, Hn. clearbody admitted.
  pose proof (inv_waiters _ _ Hinv) as Hw0. fold e in Hw0. split_and!.
  - intros Hfull. change (6 + permit_count c) with (S (S (S (3 + permit_count c)))). cbn -[advance]. rewrite Hadv. cbn.
    unfold waiter_enter. rewrite decide_False by lia. cbn. by rewrite Hb.
  - intros Hfree Hnone. change (6 + permit_count c) with (S (S (S (3 + permit_count c)))). cbn -[advance].
    rewrite Hadv. cbn. unfold waiter_enter. rewrite decide_True by lia. cbn. by rewrite Hp, Hnone, Hw.
  - intros Hfree Hsome Hrel. assert (∃ k, client_leases (entry s) !! k = Some false) as [k Hk]
      by (destruct Hrel; [by eapply free_client|done]).
    pose proof (lookup_lt_Some _ _ _ Hk) as Hlt.
    set (size := length (client_leases (entry s))). fold size in Hlt.
    set (start := Z.to_nat (next_client e mod Z.of_nat size)).
    assert (start < size) as Hstart.
    { pose proof (Z.mod_pos_bound (next_client e) (Z.of_nat size)). unfold start. lia. }
    destruct (rotation_reaches size start k Hstart Hlt) as (offset & Ho & Hok).
    change (6 + permit_count c) with (5 + S (permit_count c)).
    rewrite (granted_run _ _ _ admitted (permit a)) by (done || lia || congruence || (rewrite Hp; lia)).
    rewrite Hl, Hn. fold e in size. fold size start.
    set (e1 := with_next_client _ _).
    assert (client_leases e1 = client_leases e) as Hl1 by done.
    destruct (choose_client c now e1 (permit a) start 0 offset (permit_count c - offset - 1)) as (j & Hj & Hrun).
    { rewrite Hl1. done. }
    { rewrite Hl1. cbn [Nat.add]. fold size. by rewrite Hok. }
    replace (S (permit_count c)) with (offset + 2 + (permit_count c - offset - 1)).
    2:{ pose proof (inv_size _ _ Hinv) as Hsz. unfold size, e in Ho. lia. }
    rewrite Hrun, acquire_handle. exists (with_lease j true e1), j. rewrite Hl1 in Hj.
    split_and!; try done; cbn; rewrite ?Hw, ?Hl; try done; lia.
  - intros Hfree Hsome Hall. split.
    { apply not_Forall_Exists; [intros []; cbn; apply _|]. intros Hrel. destruct (free_client c s Hinv Hrel Hsome) as [k Hk].
      rewrite Forall_forall in Hall. by specialize (Hall false (list_elem_of_lookup_2 _ _ _ Hk)). }
    pose proof (inv_size _ _ Hinv) as Hsz. set (size := length (client_leases (entry s))) in Hsz.
    set (start := Z.to_nat (next_client e mod Z.of_nat size)).
    assert (0 < permit_count c) as Hpos by (pose proof (inv_permits _ _ Hinv); unfold e in Hsome; lia).
    change (6 + permit_count c) with (5 + S (permit_count c)).
    rewrite (granted_run _ _ _ admitted (permit a)) by (done || lia || congruence || (rewrite Hp; lia)).
    rewrite Hl, Hn. fold e in size. fold size start. set (e1 := with_next_client _ _).
    rewrite choose_none by (cbn; rewrite Hl; done || (fold e in Hsz; lia)).
    exists e1, start. split_and!; try done; cbn; rewrite ?Hw, ?Hl; try done; try lia.
    pose proof (Z.mod_pos_bound (next_client e) (Z.of_nat size)). unfold start. lia.
Qed.

(** The pool whose handle has given back its permit but not yet its client. *)
Definition releasing_pool : PoolSys :=
  mkPoolSys (mkPoolEntry breaker_new 0 1 [true] 1 [false] 0 0) [Stage.Releasing 0] 0.

Lemma releasing_pool_reachable : pool_reachable one_connection releasing_pool.
Proof.
  destruct leased_pool_reachable as (u & t & Hr). exists u, t. etrans; [exact Hr|].
  eapply rtc_l; [eapply pool_moves, pool_leave; [reflexivity|left; reflexivity|done]|].
  eapply rtc_l; [eapply pool_moves, pool_advance; [reflexivity|reflexivity|done]|]. apply rtc_refl.
Qed.

Lemma acquire_outcomes_witness :
  acquire_entry 7 one_connection 0 (entry leased_pool) Stage.Entered =
    (with_waiters 1 (entry leased_pool), Ok (Stage.Waiting (mkPermit 0 false))) ∧
  ∃ e start, acquire_entry 7 one_connection 0 (entry releasing_pool) Stage.Entered =
    (e, Ok (Stage.Blocked (mkPermit 0 false) start)).
Proof.
  split.
  - edestruct (acquire_outcomes one_connection leased_pool (mkAdmission (mkPermit 0 false) None) breaker_new)
      as [_ H]; [done|exact leased_pool_reachable|]. apply H; reflexivity.
  - edestruct (acquire_outcomes one_connection releasing_pool (mkAdmission (mkPermit 0 false) None) breaker_new)
      as [_ H]; [done|exact releasing_pool_reachable|]. destruct (H eq_refl) as (_ & _ & _ & Hb).
    destruct Hb as (_ & e & start & He & _); [done|cbn; lia|by repeat constructor|]. exists e, start. exact He.
Defined.

(** Eviction spares every pool that is in use: the maintenance pass
    forgets a pool only when its last acquisition is more than 900 seconds old
    and no request waits in its queue, holds one of its permits or a handle,
    and then all permits are back; the other pools keep their entries, and an
    entry a request still refers to keeps its state. *)
Theorem eviction_spares_busy_pools fred_pool config unix_secs name n m n' m' :
  (∀ name p, pools config !! name = Some p → in_u64 (max_waiters p)) →
  manager_reachable fred_pool config m →
  evict_pool unix_secs name (n, m) = (n', m') →
  (n' = n ∧ m' = m) ∨
  ∃ id c s, manager_pools m !! name = Some id ∧ heap m !! id = Some (c, s) ∧
    (last_used (entry s) + 900 < unix_secs)%Z ∧
    Forall (λ t, holds_waiter t = 0 ∧ holds_permit t = 0) (tasks s) ∧
    available_permits (entry s) = permit_count c ∧
    n' = S n ∧ manager_pools m' = delete name (manager_pools m) ∧
    (∀ id', id' ≠ id → heap m' !! id' = heap m !! id') ∧
    ∃ s', heap m' !! id = Some (c, s') ∧ tasks s' = tasks s ∧ breaker (entry s') = breaker (entry s).
Proof.
  intros Hc Hm He. pose proof (manager_reachable_inv _ _ Hc _ Hm) as Hinv.
  unfold evict_pool in He. destruct (manager_pools m !! name) as [id|] eqn:Hn; [|left; by simplify_eq].
  destruct (heap m !! id) as [[c s]|] eqn:Hid; [|left; by simplify_eq].
  destruct (pool_is_idle unix_secs c (entry s)) eqn:Hidle; [|left; by simplify_eq]. right.
  injection He as <- <-. destruct (heap_inv _ _ Hinv _ _ _ Hid) as [_ [Hw _ Hp _ _ _ _ _]].
  unfold pool_is_idle, saturating_sub, IDLE_EVICTION_SECS in Hidle.
  apply andb_true_iff in Hidle as [[Hold%Z.ltb_lt Hav%Nat.eqb_eq]%andb_true_iff Hwz%Z.eqb_eq].
  exists id, c, s. split_and!; try done; [lia| | |].
  - apply Forall_and. split; apply sum_zero; lia.
  - intros id' Hne. cbn. by rewrite lookup_alter_ne.
  - eexists. cbn. by rewrite lookup_alter_eq, Hid.
Qed.

Definition sample_pool_config : PoolConfig :=
  mkPoolConfig (SecretString_new "redis://localhost") 1 1000 1000 2 (mkBreakerConfig 1 1000) ∅.
Definition sample_config : Config :=
  mkConfig server_default (mkAuthConfig None ∅) {[ "default" := sample_pool_config ]}.
Definition sample_manager : PoolManager :=
  (manager_acquire (λ _, Ok tt) sample_config 0 0 "default" manager_new).2.

Lemma eviction_spares_busy_pools_witness :
  ∃ id c s, manager_pools sample_manager !! "default" = Some id ∧
    heap sample_manager !! id = Some (c, s) ∧ available_permits (entry s) = permit_count c.
Proof.
  destruct (evict_pool 901 "default" (0, sample_manager)) as [n' m'] eqn:He.
  destruct (eviction_spares_busy_pools (λ _, Ok tt) sample_config 901 "default" 0 sample_manager n' m')
    as [[Hn _]|(id & c & s & Hn & Hid & _ & _ & Hav & _)].
  - intros name p Hp. cbn in Hp. apply lookup_singleton_Some in Hp as [<- <-]. vm_compute. by split.
  - eapply rtc_l; [|apply rtc_refl]. eapply (manager_step_acquire _ _ 0 0 "default"). reflexivity.
  - exact He.
  - exfalso. rewrite Hn in He. revert He. vm_compute. discriminate.
  - exists id, c, s. split_and!; assumption.
Defined.

(** ** Two observations on releasing a handle

    The permit of a lease is a field before the lock of its client, so it is
    given back first, and a request it wakes can search the clients while the
    lock is still held. *)

(** Schedules: a request enters, the [i]-th request goes on or is dropped. *)
Module Move.
Inductive Move : Type := Enter | Advance (i : nat) | Abandon (i : nat).
End Move.
Abbreviation Move := Move.Move.

Definition do_move (c : PoolParams) (m : Move) (sys : PoolSys) : option PoolSys :=
  let '(mkPoolSys e ts now) := sys in
  if decide (generation (breaker e) < u64_max)%Z then
    match m with
    | Move.Enter => Some (mkPoolSys e (Stage.Entered :: ts) now)
    | Move.Advance i =>
        s ← ts !! i;
        match advance c now e s with
        | (e', Progress.Goto s') => Some (mkPoolSys e' (s' :: delete i ts) now)
        | (e', Progress.Done _) => Some (mkPoolSys e' (delete i ts) now)
        | (_, Progress.Pending) => None
        end
    | Move.Abandon i =>
        s ← ts !! i; es ← abandon e s;
        Some (mkPoolSys es.1 (es.2 :: delete i ts) now)
    end
  else None.

Definition do_moves (c : PoolParams) (ms : list Move) (s : PoolSys) : option PoolSys :=
  foldl (λ s m, s ≫= do_move c m) (Some s) ms.

Lemma do_move_step c m s s' : do_move c m s = Some s' → pool_move c s s'.
Proof.
  destruct s as [e ts now]. cbn. case_decide; [|done]. destruct m as [|i|i].
  - intros [= <-]. apply pool_enter.
  - destruct (ts !! i) as [t|] eqn:Ht; [|done]. cbn. apply delete_Permutation in Ht.
    destruct (advance c now e t) as [e' [t'|r|]] eqn:Ha; intros; simplify_eq;
      [by eapply pool_advance|by eapply pool_done].
  - destruct (ts !! i) as [t|] eqn:Ht; [|done]. cbn. apply delete_Permutation in Ht.
    destruct (abandon e t) as [[e' t']|] eqn:Ha; intros; simplify_eq/=. eapply pool_leave; eauto.
Qed.

Lemma do_moves_reachable c ms s :
  do_moves c ms (mkPoolSys (new_entry c 0) [] 0) = Some s → pool_reachable c s.
Proof.
  intros Hrun. exists 0%Z, 0%Z. revert Hrun. generalize (mkPoolSys (new_entry c 0) [] 0) as s0.
  unfold do_moves. induction ms as [|m ms IH]; intros s0; cbn; [by intros [= ->]|].
  destruct (do_move c m s0) as [s1|] eqn:Hm.
  - intros Hrun%IH. eapply rtc_l; [by eapply pool_moves, do_move_step|done].
  - intros Hrun. exfalso. clear -Hrun. induction ms; [done|]. by apply IHms.
Qed.

(** A request's way to its handle on a client that is the [n]-th it tries. *)
Definition acquiring (n : nat) : list Move := Move.Enter :: replicate (6 + n) (Move.Advance 0).

(** With two connections: the first request keeps its handle, the second has
    dropped its handle and given back its permit; a third, woken by it, finds
    both clients locked and waits for the first client.  Then the second client
    is unlocked, and the third request goes on waiting for the first one. *)
Definition two_connections : PoolParams := mkPoolParams "redis://two" 2 2 5 5 (mkBreakerParams 1 1).
Definition missed_release : list Move :=
  acquiring 1 ++ acquiring 1 ++ [Move.Abandon 0; Move.Advance 0] ++
  (Move.Enter :: replicate 8 (Move.Advance 0)) ++ [Move.Advance 1].

Lemma search_can_miss_a_release : ∃ s p,
  pool_reachable two_connections s ∧ Stage.Blocked p 0 ∈ tasks s ∧
  blocked_now two_connections (pool_now s) (entry s) (Stage.Blocked p 0) ∧
  client_leases (entry s) !! 1 = Some false.
Proof.
  destruct (do_moves two_connections missed_release (mkPoolSys (new_entry two_connections 0) [] 0))
    as [s|] eqn:Hrun; [|vm_compute in Hrun; done].
  exists s, (mkPermit 0 false). split; [by eapply do_moves_reachable|].
  vm_compute in Hrun. injection Hrun as <-. split_and!; [set_solver|done|done].
Qed.

(** When such a request is dropped, its permit goes back but the gauge of the
    permits in use, which it had incremented, is never decremented. *)
Lemma permits_gauge_can_drift : ∃ s,
  pool_reachable two_connections s ∧ tasks s = [] ∧
  available_permits (entry s) = permit_count two_connections ∧ permits_in_use (entry s) = 1%Z.
Proof.
  destruct (do_moves two_connections
    (missed_release ++ [Move.Abandon 0; Move.Advance 0; Move.Abandon 0; Move.Advance 0; Move.Advance 0])
    (mkPoolSys (new_entry two_connections 0) [] 0)) as [s|] eqn:Hrun; [|vm_compute in Hrun; done].
  exists s. split; [by eapply do_moves_reachable|]. vm_compute in Hrun. by injection Hrun as <-.
Qed.
