(* ===== verification/Fred.v ===== *)
(** * The Redis executor of [src/src/adapters/fred_executor.rs]

    Fred, the Redis client, is a parameter: an environment that answers each
    raw command, given everything sent on the connection before.  What the
    executor sends, in order, is the [sent] field of the state.  A frame is the
    RESP3 frame type the code matches on; the payloads it ignores are left
    out. *)
From S2P Require Import Prelude Domain Utf8 Convert Config Pool.

(** ** Frames and errors *)

Module Resp3Frame.
Inductive Resp3Frame : Type :=
| SimpleString (data : bytes)
| BlobString (data : bytes)
| Number (data : Z)
| Null
| Array (data : list Resp3Frame)
| SimpleError (data : string)
| BlobError (data : bytes)
| Boolean | Double | BigNumber | VerbatimString | Map | Set_ | Push | Hello | ChunkedString.
End Resp3Frame.
Abbreviation Resp3Frame := Resp3Frame.Resp3Frame.

(** Fred's error: its details, whether its kind is a timeout, and its text. *)
Record FredError : Type := mkFredError {
  details : string;
  is_timeout : bool;
  error_text : string;
}.

Definition protocol_violation (message : string) : ExecError :=
  ExecError.Transport ("Redis protocol violation: " +:+ message).

(** [frame_within_depth]; [checked_sub] is the match on the depth. *)
Fixpoint frame_within_depth (depth_remaining : nat) (frame : Resp3Frame) : result RespValue ExecError :=
  match depth_remaining with
  | O => Err ExecError.ResponseTooLarge
  | S depth_remaining =>
      match frame with
      | Resp3Frame.SimpleString data =>
          if valid_utf8 data then Ok (RespValue.Simple data)
          else Err (protocol_violation "non-UTF-8 RESP2 simple string")
      | Resp3Frame.BlobString data => Ok (RespValue.Bulk data)
      | Resp3Frame.Number data => Ok (RespValue.Int data)
      | Resp3Frame.Null => Ok RespValue.Nil
      | Resp3Frame.Array data =>
          result_map RespValue.Array (collect_ok (frame_within_depth depth_remaining <$> data))
      | Resp3Frame.SimpleError data => Err (ExecError.Redis data)
      | Resp3Frame.BlobError data => Err (ExecError.Redis (from_utf8_lossy data))
      | Resp3Frame.Boolean => Err (protocol_violation "unexpected RESP3 boolean")
      | Resp3Frame.Double => Err (protocol_violation "unexpected RESP3 double")
      | Resp3Frame.BigNumber => Err (protocol_violation "unexpected RESP3 big number")
      | Resp3Frame.VerbatimString => Err (protocol_violation "unexpected RESP3 verbatim string")
      | Resp3Frame.Map => Err (protocol_violation "unexpected RESP3 map")
      | Resp3Frame.Set_ => Err (protocol_violation "unexpected RESP3 set")
      | Resp3Frame.Push => Err (protocol_violation "unexpected RESP3 push")
      | Resp3Frame.Hello => Err (protocol_violation "unexpected RESP3 hello")
      | Resp3Frame.ChunkedString => Err (protocol_violation "unexpected RESP3 chunked string")
      end
  end.

Definition fred_frame_to_resp (frame : Resp3Frame) : result RespValue ExecError :=
  frame_within_depth MAX_DEPTH frame.

(** [split_whitespace().next()]. *)
Definition first_word (s : string) : option string :=
  match take_while (λ c, negb (is_whitespace c)) (drop_while is_whitespace (chars s)) with
  | [] => None
  | word => Some (concat_string word)
  end.

Definition is_redis_error (details : string) : bool :=
  match first_word details with
  | None => false
  | Some prefix =>
      negb (String.eqb prefix EmptyString) &&
      forallb (λ b, is_ascii_upper b || is_ascii_digit b || Ascii.eqb b "_")
        (String.list_ascii_of_string prefix)
  end.

Definition map_fred_error (error : FredError) : ExecError :=
  if is_redis_error (details error) then ExecError.Redis (details error)
  else if is_timeout error then ExecError.Timeout
  else ExecError.Transport (error_text error).

(** ** The executor *)

(** [ClusterHash]: how a command is routed in a cluster. *)
Module ClusterHash.
Inductive ClusterHash : Type := FirstKey | Custom (slot : Z).
End ClusterHash.
Abbreviation ClusterHash := ClusterHash.ClusterHash.

(** What goes to Fred: a raw command with its routing, or a forced
    reconnection. *)
Module Sent.
Inductive Sent : Type :=
| Command (name : string) (hash : ClusterHash) (args : list bytes)
| ForceReconnection.
End Sent.
Abbreviation Sent := Sent.Sent.

(** The mutable state of a [FredExecutor] and what it has sent, latest first. *)
Record FredState : Type := mkFredState {
  sent : list Sent;
  reset_started : bool;
}.

(** [FredExecutor::from_pooled_client], on a connection with this past. *)
Definition from_pooled_client (past : list Sent) : FredState := mkFredState past false.

Section Executor.
(** [Client::custom_raw], [Client::is_connected], [redis_keyslot] and the
    [Debug] text of a value. *)
Context (custom_raw : list Sent → Sent → result Resp3Frame FredError).
Context (is_connected : list Sent → bool).
Context (redis_keyslot : bytes → Z).
Context (debug : RespValue → string).

(** [FredExecutor::map_error]. *)
Definition map_error (error : FredError) (st : FredState) : ExecError * FredState :=
  let mapped := map_fred_error error in
  (mapped,
   if decide (mapped = ExecError.Timeout) then
     if is_connected (sent st) then
       if reset_started st then st else mkFredState (Sent.ForceReconnection :: sent st) true
     else st
   else st).

(** [FredExecutor::raw]. *)
Definition raw (name : string) (hash : ClusterHash) (args : list bytes) (st : FredState) :
    result Resp3Frame ExecError * FredState :=
  let command := Sent.Command name hash args in
  let answer := custom_raw (sent st) command in
  let st := mkFredState (command :: sent st) (reset_started st) in
  match answer with
  | Ok frame => (Ok frame, st)
  | Err error => let '(e, st) := map_error error st in (Err e, st)
  end.

(** [FredExecutor::execute] and [execute_unlocked]. *)
Definition fred_execute (command : RedisCommand) (st : FredState) : result RespValue ExecError * FredState :=
  let '(r, st) := raw (name command) ClusterHash.FirstKey (args command) st in
  (let? frame := r in fred_frame_to_resp frame, st).

(** [FredExecutor::pipeline]: all commands are on the wire, in order, before
    the first answer is looked at. *)
Definition fred_pipeline (commands : list RedisCommand) (st : FredState) :
    list (result RespValue ExecError) * FredState :=
  let '(answers, st) :=
    foldl (λ acc command,
      let '(answers, st) := acc in
      let command := Sent.Command (name command) ClusterHash.FirstKey (args command) in
      (answers ++ [custom_raw (sent st) command], mkFredState (command :: sent st) (reset_started st)))
    ([], st) commands in
  foldl (λ acc answer,
    let '(results, st) := acc in
    match answer with
    | Ok frame => (results ++ [fred_frame_to_resp frame], st)
    | Err error => let '(e, st) := map_error error st in (results ++ [Err e], st)
    end) ([], st) answers.

(** The hash of a transaction: the slot of the first argument found. *)
Definition transaction_hash (commands : list RedisCommand) : ClusterHash :=
  match head (omap (λ command, head (args command)) commands) with
  | Some key => ClusterHash.Custom (redis_keyslot key)
  | None => ClusterHash.FirstKey
  end.

(** The queueing loop of [FredExecutor::transaction]. *)
Fixpoint queue_commands (hash : ClusterHash) (commands : list RedisCommand) (st : FredState) :
    result unit ExecError * FredState :=
  match commands with
  | [] => (Ok tt, st)
  | command :: commands =>
      let '(r, st) := raw (name command) hash (args command) st in
      match (let? frame := r in fred_frame_to_resp frame) with
      | Ok response =>
          if decide (response = RespValue.Simple "QUEUED") then queue_commands hash commands st
          else
            let '(_, st) := raw "DISCARD" hash [] st in
            (Err (protocol_violation
              ("transaction command returned " +:+ debug response +:+ " instead of QUEUED")), st)
      | Err error => let '(_, st) := raw "DISCARD" hash [] st in (Err error, st)
      end
  end.

(** What [FredExecutor::transaction] makes of the answer to EXEC. *)
Definition exec_results (r : result Resp3Frame ExecError) :
    result (list (result RespValue ExecError)) ExecError :=
  match r with
  | Err error => Err error
  | Ok (Resp3Frame.Array data) => Ok (frame_within_depth MAX_DEPTH <$> data)
  | Ok Resp3Frame.Null =>
      Err (ExecError.Redis "EXECABORT Transaction discarded because of previous errors.")
  | Ok frame =>
      match fred_frame_to_resp frame with
      | Err error => Err error
      | Ok _ => Err (protocol_violation "EXEC returned a non-array response")
      end
  end.

(** The part of [FredExecutor::transaction] under the operation lock. *)
Definition transaction_locked (commands : list RedisCommand) (st : FredState) :
    result (list (result RespValue ExecError)) ExecError * FredState :=
  let hash := transaction_hash commands in
  let '(r, st) := raw "MULTI" hash [] st in
  match (let? frame := r in fred_frame_to_resp frame) with
  | Err error => (Err error, st)
  | Ok response =>
      if decide (response = RespValue.Simple "OK") then
        let '(q, st) := queue_commands hash commands st in
        match q with
        | Err error => (Err error, st)
        | Ok _ => let '(r, st) := raw "EXEC" hash [] st in (exec_results r, st)
        end
      else (Err (protocol_violation ("MULTI returned " +:+ debug response)), st)
  end.

(** [FredExecutor::transaction]. *)
Definition fred_transaction (commands : list RedisCommand) (st : FredState) :
    result (list (result RespValue ExecError)) ExecError * FredState :=
  match commands with
  | [] => (Ok [], st)
  | _ => transaction_locked commands st
  end.

(** ** What a transaction puts on the wire *)

(** After a failed command there may be one forced reconnection. *)
Definition reset_tail (l : list Sent) : Prop := l = [] ∨ l = [Sent.ForceReconnection].

Lemma raw_sent name hash args st r st' :
  raw name hash args st = (r, st') →
  ∃ tail, reset_tail tail ∧ sent st' = tail ++ Sent.Command name hash args :: sent st ∧
    match custom_raw (sent st) (Sent.Command name hash args) with
    | Ok frame => r = Ok frame ∧ tail = []
    | Err _ => ∃ e, r = Err e
    end.
Proof.
  unfold raw, map_error, reset_tail. destruct (custom_raw _ _) as [frame|error]; intros [= <- <-].
  - exists []. eauto.
  - repeat case_match; [exists []|eexists [_]|exists []|exists []]; cbn; eauto 6.
Qed.

(** A simple string can only come from a simple string. *)
Lemma simple_frame d frame s :
  frame_within_depth d frame = Ok (RespValue.Simple s) → frame = Resp3Frame.SimpleString s.
Proof.
  destruct d as [|d]; [done|]. destruct frame; cbn; try done; repeat case_match; intros; simplify_eq; try done.
  unfold result_map in *. by repeat case_match; simplify_eq.
Qed.

Definition send (hash : ClusterHash) (command : RedisCommand) : Sent :=
  Sent.Command (name command) hash (args command).

(** The first commands were acknowledged, on a connection with this past. *)
Definition queued (hash : ClusterHash) (commands : list RedisCommand) (past : list Sent) : Prop :=
  ∀ i command, commands !! i = Some command →
    custom_raw (rev (send hash <$> take i commands) ++ past) (send hash command) =
      Ok (Resp3Frame.SimpleString "QUEUED").

Lemma queued_cons hash command commands past :
  custom_raw past (send hash command) = Ok (Resp3Frame.SimpleString "QUEUED") →
  queued hash commands (send hash command :: past) → queued hash (command :: commands) past.
Proof.
  intros Hc Hq [|i] c Hi; cbn in *; [by simplify_eq|]. specialize (Hq i c Hi). cbn in Hq.
  by rewrite <- app_assoc.
Qed.

(** The answer to a raw command, converted. *)
Definition converted (r : result Resp3Frame ExecError) : result RespValue ExecError :=
  let? frame := r in fred_frame_to_resp frame.

Lemma queue_commands_sent hash commands st q st' :
  queue_commands hash commands st = (q, st') →
  (q = Ok tt ∧ queued hash commands (sent st) ∧ sent st' = rev (send hash <$> commands) ++ sent st) ∨
  (∃ e k command tail tail', q = Err e ∧ commands !! k = Some command ∧ reset_tail tail ∧ reset_tail tail' ∧
     queued hash (take k commands) (sent st) ∧
     custom_raw (rev (send hash <$> take k commands) ++ sent st) (send hash command) ≠
       Ok (Resp3Frame.SimpleString "QUEUED") ∧
     sent st' = tail' ++ Sent.Command "DISCARD" hash [] ::
       tail ++ rev (send hash <$> take (S k) commands) ++ sent st).
Proof.
  revert st. induction commands as [|command commands IH]; intros st; cbn [queue_commands].
  { intros [= <- <-]. left. by split_and!. }
  destruct (raw _ _ _ st) as [r st1] eqn:Hr. fold (converted r).
  apply raw_sent in Hr as (tail & Htail & Hs1 & Hans). fold (send hash command) in Hs1, Hans.
  destruct (decide (converted r = Ok (RespValue.Simple "QUEUED"))) as [Hok|Hbad].
  - rewrite Hok, decide_True by done. intros Hrec. apply IH in Hrec.
    destruct (custom_raw (sent st) (send hash command)) as [frame|error] eqn:Hc;
      [|destruct Hans as [e ->]; done].
    destruct Hans as [-> ->]. apply simple_frame in Hok as ->. rewrite Hs1 in Hrec. cbn in Hrec.
    destruct Hrec as [(-> & Hq & Hs)|(e & k & c & t & t' & -> & Hk & ? & ? & Hq & Hn & Hs)].
    + left. split_and!; [done|by apply queued_cons|]. rewrite Hs. cbn. by rewrite <- app_assoc.
    + right. exists e, (S k), c, t, t'. split_and!; try done; [by apply queued_cons|..].
      * cbn. by rewrite <- app_assoc.
      * rewrite Hs. cbn. by rewrite <- !app_assoc.
  - destruct (raw "DISCARD" hash [] st1) as [r2 st2] eqn:Hd.
    apply raw_sent in Hd as (tail' & Htail' & Hs2 & _). intros Hrun. right.
    assert (∃ e, q = Err e ∧ st' = st2) as (e & -> & ->).
    { destruct (converted r); [rewrite decide_False in Hrun by congruence|]; simplify_eq; eauto. }
    exists e, 0, command, tail, tail'. split_and!; try done.
    + cbn. intros Hc. rewrite Hc in Hans. destruct Hans as [-> _]. by apply Hbad.
    + cbn. by rewrite Hs2, Hs1.
Qed.

Lemma transaction_locked_sent commands st r st' :
  transaction_locked commands st = (r, st') →
  let hash := transaction_hash commands in
  let multi := Sent.Command "MULTI" hash [] in
  let started := multi :: sent st in
  (custom_raw (sent st) multi ≠ Ok (Resp3Frame.SimpleString "OK") ∧
   ∃ e tail, r = Err e ∧ reset_tail tail ∧ sent st' = tail ++ started) ∨
  custom_raw (sent st) multi = Ok (Resp3Frame.SimpleString "OK") ∧
  ((∃ e k command tail tail', r = Err e ∧ commands !! k = Some command ∧
      reset_tail tail ∧ reset_tail tail' ∧ queued hash (take k commands) started ∧
      custom_raw (rev (send hash <$> take k commands) ++ started) (send hash command) ≠
        Ok (Resp3Frame.SimpleString "QUEUED") ∧
      sent st' = tail' ++ Sent.Command "DISCARD" hash [] ::
        tail ++ rev (send hash <$> take (S k) commands) ++ started) ∨
   (∃ tail, reset_tail tail ∧ queued hash commands started ∧
      let all := rev (send hash <$> commands) ++ started in
      let exec := Sent.Command "EXEC" hash [] in
      sent st' = tail ++ exec :: all ∧
      ∀ rs, r = Ok rs ↔ ∃ data, custom_raw all exec = Ok (Resp3Frame.Array data) ∧
                        rs = frame_within_depth MAX_DEPTH <$> data)).
Proof.
  intros Hrun hash multi started. unfold transaction_locked in Hrun. fold hash in Hrun.
  destruct (raw "MULTI" hash [] st) as [r1 st1] eqn:H1. fold (converted r1) in Hrun.
  apply raw_sent in H1 as (t1 & Ht1 & Hs1 & Ha1). fold multi in Hs1, Ha1. fold started in Hs1.
  destruct (decide (converted r1 = Ok (RespValue.Simple "OK"))) as [Hok|Hbad].
  2:{ left. split.
      - intros Hm. rewrite Hm in Ha1. destruct Ha1 as [-> _]. by apply Hbad.
      - destruct (converted r1); [rewrite decide_False in Hrun by congruence|]; simplify_eq; eauto. }
  right. rewrite Hok, decide_True in Hrun by done.
  destruct (custom_raw (sent st) multi) as [frame|] eqn:Hm; [|destruct Ha1 as [? ->]; done].
  destruct Ha1 as [-> ->]. apply simple_frame in Hok as ->. split; [done|].
  destruct (queue_commands hash commands st1) as [q st2] eqn:H2.
  apply queue_commands_sent in H2. rewrite Hs1 in H2. cbn [app] in H2.
  destruct H2 as [(-> & Hq & Hs2)|(e & k & c & t & t' & -> & Hk)]; [right|].
  2:{ left. injection Hrun as <- <-. by exists e, k, c, t, t'. }
  destruct (raw "EXEC" hash [] st2) as [r3 st3] eqn:H3.
  apply raw_sent in H3 as (t3 & Ht3 & Hs3 & Ha3). rewrite Hs2 in Hs3, Ha3. injection Hrun as <- <-.
  exists t3. split; [done|]. split; [done|]. intros all exec. split; [done|]. intros rs.
  unfold all, exec in *. clear all exec.
  destruct (custom_raw _ (Sent.Command "EXEC" hash [])) as [frame|error].
  - destruct Ha3 as [-> _]. split; [|intros (data & [= ->] & ->); done].
    intros Hrs. destruct frame; cbn in Hrs; try (by repeat case_match). simplify_eq. eauto.
  - destruct Ha3 as [e ->]. split; [done|]. by intros (data & ? & _).
Qed.
End Executor.

(** ** Replies *)

(** The value a RESP2 frame denotes, without regard to its depth. *)
Fixpoint frame_value (frame : Resp3Frame) : option RespValue :=
  match frame with
  | Resp3Frame.SimpleString data => if valid_utf8 data then Some (RespValue.Simple data) else None
  | Resp3Frame.BlobString data => Some (RespValue.Bulk data)
  | Resp3Frame.Number data => Some (RespValue.Int data)
  | Resp3Frame.Null => Some RespValue.Nil
  | Resp3Frame.Array data =>
      RespValue.Array <$> foldr (λ frame vs, v ← frame_value frame; vs ← vs; Some (v :: vs)) (Some []) data
  | _ => None
  end.

Fixpoint frame_depth (frame : Resp3Frame) : nat :=
  match frame with
  | Resp3Frame.Array data => S (foldr (λ frame d, Nat.max (frame_depth frame) d) 0 data)
  | _ => 1
  end.

Section FrameInd.
Context (P : Resp3Frame → Prop).
Hypothesis HArray : ∀ data, Forall P data → P (Resp3Frame.Array data).
Hypothesis HLeaf : ∀ frame, (∀ data, frame ≠ Resp3Frame.Array data) → P frame.

(** Induction that reaches into the arrays. *)
Fixpoint frame_nested_ind (frame : Resp3Frame) : P frame.
Proof.
  destruct frame as [| | | |data| | | | | | | | | | |]; try (apply HLeaf; done).
  apply HArray. induction data as [|frame data IH]; constructor; [apply frame_nested_ind|exact IH].
Defined.
End FrameInd.

Lemma collect_ok_values d data vs :
  Forall (λ frame, ∀ d v, frame_within_depth d frame = Ok v ↔ frame_value frame = Some v ∧ frame_depth frame ≤ d) data →
  collect_ok (frame_within_depth d <$> data) = Ok vs ↔
  foldr (λ frame vs, v ← frame_value frame; vs ← vs; Some (v :: vs)) (Some []) data = Some vs ∧
  foldr (λ frame d, Nat.max (frame_depth frame) d) 0 data ≤ d.
Proof.
  intros Hall. revert vs. induction Hall as [|frame data Hf _ IH]; intros vs; cbn.
  { split; [intros [= <-]; split; [done|lia]|intros [[= <-] _]; done]. }
  specialize (Hf d). destruct (frame_within_depth d frame) as [v|e] eqn:Hfr.
  - destruct (proj1 (Hf v) eq_refl) as [-> Hd]. cbn.
    destruct (collect_ok (frame_within_depth d <$> data)) as [ws|e] eqn:Hc.
    + destruct (proj1 (IH ws) eq_refl) as [-> Hds]. cbn. split.
      * intros [= <-]. split; [done|lia].
      * by intros [[= <-] _].
    + split; [done|]. intros [Hv Hmax]. apply bind_Some in Hv as (ws & Hws & _).
      destruct (proj2 (IH ws)) as []; [split; [done|lia]|].
      assert (Err e = Ok ws :> result _ _); [|done]. apply IH. split; [done|lia].
  - split; [done|]. intros [Hv Hmax]. apply bind_Some in Hv as (v & Hv & _).
    assert (Err e = Ok v :> result _ _); [|done]. apply Hf. split; [done|lia].
Qed.

Lemma frame_within_depth_value frame : ∀ d v,
  frame_within_depth d frame = Ok v ↔ frame_value frame = Some v ∧ frame_depth frame ≤ d.
Proof.
  induction frame as [data Hall|frame Hleaf] using frame_nested_ind; intros d v.
  - destruct d as [|d]; cbn; [split; [done|intros [_ ?]; lia]|]. unfold result_map.
    destruct (collect_ok (frame_within_depth d <$> data)) as [vs|e] eqn:Hc.
    + apply (collect_ok_values d data vs Hall) in Hc as [-> Hd]. cbn. split.
      * intros [= <-]. split; [done|lia].
      * by intros [[= <-] _].
    + split; [done|]. intros [Hv Hd]. apply fmap_Some in Hv as (vs & Hvs & ->).
      assert (collect_ok (frame_within_depth d <$> data) = Ok vs) as Hok; [|by rewrite Hc in Hok].
      apply (collect_ok_values d data vs Hall). split; [done|lia].
  - destruct d as [|d]; destruct frame; cbn; try (by exfalso; eapply Hleaf);
      (split; [intros; simplify_eq; try (split; [done|lia])|intros [? ?]; simplify_eq; try lia; try done]).
    all: repeat case_match; simplify_eq; try done; split; try done; lia.
Qed.

Lemma frame_error_cases frame : ∀ d e,
  frame_within_depth d frame = Err e →
  e = ExecError.ResponseTooLarge ∨ (∃ m, e = ExecError.Redis m) ∨ (∃ m, e = protocol_violation m).
Proof.
  induction frame as [data Hall|frame Hleaf] using frame_nested_ind; intros [|d] e; cbn; try (by intros [= <-]; auto).
  - unfold result_map. destruct (collect_ok _) as [vs|e'] eqn:Hc; [done|]. intros [= <-].
    revert e' Hc. induction Hall as [|frame data Hf _ IH]; intros e'; cbn; [done|].
    destruct (frame_within_depth d frame) eqn:Hfr; [|intros [= <-]; by eapply Hf].
    destruct (collect_ok _) as [|e2]; [done|]. intros [= <-]. by apply IH.
  - destruct frame; try done; try (by exfalso; eapply Hleaf);
      repeat case_match; intros; simplify_eq; eauto.
Qed.

(** ** Properties *)

(** C12. A transaction on the wire.  Without commands nothing is sent.
    Otherwise MULTI goes first; unless it is answered OK the transaction ends
    there.  Commands follow in request order, each only after the one before
    was answered QUEUED; the first one that was not is followed by DISCARD and
    an error, and never by EXEC.  EXEC is sent only when all were queued, and
    the caller gets results exactly when its answer is an array, one result
    per element.  All of it carries the same cluster hash, and only a failed
    command is followed by a forced reconnection. *)
Theorem redis_transaction_protocol custom_raw is_connected redis_keyslot debug commands st r st' :
  fred_transaction custom_raw is_connected redis_keyslot debug commands st = (r, st') →
  let hash := transaction_hash redis_keyslot commands in
  let multi := Sent.Command "MULTI" hash [] in
  let started := multi :: sent st in
  (commands = [] → r = Ok [] ∧ st' = st) ∧
  (commands ≠ [] →
   (custom_raw (sent st) multi ≠ Ok (Resp3Frame.SimpleString "OK") ∧
    ∃ e tail, r = Err e ∧ reset_tail tail ∧ sent st' = tail ++ started) ∨
   custom_raw (sent st) multi = Ok (Resp3Frame.SimpleString "OK") ∧
   ((∃ e k command tail tail', r = Err e ∧ commands !! k = Some command ∧
       reset_tail tail ∧ reset_tail tail' ∧ queued custom_raw hash (take k commands) started ∧
       custom_raw (rev (send hash <$> take k commands) ++ started) (send hash command) ≠
         Ok (Resp3Frame.SimpleString "QUEUED") ∧
       sent st' = tail' ++ Sent.Command "DISCARD" hash [] ::
         tail ++ rev (send hash <$> take (S k) commands) ++ started) ∨
    (∃ tail, reset_tail tail ∧ queued custom_raw hash commands started ∧
       let all := rev (send hash <$> commands) ++ started in
       let exec := Sent.Command "EXEC" hash [] in
       sent st' = tail ++ exec :: all ∧
       ∀ rs, r = Ok rs ↔ ∃ data, custom_raw all exec = Ok (Resp3Frame.Array data) ∧
                         rs = frame_within_depth MAX_DEPTH <$> data))).
Proof.
  intros Hrun hash multi started. split.
  - intros ->. by injection Hrun as <- <-.
  - intros Hne. apply (transaction_locked_sent _ is_connected _ debug). by destruct commands.
Qed.

(** A server that queues one SET and executes it. *)
Definition obliging_server (past : list Sent) (command : Sent) : result Resp3Frame FredError :=
  Ok match command with
     | Sent.Command "MULTI" _ _ => Resp3Frame.SimpleString "OK"
     | Sent.Command "EXEC" _ _ => Resp3Frame.Array [Resp3Frame.SimpleString "OK"]
     | _ => Resp3Frame.SimpleString "QUEUED"
     end.

Lemma redis_transaction_protocol_witness :
  let cmd := mkRedisCommand "SET" ["k"; "v"] in
  let run := fred_transaction obliging_server (λ _, true) (λ _, 7%Z) (λ _, "") [cmd] (from_pooled_client []) in
  run.1 = Ok [Ok (RespValue.Simple "OK")] ∧
  (∃ tail, reset_tail tail ∧
    sent run.2 = tail ++ Sent.Command "EXEC" (ClusterHash.Custom 7) [] ::
      [Sent.Command "SET" (ClusterHash.Custom 7) ["k"; "v"]; Sent.Command "MULTI" (ClusterHash.Custom 7) []]).
Proof.
  intros cmd run. split; [reflexivity|].
  destruct (redis_transaction_protocol obliging_server (λ _, true) (λ _, 7%Z) (λ _, "") [cmd]
    (from_pooled_client []) run.1 run.2 eq_refl) as [_ H].
  destruct (H ltac:(discriminate)) as [(_ & e & ? & He & _)|[_ [(e & ? & ? & ? & ? & He & _)|(tail & Ht & _ & Hs & _)]]];
    [discriminate He|discriminate He|exists tail; split; assumption].
Defined.

(** Replies: a frame becomes a value exactly when it is made of RESP2
    frames other than errors, nested at most 64 deep, with simple strings in
    UTF-8, and the value is the one it denotes.  Among the failures only a
    violation of the protocol counts against the backend's breaker: an error
    reply and a reply that is too deep do not; and an error of the client
    counts exactly when it does not carry a Redis error code. *)
Theorem reply_conversion frame error :
  (∀ v, fred_frame_to_resp frame = Ok v ↔ frame_value frame = Some v ∧ frame_depth frame ≤ 64) ∧
  (∀ e, fred_frame_to_resp frame = Err e →
     (counts_as_failure e = true ↔ ∃ m, e = protocol_violation m)) ∧
  counts_as_failure (map_fred_error error) = negb (is_redis_error (details error)).
Proof.
  split_and!.
  - intros v. apply frame_within_depth_value.
  - intros e [->|[[m ->]|[m ->]]]%frame_error_cases; split; cbn; try done; try (by intros [m' ?]); eauto.
  - unfold map_fred_error. by destruct (is_redis_error (details error)), (is_timeout error).
Qed.

(** ** Configuring Fred *)

(** How a lost connection is retried. *)
Module ReconnectPolicy.
Inductive ReconnectPolicy : Type :=
| Constant (max_attempts delay : Z)
| Exponential (max_attempts min_delay max_delay base : Z).
End ReconnectPolicy.
Abbreviation ReconnectPolicy := ReconnectPolicy.ReconnectPolicy.

(** The options the program sets; Fred's defaults fill the rest. *)
Record FredOptions : Type := mkFredOptions {
  connection_timeout : Z;
  internal_command_timeout : Z;
  max_command_buffer_len : Z;
  default_command_timeout : Z;
  reconnect : ReconnectPolicy;
}.

Section Build.
(** Fred's parsed URL, with the protocol version it is set to; making a pool of
    a size and making a client, with its connection task. *)
Context {FredConfig : Type}.
Context (from_url : string → result FredConfig FredError).
Context (set_resp2 : FredConfig → FredConfig).
Context (pool_new : FredConfig → FredOptions → Z → result unit FredError).
Context (client_init : FredConfig → FredOptions → result unit FredError).

Definition pool_options (config : Config) (p : PoolConfig) : FredOptions :=
  let command_timeout := from_millis (command_timeout_ms p) in
  mkFredOptions (from_millis (acquire_timeout_ms p)) command_timeout
    (Z.max (max_pipeline_commands (server config)) 1) command_timeout
    (ReconnectPolicy.Exponential 0 100 5000 2).

(** [PoolManager::build] up to the pool; the error is shown as text. *)
Definition build_fred_pool (config : Config) (p : PoolConfig) : result unit string :=
  let? url := map_err error_text (from_url (expose (connection_string p))) in
  map_err error_text (pool_new (set_resp2 url) (pool_options config p) (max_connections p)).

(** An executor that owns its connection task. *)
Record OwnedExecutor : Type := mkOwned { owned_state : FredState; reset_timeout : Z; connection_task : bool }.

(** [FredExecutor::connect]. *)
Definition fred_connect (url : string) (connection_timeout command_timeout max_buffer : Z) :
    result OwnedExecutor ExecError :=
  let? config := map_err map_fred_error (from_url url) in
  let options := mkFredOptions connection_timeout command_timeout (Z.max max_buffer 1) command_timeout
                   (ReconnectPolicy.Constant 1 100) in
  let? _ := map_err map_fred_error (client_init (set_resp2 config) options) in
  Ok (mkOwned (mkFredState [] false) command_timeout true).

(** [Drop for FredExecutor]: the connection tasks that are aborted. *)
Definition fred_drop (x : OwnedExecutor) : nat := if connection_task x then 1 else 0.

(** A pool of a valid configuration: Fred's own timeouts are those the pool
    waits with and stay below the request's, and a refusal of Fred is shown. *)
Lemma pool_options_valid parse_socket_addr parse_url config name p :
  valid_config parse_socket_addr parse_url config → pools config !! name = Some p →
  let o := pool_options config p in
  connection_timeout o = acquire_timeout (pool_params p) ∧
  default_command_timeout o = command_timeout (pool_params p) ∧
  (connection_timeout o + 2 * default_command_timeout o < from_millis (http_timeout_ms (server config)))%Z.
Proof.
  intros Hv Hp. destruct (valid_pools _ _ _ Hv name p Hp) as [_ _ _ _ _ _ _ Ht]. cbn.
  split_and!; [done|done|]. unfold from_millis in *. lia.
Qed.
End Build.
