(* ===== verification/Jwks.v ===== *)
(** * Outbound HTTP: [src/src/adapters/http_jwks.rs],
      [src/src/adapters/http_introspect.rs] and
      [src/src/adapters/outbound_http.rs]

    The key cache of the JWKS adapter with its refreshes, and the token
    introspection client.  The network, the URL parser and the JSON decoders
    are parameters, an [Http] record; a refresh runs under [refresh_lock] and
    is the only writer of the cache, so it is a function of the cache and of
    the time at which it got the lock. *)
From S2P Require Import Prelude Domain Config.

(** ** Outbound requests *)

(** What comes back from the wire before the timeout: a status and the body as
    far as the limit allows, or a failure. *)
Module Reply.
Inductive Reply : Type :=
| Response (status : Z) (body : result bytes string)
| Failed (error : string)
| TimedOut.
End Reply.
Abbreviation Reply := Reply.Reply.

Section Outbound.
(** The [Display] text of a status code. *)
Context (display : Z → string).

(** [require_success]. *)
Definition require_success (status : Z) : result unit string :=
  if (200 <=? status)%Z && (status <? 300)%Z then Ok tt
  else
    let reason :=
      if (300 <=? status)%Z && (status <? 400)%Z then "redirects are not followed"
      else if (status =? 429)%Z then "remote service rate limited the request"
      else "remote service returned an error" in
    Err (reason +:+ ": HTTP " +:+ display status).

(** [request_bytes]. *)
Definition request_bytes (reply : Reply) : result bytes string :=
  match reply with
  | Reply.TimedOut => Err "outbound HTTP request timed out"
  | Reply.Failed error => Err ("outbound HTTP request failed: " +:+ error)
  | Reply.Response status body =>
      let? _ := require_success status in
      map_err (λ error, "outbound HTTP response body failed: " +:+ error) body
  end.
End Outbound.

(** ** Keys *)

(** The parts of a JWK of [jsonwebtoken] the code looks at. *)
Module PublicKeyUse.
Inductive PublicKeyUse : Type := Signature | Other.
End PublicKeyUse.
Module KeyOperations.
Inductive KeyOperations : Type := Verify | Other.
End KeyOperations.
Module KeyAlgorithm.
Inductive KeyAlgorithm : Type := RS256 | RS384 | RS512 | ES256 | ES384 | Other.
End KeyAlgorithm.
Module EllipticCurve.
Inductive EllipticCurve : Type := P256 | P384 | Other.
End EllipticCurve.
Module AlgorithmParameters.
Inductive AlgorithmParameters : Type :=
| RSA
| EllipticCurve (curve : EllipticCurve.EllipticCurve)
| Other.
End AlgorithmParameters.

Record Jwk : Type := mkJwk {
  public_key_use : option PublicKeyUse.PublicKeyUse;
  key_operations : option (list KeyOperations.KeyOperations);
  key_id : option string;
  key_algorithm : option KeyAlgorithm.KeyAlgorithm;
  parameters : AlgorithmParameters.AlgorithmParameters;
  document : option bytes;
}.

(** The [match] on the key's parameters and declared algorithm. *)
Definition key_jwt_algorithm (jwk : Jwk) : option JwtAlgorithm :=
  match parameters jwk, key_algorithm jwk with
  | AlgorithmParameters.RSA, (None | Some KeyAlgorithm.RS256) => Some JwtAlgorithm.Rs256
  | AlgorithmParameters.RSA, Some KeyAlgorithm.RS384 => Some JwtAlgorithm.Rs384
  | AlgorithmParameters.RSA, Some KeyAlgorithm.RS512 => Some JwtAlgorithm.Rs512
  | AlgorithmParameters.EllipticCurve curve, None =>
      match curve with
      | EllipticCurve.P256 => Some JwtAlgorithm.Es256
      | EllipticCurve.P384 => Some JwtAlgorithm.Es384
      | EllipticCurve.Other => None
      end
  | AlgorithmParameters.EllipticCurve EllipticCurve.P256, Some KeyAlgorithm.ES256 => Some JwtAlgorithm.Es256
  | AlgorithmParameters.EllipticCurve EllipticCurve.P384, Some KeyAlgorithm.ES384 => Some JwtAlgorithm.Es384
  | _, _ => None
  end.

(** [cacheable_key]; the document is what serialising the key gives. *)
Definition cacheable_key (jwk : Jwk) : option (string * CachedKey) :=
  if match public_key_use jwk with Some PublicKeyUse.Other => true | _ => false end
     || match key_operations jwk with
        | Some operations =>
            negb (existsb (λ o, match o with KeyOperations.Verify => true | _ => false end) operations)
        | None => false
        end
  then None
  else
    kid ← key_id jwk;
    algorithm ← key_jwt_algorithm jwk;
    material ← document jwk;
    Some (kid, mkCachedKey algorithm material).

(** ** The cache *)

Definition DISCOVERY_LIMIT : Z := 64 * 1024.
Definition JWKS_LIMIT : Z := 1024 * 1024.
Definition FORCED_REFRESH_INTERVAL : Z := from_secs 30.

Record KeyCache : Type := mkKeyCache {
  keys : gmap string CachedKey;
  fetched_at : option Z;
  jwks_uri : option string;
  last_forced_refresh : option Z;
}.

(** [KeyCache::default]. *)
Definition key_cache_default : KeyCache := mkKeyCache ∅ None None None.

(** The outside world during a refresh: the URL parser (the scheme, or an
    error's text), the request builder, the reply to a request for a URL read
    up to a limit, the text of a status and the two decoders. *)
Record Http : Type := mkHttp {
  url_scheme : string → result string string;
  build_request : string → result unit string;
  reply_to : string → Z → Reply;
  status_text : Z → string;
  discovery_json : bytes → result string string;
  jwks_json : bytes → result (list Jwk) string;
}.

Section Source.
(** The fields of [HttpJwks] that do not change. *)
Context (issuer : string) (refresh_after : Z).

Definition validate_http_url (h : Http) (value : string) : result unit JwksError :=
  match url_scheme h value with
  | Err error => Err (JwksError.Unavailable ("invalid outbound URL: " +:+ error))
  | Ok scheme =>
      if String.eqb scheme "http" || String.eqb scheme "https" then Ok tt
      else Err (JwksError.Unavailable "outbound URL must use http or https")
  end.

(** [HttpJwks::get]. *)
Definition jwks_get (h : Http) (url : string) (limit : Z) : result bytes JwksError :=
  let? _ := validate_http_url h url in
  let? _ := map_err (λ e, JwksError.Unavailable ("invalid outbound HTTP request: " +:+ e)) (build_request h url) in
  map_err JwksError.Unavailable (request_bytes (status_text h) (reply_to h url limit)).

(** [str::trim_end_matches('/')]. *)
Fixpoint trim_slashes (s : string) : string :=
  match s with
  | EmptyString => EmptyString
  | String c s =>
      match trim_slashes s with
      | EmptyString => if Ascii.eqb c "/" then EmptyString else String c EmptyString
      | s => String c s
      end
  end.

(** [HttpJwks::fetch_discovery]. *)
Definition fetch_discovery (h : Http) : result string JwksError :=
  let url := trim_slashes issuer +:+ "/.well-known/openid-configuration" in
  let? body := jwks_get h url DISCOVERY_LIMIT in
  let? uri := map_err (λ e, JwksError.Unavailable ("invalid OpenID discovery document: " +:+ e))
                (discovery_json h body) in
  let? _ := validate_http_url h uri in
  Ok uri.

(** [HttpJwks::fetch_keys]; of keys with the same id the last one stays. *)
Definition fetch_keys (h : Http) (url : string) : result (gmap string CachedKey) JwksError :=
  let? body := jwks_get h url JWKS_LIMIT in
  let? set := map_err (λ e, JwksError.Unavailable ("invalid JWKS document: " +:+ e)) (jwks_json h body) in
  Ok (foldl (λ m kv, <[kv.1 := kv.2]> m) ∅ (omap cacheable_key set)).

(** Whether [HttpJwks::refresh] returns at once. *)
Definition refresh_skipped (forced : bool) (now : Z) (cache : KeyCache) : bool :=
  if forced then
    match last_forced_refresh cache with
    | Some last => (duration_since now last <? FORCED_REFRESH_INTERVAL)%Z
    | None => false
    end
  else
    match fetched_at cache with
    | Some fetched => (duration_since now fetched <? refresh_after)%Z
    | None => false
    end.

(** [HttpJwks::refresh], having got the lock at [now]. *)
Definition refresh (forced : bool) (now : Z) (h : Http) (cache : KeyCache) :
    result unit JwksError * KeyCache :=
  if refresh_skipped forced now cache then (Ok tt, cache)
  else
    let cache :=
      if forced then mkKeyCache (keys cache) (fetched_at cache) (jwks_uri cache) (Some now) else cache in
    match match jwks_uri cache with Some uri => Ok uri | None => fetch_discovery h end with
    | Err e => (Err e, cache)
    | Ok uri =>
        match fetch_keys h uri with
        | Err e => (Err e, cache)
        | Ok ks => (Ok tt, mkKeyCache ks (Some now) (Some uri) (last_forced_refresh cache))
        end
    end.

(** [HttpJwks::refresh_if_needed], its reading of the clock at [now] and the
    lock at [now']. *)
Definition refresh_if_needed (now now' : Z) (h : Http) (cache : KeyCache) :
    result unit JwksError * KeyCache :=
  let stale :=
    match fetched_at cache with
    | Some fetched => (refresh_after <=? duration_since now fetched)%Z
    | None => true
    end in
  if stale then refresh false now' h cache else (Ok tt, cache).

(** [HttpJwks::key_for] without interference: its three readings of the clock
    and the world at its two refreshes. *)
Definition key_for (now now' now'' : Z) (h h' : Http) (kid : string) (cache : KeyCache) :
    result CachedKey JwksError * KeyCache :=
  match refresh_if_needed now now' h cache with
  | (Err e, cache) => (Err e, cache)
  | (Ok _, cache) =>
      match keys cache !! kid with
      | Some key => (Ok key, cache)
      | None =>
          match refresh true now'' h' cache with
          | (Err e, cache) => (Err e, cache)
          | (Ok _, cache) => (ok_or JwksError.NotFound (keys cache !! kid), cache)
          end
      end
  end.
End Source.

(** [HttpJwks::new], given whether the client could be built. *)
Definition http_jwks_new (build_client : result unit string) (issuer : string) (refresh_secs : Z) :
    result (string * Z * KeyCache) JwksError :=
  let? _ := map_err JwksError.Unavailable build_client in
  Ok (issuer, from_secs refresh_secs, key_cache_default).

(** ** Introspection *)

Definition INTROSPECTION_LIMIT : Z := 64 * 1024.

Record HttpIntrospector : Type := mkHttpIntrospector {
  introspection_url : string;
  authorization : SecretString;
}.

Section Introspector.
(** The URL parser, the base64 encoder, the client's construction, the form
    encoder, the request with its header and body, the reply to it read up to a limit,
    the text of a status, and the decoder. *)
Context (parse_scheme : string → result string string).
Context (base64_encode : bytes → string).
Context (build_client : result unit string).
Context (form_urlencoded : string → string → string).
Context (build_post : string → string → string → result unit string).
Context (post : string → string → string → Z → Reply) (display : Z → string).
Context (active_json : bytes → result bool string).

(** [HttpIntrospector::new]. *)
Definition introspector_new (url client_id : string) (client_secret : SecretString) :
    result HttpIntrospector IntrospectError :=
  match parse_scheme url with
  | Err error => Err (mkIntrospectError ("invalid introspection URL: " +:+ error))
  | Ok scheme =>
      if String.eqb scheme "http" || String.eqb scheme "https" then
        let credentials := client_id +:+ ":" +:+ expose client_secret in
        let authorization := "Basic " +:+ base64_encode credentials in
        let? _ := map_err mkIntrospectError build_client in
        Ok (mkHttpIntrospector url (SecretString_new authorization))
      else Err (mkIntrospectError "introspection URL must use http or https")
  end.

(** [HttpIntrospector::is_active]. *)
Definition is_active (x : HttpIntrospector) (token : string) : result bool IntrospectError :=
  let body := form_urlencoded "token" token in
  let header := expose (authorization x) in
  let? _ := map_err (λ e, mkIntrospectError ("invalid introspection request: " +:+ e))
              (build_post (introspection_url x) header body) in
  let? response :=
    map_err mkIntrospectError
      (request_bytes display (post (introspection_url x) header body INTROSPECTION_LIMIT)) in
  map_err (λ e, mkIntrospectError ("invalid introspection response: " +:+ e)) (active_json response).
End Introspector.

(** ** The cache over time *)

(** The cache, the latest time a refresh started, the times of the forced
    refreshes that reached the network (latest first) and the key set that was
    last fetched. *)
Record JwksSys : Type := mkJwksSys {
  jwks_cache : KeyCache;
  jwks_now : Z;
  forced_fetches : list Z;
  published : list Jwk;
}.

Definition log_forced (forced skipped : bool) (now : Z) (l : list Z) : list Z :=
  if forced && negb skipped then now :: l else l.

(** The key set a refresh obtains. *)
Definition obtained_set (issuer : string) (refresh_after : Z) (forced : bool) (now : Z) (h : Http)
    (cache : KeyCache) : option (list Jwk) :=
  if refresh_skipped refresh_after forced now cache then None
  else
    match match jwks_uri cache with Some uri => Ok uri | None => fetch_discovery issuer h end with
    | Err _ => None
    | Ok uri =>
        match jwks_get h uri JWKS_LIMIT with
        | Ok body => match jwks_json h body with Ok set => Some set | Err _ => None end
        | Err _ => None
        end
    end.

(** A refresh runs to its end, or is dropped while it waits for the network. *)
Inductive jwks_step (issuer : string) (refresh_after : Z) : JwksSys → JwksSys → Prop :=
| jwks_step_refresh forced now now' h cache cache' log set r :
    (now ≤ now')%Z → refresh issuer refresh_after forced now' h cache = (r, cache') →
    jwks_step issuer refresh_after (mkJwksSys cache now log set)
      (mkJwksSys cache' now' (log_forced forced (refresh_skipped refresh_after forced now' cache) now' log)
         (default set (obtained_set issuer refresh_after forced now' h cache)))
| jwks_step_drop now now' cache log set :
    (now ≤ now')%Z → refresh_skipped refresh_after true now' cache = false →
    jwks_step issuer refresh_after (mkJwksSys cache now log set)
      (mkJwksSys (mkKeyCache (keys cache) (fetched_at cache) (jwks_uri cache) (Some now')) now'
         (now' :: log) set).

Definition jwks_reachable (issuer : string) (refresh_after : Z) (s : JwksSys) : Prop :=
  ∃ now, rtc (jwks_step issuer refresh_after) (mkJwksSys key_cache_default now [] []) s.

(** Forced fetches, latest first, thirty seconds apart. *)
Fixpoint spaced (l : list Z) : Prop :=
  match l with
  | t :: (u :: _) as l => (u + FORCED_REFRESH_INTERVAL ≤ t)%Z ∧ spaced l
  | _ => True
  end.

Record jwks_inv (s : JwksSys) : Prop := {
  inv_last_forced : last_forced_refresh (jwks_cache s) = head (forced_fetches s);
  inv_spaced : spaced (forced_fetches s);
  inv_past : Forall (λ t, t ≤ jwks_now s)%Z (forced_fetches s);
  inv_keys : keys (jwks_cache s) =
    foldl (λ m kv, <[kv.1 := kv.2]> m) ∅ (omap cacheable_key (published s));
}.

(** What a refresh does to the cache. *)
Lemma refresh_cases issuer refresh_after forced now h cache r cache' :
  refresh issuer refresh_after forced now h cache = (r, cache') →
  last_forced_refresh cache' =
    (if forced && negb (refresh_skipped refresh_after forced now cache)
     then Some now else last_forced_refresh cache) ∧
  keys cache' =
    match obtained_set issuer refresh_after forced now h cache with
    | Some set => foldl (λ m kv, <[kv.1 := kv.2]> m) ∅ (omap cacheable_key set)
    | None => keys cache
    end.
Proof.
  unfold refresh, obtained_set. destruct (refresh_skipped _ forced now cache).
  { intros [= _ <-]. by rewrite andb_false_r. }
  assert (jwks_uri (if forced then mkKeyCache (keys cache) (fetched_at cache) (jwks_uri cache) (Some now) else cache)
    = jwks_uri cache) as -> by (by destruct forced).
  rewrite andb_true_r.
  destruct (match jwks_uri cache with Some uri => Ok uri | None => fetch_discovery issuer h end) as [uri|e];
    [|intros [= _ <-]; by destruct forced].
  unfold fetch_keys. destruct (jwks_get h uri JWKS_LIMIT) as [body|e]; [|intros [= _ <-]; by destruct forced].
  destruct (jwks_json h body) as [set|e]; cbn; intros [= _ <-]; by destruct forced.
Qed.

Lemma jwks_log_inv cache now now' l :
  last_forced_refresh cache = head l → spaced l → Forall (λ t, t ≤ now)%Z l → (now ≤ now')%Z →
  refresh_skipped 0 true now' cache = false → spaced (now' :: l) ∧ Forall (λ t, t ≤ now')%Z (now' :: l).
Proof.
  intros Hl Hs Hp Hle Hsk. unfold refresh_skipped in Hsk. rewrite Hl in Hsk. split.
  - destruct l as [|u l]; [done|]. split; [|done]. cbn in Hsk. apply Forall_cons in Hp as [Hu _].
    apply Z.ltb_ge in Hsk. unfold duration_since in Hsk. unfold FORCED_REFRESH_INTERVAL, from_secs, nanos_per_sec in *. lia.
  - constructor; [done|]. eapply Forall_impl; [exact Hp|]. cbn. lia.
Qed.

Lemma past_grow now now' l : (now ≤ now')%Z → Forall (λ t, t ≤ now)%Z l → Forall (λ t, t ≤ now')%Z l.
Proof. intros Hle Hp. eapply Forall_impl; [exact Hp|]. cbn. lia. Qed.

Lemma jwks_step_inv issuer refresh_after s s' : jwks_inv s → jwks_step issuer refresh_after s s' → jwks_inv s'.
Proof.
  intros [Hl Hs Hp Hk] Hstep.
  destruct Hstep as [forced now now' h cache cache' log set r Hle Hr|now now' cache log set Hle Hsk]; cbn in *.
  - apply refresh_cases in Hr as [Hf Hks]. unfold log_forced. destruct forced; cbn [andb] in *.
    + destruct (refresh_skipped refresh_after true now' cache) eqn:Hsk; cbn [negb] in *.
      * split; cbn; [by rewrite Hf|done|by eapply past_grow|].
        rewrite Hks. unfold obtained_set. by rewrite Hsk.
      * destruct (jwks_log_inv cache now now' log Hl Hs Hp Hle Hsk). split; cbn; try done.
        rewrite Hks. by destruct (obtained_set _ _ _ _ _ _).
    + split; cbn; [by rewrite Hf|done|by eapply past_grow|].
      rewrite Hks. by destruct (obtained_set _ _ _ _ _ _).
  - destruct (jwks_log_inv cache now now' log Hl Hs Hp Hle Hsk). by split.
Qed.

Lemma jwks_reachable_inv issuer refresh_after s : jwks_reachable issuer refresh_after s → jwks_inv s.
Proof.
  intros [now Hs]. assert (jwks_inv (mkJwksSys key_cache_default now [] [])) as Hinit by done.
  induction Hs as [|s1 s2 s3 Hstep _ IH]; [done|]. eauto using jwks_step_inv.
Qed.

(** The keys of a set that may verify signatures. *)
Definition verifies_with (jwk : Jwk) (a : JwtAlgorithm) : Prop :=
  public_key_use jwk ≠ Some PublicKeyUse.Other ∧
  (∀ ops, key_operations jwk = Some ops → KeyOperations.Verify ∈ ops) ∧
  match a with
  | JwtAlgorithm.Rs256 => parameters jwk = AlgorithmParameters.RSA ∧
      (key_algorithm jwk = None ∨ key_algorithm jwk = Some KeyAlgorithm.RS256)
  | JwtAlgorithm.Rs384 => parameters jwk = AlgorithmParameters.RSA ∧ key_algorithm jwk = Some KeyAlgorithm.RS384
  | JwtAlgorithm.Rs512 => parameters jwk = AlgorithmParameters.RSA ∧ key_algorithm jwk = Some KeyAlgorithm.RS512
  | JwtAlgorithm.Es256 => parameters jwk = AlgorithmParameters.EllipticCurve EllipticCurve.P256 ∧
      (key_algorithm jwk = None ∨ key_algorithm jwk = Some KeyAlgorithm.ES256)
  | JwtAlgorithm.Es384 => parameters jwk = AlgorithmParameters.EllipticCurve EllipticCurve.P384 ∧
      (key_algorithm jwk = None ∨ key_algorithm jwk = Some KeyAlgorithm.ES384)
  end.

Lemma key_algorithm_spec jwk a :
  public_key_use jwk ≠ Some PublicKeyUse.Other →
  (∀ ops, key_operations jwk = Some ops → KeyOperations.Verify ∈ ops) →
  key_jwt_algorithm jwk = Some a ↔ verifies_with jwk a.
Proof.
  intros Hu Ho. unfold key_jwt_algorithm, verifies_with.
  destruct jwk as [u o k [[]|] [|[]|] d]; cbn in *; destruct a; split; intros; simplify_eq;
    try (split_and!; [done|done|..]); try done; naive_solver.
Qed.

Lemma existsb_verify ops :
  existsb (λ o, match o with KeyOperations.Verify => true | _ => false end) ops = true ↔ KeyOperations.Verify ∈ ops.
Proof.
  rewrite List.existsb_exists. setoid_rewrite list_elem_of_In. split; [|eauto].
  intros ([] & ? & ?); done.
Qed.

Lemma cacheable_key_spec jwk kid key :
  cacheable_key jwk = Some (kid, key) ↔
  key_id jwk = Some kid ∧ document jwk = Some (material key) ∧ verifies_with jwk (algorithm key).
Proof.
  unfold cacheable_key. destruct (_ || _) eqn:Hrefuse.
  - split; [done|]. intros (_ & _ & Hu & Ho & _). exfalso.
    apply orb_true_iff in Hrefuse as [H|H]; [by destruct (public_key_use jwk) as [[]|]|].
    destruct (key_operations jwk) as [ops|]; [|done].
    specialize (Ho ops eq_refl). apply existsb_verify in Ho. by rewrite Ho in H.
  - apply orb_false_iff in Hrefuse as [Hu Ho].
    assert (public_key_use jwk ≠ Some PublicKeyUse.Other) as Hu' by (by intros Heq; rewrite Heq in Hu).
    assert (∀ ops, key_operations jwk = Some ops → KeyOperations.Verify ∈ ops) as Ho'.
    { intros ops Heq. rewrite Heq in Ho. by apply negb_false_iff, existsb_verify in Ho. }
    rewrite <- key_algorithm_spec by done. destruct key as [a m]. cbn.
    destruct (key_id jwk), (key_jwt_algorithm jwk), (document jwk); cbn; naive_solver.
Qed.

(** Collecting pairs into a map: every binding comes from a pair, every key of
    a pair is bound. *)
Lemma collect_map_lookup {A} (l : list (string * A)) (m : gmap string A) k v :
  foldl (λ m kv, <[kv.1 := kv.2]> m) m l !! k = Some v → m !! k = Some v ∨ (k, v) ∈ l.
Proof.
  revert m. induction l as [|[k' v'] l IH]; intros m; cbn; [auto|].
  intros [Hm|Hin]%IH; [|right; by right]. apply lookup_insert_Some in Hm as [[<- <-]|[_ Hm]]; [right; left|auto].
Qed.

(** ** Properties *)

(** C38. However many requests ask for keys the cache does not have, and
    however their refreshes fail or are dropped, two forced refreshes that
    reach the network are at least thirty seconds apart; so in any period there
    are at most one more of them than it has intervals of thirty seconds. *)
Theorem forced_refreshes_are_throttled issuer refresh_after s i j t u :
  jwks_reachable issuer refresh_after s →
  forced_fetches s !! i = Some t → forced_fetches s !! j = Some u → i ≤ j →
  (u + Z.of_nat (j - i) * from_secs 30 ≤ t)%Z.
Proof.
  intros [_ Hs _ _]%jwks_reachable_inv. revert i j t u Hs. generalize (forced_fetches s) as l.
  induction l as [|x l IH]; intros i j t u Hs Hi Hj Hij; [done|].
  assert (spaced l) as Hl by (destruct l; [done|apply Hs]).
  destruct i as [|i], j as [|j]; cbn in Hi, Hj; simplify_eq; [cbn; lia| |lia|].
  - destruct l as [|y l]; [done|]. destruct Hs as [Hxy _].
    pose proof (IH 0 j y u Hl eq_refl Hj ltac:(lia)). unfold FORCED_REFRESH_INTERVAL in Hxy.
    rewrite Nat.sub_0_r in *. lia.
  - cbn. apply IH; [done..|lia].
Qed.

(** A world in which nothing answers. *)
Definition dead_http : Http :=
  mkHttp (λ _, Ok "https") (λ _, Ok tt) (λ _ _, Reply.TimedOut) (λ _, "") (λ _, Err "") (λ _, Err "").

Lemma forced_refreshes_are_throttled_witness : (0 + 1 * from_secs 30 ≤ from_secs 31)%Z.
Proof.
  apply (forced_refreshes_are_throttled "https://issuer" 600
    (mkJwksSys (mkKeyCache ∅ None None (Some (from_secs 31))) (from_secs 31) [from_secs 31; 0%Z] []) 0 1);
    [|reflexivity|reflexivity|lia].
  exists 0%Z.
  eapply rtc_l; [eapply (jwks_step_refresh _ _ true 0 0 dead_http); [lia|reflexivity]|].
  eapply rtc_l; [eapply (jwks_step_refresh _ _ true 0 (from_secs 31) dead_http); [done|reflexivity]|].
  apply rtc_refl.
Defined.

(** A key the cache holds is one of the key set last obtained: it was
    published under that key id, for signatures and with the verify operation
    where it says so, and the algorithm recorded with it fits its type, its
    curve and the algorithm it names; so an RSA key never verifies an elliptic
    curve signature or the other way round. *)
Theorem cached_keys_are_published issuer refresh_after s kid key :
  jwks_reachable issuer refresh_after s → keys (jwks_cache s) !! kid = Some key →
  ∃ jwk, jwk ∈ published s ∧ key_id jwk = Some kid ∧ document jwk = Some (material key) ∧
    verifies_with jwk (algorithm key).
Proof.
  intros [_ _ _ Hk]%jwks_reachable_inv Hl. rewrite Hk in Hl.
  apply collect_map_lookup in Hl as [Hl|Hin]; [by rewrite lookup_empty in Hl|].
  apply list_elem_of_omap in Hin as (jwk & Hj & Hc). apply cacheable_key_spec in Hc. naive_solver.
Qed.

(** An issuer that publishes one elliptic curve key. *)
Definition sample_jwk : Jwk :=
  mkJwk (Some PublicKeyUse.Signature) None (Some "k1") None
    (AlgorithmParameters.EllipticCurve EllipticCurve.P256) (Some "jwk").
Definition sample_http : Http :=
  mkHttp (λ _, Ok "https") (λ _, Ok tt) (λ _ _, Reply.Response 200 (Ok "")) (λ _, "")
    (λ _, Ok "https://issuer/keys") (λ _, Ok [sample_jwk]).

Lemma cached_keys_are_published_witness :
  ∃ jwk, jwk ∈ [sample_jwk] ∧ key_id jwk = Some "k1" ∧ document jwk = Some "jwk" ∧
    verifies_with jwk JwtAlgorithm.Es256.
Proof.
  apply (cached_keys_are_published "https://issuer" 600
    (mkJwksSys (mkKeyCache {[ "k1" := mkCachedKey JwtAlgorithm.Es256 "jwk" ]} (Some 5%Z)
       (Some "https://issuer/keys") None) 5 [] [sample_jwk])
    "k1" (mkCachedKey JwtAlgorithm.Es256 "jwk")); [|reflexivity].
  exists 5%Z. eapply rtc_l; [|apply rtc_refl].
  eapply (jwks_step_refresh _ _ false 5 5 sample_http); [lia|reflexivity].
Defined.
