(* ===== verification/AuthService.v ===== *)
(** * Authentication as a service: concurrent credentials over shared caches

    [Auth.v] verifies one authentication against an environment that may answer
    anything, and the introspection cache alone; [Jwks.v] the key cache alone.
    Here they run together, as in the process [src/src/main.rs] builds: any
    number of authentications of the chain of [src/src/adapters/auth_chain.rs]
    share one introspection cache ([src/src/adapters/jwt_auth.rs]) and one key
    source ([src/src/adapters/http_jwks.rs]), take their calls in any
    interleaving, end or are dropped, while keys are refreshed, the maintenance
    task sweeps and time passes.  A key is what the cache holds when the answer
    is given: the refreshes that [key_for] makes first are steps of the key
    source, taken by this request or by others.  What the authorization service
    answers is arbitrary, and logged, and so is every store of an answer in the
    cache, with what the request that stored it had done before. *)
From S2P Require Import Prelude Domain Convert Config RateLimit Ports Auth Jwks.

(** ** What an authentication has seen *)

Module Event.
Inductive Event : Type :=
| KeyGiven (kid : string) (r : result CachedKey JwksError)
| Looked (digest : bytes) (o : option bool)
| Answered (token : string) (r : result bool IntrospectError)
| Stored (digest : bytes) (a : bool)
| Other.
End Event.
Abbreviation Event := Event.Event.

Definition event_of {X : Type} (e : Eff X) : X → Event :=
  match e in Eff.Eff X return X → Event with
  | Eff.KeyFor kid => Event.KeyGiven kid
  | Eff.CacheGet digest => Event.Looked digest
  | Eff.IsActive token => Event.Answered token
  | Eff.CacheInsert digest a => λ _, Event.Stored digest a
  | _ => λ _, Event.Other
  end.

(** The calls of an authentication with their answers and times, latest first. *)
Abbreviation Trace := (list (Z * Event)).

(** Every run of a program from a trace makes only calls that [pre] allows and
    ends with a result and a trace in [post]. *)
Fixpoint within {A : Type} (pre : ∀ X, Eff X → Trace → Prop) (post : A → Trace → Prop)
    (p : Prog A) (tr : Trace) : Prop :=
  match p with
  | Ret a => post a tr
  | @Vis _ X e k => pre X e tr ∧ ∀ now x, within pre post (k x) ((now, event_of e x) :: tr)
  end.

Lemma within_bind {A B} pre (post : B → Trace → Prop) (p : Prog A) (f : A → Prog B) tr :
  within pre (λ a, within pre post (f a)) p tr → within pre post (prog_bind p f) tr.
Proof. revert tr. induction p as [a|X e k IH]; intros tr; cbn; [done|]. intros [? Hk]. split; auto. Qed.

Lemma within_mono {A} pre (post post' : A → Trace → Prop) p tr :
  (∀ a tr, post a tr → post' a tr) → within pre post p tr → within pre post' p tr.
Proof. intros Hp. revert tr. induction p as [a|X e k IH]; intros tr; cbn; [auto|]. intros [? ?]. split; auto. Qed.

(** ** The service *)

Record AuthThread : Type := mkAuthThread {
  a_bearer : string;
  a_prog : Prog (result (option Identity) AuthError);
  a_trace : Trace;
}.

(** The two caches; the key sets fetched so far and what the authorization
    service answered, both latest first; for each store into the introspection
    cache what the authentication that made it had seen by then, the store
    included; the authentications in flight and those that ended. *)
Record AuthService : Type := mkAuthService {
  a_cache : CacheSys;
  a_keys : JwksSys;
  a_sets : list (list Jwk);
  a_answers : list (Z * string * bool);
  a_stores : list Trace;
  a_threads : list AuthThread;
  a_ended : list (string * result (option Identity) AuthError * Trace);
}.

(** What a step means to those who asked: a credential arrives, one is
    answered, one is given up, or nothing of the kind. *)
Module AuthLabel.
Inductive AuthLabel : Type :=
| Arrive (bearer : string)
| End_ (bearer : string) (r : result (option Identity) AuthError)
| Drop (bearer : string)
| Internal.
End AuthLabel.
Abbreviation AuthLabel := AuthLabel.AuthLabel.

Section AuthService.
Context {DecodingKey : Type}.
Context (decode_header : string → option (option string)).
Context (decoding_key : bytes → option DecodingKey).
Context (decode : string → DecodingKey → Validation → option Claims).
Context (url_safe_decode : string → option bytes) (json_from_slice : bytes → option Value).
Context (sha256 : bytes → bytes).
(** The JWT part of the configuration, its cache, the static tokens, and the
    issuer with the interval between refreshes of its keys. *)
Context (jwt : option JwtAuth) (c : CacheParams) (tokens : gmap string StaticTokenConfig).
Context (issuer : string) (refresh_after : Z).

Abbreviation authenticate :=
  (server_authenticate decode_header decoding_key decode url_safe_decode json_from_slice sha256 jwt tokens).

(** How the caches and the authorization service answer a call. *)
Definition auth_answers {X : Type} (e : Eff X) : X → AuthService → CacheSys * list (Z * string * bool) → Prop :=
  match e in Eff.Eff X return X → AuthService → CacheSys * list (Z * string * bool) → Prop with
  | Eff.KeyFor kid => λ r s s',
      (∀ key, r = Ok key → keys (jwks_cache (a_keys s)) !! kid = Some key) ∧ s' = (a_cache s, a_answers s)
  | Eff.CacheGet digest => λ r s s',
      ∃ st', cache_get (cache_now (a_cache s)) digest (cache_state (a_cache s)) = (r, st') ∧
        s' = (mkCacheSys st' (inserted (a_cache s)) (cache_now (a_cache s)), a_answers s)
  | Eff.IsActive token => λ r s s',
      s' = (a_cache s, match r with
                       | Ok a => (cache_now (a_cache s), token, a) :: a_answers s
                       | Err _ => a_answers s
                       end)
  | Eff.CacheInsert digest a => λ _ s s',
      let now := cache_now (a_cache s) in
      s' = (mkCacheSys (cache_insert c now digest a (cache_state (a_cache s)))
              (<[digest := (a, now)]> (inserted (a_cache s))) now, a_answers s)
  | _ => λ _ s s', s' = (a_cache s, a_answers s)
  end.

(** The stores after a call. *)
Definition stores_after {X : Type} (e : Eff X) (x : X) (now : Z) (tr : Trace) (stores : list Trace) : list Trace :=
  match event_of e x with Event.Stored _ _ => ((now, event_of e x) :: tr) :: stores | _ => stores end.

Inductive auth_step : AuthLabel → AuthService → AuthService → Prop :=
| au_arrive cache ks sets log stores ts done_ bearer :
    auth_step (AuthLabel.Arrive bearer) (mkAuthService cache ks sets log stores ts done_)
      (mkAuthService cache ks sets log stores (mkAuthThread bearer (authenticate bearer) [] :: ts) done_)
| au_call cache ks sets log stores ts ts' done_ bearer {X} (e : Eff X) k tr x cache' log' :
    ts ≡ₚ mkAuthThread bearer (Vis e k) tr :: ts' →
    auth_answers e x (mkAuthService cache ks sets log stores ts done_) (cache', log') →
    auth_step AuthLabel.Internal (mkAuthService cache ks sets log stores ts done_)
      (mkAuthService cache' ks sets log' (stores_after e x (cache_now cache) tr stores)
         (mkAuthThread bearer (k x) ((cache_now cache, event_of e x) :: tr) :: ts') done_)
| au_end cache ks sets log stores ts ts' done_ bearer r tr :
    ts ≡ₚ mkAuthThread bearer (Ret r) tr :: ts' →
    auth_step (AuthLabel.End_ bearer r) (mkAuthService cache ks sets log stores ts done_)
      (mkAuthService cache ks sets log stores ts' ((bearer, r, tr) :: done_))
| au_drop cache ks sets log stores ts t ts' done_ :
    ts ≡ₚ t :: ts' →
    auth_step (AuthLabel.Drop (a_bearer t)) (mkAuthService cache ks sets log stores ts done_) (mkAuthService cache ks sets log stores ts' done_)
| au_keys cache ks ks' sets log stores ts done_ :
    jwks_step issuer refresh_after ks ks' →
    auth_step AuthLabel.Internal (mkAuthService cache ks sets log stores ts done_)
      (mkAuthService cache ks' (published ks' :: sets) log stores ts done_)
| au_tick st ins now now' ks sets log stores ts done_ :
    (now ≤ now')%Z →
    auth_step AuthLabel.Internal (mkAuthService (mkCacheSys st ins now) ks sets log stores ts done_)
      (mkAuthService (mkCacheSys st ins now') ks sets log stores ts done_)
| au_sweep st ins now ds n st' ks sets log stores ts done_ :
    cache_sweep now ds st = (n, st') →
    auth_step AuthLabel.Internal (mkAuthService (mkCacheSys st ins now) ks sets log stores ts done_)
      (mkAuthService (mkCacheSys st' ins now) ks sets log stores ts done_).

Definition auth_start (now jwks_time : Z) : AuthService :=
  mkAuthService (mkCacheSys cache_init ∅ now) (mkJwksSys key_cache_default jwks_time [] []) [] [] [] [] [].

Definition auth_reachable (s : AuthService) : Prop := ∃ now t, rtc (some_step auth_step) (auth_start now t) s.

(** ** What one authentication does *)

(** An answer is stored right after the authorization service gave it for a
    token with that digest. *)
Definition stores_what_was_answered X (e : Eff X) (tr : Trace) : Prop :=
  match e with
  | Eff.CacheInsert digest a => ∃ now token rest, tr = (now, Event.Answered token (Ok a)) :: rest ∧ digest = sha256 token
  | _ => True
  end.

(** The checks behind an accepted JWT, with the key that was used. *)
Definition jwt_checked (j : JwtAuth) (bearer kid : string) (key : CachedKey) (who : Identity) : Prop :=
  decode_header bearer = Some (Some kid) ∧
  ∃ dk cl, decoding_key (material key) = Some dk ∧
    decode bearer dk (jwt_validation j (algorithm key)) = Some cl ∧ typ cl = "Bearer" ∧
    (audience_contains (aud cl) (jwt_audience (jwt_config j)) = true ∨
     azp cl = Some (jwt_audience (jwt_config j))) ∧ jwt_identity j cl = Ok who.

(** What an accepted credential has seen. *)
Definition saw_enough (bearer : string) (r : result (option Identity) AuthError) (tr : Trace) : Prop :=
  ∀ who, r = Ok (Some who) →
    (∃ t, tokens !! sha256 bearer = Some t ∧ who = static_identity (sha256 bearer) t) ∨
    (∃ j kid key now, jwt = Some j ∧ (now, Event.KeyGiven kid (Ok key)) ∈ tr ∧ jwt_checked j bearer kid key who ∧
       (introspects j = true → ∃ now, (now, Event.Looked (sha256 bearer) (Some true)) ∈ tr ∨
          (now, Event.Answered bearer (Ok true)) ∈ tr)).

(** An oracle run that makes no call is a program's result. *)
Lemma static_within bearer tr :
  within stores_what_was_answered (saw_enough bearer)
    (chain_authenticate [static_authenticate sha256 (static_auth_new tokens)] bearer) tr.
Proof.
  cbn. unfold static_auth_new. rewrite map_lookup_imap.
  destruct (tokens !! sha256 bearer) as [t|] eqn:Ht; cbn; intros who [= <-]. left. eauto.
Qed.

Lemma introspect_within j bearer tr :
  within stores_what_was_answered
    (λ r tr', (∀ ev, ev ∈ tr → ev ∈ tr') ∧
       (r = Ok tt → introspects j = true → ∃ now, (now, Event.Looked (sha256 bearer) (Some true)) ∈ tr' ∨
          (now, Event.Answered bearer (Ok true)) ∈ tr'))
    (jwt_introspect sha256 j bearer) tr.
Proof.
  unfold jwt_introspect. destruct (introspects j); [|done]. cbn. split; [done|]. intros now cached.
  destruct cached as [[]|]; cbn.
  - split; [set_solver|]. intros _ _. exists now. left. left.
  - split; [set_solver|done].
  - split; [done|]. intros now' [a|e]; cbn; [|split; [set_solver|done]].
    split; [by exists now', bearer, ((now, Event.Looked (sha256 bearer) None) :: tr)|]. intros now'' _. destruct a; cbn; [|split; [set_solver|done]].
    split; [set_solver|]. intros _ _. exists now'. right. right. left.
Qed.

Lemma jwt_within j bearer :
  jwt = Some j →
  within stores_what_was_answered (λ r, saw_enough bearer (result_map Some r))
    (jwt_validate decode_header decoding_key decode sha256 j bearer) [].
Proof.
  intros Hj. unfold jwt_validate. destruct (decode_header bearer) as [[kid|]|] eqn:Hh; [|done|done].
  cbn. split; [done|]. intros now r. destruct r as [key|e]; [|by destruct e]. cbn.
  destruct (decoding_key (material key)) as [dk|] eqn:Hdk; [|done].
  destruct (decode bearer dk _) as [cl|] eqn:Hcl; [|done].
  destruct (_ || _) eqn:Hb; [done|]. apply orb_false_iff in Hb as [Ht%negb_false_iff%String.eqb_eq Ha].
  apply within_bind. eapply within_mono, introspect_within. intros [[]|e] tr [Hgrow Hact]; [|done]. cbn.
  destruct (jwt_identity j cl) as [who|] eqn:Hid; [|done]. intros who' [= <-]. right.
  exists j, kid, key, now. split_and!; [done|apply Hgrow; left| |by apply Hact].
  split; [done|]. exists dk, cl. split_and!; try done.
  apply andb_false_iff in Ha as [Ha%negb_false_iff|Ha%negb_false_iff%bool_decide_eq_true]; auto.
Qed.

Lemma authenticate_within bearer : within stores_what_was_answered (saw_enough bearer) (authenticate bearer) [].
Proof.
  unfold server_authenticate. destruct jwt as [j|] eqn:Hj; [|apply static_within].
  cbn [chain_authenticate]. unfold jwt_authenticate. destruct (negb _); [apply static_within|].
  destruct (decode_header bearer) as [o|].
  - apply within_bind, within_bind. eapply within_mono, (jwt_within j bearer); [|done].
    intros [who|e] tr Hs; cbn in *; [exact Hs|done].
  - destruct (has_json_header _ _ bearer); [done|apply static_within].
Qed.

(** ** The invariant *)

(** An authentication stored this answer under this digest at this time, right
    after the authorization service had answered it for a token with the
    digest. *)
Definition stored_answer (log : list (Z * string * bool)) (stores : list Trace) (digest : bytes) (a : bool) (stored : Z) : Prop :=
  ∃ token answered rest,
    ((stored, Event.Stored digest a) :: (answered, Event.Answered token (Ok a)) :: rest) ∈ stores ∧
    (answered, token, a) ∈ log ∧ sha256 token = digest ∧ (answered ≤ stored)%Z.

Lemma stored_answer_mono log stores log' stores' digest a stored :
  log ⊆ log' → stores ⊆ stores' → stored_answer log stores digest a stored → stored_answer log' stores' digest a stored.
Proof. intros Hl Hs (token & t & rest & ? & ? & ?). exists token, t, rest. auto. Qed.

(** What is behind an event, given the sets fetched, the answers and the stores
    so far. *)
Definition event_ok (sets : list (list Jwk)) (log : list (Z * string * bool)) (stores : list Trace) (ev : Z * Event) : Prop :=
  match ev with
  | (_, Event.KeyGiven kid (Ok key)) =>
      ∃ set jwk, set ∈ sets ∧ jwk ∈ set ∧ cacheable_key jwk = Some (kid, key)
  | (now, Event.Looked digest (Some a)) =>
      ∃ stored, stored_answer log stores digest a stored ∧ (stored ≤ now < stored + from_secs (ttl_secs c))%Z
  | (now, Event.Answered token (Ok a)) => (now, token, a) ∈ log
  | _ => True
  end.

Lemma event_ok_mono sets log stores sets' log' stores' ev :
  sets ⊆ sets' → log ⊆ log' → stores ⊆ stores' → event_ok sets log stores ev → event_ok sets' log' stores' ev.
Proof.
  intros Hs Hl Ht. destruct ev as [now [kid [key|]|digest [a|]|token [a|]| |]]; cbn; try done; [..|by apply Hl].
  - intros (set & jwk & ? & ? & ?). exists set, jwk. auto.
  - intros (t & ? & ?). exists t. split; [by eapply stored_answer_mono|done].
Qed.

Definition thread_ok sets log stores (t : AuthThread) : Prop :=
  within stores_what_was_answered (saw_enough (a_bearer t)) (a_prog t) (a_trace t) ∧
  Forall (event_ok sets log stores) (a_trace t).
Definition ended_ok sets log stores (d : string * result (option Identity) AuthError * Trace) : Prop :=
  saw_enough d.1.1 d.1.2 d.2 ∧ Forall (event_ok sets log stores) d.2.

Record auth_inv (s : AuthService) : Prop := {
  au_cache_ok : cache_inv c (a_cache s);
  au_keys_ok : jwks_inv (a_keys s);
  au_published : published (a_keys s) = [] ∨ published (a_keys s) ∈ a_sets s;
  au_past : Forall (λ e, e.1.1 ≤ cache_now (a_cache s))%Z (a_answers s);
  au_stored : ∀ digest a stored, inserted (a_cache s) !! digest = Some (a, stored) →
    stored_answer (a_answers s) (a_stores s) digest a stored;
  au_threads : Forall (thread_ok (a_sets s) (a_answers s) (a_stores s)) (a_threads s);
  au_ended : Forall (ended_ok (a_sets s) (a_answers s) (a_stores s)) (a_ended s);
}.

(** A key the cache holds comes from the set last fetched. *)
Lemma cached_key_published ks kid key :
  jwks_inv ks → keys (jwks_cache ks) !! kid = Some key →
  ∃ jwk, jwk ∈ published ks ∧ cacheable_key jwk = Some (kid, key).
Proof.
  intros [_ _ _ Hk]. rewrite Hk. intros [?|Hin]%collect_map_lookup; [done|].
  by apply list_elem_of_omap in Hin as (jwk & ? & ?); exists jwk.
Qed.

(** A lookup that finds an answer finds one stored less than the time to live
    ago. *)
Lemma cache_get_stored cache digest a st' :
  cache_inv c cache → cache_get (cache_now cache) digest (cache_state cache) = (Some a, st') →
  ∃ stored, inserted cache !! digest = Some (a, stored) ∧
    (stored ≤ cache_now cache < stored + from_secs (ttl_secs c))%Z.
Proof.
  intros [_ _ Hf]. unfold cache_get. destruct (cache_entries (cache_state cache) !! digest) as [e|] eqn:Hd; [|done].
  case_decide; [done|]. intros [= <- _]. destruct (Hf digest e Hd) as (at_ & ? & ? & ?).
  exists at_. split; [done|lia].
Qed.

(** The parts of the invariant that hold the state together, without the
    authentications. *)
Record shared_inv (cache : CacheSys) (log : list (Z * string * bool)) (stores : list Trace) : Prop := {
  sh_cache : cache_inv c cache;
  sh_past : Forall (λ e, e.1.1 ≤ cache_now cache)%Z log;
  sh_stored : ∀ digest a stored, inserted cache !! digest = Some (a, stored) →
    stored_answer log stores digest a stored;
}.

(** A call keeps them, adds only to the logs, and what it answers is backed. *)
Lemma auth_answers_inv {X} (e : Eff X) x s cache' log' tr :
  auth_inv s → auth_answers e x s (cache', log') → stores_what_was_answered X e tr →
  Forall (event_ok (a_sets s) (a_answers s) (a_stores s)) tr →
  let stores' := stores_after e x (cache_now (a_cache s)) tr (a_stores s) in
  shared_inv cache' log' stores' ∧ a_answers s ⊆ log' ∧ a_stores s ⊆ stores' ∧
  event_ok (a_sets s) log' stores' (cache_now (a_cache s), event_of e x).
Proof.
  intros [Hc Hk Hp Hpast Hst _ _] Ha Hpre Htr.
  assert (shared_inv (a_cache s) (a_answers s) (a_stores s)) as Hsh by done.
  destruct e; cbn in Ha; cbn zeta; unfold stores_after; cbn [event_of]; try (by simplify_eq; split_and!).
  - destruct Ha as [Hr [= -> ->]]. split_and!; [done..|]. cbn. destruct x as [key|]; [|done].
    destruct (cached_key_published _ _ _ Hk (Hr key eq_refl)) as (jwk & Hj & ?).
    destruct Hp as [Hp|Hp]; [rewrite Hp in Hj; by apply elem_of_nil in Hj|]. by exists (published (a_keys s)), jwk.
  - injection Ha as -> ->. destruct x as [a|]; [|done].
    assert (a_answers s ⊆ (cache_now (a_cache s), token, a) :: a_answers s) as Hsub by (intros ?; by right).
    split_and!; [split| |done|left]; try done.
    + by constructor.
    + intros digest b stored Hin. eapply stored_answer_mono, Hst, Hin; done.
  - destruct Ha as (st' & Hget & [= -> ->]). split_and!; [split| |done|]; try done.
    + destruct (a_cache s) as [st log now]. by eapply cache_get_inv.
    + cbn. destruct x as [a|]; [|done]. destruct (cache_get_stored _ _ _ _ Hc Hget) as (stored & Hin & ?).
      exists stored. split; [by apply Hst|done].
  - injection Ha as -> ->.
    assert (∀ t, a_stores s ⊆ t :: a_stores s) as Hsub by (intros t ?; by right).
    split_and!; [split| |apply Hsub|done]; try done.
    + destruct (a_cache s) as [st log now]. by apply cache_insert_inv.
    + cbn. intros d b stored [[<- [= <- <-]]|[_ Hin]]%lookup_insert_Some; [|by eapply stored_answer_mono, Hst, Hin].
      destruct Hpre as (t & token & rest & -> & ->). apply Forall_cons in Htr as [Htr _]. cbn in Htr.
      exists token, t, rest. split_and!; [left|done|done|]. rewrite Forall_forall in Hpast. by apply (Hpast _ Htr).
Qed.

Lemma auth_start_inv now t : auth_inv (auth_start now t).
Proof. split; cbn; try done; [by apply cache_reachable_inv; exists now|by left]. Qed.

Lemma trace_mono sets log stores sets' log' stores' tr :
  sets ⊆ sets' → log ⊆ log' → stores ⊆ stores' → Forall (event_ok sets log stores) tr → Forall (event_ok sets' log' stores') tr.
Proof. intros Hs Hl Ht Htr. eapply Forall_impl; [exact Htr|]. intros ev. by apply event_ok_mono. Qed.

Lemma threads_mono sets log stores sets' log' stores' ts :
  sets ⊆ sets' → log ⊆ log' → stores ⊆ stores' →
  Forall (thread_ok sets log stores) ts → Forall (thread_ok sets' log' stores') ts.
Proof.
  intros Hs Hl Ht Hts. eapply Forall_impl; [exact Hts|]. intros t [? Htr]. split; [done|]. by eapply trace_mono.
Qed.

Lemma ended_mono sets log stores sets' log' stores' ds :
  sets ⊆ sets' → log ⊆ log' → stores ⊆ stores' →
  Forall (ended_ok sets log stores) ds → Forall (ended_ok sets' log' stores') ds.
Proof.
  intros Hs Hl Ht Hds. eapply Forall_impl; [exact Hds|]. intros d [? Htr]. split; [done|]. by eapply trace_mono.
Qed.

Lemma auth_step_inv l s s' : auth_inv s → auth_step l s s' → auth_inv s'.
Proof.
  intros Hinv Hstep. pose proof Hinv as [Hc Hk Hp Hpast Hst Ht He].
  destruct Hstep as [cache ks sets log stores ts dn bearer|
    cache ks sets log stores ts ts' dn bearer X e k tr x cache' log' Hperm Ha|
    cache ks sets log stores ts ts' dn bearer r tr Hperm|cache ks sets log stores ts t ts' dn Hperm|
    cache ks ks' sets log stores ts dn Hstep|st ins now now' ks sets log stores ts dn Hle|
    st ins now ds n st' ks sets log stores ts dn Hsw];
    cbn [a_cache a_keys a_sets a_answers a_stores a_threads a_ended] in *; try rewrite Hperm in Ht.
  - split; cbn; try done. constructor; [|done]. split; [apply authenticate_within|constructor].
  - apply Forall_cons in Ht as [[[Hpre Hk'] Htr] Hts]. cbn [a_bearer a_prog a_trace] in *.
    destruct (auth_answers_inv e x _ cache' log' tr Hinv Ha Hpre Htr) as ([? ? ?] & Hsub & Hsubs & Hev). cbn in Hsub, Hsubs, Hev.
    split; cbn; try done; [|by eapply ended_mono].
    constructor; [|by eapply threads_mono]. split; [apply Hk'|]. constructor; [done|].
    by eapply trace_mono.
  - apply Forall_cons in Ht as [Ht Hts]. split; cbn; try done. by constructor.
  - apply Forall_cons in Ht as [_ Hts]. by split.
  - assert (sets ⊆ published ks' :: sets) as Hsub by (intros set ?; by right).
    split; cbn; try done; [by eapply jwks_step_inv|right; left|by eapply threads_mono|by eapply ended_mono].
  - split; cbn in *; try done; [by eapply cache_step_inv; [exact Hc|apply cache_tick]|].
    eapply Forall_impl; [exact Hpast|]. cbn. lia.
  - split; cbn in *; try done. eapply cache_step_inv; [exact Hc|]. by eapply cache_step_sweep.
Qed.

Lemma auth_reachable_inv s : auth_reachable s → auth_inv s.
Proof.
  intros (now & t & Hrun). eapply run_preserves; [apply auth_step_inv|exact Hrun|apply auth_start_inv].
Qed.

(** What was answered stays answered. *)
Lemma auth_step_ended l s s' :
  auth_step l s s' →
  a_ended s ⊆ a_ended s' ∧
  match l with
  | AuthLabel.End_ bearer r => ∃ tr, (bearer, r, tr) ∈ a_ended s'
  | _ => a_ended s' = a_ended s
  end.
Proof. destruct 1; cbn; try done. split; [intros d; by right|]. eexists. by left. Qed.

(** Who is being authenticated. *)
Lemma auth_step_bearers l s s' :
  auth_step l s s' →
  match l with
  | AuthLabel.Arrive bearer => a_bearer <$> a_threads s' = bearer :: (a_bearer <$> a_threads s)
  | AuthLabel.End_ bearer _ | AuthLabel.Drop bearer =>
      a_bearer <$> a_threads s ≡ₚ bearer :: (a_bearer <$> a_threads s')
  | AuthLabel.Internal => a_bearer <$> a_threads s' ≡ₚ a_bearer <$> a_threads s
  end.
Proof.
  destruct 1; cbn; try done; match goal with Hp : _ ≡ₚ _ |- _ => by rewrite Hp end.
Qed.

(** A credential that was accepted, seeing [tr], is vouched for. *)
Definition vouched_for (s : AuthService) (bearer : string) (who : Identity) (tr : Trace) : Prop :=
  (∃ t, tokens !! sha256 bearer = Some t ∧ who = static_identity (sha256 bearer) t) ∨
  (∃ j kid key set jwk, jwt = Some j ∧ jwt_checked j bearer kid key who ∧
     set ∈ a_sets s ∧ jwk ∈ set ∧ key_id jwk = Some kid ∧ document jwk = Some (material key) ∧
     verifies_with jwk (algorithm key) ∧
     (introspects j = true →
        (∃ now, (now, bearer, true) ∈ a_answers s ∧ (now, Event.Answered bearer (Ok true)) ∈ tr) ∨
        (∃ token answered stored now rest,
           ((stored, Event.Stored (sha256 bearer) true) :: (answered, Event.Answered token (Ok true)) :: rest) ∈ a_stores s ∧
           (answered, token, true) ∈ a_answers s ∧ sha256 token = sha256 bearer ∧ (answered ≤ stored)%Z ∧
           (now, Event.Looked (sha256 bearer) (Some true)) ∈ tr ∧ (stored ≤ now < stored + from_secs (ttl_secs c))%Z))).

Lemma ended_vouched s bearer who tr :
  auth_reachable s → (bearer, Ok (Some who), tr) ∈ a_ended s → vouched_for s bearer who tr.
Proof.
  intros Hs Hin. pose proof (au_ended s (auth_reachable_inv s Hs)) as He. rewrite Forall_forall in He.
  destruct (He _ Hin) as [Hsaw Htr]. cbn in Hsaw, Htr. rewrite Forall_forall in Htr.
  destruct (Hsaw who eq_refl) as [?|(j & kid & key & now & Hj & Hkey & Hchk & Hact)]; [by left|right].
  destruct (Htr _ Hkey) as (set & jwk & ? & ? & (? & ? & ?)%cacheable_key_spec).
  exists j, kid, key, set, jwk. split_and!; try done. intros Hi.
  destruct (Hact Hi) as (t & [Hl|Ha]); [right|left].
  - destruct (Htr _ Hl) as (stored & (token & t1 & rest & ? & ? & ? & ?) & ?). by exists token, t1, stored, t, rest.
  - exists t. split; [exact (Htr _ Ha)|done].
Qed.

(** ** Properties *)

(** C10. Whatever credentials arrive together and however their calls
    interleave with key refreshes, sweeps, drops and time, every accepted one
    is vouched for.  Either its digest is a configured static token, with that
    token's identity; or it is a JWT that passed verification with a key the
    issuer published for verifying signatures, under the algorithm of that key,
    and the identity is the one its claims give.  With introspection on, the
    authorization service itself answered, for a token with this digest, that
    it is active: to this very request, or to one that stored the answer in
    the cache as the next thing it did, less than the configured time to live
    before this request looked it up.  Only such stores count: looking an answer
    up, however often, does not make it last. *)
Theorem accepted_credentials_are_vouched_for s bearer who tr :
  auth_reachable s → (bearer, Ok (Some who), tr) ∈ a_ended s →
  (∃ t, tokens !! sha256 bearer = Some t ∧ who = static_identity (sha256 bearer) t) ∨
  (∃ j kid key set jwk, jwt = Some j ∧ jwt_checked j bearer kid key who ∧
     set ∈ a_sets s ∧ jwk ∈ set ∧ key_id jwk = Some kid ∧ document jwk = Some (material key) ∧
     verifies_with jwk (algorithm key) ∧
     (introspects j = true →
        (∃ now, (now, bearer, true) ∈ a_answers s ∧ (now, Event.Answered bearer (Ok true)) ∈ tr) ∨
        (∃ token answered stored now rest,
           ((stored, Event.Stored (sha256 bearer) true) :: (answered, Event.Answered token (Ok true)) :: rest) ∈ a_stores s ∧
           (answered, token, true) ∈ a_answers s ∧ sha256 token = sha256 bearer ∧ (answered ≤ stored)%Z ∧
           (now, Event.Looked (sha256 bearer) (Some true)) ∈ tr ∧ (stored ≤ now < stored + from_secs (ttl_secs c))%Z))).
Proof. apply ended_vouched. Qed.
End AuthService.

(** ** Witness *)

(** An issuer with one key, an authorization service that answers that every
    token is active, and the same JWT presented twice, a nanosecond apart. *)
Definition demo_jwk : Jwk :=
  mkJwk (Some PublicKeyUse.Signature) None (Some "k1") (Some KeyAlgorithm.RS256) AlgorithmParameters.RSA (Some "jwk").
Definition demo_http : Http :=
  mkHttp (λ _, Ok "https") (λ _, Ok tt) (λ _ _, Reply.Response 200 (Ok "{}")) (λ _, "200") (λ _, Ok "https://issuer/keys")
    (λ _, Ok [demo_jwk]).
Definition demo_jwt : JwtAuth :=
  mkJwtAuth (mkJwtConfig "https://issuer" "api" 600 "redis:" "srh"
    (mkIntrospectionConfig true "https://issuer/introspect" "srh" (SecretString_new "s") 30)) {[ "default" := ∅ ]} true.

Definition demo_header (_ : string) : option (option string) := Some (Some "k1").
Definition demo_decode (_ : string) (_ : bytes) (_ : Validation) : option Claims := Some sample_claims.
Abbreviation demo_auth_step := (auth_step demo_header Some demo_decode Some (λ _, None) (λ b, b) (Some demo_jwt)
  (cache_new 30) ∅ "https://issuer" (from_secs 600)).

Definition demo_auth_answer {X : Type} (e : Eff X) (s : AuthService) : X * (CacheSys * list (Z * string * bool)) :=
  let cache := a_cache s in
  match e in Eff.Eff X return (unit → X) → X * (CacheSys * list (Z * string * bool)) with
  | Eff.KeyFor kid => λ _, (ok_or JwksError.NotFound (keys (jwks_cache (a_keys s)) !! kid), (cache, a_answers s))
  | Eff.CacheGet digest => λ _,
      let '(r, st') := cache_get (cache_now cache) digest (cache_state cache) in
      (r, (mkCacheSys st' (inserted cache) (cache_now cache), a_answers s))
  | Eff.IsActive token => λ _, (Ok true, (cache, (cache_now cache, token, true) :: a_answers s))
  | Eff.CacheInsert digest a => λ _,
      (tt, (mkCacheSys (cache_insert (cache_new 30) (cache_now cache) digest a (cache_state cache))
              (<[digest := (a, cache_now cache)]> (inserted cache)) (cache_now cache), a_answers s))
  | _ => λ x, (x tt, (cache, a_answers s))
  end (λ _, trusting_oracle X e []).

Lemma demo_auth_answers {X} (e : Eff X) s :
  auth_answers (cache_new 30) e (demo_auth_answer e s).1 s (demo_auth_answer e s).2.
Proof.
  destruct e; cbn; try done.
  - split; [|done]. intros key. by destruct (_ !! kid); cbn; intros [= ->].
  - destruct (cache_get _ _ _) as [r st'] eqn:Hg. cbn. by exists st'.
Qed.

(** The only authentication takes its calls and ends. *)
Fixpoint demo_authenticate_all (n : nat) (s : AuthService) : AuthService :=
  match n, a_threads s with
  | S n, [mkAuthThread bearer (Ret r) tr] =>
      mkAuthService (a_cache s) (a_keys s) (a_sets s) (a_answers s) (a_stores s) [] ((bearer, r, tr) :: a_ended s)
  | S n, [mkAuthThread bearer (Vis e k) tr] =>
      let '(x, (cache', log')) := demo_auth_answer e s in
      demo_authenticate_all n (mkAuthService cache' (a_keys s) (a_sets s) log'
        (stores_after e x (cache_now (a_cache s)) tr (a_stores s))
        [mkAuthThread bearer (k x) ((cache_now (a_cache s), event_of e x) :: tr)] (a_ended s))
  | _, _ => s
  end.

Lemma demo_authenticate_steps n s : rtc (some_step demo_auth_step) s (demo_authenticate_all n s).
Proof.
  revert s. induction n as [|n IH]; intros [cache ks sets log stores ts dn]; [done|].
  destruct ts as [|[bearer [r|X e k] tr] [|]]; try done; cbn -[demo_auth_answer].
  - eapply some_step_once. by apply au_end.
  - pose proof (demo_auth_answers e (mkAuthService cache ks sets log stores [mkAuthThread bearer (Vis e k) tr] dn)) as Ha.
    destruct (demo_auth_answer e _) as [x [cache' log']]. cbn in Ha.
    eapply rtc_l; [|apply IH]. eexists. by eapply au_call.
Qed.

Definition demo_present (s : AuthService) : AuthService :=
  demo_authenticate_all 8 (mkAuthService (a_cache s) (a_keys s) (a_sets s) (a_answers s) (a_stores s)
    [mkAuthThread "a.b.c" (server_authenticate demo_header Some demo_decode Some (λ _, None) (λ b, b)
       (Some demo_jwt) ∅ "a.b.c") []] (a_ended s)).

Lemma demo_present_steps s : a_threads s = [] → rtc (some_step demo_auth_step) s (demo_present s).
Proof.
  destruct s as [cache ks sets log stores ts dn]. cbn [a_threads]. intros ->.
  eapply rtc_l; [eexists; apply (au_arrive _ _ _ _ _ _ _ _ _ _ _ _ _ _ _ _ _ _ "a.b.c")|apply demo_authenticate_steps].
Qed.

(** Keys fetched, the token presented, a tick, the token presented again. *)
Definition demo_fetched : AuthService :=
  let ks := mkJwksSys (refresh "https://issuer" (from_secs 600) false 7 demo_http key_cache_default).2 7 [] [demo_jwk] in
  mkAuthService (mkCacheSys cache_init ∅ 5) ks [[demo_jwk]] [] [] [] [].
Definition demo_tick (s : AuthService) : AuthService :=
  mkAuthService (mkCacheSys (cache_state (a_cache s)) (inserted (a_cache s)) (cache_now (a_cache s) + 1)) (a_keys s)
    (a_sets s) (a_answers s) (a_stores s) (a_threads s) (a_ended s).
Lemma demo_tick_step s : some_step demo_auth_step s (demo_tick s).
Proof. eexists. destruct s as [[st ins now] ks sets log stores ts dn]. apply au_tick. cbn. lia. Qed.
Lemma demo_tick_threads s : a_threads (demo_tick s) = a_threads s.
Proof. done. Qed.

Lemma demo_twice_steps s :
  a_threads s = [] → a_threads (demo_present s) = [] →
  rtc (some_step demo_auth_step) s (demo_present (demo_tick (demo_present s))).
Proof.
  intros H1 H2. etrans; [by apply demo_present_steps|].
  eapply rtc_l; [apply demo_tick_step|]. apply demo_present_steps. rewrite demo_tick_threads. exact H2.
Qed.

Definition demo_second : AuthService := demo_present (demo_tick (demo_present demo_fetched)).

Lemma demo_second_reachable :
  auth_reachable demo_header Some demo_decode Some (λ _, None) (λ b, b) (Some demo_jwt)
    (cache_new 30) ∅ "https://issuer" (from_secs 600) demo_second.
Proof.
  exists 5%Z, 7%Z. eapply rtc_l.
  { eexists. eapply au_keys. eapply (jwks_step_refresh _ _ false 7 7 demo_http); [done|apply surjective_pairing]. }
  apply (demo_twice_steps demo_fetched); vm_compute; reflexivity.
Qed.

Lemma accepted_credentials_are_vouched_for_witness :
  ∃ who tr, (∃ rest, a_ended demo_second = ("a.b.c", Ok (Some who), tr) :: rest) ∧
    ((∃ t, (∅ : gmap string StaticTokenConfig) !! "a.b.c" = Some t ∧ who = static_identity "a.b.c" t) ∨
     verifies_with demo_jwk JwtAlgorithm.Rs256 ∧ ∃ answered, (answered, "a.b.c", true) ∈ a_answers demo_second).
Proof.
  assert (∃ who tr rest, a_ended demo_second = ("a.b.c", Ok (Some who), tr) :: rest) as (who & tr & rest & He)
    by (vm_compute; do 3 eexists; reflexivity).
  exists who, tr. split; [by exists rest|].
  destruct (accepted_credentials_are_vouched_for demo_header Some demo_decode Some (λ _, None) (λ b, b) (Some demo_jwt)
    (cache_new 30) ∅ "https://issuer" (from_secs 600) demo_second "a.b.c" who tr demo_second_reachable)
    as [Hst|(j & kid & key & set & jwk & [= <-] & _ & Hset & Hjwk & _ & _ & Hv & Hact)].
  - rewrite He. left.
  - by left.
  - right. assert (a_sets demo_second = [[demo_jwk]]) as Hsets by (vm_compute; reflexivity).
    rewrite Hsets in Hset. apply list_elem_of_singleton in Hset as ->.
    apply list_elem_of_singleton in Hjwk as ->. split; [by apply key_algorithm_spec|].
    destruct (Hact eq_refl) as [(now & ? & _)|(token & t1 & t2 & now & seen & _ & ? & <- & _)]; eauto.
Defined.
