(* ===== verification/Documents.v ===== *)
(** * Documents received from other parties

    The derived deserializers of the documents the server reads from the
    network: the OpenID discovery document and the answer of an introspection
    endpoint ([src/src/adapters/http_jwks.rs],
    [src/src/adapters/http_introspect.rs]) and the claims of a JWT
    ([src/src/adapters/jwt_auth.rs]), as declarations in the sense of
    [Deserialize.v].  These are read straight from the bytes, so the entries of
    an object are those of the text, in its order and with its repetitions; the
    reader of the bytes is a parameter. *)
From S2P Require Import Prelude Domain Convert Config Deserialize RateLimit Ports Auth Jwks.

(** ** Declarations *)

(** [Discovery] has one field. *)
Definition discovery_struct : Struct string := Build (λ uri, uri) |> required_field "jwks_uri" de_string.
Definition de_discovery : Decoder string := deserialize_struct false discovery_struct.

(** [IntrospectionResponse] too. *)
Definition introspection_response_struct : Struct bool := Build (λ a, a) |> required_field "active" de_bool.
Definition de_introspection_response : Decoder bool := deserialize_struct false introspection_response_struct.

(** [Audience] is untagged: the first variant that fits, [Missing] fits
    [null]. *)
Definition de_audience : Decoder Audience := λ v,
  match de_string v with
  | Ok s => Ok (Audience.One s)
  | Err _ =>
      match de_vec de_string v with
      | Ok l => Ok (Audience.Many l)
      | Err _ =>
          match v with
          | Value.Null => Ok Audience.Missing
          | _ => Err (DeError.InvalidType "any variant of untagged enum Audience")
          end
      end
  end.

Definition client_access_struct : Struct ClientAccess :=
  Build mkClientAccess |> default_field "roles" (de_vec de_string) [].
Definition de_client_access : Decoder ClientAccess := deserialize_struct false client_access_struct.

Definition claims_struct : Struct Claims :=
  Build mkClaims
  |> required_field "sub" de_string
  |> default_field "aud" de_audience Audience.Missing
  |> default_field "azp" (de_option de_string) None
  |> required_field "typ" de_string
  |> default_field "resource_access" (de_map de_client_access) ∅
  |> default_field "srh_pool" (de_option de_string) None
  |> default_field "srh_blocked_commands" (de_vec de_string) []
  |> default_field "srh_key_prefix" (de_option de_string) None.
Definition de_claims : Decoder Claims := deserialize_struct false claims_struct.

(** [serde_json::from_slice] at the two response types. *)
Section FromSlice.
Context (display : DeError → string) (parse_json : bytes → result Value string).
Definition discovery_from_slice (b : bytes) : result string string :=
  let? v := parse_json b in map_err display (de_discovery v).
Definition introspection_from_slice (b : bytes) : result bool string :=
  let? v := parse_json b in map_err display (de_introspection_response v).
End FromSlice.

(** ** Lemmas *)

(** The values an object gives to a key. *)
Definition values_of (k : string) (entries : list (string * Value)) : list Value :=
  (filter (λ e, e.1 = k) entries).*2.

Lemma values_of_cons k k' v entries :
  values_of k ((k', v) :: entries) = if String.eqb k' k then v :: values_of k entries else values_of k entries.
Proof.
  unfold values_of. rewrite filter_cons. cbn. destruct (String.eqb_spec k' k).
  - by rewrite decide_True.
  - by rewrite decide_False.
Qed.

Lemma values_of_assoc k entries : assoc k entries = head (values_of k entries).
Proof.
  induction entries as [|[k' v] entries IH]; [done|]. rewrite values_of_cons. cbn. rewrite String.eqb_sym.
  by destruct (String.eqb k' k).
Qed.

(** A field the record knows is given at most once. *)
Lemma visit_entries_once {A} deny (s : Struct A) entries get sl sl' k :
  NoDup (names s) → slots_from get s sl → visit_entries deny s entries sl = Ok sl' → k ∈ names s →
  length (values_of k entries) ≤ 1 ∧ (is_Some (get k) → values_of k entries = []).
Proof.
  intros Hnd. revert get sl. induction entries as [|[k' v] entries IH]; intros get sl Hsl; [cbn; auto|].
  cbn [visit_entries]. rewrite values_of_cons.
  pose proof (fill_spec s k' v get sl Hnd Hsl) as Hfill.
  destruct (fill s k' v sl) as [[sl1|e]|]; [|done|].
  - destruct Hfill as (Hk' & Hget & Hsl1). intros Hv Hk. destruct (IH _ _ Hsl1 Hv Hk) as [Hle Hnil].
    unfold extend in Hnil. rewrite (String.eqb_sym k k') in Hnil. destruct (String.eqb_spec k' k) as [->|Hne].
    + rewrite Hnil by done. split; [done|]. rewrite Hget. by intros [? ?].
    + done.
  - destruct deny; [done|]. intros Hv Hk. destruct (String.eqb_spec k' k) as [->|Hne]; [done|]. by eapply IH.
Qed.

(** A record read from an object has each of its fields from the only value
    under that name. *)
Lemma object_fields_once {A} deny (s : Struct A) entries a k :
  NoDup (names s) → deserialize_struct deny s (Value.Object entries) = Ok a → k ∈ names s →
  length (values_of k entries) ≤ 1.
Proof.
  intros Hnd Ha Hk. cbn in Ha. unfold visit_map in Ha.
  destruct (visit_entries deny s entries (no_slots s)) as [sl|] eqn:Hv; [|done].
  by eapply visit_entries_once; [done|apply no_slots_from|exact Hv|].
Qed.

(** The parts of a record that was read. *)
Lemma read_field_inv {T A} name (de : Decoder T) absent (rest : Struct (T → A)) g a :
  read (Field name de absent rest) g = Ok a →
  ∃ f x, read rest g = Ok f ∧ a = f x ∧
    match g name with Some v => de v | None => ok_or (DeError.MissingField name) absent end = Ok x.
Proof.
  cbn. destruct (read rest g) as [f|]; [|done]. destruct (match g name with Some _ => _ | None => _ end) as [x|];
    [|done]. intros [= <-]. by exists f, x.
Qed.

(** ** Properties *)

(** When the answer of the introspection endpoint says that a token is active:
    a record, by name or by position, whose only [active] is [true]. *)
Definition says_active (v : Value) : Prop :=
  match v with
  | Value.Object entries => values_of "active" entries = [Value.Bool true]
  | Value.Array l => l = [Value.Bool true]
  | _ => False
  end.

Lemma response_active_iff v : de_introspection_response v = Ok true ↔ says_active v.
Proof.
  destruct v as [| | | |l|entries]; try done.
  - cbn. destruct l as [|v l]; [done|]. destruct v as [|b| | | |]; try done. cbn. destruct l; cbn; naive_solver.
  - split.
    + intros Ha. assert (length (values_of "active" entries) ≤ 1) as Hle
        by (eapply object_fields_once; [|exact Ha|]; [no_dup_names|set_solver]).
      apply deserialize_reads in Ha as [_ Ha]; [|no_dup_names]. cbn in Ha. rewrite values_of_assoc in Ha. cbn.
      destruct (values_of "active" entries) as [|v [|]]; cbn in *; [done| |lia].
      destruct v; try done. cbn in Ha. by simplify_eq.
    + intros Hv. cut (∀ o, (values_of "active" entries = [Value.Bool true] ∧ o = None ∨
        values_of "active" entries = [] ∧ o = Some true) →
        visit_entries false introspection_response_struct entries (tt, o) = Ok (tt, Some true)).
      { intros Hcut. unfold de_introspection_response, deserialize_struct, visit_map.
        change (no_slots introspection_response_struct) with ((tt, None) : Slots introspection_response_struct).
        by rewrite (Hcut None (or_introl (conj Hv eq_refl))). }
      clear Hv. induction entries as [|[k v] entries IH]; intros o.
      { intros [[? _]|[_ ->]]; done. }
      rewrite values_of_cons. cbn [visit_entries]. cbn [fill introspection_response_struct required_field].
      rewrite (String.eqb_sym "active" k). destruct (String.eqb k "active"); cbn.
      * intros [[[= -> Hr] ->]|[? _]]; [|done]. cbn. apply IH. auto.
      * intros Ho. by apply IH.
Qed.

(** C34. Introspection fails closed: a token counts as active exactly when the
    endpoint answered in time with a success status and, within the size limit,
    a JSON document whose one and only [active] is the boolean true.  Anything
    else (an error, a redirect, a cut or oversized body, malformed JSON, the
    field missing, repeated, a string or a number) is a failure or an inactive
    token. *)
Theorem introspection_fails_closed display status_text parse_json form build_post post x token :
  let header := expose (authorization x) in
  let body := form "token" token in
  is_active form build_post post status_text (introspection_from_slice display parse_json) x token = Ok true ↔
  build_post (introspection_url x) header body = Ok tt ∧
  ∃ status b v, post (introspection_url x) header body INTROSPECTION_LIMIT = Reply.Response status (Ok b) ∧
    (200 ≤ status < 300)%Z ∧ parse_json b = Ok v ∧ says_active v.
Proof.
  intros header body. unfold is_active. fold header. fold body.
  destruct (build_post _ header body) as [[]|e]; cbn; [|naive_solver].
  destruct (post _ header body INTROSPECTION_LIMIT) as [status [b|e]|e|]; cbn; unfold require_success;
    try (destruct (_ && _); cbn; naive_solver); try naive_solver.
  destruct ((200 <=? status)%Z && (status <? 300)%Z) eqn:Hst; cbn.
  - apply andb_true_iff in Hst as [?%Z.leb_le ?%Z.ltb_lt]. unfold introspection_from_slice.
    destruct (parse_json b) as [v|e] eqn:Hp; cbn.
    + split.
      * destruct (de_introspection_response v) as [[]|] eqn:Hd; try done. intros _. split; [done|].
        exists status, b, v. split_and!; try done. by apply response_active_iff.
      * intros (_ & st & b' & v' & [= <- <-] & _ & Hp' & Hv). rewrite Hp in Hp'. injection Hp' as <-.
        apply response_active_iff in Hv. by rewrite Hv.
    + split; [done|]. intros (_ & st & b' & v' & [= <- <-] & _ & Hp' & Hv). by rewrite Hp in Hp'.
  - split; [done|]. intros (_ & st & b' & v' & [= <- <-] & [? ?] & _).
    apply andb_false_iff in Hst as [?%Z.leb_gt|?%Z.ltb_ge]; lia.
Qed.

(** The claims of a JWT are unambiguous: each claim the server reads is given
    at most once, subject and type exactly once and as strings, and a claim
    that is absent takes its documented default, which never grants anything. *)
Theorem claims_are_unambiguous entries c :
  de_claims (Value.Object entries) = Ok c →
  (∀ k, k ∈ ["sub"; "aud"; "azp"; "typ"; "resource_access"; "srh_pool"; "srh_blocked_commands"; "srh_key_prefix"] →
     length (values_of k entries) ≤ 1) ∧
  values_of "sub" entries = [Value.String (sub c)] ∧ values_of "typ" entries = [Value.String (typ c)] ∧
  (values_of "aud" entries = [] → aud c = Audience.Missing) ∧
  (values_of "azp" entries = [] → azp c = None) ∧
  (values_of "resource_access" entries = [] → resource_access c = ∅).
Proof.
  intros Hc. assert (∀ k, k ∈ names claims_struct → length (values_of k entries) ≤ 1) as Honce.
  { intros k Hk. eapply object_fields_once; [|exact Hc|exact Hk]. no_dup_names. }
  split; [exact Honce|]. apply deserialize_reads in Hc as [_ Hc]; [|no_dup_names].
  pose proof (Honce "sub" ltac:(set_solver)) as Hs. pose proof (Honce "typ" ltac:(set_solver)) as Ht. clear Honce.
  unfold claims_struct, required_field, default_field in Hc.
  repeat (apply read_field_inv in Hc as (? & ? & Hc & -> & ?)). injection Hc as <-.
  unfold entry_at in *. rewrite !values_of_assoc in *. cbn [sub typ aud azp resource_access].
  split_and!; [destruct (values_of "sub" entries) as [|[] [|]]|destruct (values_of "typ" entries) as [|[] [|]]|
    intros Hn; rewrite Hn in *..]; cbn in *; simplify_eq; done || lia.
Qed.
