(* ===== verification/PoolSpec.v ===== *)
(** * What a pool promises its clients, and that [Pool.v] keeps it

    The contract of [ExecutorProvider] ([src/src/ports/mod.rs]) towards the
    handlers is a machine of exclusive leases: a lease names a client nobody
    else has, and ends once.  The pool with its breaker, queue, semaphore,
    client locks and guards is shown to refine it by a forward simulation, and
    to come to rest: left alone, its requests take a bounded number of steps. *)
From S2P Require Import Prelude Domain Config Breaker Pool.

(** ** The abstract machine *)

Module LeaseEvent.
Inductive LeaseEvent : Type :=
| Take (client : nat)
| Give (client : nat)
| Internal.
End LeaseEvent.
Abbreviation LeaseEvent := LeaseEvent.LeaseEvent.

(** The clients under lease, of [n]. *)
Inductive lease_step (n : nat) : LeaseEvent → gset nat → gset nat → Prop :=
| lease_take i L : i < n → i ∉ L → lease_step n (LeaseEvent.Take i) L ({[ i ]} ∪ L)
| lease_give i L : i ∈ L → lease_step n (LeaseEvent.Give i) L (L ∖ {[ i ]})
| lease_internal L : lease_step n LeaseEvent.Internal L L.

(** The events of a run, and its last state. *)
Inductive lease_trace (n : nat) : gset nat → list LeaseEvent → gset nat → Prop :=
| lease_trace_nil L : lease_trace n L [] L
| lease_trace_cons L ev L' evs L'' :
    lease_step n ev L L' → lease_trace n L' evs L'' → lease_trace n L (ev :: evs) L''.

Lemma lease_trace_app n L evs L' evs' L'' :
  lease_trace n L evs L' → lease_trace n L' evs' L'' → lease_trace n L (evs ++ evs') L''.
Proof. induction 1; cbn; eauto using lease_trace_cons. Qed.

(** In a trace of the contract a client is given back between two leases of
    it. *)
Fixpoint well_leased (L : gset nat) (evs : list LeaseEvent) : bool :=
  match evs with
  | [] => true
  | LeaseEvent.Take i :: evs => bool_decide (i ∉ L) && well_leased ({[ i ]} ∪ L) evs
  | LeaseEvent.Give i :: evs => bool_decide (i ∈ L) && well_leased (L ∖ {[ i ]}) evs
  | LeaseEvent.Internal :: evs => well_leased L evs
  end.

Lemma lease_trace_well n L evs L' : lease_trace n L evs L' → well_leased L evs = true.
Proof.
  induction 1 as [|L ev L' evs L'' Hs _ IH]; [done|].
  destruct Hs; cbn; rewrite ?bool_decide_true by done; done.
Qed.

(** ** The abstraction *)

(** The client of a handle in its owner's hands. *)
Definition handle_client (s : Stage) : option nat :=
  match s with Stage.Handle _ i => Some i | _ => None end.

Definition leases (s : PoolSys) : gset nat := list_to_set (omap handle_client (tasks s)).

(** What a step of the pool shows its clients: a request becomes a handle, or a
    handle is dropped. *)
Definition stage_event (s s' : Stage) : LeaseEvent :=
  match handle_client s, handle_client s' with
  | None, Some i => LeaseEvent.Take i
  | Some i, None => LeaseEvent.Give i
  | _, _ => LeaseEvent.Internal
  end.

Lemma leases_perm e e' ts ts' now now' :
  ts ≡ₚ ts' → leases (mkPoolSys e ts now) = leases (mkPoolSys e' ts' now').
Proof. intros Hp. unfold leases. cbn. apply leibniz_equiv. by rewrite Hp. Qed.

Lemma leases_cons e s ts now :
  leases (mkPoolSys e (s :: ts) now) =
    match handle_client s with Some i => {[ i ]} | None => ∅ end ∪ list_to_set (omap handle_client ts).
Proof. unfold leases. cbn. destruct (handle_client s); cbn; set_solver. Qed.

(** A client held by one request is not the client of another. *)
Lemma held_once c e s ts now i :
  pool_inv c (mkPoolSys e (s :: ts) now) → leased_client s = Some i →
  i < permit_count c ∧ i ∉ (list_to_set (omap handle_client ts) : gset nat).
Proof.
  intros Hinv Hi. pose proof Hinv as (_ & _ & Hl & _ & _ & _ & Hsz)%inv_one.
  specialize (Hl i Hi). split; [rewrite <- Hsz; by apply lease_locked_range|].
  rewrite elem_of_list_to_set, list_elem_of_omap. intros (t & Ht & Hc).
  destruct t as [| | | | | | | |x j| | |]; try done. injection Hc as ->.
  pose proof (inv_leases _ _ Hinv i) as Hsum. cbn in Hsum. rewrite Hl in Hsum.
  unfold holds_lease in Hsum at 1. rewrite decide_True in Hsum by done.
  pose proof (sum_list_with_in _ (holds_lease i) _ Ht) as Hin.
  unfold holds_lease in Hin at 1. cbn in Hin. rewrite decide_True in Hin by done. lia.
Qed.

(** Which stages a step connects, as far as handles go. *)
Lemma advance_handles c now e s e' s' :
  advance c now e s = (e', Progress.Goto s') →
  handle_client s = None ∧
  (∀ i, handle_client s' = Some i → leased_client s = Some i).
Proof.
  destruct s; cbn; unfold acquire_client_start, acquire_client_try, acquire_client_wait, waiter_enter;
    intros; repeat (case_match; simplify_eq/=); (split; [done|]); intros; by simplify_eq/=.
Qed.

Lemma leave_handles e s e' s' :
  abandon e s = Some (e', s') ∨ expire e s = Some (e', s') → handle_client s' = None.
Proof. destruct s; cbn; intros [?|?]; simplify_eq/=; done. Qed.

Lemma operate_handles c now errors e s e' s' :
  operate c now errors e s = Some (e', s') → handle_client s = handle_client s'.
Proof. destruct s; cbn; intros; simplify_eq/=; done. Qed.

(** ** The simulation *)

(** A request moves from [s] to [s'] beside the others. *)
Lemma move_lease_step c e s e' s' ts now :
  pool_inv c (mkPoolSys e (s :: ts) now) →
  (handle_client s = handle_client s' ∨ handle_client s' = None ∨
   handle_client s = None ∧ ∀ i, handle_client s' = Some i → leased_client s = Some i) →
  lease_step (permit_count c) (stage_event s s')
    (leases (mkPoolSys e (s :: ts) now)) (leases (mkPoolSys e' (s' :: ts) now)).
Proof.
  intros Hinv Hs. rewrite !leases_cons. unfold stage_event.
  destruct (handle_client s) as [i|] eqn:Hi, (handle_client s') as [j|] eqn:Hj.
  - destruct Hs as [Hs|[Hs|[Hs _]]]; [|done..]. injection Hs as ->. constructor.
  - assert (leased_client s = Some i) as Hl by (by destruct s; simplify_eq/=).
    apply (held_once _ _ _ _ _ _ Hinv) in Hl as [_ Hn].
    replace (∅ ∪ list_to_set (omap handle_client ts) : gset nat)
      with (({[ i ]} ∪ list_to_set (omap handle_client ts)) ∖ {[ i ]} : gset nat) by set_solver.
    apply lease_give. set_solver.
  - destruct Hs as [Hs|[Hs|[_ Hs]]]; [done..|].
    apply (held_once _ _ _ _ _ j Hinv) in Hs as [Hlt Hn]; [|done].
    replace (∅ ∪ list_to_set (omap handle_client ts) : gset nat)
      with (list_to_set (omap handle_client ts) : gset nat) by set_solver.
    by apply lease_take.
  - constructor.
Qed.

Lemma pool_step_lease_step c s s' :
  params_ok c → pool_inv c s → pool_step c s s' →
  ∃ ev, lease_step (permit_count c) ev (leases s) (leases s').
Proof.
  intros Hc Hinv Hstep. destruct Hstep as [s s' [e ts now now' Hle|e ts now|e e' ts ts' s1 s2 now Hp Ha Hg|
    e e' ts ts' s1 r now Hp Ha Hg|e e' ts ts' s1 s2 now Hp Ha Hg|e ts now l|e ts now u]|e e' ts ts' s s' errors now Hp Ha Hg];
    try (exists LeaseEvent.Internal; apply lease_internal).
  - pose proof (pool_inv_perm _ _ _ _ _ Hp Hinv) as Hi. rewrite (leases_perm e e _ _ now now Hp).
    eexists. apply (move_lease_step c _ _ _ _ _ _ Hi). right; right. by eapply advance_handles.
  - rewrite (leases_perm e e _ _ now now Hp), leases_cons.
    assert (handle_client s1 = None) as -> by (by destruct s1; cbn in Ha; simplify_eq/=).
    exists LeaseEvent.Internal. unfold leases at 1. cbn [tasks].
    replace (∅ ∪ list_to_set (omap handle_client ts') : gset nat)
      with (list_to_set (omap handle_client ts') : gset nat) by set_solver.
    constructor.
  - pose proof (pool_inv_perm _ _ _ _ _ Hp Hinv) as Hi. rewrite (leases_perm e e _ _ now now Hp).
    eexists. apply (move_lease_step c _ _ _ _ _ _ Hi). right; left. by eapply leave_handles.
  - pose proof (pool_inv_perm _ _ _ _ _ Hp Hinv) as Hi. rewrite (leases_perm e e _ _ now now Hp).
    eexists. apply (move_lease_step c _ _ _ _ _ _ Hi). left. by eapply operate_handles.
Qed.

Lemma pool_run_trace c k s s' :
  params_ok c → pool_inv c s → nsteps (pool_step c) k s s' →
  ∃ evs, length evs = k ∧ lease_trace (permit_count c) (leases s) evs (leases s').
Proof.
  intros Hc Hinv Hrun. revert Hinv. induction Hrun as [s|k s1 s2 s3 Hstep _ IH]; intros Hinv.
  - exists []. split; [done|constructor].
  - destruct (pool_step_lease_step c s1 s2 Hc Hinv Hstep) as [ev Hev].
    destruct IH as (evs & Hlen & Htr); [by eapply pool_step_inv|].
    exists (ev :: evs). split; [cbn; lia|]. by eapply lease_trace_cons.
Qed.

(** Distinct handles have distinct clients. *)
Lemma handles_NoDup c e ts now :
  pool_inv c (mkPoolSys e ts now) → NoDup (omap handle_client ts) ∧
    ∀ i, i ∈ omap handle_client ts → i < permit_count c.
Proof.
  intros Hinv.
  assert (∀ us vs, ts ≡ₚ vs ++ us → NoDup (omap handle_client us) ∧
    ∀ i, i ∈ omap handle_client us → i < permit_count c) as H; [|by apply (H ts [])].
  induction us as [|t us IH]; intros vs Hp; [split; [constructor|set_solver]|].
  destruct (IH (vs ++ [t])) as [Hnd Hlt]; [by rewrite <- app_assoc|]. cbn.
  destruct (handle_client t) as [i|] eqn:Hi; [|done].
  assert (leased_client t = Some i) as Hl by (by destruct t; simplify_eq/=).
  assert (ts ≡ₚ t :: vs ++ us) as Hp' by (by rewrite Hp, Permutation_middle).
  apply (pool_inv_perm _ _ _ _ _ Hp') in Hinv.
  apply (held_once _ _ _ _ _ _ Hinv) in Hl as [Hi1 Hi2]. split.
  - constructor; [|done]. rewrite elem_of_list_to_set, omap_app in Hi2. set_solver.
  - intros j [->|Hj]%elem_of_cons; auto.
Qed.

(** ** Coming to rest *)

(** The steps of requests that go on, end, time out or are dropped: nothing
    new arrives and no command is run. *)
Inductive rest_step (c : PoolParams) : PoolSys → PoolSys → Prop :=
| rest_advance e e' ts ts' s s' now :
    ts ≡ₚ s :: ts' → advance c now e s = (e', Progress.Goto s') →
    (generation (breaker e) < u64_max)%Z →
    rest_step c (mkPoolSys e ts now) (mkPoolSys e' (s' :: ts') now)
| rest_done e e' ts ts' s r now :
    ts ≡ₚ s :: ts' → advance c now e s = (e', Progress.Done r) →
    (generation (breaker e) < u64_max)%Z →
    rest_step c (mkPoolSys e ts now) (mkPoolSys e' ts' now)
| rest_leave e e' ts ts' s s' now :
    ts ≡ₚ s :: ts' → abandon e s = Some (e', s') ∨ expire e s = Some (e', s') →
    (generation (breaker e) < u64_max)%Z →
    rest_step c (mkPoolSys e ts now) (mkPoolSys e' (s' :: ts') now).

Lemma rest_is_step c s s' : rest_step c s s' → pool_step c s s'.
Proof. destruct 1; apply pool_moves; [by eapply pool_advance|by eapply pool_done|by eapply pool_leave]. Qed.

(** The steps a request has left, at most, in a pool of [n] clients. *)
Definition steps_left (n : nat) (s : Stage) : nat :=
  match s with
  | Stage.Entered => n + 11
  | Stage.PastBreaker _ => n + 10
  | Stage.Waiting _ => n + 9
  | Stage.Granted _ => n + 8
  | Stage.Picking _ => n + 7
  | Stage.Choosing _ _ offset => 6 + (n - offset)
  | Stage.Blocked _ _ => 5
  | Stage.Leased _ _ => 4
  | Stage.Handle _ _ => 3
  | Stage.Closing _ => 2
  | Stage.Releasing _ | Stage.Unwinding _ _ => 1
  end.

Lemma steps_left_bound n s : 1 ≤ steps_left n s ≤ n + 11.
Proof. destruct s; cbn; lia. Qed.

Lemma advance_steps_left c now e s e' s' :
  advance c now e s = (e', Progress.Goto s') →
  steps_left (length (client_leases e)) s' < steps_left (length (client_leases e)) s.
Proof.
  destruct s; cbn; unfold acquire_client_start, acquire_client_try, acquire_client_wait, waiter_enter;
    intros; repeat (case_match || case_decide); simplify_eq/=; lia.
Qed.

Lemma leave_steps_left n e s e' s' :
  abandon e s = Some (e', s') ∨ expire e s = Some (e', s') → steps_left n s' < steps_left n s.
Proof. destruct s; cbn; intros [?|?]; simplify_eq/=; lia. Qed.

Definition total_left (n : nat) (s : PoolSys) : nat := sum_list_with (steps_left n) (tasks s).

Lemma rest_step_decreases c s s' :
  length (client_leases (entry s)) = permit_count c → rest_step c s s' →
  total_left (permit_count c) s' < total_left (permit_count c) s.
Proof.
  unfold total_left. intros Hlen Hstep. rewrite <- Hlen.
  destruct Hstep as [e e' ts ts' s s' now Hp Ha Hg|e e' ts ts' s r now Hp Ha Hg|e e' ts ts' s s' now Hp Ha Hg];
    cbn in *; rewrite Hp; cbn.
  - apply advance_steps_left in Ha. lia.
  - pose proof (steps_left_bound (length (client_leases e)) s). lia.
  - apply (leave_steps_left (length (client_leases e))) in Ha. lia.
Qed.

Lemma rest_run_bound c k s s' :
  params_ok c → pool_inv c s → nsteps (rest_step c) k s s' →
  pool_inv c s' ∧ k + total_left (permit_count c) s' ≤ total_left (permit_count c) s.
Proof.
  intros Hc Hinv Hrun. revert Hinv. induction Hrun as [s|k s1 s2 s3 Hstep _ IH]; intros Hinv; [done|].
  destruct IH as [Hinv' IH]; [by eapply pool_step_inv, rest_is_step|]. split; [done|].
  pose proof (rest_step_decreases c s1 s2 (inv_size _ _ Hinv) Hstep). lia.
Qed.

Lemma total_left_bound n s : total_left n s ≤ (n + 11) * length (tasks s).
Proof.
  unfold total_left. induction (tasks s) as [|t ts IH]; cbn; [lia|].
  pose proof (steps_left_bound n t). lia.
Qed.

(** A request in flight can always go on, end or be dropped. *)
Lemma never_stuck c e s ts now :
  (generation (breaker e) < u64_max)%Z → ∃ s', rest_step c (mkPoolSys e (s :: ts) now) s'.
Proof.
  intros Hg. destruct (advance c now e s) as [e' [s'|r|]] eqn:Ha.
  - eexists. by eapply rest_advance.
  - eexists. by eapply rest_done.
  - destruct (abandon e s) as [[e2 s2]|] eqn:Hb; [eexists; eapply rest_leave; eauto|].
    exfalso. destruct s; cbn in *; try done;
      unfold acquire_client_start, acquire_client_try, acquire_client_wait, waiter_enter in *;
      by repeat (case_match || case_decide); simplify_eq/=.
Qed.

(** ** Properties *)

(** C8. A pool refines the contract of exclusive leases: every run of the
    pool, whatever the interleaving, is step by step a run of the abstract
    machine in which a client is only leased while nobody has it and given
    back once; so the handles in their owners' hands have distinct clients,
    never more than the pool has connections. *)
Theorem pool_refines_exclusive_leases c :
  params_ok c →
  (∀ k unix_secs now s,
     nsteps (pool_step c) k (mkPoolSys (new_entry c unix_secs) [] now) s →
     ∃ evs, length evs = k ∧ lease_trace (permit_count c) ∅ evs (leases s) ∧ well_leased ∅ evs = true) ∧
  (∀ s s', pool_reachable c s → pool_step c s s' →
     ∃ ev, lease_step (permit_count c) ev (leases s) (leases s')) ∧
  (∀ s, pool_reachable c s →
     NoDup (omap handle_client (tasks s)) ∧ size (leases s) ≤ permit_count c).
Proof.
  intros Hc. split_and!.
  - intros k u now s Hrun. pose proof (new_entry_inv c u now Hc) as Hinit.
    destruct (pool_run_trace c k _ s Hc Hinit Hrun) as (evs & Hlen & Htr).
    exists evs. split_and!; [done|done|]. by eapply lease_trace_well.
  - intros s s' Hs. apply pool_step_lease_step; [done|]. by apply pool_reachable_inv.
  - intros [e ts now] Hs. apply (pool_reachable_inv _ _ Hc) in Hs.
    apply handles_NoDup in Hs as [Hnd Hlt]. split; [done|]. unfold leases.
    rewrite size_list_to_set by done. cbn [tasks].
    rewrite <- (length_seq (permit_count c) 0).
    apply submseteq_length, NoDup_submseteq; [done|]. intros i Hi%Hlt. apply elem_of_seq. lia.
Qed.

Lemma pool_refines_exclusive_leases_witness :
  NoDup (omap handle_client (tasks leased_pool)) ∧ size (leases leased_pool) ≤ 1.
Proof.
  apply (pool_refines_exclusive_leases one_connection); [done|]. exact leased_pool_reachable.
Defined.

(** A breaker without outstanding permits is not half-open, and admits once its
    cooldown is over. *)
Lemma idle_breaker_admits b inner now :
  sys_inv b (mkSys inner now []) →
  state inner ≠ BreakerState.HalfOpen ∧
  ∀ now', (now ≤ now')%Z → (now + cooldown b ≤ now')%Z → ∃ a inner', breaker_admit b now' inner = (Ok a, inner').
Proof.
  intros [Hb _ Hn Hck]; cbn in *. assert (state inner ≠ BreakerState.HalfOpen) as Hs by (by case_decide). split; [done|].
  intros now' Hle Hcool. unfold breaker_admit. destruct (state inner) eqn:Hst; [by eauto|done|].
  destruct (opened_at inner) as [o|] eqn:Ho; [|by rewrite (proj1 (inv_opened _ _ Hb) Ho) in Hst].
  specialize (Hck o eq_refl). unfold duration_since. rewrite decide_True by lia. eauto.
Qed.

(** C18. The requests of a pool come to rest: when nothing new arrives and owners
    drop their handles, the requests in flight take a bounded number of steps, in
    whatever order they are scheduled and dropped; and when no step is left
    (the breaker's 64-bit generation counter not having run out), every request
    has ended, the waiters, permits and client locks are as in a new pool, and
    the breaker, which may have been left open, has no probe outstanding and
    admits a request once its cooldown is over.  The gauge of the permits in use
    is not among what is restored: [Pool.permits_gauge_can_drift]. *)
Theorem pool_comes_to_rest c s :
  params_ok c → pool_reachable c s →
  (∀ k s', nsteps (rest_step c) k s s' → k ≤ (permit_count c + 11) * length (tasks s)) ∧
  (∀ s', rtc (rest_step c) s s' → (generation (breaker (entry s')) < u64_max)%Z →
     (∀ s'', ¬ rest_step c s' s'') →
     tasks s' = [] ∧ waiters (entry s') = 0%Z ∧ available_permits (entry s') = permit_count c ∧
     client_leases (entry s') = replicate (permit_count c) false ∧
     state (breaker (entry s')) ≠ BreakerState.HalfOpen ∧
     ∀ now, (pool_now s' ≤ now)%Z → (pool_now s' + cooldown (breaker_params c) ≤ now)%Z →
       ∃ a inner, breaker_admit (breaker_params c) now (breaker (entry s')) = (Ok a, inner)).
Proof.
  intros Hc Hs. pose proof (pool_reachable_inv _ _ Hc Hs) as Hinv. split.
  - intros k s' Hrun. destruct (rest_run_bound c k s s' Hc Hinv Hrun) as [_ Hk].
    pose proof (total_left_bound (permit_count c) s). lia.
  - intros s' Hrun Hg Hstuck. apply rtc_nsteps in Hrun as [k Hrun].
    destruct (rest_run_bound c k s s' Hc Hinv Hrun) as [Hinv' _].
    destruct s' as [e [|t ts] now]; [|by destruct (never_stuck c e t ts now Hg) as [s'' ?%Hstuck]].
    destruct Hinv' as [Hw Hm Hp Hl Hsz Hb _ _]; cbn in *.
    split_and!; [done|lia|lia|by apply free_leases|by eapply idle_breaker_admits..].
Qed.

(** A pool at rest, and one with a request in flight. *)
Lemma pool_comes_to_rest_witness :
  ¬ (∃ s', nsteps (rest_step one_connection) 13 leased_pool s') ∧
  ∃ a inner, breaker_admit (breaker_params one_connection) 9 (breaker (new_entry one_connection 0)) = (Ok a, inner).
Proof.
  split.
  - intros [s' Hs'].
    pose proof (proj1 (pool_comes_to_rest one_connection leased_pool ltac:(done) leased_pool_reachable) 13 s' Hs') as Hk.
    change (13 ≤ 12) in Hk. lia.
  - apply (proj2 (pool_comes_to_rest one_connection (mkPoolSys (new_entry one_connection 0) [] 0) ltac:(done)
      (ex_intro _ 0%Z (ex_intro _ 0%Z (rtc_refl _ _)))) _ (rtc_refl _ _)); [done| |done|done].
    intros s'' Hs. inversion Hs; match goal with H : [] ≡ₚ _ |- _ => by apply Permutation_nil_l in H end.
Defined.
