(* ===== verification/Observability.v ===== *)
(** * The observability layer of [src/src/http/observability.rs]

    [ObserveLayer] wraps the router: it gives every request an audit context,
    which the handlers fill in through the request's extensions, holds the
    in-flight gauge for as long as the request's future lives, and writes the
    metrics and the audit line when the response is ready.  The metrics
    recorder and the log subscriber are not part of the program: what the code
    sends them is a sequence of [Emission]s, and a counter's or a gauge's value
    is read off that sequence.

    The audit context is an [Arc] shared by the future and by the request the
    handler sees, so contexts live in a store and both hold the location.  A
    program state is reached by a sequence of events: a request arrives, its
    handler notes something, its future is polled, its future is dropped. *)
From S2P Require Import Prelude Domain Utf8 Config Ports.

(** ** What is emitted *)

Record MetricKey : Type := mkKey { metric : string; labels : list (string * string) }.

#[export] Instance metric_key_eq_dec : EqDecision MetricKey.
Proof. solve_decision. Defined.

(** The fields of the event [request completed]. *)
Record AuditLine : Type := mkLine {
  line_subject : string;
  line_pool : string;
  line_command : string;
  line_status : Z;
  latency_ms : Z;
  line_pipeline_len : Z;
  line_endpoint : string;
}.

Module Emission.
Inductive Emission : Type :=
| Register (k : MetricKey)
| Increment (k : MetricKey) (by_ : Z)
| Set_ (k : MetricKey) (value : Z)
| Adjust (k : MetricKey) (by_ : Z)
| Record_ (k : MetricKey) (value : Z)
| Line (l : AuditLine).
End Emission.
Abbreviation Emission := Emission.Emission.

Definition http_requests_total (endpoint status : string) : MetricKey :=
  mkKey "srh_http_requests_total" [("endpoint", endpoint); ("status", status)].
Definition http_request_duration_seconds (endpoint status : string) : MetricKey :=
  mkKey "srh_http_request_duration_seconds" [("endpoint", endpoint); ("status", status)].
Definition http_in_flight : MetricKey := mkKey "srh_http_in_flight" [].

(** [register_metrics], for the names of the configured pools. *)
Definition register_metrics (pool_names : list string) : list Emission :=
  [ Emission.Register (http_requests_total "-" "-");
    Emission.Register (http_request_duration_seconds "-" "-");
    Emission.Set_ http_in_flight 0;
    Emission.Register (mkKey "srh_rate_limit_rejections_total" []) ]
  ++ ((λ kind, Emission.Register (mkKey "srh_auth_failures_total" [("kind", kind)])) <$>
        ["missing_or_malformed"; "rejected"; "forbidden"; "unavailable"])
  ++ ((λ cause, Emission.Register (mkKey "srh_shed_total" [("cause", cause)])) <$>
        ["global_limit"; "pool_queue_full"; "acquire_timeout"; "breaker_open";
         "response_too_large"; "debt_forgiven_by_eviction"])
  ++ mjoin ((λ pool,
        [ Emission.Register (mkKey "srh_pool_builds_total" [("pool", pool)]);
          Emission.Register (mkKey "srh_pool_evictions_total" [("pool", pool)]);
          Emission.Set_ (mkKey "srh_pool_active_connections" [("pool", pool)]) 0;
          Emission.Set_ (mkKey "srh_pool_permits_in_use" [("pool", pool)]) 0;
          Emission.Set_ (mkKey "srh_pool_waiter_depth" [("pool", pool)]) 0;
          Emission.Set_ (mkKey "srh_pool_breaker_state" [("pool", pool)]) 0 ]) <$> pool_names).

(** ** The command label *)

Definition COMMAND_LABEL_CAPACITY : nat := 32.

Record CommandLabel : Type := mkLabel { label_bytes : list ascii; label_len : nat }.

(** [label.bytes[label.len] = byte; label.len += 1]: an index out of range
    panics, the result [None]. *)
Definition label_push (label : CommandLabel) (byte : ascii) : option CommandLabel :=
  if decide (label_len label < length (label_bytes label))
  then Some (mkLabel (<[label_len label := byte]> (label_bytes label)) (S (label_len label)))
  else None.

Definition label_uppercase (command : string) : option CommandLabel :=
  foldl (λ label byte, label ← label; label_push label (ascii_upper byte))
    (Some (mkLabel (replicate COMMAND_LABEL_CAPACITY "000"%char) 0))
    (take COMMAND_LABEL_CAPACITY (String.list_ascii_of_string command)).

(** [CommandLabel::as_str]; the slice panics past the end of the array. *)
Definition label_as_str (label : CommandLabel) : option string :=
  if decide (label_len label ≤ length (label_bytes label)) then
    let s := String.string_of_list_ascii (take (label_len label) (label_bytes label)) in
    Some (if valid_utf8 s then s else "-")
  else None.

(** ** The audit context *)

Record AuditFields : Type := mkFields {
  audit_identity : option Identity;
  audit_command : option CommandLabel;
  pipeline_len : Z;
}.

Definition audit_default : AuditFields := mkFields None None 0.

(** [AuditContext::identity] and [AuditContext::command], on the fields. *)
Definition set_identity (who : Identity) (f : AuditFields) : AuditFields :=
  mkFields (Some who) (audit_command f) (pipeline_len f).

Definition set_command (command : option string) (len : Z) (f : AuditFields) : option AuditFields :=
  match command with
  | None => Some (mkFields (audit_identity f) None len)
  | Some c => label ← label_uppercase c; Some (mkFields (audit_identity f) (Some label) len)
  end.

(** ** Labels *)

Definition status_label (status : Z) : string :=
  match status with
  | 200 => "200" | 400 => "400" | 401 => "401" | 403 => "403" | 404 => "404" | 405 => "405"
  | 408 => "408" | 413 => "413" | 429 => "429" | 500 => "500" | 502 => "502" | 503 => "503"
  | _ => "other"
  end%Z.

Definition is_probe (endpoint : string) : bool := contains ["/health"; "/ready"] endpoint.

Definition endpoint_label (path : string) : string :=
  if contains ["/"; "/pipeline"; "/multi-exec"; "/health"; "/ready"] path then path else "other".

(** ** Recording a response *)

Definition as_millis (d : Z) : Z := (d / 1000000)%Z.

(** [record]; [elapsed] is in nanoseconds, and a histogram sample is kept as
    the duration it stands for. *)
Definition record (elapsed : Z) (endpoint : string) (fields : AuditFields) (status : Z) :
    option (list Emission) :=
  let label := status_label status in
  let metrics :=
    [ Emission.Increment (http_requests_total endpoint label) 1;
      Emission.Record_ (http_request_duration_seconds endpoint label) elapsed ] in
  if is_probe endpoint && (200 <=? status)%Z && (status <? 300)%Z then Some metrics
  else
    command ← match audit_command fields with None => Some "-" | Some label => label_as_str label end;
    Some (metrics ++
      [ Emission.Line (mkLine
          (match audit_identity fields with None => "-" | Some who => subject who end)
          (match audit_identity fields with None => "-" | Some who => pool who end)
          command status (as_millis elapsed) (pipeline_len fields) endpoint) ]).

(** ** Requests in flight *)

(** [ObserveFuture]; [inner_done] stands for the state of the inner future,
    which may not be polled again once it has answered. *)
Record ObserveFuture : Type := mkFuture {
  inner_done : bool;
  started : Z;
  future_endpoint : string;
  audit : nat;
}.

(** The futures that exist, by the location of their audit context; the
    contexts; what was emitted, oldest first. *)
Record Obs : Type := mkObs {
  futures : gmap nat ObserveFuture;
  contexts : list AuditFields;
  emitted : list Emission;
}.

(** [Observe::call]: the future and the request's extension share a new
    context; [InFlight::enter]. *)
Definition call (path : string) (now : Z) (s : Obs) : Obs :=
  let loc := length (contexts s) in
  mkObs (<[loc := mkFuture false now (endpoint_label path) loc]> (futures s))
    (contexts s ++ [audit_default])
    (emitted s ++ [Emission.Adjust http_in_flight 1]).

(** [counter!(name, label)]. *)
Definition counter_key (name : string) (label : option (string * string)) : MetricKey :=
  mkKey name (match label with None => [] | Some l => [l] end).

(** What a handler tells the observers through the extension at [loc]. *)
Definition noted (loc : nat) (n : Note) (s : Obs) : option Obs :=
  match n with
  | Note.AuditIdentity who =>
      f ← contexts s !! loc;
      Some (mkObs (futures s) (<[loc := set_identity who f]> (contexts s)) (emitted s))
  | Note.AuditCommand c len =>
      f ← contexts s !! loc;
      f ← set_command c len f;
      Some (mkObs (futures s) (<[loc := f]> (contexts s)) (emitted s))
  | Note.Counter name label by_ =>
      Some (mkObs (futures s) (contexts s) (emitted s ++ [Emission.Increment (counter_key name label) by_]))
  end.

(** What polling the inner future gave: an [Ok] carries the status. *)
Module Poll.
Inductive Poll : Type := Pending | Ready (r : result Z unit).
End Poll.
Abbreviation Poll := Poll.Poll.

(** [ObserveFuture::poll]. *)
Definition poll (id : nat) (p : Poll) (now : Z) (s : Obs) : option Obs :=
  this ← futures s !! id;
  if inner_done this then None
  else
    match p with
    | Poll.Pending => Some s
    | Poll.Ready r =>
        let this' := mkFuture true (started this) (future_endpoint this) (audit this) in
        ems ← match r with
              | Ok status =>
                  f ← contexts s !! audit this;
                  record (duration_since now (started this)) (future_endpoint this) f status
              | Err _ => Some []
              end;
        Some (mkObs (<[id := this']> (futures s)) (contexts s) (emitted s ++ ems))
    end.

(** Dropping the future drops its [InFlight]. *)
Definition drop_future (id : nat) (s : Obs) : option Obs :=
  _ ← futures s !! id;
  Some (mkObs (delete id (futures s)) (contexts s) (emitted s ++ [Emission.Adjust http_in_flight (-1)])).

(** ** Events and reachable states *)

Module Event.
Inductive Event : Type :=
| Call (path : string) (now : Z)
| Noted (loc : nat) (n : Note)
| Polled (id : nat) (p : Poll) (now : Z)
| Dropped (id : nat).
End Event.
Abbreviation Event := Event.Event.

Definition observe (ev : Event) (s : Obs) : option Obs :=
  match ev with
  | Event.Call path now => Some (call path now s)
  | Event.Noted loc n => noted loc n s
  | Event.Polled id p now => poll id p now s
  | Event.Dropped id => drop_future id s
  end.

Definition obs_start (pool_names : list string) : Obs := mkObs ∅ [] (register_metrics pool_names).

(** The states of a server with these pools, with the events that led there,
    most recent first. *)
Inductive observed (pool_names : list string) : list Event → Obs → Prop :=
| observed_start : observed pool_names [] (obs_start pool_names)
| observed_event past s ev s' :
    observed pool_names past s → observe ev s = Some s' → observed pool_names (ev :: past) s'.

(** ** What the events alone say

    The requests are numbered in the order they arrive. *)

Fixpoint arrived (past : list Event) : nat :=
  match past with
  | [] => 0
  | Event.Call _ _ :: past => S (arrived past)
  | _ :: past => arrived past
  end.

Fixpoint request_of (id : nat) (past : list Event) : option (string * Z) :=
  match past with
  | [] => None
  | Event.Call path now :: past =>
      if decide (id = arrived past) then Some (path, now) else request_of id past
  | _ :: past => request_of id past
  end.

(** The last identity and the last command the handler of a request noted. *)
Fixpoint identity_of (id : nat) (past : list Event) : option Identity :=
  match past with
  | [] => None
  | Event.Noted loc (Note.AuditIdentity who) :: past =>
      if decide (loc = id) then Some who else identity_of id past
  | _ :: past => identity_of id past
  end.

Fixpoint command_of (id : nat) (past : list Event) : option string * Z :=
  match past with
  | [] => (None, 0%Z)
  | Event.Noted loc (Note.AuditCommand c len) :: past =>
      if decide (loc = id) then (c, len) else command_of id past
  | _ :: past => command_of id past
  end.

(** The text of a command label. *)
Definition label_text (command : string) : string :=
  let s := String.string_of_list_ascii
             (take COMMAND_LABEL_CAPACITY (String.list_ascii_of_string (to_ascii_uppercase command))) in
  if valid_utf8 s then s else "-".

Definition expected_line (past : list Event) (id : nat) (path : string) (since : Z) (status now : Z) : AuditLine :=
  mkLine (match identity_of id past with None => "-" | Some who => subject who end)
    (match identity_of id past with None => "-" | Some who => pool who end)
    (match (command_of id past).1 with None => "-" | Some c => label_text c end)
    status (as_millis (duration_since now since)) (command_of id past).2 (endpoint_label path).

Definition probe_succeeded (path : string) (status : Z) : bool :=
  contains ["/health"; "/ready"] path && (200 <=? status)%Z && (status <? 300)%Z.

(** The audit log, oldest first: one line for each response that is not a
    probe's success. *)
Fixpoint expected_log (past : list Event) : list AuditLine :=
  match past with
  | [] => []
  | Event.Polled id (Poll.Ready (Ok status)) now :: past =>
      expected_log past ++
      match request_of id past with
      | Some (path, since) =>
          if probe_succeeded path status then [] else [expected_line past id path since status now]
      | None => []
      end
  | _ :: past => expected_log past
  end.

(** The labels of the responses, one entry for each. *)
Fixpoint responses (past : list Event) : list (string * string) :=
  match past with
  | [] => []
  | Event.Polled id (Poll.Ready (Ok status)) now :: past =>
      match request_of id past with
      | Some (path, _) => (endpoint_label path, status_label status) :: responses past
      | None => responses past
      end
  | _ :: past => responses past
  end.

Fixpoint dropped (past : list Event) : nat :=
  match past with
  | [] => 0
  | Event.Dropped _ :: past => S (dropped past)
  | _ :: past => dropped past
  end.

(** An event the server can produce after [past]: a request is polled until it
    answers and not after it is dropped, a future is dropped once, a handler
    speaks for a request that arrived. *)
Definition is_end (id : nat) (ev : Event) : bool :=
  match ev with
  | Event.Dropped id' => bool_decide (id = id')
  | Event.Polled id' (Poll.Ready _) _ => bool_decide (id = id')
  | _ => false
  end.

Definition is_drop (id : nat) (ev : Event) : bool :=
  match ev with Event.Dropped id' => bool_decide (id = id') | _ => false end.

Definition possible (ev : Event) (past : list Event) : bool :=
  match ev with
  | Event.Call _ _ => true
  | Event.Noted loc _ => bool_decide (loc < arrived past)
  | Event.Polled id _ _ => bool_decide (id < arrived past) && negb (existsb (is_end id) past)
  | Event.Dropped id => bool_decide (id < arrived past) && negb (existsb (is_drop id) past)
  end.

(** ** Values read off the emissions *)

Definition increment_of (k : MetricKey) (e : Emission) : Z :=
  match e with Emission.Increment k' n => if decide (k' = k) then n else 0%Z | _ => 0%Z end.

Fixpoint counter_value (k : MetricKey) (l : list Emission) : Z :=
  match l with [] => 0%Z | e :: l => (increment_of k e + counter_value k l)%Z end.

Fixpoint gauge_value (k : MetricKey) (value : Z) (l : list Emission) : Z :=
  match l with
  | [] => value
  | Emission.Set_ k' v :: l => gauge_value k (if decide (k' = k) then v else value) l
  | Emission.Adjust k' d :: l => gauge_value k (if decide (k' = k) then (value + d)%Z else value) l
  | _ :: l => gauge_value k value l
  end.

Definition samples (k : MetricKey) (l : list Emission) : list Z :=
  omap (λ e, match e with
             | Emission.Record_ k' v => if decide (k' = k) then Some v else None
             | _ => None
             end) l.

Definition audit_log (l : list Emission) : list AuditLine :=
  omap (λ e, match e with Emission.Line l => Some l | _ => None end) l.

(** The counters handlers use are not the layer's own. *)
Definition own_metrics : list string := ["srh_http_requests_total"].

Definition handler_event (ev : Event) : bool :=
  match ev with
  | Event.Noted _ (Note.Counter name _ _) => negb (contains own_metrics name)
  | _ => true
  end.

(** Every label the layer can emit. *)
Definition endpoints : list string := ["/"; "/pipeline"; "/multi-exec"; "/health"; "/ready"; "other"].
Definition statuses : list string :=
  ["200"; "400"; "401"; "403"; "404"; "405"; "408"; "413"; "429"; "500"; "502"; "503"; "other"].

(** ** The command label: lemmas *)

Lemma label_push_foldl (l pre : list ascii) m :
  length l ≤ m →
  foldl (λ label byte, label ← label; label_push label (ascii_upper byte))
    (Some (mkLabel (pre ++ replicate m "000"%char) (length pre))) l =
  Some (mkLabel (pre ++ (ascii_upper <$> l) ++ replicate (m - length l) "000"%char)
          (length pre + length l)).
Proof.
  revert pre m. induction l as [|c l IH]; intros pre m Hl; simpl.
  { by rewrite Nat.sub_0_r, Nat.add_0_r. }
  destruct m as [|m]; [simpl in Hl; lia|]. simpl in Hl.
  unfold label_push at 2. cbn [label_len label_bytes].
  rewrite decide_True by (rewrite length_app; simpl; lia).
  rewrite insert_app_r_alt, Nat.sub_diag by lia. cbn [replicate insert list_insert].
  specialize (IH (pre ++ [ascii_upper c]) m). rewrite length_app, <- !app_assoc in IH. cbn [length app] in IH.
  rewrite Nat.add_1_r in IH. rewrite IH by lia. by rewrite <- Nat.add_succ_comm.
Qed.

Lemma string_map_list f s :
  String.list_ascii_of_string (string_map f s) = f <$> String.list_ascii_of_string s.
Proof. induction s as [|c s IH]; [done|]. simpl. by rewrite IH. Qed.

(** The label of a command exists and reads as [label_text] says. *)
Lemma label_uppercase_spec c :
  ∃ l, label_uppercase c = Some l ∧ label_as_str l = Some (label_text c).
Proof.
  unfold label_uppercase, label_as_str, label_text, to_ascii_uppercase.
  set (bs := take COMMAND_LABEL_CAPACITY (String.list_ascii_of_string c)).
  assert (length bs ≤ COMMAND_LABEL_CAPACITY) as Hlen by (subst bs; rewrite length_take; lia).
  pose proof (label_push_foldl bs [] COMMAND_LABEL_CAPACITY Hlen) as Hfold.
  cbn [app length] in Hfold. rewrite Hfold. eexists. split; [done|]. cbn [label_len label_bytes app length]. rewrite string_map_list, <- fmap_take.
  fold bs. rewrite decide_True by (rewrite length_app, length_fmap; lia).
  by rewrite take_app_le, take_ge by (rewrite ?length_fmap; lia).
Qed.

(** ** The state follows the events *)

Record tracks (past : list Event) (s : Obs) : Prop := {
  tr_contexts : length (contexts s) = arrived past;
  tr_fields id f : contexts s !! id = Some f →
    audit_identity f = identity_of id past ∧ pipeline_len f = (command_of id past).2 ∧
    audit_command f = (command_of id past).1 ≫= label_uppercase;
  tr_future id fu : futures s !! id = Some fu →
    audit fu = id ∧ id < arrived past ∧ inner_done fu = existsb (is_end id) past ∧
    ∃ path, request_of id past = Some (path, started fu) ∧ future_endpoint fu = endpoint_label path;
  tr_live id : id < arrived past → existsb (is_drop id) past = false → is_Some (futures s !! id);
  tr_fresh id : arrived past ≤ id →
    identity_of id past = None ∧ command_of id past = (None, 0%Z) ∧ existsb (is_end id) past = false;
}.

Lemma tracks_start pool_names : tracks [] (obs_start pool_names).
Proof. split; simpl; try done; intros; try lia. Qed.

Lemma tracks_call past s path now :
  tracks past s → tracks (Event.Call path now :: past) (call path now s).
Proof.
  intros [Hc Hf Hu Hl Hn]. unfold call. split; cbn [contexts futures arrived identity_of command_of].
  - rewrite length_app. simpl. lia.
  - intros id f [Hid|[Hge Hid]]%lookup_app_Some; [by apply Hf|].
    apply list_lookup_singleton_Some in Hid as [Hz <-].
    destruct (Hn id) as (-> & -> & _); [lia|done].
  - intros id fu [[<- <-]|[Hne Hid]]%lookup_insert_Some; cbn [audit inner_done started future_endpoint].
    + destruct (Hn (arrived past)) as (_ & _ & Hend); [done|]. rewrite Hc. split_and!; [done|lia| |].
      * simpl. by rewrite Hend.
      * exists path. simpl. by rewrite decide_True.
    + destruct (Hu id fu Hid) as (? & ? & ? & p & ? & ?). split_and!; [done|lia|done|].
      exists p. simpl. by rewrite decide_False by lia.
  - intros id Hlt Hd. simpl in Hd. destruct (decide (id = length (contexts s))) as [->|Hne].
    + rewrite lookup_insert_eq. eauto.
    + rewrite lookup_insert_ne by done. apply Hl; [lia|done].
  - intros id Hge. simpl. apply Hn. lia.
Qed.

Lemma tracks_noted past s loc n s' :
  tracks past s → noted loc n s = Some s' → tracks (Event.Noted loc n :: past) s'.
Proof.
  intros [Hc Hf Hu Hl Hn] Hs.
  assert (∀ id f, contexts s !! id = Some f → id < arrived past) as Hin.
  { intros id f Hid%lookup_lt_Some. lia. }
  destruct n as [who|c len|name label by_]; simpl in Hs.
  - destruct (contexts s !! loc) as [f|] eqn:Hloc; simplify_eq/=.
    split; simpl; [by rewrite length_insert| |done|done|].
    + intros id f' Hid. destruct (decide (loc = id)) as [->|Hne].
      * rewrite list_lookup_insert_eq in Hid by (by eapply lookup_lt_Some). simplify_eq/=.
        by destruct (Hf id f Hloc) as (_ & ? & ?).
      * rewrite list_lookup_insert_ne in Hid by done. by apply Hf.
    + intros id Hge. apply Hin in Hloc. rewrite decide_False by lia. by apply Hn.
  - destruct (contexts s !! loc) as [f|] eqn:Hloc; [|done]. cbn [mbind option_bind] in Hs.
    destruct (set_command c len f) as [f'|] eqn:Hset; simplify_eq/=.
    split; simpl; [by rewrite length_insert| |done|done|].
    + intros id g Hid. destruct (decide (loc = id)) as [->|Hne].
      * rewrite list_lookup_insert_eq in Hid by (by eapply lookup_lt_Some). simplify_eq/=.
        destruct (Hf id f Hloc) as (? & _ & _). unfold set_command in Hset.
        destruct c as [c|]; simplify_eq/=; [|done].
        by destruct (label_uppercase c); simplify_eq/=.
      * rewrite list_lookup_insert_ne in Hid by done. by apply Hf.
    + intros id Hge. apply Hin in Hloc. rewrite decide_False by lia. by apply Hn.
  - simplify_eq/=. by split.
Qed.

Lemma tracks_poll past s id p now s' :
  tracks past s → poll id p now s = Some s' → tracks (Event.Polled id p now :: past) s'.
Proof.
  intros [Hc Hf Hu Hl Hn] Hs. unfold poll in Hs.
  destruct (futures s !! id) as [this|] eqn:Hid; [|done]. cbn [mbind option_bind] in Hs.
  destruct (inner_done this) eqn:Hdone; [done|].
  destruct p as [|r]; [simplify_eq; by split|].
  assert (∃ ems, s' = mkObs (<[id := mkFuture true (started this) (future_endpoint this) (audit this)]>
    (futures s)) (contexts s) (emitted s ++ ems)) as [ems ->].
  { destruct (match r with Ok _ => _ | Err _ => _ end) as [ems|]; [|done].
    cbn in Hs. simplify_eq. by exists ems. }
  split; simpl; [done|done| | |].
  - intros id' fu [[<- <-]|[Hne Hid']]%lookup_insert_Some; simpl.
    + destruct (Hu id this Hid) as (? & ? & ? & ?). split_and!; [done..| |done].
      by rewrite bool_decide_eq_true_2.
    + destruct (Hu id' fu Hid') as (? & ? & ? & ?). split_and!; [done..| |done].
      by rewrite bool_decide_eq_false_2.
  - intros id' Hlt Hd. destruct (decide (id = id')) as [->|Hne].
    + rewrite lookup_insert_eq. eauto.
    + rewrite lookup_insert_ne by done. by apply Hl.
  - intros id' Hge. destruct (Hu id this Hid) as (_ & ? & _).
    rewrite bool_decide_eq_false_2 by lia. by apply Hn.
Qed.

Lemma tracks_drop past s id s' :
  tracks past s → drop_future id s = Some s' → tracks (Event.Dropped id :: past) s'.
Proof.
  intros [Hc Hf Hu Hl Hn] Hs. unfold drop_future in Hs.
  destruct (futures s !! id) as [this|] eqn:Hid; simplify_eq/=.
  split; simpl; [done|done| | |].
  - intros id' fu [Hne Hid']%lookup_delete_Some.
    destruct (Hu id' fu Hid') as (? & ? & ? & ?). split_and!; [done..| |done].
    by rewrite bool_decide_eq_false_2.
  - intros id' Hlt [Hne%bool_decide_eq_false Hd]%orb_false_iff.
    rewrite lookup_delete_ne by done. by apply Hl.
  - intros id' Hge. destruct (Hu id this Hid) as (_ & ? & _).
    rewrite bool_decide_eq_false_2 by lia. by apply Hn.
Qed.

Lemma observed_tracks pool_names past s : observed pool_names past s → tracks past s.
Proof.
  induction 1 as [|past s ev s' _ IH Hev]; [apply tracks_start|].
  destruct ev; simpl in Hev; simplify_eq;
    eauto using tracks_call, tracks_noted, tracks_poll, tracks_drop.
Qed.

(** ** What the events emit *)

Lemma is_probe_label path : is_probe (endpoint_label path) = contains ["/health"; "/ready"] path.
Proof.
  unfold is_probe, endpoint_label. destruct (contains _ path) eqn:Hp; [done|].
  apply contains_false in Hp. symmetry. apply contains_false. set_solver.
Qed.

(** What a response emits, in terms of the events. *)
Definition response_emissions (past : list Event) (id : nat) (path : string) (since status now : Z) :
    list Emission :=
  let k := (endpoint_label path, status_label status) in
  [ Emission.Increment (http_requests_total k.1 k.2) 1;
    Emission.Record_ (http_request_duration_seconds k.1 k.2) (duration_since now since) ]
  ++ (if probe_succeeded path status then []
      else [Emission.Line (expected_line past id path since status now)]).

Lemma record_emissions past s id path since f status now :
  tracks past s → contexts s !! id = Some f →
  record (duration_since now since) (endpoint_label path) f status =
    Some (response_emissions past id path since status now).
Proof.
  intros Ht Hf. destruct (tr_fields _ _ Ht id f Hf) as (Hi & Hn & Hc).
  unfold record, response_emissions, probe_succeeded, expected_line. rewrite is_probe_label.
  destruct (contains _ path && _ && _); [done|].
  assert (match audit_command f with None => Some "-" | Some label => label_as_str label end =
    Some (match (command_of id past).1 with None => "-" | Some c => label_text c end)) as ->.
  { rewrite Hc. destruct (command_of id past).1 as [c|]; [|done].
    destruct (label_uppercase_spec c) as (l & Hl & Hs). cbn [mbind option_bind]. by rewrite Hl. }
  cbn [mbind option_bind]. by rewrite Hi, Hn.
Qed.

(** One event: how the emissions and the number of futures change. *)
Definition event_emissions (ev : Event) (past : list Event) : list Emission :=
  match ev with
  | Event.Call _ _ => [Emission.Adjust http_in_flight 1]
  | Event.Noted _ (Note.Counter name label by_) =>
      [Emission.Increment (counter_key name label) by_]
  | Event.Noted _ _ => []
  | Event.Polled id (Poll.Ready (Ok status)) now =>
      match request_of id past with
      | Some (path, since) => response_emissions past id path since status now
      | None => []
      end
  | Event.Polled _ _ _ => []
  | Event.Dropped _ => [Emission.Adjust http_in_flight (-1)]
  end.

Lemma tracks_context past s id : tracks past s → id < arrived past → is_Some (contexts s !! id).
Proof. intros Ht Hid. apply lookup_lt_is_Some. by rewrite (tr_contexts _ _ Ht). Qed.

Lemma observe_emits past s ev s' :
  tracks past s → observe ev s = Some s' → emitted s' = emitted s ++ event_emissions ev past.
Proof.
  intros Ht Hs. destruct ev as [path now|loc n|id p now|id]; simpl in Hs.
  - by simplify_eq.
  - destruct n; simpl in *.
    + destruct (contexts s !! loc); simplify_eq/=. by rewrite app_nil_r.
    + destruct (contexts s !! loc) as [f|]; [|done]. cbn [mbind option_bind] in Hs.
      destruct (set_command _ _ _); simplify_eq/=. by rewrite app_nil_r.
    + by simplify_eq.
  - unfold poll in Hs. destruct (futures s !! id) as [this|] eqn:Hid; [|done]. cbn [mbind option_bind] in Hs.
    destruct (inner_done this); [done|].
    destruct (tr_future _ _ Ht id this Hid) as (<- & Hlt & _ & path & Hreq & Hend).
    destruct p as [|[status|[]]]; simplify_eq/=; [by rewrite app_nil_r| |done].
    destruct (tracks_context _ _ _ Ht Hlt) as [f Hf]. rewrite Hf in Hs. cbn in Hs.
    rewrite Hend, (record_emissions past s _ path _ f status now Ht Hf) in Hs.
    cbn in Hs. simplify_eq. by rewrite Hreq.
  - unfold drop_future in Hs. by destruct (futures s !! id); simplify_eq/=.
Qed.

(** An event that can happen is handled: no index is out of range. *)
Lemma observe_possible past s ev :
  tracks past s → possible ev past = true → is_Some (observe ev s).
Proof.
  intros Ht Hp. destruct ev as [path now|loc n|id p now|id]; simpl in *; [eauto|..].
  - apply bool_decide_eq_true in Hp. destruct (tracks_context _ _ _ Ht Hp) as [f Hf].
    destruct n as [who|[c|] len|]; simpl; rewrite ?Hf; simpl; eauto.
    by destruct (label_uppercase_spec c) as (l & -> & _); simpl; eauto.
  - apply andb_true_iff in Hp as [Hlt%bool_decide_eq_true Hend%negb_true_iff].
    assert (existsb (is_drop id) past = false) as Hd.
    { apply not_true_is_false. intros (e & ? & He)%existsb_exists.
      apply not_true_iff_false in Hend. apply Hend, existsb_exists. exists e. split; [done|]. by destruct e. }
    destruct (tr_live _ _ Ht id Hlt Hd) as [this Hid]. unfold poll. rewrite Hid. cbn [mbind option_bind].
    destruct (tr_future _ _ Ht id this Hid) as (Ha & _ & -> & path & Hreq & Hep). rewrite Hend.
    destruct p as [|[status|[]]]; simpl; [eauto| |eauto].
    destruct (tracks_context _ _ _ Ht Hlt) as [f Hf]. rewrite Ha, Hf. cbn.
    rewrite Hep, (record_emissions past s id path _ f status now Ht Hf). simpl. eauto.
  - apply andb_true_iff in Hp as [Hlt%bool_decide_eq_true Hd%negb_true_iff].
    destruct (tr_live _ _ Ht id Hlt Hd) as [this Hid]. unfold drop_future. rewrite Hid. simpl. eauto.
Qed.

Lemma observe_size past s ev s' :
  tracks past s → observe ev s = Some s' →
  size (futures s') + (match ev with Event.Dropped _ => 1 | _ => 0 end) =
  size (futures s) + (match ev with Event.Call _ _ => 1 | _ => 0 end).
Proof.
  intros Ht Hs. destruct ev as [path now|loc n|id p now|id]; simpl in Hs.
  - simplify_eq/=. rewrite map_size_insert_None; [lia|].
    destruct (futures s !! length (contexts s)) as [fu|] eqn:Hid; [|done].
    destruct (tr_future _ _ Ht _ fu Hid) as (_ & ? & _). rewrite (tr_contexts _ _ Ht) in *. lia.
  - assert (futures s' = futures s) as ->; [|lia].
    destruct n; simpl in Hs; [..|by simplify_eq]; destruct (contexts s !! loc) as [f|]; simplify_eq/=; [done|].
    by destruct (set_command _ _ f); simplify_eq/=.
  - unfold poll in Hs. destruct (futures s !! id) as [this|] eqn:Hid; [|done]. cbn [mbind option_bind] in Hs.
    destruct (inner_done this); [done|]. destruct p as [|r]; [by simplify_eq|].
    destruct (match r with Ok _ => _ | Err _ => _ end); simplify_eq/=.
    rewrite map_size_insert_Some; [done|]. by rewrite Hid.
  - unfold drop_future in Hs. destruct (futures s !! id) as [this|] eqn:Hid; simplify_eq/=.
    assert (size (futures s) ≠ 0) by (intros He%map_size_empty_inv; by rewrite He in Hid).
    rewrite map_size_delete_Some by (by rewrite Hid). lia.
Qed.

(** ** Sums over the emissions *)

Lemma counter_value_app k l1 l2 :
  counter_value k (l1 ++ l2) = (counter_value k l1 + counter_value k l2)%Z.
Proof. induction l1 as [|e l1 IH]; simpl; [done|]. rewrite IH. lia. Qed.

Lemma gauge_value_app k v l1 l2 : gauge_value k v (l1 ++ l2) = gauge_value k (gauge_value k v l1) l2.
Proof. revert v. induction l1 as [|[] l1 IH]; intros v; simpl; auto. Qed.

(** Registration sets gauges to zero, counts nothing and logs nothing. *)
Definition is_registration (e : Emission) : bool :=
  match e with Emission.Register _ | Emission.Set_ _ 0 => true | _ => false end.

Lemma register_metrics_registers pool_names : Forall is_registration (register_metrics pool_names).
Proof.
  unfold register_metrics. repeat (apply Forall_app; split); [by repeat constructor..|].
  induction pool_names as [|p l IH]; [done|]. cbn [fmap list_fmap mjoin list_join].
  apply Forall_app; split; [by repeat constructor|done].
Qed.

Lemma registration_zero l :
  Forall is_registration l →
  (∀ k, gauge_value k 0 l = 0%Z) ∧ (∀ k, counter_value k l = 0%Z) ∧ (∀ k, samples k l = []) ∧
  audit_log l = [].
Proof.
  induction 1 as [|e l He _ (IHg & IHc & IHs & IHl)]; [done|].
  destruct e as [|?|? [| |]|?|?|?]; try done; simpl; split_and!; intros; rewrite ?IHc; auto.
  by case_decide.
Qed.

Definition count_of (k : string * string) (l : list (string * string)) : nat :=
  length (filter (λ r, r = k) l).

Lemma count_of_cons k r l : count_of k (r :: l) = (if decide (r = k) then 1 else 0) + count_of k l.
Proof. unfold count_of. rewrite filter_cons. by case_decide. Qed.

Lemma http_key_inj e l e' l' :
  (http_requests_total e l = http_requests_total e' l' ↔ (e, l) = (e', l')) ∧
  (http_request_duration_seconds e l = http_request_duration_seconds e' l' ↔ (e, l) = (e', l')).
Proof. split; (split; [by intros [= -> ->]|by intros [= -> ->]]). Qed.

(** One event: the change of the request counter and of the histogram. *)
Lemma event_counts ev past e l :
  handler_event ev = true →
  counter_value (http_requests_total e l) (event_emissions ev past) =
    (Z.of_nat (count_of (e, l) (responses (ev :: past))) - Z.of_nat (count_of (e, l) (responses past)))%Z ∧
  length (samples (http_request_duration_seconds e l) (event_emissions ev past)) + count_of (e, l) (responses past) =
    count_of (e, l) (responses (ev :: past)).
Proof.
  intros Hh. destruct ev as [path now|loc n|id p now|id]; [simpl; lia| | |simpl; lia].
  - destruct n as [|?|name label by_]; simpl; [lia..|].
    rewrite decide_False; [lia|]. unfold counter_key. intros [= -> _]. by apply negb_true_iff, contains_false in Hh; apply Hh; left.
  - destruct p as [|[status|[]]]; [simpl; lia| |simpl; lia].
    cbn [event_emissions responses]. destruct (request_of id past) as [[path since]|]; [|simpl; lia].
    rewrite count_of_cons. unfold response_emissions. rewrite counter_value_app. unfold samples.
    rewrite omap_app, length_app. cbn.
    destruct (http_key_inj (endpoint_label path) (status_label status) e l) as [H1 H2].
    destruct (probe_succeeded path status); repeat case_decide; simpl; try lia; exfalso; tauto.
Qed.

Lemma event_gauge ev past v :
  gauge_value http_in_flight v (event_emissions ev past) =
    (v + (match ev with Event.Call _ _ => 1 | Event.Dropped _ => -1 | _ => 0 end))%Z.
Proof.
  destruct ev as [path now|loc []|id [|[status|[]]] now|id]; simpl; try lia.
  destruct (request_of id past) as [[path since]|]; [|simpl; lia].
  unfold response_emissions. destruct (probe_succeeded path status); simpl; lia.
Qed.

Lemma event_log ev past : expected_log (ev :: past) = expected_log past ++ audit_log (event_emissions ev past).
Proof.
  destruct ev as [path now|loc []|id [|[status|[]]] now|id]; simpl; rewrite ?app_nil_r; try done.
  f_equal. destruct (request_of id past) as [[path since]|]; [|done].
  unfold response_emissions, audit_log. rewrite omap_app. by destruct (probe_succeeded path status).
Qed.

Lemma labels_bounded path status :
  endpoint_label path ∈ endpoints ∧ status_label status ∈ statuses.
Proof.
  split.
  - unfold endpoint_label. destruct (contains _ path) eqn:Hp; [|set_solver].
    apply contains_true in Hp. unfold endpoints. set_solver.
  - unfold status_label. repeat case_match; by apply contains_true.
Qed.

Lemma responses_labels past e l : (e, l) ∈ responses past → e ∈ endpoints ∧ l ∈ statuses.
Proof.
  induction past as [|ev past IH]; simpl; [by intros ?%elem_of_nil|].
  destruct ev as [| |id [|[status|[]]] now|]; try done.
  destruct (request_of id past) as [[path since]|]; [|done].
  intros [[= -> ->]|Hin]%elem_of_cons; [apply labels_bounded|auto].
Qed.

Lemma string_list_ascii_length s : length (String.list_ascii_of_string s) = String.length s.
Proof. induction s as [|c s IH]; simpl; [done|by rewrite IH]. Qed.

Lemma string_of_list_app l1 l2 :
  String.string_of_list_ascii (l1 ++ l2) = String.string_of_list_ascii l1 +:+ String.string_of_list_ascii l2.
Proof. unfold String.append. induction l1 as [|c l1 IH]; simpl; [done|by rewrite IH]. Qed.

Lemma string_of_list_length l : String.length (String.string_of_list_ascii l) = length l.
Proof. induction l as [|c l IH]; simpl; [done|by rewrite IH]. Qed.

(** ** Theorems *)

(** Building the label of a command never indexes outside its array, and
    the label is valid UTF-8 of at most 32 bytes: the whole command name in
    upper case when it is text of at most 32 bytes, otherwise a prefix of it
    or a dash, so that no spelling of a command changes its label. *)
Theorem command_label_faithful (command : string) :
  ∃ label text, label_uppercase command = Some label ∧ label_as_str label = Some text ∧
    (String.length text ≤ COMMAND_LABEL_CAPACITY)%nat ∧ valid_utf8 text = true ∧
    (valid_utf8 command = true → (String.length command ≤ COMMAND_LABEL_CAPACITY)%nat →
       text = to_ascii_uppercase command) ∧
    (text = "-" ∨ ∃ rest, to_ascii_uppercase command = text +:+ rest) ∧
    (∀ other, eq_ignore_ascii_case command other = true →
       ∃ label', label_uppercase other = Some label' ∧ label_as_str label' = Some text).
Proof.
  destruct (label_uppercase_spec command) as (label & Hl & Hs).
  exists label, (label_text command). split_and!; [done|done|..].
  1-4: unfold label_text; set (bs := String.list_ascii_of_string (to_ascii_uppercase command));
    set (s := String.string_of_list_ascii (take COMMAND_LABEL_CAPACITY bs)).
  - assert (String.length s ≤ COMMAND_LABEL_CAPACITY)
      by (subst s; rewrite string_of_list_length, length_take; lia).
    destruct (valid_utf8 s); [done|]. cbn. unfold COMMAND_LABEL_CAPACITY. lia.
  - by destruct (valid_utf8 s) eqn:Hv.
  - intros Hv Hlen. assert (s = to_ascii_uppercase command) as ->.
    { subst s bs. rewrite take_ge; [apply String.string_of_list_ascii_of_string|].
      unfold to_ascii_uppercase. by rewrite string_list_ascii_length, string_map_length. }
    by rewrite valid_utf8_upper, Hv.
  - destruct (valid_utf8 s); [right|by left].
    exists (String.string_of_list_ascii (drop COMMAND_LABEL_CAPACITY bs)).
    subst s. rewrite <- string_of_list_app, take_drop. symmetry. apply String.string_of_list_ascii_of_string.
  - intros other Hcase%eq_ignore_ascii_case_iff. destruct (label_uppercase_spec other) as (l' & ? & Hs').
    exists l'. split; [done|]. rewrite Hs'. unfold label_text. by rewrite Hcase.
Qed.

(** C21. Whatever requests arrive, are answered, fail or are abandoned, the
    in-flight gauge is the number of request futures that exist, which is the
    number of requests that arrived less those dropped; and for every endpoint
    and status label the request counter and the number of latency samples are
    the number of responses with those labels, taken from a fixed set of labels. *)
Theorem observability_accounts (pool_names : list string) (past : list Event) (s : Obs)
    (Hs : observed pool_names past s) (Hh : forallb handler_event past = true) :
  gauge_value http_in_flight 0 (emitted s) = Z.of_nat (size (futures s)) ∧
  (size (futures s) + dropped past = arrived past)%nat ∧
  ∀ e l,
    counter_value (http_requests_total e l) (emitted s) = Z.of_nat (count_of (e, l) (responses past)) ∧
    length (samples (http_request_duration_seconds e l) (emitted s)) = count_of (e, l) (responses past) ∧
    ((e, l) ∈ responses past → e ∈ endpoints ∧ l ∈ statuses).
Proof.
  induction Hs as [|past s ev s' Hs IH Hev].
  { destruct (registration_zero _ (register_metrics_registers pool_names)) as (Hg & Hc & Hm & _).
    cbn [obs_start emitted futures]. rewrite Hg, map_size_empty. split_and!; [done..|]. intros e l.
    rewrite Hc, Hm. split_and!; [done..|]. by intros ?%elem_of_nil. }
  cbn [forallb] in Hh. apply andb_true_iff in Hh as [Hh1 Hh2].
  destruct (IH Hh2) as (IHg & IHn & IHc). apply observed_tracks in Hs as Ht.
  pose proof (observe_size _ _ _ _ Ht Hev) as Hsz. rewrite (observe_emits _ _ _ _ Ht Hev). split_and!.
  - rewrite gauge_value_app, event_gauge, IHg. destruct ev; lia.
  - destruct ev; simpl in *; lia.
  - intros e l. destruct (IHc e l) as (Hc & Hm & _). destruct (event_counts ev past e l Hh1) as [He1 He2].
    unfold samples in *. rewrite counter_value_app, omap_app, length_app, Hc, He1, Hm.
    split_and!; [lia..|apply responses_labels].
Qed.

(** C17. The audit log has exactly one line for every response except a
    health probe's success, in the order of the responses, and the line names
    the identity and the command the handler of that request noted, the status,
    the time since the request arrived and the endpoint; and no event that the
    server can produce fails. *)
Theorem audit_log_complete (pool_names : list string) (past : list Event) (s : Obs)
    (Hs : observed pool_names past s) :
  audit_log (emitted s) = expected_log past ∧
  ∀ ev, possible ev past = true → is_Some (observe ev s).
Proof.
  apply observed_tracks in Hs as Ht. split; [|intros ev; by apply observe_possible].
  clear Ht. induction Hs as [|past s ev s' Hs IH Hev].
  { by destruct (registration_zero _ (register_metrics_registers pool_names)) as (_ & _ & _ & Hl). }
  apply observed_tracks in Hs as Ht. rewrite (observe_emits _ _ _ _ Ht Hev), event_log, <- IH.
  unfold audit_log. by rewrite omap_app.
Qed.

(** ** Witnesses *)

(** Two requests and a probe: one answered, the probe answered, one abandoned. *)
Definition demo_who : Identity := mkIdentity "alice" "k" "main" false false false None ∅ ∅ None.
Definition demo_past : list Event :=
  [ Event.Dropped 0; Event.Dropped 2; Event.Polled 2 (Poll.Ready (Ok 200%Z)) 9;
    Event.Polled 1 (Poll.Ready (Ok 200%Z)) 5000000; Event.Polled 1 Poll.Pending 3;
    Event.Noted 1 (Note.AuditCommand (Some "get") 1); Event.Noted 1 (Note.AuditIdentity demo_who);
    Event.Call "/health" 2; Event.Call "/" 1; Event.Call "/pipeline" 0 ].

Fixpoint observe_all (past : list Event) (s : Obs) : option Obs :=
  match past with [] => Some s | ev :: past => s' ← observe_all past s; observe ev s' end.

Lemma observe_all_observed pool_names past s :
  observe_all past (obs_start pool_names) = Some s → observed pool_names past s.
Proof.
  revert s. induction past as [|ev past IH]; simpl; intros s Hs; [simplify_eq; constructor|].
  destruct (observe_all past _) as [s1|] eqn:H1; [|done]. econstructor; [by apply IH|done].
Qed.

Lemma observability_accounts_witness :
  ∃ s, observe_all demo_past (obs_start ["main"]) = Some s ∧
    gauge_value http_in_flight 0 (emitted s) = Z.of_nat (size (futures s)).
Proof.
  destruct (observe_all demo_past (obs_start ["main"])) as [s|] eqn:Hs; [|exfalso; by vm_compute in Hs].
  exists s. split; [done|].
  apply (observability_accounts ["main"] demo_past s); [by apply observe_all_observed|reflexivity].
Defined.

Lemma audit_log_complete_witness :
  ∃ s, observe_all demo_past (obs_start ["main"]) = Some s ∧
    audit_log (emitted s) = [mkLine "alice" "main" "GET" 200 4 1 "/"].
Proof.
  destruct (observe_all demo_past (obs_start ["main"])) as [s|] eqn:Hs; [|exfalso; by vm_compute in Hs].
  exists s. split; [done|].
  rewrite (proj1 (audit_log_complete ["main"] demo_past s (observe_all_observed _ _ _ Hs))). vm_compute. reflexivity.
Defined.
