(* ===== verification/Executors.v ===== *)
(** * Executors behind one interface

    The trait [CommandExecutor] of [src/src/ports/mod.rs] as a class with its
    three implementations: Fred's executor, the breaker executor around any
    other, and the scripted [FakeExecutor] of
    [src/src/testsupport/fake_executor.rs].  [LawfulExecutor] is what the HTTP
    handlers rely on; the pipeline handler is shown correct against it, and
    each implementation is shown to satisfy it.  The executable contract of
    [src/src/testsupport/executor_contract.rs] and the fakes for the other
    ports complete the test support. *)
From S2P Require Import Prelude Domain Acl Convert Parse Config RateLimit Ports Handlers Auth Breaker Pool Fred Observability.

(** ** The interface *)

Class CommandExecutor (X : Type) : Type := {
  execute : RedisCommand → X → result RespValue ExecError * X;
  pipeline : list RedisCommand → X → list (result RespValue ExecError) * X;
  transaction : list RedisCommand → X → result (list (result RespValue ExecError)) ExecError * X;
}.

Class LawfulExecutor (X : Type) `{!CommandExecutor X} : Prop := {
  pipeline_answers cmds x : length (pipeline cmds x).1 = length cmds;
  pipeline_one cmd x : pipeline [cmd] x = let '(r, x) := execute cmd x in ([r], x);
  empty_transaction x : (transaction [] x).1 = Ok [];
}.

(** ** The scripted executor *)

Record FakeExecutor : Type := mkFake {
  replies : list (result RespValue ExecError);
  fake_calls : list (list RedisCommand);
}.

(** [FakeExecutor::new], [record] and [next]. *)
Definition fake_new (script : list (result RespValue ExecError)) : FakeExecutor := mkFake script [].

Definition fake_record (commands : list RedisCommand) (x : FakeExecutor) : FakeExecutor :=
  mkFake (replies x) (fake_calls x ++ [commands]).

Definition fake_next (x : FakeExecutor) : result RespValue ExecError * FakeExecutor :=
  match replies x with
  | r :: rest => (r, mkFake rest (fake_calls x))
  | [] => (Err (ExecError.Transport "FakeExecutor reply script exhausted"), x)
  end.

Definition fake_execute (command : RedisCommand) (x : FakeExecutor) : result RespValue ExecError * FakeExecutor :=
  fake_next (fake_record [command] x).

(** [(0..count).map(|_| self.next()).collect()]. *)
Fixpoint fake_take (count : nat) (x : FakeExecutor) : list (result RespValue ExecError) * FakeExecutor :=
  match count with
  | O => ([], x)
  | S count => let '(r, x) := fake_next x in let '(rs, x) := fake_take count x in (r :: rs, x)
  end.

Definition fake_pipeline (commands : list RedisCommand) (x : FakeExecutor) :
    list (result RespValue ExecError) * FakeExecutor :=
  fake_take (length commands) (fake_record commands x).

Definition queue_error (r : result RespValue ExecError) : bool :=
  match r with Err (ExecError.Redis message) => String.prefix "ERR unknown command" message | _ => false end.

(** The loop of [FakeExecutor::transaction]. *)
Fixpoint fake_slots (count : nat) (slots : list (result RespValue ExecError)) (x : FakeExecutor) :
    result (list (result RespValue ExecError)) ExecError * FakeExecutor :=
  match count with
  | O => (Ok slots, x)
  | S count =>
      let '(slot, x) := fake_next x in
      if queue_error slot then (result_map (λ value, [Ok value]) slot, x)
      else fake_slots count (slots ++ [slot]) x
  end.

Definition fake_transaction (commands : list RedisCommand) (x : FakeExecutor) :
    result (list (result RespValue ExecError)) ExecError * FakeExecutor :=
  fake_slots (length commands) [] (fake_record commands x).

#[export] Instance fake_executor : CommandExecutor FakeExecutor :=
  {| execute := fake_execute; pipeline := fake_pipeline; transaction := fake_transaction |}.

(** ** The breaker executor around another *)

(** The inner executor, the permit's state, the shared breaker, and the
    number of readings taken of the clock. *)
Record Guarded (X : Type) : Type := mkGuarded {
  guarded_inner : X;
  guard : BreakerExecutor;
  shared_breaker : Inner;
  readings : nat;
}.
Arguments mkGuarded {X} _ _ _ _.
Arguments guarded_inner {X} _.
Arguments guard {X} _.
Arguments shared_breaker {X} _.
Arguments readings {X} _.

Section Breaker.
Context {X : Type} `{!CommandExecutor X}.
Context (b : BreakerParams) (clock : nat → Z).

Definition guarded_execute (cmd : RedisCommand) (g : Guarded X) :
    result RespValue ExecError * Guarded X :=
  let '(r, x) := execute cmd (guarded_inner g) in
  let '(r, (e, i)) := executor_execute b (clock (readings g)) r (guard g) (shared_breaker g) in
  (r, mkGuarded x e i (S (readings g))).

Definition guarded_pipeline (cmds : list RedisCommand) (g : Guarded X) :
    list (result RespValue ExecError) * Guarded X :=
  let '(rs, x) := pipeline cmds (guarded_inner g) in
  let '(rs, (e, i)) := executor_pipeline b (clock (readings g)) rs (guard g) (shared_breaker g) in
  (rs, mkGuarded x e i (S (readings g))).

Definition guarded_transaction (cmds : list RedisCommand) (g : Guarded X) :
    result (list (result RespValue ExecError)) ExecError * Guarded X :=
  let '(r, x) := transaction cmds (guarded_inner g) in
  let '(r, (e, i)) := executor_transaction b (clock (readings g)) r (guard g) (shared_breaker g) in
  (r, mkGuarded x e i (S (readings g))).

#[local] Instance breaker_executor : CommandExecutor (Guarded X) :=
  {| execute := guarded_execute; pipeline := guarded_pipeline; transaction := guarded_transaction |}.
End Breaker.

(** [emit_transition]: the gauge of the breaker's state. *)
Definition emit_transition (pool : string) (t : BreakerTransition) : Emission :=
  Emission.Set_ (mkKey "srh_pool_breaker_state" [("pool", pool)])
    match t with
    | BreakerTransition.Closed => 0
    | BreakerTransition.ProbeStarted => 1
    | BreakerTransition.Opened => 2
    end.

(** [PoolMetrics::new] and the gauge [PoolManager::build] resets. *)
Definition pool_metrics_new (name : string) : list Emission :=
  [ Emission.Set_ (mkKey "srh_pool_active_connections" [("pool", name)]) 0;
    Emission.Set_ (mkKey "srh_pool_permits_in_use" [("pool", name)]) 0;
    Emission.Set_ (mkKey "srh_pool_waiter_depth" [("pool", name)]) 0 ].

Definition build_metrics (name : string) : list Emission :=
  Emission.Set_ (mkKey "srh_pool_breaker_state" [("pool", name)]) 0 :: pool_metrics_new name.

(** They are the gauges that were registered at start-up. *)
Lemma build_metrics_registered name names :
  name ∈ names → Forall (λ e, e ∈ register_metrics names) (build_metrics name).
Proof.
  intros Hn. apply Forall_forall. intros e He. unfold register_metrics. rewrite !elem_of_app. do 3 right.
  apply list_elem_of_join. eexists. split; [|apply list_elem_of_fmap; exists name; split; [reflexivity|done]].
  unfold build_metrics, pool_metrics_new in He. set_solver.
Qed.

(** ** The shared contract *)

Section Contract.
Context {X : Type} `{!CommandExecutor X}.

(** One assertion, then the rest. *)
Definition expect {A : Type} `{!EqDecision A} (r : A * X) (expected : A) (rest : X → bool) : bool :=
  bool_decide (r.1 = expected) && rest r.2.

Definition contract_command (name : string) (args : list bytes) : RedisCommand := mkRedisCommand name args.

Abbreviation raw_error := "WRONGTYPE Operation against a key holding the wrong kind of value".
Abbreviation OK := (Ok (RespValue.Simple "OK") : result RespValue ExecError).
Abbreviation command := contract_command.

Definition executor_contract (x : X) : bool :=
  expect (transaction [] x) (Ok []) (λ x,
  expect (execute (command "SET" ["srh:contract:wrongtype"; "value"]) x) OK (λ x,
  expect (execute (command "HGET" ["srh:contract:wrongtype"; "field"]) x)
    (Err (ExecError.Redis raw_error)) (λ x,
  expect (pipeline [command "SET" ["srh:contract:pipeline"; "value"];
                    command "HGET" ["srh:contract:pipeline"; "field"];
                    command "INCR" ["srh:contract:counter"]] x)
    [OK; Err (ExecError.Redis raw_error); Ok (RespValue.Int 1)] (λ x,
  expect (execute (command "GET" ["srh:contract:missing"]) x) (Ok RespValue.Nil) (λ x,
  expect (transaction [command "INCR" ["srh:contract:first"]; command "INCR" ["srh:contract:second"]] x)
    (Ok [Ok (RespValue.Int 1); Ok (RespValue.Int 1)]) (λ x,
  expect (execute (command "SET" ["srh:contract:transaction-error"; "text"]) x) OK (λ x,
  expect (transaction [command "SET" ["srh:contract:transaction-before"; "written"];
                       command "INCR" ["srh:contract:transaction-error"];
                       command "SET" ["srh:contract:transaction-after"; "written"]] x)
    (Ok [OK; Err (ExecError.Redis "ERR value is not an integer or out of range"); OK]) (λ x,
  let '(r, x) := transaction [command "SET" ["srh:contract:atomic:first"; "written"];
                              command "SRH_UNKNOWN_COMMAND" [];
                              command "SET" ["srh:contract:atomic:second"; "written"]] x in
  match r with
  | Err (ExecError.Redis message) => String.prefix "ERR unknown command" message
  | _ => false
  end &&
  expect (execute (command "GET" ["srh:contract:atomic:first"]) x) (Ok RespValue.Nil) (λ x,
  expect (execute (command "GET" ["srh:contract:atomic:second"]) x) (Ok RespValue.Nil) (λ x,
  expect (pipeline [command "EVAL" ["return redis.error_reply('boom lowercase failure')"; "0"]] x)
    [Err (ExecError.Redis "boom lowercase failure")] (λ x,
  expect (execute (command "SET" ["srh:contract:okvalue"; "OK"]) x) OK (λ x,
  expect (pipeline [command "GET" ["srh:contract:okvalue"]] x) [Ok (RespValue.Bulk "OK")] (λ _,
  true))))))))))))).
End Contract.

(** ** The other fakes *)

(** [FakeJwks]: its keys and the number of lookups. *)
Record FakeJwks : Type := mkFakeJwks { fake_keys : gmap string CachedKey; fake_lookups : nat }.

Definition fake_jwks_new (keys : gmap string CachedKey) : FakeJwks := mkFakeJwks keys 0.

Definition fake_key_for (kid : string) (j : FakeJwks) : result CachedKey JwksError * FakeJwks :=
  (ok_or JwksError.NotFound (fake_keys j !! kid), mkFakeJwks (fake_keys j) (S (fake_lookups j))).

(** [authenticator_contract]. *)
Definition authenticator_contract (orc : Oracle) (hist : list Call)
    (authenticate : string → Prog (result (option Identity) AuthError))
    (valid_credential unrecognized_credential : string) : bool :=
  let '(hist, r) := run orc (authenticate valid_credential) hist in
  match r with Ok (Some _) => true | _ => false end &&
  bool_decide ((run orc (authenticate unrecognized_credential) hist).2 = Ok None).

(** The environment answers every pipeline as an executor of this kind does,
    in whatever state the executor is. *)
Definition pipelines_answered_by (X : Type) `{!CommandExecutor X} (orc : Oracle) : Prop :=
  ∀ h cmds hist, ∃ x : X, orc _ (Eff.Pipeline h cmds) hist = (pipeline cmds x).1.

(** The Fred executor, for an environment. *)
Definition fred_executor custom_raw is_connected redis_keyslot debug : CommandExecutor FredState :=
  {| execute := fred_execute custom_raw is_connected;
     pipeline := fred_pipeline custom_raw is_connected;
     transaction := fred_transaction custom_raw is_connected redis_keyslot debug |}.

(** ** The implementations are lawful *)

Lemma fake_take_length n x : length (fake_take n x).1 = n.
Proof.
  revert x. induction n as [|n IH]; intros x; [done|]. cbn.
  destruct (fake_next x) as [r x']. specialize (IH x'). destruct (fake_take n x') as [rs x'']. cbn in *. lia.
Qed.

#[export] Instance fake_lawful : LawfulExecutor FakeExecutor.
Proof.
  split.
  - intros cmds x. apply fake_take_length.
  - intros cmd x. cbn. unfold fake_pipeline, fake_execute. cbn. by destruct (fake_next _).
  - done.
Qed.

Section FredLawful.
Context (custom_raw : list Sent → Sent → result Resp3Frame FredError) (is_connected : list Sent → bool).
Context (redis_keyslot : bytes → Z) (debug : RespValue → string).

(** Each answer on the wire becomes one result. *)
Lemma fred_pipeline_length commands st : length (fred_pipeline custom_raw is_connected commands st).1 = length commands.
Proof.
  unfold fred_pipeline.
  match goal with |- context [foldl ?f (@nil (result Resp3Frame FredError), st) commands] => set (ask := f) end.
  match goal with |- context [foldl ?f (@nil (result RespValue ExecError), _) _] => set (convert := f) end.
  assert (∀ cmds answers st, length (foldl ask (answers, st) cmds).1 = length answers + length cmds) as Hask.
  { induction cmds as [|c cmds IH]; intros answers st0; [cbn; lia|]. cbn [foldl length].
    etrans; [apply IH|]. rewrite length_app. cbn. lia. }
  assert (∀ answers results st, length (foldl convert (results, st) answers).1 = length results + length answers)
    as Hconv.
  { induction answers as [|a answers IH]; intros results st0; [cbn; lia|]. cbn [foldl length].
    assert (∃ r st1, convert (results, st0) a = (results ++ [r], st1)) as (r & st1 & ->).
    { destruct a as [f|e]; cbn; [eauto|]. destruct (map_error is_connected e st0). eauto. }
    rewrite IH, length_app. cbn. lia. }
  specialize (Hask commands [] st). destruct (foldl ask ([], st) commands) as [answers st1].
  rewrite Hconv. exact Hask.
Qed.

Lemma fred_lawful :
  @LawfulExecutor _ (fred_executor custom_raw is_connected redis_keyslot debug).
Proof.
  split; cbn.
  - apply fred_pipeline_length.
  - intros cmd st. unfold fred_pipeline, fred_execute, raw. cbn.
    by destruct (custom_raw _ _).
  - done.
Qed.
End FredLawful.

Section BreakerLawful.
Context {X : Type} `{!CommandExecutor X}.
Context (b : BreakerParams) (clock : nat → Z).
#[local] Existing Instance breaker_executor.

(** The breaker executor answers what the inner executor answers. *)
Lemma breaker_transparent (g : Guarded X) :
  (∀ cmd, ∃ e i n, guarded_execute b clock cmd g =
     let '(r, x) := execute cmd (guarded_inner g) in (r, mkGuarded x e i n)) ∧
  (∀ cmds, ∃ e i n, guarded_pipeline b clock cmds g =
     let '(r, x) := pipeline cmds (guarded_inner g) in (r, mkGuarded x e i n)) ∧
  (∀ cmds, ∃ e i n, guarded_transaction b clock cmds g =
     let '(r, x) := transaction cmds (guarded_inner g) in (r, mkGuarded x e i n)).
Proof.
  unfold guarded_execute, guarded_pipeline, guarded_transaction, executor_execute, executor_pipeline,
    executor_transaction. split_and!.
  - intros cmd. destruct (execute cmd _) as [r x]. by destruct (executor_record _ _ _ _ _); eauto.
  - intros cmds. destruct (pipeline cmds _) as [r x]. by destruct (executor_record _ _ _ _ _); eauto.
  - intros cmds. destruct (transaction cmds _) as [r x].
    destruct r; by destruct (executor_record _ _ _ _ _); eauto.
Qed.

Lemma breaker_lawful `{!LawfulExecutor X} : @LawfulExecutor _ (breaker_executor b clock).
Proof.
  split; cbn.
  - intros cmds g. destruct (breaker_transparent g) as (_ & Hp & _). destruct (Hp cmds) as (e & i & n & ->).
    pose proof (pipeline_answers cmds (guarded_inner g)) as Hl. by destruct (pipeline cmds _).
  - intros cmd g. unfold guarded_pipeline, guarded_execute. rewrite pipeline_one.
    by destruct (execute cmd (guarded_inner g)) as [[r|r] x].
  - intros g. destruct (breaker_transparent g) as (_ & _ & Ht). destruct (Ht []) as (e & i & n & ->).
    pose proof (empty_transaction (guarded_inner g)) as He. by destruct (transaction [] _).
Qed.
End BreakerLawful.

Section ContractTransparent.
Context {X : Type} `{!CommandExecutor X}.
Context (b : BreakerParams) (clock : nat → Z).
#[local] Existing Instance breaker_executor.
Abbreviation guarded := (breaker_executor b clock).

Lemma expect_guarded (g : Guarded X) rest rest' :
  (∀ g', rest g' = rest' (guarded_inner g')) →
  (∀ cmd e, expect (@execute _ guarded cmd g) e rest = expect (execute cmd (guarded_inner g)) e rest') ∧
  (∀ cmds e, expect (@pipeline _ guarded cmds g) e rest = expect (pipeline cmds (guarded_inner g)) e rest') ∧
  (∀ cmds e, expect (@transaction _ guarded cmds g) e rest = expect (transaction cmds (guarded_inner g)) e rest').
Proof.
  intros Hrest. destruct (breaker_transparent b clock g) as (He & Hp & Ht). unfold expect. cbn. split_and!.
  - intros cmd e. destruct (He cmd) as (? & ? & ? & ->). destruct (execute _ _). cbn. by rewrite Hrest.
  - intros cmds e. destruct (Hp cmds) as (? & ? & ? & ->). destruct (pipeline _ _). cbn. by rewrite Hrest.
  - intros cmds e. destruct (Ht cmds) as (? & ? & ? & ->). destruct (transaction _ _). cbn. by rewrite Hrest.
Qed.

(** The breaker executor passes the contract exactly when its inner executor
    does. *)
Lemma contract_guarded (g : Guarded X) :
  @executor_contract _ guarded g = executor_contract (guarded_inner g).
Proof.
  unfold executor_contract. repeat (apply expect_guarded; intros ?; cbv beta).
  match goal with |- context [@transaction _ guarded ?cmds ?g'] =>
    destruct (proj2 (proj2 (breaker_transparent b clock g')) cmds) as (e & i & n & Ht);
    change (@transaction _ guarded cmds g') with (guarded_transaction b clock cmds g'); rewrite Ht end.
  destruct (transaction _ _) as [r x]. f_equal.
  change x with (guarded_inner (mkGuarded x e i n)) at 2.
  by repeat (apply expect_guarded; intros ?; cbv beta).
Qed.
End ContractTransparent.

(** ** A pipeline over a lawful executor *)

(** Charging fails only with [ResponseTooLarge]. *)
Lemma charge_within_depth_error enc d v b e :
  charge_within_depth v enc b d = Err e → e = ConversionError.ResponseTooLarge.
Proof.
  assert (∀ b n e, charge b n = Err e → e = ConversionError.ResponseTooLarge) as Hcharge.
  { intros b0 n e0. rewrite charge_spec. by case_decide; intros [=]. }
  assert (∀ n e, base64_encoded_len n = Err e → e = ConversionError.ResponseTooLarge) as Hlen.
  { intros n e0. unfold base64_encoded_len, ok_or. case_match; by intros [=]. }
  revert v b e. induction d as [|d IH]; intros v b e; [by destruct v; intros [= <-]|].
  destruct v as [s|s|z| |values]; [..|rewrite charge_array]; cbn [charge_within_depth];
    (destruct (charge b NODE_COST) as [b'|] eqn:Hc; [cbn|intros [= <-]; by eapply Hcharge]).
  - destruct (_ && _); [|by apply Hcharge].
    destruct (base64_encoded_len _) eqn:Hl; [cbn; by apply Hcharge|intros [= <-]; by eapply Hlen].
  - destruct (bool_decide _); [|by apply Hcharge].
    destruct (base64_encoded_len _) eqn:Hl; [cbn; by apply Hcharge|intros [= <-]; by eapply Hlen].
  - done.
  - done.
  - clear Hc. revert b'. induction values as [|v values IHv]; intros b'; [done|]. cbn.
    destruct (charge_within_depth v enc b' d) eqn:Hv; [cbn; apply IHv|intros [= <-]; by eapply IH].
Qed.

Lemma result_slot_error enc budget r e : result_slot enc budget r = Err e → e = AppError.ResponseTooLarge.
Proof.
  destruct r as [v|[]]; cbn; try (by intros [= <-]).
  destruct (charge_response_budget v enc budget) as [|e'] eqn:Hc; [done|].
  apply charge_within_depth_error in Hc as ->. by intros [= <-].
Qed.

(** With a result for each command that was sent, the slots line up. *)
Lemma pipeline_slots_lawful enc slots results budget acc :
  length results = length (filter (λ s, s = None) slots) →
  match pipeline_slots enc slots results budget acc with
  | Ok (response, rest) => rest = [] ∧ length response = length acc + length slots
  | Err e => e = AppError.ResponseTooLarge
  end.
Proof.
  revert results budget acc. induction slots as [|[denied|] slots IH]; intros results budget acc Hlen.
  - destruct results; [|done]. cbn. by rewrite Nat.add_0_r.
  - cbn [pipeline_slots]. rewrite filter_cons, decide_False in Hlen by done.
    specialize (IH results budget (acc ++ [denied]) Hlen). case_match; [|done]. case_match.
    rewrite length_app in IH. cbn in *. split; [tauto|lia].
  - rewrite filter_cons, decide_True in Hlen by done. destruct results as [|r results]; [done|].
    cbn [pipeline_slots]. destruct (result_slot enc budget r) as [[s b']|e] eqn:Hs; [|by eapply result_slot_error].
    cbn [fst snd]. specialize (IH results b' (acc ++ [s]) ltac:(cbn in Hlen; lia)). case_match; [|done]. case_match.
    rewrite length_app in IH. cbn in *. split; [tauto|lia].
Qed.

Lemma checked_slots_count sha256 who cs :
  Forall (λ c, check sha256 who c ≠ Err AclError.InvalidCommand) cs →
  length (filter (λ s, s = None) ((λ c, match check sha256 who c with
    | Err (AclError.Forbidden m) => Some (Slot.Error m) | _ => None end) <$> cs)) =
  length (filter (λ c, check sha256 who c = Ok tt) cs).
Proof.
  induction 1 as [|c cs Hc _ IH]; [done|]. rewrite fmap_cons, !filter_cons.
  destruct (check sha256 who c) as [[]|[|m]]; [|done|].
  - rewrite !decide_True by done. cbn. by rewrite IH.
  - by rewrite !decide_False by done.
Qed.

(** Every pipeline and transaction the parser accepts fits the command buffer
    of its pool's clients. *)
Lemma pipelines_fit_the_buffer number_to_string value_to_string from_slice config p b commands :
  (0 ≤ max_pipeline_commands (server config))%Z → (0 ≤ max_request_elements (server config))%Z →
  Parse.pipeline number_to_string value_to_string from_slice b
    (max_pipeline_commands (server config)) (max_request_elements (server config)) = Ok commands →
  (Z.of_nat (length commands) ≤ max_command_buffer_len (pool_options config p))%Z.
Proof.
  intros Hc He Hp. destruct (accepted_requests_are_bounded number_to_string value_to_string from_slice b _ _ He Hc)
    as [_ Hb]. destruct (Hb _ Hp) as [Hlen _]. cbn. lia.
Qed.

Section PipelineLawful.
Context {X : Type} `{!CommandExecutor X, !LawfulExecutor X}.
Context (sha256 : bytes → bytes).
Context (number_to_string : Number → string) (value_to_string : Value → result string unit).
Context (from_slice : bytes → Document) (cfg : Config) (who : Identity) (headers : Headers).

(** C20. A pipeline over a lawful executor: once it has been sent, the client
    gets a slot for every command of the request, or the response was too
    large; the executor never returns too few or too many results. *)
Theorem pipeline_answers_every_command (orc : Oracle) b commands
    (Hexec : pipelines_answered_by X orc)
    (Hbody : orc _ Eff.ReadBody [Call.Silent] = BodyRead.Body b)
    (Hparse : Parse.pipeline number_to_string value_to_string from_slice b
       (max_pipeline_commands (server cfg)) (max_request_elements (server cfg)) = Ok commands) :
  let '(hist, answer) := run orc
    (pipeline_execute sha256 number_to_string value_to_string from_slice cfg who headers) [] in
  ∀ h cmds, Call.Execute h cmds ∈ hist →
    answer = Err AppError.ResponseTooLarge ∨
    ∃ slots, answer = Ok (json_response (Body.Slots slots)) ∧ length slots = length commands.
Proof.
  destruct (run _ _ _) as [hist answer] eqn:Hrun. intros h cmds Hin. revert Hrun.
  unfold pipeline_execute, read_body. cbn -[charge_rate_limit acquire pipeline_and_release Parse.pipeline].
  rewrite Hbody. cbn -[charge_rate_limit acquire pipeline_and_release Parse.pipeline]. rewrite Hparse.
  cbn -[charge_rate_limit acquire pipeline_and_release]. rewrite run_bind.
  match goal with |- context [run orc (charge_rate_limit ?k ?n) ?h0] =>
    destruct (run_charge_quiet orc k n h0 eq_refl) as (hist1 & r & -> & Hquiet & _) end.
  assert (∀ hist', existsb backend_call hist' = false → Call.Execute h cmds ∉ hist') as Hno
    by (intros; by apply no_backend_call).
  destruct r as [[]|e0]; [|intros [= <- <-]; by apply Hno in Hin].
  destruct (pipeline_check sha256 who commands [] []) as [[allowed slots]|e] eqn:Hck;
    [|intros [= <- <-]; by apply Hno in Hin].
  apply pipeline_check_spec in Hck as (Ha & Hs & Hinv). cbn [app] in Ha, Hs.
  cbn -[acquire pipeline_and_release]. case_decide; [intros [= <- <-]; by apply Hno in Hin|].
  rewrite run_bind. destruct allowed as [|c0 allowed0] eqn:Hal.
  { cbn. repeat (case_match; cbn); intros [= <- <-]; by apply Hno in Hin. }
  rewrite <- Hal in *. clear Hal. unfold acquire, pipeline_and_release. cbn.
  destruct (orc _ (Eff.Acquire (pool who)) hist1) as [h0|e]; cbn; [|intros [= <- <-]; set_solver].
  match goal with |- context [orc _ (Eff.Pipeline h0 allowed) ?hh] => destruct (Hexec h0 allowed hh) as [x ->] end.
  pose proof (pipeline_slots_lawful (response_encoding headers) slots (pipeline allowed x).1
    (max_response_bytes (load (server cfg))) []) as Hslots.
  rewrite pipeline_answers, Ha, Hs, length_fmap, checked_slots_count in Hslots by done.
  rewrite <- Hs, <- Ha in Hslots. specialize (Hslots eq_refl).
  destruct (pipeline_slots _ _ _ _ _) as [[response rest]|e]; cbn.
  - destruct Hslots as [-> Hlen]. intros [= <- <-]. right. exists response. split; [done|].
    rewrite Hlen, Hs, length_fmap. done.
  - intros [= <- <-]. left. by rewrite Hslots.
Qed.
End PipelineLawful.

(** C27. The executor a pool hands out, the breaker executor around Fred's,
    is lawful: a pipeline has a result for each command, a pipeline of one
    command is that command, an empty transaction does nothing; and the breaker
    executor answers exactly what Fred's executor answers, so that it passes
    the shared executor contract if and only if Fred's does. *)
Theorem pool_executor_lawful custom_raw is_connected redis_keyslot debug (b : BreakerParams) (clock : nat → Z) :
  let fred := fred_executor custom_raw is_connected redis_keyslot debug in
  let guarded := @breaker_executor _ fred b clock in
  @LawfulExecutor _ guarded ∧
  ∀ g : Guarded FredState,
    @executor_contract _ guarded g = @executor_contract _ fred (guarded_inner g) ∧
    (∀ cmd, let '(r, g') := @execute _ guarded cmd g in
            (r, guarded_inner g') = fred_execute custom_raw is_connected cmd (guarded_inner g)) ∧
    (∀ cmds, let '(r, g') := @pipeline _ guarded cmds g in
             (r, guarded_inner g') = fred_pipeline custom_raw is_connected cmds (guarded_inner g)) ∧
    (∀ cmds, let '(r, g') := @transaction _ guarded cmds g in
             (r, guarded_inner g') =
               fred_transaction custom_raw is_connected redis_keyslot debug cmds (guarded_inner g)).
Proof.
  intros fred guarded. split; [by apply breaker_lawful, fred_lawful|].
  intros g. split; [apply contract_guarded|].
  destruct (@breaker_transparent _ fred b clock g) as (He & Hp & Ht). cbn. split_and!.
  - intros cmd. destruct (He cmd) as (? & ? & ? & ->). by destruct (fred_execute _ _ _ _) eqn:H; cbn; rewrite H.
  - intros cmds. destruct (Hp cmds) as (? & ? & ? & ->). by destruct (fred_pipeline _ _ _ _) eqn:H; cbn; rewrite H.
  - intros cmds. destruct (Ht cmds) as (? & ? & ? & ->).
    by destruct (fred_transaction _ _ _ _ _ _) eqn:H; cbn; rewrite H.
Qed.

(** ** Witnesses *)

Lemma fake_take_script l calls : fake_take (length l) (mkFake l calls) = (l, mkFake [] calls).
Proof. induction l as [|r l IH]; [done|]. cbn. by rewrite IH. Qed.

Lemma fake_constant (r : result RespValue ExecError) (cmds : list RedisCommand) :
  (λ _, r) <$> cmds = (pipeline cmds (fake_new ((λ _, r) <$> cmds))).1.
Proof.
  cbn. unfold fake_pipeline, fake_record, fake_new. cbn [replies fake_calls app].
  pose proof (fake_take_script ((λ _, r) <$> cmds) [cmds]) as Ht. rewrite length_fmap in Ht. by rewrite Ht.
Qed.

Lemma pipeline_answers_every_command_witness :
  ∃ slots, (run (sample_oracle EmptyString) (pipeline_execute (λ b, b) (λ _, "1") (λ _, Ok "{}")
    (λ _, sample_pipeline) sample_config sample_who (λ _, None)) []).2 = Ok (json_response (Body.Slots slots)) ∧
    length slots = 2.
Proof.
  pose proof (pipeline_answers_every_command (X:=FakeExecutor) (λ b, b) (λ _, "1") (λ _, Ok "{}") (λ _, sample_pipeline)
    sample_config sample_who (λ _, None) (sample_oracle EmptyString) EmptyString
    [mkRedisCommand "PING" []; mkRedisCommand "PING" []]) as H.
  destruct (run _ _ _) as [hist answer] eqn:Hrun.
  destruct (H ltac:(intros h cmds past; exists (fake_new ((λ _, Ok RespValue.Nil) <$> cmds)); apply fake_constant)
    eq_refl ltac:(vm_compute; reflexivity) (mkHandle 1) [mkRedisCommand "PING" []; mkRedisCommand "PING" []])
    as [Herr|(slots & -> & Hlen)].
  - vm_compute in Hrun. injection Hrun as <- _. set_solver.
  - exfalso. vm_compute in Hrun. injection Hrun as _ <-. discriminate Herr.
  - by exists slots.
Defined.

(** The script of the fake's own test passes the contract, also behind a
    closed breaker. *)
Definition contract_script : list (result RespValue ExecError) :=
  let ok := Ok (RespValue.Simple "OK") in
  let wrong := Err (ExecError.Redis "WRONGTYPE Operation against a key holding the wrong kind of value") in
  [ ok; wrong; ok; wrong; Ok (RespValue.Int 1); Ok RespValue.Nil; Ok (RespValue.Int 1); Ok (RespValue.Int 1); ok; ok;
    Err (ExecError.Redis "ERR value is not an integer or out of range"); ok;
    Err (ExecError.Redis "ERR unknown command 'SRH_UNKNOWN_COMMAND'");
    Ok RespValue.Nil; Ok RespValue.Nil; Err (ExecError.Redis "boom lowercase failure"); ok;
    Ok (RespValue.Bulk "OK") ].

Example fake_executor_satisfies_contract :
  executor_contract (fake_new contract_script) = true ∧
  @executor_contract _ (breaker_executor tripped_params (λ _, 0%Z))
    (mkGuarded (fake_new contract_script) (breaker_executor_new (mkPermit 0 false)) breaker_new 0) = true.
Proof. rewrite contract_guarded. split; vm_compute; reflexivity. Qed.

(** Static tokens meet the contract of authenticators: a configured token
    gives an identity, any other credential abstains, without a call. *)
Lemma static_auth_contract sha256 tokens (orc : Oracle) hist valid unrecognized :
  is_Some (tokens !! sha256 valid) → tokens !! sha256 unrecognized = None →
  authenticator_contract orc hist (static_authenticate sha256 (static_auth_new tokens)) valid unrecognized = true.
Proof.
  intros [t Ht] Hu. unfold authenticator_contract, static_authenticate, static_auth_new. cbn.
  by rewrite !map_lookup_imap, Ht, Hu.
Qed.

(** The fake key source answers from its keys and counts every lookup. *)
Lemma fake_jwks_answers kids j :
  let '(answers, j') := foldl (λ acc kid, let '(l, j) := acc in
    let '(r, j) := fake_key_for kid j in (l ++ [r], j)) ([], j) kids in
  answers = (λ kid, ok_or JwksError.NotFound (fake_keys j !! kid)) <$> kids ∧
  fake_lookups j' = fake_lookups j + length kids.
Proof.
  induction kids as [|kid kids IH] using rev_ind; [cbn; split; [done|lia]|].
  rewrite foldl_snoc. revert IH. destruct (foldl _ _ kids) as [l j'] eqn:Hf. intros [Hl Hn].
  assert (fake_keys j' = fake_keys j) as Hk.
  { clear Hl Hn. revert l j' Hf. induction kids as [|k kids IH] using rev_ind; intros l j'; [by intros [= <- <-]|].
    rewrite foldl_snoc. destruct (foldl _ _ kids) as [l0 j0]. intros [= <- <-]. cbn. by eapply IH. }
  cbn. rewrite Hk, Hl, fmap_app, length_app, Hn. split; [done|cbn; lia].
Qed.
