(* ===== verification/Server.v ===== *)
(** * The router and the admission layers of [src/src/http/mod.rs]

    Which handler a request reaches, under which limits, and what answers when
    a layer refuses it.  Routing itself is axum's and the admission layers are
    tower's: [StaticRouting] and [TowerLayers] state what the program relies on
    of each.  What becomes of a request ([Admission]) is computed by [admission]
    from the configured limits, in the order of the stack, and from the load, the
    declared length and the time its awaits take.  A request that times out or whose client
    goes away is dropped at an await point of its handler; dropping it drops
    the lease it holds.

    The theorems follow a request from the socket to the response: what it may
    do to the limiter and to the pools, and what the audit log says of it. *)
From S2P Require Import Prelude Domain Utf8 Acl Convert Parse Config RateLimit Ports Handlers Observability.

(** ** Routes *)

Module Method.
Inductive Method : Type := GET | HEAD | POST | Other (name : string).
End Method.
Abbreviation Method := Method.Method.

Module Endpoint.
Inductive Endpoint : Type := Command | Pipeline | MultiExec | Health | Ready.
End Endpoint.
Abbreviation Endpoint := Endpoint.Endpoint.

(** [post(handler)] and [get(handler)]. *)
Module MethodRouter.
Inductive MethodRouter : Type := Post (h : Endpoint) | Get (h : Endpoint).
End MethodRouter.
Abbreviation MethodRouter := MethodRouter.MethodRouter.

(** The two routers [router] merges: the first is behind the admission
    controls. *)
Definition api_routes : list (string * MethodRouter) :=
  [ ("/", MethodRouter.Post Endpoint.Command);
    ("/pipeline", MethodRouter.Post Endpoint.Pipeline);
    ("/multi-exec", MethodRouter.Post Endpoint.MultiExec) ].

Definition observability_routes : list (string * MethodRouter) :=
  [ ("/health", MethodRouter.Get Endpoint.Health); ("/ready", MethodRouter.Get Endpoint.Ready) ].

Definition routes : list (string * MethodRouter) := api_routes ++ observability_routes.

(** What axum finds for a path and a method. *)
Module Found.
Inductive Found : Type := Handler (h : Endpoint) | MethodNotAllowed (path : string) | NoRoute.
End Found.
Abbreviation Found := Found.Found.

(** axum's documented behaviour on routes without parameters: the paths match
    literally, [get] also serves HEAD, and another method on a known path
    goes to that path's fallback. *)
Class StaticRouting (dispatch : list (string * MethodRouter) → string → Method → Found) : Prop := {
  route_post table path h m : NoDup table.*1 → (path, MethodRouter.Post h) ∈ table →
    dispatch table path m =
      match m with Method.POST => Found.Handler h | _ => Found.MethodNotAllowed path end;
  route_get table path h m : NoDup table.*1 → (path, MethodRouter.Get h) ∈ table →
    dispatch table path m =
      match m with
      | Method.GET | Method.HEAD => Found.Handler h
      | _ => Found.MethodNotAllowed path
      end;
  route_none table path m : path ∉ table.*1 → dispatch table path m = Found.NoRoute;
}.

(** ** Requests and answers *)

Record HttpRequest : Type := mkRequest {
  method : Method;
  uri_path : string;
  headers : Headers;
  peer_is_loopback : bool;
}.

(** A response of the program, or the one of [RequestBodyLimitLayer]. *)
Module Served.
Inductive Served : Type := App (r : Response) | PayloadTooLarge.
End Served.
Abbreviation Served := Served.Served.

Definition served_status (s : Served) : Z :=
  match s with Served.App r => status r | Served.PayloadTooLarge => 413 end.

(** What the admission stack does with a request: refuse it because too many
    are in flight, refuse its declared length, or let it through; a request let
    through may be dropped by the timeout at the [n]th await of its handler. *)
Module Admission.
Inductive Admission : Type := Shed | BodyTooLarge | Admit (timeout_at : option nat).
End Admission.
Abbreviation Admission := Admission.Admission.

(** What the layers look at: the requests that hold a permit of the concurrency
    limit, the length the request declares, and how long each await of its
    handler takes, in their order. *)
Record Circumstances : Type := mkCircumstances {
  permits_held : Z;
  declared_length : option Z;
  await_durations : list N;
}.

(** The decisions of tower's layers: whether the concurrency limit has no permit
    left, which is when load-shed refuses; whether a declared length is over the
    limit; and at which await the timeout drops the handler. *)
Record Layers : Type := mkLayers {
  saturated : Z → Z → bool;
  too_long : Z → Z → bool;
  elapses : Z → list N → option nat;
}.

Definition total_time (ds : list N) : Z := foldr (λ d t, Z.of_N d + t)%Z 0%Z ds.

(** Their documented behaviour: as many permits as the limit; a length equal to
    the limit is accepted; the timeout fires in the await in which the time since
    the request began passes the limit. *)
Class TowerLayers (L : Layers) : Prop := {
  saturated_spec limit held : saturated L limit held = true ↔ (limit ≤ held)%Z;
  too_long_spec limit len : too_long L limit len = true ↔ (limit < len)%Z;
  elapses_in limit ds n : elapses L limit ds = Some n →
    n < length ds ∧ (n = O ∨ total_time (take n ds) ≤ limit)%Z ∧ (limit < total_time (take (S n) ds))%Z;
  elapses_not limit ds : elapses L limit ds = None → (ds = [] ∨ total_time ds ≤ limit)%Z;
}.

Lemma not_saturated L `{!TowerLayers L} limit held : (held < limit)%Z → saturated L limit held = false.
Proof. intros Hlt. apply not_true_is_false. rewrite saturated_spec. lia. Qed.

Lemma total_time_take n ds : (total_time (take n ds) ≤ total_time ds)%Z.
Proof.
  unfold total_time. revert n. induction ds as [|d ds IH]; intros n; [by destruct n|]. destruct n as [|n].
  - specialize (IH 0). rewrite take_0 in *. cbn in *. lia.
  - specialize (IH n). cbn in *. lia.
Qed.

Lemma elapses_over L `{!TowerLayers L} limit ds n : elapses L limit ds = Some n → (limit < total_time ds)%Z.
Proof. intros (_ & _ & Hn)%elapses_in. pose proof (total_time_take (S n) ds). lia. Qed.

(** The stack of [apply_admission_controls], outermost first: load-shed over the
    concurrency limit, the timeout, the body limit, each with its configured
    bound. *)
Definition admission (cfg : Config) (L : Layers) (c : Circumstances) : Admission :=
  let limits := server cfg in
  if saturated L (max_in_flight (load limits)) (permits_held c) then Admission.Shed
  else
    let timeout_at := elapses L (from_millis (http_timeout_ms limits)) (await_durations c) in
    match declared_length c with
    | Some len => if too_long L (max_body_bytes limits) len then Admission.BodyTooLarge else Admission.Admit timeout_at
    | None => Admission.Admit timeout_at
    end.

(** Layers that behave as documented. *)
Fixpoint elapses_at (limit : Z) (ds : list N) : option nat :=
  match ds with
  | [] => None
  | d :: ds => if (limit <? Z.of_N d)%Z then Some 0 else S <$> elapses_at (limit - Z.of_N d) ds
  end.
Definition tower : Layers := mkLayers (λ limit held, limit <=? held)%Z (λ limit len, limit <? len)%Z elapses_at.

Lemma elapses_at_spec limit ds :
  match elapses_at limit ds with
  | Some n => n < length ds ∧ (n = O ∨ total_time (take n ds) ≤ limit)%Z ∧ (limit < total_time (take (S n) ds))%Z
  | None => (ds = [] ∨ total_time ds ≤ limit)%Z
  end.
Proof.
  unfold total_time. revert limit. induction ds as [|d ds IH]; intros limit; [by left|].
  cbn. destruct (Z.ltb_spec limit (Z.of_N d)); cbn.
  { rewrite take_0. split_and!; [lia|by left|cbn; lia]. }
  specialize (IH (limit - Z.of_N d)%Z). destruct (elapses_at _ ds) as [n|]; cbn in *.
  - destruct IH as (? & [->|?] & ?); rewrite ?take_0 in *; cbn in *; (split_and!; [lia|right; cbn; lia|lia]).
  - right. destruct IH as [->|?]; cbn; lia.
Qed.

#[export] Instance tower_layers : TowerLayers tower.
Proof.
  split; intros limit; cbn.
  - intros held. apply Z.leb_le.
  - intros len. apply Z.ltb_lt.
  - intros ds n He. pose proof (elapses_at_spec limit ds) as Hs. by rewrite He in Hs.
  - intros ds He. pose proof (elapses_at_spec limit ds) as Hs. by rewrite He in Hs.
Qed.

(** The handler of [HandleErrorLayer]; the error is load-shed's [Overloaded]
    or the timeout's [Elapsed]. *)
Definition handle_layer_error (retry_after_secs : Z) (is_overloaded : bool) : Prog AppError :=
  do _ <- (if is_overloaded
           then perform (Eff.Emit (Note.Counter "srh_shed_total" (Some ("cause", "global_limit")) 1))
           else Ret tt);
  Ret (AppError.Overloaded retry_after_secs).

(** ** Running a request that may be dropped *)

(** The calls that are awaited; the others complete without suspending. *)
Definition awaits {X : Type} (e : Eff X) : bool :=
  match e with
  | Eff.ReadBody | Eff.Authenticate _ | Eff.KeyFor _ | Eff.IsActive _ | Eff.Acquire _
  | Eff.Readiness | Eff.Execute _ _ | Eff.Pipeline _ _ | Eff.Transaction _ _ => true
  | _ => false
  end.

(** What a call that never answers has already done. *)
Definition issued {X : Type} (e : Eff X) : list Call :=
  match e with
  | Eff.Authenticate bearer => [Call.Authenticate bearer]
  | Eff.Execute h cmd => [Call.Execute h [cmd]]
  | Eff.Pipeline h cmds => [Call.Execute h cmds]
  | Eff.Transaction h cmds => [Call.Transaction h cmds]
  | _ => []
  end.

(** What a call tells the observers. *)
Definition note_of {X : Type} (e : Eff X) : list Note :=
  match e with Eff.Emit n => [n] | _ => [] end.

(** Run a program to its end: the calls, the notes and the result. *)
Fixpoint run_noting {A : Type} (orc : Oracle) (p : Prog A) (hist : list Call) (notes : list Note) :
    list Call * list Note * A :=
  match p with
  | Ret a => (hist, notes, a)
  | Vis e k => let x := orc _ e hist in run_noting orc (k x) (call_of e x :: hist) (notes ++ note_of e)
  end.

(** Run a program, dropping it when it is suspended for the [n]th time: the
    calls, the notes and the result if it was not dropped. *)
Fixpoint run_until {A : Type} (n : option nat) (orc : Oracle) (p : Prog A)
    (hist : list Call) (notes : list Note) : list Call * list Note * option A :=
  match p with
  | Ret a => (hist, notes, Some a)
  | Vis e k =>
      match awaits e, n with
      | true, Some 0 => (issued e ++ hist, notes, None)
      | suspends, _ =>
          let n := if suspends then Nat.pred <$> n else n in
          let x := orc _ e hist in
          run_until n orc (k x) (call_of e x :: hist) (notes ++ note_of e)
      end
  end.

(** The lease a history leaves in the hands of the request. *)
Definition held (hist : list Call) : option ExecutorHandle :=
  foldr (λ c h, match c with
                | Call.Acquire _ (Some h) => Some h
                | Call.Release _ => None
                | _ => h
                end) None hist.

(** Dropping a suspended request drops its lease. *)
Definition drop_request (hist : list Call) : list Call :=
  match held hist with Some h => Call.Release h :: hist | None => hist end.

Section Server.
Context (sha256 : bytes → bytes).
Context (number_to_string : Number → string) (value_to_string : Value → result string unit).
Context (from_slice : bytes → Document).
Context (cfg : Config).
Context (dispatch : list (string * MethodRouter) → string → Method → Found).

(** The API handlers by endpoint; the others do not authenticate. *)
Definition api_handler (h : Endpoint) : option (Identity → Headers → Prog (result Response AppError)) :=
  match h with
  | Endpoint.Command => Some (command_execute sha256 number_to_string value_to_string from_slice cfg)
  | Endpoint.Pipeline => Some (pipeline_execute sha256 number_to_string value_to_string from_slice cfg)
  | Endpoint.MultiExec => Some (multi_exec_execute sha256 number_to_string value_to_string from_slice cfg)
  | Endpoint.Health | Endpoint.Ready => None
  end.

(** [Result<Response, AppError>::into_response]. *)
Definition respond (r : result Response AppError) : Prog Response :=
  match r with Ok r => Ret r | Err e => into_response e end.

(** An API endpoint: the extractors run first, and a rejection is answered
    without running the handler. *)
Definition api_request (handler : Identity → Headers → Prog (result Response AppError))
    (hs : Headers) : Prog Response :=
  do r <- (do? who <- from_request_parts hs; handler who hs);
  respond r.

(** The whole of a request's handling behind the layers. *)
Definition endpoint_program (req : HttpRequest) (found : Found) : Prog Response :=
  match found with
  | Found.Handler h =>
      match api_handler h with
      | Some handler => api_request handler (headers req)
      | None =>
          match h with
          | Endpoint.Ready => ready (peer_is_loopback req)
          | _ => Ret health
          end
      end
  | Found.MethodNotAllowed _ => Ret method_not_allowed
  | Found.NoRoute => Ret not_found
  end.

(** The routes of the API router are wrapped with the admission controls, the
    fallback for their other methods included. *)
Definition behind_admission (found : Found) : bool :=
  match found with
  | Found.Handler h => match api_handler h with Some _ => true | None => false end
  | Found.MethodNotAllowed path => contains api_routes.*1 path
  | Found.NoRoute => false
  end.

(** The answer when a layer refused the request. *)
Definition layer_refusal (is_overloaded : bool) : Prog Response :=
  do e <- handle_layer_error (shed_retry_after_secs (load (server cfg))) is_overloaded;
  into_response e.

(** One request through the router of [router]: the calls made, the notes and
    the answer. *)
Definition serve (adm : Admission) (req : HttpRequest) (orc : Oracle) (hist : list Call) :
    list Call * list Note * Served :=
  let found := dispatch routes (uri_path req) (method req) in
  let refuse overloaded hist notes :=
    let '(hist, notes, r) := run_noting orc (layer_refusal overloaded) hist notes in
    (hist, notes, Served.App r) in
  match (if behind_admission found then adm else Admission.Admit None) with
  | Admission.Shed => refuse true hist []
  | Admission.BodyTooLarge => (hist, [], Served.PayloadTooLarge)
  | Admission.Admit n =>
      match run_until n orc (endpoint_program req found) hist [] with
      | (hist, notes, Some r) => (hist, notes, Served.App r)
      | (hist, notes, None) => refuse false (drop_request hist) notes
      end
  end.
End Server.

(** ** Lemmas on runs *)

(** A run that is not dropped is a run. *)
Lemma run_noting_run {A} orc (p : Prog A) hist notes :
  ((run_noting orc p hist notes).1.1, (run_noting orc p hist notes).2) = run orc p hist.
Proof. revert hist notes. induction p as [a|X e k IH]; intros hist notes; [done|]. simpl. apply IH. Qed.

Lemma run_until_None {A} orc (p : Prog A) hist notes :
  run_until None orc p hist notes = let '(h, ns, a) := run_noting orc p hist notes in (h, ns, Some a).
Proof.
  revert hist notes. induction p as [a|X e k IH]; intros hist notes; [done|]. simpl.
  rewrite <- IH. by destruct (awaits e).
Qed.

(** Dropping happens between two calls of the run, or after the first part of
    one: what was done is an initial part of what the run does. *)
Lemma run_until_initial {A} n orc (p : Prog A) hist notes :
  let '(h, _, o) := run_until n orc p hist notes in
  (∃ later, (run orc p hist).1 = later ++ h) ∧
  (∀ a, o = Some a → run orc p hist = (h, a)).
Proof.
  revert n hist notes. induction p as [a|X e k IH]; intros n hist notes.
  { split; [by exists []|by intros a' [= <-]]. }
  simpl. set (x := orc X e hist).
  assert (∀ n', let '(h, _, o) := run_until n' orc (k x) (call_of e x :: hist) (notes ++ note_of e) in
    (∃ later, (run orc (k x) (call_of e x :: hist)).1 = later ++ h) ∧
    (∀ a, o = Some a → run orc (k x) (call_of e x :: hist) = (h, a))) as Hk by (intros n'; apply IH).
  assert (∃ later, (run orc (k x) (call_of e x :: hist)).1 = later ++ issued e ++ hist) as Hcut.
  { destruct (run_extends orc (k x) (call_of e x :: hist)) as [new ->].
    destruct e; simpl; eauto; eexists (new ++ [_]); by rewrite <- app_assoc. }
  by destruct (awaits e); [destruct n as [[|n]|]|]; try apply Hk.
Qed.

(** A program that is not dropped before its end runs as it does without a
    time limit. *)
Lemma run_until_not_dropped {A} n orc (p : Prog A) hist notes :
  let '(h, ns, o) := run_until n orc p hist notes in
  ∀ a, o = Some a → run_until None orc p hist notes = (h, ns, Some a).
Proof.
  revert n hist notes. induction p as [a|X e k IH]; intros n hist notes; [by intros a' [= <-]|].
  cbn [run_until fmap option_fmap option_map].
  by destruct (awaits e); [destruct n as [[|n]|]; [done|apply IH..]|apply IH].
Qed.

(** A part of a program is dropped, or it ends and the rest runs. *)
Lemma run_until_bind {A B} n orc (p : Prog A) (f : A → Prog B) hist notes :
  ∃ n', run_until n orc (prog_bind p f) hist notes =
    match run_until n orc p hist notes with
    | (h, ns, Some a) => run_until n' orc (f a) h ns
    | (h, ns, None) => (h, ns, None)
    end.
Proof.
  revert n hist notes. induction p as [a|X e k IH]; intros n hist notes; [by exists n|]. simpl.
  destruct (awaits e); [destruct n as [[|n]|]; [by exists None|apply IH..]|apply IH].
Qed.

(** A run depends on its history only through the oracle. *)
Definition after (past : list Call) (orc : Oracle) : Oracle := λ X e h, orc X e (h ++ past).

Lemma run_until_shift {A} n orc (p : Prog A) past hist notes :
  run_until n orc p (hist ++ past) notes =
    let '(h, ns, o) := run_until n (after past orc) p hist notes in (h ++ past, ns, o).
Proof.
  revert n hist notes. induction p as [a|X e k IH]; intros n hist notes; [done|]. simpl.
  change (after past orc X e hist) with (orc X e (hist ++ past)).
  assert (∀ n', run_until n' orc (k (orc X e (hist ++ past))) (call_of e (orc X e (hist ++ past)) :: hist ++ past)
      (notes ++ note_of e) =
    let '(h, ns, o) := run_until n' (after past orc) (k (orc X e (hist ++ past)))
      (call_of e (orc X e (hist ++ past)) :: hist) (notes ++ note_of e) in (h ++ past, ns, o)) as Hk
    by (intros n'; apply (IH _ n' (_ :: hist))).
  destruct (awaits e); [destruct n as [[|n]|]|]; try apply Hk. by rewrite app_assoc.
Qed.

(** ** Leases of requests that are dropped *)

(** A call that charges the caller's bucket or reaches a pool.  A probe, which
    charges nothing but may refill, create or evict a bucket, is the subject of
    [probes_vouched]. *)
Definition touches (c : Call) : bool :=
  match c with Call.Charge _ _ _ => true | _ => backend_call c end.

(** Every probe of a bucket comes right after an authentication that gave the
    identity whose bucket it is. *)
Fixpoint probes_vouched (gave : string → Identity → Prop) (hist : list Call) : Prop :=
  match hist with
  | [] => True
  | c :: earlier =>
      match c with
      | Call.Probe key _ =>
          ∃ bearer who, earlier = [Call.Authenticate bearer] ∧ gave bearer who ∧ key = bucket_key who
      | _ => True
      end ∧ probes_vouched gave earlier
  end.

Definition is_probe_call (c : Call) : bool := match c with Call.Probe _ _ => true | _ => false end.

Lemma probes_vouched_mono (P Q : string → Identity → Prop) hist :
  (∀ b w, P b w → Q b w) → probes_vouched P hist → probes_vouched Q hist.
Proof.
  intros HPQ. induction hist as [|c hist IH]; [done|]. cbn. intros [Hc Hh]. split; [|by apply IH].
  destruct c; try done. destruct Hc as (b & w & ? & ? & ?). exists b, w. auto.
Qed.

Lemma probes_vouched_initial P later hist : probes_vouched P (later ++ hist) → probes_vouched P hist.
Proof. induction later as [|c later IH]; [done|]. intros [_ Hh]. by apply IH. Qed.

Lemma probes_vouched_app P rest hist :
  Forall (λ c, is_probe_call c = false) rest → probes_vouched P hist → probes_vouched P (rest ++ hist).
Proof. intros Hr Hh. induction Hr as [|c rest Hc _ IH]; [done|]. split; [by destruct c|done]. Qed.

Lemma quiet_no_probe quiet : Forall (eq Call.Silent) quiet → Forall (λ c, is_probe_call c = false) quiet.
Proof. intros H. eapply Forall_impl; [exact H|]. by intros ? <-. Qed.

Lemma protocol_no_probe sha256 who hist :
  is_Some (phase_of sha256 who hist) → Forall (λ c, is_probe_call c = false) hist.
Proof.
  induction hist as [|c hist IH]; [done|]. intros [p Hp].
  change (phase_of sha256 who (c :: hist)) with (phase_of sha256 who hist ≫= phase_step sha256 who c) in Hp.
  destruct (phase_of sha256 who hist) as [p0|]; [|done]. constructor; [|by apply IH; eexists].
  by destruct c; cbn in Hp; try done; destruct p0.
Qed.

Lemma run_shift {A} orc (p : Prog A) past hist :
  run orc p (hist ++ past) = let '(h, a) := run (after past orc) p hist in (h ++ past, a).
Proof.
  revert hist. induction p as [a|X e k IH]; intros hist; [done|]. cbn. apply (IH _ (_ :: hist)).
Qed.

Lemma held_app h past : held past = None → held (h ++ past) = held h.
Proof. unfold held. intros Hp. rewrite foldr_app. by rewrite Hp. Qed.

Lemma held_untouched hist : existsb touches hist = false → held hist = None.
Proof.
  induction hist as [|c hist IH]; [done|]. simpl. intros [Hc Hh]%orb_false_iff.
  rewrite (IH Hh). by destruct c as [| | |? []| | | |].
Qed.

Section Dropped.
Context (sha256 : bytes → bytes) (who : Identity).
Abbreviation phase := (phase_of sha256 who).

Lemma held_phase hist p :
  phase hist = Some p →
  held hist = match p with Phase.Leased _ h | Phase.Used h => Some h | _ => None end.
Proof.
  revert p. induction hist as [|c hist IH]; [by intros p [= <-]|]. intros p. rewrite phase_cons.
  destruct (phase hist) as [p0|]; [|done]. specialize (IH p0 eq_refl). cbn.
  fold (held hist). rewrite IH.
  destruct c as [? ? []|? ?|?|? []|? ?|? ?|?|], p0; cbn; intros; repeat case_match; simplify_eq; try done; naive_solver.
Qed.

Lemma phase_initial later hist p : phase (later ++ hist) = Some p → is_Some (phase hist).
Proof.
  revert p. induction later as [|c later IH]; intros p; [eauto|]. cbn [app]. rewrite phase_cons.
  intros (p' & Hp' & _)%bind_Some. by eapply IH.
Qed.

(** A request dropped while it follows the protocol leaves no lease behind. *)
Lemma drop_settled hist : is_Some (phase hist) → settled (phase (drop_request hist)).
Proof.
  intros [p Hp]. unfold drop_request. rewrite (held_phase _ _ Hp).
  destruct p; rewrite ?phase_cons, ?Hp; cbn; [done|done|by rewrite decide_True..|done].
Qed.
End Dropped.

(** ** The notes of a program *)

(** Every note the program can leave satisfies [P]. *)
Fixpoint all_notes (P : Note → Prop) {A : Type} (p : Prog A) : Prop :=
  match p with
  | Ret _ => True
  | Vis e k => Forall P (note_of e) ∧ ∀ x, all_notes P (k x)
  end.

Lemma all_notes_bind P {A B} (p : Prog A) (f : A → Prog B) :
  all_notes P p → (∀ a, all_notes P (f a)) → all_notes P (prog_bind p f).
Proof. intros Hp Hf. induction p as [a|X e k IH]; simpl in *; [done|]. naive_solver. Qed.

Lemma all_notes_bind_err P {A B E} (p : Prog (result A E)) (f : A → Prog (result B E)) :
  all_notes P p → (∀ a, all_notes P (f a)) → all_notes P (do? a <- p; f a).
Proof. intros Hp Hf. apply all_notes_bind; [done|]. by intros [a|e]; [apply Hf|]. Qed.

Lemma run_until_notes P {A} n orc (p : Prog A) hist notes :
  all_notes P p → ∃ new, (run_until n orc p hist notes).1.2 = notes ++ new ∧ Forall P new.
Proof.
  revert n hist notes. induction p as [a|X e k IH]; intros n hist notes; cbn [all_notes run_until].
  { intros _. exists []. by rewrite app_nil_r. }
  intros [He Hk].
  assert (∀ n' x, ∃ new, (run_until n' orc (k x) (call_of e x :: hist) (notes ++ note_of e)).1.2 = notes ++ new ∧
    Forall P new) as Hstep.
  { intros n' x. destruct (IH x n' (call_of e x :: hist) (notes ++ note_of e) (Hk x)) as (new & -> & Hnew).
    exists (note_of e ++ new). rewrite app_assoc. split; [done|by apply Forall_app]. }
  destruct (awaits e); [destruct n as [[|n]|]|]; try apply Hstep. exists []. by rewrite app_nil_r.
Qed.

(** Split a program at its binds, conditions and matches. *)
Create HintDb notes.
Ltac all_notes_step :=
  match goal with
  | |- all_notes _ (Ret _) => exact I
  | |- all_notes _ (perform _) => split; [cbn [note_of]; repeat constructor|intros; exact I]
  | |- all_notes _ (prog_bind _ (λ r, match r with Ok _ => _ | Err err => Ret (Err err) end)) =>
      apply all_notes_bind_err; [|intros ?]
  | |- all_notes _ (prog_bind _ _) => apply all_notes_bind; [|intros ?]
  | |- all_notes _ (match ?x with _ => _ end) => destruct x
  | |- all_notes _ (let _ := _ in _) => cbv zeta
  end.
Ltac all_notes_auto := repeat (solve [eauto with notes] || all_notes_step).

(** A note of a request of [known]: the identity is the caller's, and a counter
    is one of those registered when the server starts, counted upwards. *)
Definition note_ok (known : option Identity) (n : Note) : Prop :=
  match n with
  | Note.AuditIdentity who => Some who = known
  | Note.AuditCommand _ _ => is_Some known
  | Note.Counter name label by_ =>
      Emission.Register (counter_key name label) ∈ register_metrics [] ∧ (name ∉ own_metrics) ∧ (0 < by_)%Z
  end.

#[export] Instance emission_eq_dec : EqDecision Emission.
Proof. unfold EqDecision, Decision. repeat decide equality. Defined.

Ltac registered_note :=
  split; [constructor; [cbn [note_ok]; split_and!;
    [apply (bool_decide_unpack _); vm_compute; exact I | apply (bool_decide_unpack _); vm_compute; exact I | lia]
    | constructor] | intros; exact I].

Section Notes.
Context (known : option Identity).
Abbreviation quiet := (all_notes (note_ok known)).

Lemma record_debt_notes : quiet record_debt_forgiveness.
Proof.
  unfold record_debt_forgiveness. apply all_notes_bind; [by split|]. intros count.
  case_decide; [registered_note|done].
Qed.

Lemma rate_limited_notes r : quiet (rate_limited r).
Proof. unfold rate_limited. destruct r; [done|]. apply all_notes_bind; [registered_note|done]. Qed.

Lemma charge_notes key n : quiet (charge_rate_limit key n).
Proof. unfold charge_rate_limit. pose proof record_debt_notes. pose proof rate_limited_notes. all_notes_auto. Qed.

Lemma into_response_notes e : quiet (into_response e).
Proof.
  unfold into_response. apply all_notes_bind; [destruct e; try done; registered_note|].
  intros []. by destruct e.
Qed.

Lemma respond_notes r : quiet (respond r).
Proof. destruct r; [done|]. apply into_response_notes. Qed.

Lemma unauthorized_notes {A} kind :
  kind ∈ ["missing_or_malformed"; "rejected"] → quiet (reject (A:=A) kind).
Proof.
  intros Hk. unfold reject, unauthorized.
  repeat (apply elem_of_cons in Hk as [->|Hk]); [..|by apply elem_of_nil in Hk];
    (apply all_notes_bind; [|done]); (apply all_notes_bind; [registered_note|done]).
Qed.

Lemma extractor_notes hs : quiet (from_request_parts hs).
Proof.
  unfold from_request_parts.
  destruct (hs "authorization") as [h|]; [|apply unauthorized_notes; set_solver].
  destruct (split_once_space h) as [[scheme bearer]|]; [|apply unauthorized_notes; set_solver].
  destruct (negb _ || _); [apply unauthorized_notes; set_solver|].
  apply all_notes_bind; [by split|]. intros [[who|]|e]; [|apply unauthorized_notes; set_solver|].
  - pose proof record_debt_notes. pose proof rate_limited_notes. all_notes_auto.
  - apply all_notes_bind; [|done]. unfold map_auth_error.
    destruct e; (apply all_notes_bind; [registered_note|done]).
Qed.

Lemma refusal_notes cfg overloaded : quiet (layer_refusal cfg overloaded).
Proof.
  unfold layer_refusal, handle_layer_error. apply all_notes_bind; [|intros; apply into_response_notes].
  apply all_notes_bind; [destruct overloaded; [registered_note|done]|done].
Qed.
End Notes.
#[export] Hint Resolve charge_notes into_response_notes respond_notes extractor_notes refusal_notes : notes.

Section ApiNotes.
Context (sha256 : bytes → bytes).
Context (number_to_string : Number → string) (value_to_string : Value → result string unit).
Context (from_slice : bytes → Document) (cfg : Config).

(** The handlers note the caller and nobody else. *)
Lemma handler_notes h handler who hs :
  api_handler sha256 number_to_string value_to_string from_slice cfg h = Some handler →
  all_notes (note_ok (Some who)) (handler who hs).
Proof.
  destruct h; intros [= <-];
    [unfold command_execute|unfold pipeline_execute|unfold multi_exec_execute];
    unfold read_body, acquire, execute_and_release, pipeline_and_release, transaction_and_release;
    all_notes_auto; try (by constructor); cbn; eauto.
Qed.
End ApiNotes.

(** ** One API request *)

Lemma run_until_bind_assoc {A B C} n orc (p : Prog A) (f : A → Prog B) (g : B → Prog C) hist notes :
  ∃ n', run_until n orc (prog_bind (prog_bind p f) g) hist notes =
    match run_until n orc p hist notes with
    | (h, ns, Some a) => run_until n' orc (prog_bind (f a) g) h ns
    | (h, ns, None) => (h, ns, None)
    end.
Proof.
  revert n hist notes. induction p as [a|X e k IH]; intros n hist notes; [by exists n|]. simpl.
  destruct (awaits e); [destruct n as [[|n]|]; [by exists None|apply IH..]|apply IH].
Qed.

(** Programs that only leave notes. *)
Definition silent_run {A} (p : Prog A) : Prop :=
  ∀ n orc hist notes, ∃ quiet a ns, run_until n orc p hist notes = (quiet ++ hist, ns, Some a) ∧
    Forall (eq Call.Silent) quiet.

Lemma into_response_silent e : silent_run (into_response e).
Proof.
  intros n orc hist notes. destruct e; cbn;
    first [by eexists [], _, _; split; [done|constructor] | by eexists [_], _, _; split; [done|repeat constructor]].
Qed.

Lemma respond_silent r : silent_run (respond r).
Proof. destruct r; [|apply into_response_silent]. intros n orc hist notes. by eexists [], _, _; split; [|constructor]. Qed.

Lemma refusal_silent cfg overloaded : silent_run (layer_refusal cfg overloaded).
Proof.
  intros n orc hist notes. destruct overloaded; cbn;
    first [by eexists [], _, _; split; [done|constructor] | by eexists [_], _, _; split; [done|repeat constructor]].
Qed.

Lemma quiet_untouched quiet hist :
  Forall (eq Call.Silent) quiet → existsb touches (quiet ++ hist) = existsb touches hist.
Proof. by induction 1 as [|c quiet <- _ IH]. Qed.

Lemma untouched_initial later hist :
  existsb touches (later ++ hist) = false → existsb touches hist = false.
Proof. rewrite List.existsb_app. by intros [_ ?]%orb_false_iff. Qed.

(** The extractor touches neither buckets nor pools. *)
Lemma extractor_untouched orc hs : existsb touches (run orc (from_request_parts hs) []).1 = false.
Proof.
  unfold from_request_parts. destruct (hs "authorization") as [h|]; [|done].
  destruct (split_once_space h) as [[scheme bearer]|]; [|done].
  destruct (negb _ || _); [done|]. rewrite run_bind. cbn [perform run call_of].
  destruct (orc _ (Eff.Authenticate bearer) []) as [[who|]|e]; [|done|by destruct e].
  rewrite run_bind. cbn [perform run call_of].
  destruct (orc _ (Eff.Probe _) _) as [[]|e]; cbn; by case_decide.
Qed.

Section Api.
Context (sha256 : bytes → bytes).
Context (number_to_string : Number → string) (value_to_string : Value → result string unit).
Context (from_slice : bytes → Document) (cfg : Config).
Abbreviation api_handler := (api_handler sha256 number_to_string value_to_string from_slice cfg).

(** The handler with its response follows the protocol. *)
Lemma handler_settled h handler who hs orc :
  api_handler h = Some handler →
  settled (phase_of sha256 who (run orc (do r <- handler who hs; respond r) []).1).
Proof.
  intros Hh. assert (settled (phase_of sha256 who (run orc (handler who hs) []).1)) as Hs.
  { destruct h; cbn in Hh; simplify_eq; [apply command_protocol|apply pipeline_protocol|apply multi_exec_protocol]. }
  rewrite run_bind. destruct (run orc (handler who hs) []) as [hist r]. cbn [fst] in Hs.
  pose proof (run_noting_run orc (respond r) hist []) as <-.
  destruct (respond_silent r None orc hist []) as (q & a & ns & Hr & Hq).
  rewrite run_until_None in Hr. destruct (run_noting _ _ _ _) as [[h0 ns0] a0]. simplify_eq/=.
  by rewrite phase_quiet.
Qed.

Lemma handler_notes_identity h handler who hs n orc hist notes {B} (g : _ → Prog B) :
  api_handler h = Some handler →
  Note.AuditIdentity who ∈ (run_until n orc (prog_bind (handler who hs) g) hist notes).1.2.
Proof.
  intros Hh. assert (∃ rest, handler who hs = prog_bind (perform (Eff.Emit (Note.AuditIdentity who))) rest)
    as [rest ->] by (destruct h; cbn in Hh; simplify_eq; eexists; reflexivity).
  cbn. match goal with |- context [run_until n orc ?q ?h ?ns] =>
    destruct (run_until_notes (λ _, True) n orc q h ns) as (new & -> & _); [|set_solver] end.
  match goal with |- all_notes _ ?q => induction q as [|X e k IH] end; [done|].
  split; [by apply Forall_true|done].
Qed.

(** The extractor probes the bucket of the identity it was given, and nothing
    else of an API request probes. *)
Definition was_given (orc : Oracle) (bearer : string) (who : Identity) : Prop :=
  orc _ (Eff.Authenticate bearer) [] = Ok (Some who).

Lemma extractor_probes orc hs : probes_vouched (was_given orc) (run orc (from_request_parts hs) []).1.
Proof.
  unfold from_request_parts. destruct (hs "authorization") as [h|]; [|done].
  destruct (split_once_space h) as [[scheme bearer]|]; [|done].
  destruct (negb _ || _); [done|]. rewrite run_bind. cbn [perform run call_of].
  destruct (orc _ (Eff.Authenticate bearer) []) as [[who|]|e] eqn:Ha; [|done|by destruct e].
  rewrite run_bind. cbn [perform run call_of].
  assert (∃ b w, [Call.Authenticate bearer] = [Call.Authenticate b] ∧ was_given orc b w ∧ bucket_key who = bucket_key w)
    as Hgiven by by exists bearer, who.
  destruct (orc _ (Eff.Probe _) _) as [[]|e]; cbn; by case_decide.
Qed.

Lemma api_probes h handler hs orc :
  api_handler h = Some handler → probes_vouched (was_given orc) (run orc (api_request handler hs) []).1.
Proof.
  intros Hh. pose proof (extractor_probes orc hs) as Hext. unfold api_request. rewrite !run_bind.
  destruct (run orc (from_request_parts hs) []) as [asked [who|e]]; cbn [fst] in Hext.
  - pose proof (handler_settled h handler who hs (after asked orc) Hh) as Hset. rewrite run_bind in Hset.
    pose proof (run_shift orc (handler who hs) asked []) as Hs1. cbn [app] in Hs1. rewrite Hs1.
    destruct (run (after asked orc) (handler who hs) []) as [h1 r].
    pose proof (run_shift orc (respond r) asked h1) as Hs2. rewrite Hs2.
    destruct (run (after asked orc) (respond r) h1) as [h2 a]. cbn in *.
    apply probes_vouched_app; [|done]. apply (protocol_no_probe sha256 who). by destruct (phase_of sha256 who h2).
  - cbn [run]. pose proof (run_noting_run orc (respond (Err e)) asked []) as <-.
    destruct (respond_silent (Err e) None orc asked []) as (q & a & ns & Hr & Hq).
    rewrite run_until_None in Hr. destruct (run_noting _ _ _ _) as [[h0 ns0] a0]. simplify_eq/=.
    apply probes_vouched_app; [by apply quiet_no_probe|done].
Qed.

(** A request of an API endpoint, dropped at the [n]th suspension or not:
    either the extractor did not let it through, or it is its handler's. *)
Lemma api_run h handler hs n orc :
  api_handler h = Some handler →
  let '(hist, notes, o) := run_until n orc (api_request handler hs) [] [] in
  (existsb touches hist = false ∧ Forall (note_ok None) notes) ∨
  (∃ who asked done_, run orc (from_request_parts hs) [] = (asked, Ok who) ∧
     hist = done_ ++ asked ∧ is_Some (phase_of sha256 who done_) ∧
     (is_Some o → settled (phase_of sha256 who done_)) ∧
     Forall (note_ok (Some who)) notes ∧ Note.AuditIdentity who ∈ notes).
Proof.
  intros Hh. unfold api_request.
  match goal with |- context [run_until n orc (prog_bind (prog_bind ?p ?f) ?g) ?h ?ns] =>
    destruct (run_until_bind_assoc n orc p f g h ns) as [n' ->] end.
  destruct (run_until n orc (from_request_parts hs) [] []) as [[h1 ns1] o1] eqn:Hext.
  pose proof (run_until_initial n orc (from_request_parts hs) [] []) as Hi. rewrite Hext in Hi.
  destruct Hi as [[later Hlater] Hall].
  pose proof (extractor_untouched orc hs) as Hun. rewrite Hlater in Hun. apply untouched_initial in Hun.
  assert (∀ k, Forall (note_ok k) ns1) as Hns1.
  { intros k. destruct (run_until_notes (note_ok k) n orc (from_request_parts hs) [] []) as (new & Hnew & ?);
      [apply extractor_notes|]. rewrite Hext in Hnew. cbn in Hnew. by rewrite Hnew. }
  destruct o1 as [[who|e]|]; [| |by left].
  2:{ destruct (respond_silent (Err e) n' orc h1 ns1) as (q & a & ns & Hr & Hq). cbn [prog_bind].
      destruct (run_until_notes (note_ok None) n' orc (respond (Err e)) h1 ns1) as (new & Hnew & Hok);
        [apply respond_notes|]. rewrite Hr in *. cbn in Hnew. subst ns. rewrite quiet_untouched by done.
      left. split; [done|by apply Forall_app]. }
  pose proof (handler_notes_identity h handler who hs n' orc h1 ns1 (λ r, respond r) Hh) as Hid.
  pose proof (run_until_shift n' orc (do r <- handler who hs; respond r) h1 [] ns1) as Hshift. cbn [app] in Hshift.
  destruct (run_until_notes (note_ok (Some who)) n' orc (do r <- handler who hs; respond r) h1 ns1)
    as (new & Hnew & Hok).
  { apply all_notes_bind; [by eapply handler_notes|apply respond_notes]. }
  pose proof (run_until_initial n' (after h1 orc) (do r <- handler who hs; respond r) [] ns1) as Hi.
  pose proof (handler_settled h handler who hs (after h1 orc) Hh) as Hset.
  destruct (run_until n' (after h1 orc) _ [] ns1) as [[h2 ns2] o2]. destruct Hi as [[later2 Hlater2] Hall2].
  rewrite Hshift in *. cbn in Hnew, Hid. subst ns2.
  right. exists who, h1, h2. rewrite Hlater2 in Hset. split_and!; [by apply Hall|done| | |by apply Forall_app|done].
  - destruct (phase_of sha256 who (later2 ++ h2)) eqn:Hp; [|done]. by eapply phase_initial.
  - intros [a ->]. specialize (Hall2 a eq_refl). rewrite Hall2 in Hlater2. cbn in Hlater2.
    rewrite <- Hlater2 in Hset. done.
Qed.
End Api.

(** ** Routing *)

Lemma routes_NoDup : NoDup routes.*1.
Proof. apply (bool_decide_unpack _). vm_compute. exact I. Qed.

Section Routing.
Context (dispatch : list (string * MethodRouter) → string → Method → Found) `{!StaticRouting dispatch}.

(** What the routes of the program mean. *)
Definition expected_route (path : string) (m : Method) : Found :=
  let post h := match m with Method.POST => Found.Handler h | _ => Found.MethodNotAllowed path end in
  let get h := match m with
               | Method.GET | Method.HEAD => Found.Handler h
               | _ => Found.MethodNotAllowed path
               end in
  if decide (path = "/") then post Endpoint.Command
  else if decide (path = "/pipeline") then post Endpoint.Pipeline
  else if decide (path = "/multi-exec") then post Endpoint.MultiExec
  else if decide (path = "/health") then get Endpoint.Health
  else if decide (path = "/ready") then get Endpoint.Ready
  else Found.NoRoute.

Lemma dispatch_expected path m : dispatch routes path m = expected_route path m.
Proof.
  unfold expected_route.
  destruct (decide (path = "/")) as [->|]; [by apply route_post; [apply routes_NoDup|repeat constructor]|].
  destruct (decide (path = "/pipeline")) as [->|]; [by apply route_post; [apply routes_NoDup|repeat constructor]|].
  destruct (decide (path = "/multi-exec")) as [->|]; [by apply route_post; [apply routes_NoDup|repeat constructor]|].
  destruct (decide (path = "/health")) as [->|]; [by apply route_get; [apply routes_NoDup|repeat constructor]|].
  destruct (decide (path = "/ready")) as [->|]; [by apply route_get; [apply routes_NoDup|repeat constructor]|].
  apply route_none. cbn. repeat (apply not_elem_of_cons; split; [done|]). apply not_elem_of_nil.
Qed.
End Routing.

Section RouteCases.
Context (sha256 : bytes → bytes).
Context (number_to_string : Number → string) (value_to_string : Value → result string unit).
Context (from_slice : bytes → Document) (cfg : Config).

(** The three kinds of paths. *)
Lemma expected_route_cases path m :
  let limited := behind_admission sha256 number_to_string value_to_string from_slice cfg (expected_route path m) in
  (path ∉ routes.*1 → expected_route path m = Found.NoRoute) ∧
  (path ∈ api_routes.*1 → limited = true ∧
     (m ≠ Method.POST → expected_route path m = Found.MethodNotAllowed path)) ∧
  (path ∈ observability_routes.*1 → limited = false ∧
     (m ≠ Method.GET → m ≠ Method.HEAD → expected_route path m = Found.MethodNotAllowed path)).
Proof.
  split_and!.
  - cbn. rewrite !not_elem_of_cons. intros (? & ? & ? & ? & ? & _). unfold expected_route.
    by repeat rewrite decide_False by done.
  - cbn. intros Hp. repeat (apply elem_of_cons in Hp as [->|Hp]); [..|by apply elem_of_nil in Hp];
      by destruct m.
  - cbn. intros Hp. repeat (apply elem_of_cons in Hp as [->|Hp]); [..|by apply elem_of_nil in Hp];
      by destruct m.
Qed.

Lemma api_route_post path m h :
  expected_route path m = Found.Handler h →
  is_Some (api_handler sha256 number_to_string value_to_string from_slice cfg h) →
  m = Method.POST ∧ path ∈ api_routes.*1.
Proof.
  intros Hd [handler Hh]. unfold expected_route in Hd.
  repeat case_decide; destruct m; simplify_eq/=; (split; [done|repeat constructor]).
Qed.
End RouteCases.

Section Serve.
Context (sha256 : bytes → bytes).
Context (number_to_string : Number → string) (value_to_string : Value → result string unit).
Context (from_slice : bytes → Document) (cfg : Config).
Context (dispatch : list (string * MethodRouter) → string → Method → Found) `{!StaticRouting dispatch}.
Abbreviation serve := (serve sha256 number_to_string value_to_string from_slice cfg dispatch).

(** A refusal by a layer adds nothing but notes. *)
Lemma refusal_run overloaded orc hist notes :
  ∃ quiet new r, run_noting orc (layer_refusal cfg overloaded) hist notes = (quiet ++ hist, notes ++ new, r) ∧
    Forall (eq Call.Silent) quiet ∧ (∀ known, Forall (note_ok known) new) ∧
    r = mkResponse 503 (Some (shed_retry_after_secs (load (server cfg)))) (Body.Error "Server overloaded").
Proof.
  destruct (run_noting orc (layer_refusal cfg overloaded) hist notes) as [[h ns] r] eqn:Hr.
  assert (∀ known, ∃ new, ns = notes ++ new ∧ Forall (note_ok known) new) as Hn.
  { intros known. destruct (run_until_notes (note_ok known) None orc (layer_refusal cfg overloaded) hist notes)
      as (new & Hnew & ?); [apply refusal_notes|]. rewrite run_until_None, Hr in Hnew. by exists new. }
  destruct (refusal_silent cfg overloaded None orc hist notes) as (q & a & ns' & Hs & Hq).
  rewrite run_until_None, Hr in Hs. simplify_eq. destruct (Hn None) as (new & -> & _).
  exists q, new, a. split_and!; [done|done| |].
  - intros known. destruct (Hn known) as (new' & ?%app_inv_head & ?). by subst.
  - destruct overloaded; cbn in Hr; by simplify_eq.
Qed.

(** Endpoints without authentication: no bucket, no lease, no notes. *)
Lemma open_endpoint_run n orc req found :
  behind_admission sha256 number_to_string value_to_string from_slice cfg found = false ∨
    (∃ path, found = Found.MethodNotAllowed path) →
  let '(h, ns, _) := run_until n orc
    (endpoint_program sha256 number_to_string value_to_string from_slice cfg req found) [] [] in
  existsb touches h = false ∧ ns = [].
Proof.
  intros Hf. destruct found as [h| |]; [|done|done]. destruct Hf as [Hf|[? ?]]; [|done].
  destruct h; try done. cbn. unfold ready. destruct (negb _); [done|].
  cbn. by destruct n as [[|n]|].
Qed.

Lemma serve_spec adm req orc :
  let '(hist, notes, served) := serve adm req orc [] in
  (existsb touches hist = false ∧ Forall (note_ok None) notes) ∨
  (∃ who asked done_ h n, dispatch routes (uri_path req) (method req) = Found.Handler h ∧
     is_Some (api_handler sha256 number_to_string value_to_string from_slice cfg h) ∧ adm = Admission.Admit n ∧
     run orc (from_request_parts (headers req)) [] = (asked, Ok who) ∧
     hist = done_ ++ asked ∧ settled (phase_of sha256 who done_) ∧
     Forall (note_ok (Some who)) notes ∧ Note.AuditIdentity who ∈ notes).
Proof.
  unfold serve. cbv beta zeta. destruct (dispatch routes (uri_path req) (method req)) as [h|path|] eqn:Hd.
  1: destruct (api_handler sha256 number_to_string value_to_string from_slice cfg h) as [handler|] eqn:Hh.
  - cbn [behind_admission]. rewrite Hh. destruct adm as [| |n].
    + destruct (refusal_run true orc [] []) as (q & new & r & -> & Hq & Hn & _).
      left. by rewrite quiet_untouched.
    + by left.
    + cbn [endpoint_program]. rewrite Hh. pose proof (api_run _ _ _ _ _ h handler (headers req) n orc Hh) as Hr.
      destruct (run_until n orc _ [] []) as [[hist notes] [a|]].
      { destruct Hr as [Hr|(who & asked & done_ & Hext & -> & _ & Hset & ? & ?)]; [by left|right].
        exists who, asked, done_, h, n. split_and!; eauto. }
      destruct (refusal_run false orc (drop_request hist) notes) as (q & new & r & -> & Hq & Hn & _).
      destruct Hr as [[Hun Hns]|(who & asked & done_ & Hext & -> & Hph & _ & Hns & Hid)]; [left|right].
      { rewrite quiet_untouched by done. unfold drop_request. rewrite held_untouched by done.
        split; [done|by apply Forall_app]. }
      exists who, asked, (q ++ drop_request done_), h, n. split_and!; eauto.
      * unfold drop_request. rewrite held_app.
        { destruct (held done_); by rewrite <- app_assoc. }
        apply held_untouched. pose proof (extractor_untouched orc (headers req)) as Hu. by rewrite Hext in Hu.
      * rewrite phase_quiet by done. by apply drop_settled.
      * by apply Forall_app.
      * set_solver.
  - cbn [behind_admission]. rewrite Hh.
    pose proof (open_endpoint_run None orc req (Found.Handler h)) as Ho. cbn [behind_admission] in Ho.
    rewrite Hh in Ho. specialize (Ho (or_introl eq_refl)).
    destruct (run_until None orc _ [] []) as [[hist notes] [a|]] eqn:Hr.
    2:{ rewrite run_until_None in Hr. by destruct (run_noting _ _ _ _) as [[? ?] ?]. }
    destruct Ho as [? ->]. by left.
  - destruct (if behind_admission _ _ _ _ _ _ then _ else _) as [| |n]; [|by left..].
    destruct (refusal_run true orc [] []) as (q & new & r & -> & Hq & Hn & _). left. by rewrite quiet_untouched.
  - by left.
Qed.

(** No other endpoint probes. *)
Lemma endpoint_probes orc req found :
  probes_vouched (was_given orc)
    (run orc (endpoint_program sha256 number_to_string value_to_string from_slice cfg req found) []).1.
Proof.
  destruct found as [h| |]; [|done|done].
  destruct (api_handler sha256 number_to_string value_to_string from_slice cfg h) as [handler|] eqn:Hh.
  - cbn [endpoint_program]. rewrite Hh. by eapply api_probes.
  - destruct h; try done. cbn. unfold ready. by destruct (negb _).
Qed.

Lemma drop_request_probes P hist : probes_vouched P hist → probes_vouched P (drop_request hist).
Proof. unfold drop_request. by destruct (held hist). Qed.

Lemma serve_probes adm req orc : probes_vouched (was_given orc) (serve adm req orc []).1.1.
Proof.
  assert (∀ over hist notes, probes_vouched (was_given orc) hist →
    probes_vouched (was_given orc)
      (let '(h, ns, r) := run_noting orc (layer_refusal cfg over) hist notes in (h, ns, Served.App r)).1.1) as Href.
  { intros over hist notes Hh. destruct (refusal_run over orc hist notes) as (q & new & r & -> & Hq & _).
    apply probes_vouched_app; [by apply quiet_no_probe|done]. }
  unfold serve. cbv beta zeta. destruct (if behind_admission _ _ _ _ _ _ then _ else _) as [| |n]; [by apply Href|done|].
  pose proof (run_until_initial n orc (endpoint_program sha256 number_to_string value_to_string from_slice cfg req
    (dispatch routes (uri_path req) (method req))) [] []) as Hi.
  pose proof (endpoint_probes orc req (dispatch routes (uri_path req) (method req))) as Hp.
  destruct (run_until n orc _ [] []) as [[hist notes] o]. destruct Hi as [[later Hlater] _]. rewrite Hlater in Hp.
  apply probes_vouched_initial in Hp. destruct o as [a|]; [done|]. by apply Href, drop_request_probes.
Qed.

(** A request that is not dropped ends without a lease. *)
Lemma served_lease_free req orc :
  held (run orc (endpoint_program sha256 number_to_string value_to_string from_slice cfg req
    (dispatch routes (uri_path req) (method req))) []).1 = None.
Proof.
  set (found := dispatch _ _ _). rewrite <- (run_noting_run orc _ [] []).
  destruct found as [h| |]; [|done|done].
  destruct (api_handler sha256 number_to_string value_to_string from_slice cfg h) as [handler|] eqn:Hh.
  - cbn [endpoint_program]. rewrite Hh.
    pose proof (api_run _ _ _ _ _ h handler (headers req) None orc Hh) as Hr. rewrite run_until_None in Hr.
    destruct (run_noting _ _ _ _) as [[hist ns] a]. cbn.
    destruct Hr as [[Hun _]|(who & asked & handled & Hext & -> & _ & Hset & _)]; [by apply held_untouched|].
    pose proof (extractor_untouched orc (headers req)) as Hu. rewrite Hext in Hu.
    rewrite held_app by (by apply held_untouched). specialize (Hset ltac:(eauto)).
    destruct (phase_of sha256 who handled) as [p|] eqn:Hp; [|done].
    rewrite (held_phase _ _ _ _ Hp). by destruct p.
  - pose proof (open_endpoint_run None orc req (Found.Handler h)) as Ho. cbn [behind_admission] in Ho.
    rewrite Hh in Ho. specialize (Ho (or_introl eq_refl)). rewrite run_until_None in Ho.
    destruct (run_noting _ _ _ _) as [[hist ns] a]. apply held_untouched, Ho.
Qed.
End Serve.

(** ** The audit of a request *)

(** The notes of request [id], oldest first, and the last identity in notes. *)
Fixpoint own_notes (id : nat) (past : list Event) : list Note :=
  match past with
  | [] => []
  | Event.Noted loc n :: past => own_notes id past ++ (if decide (loc = id) then [n] else [])
  | _ :: past => own_notes id past
  end.

Definition last_identity (notes : list Note) : option Identity :=
  foldl (λ acc n, match n with Note.AuditIdentity who => Some who | _ => acc end) None notes.

Lemma identity_of_own id past : identity_of id past = last_identity (own_notes id past).
Proof.
  unfold last_identity. induction past as [|ev past IH]; [done|].
  destruct ev as [|loc n| |]; cbn [identity_of own_notes]; try done. rewrite foldl_app, <- IH.
  destruct n; case_decide; done.
Qed.

Lemma last_identity_ok known notes :
  Forall (note_ok known) notes → last_identity notes = None ∨ last_identity notes = known.
Proof.
  unfold last_identity. induction notes as [|n notes IH] using rev_ind; [by left|].
  intros [Hns Hn]%Forall_app. rewrite foldl_snoc. destruct n as [who| |]; auto. inv Hn. by right.
Qed.

Lemma last_identity_elem who notes : Note.AuditIdentity who ∈ notes → is_Some (last_identity notes).
Proof.
  unfold last_identity. induction notes as [|n notes IH] using rev_ind; [by intros ?%elem_of_nil|].
  rewrite foldl_snoc. intros [Hin|Hin]%elem_of_app; [destruct n; eauto|].
  apply list_elem_of_singleton in Hin as <-. eauto.
Qed.

Lemma register_metrics_base pool_names e : e ∈ register_metrics [] → e ∈ register_metrics pool_names.
Proof.
  unfold register_metrics. rewrite !elem_of_app. intros [?|[?|[?|?]]]; [by left|by right; left|by right; right; left|].
  by apply elem_of_nil in H.
Qed.

(** A command longer than its label is not refused by the policy: two such
    commands can share a label, and one cut inside a character has none. *)
Example long_commands_pass_the_policy :
  let a := "ABCDEFGHIJKLMNOPQRSTUVWXYZABCDEFX" in
  let b := "ABCDEFGHIJKLMNOPQRSTUVWXYZABCDEFY" in
  let c := "ABCDEFGHIJKLMNOPQRSTUVWXYZABCDE" +:+ String "195" (String "169" EmptyString) in
  Forall (λ n, valid_utf8 n = true ∧ check (λ x, x) sample_who (mkRedisCommand n []) = Ok tt) [a; b; c] ∧
  label_text a = label_text b ∧ label_text c = "-".
Proof. split_and!; [repeat constructor|..]; vm_compute; reflexivity. Qed.

(** ** A routing table *)

(** Literal routing: the first entry of the path decides. *)
Definition route_method (path : string) (r : MethodRouter) (m : Method) : Found :=
  match r, m with
  | MethodRouter.Post h, Method.POST => Found.Handler h
  | MethodRouter.Get h, (Method.GET | Method.HEAD) => Found.Handler h
  | _, _ => Found.MethodNotAllowed path
  end.

Fixpoint literal_dispatch (table : list (string * MethodRouter)) (path : string) (m : Method) : Found :=
  match table with
  | [] => Found.NoRoute
  | (p, r) :: table => if decide (p = path) then route_method path r m else literal_dispatch table path m
  end.

Lemma literal_dispatch_elem table path r m :
  NoDup table.*1 → (path, r) ∈ table → literal_dispatch table path m = route_method path r m.
Proof.
  induction table as [|[p r'] table IH]; [by intros _ ?%elem_of_nil|]. cbn. rewrite NoDup_cons.
  intros [Hp Hnd] [[= <- <-]|Hin]%elem_of_cons; [by rewrite decide_True|].
  rewrite decide_False; [auto|]. intros ->. apply Hp. by apply (list_elem_of_fmap_2 fst) in Hin.
Qed.

#[export] Instance literal_routing : StaticRouting literal_dispatch.
Proof.
  split.
  - intros table path h m Hnd Hin. rewrite (literal_dispatch_elem _ _ _ m Hnd Hin). by destruct m.
  - intros table path h m Hnd Hin. rewrite (literal_dispatch_elem _ _ _ m Hnd Hin). by destruct m.
  - intros table path m. induction table as [|[p r] table IH]; [done|]. cbn.
    intros [Hp Hin]%not_elem_of_cons. rewrite decide_False by done. auto.
Qed.

(** ** Properties *)

Section Properties.
Context (sha256 : bytes → bytes).
Context (number_to_string : Number → string) (value_to_string : Value → result string unit).
Context (from_slice : bytes → Document) (cfg : Config).
Context (dispatch : list (string * MethodRouter) → string → Method → Found).
Abbreviation serve := (serve sha256 number_to_string value_to_string from_slice cfg dispatch).

(** C9. A request from the socket to the response, whatever the environment
    answers, also when it is shed, times out or is dropped at any await of its
    handler: either it touches no bucket and no pool, or it is a POST to an API
    path that the layers let through, its bearer token was authenticated first,
    and what the handler did follows the request protocol for that identity and
    ends without a lease.  In either case a bucket is probed only right after an
    authentication, and it is the bucket of the identity that this gave. *)
Theorem served_requests_protocol (Hroute : StaticRouting dispatch) adm req (orc : Oracle) :
  let '(hist, _, _) := serve adm req orc [] in
  held hist = None ∧
  (existsb touches hist = false ∨
   ∃ who asked handled n,
     adm = Admission.Admit n ∧ method req = Method.POST ∧ uri_path req ∈ api_routes.*1 ∧
     run orc (from_request_parts (headers req)) [] = (asked, Ok who) ∧ existsb touches asked = false ∧
     hist = handled ++ asked ∧ settled (phase_of sha256 who handled)) ∧
  probes_vouched (was_given orc) hist.
Proof.
  pose proof (serve_spec sha256 number_to_string value_to_string from_slice cfg dispatch adm req orc) as Hs.
  pose proof (serve_probes sha256 number_to_string value_to_string from_slice cfg dispatch adm req orc) as Hprobes.
  destruct (Server.serve _ _ _ _ _ _ _ _ _ _) as [[hist notes] served].
  destruct Hs as [[Hun _]|(who & asked & handled & h & n & Hd & [handler Hh] & -> & Hext & -> & Hset & _)].
  { split_and!; [by apply held_untouched|by left|done]. }
  pose proof (extractor_untouched orc (headers req)) as Hu. rewrite Hext in Hu. cbn in Hu. split_and!; [..|done].
  - rewrite held_app by (by apply held_untouched).
    destruct (phase_of sha256 who handled) as [p|] eqn:Hp; [|done].
    rewrite (held_phase _ _ _ _ Hp). by destruct p.
  - right. exists who, asked, handled, n. rewrite dispatch_expected in Hd by done.
    destruct (api_route_post sha256 number_to_string value_to_string from_slice cfg _ _ _ Hd) as [? ?];
      [by eexists|by split_and!].
Qed.

(** The stack lets a request through when no limit refuses it. *)
Lemma admission_admits L `{!TowerLayers L} c :
  (permits_held c < max_in_flight (load (server cfg)))%Z →
  (∀ len, declared_length c = Some len → (len ≤ max_body_bytes (server cfg))%Z) →
  admission cfg L c = Admission.Admit (elapses L (from_millis (http_timeout_ms (server cfg))) (await_durations c)).
Proof.
  intros Hroom Hshort. unfold admission. rewrite (not_saturated L _ _ Hroom).
  destruct (declared_length c) as [len|]; [|done]. destruct (too_long L _ len) eqn:Hl; [|done].
  apply too_long_spec in Hl. specialize (Hshort len eq_refl). lia.
Qed.

(** A handler that is given a time limit either does the same, or is dropped
    part way. *)
Lemma run_until_outcome n orc (p : Prog Response) :
  let result o := match o with
    | (hist, notes, Some r) => (hist, notes, Served.App r)
    | (hist, notes, None) =>
        let '(hist, notes, r) := run_noting orc (layer_refusal cfg false) (drop_request hist) notes in
        (hist, notes, Served.App r)
    end in
  result (run_until (Some n) orc p [] []) = result (run_until None orc p [] []) ∨
  ∃ part later notes, (result (run_until None orc p [] [])).1.1 = later ++ part ∧
    result (run_until (Some n) orc p [] []) = (drop_request part, notes,
      Served.App (mkResponse 503 (Some (shed_retry_after_secs (load (server cfg)))) (Body.Error "Server overloaded"))).
Proof.
  cbv zeta. pose proof (run_until_not_dropped (Some n) orc p [] []) as Hr.
  pose proof (run_until_initial (Some n) orc p [] []) as Hi. destruct (run_until (Some n) orc p [] []) as [[h ns] [a|]].
  - left. by rewrite (Hr a eq_refl).
  - right. destruct Hi as [[later Hlater] _]. exists h, later, ns. split; [|done].
    rewrite run_until_None. rewrite <- (run_noting_run orc p [] []) in Hlater.
    by destruct (run_noting orc p [] []) as [[full ns'] r].
Qed.

(** C25. Refusals, by the circumstances the layers look at.  An unknown path is
    answered 404.  On an API path, in this order: when as many requests as
    [max_in_flight] hold a permit, 503 with the configured [Retry-After] and one
    shed counted; otherwise a declared length over [max_body_bytes] gives 413;
    otherwise another method than POST gives 405; none of these reach the
    extractor or a handler, however long anything takes.  Otherwise the request
    is answered as it would be without a time limit, unless its awaits take
    longer than [http_timeout_ms]: then it can also be dropped part way, what it
    did so far is an initial part of what it would have done, its lease is
    given back, and the answer is the same 503, not counted as shed.  The
    observability paths have none of these limits; they answer 405 to a method
    that is neither GET nor HEAD, and [/health] always answers. *)
Theorem refusals (Hroute : StaticRouting dispatch) (L : Layers) (HL : TowerLayers L) (c : Circumstances) req (orc : Oracle) :
  let limits := server cfg in
  let overloaded := Served.App (mkResponse 503 (Some (shed_retry_after_secs (load limits)))
                                  (Body.Error "Server overloaded")) in
  let outcome := serve (admission cfg L c) req orc [] in
  let unlimited := serve (Admission.Admit None) req orc [] in
  (uri_path req ∉ routes.*1 → ∀ adm, serve adm req orc [] = ([], [], Served.App not_found)) ∧
  (uri_path req ∈ api_routes.*1 →
     ((max_in_flight (load limits) ≤ permits_held c)%Z →
        outcome = ([Call.Silent], [Note.Counter "srh_shed_total" (Some ("cause", "global_limit")) 1], overloaded)) ∧
     ((permits_held c < max_in_flight (load limits))%Z →
        (∀ len, declared_length c = Some len → (max_body_bytes limits < len)%Z →
           outcome = ([], [], Served.PayloadTooLarge)) ∧
        ((∀ len, declared_length c = Some len → (len ≤ max_body_bytes limits)%Z) →
           (method req ≠ Method.POST → outcome = ([], [], Served.App method_not_allowed)) ∧
           (outcome = unlimited ∨
            (from_millis (http_timeout_ms limits) < total_time (await_durations c))%Z ∧
            ∃ part later notes, unlimited.1.1 = later ++ part ∧ outcome = (drop_request part, notes, overloaded))))) ∧
  (uri_path req ∈ observability_routes.*1 →
     ∀ adm, serve adm req orc [] = unlimited ∧
     (method req = Method.GET → uri_path req = "/health" → unlimited = ([], [], Served.App health)) ∧
     (method req ≠ Method.GET → method req ≠ Method.HEAD → unlimited = ([], [], Served.App method_not_allowed))).
Proof.
  cbv zeta. unfold serve. cbv beta zeta. rewrite (dispatch_expected dispatch).
  destruct (expected_route_cases sha256 number_to_string value_to_string from_slice cfg (uri_path req) (method req))
    as (Hnone & Hapi & Hobs). split_and!.
  - intros Hp adm. by rewrite (Hnone Hp).
  - intros Hp. destruct (Hapi Hp) as [-> Hmna]. split.
    { intros Hsat. unfold admission. by rewrite (proj2 (saturated_spec _ _) Hsat). }
    intros Hroom. split.
    { intros len Hlen Hlong. unfold admission. rewrite (not_saturated L _ _ Hroom), Hlen.
      by rewrite (proj2 (too_long_spec _ _) Hlong). }
    intros Hshort. rewrite (admission_admits L c Hroom Hshort). split.
    { intros Hm. rewrite (Hmna Hm). by destruct (elapses _ _ _). }
    destruct (elapses L _ (await_durations c)) as [n|] eqn:He; [|by left].
    destruct (run_until_outcome n orc (endpoint_program sha256 number_to_string value_to_string from_slice cfg req
      (expected_route (uri_path req) (method req)))) as [Ho|Ho]; [by left|right]. split; [by eapply elapses_over|exact Ho].
  - intros Hp adm. destruct (Hobs Hp) as [-> Hmna]. split; [done|]. split.
    + intros -> Hh. rewrite Hh. done.
    + intros Hg Hhd. by rewrite (Hmna Hg Hhd).
Qed.

(** C26. The audit line of a request tells who made it: when the response of a
    request is recorded, the line has its status, and its subject and pool are
    those of the identity the extractor authenticated, or dashes for a request
    that was refused before its handler and touched no bucket and no pool; and
    the counters the request incremented are registered when the server starts
    and are not the layer's own. *)
Theorem audit_names_caller (Hroute : StaticRouting dispatch) pool_names past s id since adm req (orc : Oracle)
    hist notes served now s'
    (Hs : observed pool_names past s) (Hreq : request_of id past = Some (uri_path req, since))
    (Hserve : serve adm req orc [] = (hist, notes, served)) (Hnotes : own_notes id past = notes)
    (Hpoll : observe (Event.Polled id (Poll.Ready (Ok (served_status served))) now) s = Some s')
    (Hprobe : probe_succeeded (uri_path req) (served_status served) = false) :
  (∃ line, audit_log (emitted s') = audit_log (emitted s) ++ [line] ∧
     line_status line = served_status served ∧ line_endpoint line = endpoint_label (uri_path req) ∧
     ((existsb touches hist = false ∧ line_subject line = "-" ∧ line_pool line = "-") ∨
      ∃ who asked, run orc (from_request_parts (headers req)) [] = (asked, Ok who) ∧
        line_subject line = subject who ∧ line_pool line = pool who)) ∧
  (∀ name label by_, Note.Counter name label by_ ∈ notes →
     Emission.Register (counter_key name label) ∈ register_metrics pool_names ∧
     handler_event (Event.Noted id (Note.Counter name label by_)) = true).
Proof.
  pose proof (serve_spec sha256 number_to_string value_to_string from_slice cfg dispatch adm req orc) as Hsp.
  rewrite Hserve in Hsp.
  assert (∃ known, Forall (note_ok known) notes ∧
    ((existsb touches hist = false ∧ known = None) ∨
     ∃ who asked, known = Some who ∧ run orc (from_request_parts (headers req)) [] = (asked, Ok who) ∧
       Note.AuditIdentity who ∈ notes)) as (known & Hok & Hcase).
  { destruct Hsp as [[? ?]|(who & asked & handled & h & n & _ & _ & _ & ? & _ & _ & ? & ?)]; [eauto|].
    exists (Some who). split; [done|]. right. by exists who, asked. }
  split.
  - apply observed_tracks in Hs as Ht. rewrite (observe_emits _ _ _ _ Ht Hpoll). cbn [event_emissions].
    rewrite Hreq. unfold response_emissions, audit_log. rewrite omap_app, Hprobe. cbn.
    eexists. split; [done|]. cbn. split_and!; [done|done|]. rewrite identity_of_own, Hnotes.
    destruct Hcase as [[? ->]|(who & asked & -> & Hext & Hin)]; [left|right].
    + by destruct (last_identity_ok _ _ Hok) as [-> | ->].
    + exists who, asked. split; [done|]. destruct (last_identity_elem _ _ Hin) as [w Hw].
      destruct (last_identity_ok _ _ Hok) as [Hl|Hl]; rewrite Hl in *; by simplify_eq.
  - intros name label by_ Hin. rewrite Forall_forall in Hok. destruct (Hok _ Hin) as (? & ? & _).
    split; [by apply register_metrics_base|]. cbn. by apply negb_true_iff, contains_false.
Qed.
End Properties.

(** ** Witnesses *)

Definition demo_request : HttpRequest :=
  mkRequest Method.POST "/pipeline"
    (λ h, if String.eqb h "authorization" then Some "Bearer token" else None) false.

Abbreviation demo_serve := (serve (λ b, b) (λ _, "1") (λ _, Ok "{}") (λ _, sample_pipeline)
  sample_config literal_dispatch (Admission.Admit None) demo_request (sample_oracle "") []).

(** The request reaches its pool, so the first case of the theorem is not the
    one that applies. *)
Lemma served_requests_protocol_witness :
  held demo_serve.1.1 = None ∧ existsb touches demo_serve.1.1 = true ∧ served_status demo_serve.2 = 200%Z.
Proof.
  pose proof (served_requests_protocol (λ b, b) (λ _, "1") (λ _, Ok "{}") (λ _, sample_pipeline)
    sample_config literal_dispatch literal_routing (Admission.Admit None) demo_request (sample_oracle "")) as H.
  destruct (Server.serve _ _ _ _ _ _ _ _ _ _) as [[hist notes] served] eqn:Hd. destruct H as [H _].
  split; [exact H|]. vm_compute in Hd. injection Hd as <- _ <-. by split.
Defined.

(** A server that holds as many requests as it may, and one whose handler waits
    too long for its first answer. *)
Definition demo_outcome (c : Circumstances) : list Call * list Note * Served :=
  serve (λ b, b) (λ _, "1") (λ _, Ok "{}") (λ _, sample_pipeline) sample_config literal_dispatch
    (admission sample_config tower c) demo_request (sample_oracle "") [].

Lemma refusals_witness :
  let full := mkCircumstances (max_in_flight (load (server sample_config))) None [] in
  let slow := mkCircumstances 0 (Some 5%Z) [0%N; 0%N; 100000000000%N] in
  served_status (demo_outcome full).2 = 503%Z ∧ (demo_outcome full).1.1 = [Call.Silent] ∧
  (demo_outcome slow).1.1 ≠ [] ∧ served_status (demo_outcome slow).2 = 503%Z.
Proof.
  cbv zeta. unfold demo_outcome.
  pose proof (λ c, refusals (λ b, b) (λ _, "1") (λ _, Ok "{}") (λ _, sample_pipeline)
    sample_config literal_dispatch literal_routing tower tower_layers c demo_request (sample_oracle "")) as H.
  assert (uri_path demo_request ∈ api_routes.*1) as Hp by (apply (bool_decide_unpack _); vm_compute; exact I).
  set (full := mkCircumstances (max_in_flight (load (server sample_config))) None []).
  destruct (H full) as (_ & Hfull & _). destruct (Hfull Hp) as [Hshed _]. rewrite Hshed by reflexivity.
  split_and!; [done|done|..].
  - by vm_compute.
  - set (slow := mkCircumstances 0 (Some 5%Z) [0%N; 0%N; 100000000000%N]).
    destruct (H slow) as (_ & Hslow & _). destruct (Hslow Hp) as [_ Hrun].
    destruct Hrun as [_ Hrun]; [by vm_compute|]. destruct Hrun as [_ [Hsame|(_ & part & later & notes & _ & ->)]].
    + intros len [= <-]. by vm_compute.
    + exfalso. by vm_compute in Hsame.
    + done.
Defined.

Definition demo_request_past : list Event :=
  (Event.Noted 0 <$> reverse demo_serve.1.2) ++ [Event.Call "/pipeline" 0].

Lemma audit_names_caller_witness :
  ∃ line, line_subject line = "alice" ∧ line_pool line = "main" ∧ line_status line = 200%Z.
Proof.
  destruct (observe_all demo_request_past (obs_start [])) as [s|] eqn:Hs; [|exfalso; by vm_compute in Hs].
  destruct demo_serve as [[hist notes] served] eqn:Hd.
  destruct (observe (Event.Polled 0 (Poll.Ready (Ok (served_status served))) 7) s) as [s'|] eqn:Hp.
  2:{ exfalso. vm_compute in Hd. injection Hd as <- <- <-. vm_compute in Hs. injection Hs as <-. by vm_compute in Hp. }
  assert (own_notes 0 demo_request_past = notes) as Hn by (vm_compute in Hd; injection Hd as <- <- <-; reflexivity).
  assert (served_status served = 200%Z) as H200 by (vm_compute in Hd; injection Hd as <- <- <-; reflexivity).
  destruct (audit_names_caller (λ b, b) (λ _, "1") (λ _, Ok "{}") (λ _, sample_pipeline)
    sample_config literal_dispatch literal_routing [] demo_request_past s 0 0 (Admission.Admit None) demo_request
    (sample_oracle "") hist notes served 7 s' (observe_all_observed _ _ _ Hs) eq_refl Hd Hn Hp
    ltac:(rewrite H200; reflexivity)) as ((line & _ & H1 & _ & [[Ht _]|(who & asked & Hw & H2 & H3)]) & _).
  - exfalso. vm_compute in Hd. injection Hd as <- _ _. by vm_compute in Ht.
  - exists line. vm_compute in Hw. injection Hw as _ <-. rewrite H1, H2, H3, H200. by split_and!.
Defined.
