(* ===== verification/Service.v ===== *)
(** * The service: concurrent requests over shared state

    The handlers are verified against an environment that may answer a call
    with anything.  Here the environment is made concrete where requests share
    state: the rate limiter of [src/src/domain/rate_limit.rs], the leases that
    pools hand out (the contract that [PoolSpec.v] shows pools to keep) and who
    answers for credentials, an [Authority]: the authenticator chain that
    [src/src/main.rs] builds, or, in [Gateway.v], the authentications that run
    next to the requests.  Requests arrive, take
    their calls one at a time in any interleaving, finish, or are dropped at an
    await by the timeout or by their client, while the clock moves and the
    maintenance task sweeps.

    [steps_replay] is the bridge: whatever such a run answers a request is what
    some oracle answers it, so every theorem about all oracles holds of every
    request of the service. *)
From S2P Require Import Prelude Domain Utf8 Acl Convert Parse Config RateLimit Ports Handlers Auth Observability Server.

(** ** Replaying answers *)

(** An answer together with what is needed to recognise its call. *)
Module Answer.
Inductive Answer : Type :=
| Read (b : BodyRead)
| Unit
| Limit (r : result unit RateLimitExceeded)
| Number (z : Z)
| Auth (bearer : string) (r : result (option Identity) AuthError)
| Key (r : result CachedKey JwksError)
| Active (r : result bool IntrospectError)
| Cached (o : option bool)
| Handle (r : result ExecutorHandle AcquireError)
| Readiness (l : list PoolReadiness)
| Value (r : result RespValue ExecError)
| Values (l : list (result RespValue ExecError))
| Exec (r : result (list (result RespValue ExecError)) ExecError).
End Answer.
Abbreviation Answer := Answer.Answer.

Definition inject {X : Type} (e : Eff X) : X → Answer :=
  match e in Eff.Eff X return X → Answer with
  | Eff.ReadBody => Answer.Read
  | Eff.Emit _ => λ _, Answer.Unit
  | Eff.Probe _ => Answer.Limit
  | Eff.Charge _ _ => Answer.Limit
  | Eff.TakeForgiven => Answer.Number
  | Eff.Authenticate bearer => Answer.Auth bearer
  | Eff.KeyFor _ => Answer.Key
  | Eff.IsActive _ => Answer.Active
  | Eff.CacheGet _ => Answer.Cached
  | Eff.CacheInsert _ _ => λ _, Answer.Unit
  | Eff.UnixSecs => Answer.Number
  | Eff.Instant => Answer.Number
  | Eff.Acquire _ => Answer.Handle
  | Eff.Readiness => Answer.Readiness
  | Eff.Execute _ _ => Answer.Value
  | Eff.Pipeline _ _ => Answer.Values
  | Eff.Transaction _ _ => Answer.Exec
  | Eff.Release _ => λ _, Answer.Unit
  end.

(** The answer if it is one for this call, else the default. *)
Definition project {X : Type} (e : Eff X) : Answer → X → X :=
  match e in Eff.Eff X return Answer → X → X with
  | Eff.ReadBody => λ a d, match a with Answer.Read b => b | _ => d end
  | Eff.Emit _ => λ _ d, d
  | Eff.Probe _ => λ a d, match a with Answer.Limit r => r | _ => d end
  | Eff.Charge _ _ => λ a d, match a with Answer.Limit r => r | _ => d end
  | Eff.TakeForgiven => λ a d, match a with Answer.Number z => z | _ => d end
  | Eff.Authenticate bearer => λ a d,
      match a with Answer.Auth bearer' r => if decide (bearer' = bearer) then r else d | _ => d end
  | Eff.KeyFor _ => λ a d, match a with Answer.Key r => r | _ => d end
  | Eff.IsActive _ => λ a d, match a with Answer.Active r => r | _ => d end
  | Eff.CacheGet _ => λ a d, match a with Answer.Cached o => o | _ => d end
  | Eff.CacheInsert _ _ => λ _ d, d
  | Eff.UnixSecs => λ a d, match a with Answer.Number z => z | _ => d end
  | Eff.Instant => λ a d, match a with Answer.Number z => z | _ => d end
  | Eff.Acquire _ => λ a d, match a with Answer.Handle r => r | _ => d end
  | Eff.Readiness => λ a d, match a with Answer.Readiness l => l | _ => d end
  | Eff.Execute _ _ => λ a d, match a with Answer.Value r => r | _ => d end
  | Eff.Pipeline _ _ => λ a d, match a with Answer.Values l => l | _ => d end
  | Eff.Transaction _ _ => λ a d, match a with Answer.Exec r => r | _ => d end
  | Eff.Release _ => λ _ d, d
  end.

Lemma project_inject {X} (e : Eff X) (x d : X) : project e (inject e x) d = x.
Proof. destruct e; cbn; try done; try (by destruct x, d). by rewrite decide_True. Qed.

(** What the authenticator behind the port may answer a credential; an
    authenticator has an answer for each. *)
Abbreviation Authority := (string → result (option Identity) AuthError → Prop).

Class Answering (auth : Authority) : Type := {
  fallback : string → result (option Identity) AuthError;
  fallback_ok bearer : auth bearer (fallback bearer);
}.

(** The answers of an authenticator that is a program, whatever the services it
    asks tell it. *)
Definition can_answer (authenticate : string → Prog (result (option Identity) AuthError)) : Authority :=
  λ bearer r, ∃ orc hist, (run orc (authenticate bearer) hist).2 = r.

#[export] Program Instance can_answer_answering authenticate : Answering (can_answer authenticate) :=
  {| fallback bearer := (run (sample_oracle EmptyString) (authenticate bearer) []).2 |}.
Next Obligation. intros authenticate bearer. by eexists _, _. Qed.

Section Replay.
Context (auth : Authority) `{!Answering auth}.

Definition answer_ok {X : Type} (e : Eff X) : X → Prop :=
  match e in Eff.Eff X return X → Prop with
  | Eff.Authenticate bearer => auth bearer
  | _ => λ _, True
  end.

Definition oracle_ok (orc : Oracle) : Prop := ∀ X (e : Eff X) hist, answer_ok e (orc X e hist).

(** A program takes some of its calls. *)
Inductive steps {A : Type} (p : Prog A) (hist : list Call) : Prog A → list Call → Prop :=
| steps_refl : steps p hist p hist
| steps_call {X : Type} (e : Eff X) k hist' x :
    steps p hist (Vis e k) hist' → answer_ok e x → steps p hist (k x) (call_of e x :: hist').

(** The oracle that gives [x] at one point of the history. *)
Definition override {X : Type} (e : Eff X) (x : X) (at_ : nat) (orc : Oracle) : Oracle :=
  λ Y e' hist, if decide (length hist = at_) then project e' (inject e x) (orc Y e' hist) else orc Y e' hist.

Lemma override_ok {X} (e : Eff X) (x : X) at_ orc :
  answer_ok e x → oracle_ok orc → oracle_ok (override e x at_ orc).
Proof.
  intros Hx Ho Y e' hist. unfold override. specialize (Ho Y e' hist). case_decide; [|done].
  destruct e'; try done. destruct e; cbn in *; try done. case_decide as Hb; [|done]. by subst.
Qed.

(** Every run in which each call got a possible answer is the run of an
    oracle. *)
Lemma steps_replay {A} (p p' : Prog A) hist hist' orc0 :
  steps p hist p' hist' → oracle_ok orc0 →
  ∃ orc, oracle_ok orc ∧ run orc p hist = run orc p' hist' ∧
    ∀ X e h, length hist' ≤ length h → orc X e h = orc0 X e h.
Proof.
  intros Hs. revert orc0. induction Hs as [|X e k hist' x Hs IH Hx]; intros orc0 Ho; [by exists orc0|].
  destruct (IH (override e x (length hist') orc0)) as (orc & Hok & Hrun & Hag); [by apply override_ok|].
  exists orc. split_and!; [done| |].
  - rewrite Hrun. cbn [run]. rewrite Hag by done. unfold override. rewrite decide_True by done.
    by rewrite project_inject.
  - intros Y e' h Hh. rewrite Hag by (cbn in Hh; lia). unfold override.
    rewrite decide_False by (cbn in Hh; lia). done.
Qed.

(** An oracle that asks the authenticator. *)
Definition base_oracle : Oracle := λ X e hist,
  match e in Eff.Eff X return X → X with
  | Eff.Authenticate bearer => λ _, fallback bearer
  | _ => λ x, x
  end (sample_oracle EmptyString X e hist).

Lemma base_oracle_ok : oracle_ok base_oracle.
Proof. intros X e hist. destruct e; cbn; try done. apply fallback_ok. Qed.

(** What a request has done is the beginning of what it does under an
    oracle. *)
Lemma steps_initial {A} (p p' : Prog A) hist :
  steps p [] p' hist → ∃ orc later, oracle_ok orc ∧ (run orc p []).1 = later ++ hist.
Proof.
  intros Hs. destruct (steps_replay _ _ _ _ _ Hs base_oracle_ok) as (orc & Hok & Hrun & _).
  destruct (run_extends orc p' hist) as [later Hl]. exists orc, later. by rewrite Hrun.
Qed.
End Replay.

(** ** The service *)

(** State shared by the requests: the limiter, and the leases handed out. *)
Record Shared : Type := mkShared { limiter : LimiterState; outstanding : gset Z }.

(** A request in flight: what is left of its program and the calls it made. *)
Record Thread : Type := mkThread {
  t_req : HttpRequest;
  t_prog : Prog Response;
  t_hist : list Call;
}.

Record Service : Type := mkService {
  shared : Shared;
  instant : Z;
  threads : list Thread;
  ended : list (HttpRequest * list Call);
}.

(** What a step does, for the components that take part in it: the answer a
    request is given to a call, a request dropped at a call, what an operation
    on a client of a pool entry returned, or neither. *)
Module Label.
Inductive Label : Type :=
| Call (req : HttpRequest) (hist : list Call) {X : Type} (e : Eff X) (x : X)
| Drop (req : HttpRequest) (hist : list Call) {X : Type} (e : Eff X)
| Record_ (id i : nat) (errors : list ExecError)
| Internal.
End Label.
Abbreviation Label := Label.Label.

Section Service.
Context (sha256 : bytes → bytes).
Context (number_to_string : Number → string) (value_to_string : Value → result string unit).
Context (from_slice : bytes → Document) (cfg : Config).
Context (dispatch : list (string * MethodRouter) → string → Method → Found).
Context (auth : Authority).

Definition rl : RateLimiter := limiter_new (per_token_commands_per_sec (rate_limit (server cfg))).

Abbreviation found req := (dispatch routes (uri_path req) (method req)).
Abbreviation behind_admission := (behind_admission sha256 number_to_string value_to_string from_slice cfg).

(** The program of a request the layers let through. *)
Definition request_program (req : HttpRequest) : Prog Response :=
  endpoint_program sha256 number_to_string value_to_string from_slice cfg req (found req).

(** How the shared state answers a call.  The access counter and the command
    counts are [u64]s, the premises keep them in range; a lease is new when it
    is handed out, and ends when it is returned. *)
Definition answers (now : Z) {X : Type} (e : Eff X) : X → Shared → Shared → Prop :=
  match e in Eff.Eff X return X → Shared → Shared → Prop with
  | Eff.Probe key => λ r s s',
      (next_order (lru (buckets (limiter s))) < u64_max)%Z ∧
      (r, limiter s') = limiter_probe rl now key (limiter s) ∧ outstanding s' = outstanding s
  | Eff.Charge key count => λ r s s',
      in_u64 count ∧ (next_order (lru (buckets (limiter s))) < u64_max)%Z ∧
      (r, limiter s') = limiter_charge rl now key count (limiter s) ∧ outstanding s' = outstanding s
  | Eff.TakeForgiven => λ n s s',
      (n, limiter s') = take_debt_forgiven_evictions (limiter s) ∧ outstanding s' = outstanding s
  | Eff.Authenticate bearer => λ r s s', auth bearer r ∧ s' = s
  | Eff.Acquire _ => λ r s s',
      match r with
      | Ok h => (lease h ∉ outstanding s) ∧ s' = mkShared (limiter s) ({[ lease h ]} ∪ outstanding s)
      | Err _ => s' = s
      end
  | Eff.Release h => λ _ s s', s' = mkShared (limiter s) (outstanding s ∖ {[ lease h ]})
  | _ => λ _ s s', s' = s
  end.

(** The requests the concurrency limit counts. *)
Definition limited (t : Thread) : bool := behind_admission (found (t_req t)).

Definition in_flight (ts : list Thread) : Z := Z.of_nat (length (filter (λ t, limited t = true) ts)).

Inductive service_step : Label → Service → Service → Prop :=
| sv_tick sh now now' ts log :
    (now ≤ now')%Z → service_step Label.Internal (mkService sh now ts log) (mkService sh now' ts log)
| sv_arrive sh now ts log req :
    (behind_admission (found req) = true → in_flight ts < max_in_flight (load (server cfg)))%Z →
    service_step Label.Internal (mkService sh now ts log) (mkService sh now (mkThread req (request_program req) [] :: ts) log)
| sv_shed sh now ts log req :
    behind_admission (found req) = true → (max_in_flight (load (server cfg)) ≤ in_flight ts)%Z →
    service_step Label.Internal (mkService sh now ts log) (mkService sh now ts ((req, []) :: log))
| sv_call sh sh' now ts ts' log req {X : Type} (e : Eff X) k hist x :
    ts ≡ₚ mkThread req (Vis e k) hist :: ts' → answers now e x sh sh' →
    service_step (Label.Call req hist e x) (mkService sh now ts log)
      (mkService sh' now (mkThread req (k x) (call_of e x :: hist) :: ts') log)
| sv_finish sh now ts ts' log req r hist :
    ts ≡ₚ mkThread req (Ret r) hist :: ts' →
    service_step Label.Internal (mkService sh now ts log) (mkService sh now ts' ((req, hist) :: log))
| sv_drop sh now ts ts' log req {X : Type} (e : Eff X) k hist :
    ts ≡ₚ mkThread req (Vis e k) hist :: ts' → awaits e = true →
    service_step (Label.Drop req hist e) (mkService sh now ts log)
      (mkService (match held (issued e ++ hist) with
                  | Some h => mkShared (limiter sh) (outstanding sh ∖ {[ lease h ]})
                  | None => sh
                  end) now ts' ((req, drop_request (issued e ++ hist)) :: log))
| sv_sweep sh now ts log ks n st' :
    ks ≡ₚ (map_to_list (entries (buckets (limiter sh)))).*1 → sweep_idle rl now ks (limiter sh) = (n, st') →
    service_step Label.Internal (mkService sh now ts log) (mkService (mkShared st' (outstanding sh)) now ts log).

(** The service as it starts. *)
Definition service_start (now : Z) : Service := mkService (mkShared limiter_init ∅) now [] [].

Definition service_reachable (s : Service) : Prop := ∃ now, rtc (some_step service_step) (service_start now) s.

(** ** What a request may have done *)

(** Either it touched nothing, or it is an API request whose bearer token the
    authenticator recognised and whose calls follow the protocol; and it probed
    no bucket but that of an identity it had just authenticated as. *)
Definition conforming (req : HttpRequest) (hist : list Call) : Prop :=
  (existsb touches hist = false ∨
   ∃ who scheme bearer asked handled,
     method req = Method.POST ∧ uri_path req ∈ api_routes.*1 ∧
     headers req "authorization" = Some (scheme +:+ String " " bearer) ∧
     eq_ignore_ascii_case scheme "Bearer" = true ∧ auth bearer (Ok (Some who)) ∧
     hist = handled ++ asked ∧ existsb touches asked = false ∧ is_Some (phase_of sha256 who handled)) ∧
  probes_vouched (λ bearer who, auth bearer (Ok (Some who))) hist.

(** The leases in the hands of requests. *)
Definition held_leases (ts : list Thread) : list Z := omap (λ t, lease <$> held (t_hist t)) ts.

Record service_inv (s : Service) : Prop := {
  sv_limiter : limiter_wf rl (limiter (shared s));
  sv_leases : outstanding (shared s) = list_to_set (held_leases (threads s));
  sv_distinct : NoDup (held_leases (threads s));
  sv_bound : (in_flight (threads s) ≤ max_in_flight (load (server cfg)))%Z;
  sv_threads : Forall (λ t, steps auth (request_program (t_req t)) [] (t_prog t) (t_hist t)) (threads s);
  sv_ended : Forall (λ rh, conforming rh.1 rh.2 ∧ held rh.2 = None) (ended s);
}.
End Service.

(** ** Leases of conforming requests *)

Section Leases.
Context (sha256 : bytes → bytes).
Context (auth : Authority).
Abbreviation conforming := (conforming sha256 auth).

(** What the last call of a conforming request says of its lease. *)
Lemma conforming_lease req c hist :
  conforming req (c :: hist) →
  match c with
  | Call.Release h => held hist = Some h
  | Call.Acquire _ (Some _) => held hist = None
  | _ => True
  end.
Proof.
  intros [[Hun|(who & scheme & bearer & asked & handled & _ & _ & _ & _ & _ & Happ & Hun & Hph)] _].
  { cbn in Hun. by destruct c as [| | |? []| | | |]. }
  destruct handled as [|c' handled].
  { cbn in Happ. rewrite <- Happ in Hun. cbn in Hun. by destruct c as [| | |? []| | | |]. }
  cbn in Happ. injection Happ as <- ->. rewrite held_app by (by apply held_untouched).
  rewrite phase_cons in Hph. destruct Hph as [p' (p & Hp & Hstep)%bind_Some].
  rewrite (held_phase _ _ _ _ Hp).
  destruct c as [? ? []|? ?|?|? []|? ?|? ?|?|], p; cbn in Hstep; try done; repeat case_decide; naive_solver.
Qed.

Lemma drop_conforms req hist :
  conforming req hist → conforming req (drop_request hist) ∧ held (drop_request hist) = None.
Proof.
  intros Hc. split; [|unfold drop_request; by destruct (held hist) eqn:H].
  destruct Hc as [Hc Hprobes]. split; [|by apply drop_request_probes].
  destruct Hc as [Hun|(who & scheme & bearer & asked & handled & ? & ? & ? & ? & ? & -> & Hun & Hph)].
  - left. unfold drop_request. by rewrite held_untouched.
  - right. exists who, scheme, bearer, asked, (drop_request handled). split_and!; try done.
    + unfold drop_request. rewrite held_app by (by apply held_untouched). by destruct (held handled).
    + pose proof (drop_settled _ _ _ Hph) as Hset. by destruct (phase_of _ _ (drop_request handled)).
Qed.

End Leases.

(** ** Requests conform *)

Section Conforming.
Context (sha256 : bytes → bytes).
Context (number_to_string : Number → string) (value_to_string : Value → result string unit).
Context (from_slice : bytes → Document) (cfg : Config).
Context (dispatch : list (string * MethodRouter) → string → Method → Found) `{!StaticRouting dispatch}.
Context (auth : Authority) `{!Answering auth}.
Abbreviation conforming := (conforming sha256 auth).
Abbreviation request_program :=
  (request_program sha256 number_to_string value_to_string from_slice cfg dispatch).

(** An initial part of an API request's run ends in the extractor or in the
    handler. *)
Lemma api_initial h handler hs orc later hist :
  api_handler sha256 number_to_string value_to_string from_slice cfg h = Some handler →
  (run orc (api_request handler hs) []).1 = later ++ hist →
  existsb touches hist = false ∨
  ∃ who asked handled, run orc (from_request_parts hs) [] = (asked, Ok who) ∧ existsb touches asked = false ∧
    hist = handled ++ asked ∧ is_Some (phase_of sha256 who handled).
Proof.
  intros Hh Hrun. pose proof (api_run sha256 number_to_string value_to_string from_slice cfg h handler hs None orc Hh)
    as Hapi.
  pose proof (run_until_None orc (api_request handler hs) [] []) as Hu.
  pose proof (run_noting_run orc (api_request handler hs) [] []) as Hn. rewrite <- Hn in Hrun.
  rewrite Hu in Hapi. destruct (run_noting _ _ _ _) as [[full ns] a]. cbn in Hrun. subst full.
  destruct Hapi as [[Hun _]|(who & asked & done_ & Hext & Happ & Hph & _)].
  { left. by eapply untouched_initial. }
  pose proof (extractor_untouched orc hs) as Hun. rewrite Hext in Hun. cbn in Hun.
  destruct (app_eq_inv _ _ _ _ Happ) as [(mid & _ & Ha)|(mid & -> & ->)].
  - left. rewrite Ha in Hun. by eapply untouched_initial.
  - right. exists who, asked, mid. split_and!; [done..|].
    destruct Hph as [ph Hph]. by eapply phase_initial.
Qed.

Lemma bearer_of orc hs asked who :
  oracle_ok auth orc → run orc (from_request_parts hs) [] = (asked, Ok who) →
  ∃ scheme bearer, hs "authorization" = Some (scheme +:+ String " " bearer) ∧
    eq_ignore_ascii_case scheme "Bearer" = true ∧ auth bearer (Ok (Some who)).
Proof.
  intros Hok Hext. pose proof (extractor_guards orc hs) as Hg. rewrite Hext in Hg. destruct Hg as [Hg _].
  destruct (Hg who eq_refl) as (scheme & bearer & ? & ? & _ & Ha & _).
  exists scheme, bearer. split_and!; [done..|]. pose proof (Hok _ (Eff.Authenticate bearer) []) as Hb.
  by rewrite Ha in Hb.
Qed.

Lemma oracle_gave orc bearer who : oracle_ok auth orc → was_given orc bearer who → auth bearer (Ok (Some who)).
Proof. intros Hok Hg. pose proof (Hok _ (Eff.Authenticate bearer) []) as Hb. by rewrite Hg in Hb. Qed.

Lemma thread_conforms req p hist :
  steps auth (request_program req) [] p hist → conforming req hist.
Proof.
  intros Hs. destruct (steps_initial _ _ _ _ Hs) as (orc & later & Hok & Hrun). unfold conforming.
  split; [|eapply probes_vouched_mono; [by intros b w; apply oracle_gave|]; eapply probes_vouched_initial;
    rewrite <- Hrun; apply endpoint_probes].
  unfold request_program in Hrun. destruct (dispatch routes (uri_path req) (method req)) as [h|path|] eqn:Hd.
  1: destruct (api_handler sha256 number_to_string value_to_string from_slice cfg h) as [handler|] eqn:Hh.
  - cbn [endpoint_program] in Hrun. rewrite Hh in Hrun.
    destruct (api_initial _ _ _ _ _ _ Hh Hrun) as [|(who & asked & handled & Hext & ? & ? & ?)]; [by left|right].
    destruct (bearer_of _ _ _ _ Hok Hext) as (scheme & bearer & ? & ? & ?).
    rewrite (dispatch_expected dispatch) in Hd.
    destruct (api_route_post sha256 number_to_string value_to_string from_slice cfg _ _ _ Hd) as [? ?]; [by eexists|].
    by exists who, scheme, bearer, asked, handled.
  - left. pose proof (open_endpoint_run sha256 number_to_string value_to_string from_slice cfg None orc req
      (Found.Handler h)) as Ho. cbn [behind_admission] in Ho. rewrite Hh in Ho. specialize (Ho (or_introl eq_refl)).
    rewrite run_until_None in Ho. rewrite <- (run_noting_run orc _ [] []) in Hrun.
    destruct (run_noting _ _ _ _) as [[full ns] a]. cbn in Hrun. subst full. destruct Ho as [Ho _].
    by eapply untouched_initial.
  - left. cbn in Hrun. by destruct later, hist.
  - left. cbn in Hrun. by destruct later, hist.
Qed.

(** A suspended request may be dropped with its pending call issued. *)
Lemma issued_conforms {X} req (e : Eff X) k hist :
  steps auth (request_program req) [] (Vis e k) hist → conforming req (issued e ++ hist).
Proof.
  intros Hs. set (x := base_oracle auth X e hist).
  assert (steps auth (request_program req) [] (k x) (call_of e x :: hist)) as Hs'
    by (apply steps_call; [done|apply base_oracle_ok]).
  apply thread_conforms in Hs, Hs'. by destruct e.
Qed.

(** A request that ends by itself holds nothing. *)
Lemma finished_settled req r hist :
  steps auth (request_program req) [] (Ret r) hist → held hist = None.
Proof.
  intros Hs. destruct (steps_replay _ _ _ _ _ _ Hs (base_oracle_ok _)) as (orc & _ & Hrun & _). cbn in Hrun.
  pose proof (served_lease_free sha256 number_to_string value_to_string from_slice cfg dispatch req orc) as Hf.
  unfold request_program in Hrun. by rewrite Hrun in Hf.
Qed.
End Conforming.

(** ** The invariant *)

Section Invariant.
Context (sha256 : bytes → bytes).
Context (number_to_string : Number → string) (value_to_string : Value → result string unit).
Context (from_slice : bytes → Document) (cfg : Config).
Context (dispatch : list (string * MethodRouter) → string → Method → Found) `{!StaticRouting dispatch}.
Context (auth : Authority) `{!Answering auth}.
Context (Hrate : in_u64 (per_token_commands_per_sec (rate_limit (server cfg)))).
Context (Hmax : in_u64 (max_in_flight (load (server cfg)))).
Abbreviation conforming := (conforming sha256 auth).
Abbreviation service_step :=
  (service_step sha256 number_to_string value_to_string from_slice cfg dispatch auth).
Abbreviation service_inv :=
  (service_inv sha256 number_to_string value_to_string from_slice cfg dispatch auth).
Abbreviation in_flight := (in_flight sha256 number_to_string value_to_string from_slice cfg dispatch).
Abbreviation answers := (answers cfg auth).
Abbreviation rl := (rl cfg).

Lemma rl_ok : params_ok rl.
Proof. by apply with_max_buckets_ok. Qed.

Lemma answers_limiter now {X} (e : Eff X) x sh sh' :
  answers now e x sh sh' → limiter_wf rl (limiter sh) → limiter_wf rl (limiter sh').
Proof.
  intros Ha Hwf. pose proof rl_ok as Hok. destruct e; cbn in Ha; try (by subst).
  - destruct Ha as (Hn & Hr & _). eapply limiter_step_wf; [done..|]. by eapply (ls_access _ now key Access.Probe x).
  - destruct Ha as (Hc & Hn & Hr & _). eapply limiter_step_wf; [done..|].
    by eapply (ls_access _ now key (Access.Charge count) x).
  - destruct Ha as [Hr _]. eapply limiter_step_wf; [done..|].
    replace (limiter sh') with (take_debt_forgiven_evictions (limiter sh)).2 by (by rewrite <- Hr). constructor.
  - destruct Ha as [_ ->]. done.
  - destruct x; [destruct Ha as [_ ->]|subst]; done.
Qed.

Lemma answers_ok now {X} (e : Eff X) x sh sh' : answers now e x sh sh' → answer_ok auth e x.
Proof. intros Ha. destruct e; cbn in *; try done. by destruct Ha. Qed.

(** How a call changes the lease of the request and the leases handed out. *)
Lemma answers_lease now {X} (e : Eff X) x sh sh' req hist :
  answers now e x sh sh' → conforming req (call_of e x :: hist) →
  (held (call_of e x :: hist) = held hist ∧ outstanding sh' = outstanding sh) ∨
  (∃ h, held hist = None ∧ held (call_of e x :: hist) = Some h ∧ (lease h ∉ outstanding sh) ∧
     outstanding sh' = {[ lease h ]} ∪ outstanding sh) ∨
  (∃ h, held hist = Some h ∧ held (call_of e x :: hist) = None ∧
     outstanding sh' = outstanding sh ∖ {[ lease h ]}).
Proof.
  intros Ha Hc%conforming_lease. destruct e; cbn in Ha, Hc |- *; try (left; by subst); try (left; naive_solver).
  - destruct x as [h|]; [right; left|left; by subst]. destruct Ha as [? ->]. by exists h.
  - right; right. subst. by exists h.
Qed.

Lemma held_leases_perm ts ts' : ts ≡ₚ ts' → held_leases ts ≡ₚ held_leases ts'.
Proof. intros Hp. unfold held_leases. by rewrite Hp. Qed.

Lemma in_flight_perm ts ts' : ts ≡ₚ ts' → in_flight ts = in_flight ts'.
Proof. intros Hp. unfold in_flight. by rewrite Hp. Qed.

Lemma in_flight_cons t ts :
  in_flight (t :: ts) =
    ((if limited sha256 number_to_string value_to_string from_slice cfg dispatch t then 1 else 0) + in_flight ts)%Z.
Proof.
  unfold in_flight. rewrite filter_cons.
  destruct (limited _ _ _ _ _ _ t); [rewrite decide_True by done|rewrite decide_False by done]; cbn [length]; lia.
Qed.

Lemma start_inv now : service_inv (service_start now).
Proof.
  split; cbn; [by apply limiter_init_wf, rl_ok|done|constructor| |constructor|constructor].
  unfold in_flight. cbn. apply Hmax.
Qed.

(** The leases after a call. *)
Lemma leases_after_call now {X} (e : Eff X) x sh sh' req k hist ts :
  answers now e x sh sh' → conforming req (call_of e x :: hist) →
  let t := mkThread req (Vis e k) hist in
  let t' := mkThread req (k x) (call_of e x :: hist) in
  outstanding sh = list_to_set (held_leases (t :: ts)) → NoDup (held_leases (t :: ts)) →
  outstanding sh' = list_to_set (held_leases (t' :: ts)) ∧ NoDup (held_leases (t' :: ts)).
Proof.
  intros Ha Hc t t'. subst t t'. unfold held_leases. cbn [omap list_omap t_hist].
  destruct (answers_lease now e x sh sh' req hist Ha Hc) as
    [[-> ->]|[(h & -> & -> & Hnew & ->)|(h & -> & -> & ->)]]; [done|..]; cbn [fmap option_fmap option_map].
  - intros Hout Hnd. rewrite Hout in Hnew. rewrite Hout. split; [by rewrite list_to_set_cons|].
    apply NoDup_cons. split; [|done]. by rewrite elem_of_list_to_set in Hnew.
  - intros Hout [Hh Hnd]%NoDup_cons. rewrite Hout. split; [|done].
    rewrite list_to_set_cons. apply leibniz_equiv. rewrite <- (elem_of_list_to_set (C:=gset Z)) in Hh. set_solver.
Qed.

(** Removing a thread that holds a lease or none. *)
Lemma leases_after_end t ts (L : gset Z) :
  L = list_to_set (held_leases (t :: ts)) → NoDup (held_leases (t :: ts)) →
  (match held (t_hist t) with Some h => L ∖ {[ lease h ]} | None => L end) = list_to_set (held_leases ts) ∧
  NoDup (held_leases ts).
Proof.
  unfold held_leases. cbn [omap list_omap]. destruct (held (t_hist t)) as [h|]; cbn [fmap option_fmap option_map]; [|done].
  intros -> [Hh Hnd]%NoDup_cons. split; [|done]. rewrite list_to_set_cons. apply leibniz_equiv.
  rewrite <- (elem_of_list_to_set (C:=gset Z)) in Hh. set_solver.
Qed.

Lemma service_step_inv l s s' : service_inv s → service_step l s s' → service_inv s'.
Proof.
  intros [Hl Ho Hd Hb Ht He] Hstep.
  destruct Hstep as [sh now now' ts log|sh now ts log req Hroom|sh now ts log req|
    sh sh' now ts ts' log req X e k hist x Hp Ha|sh now ts ts' log req r hist Hp|
    sh now ts ts' log req X e k hist Hp Haw|sh now ts log ks n st' Hks Hsw]; cbn in *.
  - by split.
  - split; try done; cbn; [|by constructor; [constructor|]].
    rewrite in_flight_cons. unfold limited. cbn. case_match; [|lia]. specialize (Hroom eq_refl). lia.
  - split; try done; cbn. constructor; [|done]. split; [split; [by left|done]|done].
  - rewrite (held_leases_perm _ _ Hp) in Ho, Hd. rewrite (in_flight_perm _ _ Hp), in_flight_cons in Hb.
    rewrite Hp in Ht. apply Forall_cons in Ht as [Ht Hts].
    assert (steps auth _ [] (k x) (call_of e x :: hist)) as Ht'
      by (apply steps_call; [exact Ht|by eapply answers_ok]).
    apply thread_conforms in Ht' as Hc; [|apply _..].
    destruct (leases_after_call now e x sh sh' req k hist ts' Ha Hc Ho Hd) as [Ho' Hd'].
    split; cbn; [by eapply answers_limiter|done|done| |by constructor|done].
    rewrite in_flight_cons. exact Hb.
  - rewrite (held_leases_perm _ _ Hp) in Ho, Hd. rewrite (in_flight_perm _ _ Hp), in_flight_cons in Hb.
    rewrite Hp in Ht. apply Forall_cons in Ht as [Ht Hts].
    assert (held hist = None) as Hnone by (by eapply finished_settled).
    destruct (leases_after_end _ _ _ Ho Hd) as [Ho' Hd']. cbn [t_hist] in Ho'. rewrite Hnone in Ho'.
    split; cbn; [done|done|done|case_match; lia|done|].
    constructor; [|done]. split; [|done]. by eapply thread_conforms.
  - rewrite (held_leases_perm _ _ Hp) in Ho, Hd. rewrite (in_flight_perm _ _ Hp), in_flight_cons in Hb.
    rewrite Hp in Ht. apply Forall_cons in Ht as [Ht Hts].
    apply issued_conforms in Ht as Hc; [|apply _..].
    assert (held (issued e ++ hist) = held hist) as Hheld by (by destruct e).
    destruct (leases_after_end _ _ _ Ho Hd) as [Ho' Hd']. cbn [t_hist] in Ho'.
    split; cbn [shared threads ended]; [by rewrite Hheld; destruct (held hist)| |done|by destruct (limited _ _ _ _ _ _ _) in Hb; lia|done|].
    + rewrite Hheld. by destruct (held hist).
    + constructor; [by apply drop_conforms|done].
  - split; try done; cbn. eapply limiter_step_wf; [apply rl_ok|exact Hl|]. by eapply ls_sweep.
Qed.

Lemma service_reachable_inv s :
  service_reachable sha256 number_to_string value_to_string from_slice cfg dispatch auth s → service_inv s.
Proof.
  intros [now Hrun]. eapply run_preserves; [by apply service_step_inv|exact Hrun|apply start_inv].
Qed.

(** A request with a lease is one of those the concurrency limit counts. *)
Lemma held_limited t h :
  conforming (t_req t) (t_hist t) → held (t_hist t) = Some h →
  limited sha256 number_to_string value_to_string from_slice cfg dispatch t = true.
Proof.
  intros [[Hun|(who & scheme & bearer & asked & handled & Hm & Hp & _)] _] Hh.
  { rewrite held_untouched in Hh by done. done. }
  unfold limited. rewrite (dispatch_expected dispatch).
  by apply (expected_route_cases sha256 number_to_string value_to_string from_slice cfg).
Qed.

Lemma leases_in_flight ts :
  Forall (λ t, conforming (t_req t) (t_hist t)) ts → (Z.of_nat (length (held_leases ts)) ≤ in_flight ts)%Z.
Proof.
  induction 1 as [|t ts Ht _ IH]; [done|]. rewrite in_flight_cons. unfold held_leases in *. cbn [omap list_omap].
  destruct (held (t_hist t)) as [h|] eqn:Hh; cbn [fmap option_fmap option_map].
  - rewrite (held_limited t h) by done. cbn [length]. lia.
  - case_match; lia.
Qed.

(** C2. The whole service under any interleaving of requests, timeouts,
    disconnections, maintenance and time: the rate limiter stays well-formed;
    the leases handed out are exactly those that requests in flight hold, no
    two the same, and at most [max_in_flight] of them; every request, in flight
    or ended, touched a bucket or a pool only as an API request whose bearer
    token the authenticator recognised and only along the request protocol, and
    probed only the bucket of an identity it had just authenticated as; and
    every request that ended, however it ended, has given its lease back. *)
Theorem service_safe s
    (Hs : service_reachable sha256 number_to_string value_to_string from_slice cfg dispatch auth s) :
  limiter_wf rl (limiter (shared s)) ∧
  outstanding (shared s) = list_to_set (held_leases (threads s)) ∧ NoDup (held_leases (threads s)) ∧
  (Z.of_nat (size (outstanding (shared s))) ≤ in_flight (threads s) ≤ max_in_flight (load (server cfg)))%Z ∧
  Forall (λ t, conforming (t_req t) (t_hist t)) (threads s) ∧
  Forall (λ rh, conforming rh.1 rh.2 ∧ held rh.2 = None) (ended s).
Proof.
  destruct (service_reachable_inv s Hs) as [Hl Ho Hd Hb Ht He].
  assert (Forall (λ t, conforming (t_req t) (t_hist t)) (threads s)) as Hc.
  { eapply Forall_impl; [exact Ht|]. intros t Hst. eapply thread_conforms; [apply _..|exact Hst]. }
  split_and!; try done. rewrite Ho, size_list_to_set by done. by apply leases_in_flight.
Qed.
End Invariant.

(** ** Witness *)

(** One request, authenticated, charged and holding a lease. *)
Definition demo_authenticate (bearer : string) : Prog (result (option Identity) AuthError) :=
  Ret (Ok (Some sample_who)).

(** The answers of an idle service, computed. *)
Definition demo_answer (now : Z) {X : Type} (e : Eff X) (sh : Shared) : option (X * Shared) :=
  match e in Eff.Eff X return (unit → X) → option (X * Shared) with
  | Eff.Probe key => λ _,
      if decide (next_order (lru (buckets (limiter sh))) < u64_max)%Z then
        let '(r, l) := limiter_probe (rl sample_config) now key (limiter sh) in Some (r, mkShared l (outstanding sh))
      else None
  | Eff.Charge key count => λ _,
      if decide ((0 ≤ count ≤ u64_max)%Z ∧ (next_order (lru (buckets (limiter sh))) < u64_max)%Z) then
        let '(r, l) := limiter_charge (rl sample_config) now key count (limiter sh) in
        Some (r, mkShared l (outstanding sh))
      else None
  | Eff.TakeForgiven => λ _,
      let '(n, l) := take_debt_forgiven_evictions (limiter sh) in Some (n, mkShared l (outstanding sh))
  | Eff.Authenticate _ => λ _, Some (Ok (Some sample_who), sh)
  | Eff.Acquire _ => λ _,
      if decide (1%Z ∈ outstanding sh) then None
      else Some (Ok (mkHandle 1), mkShared (limiter sh) ({[ 1%Z ]} ∪ outstanding sh))
  | Eff.Release h => λ _, Some (tt, mkShared (limiter sh) (outstanding sh ∖ {[ lease h ]}))
  | _ => λ x, Some (x tt, sh)
  end (λ _, sample_oracle EmptyString X e []).

Lemma demo_answer_answers now {X} (e : Eff X) x sh sh' :
  demo_answer now e sh = Some (x, sh') → answers sample_config (can_answer demo_authenticate) now e x sh sh'.
Proof.
  destruct e; cbn -[limiter_probe limiter_charge take_debt_forgiven_evictions rl u64_max]; intros Ha;
    try (by simplify_eq).
  - case_decide; [|done]. destruct (limiter_probe _ _ _ _). by simplify_eq/=.
  - case_decide as Hd; [|done]. destruct (limiter_charge _ _ _ _ _). simplify_eq/=. by destruct Hd.
  - destruct (take_debt_forgiven_evictions _). by simplify_eq/=.
  - simplify_eq. split; [|done]. by exists (sample_oracle EmptyString), [].
  - case_decide; simplify_eq/=. done.
Qed.

Abbreviation demo_step := (service_step (λ b, b) (λ _, "1") (λ _, Ok "{}") (λ _, sample_pipeline)
  sample_config literal_dispatch (can_answer demo_authenticate)).
Abbreviation demo_reachable := (service_reachable (λ b, b) (λ _, "1") (λ _, Ok "{}") (λ _, sample_pipeline)
  sample_config literal_dispatch (can_answer demo_authenticate)).

(** The only request takes [n] calls. *)
Fixpoint demo_calls (n : nat) (s : Service) : option Service :=
  match n with
  | O => Some s
  | S n =>
      match threads s with
      | [mkThread req (Vis e k) hist] =>
          '(x, sh') ← demo_answer (instant s) e (shared s);
          demo_calls n (mkService sh' (instant s) [mkThread req (k x) (call_of e x :: hist)] (ended s))
      | _ => None
      end
  end.

Lemma demo_calls_steps n s s' : demo_calls n s = Some s' → rtc (some_step demo_step) s s'.
Proof.
  revert s. induction n as [|n IH]; intros [sh now ts log] Hs; [by simplify_eq/=|]. cbn in Hs.
  destruct ts as [|[req [r|X e k] hist] [|]]; try done. cbn in Hs.
  destruct (demo_answer now e sh) as [[x sh']|] eqn:Ha; [|done]. cbn in Hs.
  eapply rtc_l; [|by apply IH]. eexists. by eapply sv_call; [reflexivity|apply demo_answer_answers].
Qed.

Definition demo_arrived : Service :=
  mkService (mkShared limiter_init ∅) 5
    [mkThread demo_request (request_program (λ b, b) (λ _, "1") (λ _, Ok "{}") (λ _, sample_pipeline)
       sample_config literal_dispatch demo_request) []] [].

Lemma service_safe_witness :
  ∃ s, demo_calls 9 demo_arrived = Some s ∧ held_leases (threads s) = [1%Z] ∧
    outstanding (shared s) = {[ 1%Z ]} ∧ (1 ≤ max_in_flight (load (server sample_config)))%Z.
Proof.
  assert ((λ s, held_leases (threads s)) <$> demo_calls 9 demo_arrived = Some [1%Z]) as Hl
    by (vm_compute; reflexivity).
  destruct (demo_calls 9 demo_arrived) as [s|] eqn:Hs; [|discriminate Hl].
  cbn [fmap option_fmap option_map] in Hl. injection Hl as Hl.
  assert (demo_reachable s) as Hr.
  { exists 5%Z. eapply rtc_l; [|by eapply demo_calls_steps]. eexists. apply sv_arrive. intros _. vm_compute. done. }
  destruct (service_safe (λ b, b) (λ _, "1") (λ _, Ok "{}") (λ _, sample_pipeline) sample_config literal_dispatch
    (can_answer demo_authenticate) ltac:(split; vm_compute; discriminate) ltac:(split; vm_compute; discriminate) s Hr)
    as (_ & Ho & _ & Hb & _).
  exists s. split_and!; [done|done| |].
  - rewrite Ho, Hl. reflexivity.
  - rewrite Ho, Hl in Hb. change (size (list_to_set [1%Z] : gset Z)) with 1 in Hb. lia.
Defined.
