(* ===== verification/Wire.v ===== *)
(** * Redis operations message by message

    [Fred.v] gives what an operation of [src/src/adapters/fred_executor.rs]
    returns and has sent when it runs to its end.  The code awaits between the
    messages, and a request can be dropped there, so here the same operations
    are programs that say what they send next.  [wire_run] runs one to its end
    and agrees with [Fred.v] ([wire_execute_run] and the lemmas after it);
    [reached] is how far one has got, and where it can be abandoned.
    [in_transaction] says whether the server is still queueing when all this
    has been sent. *)
From S2P Require Import Prelude Domain Utf8 Acl Config Ports Pool Fred Server Service.

(** ** Operations of [CommandExecutor] *)

Module Op.
Inductive Op : Type :=
| Execute (cmd : RedisCommand)
| Pipeline (cmds : list RedisCommand)
| Transaction (cmds : list RedisCommand).
End Op.
Abbreviation Op := Op.Op.

Definition op_commands (op : Op) : list RedisCommand :=
  match op with Op.Execute cmd => [cmd] | Op.Pipeline cmds => cmds | Op.Transaction cmds => cmds end.

(** ** Programs that send *)

(** [SendAll] puts all its messages on the wire in one poll, as [join_all] does
    with futures that enqueue a command when first polled. *)
Inductive Wire (A : Type) : Type :=
| Done (a : A)
| Send (message : Sent) (k : result Resp3Frame FredError → Wire A)
| SendAll (messages : list Sent) (k : list (result Resp3Frame FredError) → Wire A)
| Connected (k : bool → Wire A).
Arguments Done {A} a.
Arguments Send {A} message k.
Arguments SendAll {A} messages k.
Arguments Connected {A} k.

Fixpoint wire_bind {A B : Type} (w : Wire A) (f : A → Wire B) : Wire B :=
  match w with
  | Done a => f a
  | Send m k => Send m (λ r, wire_bind (k r) f)
  | SendAll ms k => SendAll ms (λ rs, wire_bind (k rs) f)
  | Connected k => Connected (λ b, wire_bind (k b) f)
  end.

Notation "'let>' x := w 'in' k" := (wire_bind w (λ x, k))
  (at level 10, x pattern, w at level 100, k at level 200) : srh_scope.

(** [FredExecutor::map_error]; [reset] is [reset_started]. *)
Definition wire_map_error (error : FredError) (reset : bool) : Wire (ExecError * bool) :=
  let mapped := map_fred_error error in
  if decide (mapped = ExecError.Timeout) then
    Connected (λ up, if up then if reset then Done (mapped, reset)
                                else Send Sent.ForceReconnection (λ _, Done (mapped, true))
                     else Done (mapped, reset))
  else Done (mapped, reset).

Definition wire_answer (answer : result Resp3Frame FredError) (reset : bool) :
    Wire (result Resp3Frame ExecError * bool) :=
  match answer with
  | Ok frame => Done (Ok frame, reset)
  | Err error => let> (e, reset) := wire_map_error error reset in Done (Err e, reset)
  end.

(** [FredExecutor::raw]. *)
Definition wire_raw (name : string) (hash : ClusterHash) (args : list bytes) (reset : bool) :
    Wire (result Resp3Frame ExecError * bool) :=
  Send (Sent.Command name hash args) (λ answer, wire_answer answer reset).

(** [FredExecutor::execute]. *)
Definition wire_execute (command : RedisCommand) (reset : bool) : Wire (result RespValue ExecError * bool) :=
  let> (r, reset) := wire_raw (name command) ClusterHash.FirstKey (args command) reset in
  Done (let? frame := r in fred_frame_to_resp frame, reset).

(** The answers of a pipeline, each with its error mapped. *)
Fixpoint wire_results (answers : list (result Resp3Frame FredError)) (reset : bool) :
    Wire (list (result RespValue ExecError) * bool) :=
  match answers with
  | [] => Done ([], reset)
  | answer :: answers =>
      let> (r, reset) := wire_answer answer reset in
      let> (rs, reset) := wire_results answers reset in
      Done ((let? frame := r in fred_frame_to_resp frame) :: rs, reset)
  end.

(** [FredExecutor::pipeline]. *)
Definition wire_pipeline (commands : list RedisCommand) (reset : bool) :
    Wire (list (result RespValue ExecError) * bool) :=
  SendAll (send ClusterHash.FirstKey <$> commands) (λ answers, wire_results answers reset).

Section Transaction.
Context (redis_keyslot : bytes → Z) (debug : RespValue → string).

(** The queueing loop of [FredExecutor::transaction]. *)
Fixpoint wire_queue (hash : ClusterHash) (commands : list RedisCommand) (reset : bool) :
    Wire (result unit ExecError * bool) :=
  match commands with
  | [] => Done (Ok tt, reset)
  | command :: commands =>
      let> (r, reset) := wire_raw (name command) hash (args command) reset in
      match (let? frame := r in fred_frame_to_resp frame) with
      | Ok response =>
          if decide (response = RespValue.Simple "QUEUED") then wire_queue hash commands reset
          else
            let> (_, reset) := wire_raw "DISCARD" hash [] reset in
            Done (Err (protocol_violation
              ("transaction command returned " +:+ debug response +:+ " instead of QUEUED")), reset)
      | Err error => let> (_, reset) := wire_raw "DISCARD" hash [] reset in Done (Err error, reset)
      end
  end.

(** [FredExecutor::transaction]. *)
Definition wire_transaction (commands : list RedisCommand) (reset : bool) :
    Wire (result (list (result RespValue ExecError)) ExecError * bool) :=
  match commands with
  | [] => Done (Ok [], reset)
  | _ =>
      let hash := transaction_hash redis_keyslot commands in
      let> (r, reset) := wire_raw "MULTI" hash [] reset in
      match (let? frame := r in fred_frame_to_resp frame) with
      | Err error => Done (Err error, reset)
      | Ok response =>
          if decide (response = RespValue.Simple "OK") then
            let> (q, reset) := wire_queue hash commands reset in
            match q with
            | Err error => Done (Err error, reset)
            | Ok _ => let> (r, reset) := wire_raw "EXEC" hash [] reset in Done (exec_results r, reset)
            end
          else Done (Err (protocol_violation ("MULTI returned " +:+ debug response)), reset)
      end
  end.
End Transaction.

(** ** Messages of a program *)

(** All it may send, whatever the answers. *)
Fixpoint sends {A : Type} (P : Sent → Prop) (w : Wire A) : Prop :=
  match w with
  | Done _ => True
  | Send m k => P m ∧ ∀ r, sends P (k r)
  | SendAll ms k => Forall P ms ∧ ∀ rs, sends P (k rs)
  | Connected k => ∀ b, sends P (k b)
  end.

Lemma sends_bind {A B} P (w : Wire A) (f : A → Wire B) :
  sends P w → (∀ a, sends P (f a)) → sends P (wire_bind w f).
Proof. intros Hw Hf. induction w as [a|m k IH|ms k IH|k IH]; cbn in *; [done|..]; naive_solver. Qed.

Lemma wire_answer_sends (P : Sent → Prop) answer reset :
  P Sent.ForceReconnection → sends P (wire_answer answer reset).
Proof.
  intros Hf. destruct answer as [frame|error]; [done|]. apply sends_bind; [|by intros []].
  unfold wire_map_error. case_decide; [|done]. intros []; [|done]. by destruct reset.
Qed.

Lemma wire_raw_sends (P : Sent → Prop) name hash args reset :
  P Sent.ForceReconnection → P (Sent.Command name hash args) → sends P (wire_raw name hash args reset).
Proof. intros Hf Hm. split; [done|]. intros answer. by apply wire_answer_sends. Qed.

Lemma wire_results_sends (P : Sent → Prop) answers reset :
  P Sent.ForceReconnection → sends P (wire_results answers reset).
Proof.
  intros Hf. revert reset. induction answers as [|answer answers IH]; intros reset; [done|].
  apply sends_bind; [by apply wire_answer_sends|]. intros [r reset1]. apply sends_bind; [apply IH|by intros []].
Qed.

(** ** Operations as programs *)

Section Ops.
Context (redis_keyslot : bytes → Z) (debug : RespValue → string).

(** An operation on an executor fresh from [from_pooled_client]. *)
Definition op_program (op : Op) : Wire Answer :=
  match op with
  | Op.Execute cmd => let> (r, _) := wire_execute cmd false in Done (Answer.Value r)
  | Op.Pipeline cmds => let> (rs, _) := wire_pipeline cmds false in Done (Answer.Values rs)
  | Op.Transaction cmds =>
      let> (r, _) := wire_transaction redis_keyslot debug cmds false in Done (Answer.Exec r)
  end.

(** What an operation may put on the wire. *)
Definition op_message (op : Op) (m : Sent) : Prop :=
  m = Sent.ForceReconnection ∨
  match op with
  | Op.Execute cmd => m = send ClusterHash.FirstKey cmd
  | Op.Pipeline cmds => m ∈ send ClusterHash.FirstKey <$> cmds
  | Op.Transaction cmds =>
      let hash := transaction_hash redis_keyslot cmds in
      m ∈ send hash <$> cmds ∨ ∃ name, name ∈ ["MULTI"; "EXEC"; "DISCARD"] ∧ m = Sent.Command name hash []
  end.

Lemma wire_queue_sends (P : Sent → Prop) hash commands reset :
  P Sent.ForceReconnection → P (Sent.Command "DISCARD" hash []) → Forall (λ c, P (send hash c)) commands →
  sends P (wire_queue debug hash commands reset).
Proof.
  intros Hf Hd Hall. revert reset. induction Hall as [|c commands Hc _ IH]; intros reset; [done|].
  apply sends_bind; [by apply wire_raw_sends|]. intros [r reset1].
  destruct (let? frame := r in fred_frame_to_resp frame); [case_decide; [apply IH|]|];
    (apply sends_bind; [by apply wire_raw_sends|by intros []]).
Qed.

Lemma op_program_sends op : sends (op_message op) (op_program op).
Proof.
  assert (∀ op, op_message op Sent.ForceReconnection) as Hf by (by left).
  destruct op as [cmd|cmds|cmds]; (apply sends_bind; [|by intros []]).
  - apply sends_bind; [|by intros []]. apply wire_raw_sends; [done|]. by right.
  - split; [|intros answers; by apply wire_results_sends]. apply Forall_forall. intros m Hm. by right.
  - assert (∀ name, name ∈ ["MULTI"; "EXEC"; "DISCARD"] →
      op_message (Op.Transaction cmds) (Sent.Command name (transaction_hash redis_keyslot cmds) [])) as Hcontrol
      by (intros; right; right; eauto).
    unfold wire_transaction. destruct cmds as [|c cs]; [done|]. set (cmds := c :: cs) in *. cbv zeta.
    apply sends_bind; [apply wire_raw_sends; [done|apply Hcontrol; set_solver]|]. intros [r reset1].
    destruct (let? frame := r in fred_frame_to_resp frame); [|done]. case_decide; [|done].
    apply sends_bind; [apply wire_queue_sends; [done|apply Hcontrol; set_solver|]|].
    + apply Forall_forall. intros x Hx. right; left. by apply list_elem_of_fmap_2.
    + intros [[]  reset2]; [|done].
      apply sends_bind; [apply wire_raw_sends; [done|apply Hcontrol; set_solver]|by intros []].
Qed.

End Ops.

(** ** Running on a connection *)

Section Run.
(** Fred's answers and its state, given all that was sent before. *)
Context (custom_raw : list Sent → Sent → result Resp3Frame FredError).
Context (is_connected : list Sent → bool).

(** Messages sent together, each answered with the ones before it sent. *)
Fixpoint answers_to (past : list Sent) (messages : list Sent) : list (result Resp3Frame FredError) :=
  match messages with
  | [] => []
  | m :: messages => custom_raw past m :: answers_to (m :: past) messages
  end.

(** To the end: the result, and all that was sent, latest first. *)
Fixpoint wire_run {A : Type} (w : Wire A) (past : list Sent) : A * list Sent :=
  match w with
  | Done a => (a, past)
  | Send m k => wire_run (k (custom_raw past m)) (m :: past)
  | SendAll ms k => wire_run (k (answers_to past ms)) (rev ms ++ past)
  | Connected k => wire_run (k (is_connected past)) past
  end.

(** One step: what is left, and what was sent. *)
Definition wire_step {A : Type} (w : Wire A) (past : list Sent) : option (Wire A * list Sent) :=
  match w with
  | Done _ => None
  | Send m k => Some (k (custom_raw past m), [m])
  | SendAll ms k => Some (k (answers_to past ms), rev ms)
  | Connected k => Some (k (is_connected past), [])
  end.

(** What is left of a program, and what it has sent, latest first. *)
Inductive reached {A : Type} (w : Wire A) (past : list Sent) : Wire A → list Sent → Prop :=
| reached_refl : reached w past w []
| reached_step w' piece w'' new :
    reached w past w' piece → wire_step w' (piece ++ past) = Some (w'', new) → reached w past w'' (new ++ piece).

Lemma wire_run_bind {A B} (w : Wire A) (f : A → Wire B) past :
  wire_run (wire_bind w f) past = let '(a, past) := wire_run w past in wire_run (f a) past.
Proof. revert past. induction w as [a|m k IH|ms k IH|k IH]; intros past; cbn; auto. Qed.

Lemma wire_run_extends {A} (w : Wire A) past : ∃ later, (wire_run w past).2 = later ++ past.
Proof.
  revert past. induction w as [a|m k IH|ms k IH|k IH]; intros past; cbn; [by exists []|..|apply IH].
  - destruct (IH (custom_raw past m) (m :: past)) as [later ->]. exists (later ++ [m]). by rewrite <- app_assoc.
  - destruct (IH (answers_to past ms) (rev ms ++ past)) as [later ->]. exists (later ++ rev ms).
    by rewrite <- app_assoc.
Qed.

(** Where a program gets to is on the way to its end. *)
Lemma reached_run {A} (w w' : Wire A) past piece :
  reached w past w' piece → wire_run w past = wire_run w' (piece ++ past).
Proof.
  induction 1 as [|w' piece w'' new _ -> Hs]; [done|].
  destruct w' as [a|m k|ms k|k]; cbn in Hs; try done; injection Hs as <- <-; cbn; by rewrite ?app_assoc.
Qed.

(** ** Agreement with [Fred.v] *)

(** What an operation of [Fred.v] returned and sent, in the shape of a run. *)
Definition outcome {A : Type} (x : A * FredState) : (A * bool) * list Sent :=
  ((x.1, reset_started x.2), sent x.2).

Lemma wire_answer_run answer reset past :
  wire_run (wire_answer answer reset) past =
  match answer with
  | Ok frame => ((Ok frame, reset), past)
  | Err error => let '(e, st) := map_error is_connected error (mkFredState past reset) in
                 ((Err e, reset_started st), sent st)
  end.
Proof.
  destruct answer as [frame|error]; [done|]. unfold wire_answer, wire_map_error, map_error. rewrite wire_run_bind.
  cbn [sent reset_started]. case_decide; cbn; [|done]. destruct (is_connected past), reset; done.
Qed.

Lemma wire_raw_run name hash args reset past :
  wire_run (wire_raw name hash args reset) past =
    outcome (raw custom_raw is_connected name hash args (mkFredState past reset)).
Proof.
  unfold wire_raw, raw, outcome. cbn [wire_run sent reset_started]. rewrite wire_answer_run.
  destruct (custom_raw past _) as [frame|error]; [done|]. by destruct (map_error _ _ _).
Qed.

Lemma wire_execute_run command reset past :
  wire_run (wire_execute command reset) past =
    outcome (fred_execute custom_raw is_connected command (mkFredState past reset)).
Proof.
  unfold wire_execute, fred_execute. rewrite wire_run_bind, wire_raw_run. by destruct (raw _ _ _ _ _ _).
Qed.

Lemma wire_queue_run debug hash commands reset past :
  wire_run (wire_queue debug hash commands reset) past =
    outcome (queue_commands custom_raw is_connected debug hash commands (mkFredState past reset)).
Proof.
  revert reset past. induction commands as [|command commands IH]; intros reset past; [done|].
  cbn [wire_queue queue_commands]. rewrite wire_run_bind, wire_raw_run.
  destruct (raw _ _ _ _ _ _) as [r [past1 reset1]]. cbn [outcome fst snd sent reset_started].
  destruct (let? frame := r in fred_frame_to_resp frame) as [response|error]; [case_decide; [apply IH|]|];
    rewrite wire_run_bind, wire_raw_run; by destruct (raw _ _ _ _ _ _).
Qed.

Lemma wire_transaction_run redis_keyslot debug commands reset past :
  wire_run (wire_transaction redis_keyslot debug commands reset) past =
    outcome (fred_transaction custom_raw is_connected redis_keyslot debug commands (mkFredState past reset)).
Proof.
  unfold wire_transaction, fred_transaction, transaction_locked. destruct commands as [|c cs]; [done|].
  set (commands := c :: cs). cbv zeta. rewrite wire_run_bind, wire_raw_run.
  destruct (raw _ _ _ _ _ _) as [r [past1 reset1]]. cbn [outcome fst snd sent reset_started].
  destruct (let? frame := r in fred_frame_to_resp frame) as [response|error]; [|done].
  case_decide; [|done]. rewrite wire_run_bind, wire_queue_run.
  destruct (queue_commands _ _ _ _ _ _) as [[[]|error] [past2 reset2]]; cbn [outcome fst snd sent reset_started]; [|done].
  rewrite wire_run_bind, wire_raw_run. by destruct (raw _ _ _ _ _ _).
Qed.

Lemma pipeline_sent commands answers past reset :
  foldl (λ acc command,
      let '(answers, st) := acc in
      let command := Sent.Command (name command) ClusterHash.FirstKey (args command) in
      (answers ++ [custom_raw (sent st) command], mkFredState (command :: sent st) (reset_started st)))
    (answers, mkFredState past reset) commands =
  let messages := send ClusterHash.FirstKey <$> commands in
  (answers ++ answers_to past messages, mkFredState (rev messages ++ past) reset).
Proof.
  revert answers past. induction commands as [|command commands IH]; intros answers past; [cbn; by rewrite app_nil_r|].
  cbn [foldl]. rewrite IH. cbn. by rewrite <- !app_assoc.
Qed.

Lemma pipeline_results answers results past reset :
  foldl (λ acc answer,
    let '(results, st) := acc in
    match answer with
    | Ok frame => (results ++ [fred_frame_to_resp frame], st)
    | Err error => let '(e, st) := map_error is_connected error st in (results ++ [Err e], st)
    end) (results, mkFredState past reset) answers =
  let '((rs, reset), past) := wire_run (wire_results answers reset) past in (results ++ rs, mkFredState past reset).
Proof.
  revert results past reset. induction answers as [|answer answers IH]; intros results past reset;
    [cbn; by rewrite app_nil_r|].
  cbn [foldl wire_results]. rewrite wire_run_bind, wire_answer_run. destruct answer as [frame|error].
  - rewrite IH, wire_run_bind. destruct (wire_run (wire_results _ _) _) as [[rs reset1] past1]. cbn.
    by rewrite <- app_assoc.
  - destruct (map_error _ _ _) as [e [past1 reset1]]. cbn [sent reset_started]. rewrite IH, wire_run_bind.
    destruct (wire_run (wire_results _ _) _) as [[rs reset2] past2]. cbn. by rewrite <- app_assoc.
Qed.

Lemma wire_pipeline_run commands reset past :
  wire_run (wire_pipeline commands reset) past =
    outcome (fred_pipeline custom_raw is_connected commands (mkFredState past reset)).
Proof.
  unfold fred_pipeline. rewrite pipeline_sent. cbn [app]. cbv zeta. rewrite pipeline_results. cbn [wire_run wire_pipeline].
  by destruct (wire_run (wire_results _ _) _) as [[rs reset1] past1].
Qed.

Lemma reached_sends {A} P (w w' : Wire A) past piece :
  sends P w → reached w past w' piece → sends P w' ∧ Forall P piece.
Proof.
  intros Hw. induction 1 as [|w' piece w'' new _ [IHw IHp] Hs]; [done|].
  destruct w' as [a|m k|ms k|k]; cbn in Hs, IHw; try done; injection Hs as <- <-.
  - destruct IHw as [? ?]. split; [done|]. by constructor.
  - destruct IHw as [? ?]. split; [done|]. apply Forall_app. split; [by apply Forall_rev|done].
  - done.
Qed.

Section Open.
Context (redis_keyslot : bytes → Z) (debug : RespValue → string).
Abbreviation op_program := (op_program redis_keyslot debug).

(** ** Transactions left open *)

(** Whether the server is queueing: MULTI was answered OK and nothing that ends
    it has been sent since. *)
Fixpoint in_transaction (past : list Sent) : bool :=
  match past with
  | [] => false
  | Sent.ForceReconnection :: _ => false
  | Sent.Command name hash args :: past =>
      if String.eqb (to_ascii_uppercase name) "MULTI" then
        match custom_raw past (Sent.Command name hash args) with
        | Ok (Resp3Frame.SimpleString answer) => String.eqb answer "OK" || in_transaction past
        | _ => in_transaction past
        end
      else if contains ["EXEC"; "DISCARD"] (to_ascii_uppercase name) then false
      else in_transaction past
  end.

Definition begins (name : string) : bool := String.eqb (to_ascii_uppercase name) "MULTI".

Definition ordinary (m : Sent) : Prop :=
  match m with Sent.Command name _ _ => begins name = false | Sent.ForceReconnection => True end.

(** Only MULTI opens a transaction. *)
Lemma ordinary_keeps piece past :
  Forall ordinary piece → in_transaction (piece ++ past) = true → in_transaction past = true.
Proof.
  induction 1 as [|[name hash args|] piece Hm _ IH]; cbn; [done|..|done]. unfold ordinary, begins in Hm. rewrite Hm.
  by destruct (contains _ _).
Qed.

Lemma reset_keeps tail past : reset_tail tail → in_transaction (tail ++ past) = true → in_transaction past = true.
Proof. by intros [-> | ->]. Qed.

Lemma refused_multi past hash :
  custom_raw past (Sent.Command "MULTI" hash []) ≠ Ok (Resp3Frame.SimpleString "OK") →
  in_transaction (Sent.Command "MULTI" hash [] :: past) = in_transaction past.
Proof.
  intros Hm. cbn. destruct (custom_raw _ _) as [[s| | | | | | | | | | | | | | |]|]; try done.
  destruct (String.eqb_spec s "OK") as [->|]; done.
Qed.

(** A transaction that runs to its end leaves none open. *)
Lemma whole_transaction_closes cmds past x piece :
  reached (op_program (Op.Transaction cmds)) past (Done x) piece →
  in_transaction (piece ++ past) = true → in_transaction past = true.
Proof.
  intros Hr%reached_run. cbn [op_program] in Hr. rewrite wire_run_bind, wire_transaction_run in Hr.
  destruct (fred_transaction _ _ _ _ _ _) as [r st'] eqn:Ht. cbn in Hr. injection Hr as _ <-.
  unfold fred_transaction in Ht. destruct cmds as [|c cs]; [by injection Ht as <- <-|].
  apply transaction_locked_sent in Ht. cbv zeta in Ht. cbn [sent] in Ht.
  destruct Ht as [(Hm & e & tail & _ & Ht & ->)|[_ [(e & k & cmd & tail & tail' & _ & _ & _ & Ht' & _ & _ & ->)|
    (tail & Ht & _ & -> & _)]]].
  - intros Hin%reset_keeps; [|done]. by rewrite refused_multi in Hin.
  - by intros Hin%reset_keeps.
  - by intros Hin%reset_keeps.
Qed.

(** What an operation without MULTI among its commands has sent, wherever it
    stopped, opens no transaction unless it is one that was stopped. *)
Lemma op_opens op past w piece :
  reached (op_program op) past w piece → Forall (λ c, begins (name c) = false) (op_commands op) →
  in_transaction (piece ++ past) = true →
  in_transaction past = true ∨ (∃ cmds, op = Op.Transaction cmds) ∧ ∀ x, w ≠ Done x.
Proof.
  intros Hr Hall Hin. destruct op as [cmd|cmds|cmds].
  1,2: left; apply ordinary_keeps in Hin; [done|];
    (eapply Forall_impl; [by eapply reached_sends, Hr; apply op_program_sends|]).
  - intros m [->| ->]; [done|]. cbn in *. by apply Forall_cons in Hall as [? _].
  - cbn in Hall. rewrite Forall_forall in Hall.
    intros m [->|(c & -> & Hc)%list_elem_of_fmap]; [done|]. by apply Hall.
  - destruct w as [x| | |]; [left; by eapply whole_transaction_closes|right; by eauto..].
Qed.
End Open.
End Run.
