(* ===== verification/System.v ===== *)
(** * The whole system: the concurrent service over the pool manager

    [Service.v] lets requests hold abstract leases; [Pool.v] and [PoolSpec.v]
    verify the manager of [src/src/adapters/pool_manager.rs] and show what a
    pool hands out.  Here they run together.  A request gets its lease in the
    step in which, in a pool entry, an acquisition becomes a handle on a client;
    it gives the lease back (by returning it, or by being dropped) in the step
    in which that handle is dropped; everything else either side does is
    internal: requests arrive, read, are charged and end, acquisitions queue,
    time out or are abandoned, connections come and go, idle pools are evicted
    and all of them shut down; but what an operation returned to a handle's
    breaker executor is in the label of its step, as are the answers to calls.  The entry a
    handle comes from is the one [get_or_build] returned for the name that was
    asked for, so the system records under which name an entry was built. *)
From S2P Require Import Prelude Domain Utf8 Acl Convert Parse Config Breaker RateLimit Ports Handlers Auth Observability Pool PoolSpec Server Service.

(** ** Handles of an entry *)

(** The clients whose handles are in the hands of requests. *)
Definition handles (s : PoolSys) : list nat := omap handle_client (tasks s).

Definition entry_handles (m : PoolManager) (id : nat) : list nat :=
  match heap m !! id with Some (_, s) => handles s | None => [] end.

Definition put_entry (m : PoolManager) (id : nat) (c : PoolParams) (s : PoolSys) : PoolManager :=
  mkPoolManager (manager_pools m) (<[id := (c, s)]> (heap m)).

(** The pool a history has a lease on. *)
Definition held_pool (hist : list Call) : option string :=
  foldr (λ c o, match c with
                | Call.Acquire name (Some _) => Some name
                | Call.Release _ => None
                | _ => o
                end) None hist.

(** ** The system *)

(** The requests, the pools, the name each entry was built under, and the entry
    and client behind each lease. *)
Record System : Type := mkSystem {
  sy_service : Service;
  sy_manager : PoolManager;
  sy_built : gmap nat string;
  sy_lent : gmap Z (nat * nat);
}.

Section System.
Context (sha256 : bytes → bytes).
Context (number_to_string : Number → string) (value_to_string : Value → result string unit).
Context (from_slice : bytes → Document) (cfg : Config).
Context (dispatch : list (string * MethodRouter) → string → Method → Found).
Context (auth : Authority).
Context (fred_pool : PoolConfig → result unit string).
Abbreviation service_step :=
  (service_step sha256 number_to_string value_to_string from_slice cfg dispatch auth).

Inductive system_step : Label → System → System → Prop :=
(* a request, the clock or the limiter's sweep, without a lease *)
| sys_service l sv sv' m built lent :
    service_step l sv sv' → outstanding (shared sv') = outstanding (shared sv) →
    system_step l (mkSystem sv m built lent) (mkSystem sv' m built lent)
(* [PoolManager::acquire] looks the pool up, or builds it *)
| sys_enter sv m m' built lent unix_secs now name r :
    manager_acquire fred_pool cfg unix_secs now name m = (r, m') →
    system_step Label.Internal (mkSystem sv m built lent)
      (mkSystem sv m' (match r with Ok id => <[id := name]> built | Err _ => built end) lent)
(* a step inside an entry *)
| sys_entry sv m built lent id c s s' :
    heap m !! id = Some (c, s) → pool_move c s s' → handles s' ≡ₚ handles s →
    system_step Label.Internal (mkSystem sv m built lent) (mkSystem sv (put_entry m id c s') built lent)
(* the handle on a client records what its operation returned *)
| sys_record sv m built lent id i c e e' ts ts' now x s' errors :
    heap m !! id = Some (c, mkPoolSys e ts now) → ts ≡ₚ Stage.Handle x i :: ts' →
    operate c now errors e (Stage.Handle x i) = Some (e', s') → (generation (breaker e) < u64_max)%Z →
    system_step (Label.Record_ id i errors) (mkSystem sv m built lent)
      (mkSystem sv (put_entry m id c (mkPoolSys e' (s' :: ts') now)) built lent)
| sys_evict sv m m' built lent unix_secs name n n' :
    evict_pool unix_secs name (n, m) = (n', m') →
    system_step Label.Internal (mkSystem sv m built lent) (mkSystem sv m' built lent)
| sys_shutdown sv m built lent name :
    system_step Label.Internal (mkSystem sv m built lent) (mkSystem sv (manager_shutdown [name] m) built lent)
(* an acquisition becomes a handle, and its request goes on with it *)
| sys_take sh sh' now ts ts' log req name k hist h m built lent id c s s' i :
    ts ≡ₚ mkThread req (Vis (Eff.Acquire name) k) hist :: ts' →
    answers cfg auth now (Eff.Acquire name) (Ok h) sh sh' →
    heap m !! id = Some (c, s) → built !! id = Some name →
    pool_move c s s' → handles s' ≡ₚ i :: handles s →
    system_step (Label.Call req hist (Eff.Acquire name) (Ok h)) (mkSystem (mkService sh now ts log) m built lent)
      (mkSystem (mkService sh' now (mkThread req (k (Ok h)) (Call.Acquire name (Some h) :: hist) :: ts') log)
         (put_entry m id c s') built (<[lease h := (id, i)]> lent))
(* a request gives its lease back, or is dropped with it *)
| sys_give lb sv sv' m built lent l id c s s' i :
    service_step lb sv sv' → l ∈ outstanding (shared sv) →
    outstanding (shared sv') = outstanding (shared sv) ∖ {[ l ]} →
    lent !! l = Some (id, i) → heap m !! id = Some (c, s) →
    pool_move c s s' → handles s ≡ₚ i :: handles s' →
    system_step lb (mkSystem sv m built lent) (mkSystem sv' (put_entry m id c s') built (delete l lent)).

Definition system_start (now : Z) : System := mkSystem (service_start now) manager_new ∅ ∅.
Definition system_reachable (s : System) : Prop := ∃ now, rtc (some_step system_step) (system_start now) s.

(** ** Projections *)

Lemma take_service_step sh sh' now ts ts' log req name k hist h :
  ts ≡ₚ mkThread req (Vis (Eff.Acquire name) k) hist :: ts' →
  answers cfg auth now (Eff.Acquire name) (Ok h) sh sh' →
  service_step (Label.Call req hist (Eff.Acquire name) (Ok h)) (mkService sh now ts log)
    (mkService sh' now (mkThread req (k (Ok h)) (Call.Acquire name (Some h) :: hist) :: ts') log).
Proof.
  intros Hp Ha. exact (sv_call sha256 number_to_string value_to_string from_slice cfg dispatch auth
    sh sh' now ts ts' log req (Eff.Acquire name) k hist (Ok h) Hp Ha).
Qed.

(** A step of the system is a step of the service, or leaves it alone; and of
    the manager likewise. *)
Lemma system_service_step l s s' : system_step l s s' → rtc (some_step service_step) (sy_service s) (sy_service s').
Proof. destruct 1; cbn; try apply rtc_refl; eapply some_step_once; eauto using take_service_step. Qed.

Lemma system_manager_step l s s' :
  system_step l s s' → rtc (manager_step fred_pool cfg) (sy_manager s) (sy_manager s').
Proof.
  destruct 1; cbn; try apply rtc_refl; apply rtc_once;
    [by eapply manager_step_acquire|by eapply manager_step_entry, pool_moves|
     by eapply manager_step_entry, pool_operate|by eapply manager_step_evict|apply manager_step_shutdown|
     by eapply manager_step_entry, pool_moves|by eapply manager_step_entry, pool_moves].
Qed.

Lemma system_reachable_parts s :
  system_reachable s →
  service_reachable sha256 number_to_string value_to_string from_slice cfg dispatch auth (sy_service s) ∧
  manager_reachable fred_pool cfg (sy_manager s).
Proof.
  intros [now Hs]. unfold service_reachable, manager_reachable. split.
  - exists now. exact (run_simulates _ _ _ system_service_step _ _ Hs).
  - exact (run_simulates _ _ _ system_manager_step _ _ Hs).
Qed.
End System.

(** ** Handles and the operations of the manager *)

Lemma entry_handles_put m id c s id' :
  entry_handles (put_entry m id c s) id' = if decide (id = id') then handles s else entry_handles m id'.
Proof.
  unfold entry_handles, put_entry. cbn. case_decide as Hid; [subst; by rewrite lookup_insert_eq|].
  by rewrite lookup_insert_ne.
Qed.

Lemma entry_handles_alter ps h f id id' :
  (∀ cs, handles (f cs).2 = handles cs.2) →
  entry_handles (mkPoolManager ps (alter f id h)) id' = entry_handles (mkPoolManager ps h) id'.
Proof.
  intros Hf. unfold entry_handles. cbn. destruct (decide (id = id')) as [<-|Hne].
  - rewrite lookup_alter_eq. destruct (h !! id) as [cs|]; [|done]. cbn. specialize (Hf cs).
    destruct cs as [c s], (f (c, s)). exact Hf.
  - by rewrite lookup_alter_ne.
Qed.

Lemma remove_pool_handles after name id m id' : entry_handles (remove_pool after name id m) id' = entry_handles m id'.
Proof. unfold remove_pool. rewrite entry_handles_alter; [done|]. done. Qed.

Lemma evict_handles unix_secs name n m n' m' id :
  evict_pool unix_secs name (n, m) = (n', m') → entry_handles m' id = entry_handles m id.
Proof. unfold evict_pool. intros He. repeat case_match; simplify_eq; try done; apply remove_pool_handles. Qed.

Lemma shutdown_handles name m id : entry_handles (manager_shutdown [name] m) id = entry_handles m id.
Proof. cbn. case_match; [apply remove_pool_handles|done]. Qed.

(** Building a pool adds an entry without handles under a new id; entering one
    adds no handle. *)
Lemma get_or_build_handles fred_pool cfg unix_secs now name m r m' id :
  get_or_build fred_pool cfg unix_secs now name m = (r, m') → entry_handles m' id = entry_handles m id.
Proof.
  unfold get_or_build. destruct (pools cfg !! name) as [p|]; [|by intros [= _ <-]].
  destruct (manager_pools m !! name) as [id'|].
  { intros [= _ <-]. rewrite entry_handles_alter; [by destruct m|done]. }
  destruct (fred_pool p); [|by intros [= _ <-]]. intros [= _ <-].
  set (new := fresh (dom (heap m))).
  assert (heap m !! new = None) as Hnew by (apply not_elem_of_dom, is_fresh).
  unfold entry_handles. cbn. destruct (decide (new = id)) as [<-|Hne].
  - by rewrite lookup_insert_eq, Hnew.
  - by rewrite lookup_insert_ne.
Qed.

Lemma acquire_handles fred_pool cfg unix_secs now name m r m' id :
  manager_acquire fred_pool cfg unix_secs now name m = (r, m') → entry_handles m' id = entry_handles m id.
Proof.
  unfold manager_acquire. destruct (get_or_build _ _ unix_secs now name m) as [[id'|e] m1] eqn:Hg; intros [= _ <-].
  - rewrite entry_handles_alter by done. destruct m1. by eapply get_or_build_handles.
  - by eapply get_or_build_handles.
Qed.

(** The entry an acquisition enters is registered under the name; the other
    entries keep their parameters and names. *)
Lemma acquire_entry_of fred_pool cfg unix_secs now name m r m' :
  manager_acquire fred_pool cfg unix_secs now name m = (r, m') →
  (∀ id, r = Ok id → manager_pools m' !! name = Some id) ∧
  (∀ name' id, manager_pools m' !! name' = Some id → manager_pools m !! name' = Some id ∨ name' = name ∧ r = Ok id) ∧
  (∀ id c s, heap m !! id = Some (c, s) → ∃ s', heap m' !! id = Some (c, s')) ∧
  (∀ id, r = Ok id → manager_pools m !! name = Some id ∨ heap m !! id = None).
Proof.
  unfold manager_acquire, get_or_build. destruct (pools cfg !! name) as [p|]; [|intros [= <- <-]; naive_solver].
  assert (∀ f id (h : gmap nat (PoolParams * PoolSys)) id' c s, (∀ cs : PoolParams * PoolSys, (f cs).1 = cs.1) →
    h !! id' = Some (c, s) → ∃ s', alter f id h !! id' = Some (c, s')) as Halter.
  { intros f id h id' c s Hf Hl. destruct (decide (id = id')) as [<-|Hne].
    - rewrite lookup_alter_eq, Hl. cbn. exists (f (c, s)).2. f_equal. specialize (Hf (c, s)).
      destruct (f (c, s)); cbn in *; congruence.
    - exists s. by rewrite lookup_alter_ne. }
  destruct (manager_pools m !! name) as [id'|] eqn:Hn.
  - intros [= <- <-]. cbn. split_and!.
    + by intros id [= <-].
    + by left.
    + intros id c s Hl. destruct (Halter (on_entry (λ e, with_last_used unix_secs (ensure_connection_task e))) id' _ id c s
        (λ _, eq_refl) Hl) as [s1 Hs1]. by eapply Halter.
    + intros id [= <-]. by left.
  - destruct (fred_pool p); [|intros [= <- <-]; naive_solver]. intros [= <- <-]. cbn.
    set (new := fresh (dom (heap m))).
    assert (heap m !! new = None) as Hnew by (apply not_elem_of_dom, is_fresh). split_and!.
    + intros id [= <-]. by rewrite lookup_insert_eq.
    + intros name' id [[<- <-]|[Hne Hl]]%lookup_insert_Some; auto.
    + intros id c s Hl. eapply Halter; [done|]. rewrite lookup_insert_ne; [done|]. intros <-. congruence.
    + intros id [= <-]. by right.
Qed.

(** ** Leases in histories *)

Section Histories.
Context (sha256 : bytes → bytes).

(** The lease of a request that follows the protocol is on the pool of its
    caller. *)
Lemma phase_pool who hist p h :
  phase_of sha256 who hist = Some p → held hist = Some h → held_pool hist = Some (pool who).
Proof.
  revert p h. induction hist as [|c hist IH]; intros p h; [done|]. rewrite phase_cons.
  intros (p0 & Hp0 & Hstep)%bind_Some. pose proof (held_phase _ _ _ _ Hp0) as Hh. cbn.
  fold (held hist) (held_pool hist).
  destruct c as [? ? []|? ?|?|name [h'|]|? ?|? ?|?|]; cbn in Hstep |- *; try done; try (by eapply IH);
    destruct p0; cbn in Hstep; try done; try (by eapply IH).
  intros _. destruct (String.eqb_spec name (pool who)) as [->|]; done.
Qed.

Lemma held_pool_app h past : held_pool past = None → held_pool (h ++ past) = held_pool h.
Proof. unfold held_pool. intros Hp. rewrite foldr_app. by rewrite Hp. Qed.

Lemma held_pool_untouched hist : existsb touches hist = false → held_pool hist = None.
Proof.
  induction hist as [|c hist IH]; [done|]. simpl. intros [Hc Hh]%orb_false_iff.
  rewrite (IH Hh). by destruct c as [| | |? []| | | |].
Qed.

End Histories.

(** What a call does to the lease in a request's hands. *)
Lemma call_lease auth cfg now {X} (e : Eff X) x sh sh' hist :
  answers cfg auth now e x sh sh' →
  (held (call_of e x :: hist) = held hist ∧ held_pool (call_of e x :: hist) = held_pool hist ∧
   outstanding sh' = outstanding sh) ∨
  (∃ h, held (call_of e x :: hist) = Some h ∧ (lease h ∉ outstanding sh) ∧ outstanding sh' = {[ lease h ]} ∪ outstanding sh) ∨
  (held (call_of e x :: hist) = None).
Proof.
  intros Ha. destruct e; cbn in Ha |- *; try (left; by subst); try (left; naive_solver).
  - destruct x as [h|e]; [|left; by subst]. destruct Ha as [? ->]. right; left. by exists h.
  - by right; right.
Qed.


(** After a step that hands out no lease, each request with a lease had it. *)
Lemma kept_leases sha256 number_to_string value_to_string from_slice cfg dispatch auth l sv sv' t' h :
  service_step sha256 number_to_string value_to_string from_slice cfg dispatch auth l sv sv' →
  outstanding (shared sv') ⊆ outstanding (shared sv) →
  t' ∈ threads sv' → held (t_hist t') = Some h →
  ∃ t, t ∈ threads sv ∧ held (t_hist t) = Some h ∧ held_pool (t_hist t') = held_pool (t_hist t).
Proof.
  intros Hstep Hsub Ht' Hh.
  destruct Hstep as [sh now now' ts log|sh now ts log req Hroom|sh now ts log req|
    sh sh' now ts ts' log req X e k hist x Hp Ha|sh now ts ts' log req r hist Hp|
    sh now ts ts' log req X e k hist Hp Haw|sh now ts log ks n st' Hks Hsw]; cbn in *; eauto.
  - apply elem_of_cons in Ht' as [->|?]; [done|eauto].
  - apply elem_of_cons in Ht' as [->|Ht'].
    2:{ exists t'. split; [rewrite Hp; by right|done]. }
    destruct (call_lease auth cfg now e x sh sh' hist Ha) as [(H1 & H2 & _)|[(h' & _ & Hnew & Ho)|Hn]].
    + exists (mkThread req (Vis e k) hist). cbn [t_hist] in *. rewrite <- H1, <- H2. split; [rewrite Hp; left|done].
    + exfalso. apply Hnew, Hsub. rewrite Ho. set_solver.
    + cbn in Hh, Hn. by rewrite Hn in Hh.
  - exists t'. split; [rewrite Hp; by right|done].
  - exists t'. split; [rewrite Hp; by right|done].
Qed.

(** ** The invariant *)

Section Invariant.
Context (sha256 : bytes → bytes).
Context (number_to_string : Number → string) (value_to_string : Value → result string unit).
Context (from_slice : bytes → Document) (cfg : Config).
Context (dispatch : list (string * MethodRouter) → string → Method → Found) `{!StaticRouting dispatch}.
Context (auth : Authority) `{!Answering auth}.
Context (fred_pool : PoolConfig → result unit string).
Hypothesis Hrate : in_u64 (per_token_commands_per_sec (rate_limit (server cfg))).
Hypothesis Hmax : in_u64 (max_in_flight (load (server cfg))).
Hypothesis Hwaiters : ∀ name p, pools cfg !! name = Some p → in_u64 (max_waiters p).
Abbreviation service_step :=
  (service_step sha256 number_to_string value_to_string from_slice cfg dispatch auth).
Abbreviation service_inv :=
  (service_inv sha256 number_to_string value_to_string from_slice cfg dispatch auth).
Abbreviation system_step :=
  (system_step sha256 number_to_string value_to_string from_slice cfg dispatch auth fred_pool).

(** The leases, the record of what they are on, and the handles agree. *)
Record lent_ok (L : gset Z) (m : PoolManager) (lent : gmap Z (nat * nat)) : Prop := {
  lent_dom : dom lent = L;
  lent_handles : ∀ id i, i ∈ entry_handles m id ↔ ∃ l, lent !! l = Some (id, i);
  lent_distinct : ∀ l l' x, lent !! l = Some x → lent !! l' = Some x → l = l';
}.

(** The names entries were built under. *)
Record built_ok (m : PoolManager) (built : gmap nat string) : Prop := {
  built_pool : ∀ id name, built !! id = Some name →
    ∃ p s, pools cfg !! name = Some p ∧ heap m !! id = Some (pool_params p, s);
  built_map : ∀ name id, manager_pools m !! name = Some id → built !! id = Some name;
}.

(** A request with a lease has it on an entry built for the pool it named. *)
Definition lease_placed (built : gmap nat string) (lent : gmap Z (nat * nat)) (t : Thread) : Prop :=
  ∀ h, held (t_hist t) = Some h →
    ∃ name id i, held_pool (t_hist t) = Some name ∧ lent !! lease h = Some (id, i) ∧ built !! id = Some name.

Record system_inv (s : System) : Prop := {
  sy_service_ok : service_inv (sy_service s);
  sy_manager_ok : manager_inv cfg (sy_manager s);
  sy_lent_ok : lent_ok (outstanding (shared (sy_service s))) (sy_manager s) (sy_lent s);
  sy_built_ok : built_ok (sy_manager s) (sy_built s);
  sy_placed : Forall (lease_placed (sy_built s) (sy_lent s)) (threads (sy_service s));
}.

Lemma lent_ok_handles L m m' lent :
  (∀ id i, i ∈ entry_handles m' id ↔ i ∈ entry_handles m id) → lent_ok L m lent → lent_ok L m' lent.
Proof. intros Heq [Hd Hh Hi]. split; [done| |done]. intros id i. by rewrite Heq. Qed.

(** In a reachable pool no client has two handles. *)
Lemma handles_distinct m id : manager_inv cfg m → NoDup (entry_handles m id).
Proof.
  intros Hinv. unfold entry_handles. destruct (heap m !! id) as [[c s]|] eqn:Hl; [|constructor].
  destruct (heap_inv _ _ Hinv _ _ _ Hl) as [_ Hp]. destruct s as [e ts now]. by apply handles_NoDup in Hp as [? _].
Qed.

Lemma lent_ok_take L m lent id c s i l :
  manager_inv cfg (put_entry m id c s) → lent_ok L m lent → l ∉ L →
  handles s ≡ₚ i :: entry_handles m id →
  lent_ok ({[ l ]} ∪ L) (put_entry m id c s) (<[l := (id, i)]> lent).
Proof.
  intros Hinv [Hd Hh Hi] Hl Hp. pose proof (handles_distinct _ id Hinv) as Hnd.
  rewrite entry_handles_put, decide_True, Hp in Hnd by done. apply NoDup_cons in Hnd as [Hni _].
  assert (lent !! l = None) as Hnone by (apply not_elem_of_dom; by rewrite Hd).
  assert (∀ l', lent !! l' ≠ Some (id, i)) as Hnew by (intros l' Hl'; apply Hni, Hh; eauto).
  split.
  - rewrite dom_insert_L. set_solver.
  - intros id' j. rewrite entry_handles_put. case_decide as Hid.
    + subst id'. rewrite Hp, elem_of_cons, Hh. split.
      * intros [->|[l' Hl']]; [exists l; by rewrite lookup_insert_eq|]. exists l'.
        rewrite lookup_insert_ne; [done|]. congruence.
      * intros [l' [[<- [= <-]]|[_ ?]]%lookup_insert_Some]; eauto.
    + rewrite Hh. split; intros [l' Hl']; exists l'.
      * rewrite lookup_insert_ne; [done|]. congruence.
      * apply lookup_insert_Some in Hl' as [[_ [= ? _]]|[_ ?]]; done.
  - intros l1 l2 x [[<- <-]|[? H1]]%lookup_insert_Some [[<- He]|[? H2]]%lookup_insert_Some; try done; [| |eauto].
    + by destruct (Hnew l2).
    + subst x. by destruct (Hnew l1).
Qed.

Lemma lent_ok_give L m lent id c s i l :
  manager_inv cfg m → lent_ok L m lent → lent !! l = Some (id, i) →
  entry_handles m id ≡ₚ i :: handles s →
  lent_ok (L ∖ {[ l ]}) (put_entry m id c s) (delete l lent).
Proof.
  intros Hinv [Hd Hh Hi] Hl Hp. pose proof (handles_distinct _ id Hinv) as Hnd.
  rewrite Hp in Hnd. apply NoDup_cons in Hnd as [Hni _]. split.
  - by rewrite dom_delete_L, Hd.
  - intros id' j. rewrite entry_handles_put. setoid_rewrite lookup_delete_Some. case_decide as Hid.
    + subst id'. split.
      * intros Hj. assert (j ∈ entry_handles m id) as [l' Hl']%Hh by (rewrite Hp; by right).
        exists l'. split; [|done]. intros <-. rewrite Hl in Hl'. by simplify_eq.
      * intros (l' & Hne & Hl'). assert (j ∈ entry_handles m id) as Hj by (apply Hh; eauto).
        rewrite Hp in Hj. apply elem_of_cons in Hj as [->|?]; [|done]. destruct Hne. by eapply Hi.
    + rewrite Hh. split; [|naive_solver]. intros [l' Hl']. exists l'. split; [|done]. intros <-. by simplify_eq.
  - intros l1 l2 x [_ ?]%lookup_delete_Some [_ ?]%lookup_delete_Some. by eapply Hi.
Qed.

Lemma built_ok_put m built id c s s' :
  built_ok m built → heap m !! id = Some (c, s) → built_ok (put_entry m id c s') built.
Proof.
  intros [Hp Hm] Hl. split; [|done]. intros id' name Hn. destruct (Hp id' name Hn) as (p & t & ? & Ht). cbn.
  destruct (decide (id = id')) as [<-|Hne]; [|exists p, t; by rewrite lookup_insert_ne].
  exists p, s'. rewrite lookup_insert_eq. split; congruence.
Qed.

Lemma built_ok_remove after m built name id :
  built_ok m built → built_ok (remove_pool after name id m) built.
Proof.
  intros [Hp Hm]. split; cbn.
  - intros id' name' Hn. destruct (Hp id' name' Hn) as (p & t & ? & Ht). exists p.
    destruct (decide (id = id')) as [<-|Hne]; [|exists t; by rewrite lookup_alter_ne].
    rewrite lookup_alter_eq, Ht. cbn. eauto.
  - intros name' id' [_ Hl]%lookup_delete_Some. by apply Hm.
Qed.

Lemma built_ok_acquire m built unix_secs now name r m' :
  manager_inv cfg m' → built_ok m built → manager_acquire fred_pool cfg unix_secs now name m = (r, m') →
  built_ok m' (match r with Ok id => <[id := name]> built | Err _ => built end) ∧
  (∀ id name', built !! id = Some name' →
     (match r with Ok id => <[id := name]> built | Err _ => built end) !! id = Some name').
Proof.
  intros Hinv' [Hp Hm] Ha. destruct (acquire_entry_of _ _ _ _ _ _ _ _ Ha) as (Hreg & Hback & Hheap & Hfresh).
  assert (∀ id name', built !! id = Some name' →
     (match r with Ok id => <[id := name]> built | Err _ => built end) !! id = Some name') as Hgrow.
  { intros id name' Hn. destruct r as [id'|e]; [|done]. destruct (decide (id' = id)) as [->|Hne];
      [|by rewrite lookup_insert_ne]. rewrite lookup_insert_eq. destruct (Hfresh id eq_refl) as [Hold|Hnone].
    - rewrite (Hm _ _ Hold) in Hn. done.
    - destruct (Hp id name' Hn) as (p & s & _ & Hs). congruence. }
  assert (∀ id name', built !! id = Some name' →
    ∃ p s, pools cfg !! name' = Some p ∧ heap m' !! id = Some (pool_params p, s)) as Hkeep.
  { intros id name' Hn. destruct (Hp id name' Hn) as (p & s & Hpn & Hs). exists p.
    destruct (Hheap _ _ _ Hs) as [s' Hs']. by exists s'. }
  split; [|done]. split.
  - intros id name' Hn. destruct r as [id'|e]; [|by apply Hkeep].
    apply lookup_insert_Some in Hn as [[<- <-]|[_ Hn]]; [|by apply Hkeep].
    by apply (heap_built _ _ Hinv'), Hreg.
  - intros name' id Hn. destruct (Hback _ _ Hn) as [Hold|[-> ->]]; [|by rewrite lookup_insert_eq].
    by apply Hgrow, Hm.
Qed.

Lemma placed_kept built lent built' lent' lb sv sv' :
  service_step lb sv sv' → outstanding (shared sv') ⊆ outstanding (shared sv) → service_inv sv' →
  (∀ id name, built !! id = Some name → built' !! id = Some name) →
  (∀ l x, l ∈ outstanding (shared sv') → lent !! l = Some x → lent' !! l = Some x) →
  Forall (lease_placed built lent) (threads sv) → Forall (lease_placed built' lent') (threads sv').
Proof.
  intros Hstep Hsub Hinv' Hb Hl Hall. rewrite Forall_forall in Hall. apply Forall_forall. intros t' Ht' h Hh.
  destruct (kept_leases _ _ _ _ _ _ _ _ _ _ _ _ Hstep Hsub Ht' Hh) as (t & Ht & Hht & ->).
  destruct (Hall t Ht h Hht) as (name & id & i & ? & ? & ?). exists name, id, i. split_and!; [done| |by apply Hb].
  apply Hl; [|done]. rewrite (sv_leases _ _ _ _ _ _ _ _ Hinv'). apply elem_of_list_to_set, list_elem_of_omap.
  exists t'. by rewrite Hh.
Qed.

Lemma system_start_inv now : system_inv (system_start now).
Proof.
  split; cbn.
  - by apply start_inv.
  - by split; cbn.
  - split; [done| |].
    + intros id i. unfold entry_handles. cbn. split; [set_solver|]. intros [l Hl]. done.
    + intros l l' x Hl. done.
  - split; cbn; [intros id name Hn|intros name id Hn]; done.
  - constructor.
Qed.

Lemma service_inv_steps a b : rtc (some_step service_step) a b → service_inv a → service_inv b.
Proof. apply run_preserves. by apply service_step_inv. Qed.

Lemma manager_inv_steps a b : rtc (manager_step fred_pool cfg) a b → manager_inv cfg a → manager_inv cfg b.
Proof. induction 1 as [|x y z Hs _ IH]; [done|]. eauto using manager_step_inv. Qed.

Lemma system_step_inv l s s' : system_inv s → system_step l s s' → system_inv s'.
Proof.
  intros [Hsv Hmg Hlent Hbuilt Hpl] Hstep.
  assert (service_inv (sy_service s')) as Hsv' by (eapply service_inv_steps, Hsv; by eapply system_service_step).
  assert (manager_inv cfg (sy_manager s')) as Hmg' by (eapply manager_inv_steps, Hmg; by eapply system_manager_step).
  destruct Hstep as [lb sv sv' m built lent Hs Ho|sv m m' built lent u now name r Ha|sv m built lent id c t t' Hl Ht Hh|
    sv m built lent id i c e e' ts ts' now x s2 errors Hl Hts Hop Hg|
    sv m m' built lent u name n n' He|sv m built lent name|
    sh sh' now ts ts' log req name k hist h m built lent id c t t' i Hp Ha Hl Hb Ht Hh|
    lb sv sv' m built lent l id c t t' i Hs Hin Ho Hle Hl Ht Hh]; cbn in *; (split; [exact Hsv'|exact Hmg'|..]); cbn.
  - by rewrite Ho.
  - done.
  - eapply placed_kept; [exact Hs|by rewrite Ho|done|done|by intros ? ? _|done].
  - eapply lent_ok_handles; [|exact Hlent]. intros id i. by rewrite (acquire_handles _ _ _ _ _ _ _ _ id Ha).
  - by eapply built_ok_acquire.
  - destruct (built_ok_acquire _ _ _ _ _ _ _ Hmg' Hbuilt Ha) as [_ Hgrow].
    eapply Forall_impl; [exact Hpl|]. intros t Hpt h Hh. destruct (Hpt h Hh) as (nm & id & i & ? & ? & ?).
    exists nm, id, i. auto.
  - eapply lent_ok_handles; [|exact Hlent]. intros id' i. rewrite entry_handles_put. case_decide as Hid; [|done].
    subst id'. unfold entry_handles. by rewrite Hl, Hh.
  - by eapply built_ok_put.
  - done.
  - eapply lent_ok_handles; [|exact Hlent]. intros id' j. rewrite entry_handles_put. case_decide as Hid; [|done].
    subst id'. unfold entry_handles, handles. rewrite Hl. injection Hop as <- <-. cbn [tasks].
    by rewrite (omap_Permutation _ _ _ Hts).
  - by eapply built_ok_put.
  - done.
  - eapply lent_ok_handles; [|exact Hlent]. intros id i. by rewrite (evict_handles _ _ _ _ _ _ id He).
  - unfold evict_pool in He. repeat case_match; simplify_eq; try done; by apply built_ok_remove.
  - done.
  - eapply lent_ok_handles; [|exact Hlent]. intros id i.
    pose proof (shutdown_handles name m id) as Hsame. cbn in Hsame. by rewrite Hsame.
  - case_match; [by apply built_ok_remove|done].
  - done.
  - destruct Ha as [Hnew ->]. cbn. apply lent_ok_take; [done|done|done|].
    unfold entry_handles. by rewrite Hl, Hh.
  - by eapply built_ok_put.
  - rewrite Hp in Hpl. apply Forall_cons in Hpl as [_ Hpl]. destruct Ha as [Hnew ->]. constructor.
    + intros h' [= <-]. exists name, id, i. cbn. by rewrite lookup_insert_eq.
    + eapply Forall_impl; [exact Hpl|]. intros t0 Hpt h' Hh'. destruct (Hpt h' Hh') as (nm & id' & j & ? & Hlj & ?).
      exists nm, id', j. split_and!; [done| |done]. rewrite lookup_insert_ne; [done|]. intros Heq.
      apply Hnew. rewrite <- (lent_dom _ _ _ Hlent), Heq. by eapply elem_of_dom_2.
  - rewrite Ho. eapply lent_ok_give; [done|done|exact Hle|]. unfold entry_handles. by rewrite Hl.
  - by eapply built_ok_put.
  - eapply placed_kept; [exact Hs|rewrite Ho; set_solver|done|done| |exact Hpl].
    intros l' x Hl' Hx. rewrite lookup_delete_ne; [done|]. rewrite Ho in Hl'. set_solver.
Qed.

Lemma system_reachable_inv s :
  system_reachable sha256 number_to_string value_to_string from_slice cfg dispatch auth fred_pool s →
  system_inv s.
Proof.
  intros [now Hrun]. eapply run_preserves; [by apply system_step_inv|exact Hrun|apply system_start_inv].
Qed.

(** C3. Who runs on which connection, in the whole system, whatever requests,
    timeouts, disconnections, evictions, breakers and shutdowns interleave.
    Every request in flight with a lease was authenticated, and has, in an entry
    built for the pool its identity names, with the connection string and
    settings configured for it, one client connection; no two requests have the
    same one; and every handle any pool ever gave out is in the hands of exactly
    one request in flight, so that when no request is in flight no pool, evicted
    or not, has a client out. *)
Theorem connections_are_exclusive s
    (Hs : system_reachable sha256 number_to_string value_to_string from_slice cfg dispatch auth fred_pool s) :
  (∀ t h, t ∈ threads (sy_service s) → held (t_hist t) = Some h →
     ∃ who bearer id i p ps, auth bearer (Ok (Some who)) ∧
       (∃ scheme, headers (t_req t) "authorization" = Some (scheme +:+ String " " bearer)) ∧
       sy_lent s !! lease h = Some (id, i) ∧ sy_built s !! id = Some (pool who) ∧ pools cfg !! pool who = Some p ∧
       heap (sy_manager s) !! id = Some (pool_params p, ps) ∧ i ∈ handles ps ∧ i < Z.to_nat (max_connections p)) ∧
  (∀ l l' x, sy_lent s !! l = Some x → sy_lent s !! l' = Some x → l = l') ∧ NoDup (held_leases (threads (sy_service s))) ∧
  (∀ id i, i ∈ entry_handles (sy_manager s) id →
     ∃ t h, t ∈ threads (sy_service s) ∧ held (t_hist t) = Some h ∧ sy_lent s !! lease h = Some (id, i)) ∧
  (threads (sy_service s) = [] → ∀ id, entry_handles (sy_manager s) id = []).
Proof.
  destruct (system_reachable_inv s Hs) as [Hsv Hmg [Hd Hh Hi] [Hb _] Hpl]. rewrite Forall_forall in Hpl.
  assert (∀ id i, i ∈ entry_handles (sy_manager s) id →
     ∃ t h, t ∈ threads (sy_service s) ∧ held (t_hist t) = Some h ∧ sy_lent s !! lease h = Some (id, i)) as Hown.
  { intros id i [l Hl]%Hh. pose proof (elem_of_dom_2 _ _ _ Hl) as Hin.
    rewrite Hd, (sv_leases _ _ _ _ _ _ _ _ Hsv) in Hin.
    apply elem_of_list_to_set, list_elem_of_omap in Hin as (t & Ht & Hlt).
    destruct (held (t_hist t)) as [h|] eqn:Hht; [|done]. injection Hlt as <-. eauto. }
  split_and!; [|done|apply Hsv|done|].
  - intros t h Ht Hht. destruct (Hpl t Ht h Hht) as (name & id & i & Hname & Hl & Hbid).
    pose proof (sv_threads _ _ _ _ _ _ _ _ Hsv) as Hsteps. rewrite Forall_forall in Hsteps.
    specialize (Hsteps t Ht). apply thread_conforms in Hsteps; [|apply _..].
    destruct Hsteps as [[Hun|(who & scheme & bearer & asked & handled & _ & _ & Hhd & _ & Hcan & Happ & Hun & [ph Hph])] _].
    { by rewrite (held_untouched _ Hun) in Hht. }
    rewrite Happ, held_app in Hht by (by apply held_untouched).
    rewrite Happ, held_pool_app in Hname by (by apply held_pool_untouched).
    rewrite (phase_pool _ _ _ _ _ Hph Hht) in Hname. injection Hname as <-.
    destruct (Hb id _ Hbid) as (p & ps & Hp & Hheap).
    assert (i ∈ entry_handles (sy_manager s) id) as Hie by (apply Hh; eauto).
    unfold entry_handles in Hie. rewrite Hheap in Hie.
    exists who, bearer, id, i, p, ps. split_and!; try done; [by exists scheme|].
    destruct (heap_inv _ _ Hmg _ _ _ Hheap) as [_ Hpi]. destruct ps as [e ts now].
    apply handles_NoDup in Hpi as [_ Hlt]. by apply Hlt.
  - intros Hnil id. destruct (entry_handles (sy_manager s) id) as [|i l] eqn:He; [done|]. exfalso.
    destruct (Hown id i) as (t & h & Ht & _); [rewrite He; left|]. rewrite Hnil in Ht. by apply elem_of_nil in Ht.
Qed.
End Invariant.

(** ** The breakers' accounts *)

(** So many recorded failures account for the breaker of each entry. *)
Definition entries_accounted (failures : nat → nat) (m : PoolManager) : Prop :=
  ∀ id c s, heap m !! id = Some (c, s) → entry_accounted c (failures id) s.

Lemma entries_accounted_mono failures failures' m :
  (∀ id, failures id ≤ failures' id) → entries_accounted failures m → entries_accounted failures' m.
Proof. intros Hle Hm id c s Hl. eapply accounted_mono; [apply Hle|]. exact (Hm id c s Hl). Qed.

Lemma entries_accounted_put failures failures' m id c s :
  entries_accounted failures m → (∀ id', id' ≠ id → failures' id' = failures id') →
  entry_accounted c (failures' id) s → entries_accounted failures' (put_entry m id c s).
Proof.
  intros Hm Hf Hs id' c' s' Hl. cbn in Hl. apply lookup_insert_Some in Hl as [[<- [= <- <-]]|[Hne Hl]]; [done|].
  rewrite Hf by done. by eapply Hm.
Qed.

Lemma entries_accounted_alter failures ps h id (f : PoolParams * PoolSys → PoolParams * PoolSys) :
  (∀ cs, (f cs).1 = cs.1 ∧ breaker (entry (f cs).2) = breaker (entry cs.2)) →
  entries_accounted failures (mkPoolManager ps h) →
  ∀ ps', entries_accounted failures (mkPoolManager ps' (alter f id h)).
Proof.
  intros Hf Hm ps' id' c s. cbn. destruct (decide (id = id')) as [<-|Hne].
  - rewrite lookup_alter_eq. destruct (h !! id) as [[c0 s0]|] eqn:Hl; [|done]. cbn. intros [= Hc].
    specialize (Hf (c0, s0)). specialize (Hm id c0 s0 Hl). rewrite Hc in Hf. cbn in Hf. destruct Hf as [-> Hb].
    unfold entry_accounted in *. by rewrite Hb.
  - rewrite lookup_alter_ne by done. apply Hm.
Qed.

Lemma remove_pool_accounted failures after name id m :
  (∀ e, breaker (after e) = breaker e) →
  entries_accounted failures m → entries_accounted failures (remove_pool after name id m).
Proof. intros Ha Hm. destruct m. eapply entries_accounted_alter, Hm. intros [c s]. by cbn. Qed.

Lemma acquire_accounted fred_pool cfg unix_secs now name m r m' failures :
  manager_acquire fred_pool cfg unix_secs now name m = (r, m') →
  entries_accounted failures m → entries_accounted failures m'.
Proof.
  unfold manager_acquire, get_or_build. intros Ha Hm. destruct m as [ps h]. cbn [manager_pools heap] in *.
  destruct (pools cfg !! name) as [p|]; [|by injection Ha as _ <-].
  destruct (ps !! name) as [id|]; [|destruct (fred_pool p); [|by injection Ha as _ <-]]; injection Ha as _ <-; cbn [manager_pools heap].
  - eapply entries_accounted_alter with (ps := ps); [by intros [c s]|].
    by eapply entries_accounted_alter with (ps := ps); [intros [c s]|].
  - eapply entries_accounted_alter with (ps := ps); [by intros [c s]|].
    eapply (entries_accounted_put failures failures (mkPoolManager ps h)); [done|done|]. apply accounted_new.
Qed.

(** The account after a step: one more failure when one is recorded. *)
Definition recorded_failure (l : Label) (id : nat) : nat :=
  match l with
  | Label.Record_ id' _ errors => if decide (id = id') then if existsb counts_as_failure errors then 1 else 0 else 0
  | _ => 0
  end.

Lemma system_step_accounted sha256 number_to_string value_to_string from_slice cfg dispatch auth fred_pool
    failures l s s' :
  system_step sha256 number_to_string value_to_string from_slice cfg dispatch auth fred_pool l s s' →
  entries_accounted failures (sy_manager s) →
  entries_accounted (λ id, recorded_failure l id + failures id) (sy_manager s').
Proof.
  assert (∀ lb sv sv', service_step sha256 number_to_string value_to_string from_slice cfg dispatch auth lb sv sv' →
    ∀ id, recorded_failure lb id = 0) as Hquiet by (by destruct 1).
  intros Hstep Hm. destruct Hstep as [lb sv sv' m built lent Hs Ho|sv m m' built lent u now name r Ha|
    sv m built lent id c t t' Hl Ht Hh|sv m built lent id i c e e' ts ts' now x s2 errors Hl Hts Hop Hg|
    sv m m' built lent u name n n' He|sv m built lent name|
    sh sh' now ts ts' log req name k hist h m built lent id c t t' i Hp Ha Hl Hb Ht Hh|
    lb sv sv' m built lent l id c t t' i Hs Hin Ho Hle Hl Ht Hh]; cbn [sy_manager] in *.
  - intros id c s Hl. rewrite (Hquiet _ _ _ Hs). by apply Hm.
  - by eapply acquire_accounted.
  - eapply entries_accounted_put; [exact Hm|done|]. by eapply pool_move_accounted, Hm.
  - eapply entries_accounted_put; [exact Hm|intros id' Hne; cbn; by rewrite decide_False|].
    cbn. rewrite decide_True by done. eapply operate_accounted; [exact Hop|]. exact (Hm _ _ _ Hl).
  - unfold evict_pool in He. repeat case_match; simplify_eq; try done; by apply remove_pool_accounted.
  - cbn. case_match; [|done]. by apply remove_pool_accounted.
  - eapply entries_accounted_put; [exact Hm|done|]. by eapply pool_move_accounted, Hm.
  - intros id' c' s' Hl'. rewrite (Hquiet _ _ _ Hs). revert id' c' s' Hl'.
    eapply entries_accounted_put; [exact Hm|done|]. by eapply pool_move_accounted, Hm.
Qed.

(** ** Witness *)

(** One pool of one connection, and a request of its tenant that takes it. *)
Definition demo_cfg : Config :=
  mkConfig server_default
    (mkAuthConfig None {[ "token" := mkStaticTokenConfig "main" false false None ∅ ∅ None ]})
    {[ "main" := sample_pool_config ]}.
Abbreviation demo_system_step := (system_step (λ b, b) (λ _, "1") (λ _, Ok "{}") (λ _, sample_pipeline)
  demo_cfg literal_dispatch (can_answer demo_authenticate) (λ _, Ok tt)).
Abbreviation demo_system_reachable := (system_reachable (λ b, b) (λ _, "1") (λ _, Ok "{}") (λ _, sample_pipeline)
  demo_cfg literal_dispatch (can_answer demo_authenticate) (λ _, Ok tt)).

(** Steps of the only entry and calls of the only request that move no lease. *)
Fixpoint quiet_moves (c : PoolParams) (ms : list Move) (s : PoolSys) : option PoolSys :=
  match ms with
  | [] => Some s
  | mv :: ms => s' ← do_move c mv s; if decide (handles s' = handles s) then quiet_moves c ms s' else None
  end.

Fixpoint quiet_calls (n : nat) (sv : Service) : option Service :=
  match n with
  | O => Some sv
  | S n =>
      sv' ← demo_calls 1 sv;
      if decide (outstanding (shared sv') = outstanding (shared sv)) then quiet_calls n sv' else None
  end.

(** The only request, about to acquire, is given the lease 1. *)
Definition take_lease (sv : Service) : option (string * Service) :=
  match threads sv with
  | [mkThread req (Vis e k) hist] =>
      match e in Eff.Eff X return (X → Prog Response) → option (string * Service) with
      | Eff.Acquire name => λ k,
          Some (name, mkService (mkShared (limiter (shared sv)) ({[ 1%Z ]} ∪ outstanding (shared sv))) (instant sv)
            [mkThread req (k (Ok (mkHandle 1))) (Call.Acquire name (Some (mkHandle 1)) :: hist)] (ended sv))
      | _ => λ _, None
      end k
  | _ => None
  end.

Lemma quiet_moves_steps c ms s s' sv m built lent id :
  heap m !! id = Some (c, s) → quiet_moves c ms s = Some s' →
  ∃ m', rtc (demo_system_step Label.Internal) (mkSystem sv m built lent) (mkSystem sv m' built lent) ∧
    heap m' !! id = Some (c, s') ∧ manager_pools m' = manager_pools m.
Proof.
  revert s m. induction ms as [|mv ms IH]; intros s m Hl Hq; [injection Hq as <-; by exists m|].
  cbn in Hq. destruct (do_move c mv s) as [s1|] eqn:Hm; [|done]. cbn in Hq. case_decide as Hh; [|done].
  destruct (IH s1 (put_entry m id c s1)) as (m' & Hsteps & ? & ?); [by cbn; rewrite lookup_insert_eq|done|].
  exists m'. split_and!; [|done|done]. eapply rtc_l; [|exact Hsteps].
  eapply sys_entry; [exact Hl|by eapply do_move_step|by rewrite Hh].
Qed.

Lemma quiet_calls_steps n sv sv' m built lent :
  quiet_calls n sv = Some sv' → rtc (some_step demo_system_step) (mkSystem sv m built lent) (mkSystem sv' m built lent).
Proof.
  revert sv. induction n as [|n IH]; intros sv Hq; [injection Hq as <-; apply rtc_refl|]. cbn -[demo_calls] in Hq.
  destruct (demo_calls 1 sv) as [sv1|] eqn:Hc; [|done]. cbn in Hq. case_decide as Ho; [|done].
  cbn in Hc.
  destruct sv as [sh now ts log]. destruct ts as [|[req [r|X e k] hist] [|]]; try done. cbn in Hc.
  destruct (demo_answer now e sh) as [[x sh']|] eqn:Ha; [|done]. injection Hc as <-. cbn in Ho.
  eapply rtc_l; [|by apply IH]. exists (Label.Call req hist e x). apply sys_service; [|done].
  eapply (sv_call _ _ _ _ demo_cfg _ _ sh sh' now _ [] log req e k hist x); [done|].
  exact (demo_answer_answers now e x sh sh' Ha).
Qed.

Lemma take_lease_step sv name sv' m built id c s s' i :
  take_lease sv = Some (name, sv') → outstanding (shared sv) = ∅ →
  heap m !! id = Some (c, s) → built !! id = Some name → pool_move c s s' → handles s' = i :: handles s →
  ∃ req hist, demo_system_step (Label.Call req hist (Eff.Acquire name) (Ok (mkHandle 1))) (mkSystem sv m built ∅)
     (mkSystem sv' (put_entry m id c s') built {[ 1%Z := (id, i) ]}).
Proof.
  destruct sv as [[l o] now ts log]. unfold take_lease. cbn [threads].
  destruct ts as [|[req [r|X e k] hist] [|]]; try done. destruct e; try done. cbn. intros [= <- <-] Ho Hl Hb Hs Hh. subst o.
  rewrite <- insert_empty. exists req, hist. eapply (sys_take _ _ _ _ demo_cfg _ _ _ _ _ now _ [] log req pool k hist (mkHandle 1));
    [done| |done|done|exact Hs|by rewrite Hh]. cbn. split; [set_solver|done].
Qed.

Definition demo_manager : PoolManager := (manager_acquire (λ _, Ok tt) demo_cfg 0 0 "main" manager_new).2.
Definition demo_entry_params : PoolParams := pool_params sample_pool_config.
Definition demo_entered : PoolSys := mkPoolSys (new_entry demo_entry_params 0) [Stage.Entered] 0.
Definition demo_waiting : Service :=
  mkService (mkShared limiter_init ∅) 5
    [mkThread demo_request (request_program (λ b, b) (λ _, "1") (λ _, Ok "{}") (λ _, sample_pipeline)
       demo_cfg literal_dispatch demo_request) []] [].

(** The run up to the hand-over, and after it. *)
Definition demo_asking : option (string * Service) := quiet_calls 8 demo_waiting ≫= take_lease.
Definition demo_leased : option (PoolSys * PoolSys) :=
  s ← quiet_moves demo_entry_params (replicate 6 (Move.Advance 0)) demo_entered;
  s' ← do_move demo_entry_params (Move.Advance 0) s; Some (s, s').

Lemma demo_system_runs :
  ∃ s, demo_system_reachable s ∧ held_leases (threads (sy_service s)) = [1%Z] ∧
    sy_lent s = {[ 1%Z := (fresh (∅ : gset nat), 0) ]}.
Proof.
  assert ((λ nv, (nv.1, held_leases (threads nv.2))) <$> demo_asking = Some ("main", [1%Z])) as Hask
    by (vm_compute; reflexivity).
  assert ((λ ss, (handles ss.1, handles ss.2)) <$> demo_leased = Some ([], [0])) as Hlease
    by (vm_compute; reflexivity).
  unfold demo_asking, demo_leased in *.
  destruct (quiet_calls 8 demo_waiting) as [sv|] eqn:Hq; [|done]. cbn [mbind option_bind] in Hask.
  destruct (take_lease sv) as [[name sv']|] eqn:Ht; [|done]. cbn in Hask. injection Hask as -> Hheld.
  destruct (quiet_moves _ _ _) as [s1|] eqn:Hm; [|done]. cbn [mbind option_bind] in Hlease.
  destruct (do_move _ _ s1) as [s2|] eqn:Hmv; [|done]. cbn in Hlease. injection Hlease as H1 H2.
  assert (outstanding (shared sv) = ∅) as Ho.
  { clear -Hq. assert (∀ n a b, quiet_calls n a = Some b → outstanding (shared b) = outstanding (shared a)) as Hout.
    { induction n as [|n IH]; intros a b; [by intros [= <-]|]. cbn -[demo_calls].
      destruct (demo_calls 1 a) as [a'|]; [|done]. cbn. case_decide as He; [|done]. intros Hb%IH. congruence. }
    by rewrite (Hout _ _ _ Hq). }
  set (id := fresh (∅ : gset nat)).
  assert (heap demo_manager !! id = Some (demo_entry_params, demo_entered)) as Hid by (vm_compute; reflexivity).
  destruct (quiet_moves_steps demo_entry_params _ _ s1 sv demo_manager {[ id := "main" ]} ∅ id Hid Hm)
    as (m' & Hsteps & Hl & _).
  exists (mkSystem sv' (put_entry m' id demo_entry_params s2) {[ id := "main" ]} {[ 1%Z := (id, 0) ]}).
  split_and!; [|done|done]. exists 5%Z.
  eapply rtc_l; [eexists; apply (sys_service _ _ _ _ demo_cfg _ _ _ _ _ demo_waiting)|].
  { apply (sv_arrive _ _ _ _ demo_cfg). intros _. vm_compute. done. }
  { done. }
  etrans; [by eapply quiet_calls_steps|].
  eapply rtc_l; [eexists; apply (sys_enter _ _ _ _ demo_cfg _ _ _ sv manager_new demo_manager ∅ ∅ 0 0 "main" (Ok id)); reflexivity|].
  cbn match. etrans; [by eapply run_labelled|]. apply rtc_once.
  destruct (take_lease_step sv "main" sv' m' {[ id := "main" ]} id demo_entry_params s1 s2 0) as (req & hist & Hs);
    [done|done|done|by rewrite lookup_singleton_eq|by eapply do_move_step|by rewrite H1, H2|by eexists].
Qed.

Lemma demo_waiters name p : pools demo_cfg !! name = Some p → in_u64 (max_waiters p).
Proof.
  intros Hp. change (pools demo_cfg) with ({[ "main" := sample_pool_config ]} : gmap string PoolConfig) in Hp.
  apply lookup_singleton_Some in Hp as [_ <-]. split; vm_compute; discriminate.
Qed.

Lemma connections_are_exclusive_witness :
  ∃ s, demo_system_reachable s ∧ held_leases (threads (sy_service s)) = [1%Z] ∧
    ∃ t h, t ∈ threads (sy_service s) ∧ held (t_hist t) = Some h ∧
      sy_lent s !! lease h = Some (fresh (∅ : gset nat), 0).
Proof.
  destruct demo_system_runs as (s & Hs & Hheld & Hlent).
  destruct (connections_are_exclusive (λ b, b) (λ _, "1") (λ _, Ok "{}") (λ _, sample_pipeline) demo_cfg
    literal_dispatch (can_answer demo_authenticate) (λ _, Ok tt) ltac:(split; vm_compute; discriminate)
    ltac:(split; vm_compute; discriminate)
    demo_waiters s Hs)
    as (_ & _ & _ & Hown & _).
  exists s. split_and!; [done|done|].
  destruct (Hown (fresh (∅ : gset nat)) 0) as (t & h & ? & ? & ?); [|eauto].
  destruct (system_reachable_inv (λ b, b) (λ _, "1") (λ _, Ok "{}") (λ _, sample_pipeline) demo_cfg literal_dispatch
    (can_answer demo_authenticate) (λ _, Ok tt) ltac:(split; vm_compute; discriminate)
    ltac:(split; vm_compute; discriminate)
    demo_waiters s Hs) as [_ _ [_ Hh _] _ _].
  apply Hh. exists 1%Z. rewrite Hlent. by rewrite lookup_singleton_eq.
Defined.
