(* ===== verification/Gateway.v ===== *)
(** * The gateway: requests, authentications, pools and Redis traffic together

    [System.v] runs the requests over the pool manager and lets the
    authenticator and Redis answer as they like; [AuthService.v] runs the
    authentications over their caches; [Wire.v] gives the operations of the
    Redis executor message by message.  Here the three are one machine.  A
    request that waits for its credential has an authentication in
    [AuthService.v] and goes on with what that one answers; a request that
    waits for Redis has an operation on the client of its lease, under the
    client's operation lock ([FredExecutor::operation_lock] of
    [src/src/adapters/fred_executor.rs]), which sends its messages one by one
    while everything else goes on, and it goes on with what the operation
    returned, which the breaker executor around its handle
    ([src/src/adapters/breaker_executor.rs]) records; a request that is dropped takes its authentication and its
    operation with it, wherever they are; and the readiness probes of
    [src/src/adapters/pool_manager.rs] send PING on clients whose lock is free.
    What was sent on each client, by whom, is kept. *)
From S2P Require Import Prelude Domain Utf8 Acl Convert Parse Config Breaker RateLimit Ports Handlers Auth Jwks AuthService Pool PoolSpec Fred Server Service Wire System.

(** ** Who waits for what *)

(** The credential a call asks about, and the operation a call asks for. *)
Definition asks {X : Type} (e : Eff X) : option string :=
  match e with Eff.Authenticate bearer => Some bearer | _ => None end.

Definition operation {X : Type} (e : Eff X) : option (ExecutorHandle * Op) :=
  match e with
  | Eff.Execute h cmd => Some (h, Op.Execute cmd)
  | Eff.Pipeline h cmds => Some (h, Op.Pipeline cmds)
  | Eff.Transaction h cmds => Some (h, Op.Transaction cmds)
  | _ => None
  end.

Definition waits_for (bearer : string) (t : Thread) : bool :=
  match t_prog t with
  | Ret _ => false
  | Vis e _ => bool_decide (asks e = Some bearer)
  end.

(** The requests that wait for a credential, and its authentications. *)
Definition waiting (sv : Service) (bearer : string) : nat :=
  length (filter (λ t, waits_for bearer t = true) (threads sv)).

Definition asking (a : AuthService) (bearer : string) : nat :=
  length (filter (eq bearer) (a_bearer <$> a_threads a)).

(** ** The gateway *)

(** An entry of the pool manager and the number of one of its clients. *)
Abbreviation Client := (nat * nat)%type.

(** An operation that holds the lock of its client: whose it is, by lease and
    request, or a probe's; what is left of it and what it has sent. *)
Record Busy : Type := mkBusy {
  owner : option (Z * HttpRequest);
  b_op : Op;
  left_ : Wire Answer;
  b_piece : list Sent;
}.

(** An operation that returned, or was abandoned. *)
Record Session : Type := mkSession {
  se_client : Client;
  se_caller : option HttpRequest;
  se_op : Op;
  se_left : Wire Answer;
  se_piece : list Sent;
  se_returned : bool;
}.

Record Gateway : Type := mkGateway {
  g_system : System;
  g_auth : AuthService;
  g_busy : gmap Client Busy;
  g_wires : gmap Client (list Sent);
  g_sessions : list Session;
}.

(** All that was sent on a client, latest first. *)
Definition traffic (g : Gateway) (c : Client) : list Sent := default [] (g_wires g !! c).

(** The probe of [PoolManager::readiness]. *)
Definition probe_op : Op := Op.Execute (mkRedisCommand "PING" []).

(** What the breaker executor around a handle counts of an answer
    ([BreakerExecutor::execute], [pipeline], [transaction]; the lemma after it
    says so). *)
Definition errors_returned (a : Answer) : list ExecError :=
  match a with
  | Answer.Value r => errors_of [r]
  | Answer.Values rs => errors_of rs
  | Answer.Exec (Ok slots) => errors_of slots
  | Answer.Exec (Err error) => [error]
  | _ => []
  end.

Lemma errors_returned_recorded b now x inner :
  (∀ r : result RespValue ExecError,
     (executor_execute b now r x inner).2 = executor_record b now (errors_returned (Answer.Value r)) x inner) ∧
  (∀ rs : list (result RespValue ExecError),
     (executor_pipeline b now rs x inner).2 = executor_record b now (errors_returned (Answer.Values rs)) x inner) ∧
  (∀ r : result (list (result RespValue ExecError)) ExecError,
     (executor_transaction b now r x inner).2 = executor_record b now (errors_returned (Answer.Exec r)) x inner).
Proof. split_and!; [done..|]. by intros [slots|e]. Qed.

(** Steps that neither ask for nor end an authentication or an operation. *)
Definition passive (l : Label) : Prop :=
  match l with
  | Label.Call _ _ e _ => asks e = None ∧ operation e = None
  | Label.Drop _ _ e => asks e = None ∧ operation e = None
  | Label.Record_ _ _ _ => False
  | Label.Internal => True
  end.

(** No restriction on what the authenticator answers: here [AuthService.v]
    answers. *)
Definition anyone : Authority := λ _ _, True.

Section Gateway.
Context (sha256 : bytes → bytes).
Context (number_to_string : Number → string) (value_to_string : Value → result string unit).
Context (from_slice : bytes → Document) (cfg : Config).
Context (dispatch : list (string * MethodRouter) → string → Method → Found).
Context (fred_pool : PoolConfig → result unit string).
Context {DecodingKey : Type}.
Context (decode_header : string → option (option string)).
Context (decoding_key : bytes → option DecodingKey).
Context (decode : string → DecodingKey → Validation → option Claims).
Context (url_safe_decode : string → option bytes) (json_from_slice : bytes → option Value).
(** The JWT authenticator that start-up built, its cache and its key source. *)
Context (jwt_auth : option JwtAuth) (cache : CacheParams) (issuer : string) (refresh_after : Z).
(** Fred on each client. *)
Context (custom_raw : Client → list Sent → Sent → result Resp3Frame FredError).
Context (is_connected : Client → list Sent → bool).
Context (redis_keyslot : bytes → Z) (debug : RespValue → string).

Abbreviation system_step := (system_step sha256 number_to_string value_to_string from_slice cfg dispatch anyone fred_pool).
Abbreviation auth_step := (auth_step decode_header decoding_key decode url_safe_decode json_from_slice sha256
  jwt_auth cache (static_tokens (Config.auth cfg)) issuer refresh_after).
Abbreviation op_program := (op_program redis_keyslot debug).

Inductive gateway_step : Gateway → Gateway → Prop :=
| gw_system l s s' a busy wires log :
    system_step l s s' → passive l →
    gateway_step (mkGateway s a busy wires log) (mkGateway s' a busy wires log)
| gw_auth s a a' busy wires log :
    auth_step AuthLabel.Internal a a' →
    gateway_step (mkGateway s a busy wires log) (mkGateway s a' busy wires log)
(* a waiting request's authentication starts, answers it, or goes with it *)
| gw_ask s a a' busy wires log bearer :
    asking a bearer < waiting (sy_service s) bearer → auth_step (AuthLabel.Arrive bearer) a a' →
    gateway_step (mkGateway s a busy wires log) (mkGateway s a' busy wires log)
| gw_answer s s' a a' busy wires log req hist bearer r :
    system_step (Label.Call req hist (Eff.Authenticate bearer) r) s s' → auth_step (AuthLabel.End_ bearer r) a a' →
    gateway_step (mkGateway s a busy wires log) (mkGateway s' a' busy wires log)
| gw_forget s s' a a' busy wires log req hist bearer :
    system_step (Label.Drop req hist (Eff.Authenticate bearer)) s s' →
    auth_step (AuthLabel.Drop bearer) a a' ∨ a' = a ∧ asking a bearer < waiting (sy_service s) bearer →
    gateway_step (mkGateway s a busy wires log) (mkGateway s' a' busy wires log)
(* a waiting request gets the lock of its client, sends, and goes on, what was
   returned recorded by its breaker executor, or is dropped, waiting for the
   answer to what was sent last *)
| gw_begin s a busy wires log t {X : Type} (e : Eff X) k h op c :
    t ∈ threads (sy_service s) → t_prog t = Vis e k → operation e = Some (h, op) →
    sy_lent s !! lease h = Some c → busy !! c = None →
    gateway_step (mkGateway s a busy wires log)
      (mkGateway s a (<[c := mkBusy (Some (lease h, t_req t)) op (op_program op) []]> busy) wires log)
| gw_send s a busy wires log c o op w w' piece new :
    busy !! c = Some (mkBusy o op w piece) →
    wire_step (custom_raw c) (is_connected c) w (default [] (wires !! c)) = Some (w', new) →
    gateway_step (mkGateway s a busy wires log)
      (mkGateway s a (<[c := mkBusy o op w' (new ++ piece)]> busy)
         (<[c := new ++ default [] (wires !! c)]> wires) log)
| gw_complete s s1 s' a busy wires log req hist {X : Type} (e : Eff X) x h op c op' w piece :
    busy !! c = Some (mkBusy (Some (lease h, req)) op' w piece) → w = Done (inject e x) →
    system_step (Label.Record_ c.1 c.2 (errors_returned (inject e x))) s s1 →
    system_step (Label.Call req hist e x) s1 s' → operation e = Some (h, op) → sy_lent s !! lease h = Some c →
    gateway_step (mkGateway s a busy wires log)
      (mkGateway s' a (delete c busy) wires (mkSession c (Some req) op' w piece true :: log))
| gw_abandon s s' a busy wires log req hist {X : Type} (e : Eff X) h op c op' w piece :
    system_step (Label.Drop req hist e) s s' → operation e = Some (h, op) → sy_lent s !! lease h = Some c →
    busy !! c = Some (mkBusy (Some (lease h, req)) op' w piece) →
    gateway_step (mkGateway s a busy wires log)
      (mkGateway s' a (delete c busy) wires (mkSession c (Some req) op' w piece false :: log))
(* a request dropped while it waits for the lock *)
| gw_leave s s' a busy wires log req hist {X : Type} (e : Eff X) h op c :
    system_step (Label.Drop req hist e) s s' → operation e = Some (h, op) → sy_lent s !! lease h = Some c →
    (∀ b, busy !! c = Some b → fst <$> owner b ≠ Some (lease h)) →
    gateway_step (mkGateway s a busy wires log) (mkGateway s' a busy wires log)
(* a readiness probe, which runs detached *)
| gw_probe s a busy wires log name id p ps i :
    manager_pools (sy_manager s) !! name = Some id → heap (sy_manager s) !! id = Some (p, ps) → i < permit_count p →
    busy !! (id, i) = None →
    gateway_step (mkGateway s a busy wires log)
      (mkGateway s a (<[(id, i) := mkBusy None probe_op (op_program probe_op) []]> busy) wires log)
| gw_probed s a busy wires log c op x piece :
    busy !! c = Some (mkBusy None op (Done x) piece) →
    gateway_step (mkGateway s a busy wires log)
      (mkGateway s a (delete c busy) wires (mkSession c None op (Done x) piece true :: log)).

Definition gateway_start (now jwks_time : Z) : Gateway :=
  mkGateway (system_start now) (auth_start now jwks_time) ∅ ∅ [].

Definition gateway_reachable (g : Gateway) : Prop := ∃ now t, rtc gateway_step (gateway_start now t) g.
End Gateway.

(** ** Authorities *)

(** What an authority allows, a more permissive one allows. *)
Definition allows (auth auth' : Authority) : Prop := ∀ bearer r, auth bearer r → auth' bearer r.

(** The answer a step gave is one of the authority's. *)
Definition answered_by (auth : Authority) (l : Label) : Prop :=
  match l with Label.Call _ _ e x => answer_ok auth e x | _ => True end.

(** An identity was given only by an authentication that ended with it. *)
Definition vouched (ended : list (string * result (option Identity) AuthError * Trace)) : Authority :=
  λ bearer r, ∀ who, r = Ok (Some who) → ∃ tr, (bearer, r, tr) ∈ ended.

#[export] Program Instance vouched_answering ended : Answering (vouched ended) :=
  {| fallback _ := Ok None |}.
Next Obligation. by intros ended bearer who. Qed.

Lemma vouched_grows ended ended' : ended ⊆ ended' → allows (vouched ended) (vouched ended').
Proof. intros Hsub bearer r Hv who Hr. destruct (Hv who Hr) as [tr Htr]. exists tr. by apply Hsub. Qed.

Section Authorities.
Context (sha256 : bytes → bytes).
Context (number_to_string : Number → string) (value_to_string : Value → result string unit).
Context (from_slice : bytes → Document) (cfg : Config).
Context (dispatch : list (string * MethodRouter) → string → Method → Found).
Context (fred_pool : PoolConfig → result unit string).
Context (auth auth' : Authority) (Hauth : allows auth auth').
Abbreviation service_step := (service_step sha256 number_to_string value_to_string from_slice cfg dispatch).
Abbreviation system_step := (system_step sha256 number_to_string value_to_string from_slice cfg dispatch).
Abbreviation service_inv := (service_inv sha256 number_to_string value_to_string from_slice cfg dispatch).

Lemma answer_ok_mono {X} (e : Eff X) x : answer_ok auth e x → answer_ok auth' e x.
Proof. destruct e; cbn; auto. Qed.

Lemma steps_mono {A} (p p' : Prog A) hist hist' : steps auth p hist p' hist' → steps auth' p hist p' hist'.
Proof. induction 1; [constructor|]. apply steps_call; [done|by apply answer_ok_mono]. Qed.

Lemma conforming_mono req hist : conforming sha256 auth req hist → conforming sha256 auth' req hist.
Proof.
  intros [Hc Hp]. split; [|eapply probes_vouched_mono; [|exact Hp]; auto].
  destruct Hc as [?|(who & scheme & bearer & asked & handled & ? & ? & ? & ? & ? & ?)]; [by left|right].
  exists who, scheme, bearer, asked, handled. auto 10.
Qed.

Lemma service_inv_mono sv : service_inv auth sv → service_inv auth' sv.
Proof.
  intros [? ? ? ? Ht He]. split; try done.
  - eapply Forall_impl; [exact Ht|]. intros t. apply steps_mono.
  - eapply Forall_impl; [exact He|]. intros rh [? ?]. split; [by apply conforming_mono|done].
Qed.

Lemma system_inv_mono s :
  system_inv sha256 number_to_string value_to_string from_slice cfg dispatch auth s →
  system_inv sha256 number_to_string value_to_string from_slice cfg dispatch auth' s.
Proof. intros [? ? ? ? ?]. split; try done. by apply service_inv_mono. Qed.

(** A step whose answer is an authority's is a step under that authority. *)
Lemma answers_authority auth0 now {X} (e : Eff X) x sh sh' :
  answer_ok auth e x → answers cfg auth0 now e x sh sh' → answers cfg auth now e x sh sh'.
Proof. destruct e; cbn; try done. by intros ? [_ ?]. Qed.

Lemma service_step_authority auth0 l sv sv' : service_step auth0 l sv sv' → answered_by auth l → service_step auth l sv sv'.
Proof. intros Hs Ha. destruct Hs; econstructor; eauto. by eapply answers_authority. Qed.

Lemma system_step_authority auth0 l s s' :
  system_step auth0 fred_pool l s s' → answered_by auth l → system_step auth fred_pool l s s'.
Proof.
  intros Hs Ha. destruct Hs; [..|eapply sys_shutdown| |]; try (econstructor; eauto using service_step_authority, answers_authority; fail).
Qed.
End Authorities.

(** ** Requests that wait *)

Lemma filter_length_perm {A} (P : A → Prop) `{!∀ x, Decision (P x)} (l l' : list A) :
  l ≡ₚ l' → length (filter P l) = length (filter P l').
Proof. intros Hp. by rewrite Hp. Qed.

Lemma waits_cons bearer req {X} (e : Eff X) k hist ts :
  length (filter (λ t, waits_for bearer t = true) (mkThread req (Vis e k) hist :: ts)) =
    (if decide (asks e = Some bearer) then 1 else 0) + length (filter (λ t, waits_for bearer t = true) ts).
Proof.
  rewrite filter_cons. destruct (decide (asks e = Some bearer)) as [He|He].
  - by rewrite decide_True by (by apply bool_decide_eq_true).
  - by rewrite decide_False by (by intros ?%bool_decide_eq_true).
Qed.

(** The credential a step stops a request from waiting for. *)
Definition gives_up (l : Label) : option string :=
  match l with
  | Label.Call _ _ e _ => asks e
  | Label.Drop _ _ e => asks e
  | Label.Record_ _ _ _ | Label.Internal => None
  end.

Section Waiting.
Context (sha256 : bytes → bytes).
Context (number_to_string : Number → string) (value_to_string : Value → result string unit).
Context (from_slice : bytes → Document) (cfg : Config).
Context (dispatch : list (string * MethodRouter) → string → Method → Found).
Context (fred_pool : PoolConfig → result unit string) (auth : Authority).
Abbreviation service_step := (service_step sha256 number_to_string value_to_string from_slice cfg dispatch auth).
Abbreviation system_step := (system_step sha256 number_to_string value_to_string from_slice cfg dispatch auth fred_pool).

(** Other requests go on waiting. *)
Lemma service_step_waiting l sv sv' bearer :
  service_step l sv sv' →
  waiting sv bearer ≤ waiting sv' bearer + (if decide (gives_up l = Some bearer) then 1 else 0).
Proof.
  unfold waiting. intros Hs.
  destruct Hs as [|sh now ts log req _|sh now ts log req _ _|sh sh' now ts ts' log req X e k hist x Hp _|
    sh now ts ts' log req r hist Hp|sh now ts ts' log req X e k hist Hp _|]; cbn [threads]; try lia.
  - rewrite filter_cons. case_decide; cbn [length]; lia.
  - rewrite (filter_length_perm _ _ _ Hp), waits_cons, filter_cons. cbn [gives_up].
    repeat case_decide; cbn [length]; lia.
  - rewrite (filter_length_perm _ _ _ Hp), filter_cons, decide_False by done. cbn [gives_up]. rewrite decide_False by done. lia.
  - rewrite (filter_length_perm _ _ _ Hp), waits_cons. cbn [gives_up]. lia.
Qed.

(** A step of the system is one of the service, or leaves it alone. *)
Lemma system_step_service l s s' :
  system_step l s s' → service_step l (sy_service s) (sy_service s') ∨ gives_up l = None ∧ sy_service s' = sy_service s.
Proof. destruct 1; cbn; eauto using take_service_step. Qed.

Lemma system_step_waiting l s s' bearer :
  system_step l s s' →
  waiting (sy_service s) bearer ≤
    waiting (sy_service s') bearer + (if decide (gives_up l = Some bearer) then 1 else 0).
Proof. intros [Hs|[_ ->]]%system_step_service; [by apply service_step_waiting|lia]. Qed.
End Waiting.

Lemma asking_perm a a' bearer :
  a_bearer <$> a_threads a ≡ₚ a_bearer <$> a_threads a' → asking a bearer = asking a' bearer.
Proof. apply filter_length_perm. Qed.

Lemma asking_cons a a' b bearer :
  a_bearer <$> a_threads a ≡ₚ b :: (a_bearer <$> a_threads a') →
  asking a bearer = (if decide (bearer = b) then 1 else 0) + asking a' bearer.
Proof. intros Hp. unfold asking. rewrite (filter_length_perm _ _ _ Hp), filter_cons. by case_decide. Qed.

(** ** What is on the wires *)

(** What the sessions of a client have sent. *)
Definition session_traffic (log : list Session) (c : Client) : list Sent :=
  concat (se_piece <$> filter (λ s, se_client s = c) log).

Definition busy_piece (busy : gmap Client Busy) (c : Client) : list Sent :=
  match busy !! c with Some b => b_piece b | None => [] end.

Lemma session_traffic_cons s log c :
  session_traffic (s :: log) c = (if decide (se_client s = c) then se_piece s else []) ++ session_traffic log c.
Proof. unfold session_traffic. rewrite filter_cons. by case_decide. Qed.

(** An operation that returned to its caller with a failure of Redis. *)
Definition failed (s : Session) : bool :=
  match se_left s with
  | Done a => se_returned s && bool_decide (is_Some (se_caller s)) && existsb counts_as_failure (errors_returned a)
  | _ => false
  end.

(** How many did on the clients of an entry. *)
Definition failures_on (log : list Session) (id : nat) : nat :=
  length (filter (λ s, (se_client s).1 = id ∧ failed s = true) log).

Lemma failures_on_cons s log id :
  failures_on (s :: log) id = (if decide ((se_client s).1 = id ∧ failed s = true) then 1 else 0) + failures_on log id.
Proof. unfold failures_on. rewrite filter_cons. by case_decide. Qed.

Section Wires.
Context (sha256 : bytes → bytes).
Context (custom_raw : Client → list Sent → Sent → result Resp3Frame FredError).
Context (is_connected : Client → list Sent → bool).
Context (redis_keyslot : bytes → Z) (debug : RespValue → string).
Abbreviation reached c op past w piece :=
  (reached (custom_raw c) (is_connected c) (op_program redis_keyslot debug op) past w piece).

(** On whose behalf an operation runs on a client: a probe is a PING; any other
    is a request's, whose credential was accepted for an identity that may run
    each of its commands, on an entry built for the identity's pool. *)
Definition attributed (ended : list (string * result (option Identity) AuthError * Trace)) (built : gmap nat string)
    (c : Client) (caller : option HttpRequest) (op : Op) : Prop :=
  match caller with
  | None => op = probe_op
  | Some req => ∃ who scheme bearer tr,
      headers req "authorization" = Some (scheme +:+ String " " bearer) ∧
      eq_ignore_ascii_case scheme "Bearer" = true ∧ (bearer, Ok (Some who), tr) ∈ ended ∧
      built !! c.1 = Some (pool who) ∧ Forall (λ cmd, check sha256 who cmd = Ok tt) (op_commands op)
  end.

Section Parts.
Context (ended : list (string * result (option Identity) AuthError * Trace)) (built : gmap nat string).

(** A session did what its operation does on what was sent before it. *)
Fixpoint sessions_ok (log : list Session) : Prop :=
  match log with
  | [] => True
  | s :: older =>
      (reached (se_client s) (se_op s) (session_traffic older (se_client s)) (se_left s) (se_piece s) ∧
       attributed ended built (se_client s) (se_caller s) (se_op s)) ∧ sessions_ok older
  end.

Record wires_ok (busy : gmap Client Busy) (wires : gmap Client (list Sent)) (log : list Session) : Prop := {
  wi_traffic : ∀ c, default [] (wires !! c) = busy_piece busy c ++ session_traffic log c;
  wi_busy : ∀ c b, busy !! c = Some b →
    reached c (b_op b) (session_traffic log c) (left_ b) (b_piece b) ∧
    attributed ended built c (snd <$> owner b) (b_op b);
  wi_log : sessions_ok log;
}.

Lemma busy_piece_insert busy c b c' :
  busy_piece (<[c := b]> busy) c' = if decide (c = c') then b_piece b else busy_piece busy c'.
Proof. unfold busy_piece. case_decide; [subst; by rewrite lookup_insert_eq|by rewrite lookup_insert_ne]. Qed.

Lemma wires_begin busy wires log c o op :
  wires_ok busy wires log → busy !! c = None → attributed ended built c (snd <$> o) op →
  wires_ok (<[c := mkBusy o op (op_program redis_keyslot debug op) []]> busy) wires log.
Proof.
  intros [Ht Hb Hl] Hnone Ha. split; [| |done].
  - intros c'. rewrite Ht, busy_piece_insert. case_decide as Hc; [|done]. subst c'. unfold busy_piece. by rewrite Hnone.
  - intros c' b [[<- <-]|[_ ?]]%lookup_insert_Some; [|by apply Hb]. split; [constructor|done].
Qed.

Lemma wires_send busy wires log c o op w w' piece new :
  wires_ok busy wires log → busy !! c = Some (mkBusy o op w piece) →
  wire_step (custom_raw c) (is_connected c) w (default [] (wires !! c)) = Some (w', new) →
  wires_ok (<[c := mkBusy o op w' (new ++ piece)]> busy) (<[c := new ++ default [] (wires !! c)]> wires) log.
Proof.
  intros [Ht Hb Hl] Hc Hs. destruct (Hb c _ Hc) as [Hr Ha]. cbn in Hr, Ha.
  assert (default [] (wires !! c) = piece ++ session_traffic log c) as Hpast
    by (rewrite Ht; unfold busy_piece; by rewrite Hc).
  split; [| |done].
  - intros c'. rewrite busy_piece_insert. destruct (decide (c = c')) as [<-|Hne].
    + rewrite lookup_insert_eq. cbn. by rewrite Hpast, app_assoc.
    + by rewrite lookup_insert_ne.
  - intros c' b [[<- <-]|[_ ?]]%lookup_insert_Some; [|by apply Hb]. split; [|done]. cbn.
    eapply reached_step; [exact Hr|]. by rewrite <- Hpast.
Qed.

Lemma wires_end busy wires log c o op w piece returned :
  wires_ok busy wires log → busy !! c = Some (mkBusy o op w piece) →
  wires_ok (delete c busy) wires (mkSession c (snd <$> o) op w piece returned :: log).
Proof.
  intros [Ht Hb Hl] Hc. destruct (Hb c _ Hc) as [Hr Ha]. cbn in Hr, Ha. split.
  - intros c'. rewrite Ht, session_traffic_cons. unfold busy_piece. cbn. destruct (decide (c = c')) as [<-|Hne].
    + by rewrite Hc, lookup_delete_eq.
    + by rewrite lookup_delete_ne.
  - intros c' b [Hne Hb']%lookup_delete_Some. rewrite session_traffic_cons. cbn. rewrite decide_False by done.
    by apply Hb.
  - done.
Qed.
End Parts.

Lemma attributed_grows ended ended' built built' c caller op :
  ended ⊆ ended' → (∀ id name, built !! id = Some name → built' !! id = Some name) →
  attributed ended built c caller op → attributed ended' built' c caller op.
Proof.
  intros He Hb. destruct caller as [req|]; [|done].
  intros (who & scheme & bearer & tr & ? & ? & ? & ? & ?). exists who, scheme, bearer, tr. auto 10.
Qed.

Lemma wires_grow ended ended' built built' busy wires log :
  ended ⊆ ended' → (∀ id name, built !! id = Some name → built' !! id = Some name) →
  wires_ok ended built busy wires log → wires_ok ended' built' busy wires log.
Proof.
  intros He Hb [Ht Hbusy Hl]. split; [done|..].
  - intros c b Hc. destruct (Hbusy c b Hc). split; [done|by eapply attributed_grows].
  - clear -Hl He Hb. induction log as [|s log IH]; [done|]. destruct Hl as [[? ?] ?]. split; [|by apply IH].
    split; [done|by eapply attributed_grows].
Qed.
End Wires.

(** ** The invariant *)

Section Invariant.
Context (sha256 : bytes → bytes).
Context (number_to_string : Number → string) (value_to_string : Value → result string unit).
Context (from_slice : bytes → Document) (cfg : Config).
Context (dispatch : list (string * MethodRouter) → string → Method → Found) `{!StaticRouting dispatch}.
Context (fred_pool : PoolConfig → result unit string).
Context {DecodingKey : Type}.
Context (decode_header : string → option (option string)).
Context (decoding_key : bytes → option DecodingKey).
Context (decode : string → DecodingKey → Validation → option Claims).
Context (url_safe_decode : string → option bytes) (json_from_slice : bytes → option Value).
Context (jwt_auth : option JwtAuth) (cache : CacheParams) (issuer : string) (refresh_after : Z).
Context (custom_raw : Client → list Sent → Sent → result Resp3Frame FredError).
Context (is_connected : Client → list Sent → bool).
Context (redis_keyslot : bytes → Z) (debug : RespValue → string).
Hypothesis Hrate : in_u64 (per_token_commands_per_sec (rate_limit (server cfg))).
Hypothesis Hmax : in_u64 (max_in_flight (load (server cfg))).
Hypothesis Hwaiters : ∀ name p, pools cfg !! name = Some p → in_u64 (max_waiters p).
Abbreviation system_step auth :=
  (system_step sha256 number_to_string value_to_string from_slice cfg dispatch auth fred_pool).
Abbreviation system_inv := (system_inv sha256 number_to_string value_to_string from_slice cfg dispatch).
Abbreviation auth_step := (auth_step decode_header decoding_key decode url_safe_decode json_from_slice sha256
  jwt_auth cache (static_tokens (Config.auth cfg)) issuer refresh_after).
Abbreviation auth_reachable := (auth_reachable decode_header decoding_key decode url_safe_decode json_from_slice sha256
  jwt_auth cache (static_tokens (Config.auth cfg)) issuer refresh_after).
Abbreviation gateway_step := (gateway_step sha256 number_to_string value_to_string from_slice cfg dispatch fred_pool
  decode_header decoding_key decode url_safe_decode json_from_slice jwt_auth cache issuer refresh_after
  custom_raw is_connected redis_keyslot debug).
Abbreviation gateway_reachable := (gateway_reachable sha256 number_to_string value_to_string from_slice cfg dispatch
  fred_pool decode_header decoding_key decode url_safe_decode json_from_slice jwt_auth cache issuer refresh_after
  custom_raw is_connected redis_keyslot debug).
Abbreviation wires_ok := (wires_ok sha256 custom_raw is_connected redis_keyslot debug).

(** The operation of a request in flight is on behalf of its caller. *)
Lemma operation_attributed ended s t {X} (e : Eff X) k h op c :
  system_inv (vouched ended) s → t ∈ threads (sy_service s) → t_prog t = Vis e k → operation e = Some (h, op) →
  sy_lent s !! lease h = Some c → attributed sha256 ended (sy_built s) c (Some (t_req t)) op.
Proof.
  intros [Hsv _ _ _ Hpl] Ht Hprog Hop Hc. destruct t as [req p hist]. cbn in Hprog. subst p.
  pose proof (sv_threads _ _ _ _ _ _ _ _ Hsv) as Hsteps. rewrite Forall_forall in Hsteps, Hpl.
  specialize (Hsteps _ Ht). specialize (Hpl _ Ht). cbn [t_req t_prog t_hist] in *.
  apply issued_conforms in Hsteps; [|apply _..].
  assert (∃ call, issued e = [call] ∧ touches call = true ∧ ∀ who p p', phase_step sha256 who call p = Some p' →
    ∃ n, p = Phase.Leased n h ∧ runnable sha256 who n (op_commands op)) as (call & Hcall & Htouch & Hphase).
  { destruct e; try done; injection Hop as <- <-; (eexists; split; [reflexivity|split; [reflexivity|]]);
      intros who p p' Hp; destruct p; cbn in Hp; try done; case_decide as Hd; try done; destruct Hd as [<- ?]; eauto. }
  rewrite Hcall in Hsteps. cbn [app] in Hsteps.
  destruct Hsteps as [[Hun|(who & scheme & bearer & asked & handled & _ & _ & Hhd & Hsch & Hv & Happ & Hun & [ph Hph])] _].
  { cbn in Hun. by rewrite Htouch in Hun. }
  destruct handled as [|call' handled]; cbn in Happ.
  { rewrite <- Happ in Hun. cbn in Hun. by rewrite Htouch in Hun. }
  injection Happ as <- ->. rewrite phase_cons in Hph. apply bind_Some in Hph as (p & Hp & Hph).
  destruct (Hphase _ _ _ Hph) as (n & -> & Hrun & _).
  assert (held (handled ++ asked) = Some h) as Hheld.
  { rewrite held_app by (by apply held_untouched). by rewrite (held_phase _ _ _ _ Hp). }
  destruct (Hpl _ Hheld) as (name & id & i & Hname & Hl & Hb). rewrite Hc in Hl. injection Hl as ->.
  cbn [t_hist] in Hname. rewrite held_pool_app in Hname by (by apply held_pool_untouched).
  erewrite phase_pool in Hname; [|exact Hp|by rewrite (held_phase _ _ _ _ Hp)]. injection Hname as <-.
  destruct (Hv who eq_refl) as [tr Htr]. exists who, scheme, bearer, tr. by split_and!.
Qed.

(** Entries keep the names they were built under. *)
Lemma system_step_built auth `{!Answering auth} l s s' :
  system_inv auth s → system_step auth l s s' →
  ∀ id name, sy_built s !! id = Some name → sy_built s' !! id = Some name.
Proof.
  intros Hinv Hs. assert (system_inv auth s') as [_ Hmg' _ _ _] by (eapply system_step_inv, Hs; done).
  destruct Hinv as [_ _ _ Hbuilt _]. destruct Hs; cbn in *; try done.
  by eapply built_ok_acquire.
Qed.

(** The parts of the gateway that answer requests, apart from Redis. *)
Record asking_ok (s : System) (a : AuthService) : Prop := {
  as_system : system_inv (vouched (a_ended a)) s;
  as_auth : auth_reachable a;
  as_asking : ∀ bearer, asking a bearer ≤ waiting (sy_service s) bearer;
}.

Lemma auth_reachable_step l a a' : auth_reachable a → auth_step l a a' → auth_reachable a'.
Proof. intros (now & t & Hrun) Hs. exists now, t. eapply rtc_r; [exact Hrun|]. by exists l. Qed.

(** A step of the system, with what the authenticator did meanwhile. *)
Lemma asking_step l s s' a a' :
  asking_ok s a → auth_reachable a' → a_ended a ⊆ a_ended a' →
  system_step anyone l s s' → answered_by (vouched (a_ended a')) l →
  (∀ bearer, asking a' bearer + (if decide (gives_up l = Some bearer) then 1 else 0) ≤
    waiting (sy_service s) bearer) →
  asking_ok s' a' ∧ ∀ id name, sy_built s !! id = Some name → sy_built s' !! id = Some name.
Proof.
  intros [Hs _ _] Ha' Hsub Hstep Hans Hcount.
  assert (system_inv (vouched (a_ended a')) s) as Hinv by (eapply system_inv_mono, Hs; by apply vouched_grows).
  apply system_step_authority with (auth := vouched (a_ended a')) in Hstep; [|done].
  split; [|eapply (system_step_built _ _ _ _ Hinv Hstep)].
  split; [eapply system_step_inv; try done; try apply _; exact Hstep|done|].
  intros bearer. specialize (Hcount bearer). apply system_step_waiting with (bearer := bearer) in Hstep. lia.
Qed.

Record gateway_inv (g : Gateway) : Prop := {
  gi_asking : asking_ok (g_system g) (g_auth g);
  gi_accounts : entries_accounted (failures_on (g_sessions g)) (sy_manager (g_system g));
  gi_wires : wires_ok (a_ended (g_auth g)) (sy_built (g_system g)) (g_busy g) (g_wires g) (g_sessions g);
}.

Lemma gateway_start_inv now t : gateway_inv (gateway_start now t).
Proof.
  split; cbn.
  - split; cbn; [by apply system_start_inv|exists now, t; apply rtc_refl|]. intros bearer. cbn. lia.
  - done.
  - split; cbn; try done.
Qed.

(** The parts are in order after a move of the rest. *)
Lemma gateway_moves s s' a a' busy wires log :
  wires_ok (a_ended a) (sy_built s) busy wires log → a_ended a ⊆ a_ended a' →
  entries_accounted (failures_on log) (sy_manager s') →
  asking_ok s' a' ∧ (∀ id name, sy_built s !! id = Some name → sy_built s' !! id = Some name) →
  gateway_inv (mkGateway s' a' busy wires log).
Proof. intros Hw Hsub Hacc [Ha Hb]. split; [done|done|]. by eapply wires_grow. Qed.

(** The breakers' accounts after a step of the system. *)
Lemma accounts_step l s s' log log' :
  system_step anyone l s s' → entries_accounted (failures_on log) (sy_manager s) →
  (∀ id, recorded_failure l id + failures_on log id ≤ failures_on log' id) →
  entries_accounted (failures_on log') (sy_manager s').
Proof. intros Hs Hacc Hle. eapply entries_accounted_mono; [exact Hle|]. by eapply system_step_accounted. Qed.

Lemma accounts_quiet l s s' log log' :
  system_step anyone l s s' → entries_accounted (failures_on log) (sy_manager s) →
  (∀ id i errors, l ≠ Label.Record_ id i errors) → (∀ id, failures_on log id ≤ failures_on log' id) →
  entries_accounted (failures_on log') (sy_manager s').
Proof. 
  intros Hs Hacc Hl Hle. eapply accounts_step; [done..|]. intros id. specialize (Hle id).
  destruct l as [| |id' i errors|]; cbn; try lia. by destruct (Hl id' i errors).
Qed.

(** The failure an operation returned with is in the log. *)
Lemma returned_accounts c req op a piece log id :
  recorded_failure (Label.Record_ c.1 c.2 (errors_returned a)) id + failures_on log id ≤
    failures_on (mkSession c (Some req) op (Done a) piece true :: log) id.
Proof.
  rewrite failures_on_cons. unfold failed. cbn [recorded_failure se_client se_left se_returned se_caller].
  destruct (existsb _ _) eqn:He; [|case_decide; lia]. destruct (decide (id = c.1)) as [->|]; [|lia].
  by rewrite decide_True.
Qed.

Lemma failures_on_grow s log id : failures_on log id ≤ failures_on (s :: log) id.
Proof. rewrite failures_on_cons. lia. Qed.

(** A step that answers no credential. *)
Lemma passive_answered auth {X} req hist (e : Eff X) x :
  asks e = None → answered_by auth (Label.Call req hist e x).
Proof. by destruct e. Qed.

Lemma operation_asks {X} (e : Eff X) h op : operation e = Some (h, op) → asks e = None.
Proof. by destruct e. Qed.

(** The system moves and the authentications do not. *)
Lemma quiet_step l s s' a :
  asking_ok s a → system_step anyone l s s' → gives_up l = None →
  asking_ok s' a ∧ ∀ id name, sy_built s !! id = Some name → sy_built s' !! id = Some name.
Proof.
  intros Hok Hstep Hl. eapply (asking_step l s s' a a); [exact Hok|apply Hok|done|exact Hstep|..].
  - destruct l; cbn in *; [by apply passive_answered|done..].
  - intros bearer. rewrite Hl, decide_False by done. pose proof (as_asking _ _ Hok bearer). lia.
Qed.

Lemma gateway_step_inv g g' : gateway_inv g → gateway_step g g' → gateway_inv g'.
Proof.
  intros [Hok Hacc Hw] Hstep. pose proof Hok as [Hsys Hauth Hask].
  destruct Hstep as [l s s' a busy wires log Hs Hl|s a a' busy wires log Ha|s a a' busy wires log bearer Hlt Ha|
    s s' a a' busy wires log req hist bearer r Hs Ha|s s' a a' busy wires log req hist bearer Hs Ha|
    s a busy wires log t X e k h op c Ht Hp Hop Hc Hfree|s a busy wires log c o op w w' piece new Hb Hsend|
    s s1 s' a busy wires log req hist X e x h op c op' w piece Hb Hw' Hrec Hs Hop Hc|
    s s' a busy wires log req hist X e h op c op' w piece Hs Hop Hc Hb|
    s s' a busy wires log req hist X e h op c Hs Hop Hc Hb|s a busy wires log name id p ps i Hn Hh Hi Hfree|
    s a busy wires log c op x piece Hb]; cbn [g_system g_auth g_busy g_wires g_sessions] in *.
  - eapply gateway_moves; [exact Hw|done|..].
    + eapply accounts_quiet; [exact Hs|exact Hacc| |done]. intros ? ? ? ->. done.
    + eapply quiet_step; [exact Hok|exact Hs|]. destruct l; cbn in *; [by destruct Hl|by destruct Hl|done|done].
  - destruct (auth_step_ended _ _ _ _ _ _ _ _ _ _ _ _ _ _ Ha) as [Hsub Hend]. cbn in Hend.
    apply auth_step_bearers in Ha as Hbear.
    eapply gateway_moves; [exact Hw|done|done|]. split; [|done]. split; [by rewrite Hend|by eapply auth_reachable_step|].
    intros b. by rewrite (asking_perm _ _ _ Hbear).
  - destruct (auth_step_ended _ _ _ _ _ _ _ _ _ _ _ _ _ _ Ha) as [Hsub Hend]. cbn in Hend.
    apply auth_step_bearers in Ha as Hbear.
    eapply gateway_moves; [exact Hw|done|done|]. split; [|done]. split; [by rewrite Hend|by eapply auth_reachable_step|].
    intros b. rewrite (asking_cons a' a bearer b) by (by rewrite Hbear). case_decide; [by subst|apply Hask].
  - destruct (auth_step_ended _ _ _ _ _ _ _ _ _ _ _ _ _ _ Ha) as [Hsub [tr Htr]].
    apply auth_step_bearers in Ha as Hbear.
    eapply gateway_moves; [exact Hw|exact Hsub|by eapply accounts_quiet|].
    eapply asking_step; [exact Hok|by eapply auth_reachable_step|exact Hsub|exact Hs|by intros who ->; exists tr|].
    intros b. specialize (Hask b). rewrite (asking_cons a a' bearer b Hbear) in Hask. cbn [gives_up asks].
    repeat case_decide; simplify_eq; lia.
  - assert (a_ended a ⊆ a_ended a' ∧ auth_reachable a' ∧ ∀ b,
      asking a' b + (if decide (Some bearer = Some b) then 1 else 0) ≤ waiting (sy_service s) b) as (Hsub & Hr & Hcount).
    { destruct Ha as [Ha|[-> Hlt]].
      - destruct (auth_step_ended _ _ _ _ _ _ _ _ _ _ _ _ _ _ Ha) as [Hsub _]. apply auth_step_bearers in Ha as Hbear.
        split_and!; [done|by eapply auth_reachable_step|]. intros b. specialize (Hask b).
        rewrite (asking_cons a a' bearer b Hbear) in Hask. repeat case_decide; simplify_eq; lia.
      - split_and!; [done..|]. intros b. specialize (Hask b). case_decide; simplify_eq; lia. }
    eapply gateway_moves; [exact Hw|exact Hsub|by eapply accounts_quiet|].
    by eapply asking_step; [exact Hok|..|exact Hs|done|].
  - split; [done|done|]. apply wires_begin; [done|done|]. by eapply operation_attributed.
  - split; [done|done|]. by eapply wires_send.
  - subst w. destruct (quiet_step _ _ _ a Hok Hrec eq_refl) as [Hok1 Hb1].
    destruct (quiet_step _ _ _ a Hok1 Hs) as [Hok' Hb']; [by eapply operation_asks|].
    eapply gateway_moves; [by eapply (wires_end _ _ _ _ _ _ _ _ _ _ _ _ _ _ _ _ Hw Hb)|done| |split; [done|auto]].
    eapply accounts_quiet; [exact Hs| |done|done].
    eapply accounts_step; [exact Hrec|exact Hacc|]. intros id. apply returned_accounts.
  - eapply gateway_moves; [by apply (wires_end _ _ _ _ _ _ _ _ _ _ _ _ _ _ _ false Hw Hb)|done| |].
    + eapply accounts_quiet; [exact Hs|exact Hacc|done|apply failures_on_grow].
    + eapply quiet_step; [exact Hok|exact Hs|by eapply operation_asks].
  - eapply gateway_moves; [exact Hw|done|by eapply accounts_quiet|].
    eapply quiet_step; [exact Hok|exact Hs|by eapply operation_asks].
  - split; [done|done|]. by apply wires_begin.
  - split; [done| |by apply (wires_end _ _ _ _ _ _ _ _ _ _ _ _ _ _ _ true Hw Hb)].
    eapply entries_accounted_mono; [apply failures_on_grow|done].
Qed.

Lemma gateway_reachable_inv g : gateway_reachable g → gateway_inv g.
Proof.
  intros (now & t & Hrun). pose proof (gateway_start_inv now t) as Hinit.
  induction Hrun as [|g1 g2 g3 Hstep _ IH]; eauto using gateway_step_inv.
Qed.

(** ** Messages and their senders *)

(** The policy lets nobody begin a transaction by command. *)
Lemma attributed_ordinary ended built c caller op :
  attributed sha256 ended built c caller op → Forall (λ cmd, begins (name cmd) = false) (op_commands op).
Proof.
  destruct caller as [req|]; cbn; [|intros ->; by repeat constructor].
  intros (who & _ & _ & _ & _ & _ & _ & _ & Hall). eapply Forall_impl; [exact Hall|]. intros cmd Hcmd. cbn.
  unfold begins. apply String.eqb_neq. intros Hn.
  destruct (session_commands_refused sha256 who cmd) as (Hrefuse & _ & Hall').
  apply Forall_cons in Hall' as [Hmulti _]. rewrite <- Hn in Hmulti. specialize (Hrefuse Hmulti). cbv beta in Hcmd. congruence.
Qed.

(** Every message was sent by an operation on somebody's behalf. *)
Lemma sent_by_operation g c m :
  gateway_inv g → m ∈ traffic g c →
  ∃ caller op, attributed sha256 (a_ended (g_auth g)) (sy_built (g_system g)) c caller op ∧
    op_message redis_keyslot op m.
Proof.
  intros [_ _ [Ht Hb Hl]] Hm. unfold traffic in Hm. rewrite Ht in Hm. apply elem_of_app in Hm as [Hm|Hm].
  - unfold busy_piece in Hm. destruct (g_busy g !! c) as [b|] eqn:Hc; [|by apply elem_of_nil in Hm].
    destruct (Hb c b Hc) as [Hr Ha]. exists (snd <$> owner b), (b_op b). split; [done|].
    eapply reached_sends in Hr as [_ Hall]; [|apply op_program_sends]. rewrite Forall_forall in Hall. by apply Hall.
  - clear Ht Hb. induction (g_sessions g) as [|s log IH]; [by apply elem_of_nil in Hm|].
    destruct Hl as [[Hr Ha] Hl]. rewrite session_traffic_cons in Hm. case_decide as Hc; [|by apply IH].
    apply elem_of_app in Hm as [Hm|Hm]; [|by apply IH]. subst c. exists (se_caller s), (se_op s). split; [done|].
    eapply reached_sends in Hr as [_ Hall]; [|apply op_program_sends]. rewrite Forall_forall in Hall. by apply Hall.
Qed.

(** What a command on the wire says of its operation. *)
Lemma op_message_command op name hash args :
  op_message redis_keyslot op (Sent.Command name hash args) →
  mkRedisCommand name args ∈ op_commands op ∨
  (∃ cmds, op = Op.Transaction cmds) ∧ name ∈ ["MULTI"; "EXEC"; "DISCARD"] ∧ args = [].
Proof.
  assert (∀ c, mkRedisCommand (Domain.name c) (Domain.args c) = c) as Heta by (by intros []).
  intros [?|Hm]; [done|]. destruct op as [cmd|cmds|cmds]; cbn in *.
  - injection Hm as -> _ ->. left. rewrite Heta. by left.
  - apply list_elem_of_fmap in Hm as (c & [= -> _ ->] & Hc). left. by rewrite Heta.
  - destruct Hm as [(c & [= -> _ ->] & Hc)%list_elem_of_fmap|(n & Hn & [= -> _ ->])]; [left; by rewrite Heta|right; eauto].
Qed.

(** A transaction open on a client was abandoned there. *)
Lemma open_was_abandoned ended built log c :
  sessions_ok sha256 custom_raw is_connected redis_keyslot debug ended built log →
  in_transaction (custom_raw c) (session_traffic log c) = true →
  ∃ s cmds, s ∈ log ∧ se_client s = c ∧ se_op s = Op.Transaction cmds ∧ ∀ x, se_left s ≠ Done x.
Proof.
  induction log as [|s log IH]; [done|]. intros [[Hr Ha] Hl]. rewrite session_traffic_cons. case_decide as Hc.
  2:{ intros (s' & cmds & ? & ?)%IH; [|done]. exists s', cmds. split; [by right|done]. }
  subst c. intros Hin. apply attributed_ordinary in Ha.
  destruct (op_opens _ _ _ _ _ _ _ _ Hr Ha Hin) as [Hopen|[[cmds ?] ?]].
  - apply IH in Hopen as (s' & cmds & ? & ?); [|done]. exists s', cmds. split; [by right|done].
  - exists s, cmds. split; [by left|done].
Qed.

(** A session of the log did what its operation does, for its caller. *)
Lemma session_ok ended built newer s older :
  sessions_ok sha256 custom_raw is_connected redis_keyslot debug ended built (newer ++ s :: older) →
  reached (custom_raw (se_client s)) (is_connected (se_client s)) (op_program redis_keyslot debug (se_op s))
    (session_traffic older (se_client s)) (se_left s) (se_piece s) ∧
  attributed sha256 ended built (se_client s) (se_caller s) (se_op s).
Proof. induction newer as [|s' newer IH]; [by intros [? _]|]. intros [_ Hl]. by apply IH. Qed.

(** ** Properties *)

(** C1. What reaches Redis through the whole gateway, whatever requests,
    authentications, key refreshes, drops, evictions, probes and shutdowns
    interleave.  Every command ever sent on any client is a readiness PING, or
    was sent on behalf of an HTTP request whose bearer token was accepted for
    an identity by an authentication that ended, and that the token table, or
    an issuer's published key together with the introspection answers, vouch
    for; the client belongs to an entry built for that identity's pool, with
    the connection string and settings configured for it; and the command passes
    the policy for that identity, or is the MULTI, EXEC or DISCARD around its
    transaction.  And the authentications in flight are those of requests that
    wait for one. *)
Theorem redis_traffic_is_vouched_for g (Hg : gateway_reachable g) :
  (∀ c name hash args, Sent.Command name hash args ∈ traffic g c →
     (name = "PING" ∧ args = []) ∨
     ∃ req who scheme bearer tr p ps,
       headers req "authorization" = Some (scheme +:+ String " " bearer) ∧
       (bearer, Ok (Some who), tr) ∈ a_ended (g_auth g) ∧
       vouched_for decode_header decoding_key decode sha256 jwt_auth cache (static_tokens (Config.auth cfg))
         (g_auth g) bearer who tr ∧
       sy_built (g_system g) !! c.1 = Some (pool who) ∧
       pools cfg !! pool who = Some p ∧ heap (sy_manager (g_system g)) !! c.1 = Some (pool_params p, ps) ∧
       (check sha256 who (mkRedisCommand name args) = Ok tt ∨ name ∈ ["MULTI"; "EXEC"; "DISCARD"] ∧ args = [])) ∧
  (∀ bearer, asking (g_auth g) bearer ≤ waiting (sy_service (g_system g)) bearer).
Proof.
  apply gateway_reachable_inv in Hg as Hinv. pose proof Hinv as [[[_ _ _ [Hbuilt _] _] Hauth Hask] _ _].
  split; [|done]. intros c name hash args Hm.
  destruct (sent_by_operation g c _ Hinv Hm) as (caller & op & Ha & Hop%op_message_command).
  destruct caller as [req|].
  - destruct Ha as (who & scheme & bearer & tr & ? & _ & Hend & Hb & Hall). right.
    destruct (Hbuilt _ _ Hb) as (p & ps & ? & ?). exists req, who, scheme, bearer, tr, p, ps. split_and!; try done.
    + by eapply ended_vouched.
    + destruct Hop as [Hop|[_ ?]]; [left|by right]. rewrite Forall_forall in Hall. by apply Hall.
  - left. cbn in Ha. subst op. by destruct Hop as [[= -> ->]%list_elem_of_singleton|[[cmds ?] _]].
Qed.

(** C4. Transactions on shared connections, message by message.  What was sent
    on a client is the operations that ran there, one after the other, none
    inside another, and the one that holds the client's lock now.  Each did
    what the executor does on what was sent before it.  One that ran to its end
    leaves the connection outside a transaction if it found it outside; and
    when the connection is left inside one, with MULTI acknowledged and neither
    EXEC, DISCARD nor a reconnection sent since, a request was dropped in the
    middle of its own transaction there.  (It can be: see
    [dropped_transactions_stay_open].) *)
Theorem transactions_are_not_interleaved g c (Hg : gateway_reachable g) :
  traffic g c = busy_piece (g_busy g) c ++ session_traffic (g_sessions g) c ∧
  (∀ newer s older, g_sessions g = newer ++ s :: older → se_client s = c →
     reached (custom_raw c) (is_connected c) (op_program redis_keyslot debug (se_op s)) (session_traffic older c)
       (se_left s) (se_piece s) ∧
     ((∃ x, se_left s = Done x) → in_transaction (custom_raw c) (session_traffic older c) = false →
      in_transaction (custom_raw c) (se_piece s ++ session_traffic older c) = false)) ∧
  (in_transaction (custom_raw c) (session_traffic (g_sessions g) c) = true →
   ∃ s cmds, s ∈ g_sessions g ∧ se_client s = c ∧ se_op s = Op.Transaction cmds ∧ ∀ x, se_left s ≠ Done x).
Proof.
  apply gateway_reachable_inv in Hg as [_ _ [Ht _ Hl]]. split_and!; [apply Ht| |by eapply open_was_abandoned].
  intros newer s older Hlog <-. rewrite Hlog in Hl. apply session_ok in Hl as [Hr Ha].
  split; [done|]. intros [x Hx] Hout. apply attributed_ordinary in Ha.
  destruct (in_transaction _ (se_piece s ++ _)) eqn:Hin; [|done].
  destruct (op_opens _ _ _ _ _ _ _ _ Hr Ha Hin) as [Hopen|[_ Hne]]; [congruence|by destruct (Hne x)].
Qed.

(** C5. What opens a pool's breaker, in the whole gateway.  The breaker of an
    entry refuses callers only after as many operations as the configured
    threshold have failed on the clients of that entry, and its count never
    exceeds them.  Each of these ran message by message on its connection and
    returned a transport error or a timeout to the request it ran for, whose
    caller was authenticated for this very pool and permitted every command.  So
    errors that Redis reports, requests dropped half-way, readiness probes and
    the callers of other pools open no breaker. *)
Theorem breakers_open_on_failures_of_their_pool g (Hg : gateway_reachable g) id name
    (Hname : sy_built (g_system g) !! id = Some name) :
  ∃ p ps, pools cfg !! name = Some p ∧ heap (sy_manager (g_system g)) !! id = Some (pool_params p, ps) ∧
    (consecutive_failures (breaker (entry ps)) ≤ Z.of_nat (failures_on (g_sessions g) id))%Z ∧
    (∀ now retry_after_secs inner',
       breaker_admit (breaker_params (pool_params p)) now (breaker (entry ps)) = (Err retry_after_secs, inner') →
       (breaker_failure_threshold (pool_breaker p) ≤ Z.of_nat (failures_on (g_sessions g) id))%Z) ∧
    (∀ newer s older, g_sessions g = newer ++ s :: older → (se_client s).1 = id → failed s = true →
       ∃ req who scheme bearer tr a e,
         se_caller s = Some req ∧ headers req "authorization" = Some (scheme +:+ String " " bearer) ∧
         (bearer, Ok (Some who), tr) ∈ a_ended (g_auth g) ∧ pool who = name ∧
         Forall (λ cmd, check sha256 who cmd = Ok tt) (op_commands (se_op s)) ∧
         wire_run (custom_raw (se_client s)) (is_connected (se_client s)) (op_program redis_keyslot debug (se_op s))
           (session_traffic older (se_client s)) = (a, se_piece s ++ session_traffic older (se_client s)) ∧
         e ∈ errors_returned a ∧ (e = ExecError.Timeout ∨ ∃ t, e = ExecError.Transport t)).
Proof.
  apply gateway_reachable_inv in Hg as [[[_ _ _ [Hbuilt _] _] _ _] Hacc [_ _ Hl]].
  destruct (Hbuilt _ _ Hname) as (p & ps & Hp & Hheap). destruct (Hacc _ _ _ Hheap) as [Hcount Hstate].
  exists p, ps. split_and!; [done..| |].
  - intros now retry inner' Ha. apply Hstate. intros Hclosed. unfold breaker_admit in Ha. by rewrite Hclosed in Ha.
  - intros newer s older Hlog Hid Hf. rewrite Hlog in Hl. apply session_ok in Hl as [Hr Ha].
    unfold failed in Hf. destruct (se_left s) as [a| | |]; try done.
    apply andb_true_iff in Hf as [[_ Hc%bool_decide_eq_true]%andb_true_iff He]. destruct Hc as [req Hc].
    rewrite Hc in Ha. destruct Ha as (who & scheme & bearer & tr & ? & _ & ? & Hb & ?).
    apply existsb_exists in He as (e & He%list_elem_of_In & Hcount'). apply reached_run in Hr.
    exists req, who, scheme, bearer, tr, a, e. split_and!; try done.
    + rewrite Hid in Hb. congruence.
    + destruct e; cbn in Hcount'; try done; eauto.
Qed.
End Invariant.

(** ** A run *)

(** A request that presents a static token and asks for a transaction of two
    commands; Redis queues after MULTI as it documents. *)
Definition gw_request : HttpRequest :=
  mkRequest Method.POST "/multi-exec" (λ h, if String.eqb h "authorization" then Some "Bearer token" else None) false.

Fixpoint queueing (past : list Sent) : bool :=
  match past with
  | [] | Sent.ForceReconnection :: _ => false
  | Sent.Command name _ _ :: past =>
      if String.eqb name "MULTI" then true
      else if contains ["EXEC"; "DISCARD"] name then false else queueing past
  end.

Definition gw_server (_ : Client) (past : list Sent) (m : Sent) : result Resp3Frame FredError :=
  Ok match m with
     | Sent.Command "EXEC" _ _ => Resp3Frame.Array []
     | Sent.Command "MULTI" _ _ | Sent.Command "DISCARD" _ _ => Resp3Frame.SimpleString "OK"
     | _ => if queueing past then Resp3Frame.SimpleString "QUEUED" else Resp3Frame.BlobString "value"
     end.

Abbreviation step_on raw := (gateway_step (λ b, b) (λ _, "1") (λ _, Ok "{}") (λ _, sample_pipeline) demo_cfg literal_dispatch
  (λ _, Ok tt) demo_header Some demo_decode Some (λ _, None) None (cache_new 30) "https://issuer" (from_secs 600)
  raw (λ _ _, true) (λ _, 7%Z) (λ _, "")).
Abbreviation reachable_on raw := (gateway_reachable (λ b, b) (λ _, "1") (λ _, Ok "{}") (λ _, sample_pipeline) demo_cfg
  literal_dispatch (λ _, Ok tt) demo_header Some demo_decode Some (λ _, None) None (cache_new 30) "https://issuer"
  (from_secs 600) raw (λ _ _, true) (λ _, 7%Z) (λ _, "")).

(** The run is the same whatever Redis answers, until it is asked. *)
Section Server.
Context (raw : Client → list Sent → Sent → result Resp3Frame FredError).
Abbreviation gw_step := (step_on raw).
Abbreviation gw_reachable := (reachable_on raw).

(** The only request takes a call that nobody else has a part in. *)
Definition passive_call (sv : Service) : option Service :=
  match threads sv with
  | [mkThread req (Vis e k) hist] =>
      if decide (asks e = None ∧ operation e = None) then quiet_calls 1 sv else None
  | _ => None
  end.

Fixpoint passive_calls (n : nat) (sv : Service) : option Service :=
  match n with
  | O => Some sv
  | S n => sv' ← passive_call sv; passive_calls n sv'
  end.

Lemma passive_calls_steps n sv sv' m built lent a busy wires log :
  passive_calls n sv = Some sv' →
  rtc gw_step (mkGateway (mkSystem sv m built lent) a busy wires log)
    (mkGateway (mkSystem sv' m built lent) a busy wires log).
Proof.
  revert sv. induction n as [|n IH]; intros sv Hq; [injection Hq as <-; apply rtc_refl|]. cbn in Hq.
  destruct (passive_call sv) as [sv1|] eqn:Hp; [|done]. eapply rtc_l; [|by apply IH]. clear IH Hq.
  unfold passive_call in Hp. destruct sv as [sh now ts ended]. cbn [threads] in Hp.
  destruct ts as [|[req [r|X e k] hist] [|]]; try done. case_decide as He; [|done]. cbn in Hp.
  destruct (demo_answer now e sh) as [[x sh']|] eqn:Ha; [|done]. cbn in Hp. case_decide as Ho; [|done].
  injection Hp as <-. eapply gw_system with (l := Label.Call req hist e x); [|done].
  apply sys_service; [|done].
  eapply (sv_call _ _ _ _ demo_cfg _ _ sh sh' now _ [] ended req e k hist x); [done|].
  eapply answers_authority; [|exact (demo_answer_answers now e x sh sh' Ha)]. by destruct e.
Qed.

(** Internal steps of the system are steps of the gateway. *)
Lemma internal_steps s s' a busy wires log :
  rtc (system_step (λ b, b) (λ _, "1") (λ _, Ok "{}") (λ _, sample_pipeline) demo_cfg literal_dispatch
    (can_answer demo_authenticate) (λ _, Ok tt) Label.Internal) s s' →
  rtc gw_step (mkGateway s a busy wires log) (mkGateway s' a busy wires log).
Proof.
  induction 1 as [|s1 s2 s3 Hs _ IH]; [done|]. eapply rtc_l; [|exact IH]. eapply (gw_system) with (l := Label.Internal); [|done].
  by eapply system_step_authority.
Qed.

(** The only request's credential, once it waits for it, is answered. *)
Definition gw_who : Identity := static_identity "token" (mkStaticTokenConfig "main" false false None ∅ ∅ None).

Definition take_identity (sv : Service) : option Service :=
  match threads sv with
  | [mkThread req (Vis e k) hist] =>
      match e in Eff.Eff X return (X → Prog Response) → option Service with
      | Eff.Authenticate "token" => λ k,
          Some (mkService (shared sv) (instant sv)
            [mkThread req (k (Ok (Some gw_who))) (Call.Authenticate "token" :: hist)] (ended sv))
      | _ => λ _, None
      end k
  | _ => None
  end.

Definition gw_answered (now t : Z) : AuthService :=
  mkAuthService (mkCacheSys cache_init ∅ now) (mkJwksSys key_cache_default t [] []) [] [] [] []
    [("token", Ok (Some gw_who), [])].

Lemma take_identity_steps sv sv' m built lent busy wires log now t :
  take_identity sv = Some sv' →
  rtc gw_step (mkGateway (mkSystem sv m built lent) (auth_start now t) busy wires log)
    (mkGateway (mkSystem sv' m built lent) (gw_answered now t) busy wires log).
Proof.
  destruct sv as [sh time ts ended]. unfold take_identity. cbn [threads].
  destruct ts as [|[req [r|X e k] hist] [|]]; try done. destruct e as [| | | | |bearer| | | | | | | | | | | |]; try done.
  destruct (decide (bearer = "token")) as [->|Hne].
  2:{ intros Ht. exfalso. apply Hne. clear -Ht. repeat (case_match; try done). }
  intros [= <-]. cbn [shared instant Service.ended].
  eapply rtc_l.
  { eapply gw_ask with (bearer := "token"); [|apply au_arrive].
    unfold waiting. cbn [sy_service threads]. rewrite waits_cons, decide_True by done. cbn. lia. }
  apply rtc_once. eapply gw_answer with (req := req) (hist := hist) (bearer := "token") (r := Ok (Some gw_who)).
  - apply sys_service; [|done].
    by eapply (sv_call _ _ _ _ demo_cfg _ _ sh sh time _ [] ended req (Eff.Authenticate "token") k hist).
  - apply au_end. reflexivity.
Qed.

(** The operation the only request waits for under its lease, and the service
    once the request is dropped. *)
Definition pending (sv : Service) : option (HttpRequest * ExecutorHandle * Op) :=
  match threads sv with
  | [mkThread req (Vis e _) hist] =>
      '(h, op) ← operation e; if decide (held (issued e ++ hist) = Some h) then Some (req, h, op) else None
  | _ => None
  end.

Definition dropped (sv : Service) : Service :=
  match threads sv with
  | [mkThread req (Vis e k) hist] =>
      mkService (match held (issued e ++ hist) with
                 | Some h => mkShared (limiter (shared sv)) (outstanding (shared sv) ∖ {[ lease h ]})
                 | None => shared sv
                 end) (instant sv) [] ((req, drop_request (issued e ++ hist)) :: ended sv)
  | _ => sv
  end.

Definition gw_waiting : Service :=
  mkService (mkShared limiter_init ∅) 5
    [mkThread gw_request (request_program (λ b, b) (λ _, "1") (λ _, Ok "{}") (λ _, sample_pipeline)
       demo_cfg literal_dispatch gw_request) []] [].
Definition gw_identified : option Service := take_identity gw_waiting.

Definition gw_client : Client := (fresh (∅ : gset nat), 0).

Lemma begin_step sv req h op m built a busy wires log c :
  pending sv = Some (req, h, op) → busy !! c = None →
  gw_step (mkGateway (mkSystem sv m built {[ lease h := c ]}) a busy wires log)
    (mkGateway (mkSystem sv m built {[ lease h := c ]}) a
       (<[c := mkBusy (Some (lease h, req)) op (op_program (λ _, 7%Z) (λ _, "") op) []]> busy) wires log).
Proof.
  unfold pending. destruct (threads sv) as [|t [|]] eqn:Hts; [done| |by destruct t as [? []]].
  destruct t as [req' [r|X e k] hist]; [done|]. destruct (operation e) as [[h' op']|] eqn:Hop; [|done]. cbn.
  case_decide; [|done]. intros [= -> -> ->] Hc.
  eapply (gw_begin _ _ _ _ demo_cfg) with (t := mkThread req (Vis e k) hist); [|done|exact Hop| |done].
  - cbn. rewrite Hts. by left.
  - cbn. by rewrite lookup_singleton_eq.
Qed.

Lemma drop_step sv req h op m built id i p s s' a busy wires log w piece :
  pending sv = Some (req, h, op) → outstanding (shared sv) = {[ lease h ]} →
  heap m !! id = Some (p, s) → pool_move p s s' → handles s = i :: handles s' →
  busy !! (id, i) = Some (mkBusy (Some (lease h, req)) op w piece) →
  gw_step (mkGateway (mkSystem sv m built {[ lease h := (id, i) ]}) a busy wires log)
    (mkGateway (mkSystem (dropped sv) (put_entry m id p s') built (delete (lease h) {[ lease h := (id, i) ]})) a
       (delete (id, i) busy) wires (mkSession (id, i) (Some req) op w piece false :: log)).
Proof.
  destruct sv as [sh now ts log']. unfold pending, dropped. cbn [threads shared instant Service.ended].
  destruct ts as [|t [|]]; [done| |by destruct t as [? []]].
  destruct t as [req' [r|X e k] hist]; [done|]. destruct (operation e) as [[h' op']|] eqn:Hop; [|done]. cbn.
  case_decide as Hheld; [|done]. intros [= -> -> ->] Ho Hl Hs Hh Hb.
  eapply (gw_abandon _ _ _ _ demo_cfg) with (e := e) (hist := hist); [|exact Hop|cbn; by rewrite lookup_singleton_eq|done].
  eapply (sys_give _ _ _ _ demo_cfg) with (i := i) (s := s); [|cbn; rewrite Ho; set_solver| |by rewrite lookup_singleton_eq|
    exact Hl|exact Hs|by rewrite Hh].
  - eapply (sv_drop _ _ _ _ demo_cfg); [reflexivity|by destruct e].
  - cbn. by rewrite Hheld.
Qed.

Lemma complete_step sv req h cmds m built id i p s e' ts' x s' a busy wires log piece r :
  pending sv = Some (req, h, Op.Transaction cmds) →
  heap m !! id = Some (p, s) → tasks s = Stage.Handle x i :: ts' → (generation (breaker (entry s)) < u64_max)%Z →
  operate p (pool_now s) (errors_returned (Answer.Exec r)) (entry s) (Stage.Handle x i) = Some (e', s') →
  busy !! (id, i) = Some (mkBusy (Some (lease h, req)) (Op.Transaction cmds) (Done (Answer.Exec r)) piece) →
  ∃ sv', gw_step (mkGateway (mkSystem sv m built {[ lease h := (id, i) ]}) a busy wires log)
    (mkGateway (mkSystem sv' (put_entry m id p (mkPoolSys e' (s' :: ts') (pool_now s))) built {[ lease h := (id, i) ]}) a
       (delete (id, i) busy) wires
       (mkSession (id, i) (Some req) (Op.Transaction cmds) (Done (Answer.Exec r)) piece true :: log)).
Proof.
  destruct sv as [sh now ts log'], s as [e0 ts0 t0]. unfold pending. cbn [threads tasks entry pool_now].
  destruct ts as [|t [|]]; [done| |by destruct t as [? []]].
  destruct t as [req' [r'|X e k] hist]; [done|]. destruct (operation e) as [[h' op']|] eqn:Hop; [|done]. cbn.
  case_decide; [|done]. intros [= -> -> ->] Hl -> Hg Ho Hb. destruct e; try done. cbn in Hop. injection Hop as -> ->.
  eexists. eapply gw_complete with (e := Eff.Transaction h cmds) (x := r);
    [exact Hb|reflexivity| | |reflexivity|cbn; by rewrite lookup_singleton_eq].
  - eapply (sys_record _ _ _ _ demo_cfg); [exact Hl|done|exact Ho|exact Hg].
  - eapply (sys_service _ _ _ _ demo_cfg);
      [by eapply (sv_call _ _ _ _ demo_cfg _ _ sh sh now _ [] log' req (Eff.Transaction h cmds) k hist r)|done].
Qed.

Definition gw_pool : option (PoolSys * PoolSys * PoolSys) :=
  s1 ← quiet_moves demo_entry_params (replicate 6 (Move.Advance 0)) demo_entered;
  s2 ← do_move demo_entry_params (Move.Advance 0) s1;
  s3 ← do_move demo_entry_params (Move.Abandon 0) s2; Some (s1, s2, s3).

Definition gw_ready : option Service := sv ← gw_identified; passive_calls 7 sv.

Definition gw_op : Op := Op.Transaction [mkRedisCommand "PING" []; mkRedisCommand "PING" []].
Definition gw_multi : Sent := Sent.Command "MULTI" ClusterHash.FirstKey [].

Definition gw_entry : nat := gw_client.1.
Definition gw_lent : gmap Z Client := {[ 1%Z := gw_client ]}.

(** The request is authenticated and has a lease. *)
Lemma gw_leased :
  ∃ sv m s s', gw_reachable (mkGateway (mkSystem sv m {[ gw_entry := "main" ]} gw_lent) (gw_answered 5 7) ∅ ∅ []) ∧
    pending sv = Some (gw_request, mkHandle 1, gw_op) ∧ outstanding (shared sv) = {[ 1%Z ]} ∧
    heap m !! gw_entry = Some (demo_entry_params, s) ∧ manager_pools m !! "main" = Some gw_entry ∧
    tasks s = [Stage.Handle (breaker_executor_new (mkPermit 0 false)) 0] ∧ breaker (entry s) = breaker_new ∧
    pool_move demo_entry_params s s' ∧ handles s' = [].
Proof.
  assert ((λ ss, (handles ss.1.1, tasks ss.1.2, breaker (entry ss.1.2), handles ss.2)) <$> gw_pool =
    Some ([], [Stage.Handle (breaker_executor_new (mkPermit 0 false)) 0], breaker_new, [])) as Hpool
    by (vm_compute; reflexivity).
  assert ((λ sv, (bool_decide (outstanding (shared sv) = ∅),
    (λ nv, (nv.1, pending nv.2, bool_decide (outstanding (shared nv.2) = {[ 1%Z ]}))) <$> take_lease sv)) <$> gw_ready =
    Some (true, Some ("main", Some (gw_request, mkHandle 1, gw_op), true))) as Hask by (vm_compute; reflexivity).
  unfold gw_pool in *. destruct gw_ready as [sv2|] eqn:Hready; [|done].
  destruct (quiet_moves _ _ _) as [s1|] eqn:Hm1; [|done]. cbn [mbind option_bind] in Hpool.
  destruct (do_move _ _ s1) as [s2|] eqn:Hm2; [|done]. cbn [mbind option_bind] in Hpool.
  destruct (do_move _ _ s2) as [s3|] eqn:Hm3; [|done]. cbn in Hpool. injection Hpool as H1 H2 Hb H3.
  cbn [fmap option_fmap option_map] in Hask.
  destruct (take_lease sv2) as [[name sv3]|] eqn:Ht; [|done]. cbn in Hask. injection Hask as Ho2 -> Hpend Ho3.
  apply bool_decide_eq_true in Ho2, Ho3. unfold gw_ready in Hready.
  destruct gw_identified as [sv1|] eqn:Hid; [|done]. cbn [mbind option_bind] in Hready.
  assert (heap demo_manager !! gw_entry = Some (demo_entry_params, demo_entered)) as Hheap by (vm_compute; reflexivity).
  destruct (quiet_moves_steps demo_entry_params _ _ s1 sv2 demo_manager {[ gw_entry := "main" ]} ∅ gw_entry Hheap Hm1)
    as (m & Hmoves & Hl & Hpools).
  destruct (take_lease_step sv2 "main" sv3 m {[ gw_entry := "main" ]} gw_entry demo_entry_params s1 s2 0)
    as (req & hist & Htake); [done|done|done|by rewrite lookup_singleton_eq|by eapply do_move_step|unfold handles at 1; by rewrite H1, H2|].
  exists sv3, (put_entry m gw_entry demo_entry_params s2), s2, s3. split_and!; try done.
  2:{ cbn. by rewrite lookup_insert_eq. }
  2:{ cbn. rewrite Hpools. vm_compute. reflexivity. }
  2:{ by eapply do_move_step. }
  exists 5%Z, 7%Z. eapply rtc_l.
  { eapply gw_system with (l := Label.Internal); [|done]. apply (sys_service _ _ _ _ demo_cfg _ _ _ _ _ gw_waiting); [|done].
    apply (sv_arrive _ _ _ _ demo_cfg). intros _. vm_compute. done. }
  etrans; [eapply take_identity_steps, Hid|]. etrans; [eapply passive_calls_steps, Hready|].
  eapply rtc_l.
  { eapply gw_system with (l := Label.Internal); [|done].
    apply (sys_enter _ _ _ _ demo_cfg _ _ _ sv2 manager_new demo_manager ∅ ∅ 0 0 "main" (Ok gw_entry)); reflexivity. }
  cbn match. etrans; [eapply internal_steps, Hmoves|]. apply rtc_once.
  eapply gw_system with (l := Label.Call req hist (Eff.Acquire "main") (Ok (mkHandle 1))); [|done].
  by eapply system_step_authority.
Qed.
End Server.
Abbreviation gw_step := (step_on gw_server).
Abbreviation gw_reachable := (reachable_on gw_server).

Definition gw_session (w : Wire Answer) : Session := mkSession gw_client (Some gw_request) gw_op w [gw_multi] false.

(** It sends MULTI; then it is dropped, and gives its lease back. *)
Lemma gw_runs :
  ∃ g w g', gw_reachable g ∧ traffic g gw_client = [gw_multi] ∧ gw_step g g' ∧
    threads (sy_service (g_system g')) = [] ∧ sy_lent (g_system g') = ∅ ∧ g_busy g' = ∅ ∧
    manager_pools (sy_manager (g_system g')) !! "main" = Some gw_entry ∧
    traffic g' gw_client = [gw_multi] ∧ g_sessions g' = [gw_session w] ∧ ∀ x, w ≠ Done x.
Proof.
  destruct (gw_leased gw_server) as (sv & m & s & s' & (now & t & Hrun) & Hpend & Ho & Hl & Hm & Htasks & _ & Hs & Hh').
  assert (handles s = [0]) as Hh by (unfold handles; by rewrite Htasks).
  assert (∃ m k, wire_step (gw_server gw_client) (λ _, true) (op_program (λ _, 7%Z) (λ _, "") gw_op) [] =
    Some (Send m k, [gw_multi])) as (msg & k & Hw) by (do 2 eexists; reflexivity).
  set (busy := (<[gw_client := mkBusy (Some (1%Z, gw_request)) gw_op (Send msg k) [gw_multi]]>
    (<[gw_client := mkBusy (Some (1%Z, gw_request)) gw_op (op_program (λ _, 7%Z) (λ _, "") gw_op) []]> ∅)) :
    gmap Client Busy).
  set (wires := (<[gw_client := [gw_multi]]> ∅) : gmap Client (list Sent)).
  exists (mkGateway (mkSystem sv m {[ gw_entry := "main" ]} gw_lent) (gw_answered 5 7) busy wires []), (Send msg k).
  exists (mkGateway (mkSystem (dropped sv) (put_entry m gw_entry demo_entry_params s') {[ gw_entry := "main" ]}
    (delete 1%Z gw_lent)) (gw_answered 5 7) (delete gw_client busy) wires [gw_session (Send msg k)]).
  split_and!; try done.
  - exists now, t. etrans; [exact Hrun|]. eapply rtc_l.
    { exact (begin_step gw_server sv gw_request (mkHandle 1) gw_op m {[ gw_entry := "main" ]} (gw_answered 5 7) ∅ ∅ []
        gw_client Hpend eq_refl). }
    apply rtc_once. eapply gw_send with (w' := Send msg k) (new := [gw_multi]) (piece := []);
      [by rewrite lookup_insert_eq|exact Hw].
  - eapply (drop_step gw_server sv gw_request (mkHandle 1)); [done|done|exact Hl|exact Hs|by rewrite Hh, Hh'|].
    unfold busy. by rewrite lookup_insert_eq.
  - clear -Hpend. unfold dropped, pending in *. cbn. by destruct (threads sv) as [|[? [|]] [|]].
Qed.

(** The finding behind the last clause of [transactions_are_not_interleaved]: a
    request dropped after its MULTI was acknowledged gives its lease back with
    the connection inside the transaction.  No request is in flight, no client
    is locked, the pool goes on handing this client out, and the next caller's
    GET, which a fresh connection answers, is queued into it instead. *)
Lemma dropped_transactions_stay_open :
  ∃ g, gw_reachable g ∧ threads (sy_service (g_system g)) = [] ∧ sy_lent (g_system g) = ∅ ∧ g_busy g = ∅ ∧
    manager_pools (sy_manager (g_system g)) !! "main" = Some gw_entry ∧
    in_transaction (gw_server gw_client) (traffic g gw_client) = true ∧
    let get past := (fred_execute (gw_server gw_client) (λ _, true) (mkRedisCommand "GET" ["other"])
                       (from_pooled_client past)).1 in
    get [] = Ok (RespValue.Bulk "value") ∧ get (traffic g gw_client) = Ok (RespValue.Simple "QUEUED").
Proof.
  destruct gw_runs as (g & w & g' & (now & t & Hrun) & _ & Hs & ? & ? & ? & ? & Ht & _ & _).
  exists g'. rewrite Ht. split_and!; try done. exists now, t. eapply rtc_r; done.
Qed.

(** A Redis that refuses everything: the transaction fails, and its breaker,
    with a threshold of one, opens. *)
Definition gw_down (_ : Client) (_ : list Sent) (_ : Sent) : result Resp3Frame FredError :=
  Err (mkFredError "" false "connection refused").

Lemma gw_fails :
  ∃ g p ps, reachable_on gw_down g ∧ sy_built (g_system g) !! gw_entry = Some "main" ∧
    heap (sy_manager (g_system g)) !! gw_entry = Some (p, ps) ∧
    (breaker_admit (breaker_params p) (pool_now ps) (breaker (entry ps))).1 = Err 1%Z.
Proof.
  destruct (gw_leased gw_down) as (sv & m & s & s' & (now & t & Hrun) & Hpend & Ho & Hl & Hm & Htasks & Hbr & _ & _).
  assert (∃ r, wire_step (gw_down gw_client) (λ _, true) (op_program (λ _, 7%Z) (λ _, "") gw_op) [] =
    Some (Done (Answer.Exec r), [gw_multi]) ∧ errors_returned (Answer.Exec r) = [ExecError.Transport "connection refused"])
    as (r & Hw & Hr) by (eexists; split; reflexivity).
  destruct (operate demo_entry_params (pool_now s) (errors_returned (Answer.Exec r)) (entry s)
    (Stage.Handle (breaker_executor_new (mkPermit 0 false)) 0)) as [[e' s2]|] eqn:Hop; [|done].
  set (busy := (<[gw_client := mkBusy (Some (1%Z, gw_request)) gw_op (Done (Answer.Exec r)) [gw_multi]]>
    (<[gw_client := mkBusy (Some (1%Z, gw_request)) gw_op (op_program (λ _, 7%Z) (λ _, "") gw_op) []]> ∅)) :
    gmap Client Busy).
  set (wires := (<[gw_client := [gw_multi]]> ∅) : gmap Client (list Sent)).
  destruct (complete_step gw_down sv gw_request (mkHandle 1) _ m {[ gw_entry := "main" ]} gw_entry 0 demo_entry_params s
    e' [] _ s2 (gw_answered 5 7) busy wires [] [gw_multi] r Hpend Hl Htasks) as [sv' Hdone];
    [by rewrite Hbr|exact Hop|by apply lookup_insert_eq|].
  eexists _, demo_entry_params, (mkPoolSys e' [s2] (pool_now s)). split_and!.
  - exists now, t. etrans; [exact Hrun|]. eapply rtc_l.
    { exact (begin_step gw_down sv gw_request (mkHandle 1) gw_op m {[ gw_entry := "main" ]} (gw_answered 5 7) ∅ ∅ []
        gw_client Hpend eq_refl). }
    eapply rtc_l; [|apply rtc_once, Hdone].
    eapply gw_send with (w' := Done (Answer.Exec r)) (new := [gw_multi]) (piece := []);
      [by rewrite lookup_insert_eq|exact Hw].
  - reflexivity.
  - cbn. by rewrite lookup_insert_eq.
  - assert (breaker e' = mkInner BreakerState.Open 1 (Some (pool_now s)) 1) as Hopen.
    { rewrite Hr in Hop. injection Hop as <- _. cbn [breaker with_breaker]. rewrite Hbr. reflexivity. }
    cbn [entry pool_now]. rewrite Hopen. unfold breaker_admit. cbn [state opened_at].
    replace (duration_since (pool_now s) (pool_now s)) with 0%Z by (unfold duration_since; lia). reflexivity.
Qed.

(** ** Witnesses *)

Lemma redis_traffic_is_vouched_for_witness :
  ∃ g, gw_reachable g ∧ traffic g gw_client = [gw_multi] ∧
    ∃ bearer who tr, (bearer, Ok (Some who), tr) ∈ a_ended (g_auth g) ∧ is_Some (pools demo_cfg !! pool who).
Proof.
  destruct gw_runs as (g & w & g' & Hg & Ht & _). exists g. split; [done|]. split; [done|].
  destruct (redis_traffic_is_vouched_for (λ b, b) (λ _, "1") (λ _, Ok "{}") (λ _, sample_pipeline) demo_cfg
    literal_dispatch (λ _, Ok tt) demo_header Some demo_decode Some (λ _, None) None (cache_new 30) "https://issuer"
    (from_secs 600) gw_server (λ _ _, true) (λ _, 7%Z) (λ _, "") ltac:(split; vm_compute; discriminate)
    ltac:(split; vm_compute; discriminate) demo_waiters g Hg) as [Hall _].
  destruct (Hall gw_client "MULTI" ClusterHash.FirstKey []) as [[Hn _]|(_ & who & _ & bearer & tr & p & _ & _ & Hin & _ & _ & Hp & _)].
  - rewrite Ht. left.
  - discriminate Hn.
  - exists bearer, who, tr. split; [done|]. rewrite Hp. by eexists.
Defined.

Lemma transactions_are_not_interleaved_witness :
  ∃ g, in_transaction (gw_server gw_client) (session_traffic (g_sessions g) gw_client) = true ∧
    ∃ s cmds, g_sessions g = [s] ∧ se_op s = Op.Transaction cmds ∧ ∀ x, se_left s ≠ Done x.
Proof.
  destruct gw_runs as (g & w & g' & (now & t & Hrun) & _ & Hs & _ & _ & _ & _ & _ & Hlog & _). exists g'.
  assert (gw_reachable g') as Hg' by (exists now, t; eapply rtc_r; [exact Hrun|exact Hs]).
  destruct (transactions_are_not_interleaved (λ b, b) (λ _, "1") (λ _, Ok "{}") (λ _, sample_pipeline) demo_cfg
    literal_dispatch (λ _, Ok tt) demo_header Some demo_decode Some (λ _, None) None (cache_new 30) "https://issuer"
    (from_secs 600) gw_server (λ _ _, true) (λ _, 7%Z) (λ _, "") ltac:(split; vm_compute; discriminate)
    ltac:(split; vm_compute; discriminate) demo_waiters g' gw_client Hg') as (_ & _ & Hopen).
  rewrite Hlog in Hopen |- *. split; [reflexivity|].
  destruct (Hopen eq_refl) as (s & cmds & Hs' & _ & Hop & Hleft). apply list_elem_of_singleton in Hs' as ->.
  exists (gw_session w), cmds. by split_and!.
Defined.

Lemma breakers_open_on_failures_of_their_pool_witness :
  ∃ g, reachable_on gw_down g ∧
    ∃ s, s ∈ g_sessions g ∧ failed s = true ∧ (∃ req, se_caller s = Some req) ∧ (1 ≤ failures_on (g_sessions g) gw_entry).
Proof.
  destruct gw_fails as (g & p & ps & Hg & Hname & Hheap & Hopen). exists g. split; [done|].
  destruct (breakers_open_on_failures_of_their_pool (λ b, b) (λ _, "1") (λ _, Ok "{}") (λ _, sample_pipeline) demo_cfg
    literal_dispatch (λ _, Ok tt) demo_header Some demo_decode Some (λ _, None) None (cache_new 30) "https://issuer"
    (from_secs 600) gw_down (λ _ _, true) (λ _, 7%Z) (λ _, "") ltac:(split; vm_compute; discriminate)
    ltac:(split; vm_compute; discriminate) demo_waiters g Hg gw_entry "main" Hname)
    as (p' & ps' & Hp & Hheap' & _ & Hrefused & Hfailed).
  rewrite Hheap in Hheap'. injection Hheap' as -> <-.
  destruct (breaker_admit _ _ _) as [r i] eqn:Ha. cbn in Hopen. subst r. apply Hrefused in Ha.
  assert (pools demo_cfg !! "main" = Some sample_pool_config) as Hmain by (vm_compute; reflexivity).
  rewrite Hmain in Hp. injection Hp as <-.
  change (1 ≤ Z.of_nat (failures_on (g_sessions g) gw_entry))%Z in Ha.
  assert (1 ≤ failures_on (g_sessions g) gw_entry) as Hone by lia.
  destruct (filter (λ s, (se_client s).1 = gw_entry ∧ failed s = true) (g_sessions g)) as [|s l] eqn:Hf.
  { unfold failures_on in Hone. rewrite Hf in Hone. cbn in Hone. lia. }
  assert (s ∈ filter (λ s, (se_client s).1 = gw_entry ∧ failed s = true) (g_sessions g)) as [[Hid Hs] Hin]%list_elem_of_filter
    by (rewrite Hf; left).
  exists s. split_and!; [done|done| |done]. apply list_elem_of_split in Hin as (newer & older & Hlog).
  destruct (Hfailed newer s older Hlog Hid Hs) as (req & _ & _ & _ & _ & _ & _ & Hreq & _). by exists req.
Defined.
