(* ===== verification/Main.v ===== *)
(** * Start-up, maintenance and shutdown: [src/src/main.rs]

    What [main] builds from a configuration and the order in which it can
    fail, the maintenance task that sweeps the pools, the limiter and the
    introspection cache, and the shutdown of the pools; with the clock of
    [src/src/adapters/system_clock.rs].  Sockets, signals, hyper and the log
    subscriber are the runtime's: whether a listener or a client could be made is
    a parameter, and so is whether the SIGTERM handler could be installed.  The
    accept loop is in [Accept.v], the router it serves in
    [Server.v]. *)
From stdpp Require Import pretty.
From S2P Require Import Prelude Domain Convert Config Deserialize Breaker RateLimit Ports Auth Pool Jwks Observability.

(** ** The system clock *)

(** [SystemClock::unix_secs] for a system time in nanoseconds since the
    epoch: a time before the epoch counts as the epoch. *)
Definition system_unix_secs (system_time : Z) : Z :=
  as_secs (if decide (0 ≤ system_time)%Z then system_time else 0).

(** [SystemClock::instant]. *)
Definition system_instant (monotonic : Z) : Z := monotonic.

(** ** The address to listen on *)

Definition contains_char (c : ascii) (s : string) : bool :=
  existsb (Ascii.eqb c) (String.list_ascii_of_string s).

Definition bind_address (bind : string) (port : Z) : string :=
  if contains_char ":" bind && negb (String.prefix "[" bind)
  then "[" +:+ bind +:+ "]:" +:+ pretty port
  else bind +:+ ":" +:+ pretty port.

(** [warn_for_insecure_public_bind]: whether it warns; [parse_ip] tells whether
    an address that parses is a loopback address. *)
Definition warn_for_insecure_public_bind (parse_ip : string → option bool) (bind : string) : bool :=
  let loopback := match parse_ip bind with Some is_loopback => is_loopback | None => false end in
  negb loopback.

(** ** Start-up *)

(** The mutable state behind [AppState] and the maintenance task; the cache is
    the one of the JWT authenticator. *)
Record Process : Type := mkProcess {
  p_limiter : LimiterState;
  p_cache : CacheSys;
  p_manager : PoolManager;
}.

(** What [main] builds. *)
Record Started : Type := mkStarted {
  started_jwt : option (JwtAuth * CacheParams);
  started_jwks : option (string * Z * KeyCache);
  started_introspector : option HttpIntrospector;
  started_limiter : RateLimiter;
  started_process : Process;
  started_metrics : list Emission;
  started_warned : bool;
}.

Section Main.
Context (parse_socket_addr : string → result unit string).
Context (parse_ip : string → option bool).
Context (install_metrics : string → result unit string).
Context (parse_scheme : string → result string string) (base64_encode : bytes → string).
Context (build_jwks_client build_introspection_client : result unit string).
Context (bind_listener : string → result unit string).
(** [signal(SignalKind::terminate())] on Unix. *)
Context (install_sigterm : result unit string).

(** The authenticators: the JWT part only when it is configured. *)
Definition start_jwt (config : Config) :
    result (option (JwtAuth * CacheParams) * option (string * Z * KeyCache) * option HttpIntrospector) string :=
  match jwt (auth config) with
  | None => Ok (None, None, None)
  | Some jwt_config =>
      let? jwks := map_err (λ _, "failed to initialize JWKS client")
        (http_jwks_new build_jwks_client (jwt_issuer jwt_config) (jwks_refresh_secs jwt_config)) in
      let intro := introspection jwt_config in
      let? introspector :=
        if introspection_enabled intro then
          map_err (λ _, "failed to initialize introspection client")
            (result_map Some (introspector_new parse_scheme base64_encode build_introspection_client
              (Config.introspection_url intro) (introspection_client_id intro) (introspection_client_secret intro)))
        else Ok None in
      Ok (Some (jwt_auth_new jwt_config (pools config) (bool_decide (is_Some introspector))),
          Some jwks, introspector)
  end.

(** [main] up to the accept loop, at the given time. *)
Definition start (now : Z) (config : Config) : result Started string :=
  if decide (is_Some (tls (server config))) then
    Err "server.tls is configured, but direct TLS serving is not implemented yet"
  else
    let warned := warn_for_insecure_public_bind parse_ip (bind (server config)) in
    let? _ := map_err (λ _, "validated metrics_bind stopped parsing")
                (parse_socket_addr (metrics_bind (server config))) in
    let? _ := map_err (λ _, "failed to start Prometheus metrics listener")
                (install_metrics (metrics_bind (server config))) in
    let registered := register_metrics (map_to_list (pools config)).*1 in
    let? parts := start_jwt config in
    let '(jwt_auth, jwks, introspector) := parts in
    let rl := limiter_new (per_token_commands_per_sec (rate_limit (server config))) in
    let address := bind_address (bind (server config)) (port (server config)) in
    let? _ := map_err (λ _, "failed to bind " +:+ address) (bind_listener address) in
    let? _ := map_err (λ _, "failed to install SIGTERM handler") install_sigterm in
    Ok (mkStarted jwt_auth jwks introspector rl
          (mkProcess limiter_init (mkCacheSys cache_init ∅ now) manager_new) registered warned).
End Main.

(** ** Maintenance and shutdown *)

(** Where the maintenance task is: in the [select!], in [evict_idle] with the
    time it read, in the sweep of the limiter or of the introspection cache, or
    it has ended. *)
Module Upkeep.
Inductive Upkeep : Type :=
| Selecting
| Evicting (unix_secs : Z) (r : Removal)
| SweepingLimiter
| SweepingCache
| Ended.
End Upkeep.
Abbreviation Upkeep := Upkeep.Upkeep.

(** What takes it on: a tick, at which [evict_idle] reads the clock and the
    names; the next turn of [evict_idle]; the sweeps, with the clock and the
    iteration orders of the maps; the stop channel changing to a value or
    closing. *)
Module Chore.
Inductive Chore : Type :=
| Ticked (unix_secs : Z) (names : list string)
| Evicts
| SweptLimiter (now : Z) (ks : list string)
| SweptCache (ds : list bytes)
| Changed (stop : option bool).
End Chore.
Abbreviation Chore := Chore.Chore.

Definition with_manager (m : PoolManager) (p : Process) : Process := mkProcess (p_limiter p) (p_cache p) m.

(** The two sweeps. *)
Definition sweep_limiter (rl : RateLimiter) (now : Z) (ks : list string) (p : Process) : Process :=
  mkProcess (sweep_idle rl now ks (p_limiter p)).2 (p_cache p) (p_manager p).
Definition sweep_introspection (ds : list bytes) (p : Process) : Process :=
  mkProcess (p_limiter p)
    (mkCacheSys (cache_sweep (cache_now (p_cache p)) ds (cache_state (p_cache p))).2
       (inserted (p_cache p)) (cache_now (p_cache p)))
    (p_manager p).

(** [run_pool_maintenance] from one suspension to the next. *)
Definition maintenance_turn (rl : RateLimiter) (has_jwt : bool) (what : Chore) (u : Upkeep) (p : Process) :
    option (Upkeep * Process) :=
  match u, what with
  | Upkeep.Selecting, Chore.Ticked unix_secs names => Some (Upkeep.Evicting unix_secs (Removal.Next names), p)
  | Upkeep.Selecting, Chore.Changed stop =>
      match stop with
      | None | Some true => Some (Upkeep.Ended, p)
      | Some false => Some (Upkeep.Selecting, p)
      end
  | Upkeep.Evicting unix_secs r, Chore.Evicts =>
      match evict_turn unix_secs r (p_manager p) with
      | Some (r', m') => Some (Upkeep.Evicting unix_secs r', with_manager m' p)
      | None => Some (Upkeep.SweepingLimiter, p)
      end
  | Upkeep.SweepingLimiter, Chore.SweptLimiter now ks =>
      Some (if has_jwt then Upkeep.SweepingCache else Upkeep.Selecting, sweep_limiter rl now ks p)
  | Upkeep.SweepingCache, Chore.SweptCache ds => Some (Upkeep.Selecting, sweep_introspection ds p)
  | _, _ => None
  end.

(** One tick of [run_pool_maintenance] that nothing interleaves with: the pools, the limiter and, when JWTs
    are configured, the introspection cache; [names], [ks] and [ds] are the
    iteration orders of the maps. *)
Definition maintenance_tick (rl : RateLimiter) (has_jwt : bool) (unix_secs now : Z)
    (names ks : list string) (ds : list bytes) (p : Process) : Process :=
  let p := with_manager (evict_idle unix_secs names (p_manager p)).2 p in
  let p := sweep_limiter rl now ks p in
  if has_jwt then sweep_introspection ds p else p.

(** The events the task waits for: a tick, or the stop channel changing to a
    value or closing. *)
Module Wake.
Inductive Wake : Type :=
| Tick (unix_secs now : Z) (names ks : list string) (ds : list bytes)
| Changed (stop : option bool).
End Wake.
Abbreviation Wake := Wake.Wake.

(** [run_pool_maintenance] over its wake-ups when nothing interleaves: the
    state, and whether the task has ended. *)
Fixpoint run_pool_maintenance (rl : RateLimiter) (has_jwt : bool) (wakes : list Wake) (p : Process) :
    Process * bool :=
  match wakes with
  | [] => (p, false)
  | Wake.Tick unix_secs now names ks ds :: wakes =>
      run_pool_maintenance rl has_jwt wakes (maintenance_tick rl has_jwt unix_secs now names ks ds p)
  | Wake.Changed stop :: wakes =>
      match stop with
      | None | Some true => (p, true)
      | Some false => run_pool_maintenance rl has_jwt wakes p
      end
  end.

(** The end of [main] when nothing interleaves with it: the pools that were
    built, one after the other.  The awaits of [PoolManager::shutdown] and what
    the requests still in flight do meanwhile are in [closing_down] below. *)
Definition shutdown_pools (p : Process) : Process :=
  with_manager (manager_shutdown (map_to_list (manager_pools (p_manager p))).*1 (p_manager p)) p.

(** ** Shutdown *)

(** Shutdown removes every pool that was built. *)
Lemma manager_shutdown_names names m :
  dom (manager_pools (manager_shutdown names m)) = dom (manager_pools m) ∖ list_to_set names.
Proof.
  revert m. induction names as [|name names IH]; intros m; [cbn; set_solver|].
  change (manager_shutdown (name :: names) m) with (manager_shutdown names (manager_shutdown [name] m)).
  rewrite IH. cbn [foldl manager_shutdown].
  destruct (manager_pools m !! name) as [id|] eqn:Hn; cbn.
  - rewrite dom_delete_L. set_solver.
  - apply not_elem_of_dom in Hn. set_solver.
Qed.

Lemma shutdown_leaves_none p : manager_pools (p_manager (shutdown_pools p)) = ∅.
Proof.
  apply dom_empty_inv_L. cbn. rewrite manager_shutdown_names. apply leibniz_equiv, set_equiv. intros name.
  rewrite elem_of_difference, elem_of_list_to_set, list_elem_of_fmap. split; [|set_solver].
  intros [[id Hid]%elem_of_dom Hn]. exfalso. apply Hn. exists (name, id). by rewrite elem_of_map_to_list.
Qed.
(** ** The process and its invariant *)

Section Process.
Context (fred_pool : PoolConfig → result unit string) (config : Config).
Context (rl : RateLimiter) (has_jwt : bool) (c : CacheParams).

(** What happens to the shared state: an operation of a component, on behalf of
    a request, of the maintenance task or of the shutdown. *)
Inductive process_step : Process → Process → Prop :=
| ps_limiter p l' :
    limiter_step rl (p_limiter p) l' → process_step p (mkProcess l' (p_cache p) (p_manager p))
| ps_cache p c' :
    cache_step c (p_cache p) c' → process_step p (mkProcess (p_limiter p) c' (p_manager p))
| ps_manager p m' :
    manager_step fred_pool config (p_manager p) m' → process_step p (mkProcess (p_limiter p) (p_cache p) m').

(** The shutdown of the pools, with what else happens meanwhile. *)
Inductive closing_down : Removal * Process → Removal * Process → Prop :=
| cd_turn r r' p m' :
    shutdown_turn r (p_manager p) = Some (r', m') → closing_down (r, p) (r', with_manager m' p)
| cd_meanwhile r p p' : process_step p p' → closing_down (r, p) (r, p').

Record process_ok (p : Process) : Prop := {
  ok_limiter : limiter_wf rl (p_limiter p);
  ok_cache : cache_inv c (p_cache p);
  ok_manager : manager_inv config (p_manager p);
}.

(** The pools a step leaves: those there were, and new ones. *)
Lemma process_step_registered p p' :
  process_step p p' →
  dom (heap (p_manager p)) ⊆ dom (heap (p_manager p')) ∧
  ∀ name id, manager_pools (p_manager p') !! name = Some id →
    manager_pools (p_manager p) !! name = Some id ∨ id ∉ dom (heap (p_manager p)).
Proof.
  intros [p0 l' Hs|p0 c' Hs|p0 m' Hs]; [split; [done|by left]..|]. exact (manager_step_registered _ _ _ _ Hs).
Qed.

(** The turns of the maintenance task are steps of the components. *)
Lemma with_manager_steps p m' :
  rtc (manager_step fred_pool config) (p_manager p) m' → rtc process_step p (with_manager m' p).
Proof.
  destruct p as [l ca m]. cbn. induction 1 as [m0|m0 m1 m2 Hs _ IH]; [apply rtc_refl|].
  eapply rtc_l; [apply ps_manager, Hs|exact IH].
Qed.

Lemma sweep_limiter_step now ks p :
  ks ≡ₚ (map_to_list (entries (buckets (p_limiter p)))).*1 → process_step p (sweep_limiter rl now ks p).
Proof. intros Hks. apply ps_limiter. eapply ls_sweep; [exact Hks|]. apply surjective_pairing. Qed.

Lemma sweep_introspection_step ds p : process_step p (sweep_introspection ds p).
Proof. destruct p as [l [st log t] m]. apply ps_cache. by eapply cache_step_sweep. Qed.

Definition chore_ok (what : Chore) (p : Process) : Prop :=
  match what with
  | Chore.SweptLimiter _ ks => ks ≡ₚ (map_to_list (entries (buckets (p_limiter p)))).*1
  | _ => True
  end.

Lemma maintenance_turn_steps what u p u' p' :
  chore_ok what p → maintenance_turn rl has_jwt what u p = Some (u', p') → rtc process_step p p'.
Proof.
  intros Hok. destruct u as [|unix_secs r| | |], what as [u1 names| |now ks|ds|stop]; cbn in *; try discriminate.
  - by intros [= _ <-].
  - destruct stop as [[]|]; by intros [= _ <-].
  - destruct (evict_turn unix_secs r (p_manager p)) as [[r' m']|] eqn:He; intros [= _ <-]; [|done].
    by eapply with_manager_steps, evict_turn_step.
  - intros [= _ <-]. by apply rtc_once, sweep_limiter_step.
  - intros [= _ <-]. apply rtc_once, sweep_introspection_step.
Qed.

(** A tick, and a shutdown, that nothing interleaves with. *)
Lemma tick_steps unix_secs now names ks ds p :
  ks ≡ₚ (map_to_list (entries (buckets (p_limiter p)))).*1 →
  rtc process_step p (maintenance_tick rl has_jwt unix_secs now names ks ds p).
Proof.
  intros Hks. unfold maintenance_tick.
  assert (∀ x y, turns (evict_turn unix_secs) x y → rtc (manager_step fred_pool config) x.2 y.2) as Hev.
  { induction 1 as [|x [r1 m1] z Hs _ IH]; [done|]. etrans; [by eapply evict_turn_step|exact IH]. }
  etrans; [apply with_manager_steps, (Hev _ _ (evict_idle_turns unix_secs names (p_manager p)))|].
  eapply rtc_l; [by apply sweep_limiter_step|]. destruct has_jwt; [|done]. apply rtc_once, sweep_introspection_step.
Qed.

Lemma tick_alone unix_secs now names ks ds p :
  rtc (λ x y, ∃ what, maintenance_turn rl has_jwt what x.1 x.2 = Some y)
    (Upkeep.Selecting, p) (Upkeep.Selecting, maintenance_tick rl has_jwt unix_secs now names ks ds p).
Proof.
  assert (∀ x y, turns (evict_turn unix_secs) x y →
    rtc (λ x y, ∃ what, maintenance_turn rl has_jwt what x.1 x.2 = Some y)
      (Upkeep.Evicting unix_secs x.1, with_manager x.2 p) (Upkeep.Evicting unix_secs y.1, with_manager y.2 p)) as Hev.
  { induction 1 as [x|x [r1 m1] z Hs _ IH]; [done|]. eapply rtc_l; [|exact IH]. exists Chore.Evicts. cbn. by rewrite Hs. }
  eapply rtc_l; [by exists (Chore.Ticked unix_secs names)|].
  assert (with_manager (p_manager p) p = p) as Hp by by destruct p.
  etrans; [rewrite <- Hp at 1; apply (Hev _ _ (evict_idle_turns unix_secs names (p_manager p)))|].
  eapply rtc_l; [by exists Chore.Evicts|]. eapply rtc_l; [by exists (Chore.SweptLimiter now ks)|].
  unfold maintenance_tick. destruct has_jwt; [|done]. apply rtc_once. by exists (Chore.SweptCache ds).
Qed.

Lemma shutdown_alone r r' m m' p :
  turns shutdown_turn (r, m) (r', m') → rtc closing_down (r, with_manager m p) (r', with_manager m' p).
Proof.
  intros Ht. remember (r, m) as x eqn:Hx. remember (r', m') as y eqn:Hy. revert r m Hx.
  induction Ht as [x|x [r1 m1] z Hs _ IH]; intros r m ->; [by simplify_eq|].
  eapply rtc_l; [by apply cd_turn with (p := with_manager m p)|]. by apply IH.
Qed.

(** While the pools are shut down, an entry in the map is under a name that is
    still to come: every entry with the property [K]. *)
Definition names_left (r : Removal) : list string :=
  match r with Removal.Next names | Removal.Quitting names _ | Removal.Closing names _ => names end.

Definition still_named (K : nat → Prop) (names : list string) (p : Process) : Prop :=
  ∀ name id, manager_pools (p_manager p) !! name = Some id → K id → name ∈ names.

Lemma still_named_turn K r p r' m' :
  shutdown_turn r (p_manager p) = Some (r', m') →
  still_named K (names_left r) p → still_named K (names_left r') (with_manager m' p).
Proof.
  unfold still_named. destruct r as [[|name names]|names id|names id]; cbn; [done|..]; [|by intros [= <- <-]..].
  destruct (manager_pools (p_manager p) !! name) as [id|] eqn:Hid; intros [= <- <-] Hn n i; cbn.
  - intros [Hne Hi]%lookup_delete_Some HK. by specialize (Hn n i Hi HK) as [->|]%elem_of_cons.
  - intros Hi HK. specialize (Hn n i Hi HK) as [->|]%elem_of_cons; [congruence|done].
Qed.

Lemma still_named_meanwhile K names p p' :
  (∀ id, K id → id ∈ dom (heap (p_manager p))) → process_step p p' →
  still_named K names p → still_named K names p'.
Proof.
  intros HK [Hd Hk]%process_step_registered Hn name id [Hid|Hid]%Hk Hin; [by eapply Hn|by destruct Hid; apply HK].
Qed.

Lemma shutdown_turn_heap r m r' m' : shutdown_turn r m = Some (r', m') → dom (heap m') = dom (heap m).
Proof.
  destruct r as [[|name names]|names id|names id]; cbn; intros H; repeat case_match; simplify_eq; try done.
  apply dom_alter_L.
Qed.

Lemma still_named_run (old : gset nat) x y :
  rtc closing_down x y → old ⊆ dom (heap (p_manager x.2)) →
  still_named (.∈ old) (names_left x.1) x.2 → still_named (.∈ old) (names_left y.1) y.2.
Proof.
  induction 1 as [x|x y z Hs _ IH]; intros Ho Hn; [done|].
  destruct Hs as [r r' p m' Ht|r p p' Hs]; cbn in *; apply IH.
  - by rewrite (shutdown_turn_heap _ _ _ _ Ht).
  - by eapply still_named_turn.
  - etrans; [exact Ho|]. apply (process_step_registered _ _ Hs).
  - by eapply still_named_meanwhile.
Qed.

Hypothesis rl_ok : RateLimit.params_ok rl.
Hypothesis config_ok : ∀ name p, pools config !! name = Some p → in_u64 (max_waiters p).

Lemma process_step_ok p p' : process_ok p → process_step p p' → process_ok p'.
Proof.
  intros [Hl Hc Hm] Hstep. destruct Hstep as [p l' Hs|p c' Hs|p m' Hs].
  - split; cbn; [by eapply limiter_step_wf|done|done].
  - split; cbn; [done|by eapply cache_step_inv|done].
  - split; cbn; [done|done|by eapply manager_step_inv].
Qed.

Lemma process_steps_ok p p' : process_ok p → rtc process_step p p' → process_ok p'.
Proof. induction 2 as [|p1 p2 p3 Hs _ IH]; [done|]. by eapply IH, process_step_ok. Qed.

Lemma closing_down_ok x y : rtc closing_down x y → process_ok x.2 → process_ok y.2.
Proof.
  induction 1 as [x|x y z Hs _ IH]; intros Hx; [done|]. apply IH. destruct Hs as [r r' p m' Ht|r p p' Hs]; cbn in *.
  - eapply process_steps_ok; [exact Hx|]. by eapply with_manager_steps, shutdown_turn_step.
  - by eapply process_step_ok.
Qed.
End Process.

(** ** Properties *)

Section Properties.
Context (parse_socket_addr : string → result unit string) (parse_url : string → result string string).
Context (parse_ip : string → option bool) (install_metrics : string → result unit string).
Context (base64_encode : bytes → string).
Context (build_jwks_client build_introspection_client : result unit string).
Context (bind_listener : string → result unit string) (install_sigterm : result unit string).
Abbreviation start := (start parse_socket_addr parse_ip install_metrics parse_url base64_encode
  build_jwks_client build_introspection_client bind_listener install_sigterm).

(** What the environment must provide for this configuration. *)
Definition services_available (config : Config) : Prop :=
  tls (server config) = None ∧ install_metrics (metrics_bind (server config)) = Ok tt ∧
  (∀ j, jwt (auth config) = Some j → build_jwks_client = Ok tt ∧
     (introspection_enabled (introspection j) = true → build_introspection_client = Ok tt)) ∧
  bind_listener (bind_address (bind (server config)) (port (server config))) = Ok tt ∧
  install_sigterm = Ok tt.

Definition startup_errors (config : Config) : list string :=
  [ "server.tls is configured, but direct TLS serving is not implemented yet";
    "failed to start Prometheus metrics listener"; "failed to initialize JWKS client";
    "failed to initialize introspection client";
    "failed to bind " +:+ bind_address (bind (server config)) (port (server config));
    "failed to install SIGTERM handler" ].

(** The parts built for JWTs. *)
Definition jwt_parts_ok (config : Config) (j : option (JwtAuth * CacheParams))
    (k : option (string * Z * KeyCache)) (i : option HttpIntrospector) : Prop :=
  match jwt (auth config), j, k with
  | None, None, None => i = None
  | Some jc, Some (a, cp), Some (issuer, refresh, cache) =>
      jwt_config a = jc ∧ jwt_pools a = (pool_allowed_script_sha256 <$> pools config) ∧
      introspects a = introspection_enabled (introspection jc) ∧
      bool_decide (is_Some i) = introspection_enabled (introspection jc) ∧
      ttl_secs cp = introspection_cache_secs (introspection jc) ∧
      issuer = jwt_issuer jc ∧ refresh = from_secs (jwks_refresh_secs jc) ∧ cache = key_cache_default
  | _, _, _ => False
  end.

Lemma start_jwt_outcome config :
  valid_config parse_socket_addr parse_url config →
  match start_jwt parse_url base64_encode build_jwks_client build_introspection_client config with
  | Ok (j, k, i) => jwt_parts_ok config j k i ∧
      (∀ j, jwt (auth config) = Some j → build_jwks_client = Ok tt ∧
         (introspection_enabled (introspection j) = true → build_introspection_client = Ok tt))
  | Err e => e ∈ startup_errors config ∧
      ∃ j, jwt (auth config) = Some j ∧ (build_jwks_client ≠ Ok tt ∨
        (introspection_enabled (introspection j) = true ∧ build_introspection_client ≠ Ok tt))
  end.
Proof.
  intros Hv. unfold start_jwt, jwt_parts_ok. destruct (jwt (auth config)) as [j|] eqn:Hj; [|done].
  destruct (valid_jwt_section _ _ _ Hv j Hj) as [_ _ _ _ Hi]. unfold http_jwks_new, introspector_new.
  destruct build_jwks_client as [[]|e]; cbn; [|split; [set_solver|eauto]].
  destruct (introspection_enabled (introspection j)) eqn:Hen; cbn.
  - destruct (Hi eq_refl) as [(scheme & -> & Hs) _]. cbn.
    assert (String.eqb scheme "http" || String.eqb scheme "https" = true) as ->.
    { apply contains_true in Hs. by repeat (apply elem_of_cons in Hs as [->|Hs]); [..|apply elem_of_nil in Hs]. }
    destruct build_introspection_client as [[]|e]; cbn; [|split; [set_solver|eauto 8]].
    split; [done|]. by intros j' [= <-].
  - split; [done|]. intros j' [= <-]. by rewrite Hen.
Qed.

(** C28. Starting with a validated configuration: the server starts exactly
    when the environment provides what the configuration asks for and no TLS
    is configured, and otherwise reports one of six causes; the metrics
    address and the introspection URL, which validation accepted, are never
    the cause.  A server that starts has a JWT authenticator, a key source and an
    introspector exactly as configured, an empty limiter with the configured
    rate, and every pool's metrics registered at zero. *)
Theorem startup_of_valid_config (config : Config) (now : Z)
    (Hv : valid_config parse_socket_addr parse_url config) :
  match start now config with
  | Ok st =>
      services_available config ∧
      jwt_parts_ok config (started_jwt st) (started_jwks st) (started_introspector st) ∧
      started_limiter st = limiter_new (per_token_commands_per_sec (rate_limit (server config))) ∧
      started_process st = mkProcess limiter_init (mkCacheSys cache_init ∅ now) manager_new ∧
      (∀ k, counter_value k (started_metrics st) = 0%Z ∧ gauge_value k 0 (started_metrics st) = 0%Z) ∧
      (∀ name, is_Some (pools config !! name) →
         Emission.Register (mkKey "srh_pool_builds_total" [("pool", name)]) ∈ started_metrics st)
  | Err e => ¬ services_available config ∧ e ∈ startup_errors config
  end.
Proof.
  unfold start, services_available. case_decide as Ht.
  { split; [|set_solver]. intros [Htls _]. rewrite Htls in Ht. by destruct Ht. }
  apply eq_None_not_Some in Ht. rewrite (valid_metrics _ _ _ Hv). cbn [map_err].
  destruct (install_metrics _) as [[]|e] eqn:Hm; cbn [map_err]; [|split; [naive_solver|set_solver]].
  pose proof (start_jwt_outcome config Hv) as Hj. destruct (start_jwt _ _ _ _ config) as [[[j k] i]|e].
  2:{ destruct Hj as (? & jc & Hjc & Hno). split; [|done]. intros (_ & _ & Hall & _ & _).
      destruct (Hall jc Hjc). naive_solver. }
  destruct Hj as [Hp Hb].
  destruct (bind_listener _) as [[]|e] eqn:Hl; cbn [map_err]; [|split; [naive_solver|set_solver]].
  destruct install_sigterm as [[]|e] eqn:Hsig; cbn [map_err]; [|split; [naive_solver|set_solver]].
  cbn [started_jwt started_jwks started_introspector started_limiter started_process started_metrics].
  destruct (registration_zero _ (register_metrics_registers (map_to_list (pools config)).*1)) as (Hg & Hc & _).
  split_and!; try done. intros name [p Hp']. unfold register_metrics. rewrite !elem_of_app. do 3 right.
  apply list_elem_of_join. eexists. split; [|apply list_elem_of_fmap; exists name; split; [reflexivity|]]; [left|].
  apply list_elem_of_fmap. exists (name, p). by rewrite elem_of_map_to_list.
Qed.
End Properties.

Lemma maintenance_stops rl has_jwt wakes p :
  (run_pool_maintenance rl has_jwt wakes p).2 =
    existsb (λ w, match w with Wake.Changed (None | Some true) => true | _ => false end) wakes.
Proof.
  revert p. induction wakes as [|w wakes IH]; intros p; [done|].
  destruct w as [| [[]|]]; cbn -[maintenance_tick]; try done; apply IH.
Qed.

(** The process is well-formed when it has been built, and stays so. *)
Lemma process_reachable_ok fred_pool config rl c now p :
  RateLimit.params_ok rl → (∀ name q, pools config !! name = Some q → in_u64 (max_waiters q)) →
  rtc (process_step fred_pool config rl c) (mkProcess limiter_init (mkCacheSys cache_init ∅ now) manager_new) p →
  process_ok config rl c p.
Proof.
  intros Hok Hwaiters Hp.
  assert (process_ok config rl c (mkProcess limiter_init (mkCacheSys cache_init ∅ now) manager_new)) as Hinit.
  { split; cbn; [by apply limiter_init_wf|by apply cache_reachable_inv; exists now|by split; cbn]. }
  by eapply process_steps_ok.
Qed.

(** What [main] starts with. *)
Lemma start_process {parse_socket_addr parse_ip install_metrics parse_scheme base64_encode b1 b2 bind_listener sigterm}
    now config st :
  start parse_socket_addr parse_ip install_metrics parse_scheme base64_encode b1 b2 bind_listener sigterm now config = Ok st →
  started_process st = mkProcess limiter_init (mkCacheSys cache_init ∅ now) manager_new ∧
  started_limiter st = limiter_new (per_token_commands_per_sec (rate_limit (server config))).
Proof.
  unfold start. case_decide; [done|].
  destruct (map_err _ _) as [[]|]; [|done]. destruct (map_err _ _) as [[]|]; [|done].
  destruct (start_jwt _ _ _ _ config) as [[[j k] i]|]; [|done].
  destruct (map_err _ _) as [[]|]; [|done]. destruct (map_err _ _) as [[]|]; [|done]. by intros [= <-].
Qed.

(** The introspection cache of a started server; without JWTs nothing uses it. *)
Definition started_cache (st : Started) : CacheParams :=
  match started_jwt st with Some (_, c) => c | None => cache_new 0 end.

(** C22. From the environment to the running process: whatever configuration
    the environment or a file gives, once it has loaded and [main] has started
    with it, the shared state is well-formed and stays so, whatever requests do
    to the limiter, the introspection cache and the pools and wherever the
    maintenance task is in its tick, no range of a configured number being
    assumed; the task run alone ends exactly when it is told to stop or the
    channel closes.  When the pools that are in the map are shut down, one after
    the other with the awaits this takes, whatever happens meanwhile the pools
    left at the end were built during the shutdown, and when nothing happens
    meanwhile the shutdown gets to its end and leaves no pool. *)
Theorem process_stays_well_formed display sha256 (hash_iter : ∀ A, gmap string A → list (string * A))
    parse_socket_addr parse_url from_str read_to_string get
    parse_ip install_metrics base64_encode build_jwks build_introspection bind_listener sigterm fred_pool
    (config : Config) (now : Z) (st : Started) (p : Process)
    (Hiter : ∀ A (m : gmap string A), hash_iter A m ≡ₚ map_to_list m)
    (Hload : load_config display sha256 hash_iter parse_socket_addr parse_url from_str read_to_string get = Ok config)
    (Hstart : start parse_socket_addr parse_ip install_metrics parse_url base64_encode build_jwks
                build_introspection bind_listener sigterm now config = Ok st)
    (Hp : rtc (process_step fred_pool config (started_limiter st) (started_cache st)) (started_process st) p) :
  process_ok config (started_limiter st) (started_cache st) p ∧
  (∀ wakes, (run_pool_maintenance (started_limiter st) (bool_decide (is_Some (started_jwt st))) wakes p).2 = true ↔
     Wake.Changed None ∈ wakes ∨ Wake.Changed (Some true) ∈ wakes) ∧
  (∀ what u u' p', chore_ok what p →
     maintenance_turn (started_limiter st) (bool_decide (is_Some (started_jwt st))) what u p = Some (u', p') →
     process_ok config (started_limiter st) (started_cache st) p') ∧
  (∀ names p', list_to_set names = dom (manager_pools (p_manager p)) →
     rtc (closing_down fred_pool config (started_limiter st) (started_cache st))
       (Removal.Next names, p) (Removal.Next [], p') →
     process_ok config (started_limiter st) (started_cache st) p' ∧
     ∀ name id, manager_pools (p_manager p') !! name = Some id → heap (p_manager p) !! id = None) ∧
  rtc (closing_down fred_pool config (started_limiter st) (started_cache st))
    (Removal.Next (map_to_list (manager_pools (p_manager p))).*1, p) (Removal.Next [], shutdown_pools p) ∧
  manager_pools (p_manager (shutdown_pools p)) = ∅.
Proof.
  destruct (load_config_sound _ _ _ Hiter _ _ _ _ _ _ Hload) as [(Hs & _ & Hpools) _].
  destruct (start_process _ _ _ Hstart) as [Hinit Hrl]. rewrite Hinit in Hp.
  assert (RateLimit.params_ok (started_limiter st)) as Hrlok by (rewrite Hrl; apply with_max_buckets_ok, Hs).
  assert (∀ name q, pools config !! name = Some q → in_u64 (max_waiters q)) as Hw by (intros name q Hq; apply (Hpools name q Hq)).
  assert (process_ok config (started_limiter st) (started_cache st) p) as Hok by by eapply process_reachable_ok.
  split_and!.
  - done.
  - intros wakes. rewrite maintenance_stops, List.existsb_exists. setoid_rewrite <- list_elem_of_In. split.
    + intros (w & Hw' & He). destruct w as [|[[]|]]; naive_solver.
    + intros [Hw'|Hw']; (eexists; split; [exact Hw'|done]).
  - intros what u u' p' Hc Ht. eapply (process_steps_ok fred_pool config); [done..|]. by eapply maintenance_turn_steps.
  - intros names p' Hnames Hrun. split; [by apply (closing_down_ok fred_pool config _ _ Hrlok Hw _ _ Hrun)|].
    assert (still_named (.∈ dom (heap (p_manager p))) [] p') as Hn.
    { apply (still_named_run fred_pool config _ _ _ _ _ Hrun); [done|]. intros name id Hid _.
      apply (elem_of_list_to_set (C := gset string)). cbn. rewrite Hnames. by apply elem_of_dom_2 in Hid. }
    intros name id Hid. apply not_elem_of_dom. intros Hin. by apply (Hn name id Hid), elem_of_nil in Hin.
  - destruct p as [l ca m]. apply (shutdown_alone fred_pool config _ _ _ _ m _ (mkProcess l ca m)), manager_shutdown_turns.
  - apply shutdown_leaves_none.
Qed.

(** ** Witnesses *)

Definition demo_config : Config := mkConfig server_default (mkAuthConfig None ∅) ∅.

Lemma startup_of_valid_config_witness :
  ∃ st, start (λ _, Ok tt) (λ _, None) (λ _, Ok tt) (λ _, Err "") (λ b, b) (Ok tt) (Ok tt) (λ _, Ok tt) (Ok tt) 5 demo_config = Ok st ∧
    started_process st = mkProcess limiter_init (mkCacheSys cache_init ∅ 5) manager_new.
Proof.
  assert (valid_config (λ _, Ok tt) (λ _, Err "") demo_config) as Hv.
  { split; try (vm_compute; discriminate); try reflexivity; try done; by intros ? ? ?. }
  pose proof (startup_of_valid_config (λ _, Ok tt) (λ _, Err "") (λ _, None) (λ _, Ok tt) (λ b, b) (Ok tt) (Ok tt)
    (λ _, Ok tt) (Ok tt) demo_config 5 Hv) as H.
  destruct (start _ _ _ _ _ _ _ _ _ 5 demo_config) as [st|] eqn:Hs; [|exfalso; by vm_compute in Hs].
  exists st. split; [done|]. apply H.
Defined.

Definition demo_load : result Config ConfigError :=
  load_config (λ _, "malformed") (λ t, t) sample_iter (λ _, Ok tt) (λ _, Err "") (λ _, Ok plain_file) (λ _, Ok "")
    (λ _, None).
Definition demo_start : Config → result Started string :=
  start (λ _, Ok tt) (λ _, None) (λ _, Ok tt) (λ _, Err "") (λ b, b) (Ok tt) (Ok tt) (λ _, Ok tt) (Ok tt) 5.

Lemma process_stays_well_formed_witness :
  match demo_load with
  | Ok c =>
      match demo_start c with
      | Ok st => manager_pools (p_manager (shutdown_pools
          (maintenance_tick (started_limiter st) (bool_decide (is_Some (started_jwt st))) 3 4 ["cache"] [] []
            (started_process st)))) = ∅
      | Err _ => False
      end
  | Err _ => False
  end.
Proof.
  destruct demo_load as [c|e] eqn:Hc; [|by vm_compute in Hc].
  destruct (demo_start c) as [st|e] eqn:Hst.
  2:{ vm_compute in Hc. injection Hc as <-. by vm_compute in Hst. }
  apply (process_stays_well_formed _ _ sample_iter _ _ _ _ _ _ _ _ _ _ _ _ (λ _, Ok tt) c 5 st _
    (λ A m, Permutation_refl _) Hc Hst).
  apply tick_steps. by rewrite (proj1 (start_process _ _ _ Hst)).
Defined.
