(* ===== verification/Accept.v ===== *)
(** * The accept loop and the shutdown of [src/src/main.rs]

    [main] accepts connections until a signal comes, then closes the listener,
    waits at most fifteen seconds for the connections to finish, stops the
    maintenance task, waits for it and shuts the pools down.  The state is what
    [main] and the tasks it spawned share: where [main] is, the connections
    that are open, where the maintenance task is and the process state of
    [Main.v].  [happen] is what one event does, [None] when it cannot happen
    there; a run is a sequence of events.  The maintenance task and
    [PoolManager::shutdown] go from await to await, so connections act between
    their steps; how long Fred takes to quit a pool and its connection tasks to
    end is a parameter, a duration for every entry.  Hyper serves the
    connections: which bytes they carry is the subject of [Server.v], here a
    connection is open until it is closed. *)
From S2P Require Import Prelude Domain Config Breaker RateLimit Ports Auth Pool Main.

(** ** State *)

(** Where [main] waits: in the [select!], in the pause after a failed accept,
    for the connections until a deadline, for the maintenance task, in the
    shutdown of the pools until its await is over; or it has returned. *)
Module At.
Inductive At : Type :=
| Accepting
| Pausing (until : Z)
| Draining (deadline : Z)
| Joining
| ShuttingDown (r : Removal) (until : Z)
| Returned.
End At.
Abbreviation At := At.At.

(** [upkeep] is where the maintenance task is and [upkeep_until] when its await
    is over; [overran] tells whether the deadline was reported as exceeded. *)
Record Loop : Type := mkLoop {
  at_ : At;
  open_connections : gset nat;
  accepted_connections : nat;
  upkeep : Upkeep;
  upkeep_until : Z;
  overran : bool;
  loop_process : Process;
  loop_now : Z;
}.

(** The state when the loop is entered. *)
Definition loop_start (p : Process) (now : Z) : Loop :=
  mkLoop At.Accepting ∅ 0 Upkeep.Selecting now false p now.

Definition ACCEPT_PAUSE : Z := from_millis 100.
Definition DRAIN_DEADLINE : Z := from_secs 15.

(** Whether the listener is open. *)
Definition listening (l : Loop) : bool :=
  match at_ l with At.Accepting | At.Pausing _ => true | _ => false end.

(** Whether the stop channel of the maintenance task carries [true]. *)
Definition stop_sent (l : Loop) : bool :=
  match at_ l with At.Joining | At.ShuttingDown _ _ | At.Returned => true | _ => false end.

(** Whether the maintenance task has not ended. *)
Definition maintenance_runs (l : Loop) : bool :=
  match upkeep l with Upkeep.Ended => false | _ => true end.

(** ** Events *)

Module LoopEvent.
Inductive LoopEvent : Type :=
(* [listener.accept()] gives a stream; [set_nodelay] may fail *)
| Accepted (nodelay : bool)
| AcceptFailed
| PauseOver
| Signalled
(* a connection task ends *)
| Closed (id : nat)
(* a connection task acts on the shared state *)
| Served (id : nat) (p : Process)
(* [graceful.shutdown()] is done or its deadline has passed *)
| Drained
(* the maintenance task goes on *)
| Maintained (what : Chore)
(* [maintenance.await] returns and the pools to shut down are listed *)
| Joined (names : list string)
(* [PoolManager::shutdown] goes on *)
| ShutDown
| Passed (now : Z).
End LoopEvent.
Abbreviation LoopEvent := LoopEvent.LoopEvent.

Definition goto (a : At) (l : Loop) : Loop :=
  mkLoop a (open_connections l) (accepted_connections l) (upkeep l) (upkeep_until l) (overran l) (loop_process l) (loop_now l).
Definition with_process (p : Process) (l : Loop) : Loop :=
  mkLoop (at_ l) (open_connections l) (accepted_connections l) (upkeep l) (upkeep_until l) (overran l) p (loop_now l).
Definition with_upkeep (u : Upkeep) (until : Z) (l : Loop) : Loop :=
  mkLoop (at_ l) (open_connections l) (accepted_connections l) u until (overran l) (loop_process l) (loop_now l).
Definition with_open (ids : gset nat) (n : nat) (l : Loop) : Loop :=
  mkLoop (at_ l) ids n (upkeep l) (upkeep_until l) (overran l) (loop_process l) (loop_now l).
Definition with_now (now : Z) (l : Loop) : Loop :=
  mkLoop (at_ l) (open_connections l) (accepted_connections l) (upkeep l) (upkeep_until l) (overran l) (loop_process l) now.
Definition with_overrun (l : Loop) : Loop :=
  mkLoop (at_ l) (open_connections l) (accepted_connections l) (upkeep l) (upkeep_until l) true (loop_process l) (loop_now l).

Section Loop.
Context (rl : RateLimiter) (has_jwt : bool).
(** How long [quit] of an entry takes, and its connection tasks to end. *)
Context (quit_takes join_takes : nat → N).

(** How long the await takes in which a loop over the pools is. *)
Definition await_takes (r : Removal) : Z :=
  match r with
  | Removal.Next _ => 0
  | Removal.Quitting _ id => Z.of_N (quit_takes id)
  | Removal.Closing _ id => Z.of_N (join_takes id)
  end.
Definition upkeep_takes (u : Upkeep) : Z :=
  match u with Upkeep.Evicting _ r => await_takes r | _ => 0 end.

(** The stop channel changes once, to [true], when it is sent. *)
Definition chore_offered (what : Chore) (l : Loop) : bool :=
  match what with Chore.Changed (Some true) => stop_sent l | Chore.Changed _ => false | _ => true end.

Definition happen (ev : LoopEvent) (l : Loop) : option Loop :=
  match ev, at_ l with
  | _, At.Returned => None
  | LoopEvent.Accepted nodelay, At.Accepting =>
      Some (if nodelay then with_open ({[ accepted_connections l ]} ∪ open_connections l) (S (accepted_connections l)) l
            else l)
  | LoopEvent.AcceptFailed, At.Accepting => Some (goto (At.Pausing (loop_now l + ACCEPT_PAUSE)) l)
  | LoopEvent.PauseOver, At.Pausing until =>
      if decide (until ≤ loop_now l)%Z then Some (goto At.Accepting l) else None
  | LoopEvent.Signalled, At.Accepting => Some (goto (At.Draining (loop_now l + DRAIN_DEADLINE)) l)
  | LoopEvent.Closed id, _ =>
      if decide (id ∈ open_connections l) then Some (with_open (open_connections l ∖ {[ id ]}) (accepted_connections l) l)
      else None
  | LoopEvent.Served id p, _ => if decide (id ∈ open_connections l) then Some (with_process p l) else None
  | LoopEvent.Drained, At.Draining deadline =>
      if decide (open_connections l = ∅) then Some (goto At.Joining l)
      else if decide (deadline ≤ loop_now l)%Z then Some (goto At.Joining (with_overrun l))
      else None
  | LoopEvent.Maintained what, _ =>
      if decide (upkeep_until l ≤ loop_now l)%Z then
        if chore_offered what l then
          match maintenance_turn rl has_jwt what (upkeep l) (loop_process l) with
          | Some (u, p) => Some (with_process p (with_upkeep u (loop_now l + upkeep_takes u) l))
          | None => None
          end
        else None
      else None
  | LoopEvent.Joined names, At.Joining =>
      if maintenance_runs l then None
      else if decide (NoDup names ∧ list_to_set names = dom (manager_pools (p_manager (loop_process l))))
      then Some (goto (At.ShuttingDown (Removal.Next names) (loop_now l)) l)
      else None
  | LoopEvent.ShutDown, At.ShuttingDown r until =>
      if decide (until ≤ loop_now l)%Z then
        match shutdown_turn r (p_manager (loop_process l)) with
        | Some (r', m') =>
            Some (goto (At.ShuttingDown r' (loop_now l + await_takes r'))
                    (with_process (with_manager m' (loop_process l)) l))
        | None => Some (goto At.Returned l)
        end
      else None
  | LoopEvent.Passed now, _ => if decide (loop_now l ≤ now)%Z then Some (with_now now l) else None
  | _, _ => None
  end.

(** A run: the state after the events, if they can happen in this order. *)
Fixpoint happen_all (evs : list LoopEvent) (l : Loop) : option Loop :=
  match evs with
  | [] => Some l
  | ev :: evs => l ← happen ev l; happen_all evs l
  end.
End Loop.

(** ** The order of the shutdown *)

(** How far [main] is from its end; it never goes back once it was signalled. *)
Definition remaining_stages (a : At) : nat :=
  match a with
  | At.Accepting | At.Pausing _ => 4
  | At.Draining _ => 3
  | At.Joining => 2
  | At.ShuttingDown _ _ => 1
  | At.Returned => 0
  end.

(** The pools the shutdown has left, once it has begun. *)
Definition pools_left (a : At) : option (list string) :=
  match a with
  | At.ShuttingDown r _ => Some (names_left r)
  | At.Returned => Some []
  | _ => None
  end.

Definition left_named (K : nat → Prop) (l : Loop) : Prop :=
  ∀ names, pools_left (at_ l) = Some names → still_named K names (loop_process l).

Record loop_inv (l : Loop) : Prop := {
  inv_accepted : ∀ id, id ∈ open_connections l → id < accepted_connections l;
  inv_maintenance : maintenance_runs l = false → stop_sent l = true;
  inv_joined : is_Some (pools_left (at_ l)) → maintenance_runs l = false;
  inv_drained : stop_sent l = true → overran l = false → open_connections l = ∅;
  inv_waits : match at_ l with
    | At.Pausing until => (until ≤ loop_now l + ACCEPT_PAUSE)%Z
    | At.Draining deadline => (deadline ≤ loop_now l + DRAIN_DEADLINE)%Z
    | At.ShuttingDown (Removal.Next _) until => (until ≤ loop_now l)%Z
    | _ => True
    end;
  inv_upkeep : match upkeep l with
    | Upkeep.Evicting _ (Removal.Quitting _ _ | Removal.Closing _ _) => True
    | _ => (upkeep_until l ≤ loop_now l)%Z
    end;
  inv_left : overran l = false → left_named (λ _, True) l;
}.

Lemma loop_start_inv p now : loop_inv (loop_start p now).
Proof. split; cbn; done. Qed.

Section Order.
Context (rl : RateLimiter) (has_jwt : bool) (quit_takes join_takes : nat → N).
Abbreviation event := (happen rl has_jwt quit_takes join_takes).
Abbreviation events := (happen_all rl has_jwt quit_takes join_takes).
Abbreviation await_takes := (await_takes quit_takes join_takes).
Abbreviation upkeep_takes := (upkeep_takes quit_takes join_takes).

(** The events by case: what must hold before, and the state after. *)
Inductive moved (l : Loop) : LoopEvent → Loop → Prop :=
| mv_accepted :
    at_ l = At.Accepting →
    moved l (LoopEvent.Accepted true)
      (with_open ({[ accepted_connections l ]} ∪ open_connections l) (S (accepted_connections l)) l)
| mv_not_served : at_ l = At.Accepting → moved l (LoopEvent.Accepted false) l
| mv_accept_failed :
    at_ l = At.Accepting → moved l LoopEvent.AcceptFailed (goto (At.Pausing (loop_now l + ACCEPT_PAUSE)) l)
| mv_pause_over until :
    at_ l = At.Pausing until → (until ≤ loop_now l)%Z → moved l LoopEvent.PauseOver (goto At.Accepting l)
| mv_signalled :
    at_ l = At.Accepting → moved l LoopEvent.Signalled (goto (At.Draining (loop_now l + DRAIN_DEADLINE)) l)
| mv_closed id :
    at_ l ≠ At.Returned → id ∈ open_connections l →
    moved l (LoopEvent.Closed id) (with_open (open_connections l ∖ {[ id ]}) (accepted_connections l) l)
| mv_served id p :
    at_ l ≠ At.Returned → id ∈ open_connections l → moved l (LoopEvent.Served id p) (with_process p l)
| mv_drained deadline :
    at_ l = At.Draining deadline → open_connections l = ∅ → moved l LoopEvent.Drained (goto At.Joining l)
| mv_overran deadline :
    at_ l = At.Draining deadline → open_connections l ≠ ∅ → (deadline ≤ loop_now l)%Z →
    moved l LoopEvent.Drained (goto At.Joining (with_overrun l))
| mv_maintained what u p :
    at_ l ≠ At.Returned → (upkeep_until l ≤ loop_now l)%Z → chore_offered what l = true →
    maintenance_turn rl has_jwt what (upkeep l) (loop_process l) = Some (u, p) →
    moved l (LoopEvent.Maintained what) (with_process p (with_upkeep u (loop_now l + upkeep_takes u) l))
| mv_joined names :
    at_ l = At.Joining → maintenance_runs l = false →
    list_to_set names = dom (manager_pools (p_manager (loop_process l))) →
    moved l (LoopEvent.Joined names) (goto (At.ShuttingDown (Removal.Next names) (loop_now l)) l)
| mv_shut r until r' m' :
    at_ l = At.ShuttingDown r until → (until ≤ loop_now l)%Z →
    shutdown_turn r (p_manager (loop_process l)) = Some (r', m') →
    moved l LoopEvent.ShutDown
      (goto (At.ShuttingDown r' (loop_now l + await_takes r')) (with_process (with_manager m' (loop_process l)) l))
| mv_returned until :
    at_ l = At.ShuttingDown (Removal.Next []) until → (until ≤ loop_now l)%Z →
    moved l LoopEvent.ShutDown (goto At.Returned l)
| mv_passed now :
    at_ l ≠ At.Returned → (loop_now l ≤ now)%Z → moved l (LoopEvent.Passed now) (with_now now l).

Lemma shutdown_turn_end r m : shutdown_turn r m = None → r = Removal.Next [].
Proof. destruct r as [[|name names]|names id|names id]; cbn; intros H; repeat case_match; done. Qed.

Lemma happen_moved ev l l' : event ev l = Some l' → moved l ev l'.
Proof.
  unfold happen. intros H.
  assert (at_ l ≠ At.Returned) as Hnr by (intros E; rewrite E in H; by destruct ev).
  destruct ev as [[]| | | |id|id p| |what|names| |now]; destruct (at_ l) as [|until|deadline| |r until|] eqn:Hat;
    cbv beta iota in H; try discriminate H; try (injection H as <-; rewrite <- ?Hat; by constructor).
  all: repeat match goal with
    | E : (if decide ?b then _ else _) = Some _ |- _ => destruct (decide b)
    | E : (if maintenance_runs ?x then _ else _) = Some _ |- _ => destruct (maintenance_runs x) eqn:?
    | E : (if chore_offered ?x ?y then _ else _) = Some _ |- _ => destruct (chore_offered x y) eqn:?
    | E : match maintenance_turn ?a ?b ?c ?d ?e with _ => _ end = Some _ |- _ =>
        destruct (maintenance_turn a b c d e) as [[? ?]|] eqn:?
    | E : match shutdown_turn ?a ?b with _ => _ end = Some _ |- _ => destruct (shutdown_turn a b) as [[? ?]|] eqn:Ht
    end; try discriminate H; destruct_and?; injection H as <-; try (by econstructor; eauto; congruence).
  apply shutdown_turn_end in Ht as ->. by eapply mv_returned.
Qed.

(** What maintenance does leaves the loop where it is, and it does nothing once
    it has ended. *)
Lemma maintenance_turn_runs what l u p :
  maintenance_turn rl has_jwt what (upkeep l) (loop_process l) = Some (u, p) → maintenance_runs l = true.
Proof. unfold maintenance_runs. destruct (upkeep l), what; done. Qed.

Lemma maintenance_turn_ends what l p :
  maintenance_turn rl has_jwt what (upkeep l) (loop_process l) = Some (Upkeep.Ended, p) → chore_offered what l = true →
  stop_sent l = true.
Proof.
  destruct (upkeep l), what as [| | | |[[]|]]; cbn; try done; intros H; repeat case_match; simplify_eq; done.
Qed.

(** The entries with [K] that the shutdown has not reached stay named, whatever
    a connection does that does not put [K] into the map. *)
Lemma happen_left K ev l l' :
  loop_inv l → moved l ev l' → left_named K l → is_Some (pools_left (at_ l)) →
  (∀ id p names, ev = LoopEvent.Served id p → still_named K names (loop_process l) → still_named K names p) →
  left_named K l'.
Proof.
  intros Hi Hm Hl [names Hnames] Hserved. destruct Hm; try (by rewrite H in Hnames); try exact Hl.
  - intros ns Hns. eapply Hserved; [done|]. by apply Hl.
  - apply maintenance_turn_runs in H2. by rewrite (inv_joined _ Hi) in H2.
  - intros ns [= <-]. cbn. eapply still_named_turn; [done|]. apply Hl. by rewrite H.
  - intros ns [= <-]. apply Hl. by rewrite H.
Qed.

Lemma happen_inv ev l l' : loop_inv l → event ev l = Some l' → loop_inv l'.
Proof.
  intros Hi Hmv%happen_moved. pose proof Hi as [Ha Hm Hj Hd Hw Hu Hl]. split.
  - destruct Hmv; try exact Ha; cbn.
    + intros id [->%elem_of_singleton|Hid%Ha]%elem_of_union; lia.
    + intros id' [Hid _]%elem_of_difference. by apply Ha.
  - destruct Hmv; try exact Hm; unfold stop_sent, maintenance_runs in *; cbn in *;
      try (by rewrite H in Hm); try done.
    destruct u; try done. intros _. by eapply maintenance_turn_ends.
  - destruct Hmv; try exact Hj; unfold maintenance_runs in *; cbn in *; try (by intros [? ?]); try done.
    + intros Hs. apply maintenance_turn_runs in H2. unfold maintenance_runs in *. by rewrite (Hj Hs) in H2.
    + intros _. apply Hj. by rewrite H.
    + intros _. apply Hj. by rewrite H.
  - destruct Hmv; try exact Hd; unfold stop_sent in *; cbn in *; try (by rewrite H in Hd); try done.
    + by rewrite H.
    + intros Hs Ho. rewrite (Hd Hs Ho). set_solver.
  - destruct Hmv; try exact Hw; cbn; try done; try lia; [destruct r'; cbn; done || lia|].
    destruct (at_ l) as [| | | |[]|]; done || lia.
  - destruct Hmv; try exact Hu; cbn.
    + destruct u as [|? []| | |]; cbn; done || lia.
    + destruct (upkeep l) as [|? []| | |]; done || lia.
  - intros Ho. assert (overran l = false) as Ho0 by (by destruct Hmv).
    destruct (pools_left (at_ l)) as [names|] eqn:Hleft.
    + eapply happen_left; [done|done|by apply Hl|by eexists|]. intros id p ns ->. inversion Hmv; subst.
      rewrite Hd in H3; [set_solver| |done]. unfold stop_sent. by destruct (at_ l).
    + destruct Hmv; unfold left_named; cbn; rewrite ?Hleft; try done.
      * intros ns [= <-] name id Hid _. cbn. apply (elem_of_list_to_set (C := gset string)).
        rewrite H1. by apply elem_of_dom_2 in Hid.
      * by rewrite H in Hleft.
      * by rewrite H in Hleft.
Qed.

Lemma happen_all_inv evs l l' : loop_inv l → events evs l = Some l' → loop_inv l'.
Proof.
  revert l. induction evs as [|ev evs IH]; intros l Hl H; [by simplify_eq/=|].
  cbn in H. destruct (event ev l) as [l1|] eqn:H1; [|done]. eapply IH; [|exact H].
  by eapply happen_inv.
Qed.

(** [main] only moves towards its end once it was signalled, and then accepts
    nothing. *)
Lemma happen_forward ev l l' :
  event ev l = Some l' → remaining_stages (at_ l) < 4 →
  remaining_stages (at_ l') ≤ remaining_stages (at_ l) ∧
  accepted_connections l' = accepted_connections l ∧ open_connections l' ⊆ open_connections l.
Proof.
  intros Hmv%happen_moved Hs. destruct Hmv; cbn; try rewrite H in *; cbn in *; split_and!; done || lia || set_solver.
Qed.

Lemma happen_all_forward evs l l' :
  events evs l = Some l' → remaining_stages (at_ l) < 4 →
  remaining_stages (at_ l') ≤ remaining_stages (at_ l) ∧
  accepted_connections l' = accepted_connections l ∧ open_connections l' ⊆ open_connections l.
Proof.
  revert l. induction evs as [|ev evs IH]; intros l H Hs; [by simplify_eq/=|].
  cbn in H. destruct (event ev l) as [l1|] eqn:H1; [|done].
  destruct (happen_forward _ _ _ H1 Hs) as (Hr & Ha & Ho).
  destruct (IH l1 H) as (Hr' & Ha' & Ho'); [lia|]. split_and!; [lia|congruence|set_solver].
Qed.

Lemma events_app evs1 evs2 l : events (evs1 ++ evs2) l = events evs1 l ≫= events evs2.
Proof.
  revert l. induction evs1 as [|ev evs1 IH]; intros l; [done|]. cbn. destruct (event ev l); cbn; [apply IH|done].
Qed.

(** The shutdown has begun, and stays so. *)
Lemma pools_left_forward ev l l' : moved l ev l' → is_Some (pools_left (at_ l)) → is_Some (pools_left (at_ l')).
Proof. intros Hm [ns Hns]. destruct Hm; cbn; try (by rewrite H in Hns); by eexists. Qed.
End Order.

(** ** The shutdown comes to its end *)

(** An event of the environment: something a connection does. *)
Definition of_connection (ev : LoopEvent) : bool :=
  match ev with LoopEvent.Accepted _ | LoopEvent.Closed _ | LoopEvent.Served _ _ => true | _ => false end.

(** How long it takes to shut down every pool of the map. *)
Definition pools_take (quit_takes join_takes : nat → N) (ps : gmap string nat) : Z :=
  map_fold (λ _ id t, (Z.of_N (quit_takes id) + Z.of_N (join_takes id) + t)%Z) 0%Z ps.

(** What is left of an await that is over at [until], and of the shutdown of
    the entry it belongs to. *)
Definition await_left (join_takes : nat → N) (r : Removal) (until now : Z) : Z :=
  match r with
  | Removal.Next _ => 0
  | Removal.Quitting _ id => Z.max 0 (until - now) + Z.of_N (join_takes id)
  | Removal.Closing _ id => Z.max 0 (until - now)
  end.

Definition main_left (join_takes : nat → N) (l : Loop) : Z :=
  match at_ l with At.ShuttingDown r until => await_left join_takes r until (loop_now l) | _ => 0 end.
Definition upkeep_left (join_takes : nat → N) (l : Loop) : Z :=
  match upkeep l with Upkeep.Evicting _ r => await_left join_takes r (upkeep_until l) (loop_now l) | _ => 0 end.

Section Finishing.
Context (rl : RateLimiter) (has_jwt : bool) (quit_takes join_takes : nat → N).
Abbreviation event := (happen rl has_jwt quit_takes join_takes).
Abbreviation events := (happen_all rl has_jwt quit_takes join_takes).
Abbreviation await_takes := (await_takes quit_takes join_takes).
Abbreviation pools_take := (pools_take quit_takes join_takes).
Abbreviation await_left := (await_left join_takes).

Lemma pools_take_nonneg ps : (0 ≤ pools_take ps)%Z.
Proof. unfold Accept.pools_take. apply (map_fold_weak_ind (λ t _, (0 ≤ t)%Z)); [done|]. intros. lia. Qed.

Lemma pools_take_delete ps name id :
  ps !! name = Some id →
  pools_take ps = (Z.of_N (quit_takes id) + Z.of_N (join_takes id) + pools_take (delete name ps))%Z.
Proof. intros Hid. unfold Accept.pools_take. rewrite (map_fold_delete_L _ _ name id ps); [done| |done]. intros. lia. Qed.

Lemma await_left_nonneg r until now : (0 ≤ await_left r until now)%Z.
Proof. destruct r; cbn; lia. Qed.

(** A run without the connections. *)
Definition quietly (l l' : Loop) : Prop :=
  ∃ more, forallb (negb ∘ of_connection) more = true ∧ events more l = Some l'.

Lemma quietly_refl l : quietly l l.
Proof. by exists []. Qed.

Lemma quietly_trans l1 l2 l3 : quietly l1 l2 → quietly l2 l3 → quietly l1 l3.
Proof.
  intros (m1 & Hq1 & H1) (m2 & Hq2 & H2). exists (m1 ++ m2). split.
  - by rewrite forallb_app, Hq1, Hq2.
  - by rewrite events_app, H1.
Qed.

Lemma quietly_event ev l l' : of_connection ev = false → event ev l = Some l' → quietly l l'.
Proof. intros Hc He. exists [ev]. cbn. by rewrite Hc, He. Qed.

Lemma quietly_inv l l' : loop_inv l → quietly l l' → loop_inv l'.
Proof. intros Hi (more & _ & H). by eapply happen_all_inv. Qed.

(** A loop over the pools that is somewhere in [l], by its events: [holds r
    until l] says that the loop is at [r] there until [until]. *)
Section Removing.
Context (goes : nat → PoolManager → bool) (after : nat → PoolManager → PoolManager) (ev : LoopEvent).
Context (holds : Removal → Z → Loop → Prop).
Hypothesis after_pools : ∀ id m, manager_pools (after id m) = manager_pools m.
Hypothesis ev_quiet : of_connection ev = false.
Hypothesis holds_turn : ∀ r until l r' m',
  holds r until l → (until ≤ loop_now l)%Z → removal_turn goes after r (p_manager (loop_process l)) = Some (r', m') →
  ∃ l', event ev l = Some l' ∧ holds r' (loop_now l + await_takes r')%Z l' ∧
    loop_now l' = loop_now l ∧ p_manager (loop_process l') = m'.
Hypothesis holds_passed : ∀ r until now l,
  (loop_now l ≤ now)%Z → holds r until l → at_ l ≠ At.Returned ∧ holds r until (with_now now l).

(** What the loop costs from here on. *)
Definition due (r : Removal) (until : Z) (l : Loop) : Z :=
  loop_now l + await_left r until (loop_now l) + pools_take (manager_pools (p_manager (loop_process l))).

Definition done_by (bound : Z) (l : Loop) : Prop :=
  ∃ l' until, quietly l l' ∧ holds (Removal.Next []) until l' ∧ (until ≤ loop_now l')%Z ∧
    (loop_now l' + pools_take (manager_pools (p_manager (loop_process l'))) ≤ bound)%Z.

Lemma done_by_quietly b b' l l' : quietly l l' → (b' ≤ b)%Z → done_by b' l' → done_by b l.
Proof.
  intros Hq Hb (l2 & until & Hq2 & Hh & Hu & Hn). exists l2, until. split_and!; try done; [|lia].
  by eapply quietly_trans.
Qed.

(** Waiting until an await is over. *)
Lemma pass_await r until l :
  holds r until l → ∃ l', quietly l l' ∧ holds r until l' ∧ loop_now l' = Z.max (loop_now l) until ∧
    loop_process l' = loop_process l.
Proof.
  intros Hh. assert (loop_now l ≤ Z.max (loop_now l) until)%Z as Hle by lia.
  destruct (holds_passed r until _ l Hle Hh) as [Hat Hh'].
  exists (with_now (Z.max (loop_now l) until) l). split_and!; try done.
  apply (quietly_event (LoopEvent.Passed (Z.max (loop_now l) until))); [done|]. unfold happen.
  destruct (at_ l); try done; by rewrite decide_True by lia.
Qed.

(** One turn, after its await. *)
Lemma removing_turn r until l r' m' :
  holds r until l → (match r with Removal.Next _ => until ≤ loop_now l | _ => True end)%Z →
  removal_turn goes after r (p_manager (loop_process l)) = Some (r', m') →
  ∃ l' until', quietly l l' ∧ holds r' until' l' ∧
    (match r' with Removal.Next _ => until' ≤ loop_now l' | _ => True end)%Z ∧ (due r' until' l' ≤ due r until l)%Z.
Proof.
  intros Hh Hu Ht. destruct (pass_await r until l Hh) as (l1 & Hq1 & Hh1 & Hn1 & Hp1). rewrite <- Hp1 in Ht.
  assert (until ≤ loop_now l1)%Z as Hle by lia.
  destruct (holds_turn r until l1 r' m' Hh1 Hle Ht) as (l2 & He & Hh2 & Hn2 & Hm2).
  exists l2, (loop_now l1 + await_takes r')%Z. split_and!; [|done|by destruct r'; cbn; lia|].
  { eapply quietly_trans; [done|]. by eapply quietly_event. }
  unfold due. rewrite Hn2, Hm2, <- Hp1. destruct r as [[|name names]|names id|names id]; cbn in Ht; [done|..].
  - destruct (manager_pools (p_manager (loop_process l1)) !! name) as [id|] eqn:Hid; [destruct (goes _ _)|];
      injection Ht as <- <-; cbn; [|lia..]. rewrite (pools_take_delete _ _ _ Hid). lia.
  - injection Ht as <- <-. cbn. lia.
  - injection Ht as <- <-. cbn. rewrite after_pools. lia.
Qed.

Lemma removing_next names t l :
  holds (Removal.Next names) t l → (t ≤ loop_now l)%Z → done_by (due (Removal.Next names) t l) l.
Proof.
  revert t l. induction names as [|name names IH]; intros t l Hh Hu.
  { exists l, t. split_and!; try done; [apply quietly_refl|]. unfold due. cbn. lia. }
  assert (∃ r' m', removal_turn goes after (Removal.Next (name :: names)) (p_manager (loop_process l)) = Some (r', m') ∧
    (r' = Removal.Next names ∨ ∃ id, r' = Removal.Quitting names id)) as (r' & m' & Ht & Hr').
  { cbn. repeat case_match; eauto 6. }
  destruct (removing_turn _ _ _ _ _ Hh Hu Ht) as (l1 & w1 & Hq1 & Hh1 & Hu1 & Hd1).
  destruct Hr' as [->|[id ->]].
  { eapply done_by_quietly; [exact Hq1|exact Hd1|]. by apply IH. }
  destruct (removing_turn _ _ _ _ _ Hh1 I eq_refl) as (l2 & u2 & Hq2 & Hh2 & Hu2 & Hd2).
  destruct (removing_turn _ _ _ _ _ Hh2 I eq_refl) as (l3 & u3 & Hq3 & Hh3 & Hu3 & Hd3).
  eapply done_by_quietly; [by eapply quietly_trans, quietly_trans|etrans; [exact Hd3|lia]|]. by apply IH.
Qed.

Lemma removing_finishes r until l :
  holds r until l → (match r with Removal.Next _ => until ≤ loop_now l | _ => True end)%Z → done_by (due r until l) l.
Proof.
  intros Hh Hu. destruct r as [names|names id|names id]; [by apply removing_next|..].
  - destruct (removing_turn _ _ _ _ _ Hh I eq_refl) as (l2 & u2 & Hq2 & Hh2 & Hu2 & Hd2).
    destruct (removing_turn _ _ _ _ _ Hh2 I eq_refl) as (l3 & u3 & Hq3 & Hh3 & Hu3 & Hd3).
    eapply done_by_quietly; [by eapply quietly_trans|etrans; [exact Hd3|exact Hd2]|]. by apply removing_next.
  - destruct (removing_turn _ _ _ _ _ Hh I eq_refl) as (l3 & u3 & Hq3 & Hh3 & Hu3 & Hd3).
    eapply done_by_quietly; [exact Hq3|exact Hd3|]. by apply removing_next.
Qed.
End Removing.

(** The shutdown of the pools ends, and [main] returns. *)
Definition cost (l : Loop) : Z :=
  loop_now l + main_left join_takes l + upkeep_left join_takes l
    + pools_take (manager_pools (p_manager (loop_process l))).

Definition returns_by (bound : Z) (l : Loop) : Prop :=
  ∃ l', quietly l l' ∧ at_ l' = At.Returned ∧ (loop_now l' ≤ bound)%Z.

Lemma returns_by_quietly b b' l l' : quietly l l' → (b' ≤ b)%Z → returns_by b' l' → returns_by b l.
Proof. intros Hq Hb (l2 & Hq2 & Hr & Hn). exists l2. split_and!; [by eapply quietly_trans|done|lia]. Qed.

Lemma upkeep_left_nonneg l : (0 ≤ upkeep_left join_takes l)%Z.
Proof. unfold upkeep_left. destruct (upkeep l); try done. apply await_left_nonneg. Qed.

Lemma shutting_down_returns l r until :
  loop_inv l → at_ l = At.ShuttingDown r until → returns_by (cost l) l.
Proof.
  intros Hi Hat. pose proof (inv_waits _ Hi) as Hw. rewrite Hat in Hw.
  destruct (removing_finishes (λ _ _, true) (λ _ m, m) LoopEvent.ShutDown (λ r t l, at_ l = At.ShuttingDown r t))
    with (r := r) (until := until) (l := l) as (l1 & t & Hq & Hat1 & Ht & Hn); try done.
  - intros r1 t1 l1 r2 m2 H1 Ht1 Hturn.
    exists (goto (At.ShuttingDown r2 (loop_now l1 + await_takes r2)) (with_process (with_manager m2 (loop_process l1)) l1)).
    split; [|done]. unfold happen. rewrite H1, decide_True by done. unfold shutdown_turn. by rewrite Hturn.
  - intros r1 t1 now l1 _ H1. by rewrite H1.
  - eapply returns_by_quietly; [exact Hq|etrans; [exact Hn|]|].
    { unfold due, cost, main_left. rewrite Hat. pose proof (upkeep_left_nonneg l). lia. }
    exists (goto At.Returned l1). split_and!; [|done|].
    + apply (quietly_event LoopEvent.ShutDown); [done|]. unfold happen. by rewrite Hat1, decide_True.
    + cbn. pose proof (pools_take_nonneg (manager_pools (p_manager (loop_process l1)))). lia.
Qed.

(** The maintenance task ends once it was told to. *)
Lemma joined_event l :
  at_ l = At.Joining → maintenance_runs l = false →
  let names := (map_to_list (manager_pools (p_manager (loop_process l)))).*1 in
  event (LoopEvent.Joined names) l = Some (goto (At.ShuttingDown (Removal.Next names) (loop_now l)) l).
Proof.
  intros Hat Hm. unfold happen. rewrite Hat, Hm, decide_True; [done|].
  split; [apply NoDup_fst_map_to_list|]. symmetry. apply leibniz_equiv, dom_alt.
Qed.

Lemma selecting_returns l :
  loop_inv l → at_ l = At.Joining → upkeep l = Upkeep.Selecting → returns_by (cost l) l.
Proof.
  intros Hi Hat Hup. pose proof (inv_upkeep _ Hi) as Hu. rewrite Hup in Hu.
  set (l1 := with_process (loop_process l) (with_upkeep Upkeep.Ended (loop_now l + 0) l)).
  assert (event (LoopEvent.Maintained (Chore.Changed (Some true))) l = Some l1) as H1.
  { unfold happen, chore_offered, stop_sent. rewrite Hat, Hup. by rewrite decide_True by done. }
  set (names := (map_to_list (manager_pools (p_manager (loop_process l)))).*1).
  set (l2 := goto (At.ShuttingDown (Removal.Next names) (loop_now l)) l1).
  assert (event (LoopEvent.Joined names) l1 = Some l2) as H2.
  { by apply (joined_event l1). }
  assert (loop_inv l2) as Hi2 by (eapply happen_inv, H2; by eapply happen_inv).
  eapply (returns_by_quietly _ (cost l2)); [|apply Z.eq_le_incl|by eapply shutting_down_returns].
  - eapply quietly_trans; (eapply quietly_event; [|eassumption]; done).
  - unfold cost, main_left, upkeep_left. cbn. by rewrite Hat, Hup.
Qed.

Lemma sweeping_returns l :
  loop_inv l → at_ l = At.Joining → upkeep l = Upkeep.SweepingLimiter ∨ upkeep l = Upkeep.SweepingCache →
  returns_by (cost l) l.
Proof.
  intros Hi Hat Hup.
  assert (∀ l what u p, loop_inv l → at_ l = At.Joining → (upkeep_until l ≤ loop_now l)%Z → chore_offered what l = true →
    maintenance_turn rl has_jwt what (upkeep l) (loop_process l) = Some (u, p) → p_manager p = p_manager (loop_process l) →
    (∀ l', loop_inv l' → at_ l' = At.Joining → upkeep l' = u → returns_by (cost l') l') →
    upkeep_takes quit_takes join_takes u = 0%Z → (∀ u1 r, u ≠ Upkeep.Evicting u1 r) → returns_by (cost l) l) as Hstep.
  { clear. intros l what u p Hi Hat Hu Hoff Hturn Hp Hk H0 Hne.
    set (l1 := with_process p (with_upkeep u (loop_now l + 0) l)).
    assert (event (LoopEvent.Maintained what) l = Some l1) as H1.
    { unfold happen. rewrite Hat, decide_True, Hoff, Hturn by done. by rewrite H0. }
    eapply (returns_by_quietly _ (cost l1)); [eapply quietly_event; [|exact H1]; done| |apply Hk; by (done || eapply happen_inv)].
    unfold cost, main_left. cbn. rewrite Hat, Hp. unfold upkeep_left at 1. cbn.
    pose proof (upkeep_left_nonneg l). destruct u; try lia. by destruct (Hne unix_secs r). }
  pose proof (inv_upkeep _ Hi) as Hu. revert l Hi Hat Hup Hu.
  assert (∀ l, loop_inv l → at_ l = At.Joining → upkeep l = Upkeep.SweepingCache → returns_by (cost l) l) as Hcache.
  { intros l Hi Hat Hup. pose proof (inv_upkeep _ Hi) as Hu. rewrite Hup in Hu.
    eapply (Hstep l (Chore.SweptCache []) Upkeep.Selecting); rewrite ?Hup; try done; apply selecting_returns. }
  intros l Hi Hat [Hup|Hup] Hu; [|by apply Hcache]. rewrite Hup in Hu.
  destruct has_jwt eqn:Hj;
    [eapply (Hstep l (Chore.SweptLimiter 0 []) Upkeep.SweepingCache)|eapply (Hstep l (Chore.SweptLimiter 0 []) Upkeep.Selecting)];
    rewrite ?Hup; try done; apply selecting_returns.
Qed.

Lemma evicting_returns l u r :
  loop_inv l → at_ l = At.Joining → upkeep l = Upkeep.Evicting u r → returns_by (cost l) l.
Proof.
  intros Hi Hat Hup. pose proof (inv_upkeep _ Hi) as Hu. rewrite Hup in Hu.
  destruct (removing_finishes (entry_is_idle u) (close_pool reset_gauge) (LoopEvent.Maintained Chore.Evicts)
    (λ r t l, at_ l = At.Joining ∧ upkeep l = Upkeep.Evicting u r ∧ upkeep_until l = t))
    with (r := r) (until := upkeep_until l) (l := l) as (l1 & t & Hq & (Hat1 & Hup1 & <-) & Ht & Hn); try done.
  - intros r1 t1 l1 r2 m2 (Hat1 & Hup1 & <-) Ht1 Hturn.
    exists (with_process (with_manager m2 (loop_process l1))
      (with_upkeep (Upkeep.Evicting u r2) (loop_now l1 + await_takes r2) l1)).
    split; [|done]. unfold happen. rewrite Hat1, Hup1, decide_True by done. cbn [chore_offered maintenance_turn].
    unfold evict_turn. by rewrite Hturn.
  - intros r1 t1 now l1 _ (Hat1 & Hup1 & <-). by rewrite Hat1.
  - set (l2 := with_process (loop_process l1) (with_upkeep Upkeep.SweepingLimiter (loop_now l1 + 0) l1)).
    assert (event (LoopEvent.Maintained Chore.Evicts) l1 = Some l2) as H2.
    { unfold happen. rewrite Hat1, Hup1, decide_True by done. done. }
    assert (quietly l l2) as Hq2.
    { eapply quietly_trans; [done|]. eapply quietly_event; [|exact H2]; done. }
    eapply returns_by_quietly; [exact Hq2| |apply sweeping_returns; [by eapply quietly_inv|exact Hat1|by left]].
    etrans; [|etrans; [exact Hn|]]; unfold cost, due, main_left, upkeep_left; cbn.
    + rewrite Hat1. lia.
    + rewrite Hat, Hup. lia.
Qed.

Lemma joining_returns l : loop_inv l → at_ l = At.Joining → returns_by (cost l) l.
Proof.
  intros Hi Hat. destruct (upkeep l) as [|u r| | |] eqn:Hup.
  - by apply selecting_returns.
  - by eapply evicting_returns.
  - apply sweeping_returns; auto.
  - apply sweeping_returns; auto.
  - set (names := (map_to_list (manager_pools (p_manager (loop_process l)))).*1).
    assert (event (LoopEvent.Joined names) l = Some (goto (At.ShuttingDown (Removal.Next names) (loop_now l)) l)) as H2.
    { by apply joined_event; unfold maintenance_runs; rewrite ?Hup. }
    eapply returns_by_quietly; [eapply quietly_event; [|exact H2]; done| |eapply shutting_down_returns; [|done]].
    + unfold cost, main_left, upkeep_left. cbn. by rewrite Hat, Hup.
    + by eapply happen_inv.
Qed.

(** The waits before that: the drain and the pause after a failed accept. *)
Lemma draining_returns l deadline :
  loop_inv l → at_ l = At.Draining deadline → returns_by (cost l + Z.max 0 (deadline - loop_now l)) l.
Proof.
  intros Hi Hat. set (t := Z.max (loop_now l) deadline). set (l1 := with_now t l).
  assert (event (LoopEvent.Passed t) l = Some l1) as H1.
  { unfold happen. rewrite Hat. by rewrite decide_True by lia. }
  set (l2 := goto At.Joining (if decide (open_connections l = ∅) then l1 else with_overrun l1)).
  assert (event LoopEvent.Drained l1 = Some l2) as H2.
  { unfold happen. change (at_ l1) with (at_ l). rewrite Hat. change (open_connections l1) with (open_connections l).
    unfold l2. destruct (decide (open_connections l = ∅)); [done|].
    change (loop_now l1) with t. by rewrite decide_True by lia. }
  assert (loop_inv l2) as Hi2 by (eapply happen_inv, H2; by eapply happen_inv).
  eapply (returns_by_quietly _ (cost l2)); [|  |by apply joining_returns].
  - eapply quietly_trans; (eapply quietly_event; [|eassumption]; done).
  - assert (cost l2 = t + upkeep_left join_takes l1 + pools_take (manager_pools (p_manager (loop_process l))))%Z as ->.
    { unfold l2. destruct (decide _); unfold cost, main_left; cbn; unfold upkeep_left; cbn; lia. }
    assert (upkeep_left join_takes l1 ≤ upkeep_left join_takes l)%Z by
      (unfold upkeep_left; cbn; destruct (upkeep l) as [|? []| | |]; cbn; lia).
    unfold cost, main_left. rewrite Hat. lia.
Qed.

Lemma accepting_returns l : loop_inv l → at_ l = At.Accepting → returns_by (cost l + DRAIN_DEADLINE) l.
Proof.
  intros Hi Hat. set (l1 := goto (At.Draining (loop_now l + DRAIN_DEADLINE)) l).
  assert (event LoopEvent.Signalled l = Some l1) as H1 by (unfold happen; by rewrite Hat).
  eapply returns_by_quietly; [eapply quietly_event; [|exact H1]; done| |eapply draining_returns; [by eapply happen_inv|done]].
  unfold cost, main_left, upkeep_left. cbn. rewrite Hat. unfold DRAIN_DEADLINE, from_secs, nanos_per_sec. lia.
Qed.

Lemma pausing_returns l until :
  loop_inv l → at_ l = At.Pausing until → returns_by (cost l + ACCEPT_PAUSE + DRAIN_DEADLINE) l.
Proof.
  intros Hi Hat. pose proof (inv_waits _ Hi) as Hw. rewrite Hat in Hw.
  set (t := Z.max (loop_now l) until). set (l1 := with_now t l).
  assert (event (LoopEvent.Passed t) l = Some l1) as H1 by (unfold happen; rewrite Hat; by rewrite decide_True by lia).
  assert (event LoopEvent.PauseOver l1 = Some (goto At.Accepting l1)) as H2.
  { unfold happen. change (at_ l1) with (at_ l). rewrite Hat. change (loop_now l1) with t. by rewrite decide_True by lia. }
  assert (loop_inv (goto At.Accepting l1)) as Hi2 by (eapply happen_inv, H2; by eapply happen_inv).
  eapply returns_by_quietly; [| |by apply accepting_returns].
  - eapply quietly_trans; (eapply quietly_event; [|eassumption]; done).
  - assert (upkeep_left join_takes l1 ≤ upkeep_left join_takes l)%Z by
      (unfold upkeep_left; cbn; destruct (upkeep l) as [|? []| | |]; cbn; lia).
    unfold cost, main_left, upkeep_left in *. cbn in *. rewrite Hat.
    assert (0 < ACCEPT_PAUSE)%Z by (vm_compute; done). lia.
Qed.

Lemma loop_returns l :
  loop_inv l → at_ l ≠ At.Returned → returns_by (cost l + ACCEPT_PAUSE + DRAIN_DEADLINE) l.
Proof.
  intros Hi Hnr. assert (0 < ACCEPT_PAUSE ∧ 0 < DRAIN_DEADLINE)%Z as [HA HD] by (vm_compute; done).
  destruct (at_ l) as [|until|deadline| |r until|] eqn:Hat; [..|done].
  - eapply returns_by_quietly; [apply quietly_refl| |by apply accepting_returns]. lia.
  - by eapply pausing_returns.
  - eapply returns_by_quietly; [apply quietly_refl| |by eapply draining_returns].
    pose proof (inv_waits _ Hi) as Hw. rewrite Hat in Hw. lia.
  - eapply returns_by_quietly; [apply quietly_refl| |by apply joining_returns]. lia.
  - eapply returns_by_quietly; [apply quietly_refl| |by eapply shutting_down_returns]. lia.
Qed.
End Finishing.

(** ** What the connections may do *)

Definition is_served (ev : LoopEvent) : bool := match ev with LoopEvent.Served _ _ => true | _ => false end.

Section Allowed.
Context (fred_pool : PoolConfig → result unit string) (config : Config) (rl : RateLimiter) (has_jwt : bool).
Context (c : CacheParams) (quit_takes join_takes : nat → N).
Abbreviation event := (happen rl has_jwt quit_takes join_takes).
Abbreviation events := (happen_all rl has_jwt quit_takes join_takes).

(** A connection does to the shared state what the components allow; the
    limiter is swept in an order of its buckets. *)
Definition event_allowed (ev : LoopEvent) (l : Loop) : Prop :=
  match ev with
  | LoopEvent.Served _ p => process_step fred_pool config rl c (loop_process l) p
  | LoopEvent.Maintained what => chore_ok what (loop_process l)
  | _ => True
  end.

Definition loop_step (l l' : Loop) : Prop := ∃ ev, event_allowed ev l ∧ event ev l = Some l'.

Fixpoint run_allowed (evs : list LoopEvent) (l : Loop) : Prop :=
  match evs with
  | [] => True
  | ev :: evs => event_allowed ev l ∧ match event ev l with Some l' => run_allowed evs l' | None => True end
  end.

(** Whatever happens in the loop is a number of steps of the components. *)
Lemma loop_step_process l l' :
  loop_step l l' → rtc (process_step fred_pool config rl c) (loop_process l) (loop_process l').
Proof.
  intros (ev & Hev & Hmv%happen_moved). destruct Hmv; try done; cbn in Hev |- *.
  - by apply rtc_once.
  - by eapply maintenance_turn_steps.
  - by eapply with_manager_steps, shutdown_turn_step.
Qed.

Theorem loop_keeps_process p now l :
  RateLimit.params_ok rl → (∀ name q, pools config !! name = Some q → in_u64 (max_waiters q)) →
  process_ok config rl c p → rtc loop_step (loop_start p now) l → process_ok config rl c (loop_process l).
Proof.
  intros Hrl Hw Hp Hrun. change p with (loop_process (loop_start p now)) in Hp.
  induction Hrun as [|l1 l2 l3 H1 _ IH]; [done|]. apply IH.
  eapply (process_steps_ok fred_pool config); [done..|exact (loop_step_process _ _ H1)].
Qed.

(** The entries that existed when the shutdown began are gone at its end. *)
Lemma happen_all_left K evs l l' :
  loop_inv l → events evs l = Some l' → is_Some (pools_left (at_ l)) → left_named K l →
  (∀ ev evs1 evs2 l1 l2, evs = evs1 ++ ev :: evs2 → events evs1 l = Some l1 → event ev l1 = Some l2 →
     ∀ id p names, ev = LoopEvent.Served id p → still_named K names (loop_process l1) → still_named K names p) →
  left_named K l'.
Proof.
  revert l. induction evs as [|ev evs IH]; intros l Hi H Hs Hl Hserved; [by simplify_eq/=|].
  cbn in H. destruct (event ev l) as [l1|] eqn:H1; [|done]. pose proof (happen_moved _ _ _ _ _ _ _ H1) as Hm.
  apply (IH l1); [by eapply happen_inv|done|by eapply pools_left_forward| |].
  - eapply happen_left; [done..|]. exact (Hserved ev [] evs l l1 eq_refl eq_refl H1).
  - intros ev' evs1 evs2 l2 l3 -> H2 H3. apply (Hserved ev' (ev :: evs1) evs2 l2 l3); [done| |done].
    cbn. by rewrite H1.
Qed.

Lemma joined_left l names l' : event (LoopEvent.Joined names) l = Some l' →
  is_Some (pools_left (at_ l')) ∧ left_named (λ _, True) l' ∧ loop_process l' = loop_process l.
Proof.
  intros Hm%happen_moved. inversion Hm; subst. split_and!; [by eexists| |done].
  intros ns [= <-] name id Hid _. apply (elem_of_list_to_set (C := gset string)). cbn in *.
  match goal with E : list_to_set _ = _ |- _ => rewrite E end. by apply elem_of_dom_2 in Hid.
Qed.

(** An allowed run only adds entries. *)
Lemma run_allowed_dom evs l l' :
  run_allowed evs l → events evs l = Some l' →
  dom (heap (p_manager (loop_process l))) ⊆ dom (heap (p_manager (loop_process l'))).
Proof.
  revert l. induction evs as [|ev evs IH]; intros l Ha H; [by simplify_eq/=|].
  cbn in H, Ha. destruct (event ev l) as [l1|] eqn:H1; [|done]. destruct Ha as [Hev Ha].
  etrans; [|by eapply IH].
  assert (rtc (process_step fred_pool config rl c) (loop_process l) (loop_process l1)) as Hr
    by (apply loop_step_process; by exists ev).
  clear -Hr. induction Hr as [|p1 p2 p3 Hs _ IH]; [done|]. etrans; [|exact IH].
  apply (process_step_registered _ _ _ _ _ _ Hs).
Qed.

Lemma run_allowed_app evs1 ev evs2 l l1 :
  run_allowed (evs1 ++ ev :: evs2) l → events evs1 l = Some l1 →
  run_allowed evs1 l ∧ event_allowed ev l1 ∧ ∀ l2, event ev l1 = Some l2 → run_allowed evs2 l2.
Proof.
  revert l. induction evs1 as [|ev1 evs1 IH]; intros l Ha H; cbn in *.
  - simplify_eq. split_and!; [done|apply Ha|]. intros l2 H2. rewrite H2 in Ha. apply Ha.
  - destruct (event ev1 l) as [l0|] eqn:H0; [|done]. destruct Ha as [Hev Ha]. naive_solver.
Qed.

Lemma joined_run p now evs1 names evs2 l1 l :
  events evs1 (loop_start p now) = Some l1 → events (LoopEvent.Joined names :: evs2) l1 = Some l →
  ∃ l0, event (LoopEvent.Joined names) l1 = Some l0 ∧ events evs2 l0 = Some l ∧ loop_inv l0.
Proof.
  intros H1 H2. cbn [happen_all] in H2. destruct (event (LoopEvent.Joined names) l1) as [l0|] eqn:H0; [|done].
  exists l0. split_and!; [done..|]. eapply happen_inv, H0. eapply happen_all_inv, H1. apply loop_start_inv.
Qed.

(** At the end there is no entry at all if no connection acted meanwhile. *)
Lemma joined_undisturbed p now evs1 names evs2 l1 l :
  events evs1 (loop_start p now) = Some l1 → events (LoopEvent.Joined names :: evs2) l1 = Some l → at_ l = At.Returned →
  existsb is_served evs2 = false → manager_pools (p_manager (loop_process l)) = ∅.
Proof.
  intros H1 H2 Hat Hserved. destruct (joined_run _ _ _ _ _ _ _ H1 H2) as (l0 & H0 & H3 & Hi).
  destruct (joined_left _ _ _ H0) as (Hs & Hl & Hp).
  apply map_empty. intros name. apply eq_None_not_Some. intros [id Hid].
  assert (left_named (λ _, True) l) as Hleft.
  { eapply happen_all_left; [done..|]. intros ev ea eb la lb -> _ _ id' p' ns -> _.
    rewrite existsb_app in Hserved. cbn in Hserved. by rewrite orb_true_r in Hserved. }
  unfold left_named in Hleft. rewrite Hat in Hleft.
  by apply (elem_of_nil (A := string) name), (Hleft _ eq_refl name id Hid).
Qed.

(** Otherwise there is none of those the shutdown began with. *)
Lemma joined_disturbed p now evs1 names evs2 l1 l :
  events evs1 (loop_start p now) = Some l1 → events (LoopEvent.Joined names :: evs2) l1 = Some l → at_ l = At.Returned →
  run_allowed (LoopEvent.Joined names :: evs2) l1 →
  ∀ name id, manager_pools (p_manager (loop_process l)) !! name = Some id →
    heap (p_manager (loop_process l1)) !! id = None.
Proof.
  intros H1 H2 Hat Ha name id Hid. destruct (joined_run _ _ _ _ _ _ _ H1 H2) as (l0 & H0 & H3 & Hi).
  destruct (joined_left _ _ _ H0) as (Hs & Hl & Hp).
  cbn [run_allowed] in Ha. destruct Ha as [_ Ha]. rewrite H0 in Ha. apply not_elem_of_dom. rewrite <- Hp. intros Hin.
  assert (left_named (.∈ dom (heap (p_manager (loop_process l0)))) l) as Hleft.
  { eapply happen_all_left; [done..| |].
    { intros ns Hns n i Hi' _. by eapply Hl. }
    intros ev ea eb la lb -> Hla Hlb id' p' ns -> Hn.
    destruct (run_allowed_app _ _ _ _ _ Ha Hla) as (Haa & Hev & _). cbn in Hev.
    eapply still_named_meanwhile; [|exact Hev|done]. intros i. by apply (run_allowed_dom _ _ _ Haa Hla). }
  unfold left_named in Hleft. rewrite Hat in Hleft.
  by apply (elem_of_nil (A := string) name), (Hleft _ eq_refl name id Hid).
Qed.
End Allowed.

(** ** The property *)

(** C24. The shutdown is orderly and completes.  In every run of the accept
    loop, maintenance and the shutdown of the pools going from await to await:
    the maintenance task ends only after it was told to, it is told to only when
    no connection is open or the deadline was reported, and the pools are shut
    down only after the task has ended.  When [main] has returned no pool is left
    if the deadline was kept, and none if it passed but the connections left over
    did nothing while the pools were shut down; whatever they did, a pool that is
    left was built during the shutdown.  Once the signal was taken the listener
    stays closed and no connection is added.  And from any state, whatever the
    connections did, [main] can return by events of its own, of the maintenance
    task and of the clock only, within the pause after a failed accept, the
    fifteen seconds of the deadline, what is left of the awaits that have begun,
    and the time Fred takes to quit the pools that are in the map and to end
    their connection tasks. *)
Theorem shutdown_is_orderly (rl : RateLimiter) (has_jwt : bool) (quit_takes join_takes : nat → N)
    (p : Process) (now : Z) (evs : list LoopEvent) (l : Loop)
    (Hrun : happen_all rl has_jwt quit_takes join_takes evs (loop_start p now) = Some l) :
  (maintenance_runs l = false → stop_sent l = true) ∧
  (stop_sent l = true → open_connections l = ∅ ∨ overran l = true) ∧
  (is_Some (pools_left (at_ l)) → maintenance_runs l = false) ∧
  (at_ l = At.Returned → overran l = false → manager_pools (p_manager (loop_process l)) = ∅) ∧
  (∀ evs1 names evs2 l1, evs = evs1 ++ LoopEvent.Joined names :: evs2 →
     happen_all rl has_jwt quit_takes join_takes evs1 (loop_start p now) = Some l1 → at_ l = At.Returned →
     (existsb is_served evs2 = false → manager_pools (p_manager (loop_process l)) = ∅) ∧
     (∀ fred_pool config c, run_allowed fred_pool config rl has_jwt c quit_takes join_takes evs (loop_start p now) →
        ∀ name id, manager_pools (p_manager (loop_process l)) !! name = Some id →
          heap (p_manager (loop_process l1)) !! id = None)) ∧
  (∀ evs1 evs2, evs = evs1 ++ LoopEvent.Signalled :: evs2 →
     listening l = false ∧
     ∃ l1, happen_all rl has_jwt quit_takes join_takes evs1 (loop_start p now) = Some l1 ∧
       accepted_connections l = accepted_connections l1 ∧ open_connections l ⊆ open_connections l1) ∧
  (at_ l ≠ At.Returned →
     ∃ more l', forallb (negb ∘ of_connection) more = true ∧
       happen_all rl has_jwt quit_takes join_takes more l = Some l' ∧ at_ l' = At.Returned ∧
       (loop_now l' ≤ loop_now l + ACCEPT_PAUSE + DRAIN_DEADLINE + main_left join_takes l + upkeep_left join_takes l
          + pools_take quit_takes join_takes (manager_pools (p_manager (loop_process l))))%Z).
Proof.
  pose proof (happen_all_inv _ _ _ _ _ _ _ (loop_start_inv p now) Hrun) as Hinv. split_and!.
  - apply (inv_maintenance _ Hinv).
  - intros Hs. destruct (overran l) eqn:Ho; [by right|left]. by apply (inv_drained _ Hinv).
  - apply (inv_joined _ Hinv).
  - intros Hr Ho. apply map_empty. intros name. apply eq_None_not_Some. intros [id Hid].
    apply (elem_of_nil (A := string) name). eapply (inv_left _ Hinv Ho); [by rewrite Hr|exact Hid|done].
  - intros evs1 names evs2 l1 -> H1 Hat. rewrite events_app, H1 in Hrun.
    split; [by eapply joined_undisturbed|]. intros fred_pool config c Ha.
    destruct (run_allowed_app _ _ _ _ _ _ _ _ _ _ _ _ Ha H1) as (_ & _ & Ha2).
    eapply (joined_disturbed fred_pool config rl has_jwt c); [done..|].
    split; [done|]. destruct (happen _ _ _ _ _ l1) as [l2|]; [by apply Ha2|done].
  - intros evs1 evs2 ->. rewrite events_app in Hrun.
    destruct (happen_all rl has_jwt quit_takes join_takes evs1 (loop_start p now)) as [l1|]; [|done].
    cbn [mbind option_bind happen_all] in Hrun.
    destruct (happen rl has_jwt quit_takes join_takes LoopEvent.Signalled l1) as [l2|] eqn:H2; [|done].
    apply happen_moved in H2. inversion H2; subst.
    destruct (happen_all_forward _ _ _ _ _ _ _ Hrun) as (Hr & Ha & Ho); [cbn; lia|].
    split; [unfold listening; destruct (at_ l); cbn in Hr; done || lia|]. exists l1. by split_and!.
  - intros Hnr. destruct (loop_returns rl has_jwt quit_takes join_takes l Hinv Hnr) as (l' & (more & Hq & Hm) & Hr & Hn).
    exists more, l'. split_and!; try done. unfold cost in Hn. lia.
Qed.

(** ** Witness *)

(** A server with one pool, whose only connection outlives the deadline. *)
Definition demo_process : Process := mkProcess limiter_init (mkCacheSys cache_init ∅ 0) sample_manager.

Definition demo_until_quit : list LoopEvent :=
  [ LoopEvent.Accepted true; LoopEvent.AcceptFailed; LoopEvent.Passed (from_millis 100); LoopEvent.PauseOver;
    LoopEvent.Maintained (Chore.Ticked 0 ["default"]); LoopEvent.Signalled; LoopEvent.Passed (from_secs 16);
    LoopEvent.Drained; LoopEvent.Maintained Chore.Evicts; LoopEvent.Maintained Chore.Evicts;
    LoopEvent.Maintained (Chore.SweptLimiter 0 []); LoopEvent.Maintained (Chore.Changed (Some true));
    LoopEvent.Joined ["default"]; LoopEvent.ShutDown ].
Definition demo_after_quit : list LoopEvent :=
  [ LoopEvent.Passed (from_secs 18); LoopEvent.ShutDown; LoopEvent.Passed (from_secs 19); LoopEvent.ShutDown;
    LoopEvent.ShutDown ].
Definition demo_run (meanwhile : list LoopEvent) : option Loop :=
  happen_all (limiter_new 0) false (λ _, 2000000000%N) (λ _, 1000000000%N)
    (demo_until_quit ++ meanwhile ++ demo_after_quit) (loop_start demo_process 0).

Lemma shutdown_is_orderly_witness :
  manager_pools (p_manager demo_process) ≠ ∅ ∧
  match demo_run [] with
  | Some l => overran l = true ∧ at_ l = At.Returned ∧ loop_now l = from_secs 19 ∧
      manager_pools (p_manager (loop_process l)) = ∅
  | None => False
  end.
Proof.
  split; [by vm_compute|].
  destruct (demo_run []) as [l|] eqn:H.
  - pose proof (shutdown_is_orderly (limiter_new 0) false (λ _, 2000000000%N) (λ _, 1000000000%N) demo_process
      0 _ l H) as (_ & _ & _ & _ & Hleft & _).
    destruct (happen_all (limiter_new 0) false (λ _, 2000000000%N) (λ _, 1000000000%N) (take 12 demo_until_quit)
      (loop_start demo_process 0)) as [l1|] eqn:H1; [|vm_compute in H1; discriminate H1].
    assert (overran l = true ∧ at_ l = At.Returned ∧ loop_now l = from_secs 19) as (Ho & Ha & Hn)
      by (vm_compute in H; injection H as <-; done).
    split_and!; [done..|].
    by apply (Hleft (take 12 demo_until_quit) ["default"] (LoopEvent.ShutDown :: demo_after_quit) l1 eq_refl H1 Ha).
  - vm_compute in H. discriminate H.
Defined.

(** The pool that is left when the connection, which was not drained in time,
    acquires a client while Fred quits: the comment on [PoolManager::shutdown]
    says that every constructed pool is stopped. *)
Definition demo_quitting : option Loop :=
  happen_all (limiter_new 0) false (λ _, 2000000000%N) (λ _, 1000000000%N) demo_until_quit (loop_start demo_process 0).
Definition demo_rebuilt (p : Process) : Process :=
  with_manager (manager_acquire (λ _, Ok tt) sample_config 0 0 "default" (p_manager p)).2 p.

Lemma overrun_connection_rebuilds_a_pool c :
  match demo_quitting with
  | Some l1 =>
      event_allowed (λ _, Ok tt) sample_config (limiter_new 0) c (LoopEvent.Served 0 (demo_rebuilt (loop_process l1))) l1 ∧
      match demo_run [LoopEvent.Served 0 (demo_rebuilt (loop_process l1))] with
      | Some l => at_ l = At.Returned ∧ manager_pools (p_manager (loop_process l)) ≠ ∅
      | None => False
      end
  | None => False
  end.
Proof.
  destruct demo_quitting as [l1|] eqn:H1; [|by vm_compute in H1]. split.
  - apply ps_manager. eapply manager_step_acquire. apply surjective_pairing.
  - vm_compute in H1. injection H1 as <-. by vm_compute.
Qed.
