(* ===== verification/Profile.v ===== *)
(** * The profiling harness: [src/src/bin/profile-inproc.rs]

    The harness serves the router in process with an executor that always
    gives the same reply, and drives keep-alive connections to it with a
    hand-written HTTP client.  Here: the constant executor as one more
    implementation of the executor interface, the command line, the request
    the client writes, and the client's loop, which finds the end of each
    response in a stream that arrives in arbitrary pieces.  The runtimes and
    the duplex transport are the runtime's; what a read of the transport gives
    is an argument of [drive]. *)
From stdpp Require Import pretty.
From S2P Require Import Prelude Domain Utf8 Config RateLimit Ports Auth Executors.

(** ** The constant executor *)

Record ConstExecutor : Type := mkConst { const_reply : RespValue }.

Definition const_execute (_command : RedisCommand) (x : ConstExecutor) :
    result RespValue ExecError * ConstExecutor :=
  (Ok (const_reply x), x).

Definition const_pipeline (commands : list RedisCommand) (x : ConstExecutor) :
    list (result RespValue ExecError) * ConstExecutor :=
  ((λ _, Ok (const_reply x)) <$> commands, x).

Definition const_transaction (commands : list RedisCommand) (x : ConstExecutor) :
    result (list (result RespValue ExecError)) ExecError * ConstExecutor :=
  (Ok ((λ _, Ok (const_reply x)) <$> commands), x).

#[export] Instance const_executor : CommandExecutor ConstExecutor :=
  {| execute := const_execute; pipeline := const_pipeline; transaction := const_transaction |}.

(** [ConstProvider]: every pool has the one executor, and none is reported. *)
Record ConstProvider : Type := mkConstProvider { provider_executor : ConstExecutor }.

Definition const_acquire (p : ConstProvider) (_pool : string) : result ConstExecutor AcquireError :=
  Ok (provider_executor p).

Definition const_readiness (p : ConstProvider) : list PoolReadiness := [].

(** ** The command line *)

Record Args : Type := mkArgs {
  arg_duration : Z;
  arg_connections : Z;
  arg_config_path : string;
  arg_token : string;
  arg_body : string;
  arg_path : string;
  arg_reply : string;
  arg_server_threads : Z;
  arg_loadgen_threads : Z;
}.

(** The body of the default request; a byte of the value 34 is a quote. *)
Definition quoted (s : string) : string := String "034" (s +:+ String "034" EmptyString).

Definition args_default : Args :=
  mkArgs (from_secs 30) 32 "profiling/config.json" "phase9-load-token"
    ("[" +:+ quoted "GET" +:+ "," +:+ quoted "load:key" +:+ "]") "/" "phase9-value" 0 0.

(** How [Args::parse] ends: it returns, prints the usage and exits, or panics. *)
Module Parsed.
Inductive Parsed : Type :=
| Run (args : Args)
| Usage
| Panic (message : string).
End Parsed.
Abbreviation Parsed := Parsed.Parsed.

Section CommandLine.
(** [Duration::from_secs_f64] of the parsed number, [None] where either fails. *)
Context (parse_secs_f64 : string → option Z).

Definition count (message : string) (v : string) : result Z string :=
  map_err (λ _, message) (parse_unsigned usize_max v).

(** The arms of the match that take a value. *)
Definition flag_setter (flag : string) : option (string → Args → result Args string) :=
  if String.eqb flag "--duration" then Some (λ v '(mkArgs _ n cp tk bd pt rp st lt),
    let? d := ok_or "--duration must be seconds" (parse_secs_f64 v) in Ok (mkArgs d n cp tk bd pt rp st lt))
  else if String.eqb flag "--connections" then Some (λ v '(mkArgs d _ cp tk bd pt rp st lt),
    let? n := count "--connections must be a count" v in Ok (mkArgs d n cp tk bd pt rp st lt))
  else if String.eqb flag "--config" then Some (λ v '(mkArgs d n _ tk bd pt rp st lt),
    Ok (mkArgs d n v tk bd pt rp st lt))
  else if String.eqb flag "--token" then Some (λ v '(mkArgs d n cp _ bd pt rp st lt),
    Ok (mkArgs d n cp v bd pt rp st lt))
  else if String.eqb flag "--body" then Some (λ v '(mkArgs d n cp tk _ pt rp st lt),
    Ok (mkArgs d n cp tk v pt rp st lt))
  else if String.eqb flag "--path" then Some (λ v '(mkArgs d n cp tk bd _ rp st lt),
    Ok (mkArgs d n cp tk bd v rp st lt))
  else if String.eqb flag "--reply" then Some (λ v '(mkArgs d n cp tk bd pt _ st lt),
    Ok (mkArgs d n cp tk bd pt v st lt))
  else if String.eqb flag "--server-threads" then Some (λ v '(mkArgs d n cp tk bd pt rp _ lt),
    let? st := count "--server-threads must be a count" v in Ok (mkArgs d n cp tk bd pt rp st lt))
  else if String.eqb flag "--loadgen-threads" then Some (λ v '(mkArgs d n cp tk bd pt rp st _),
    let? lt := count "--loadgen-threads must be a count" v in Ok (mkArgs d n cp tk bd pt rp st lt))
  else None.

(** [Args::parse] over the arguments after the program's name. *)
Fixpoint args_parse (args : Args) (raw : list string) : Parsed :=
  match raw with
  | [] =>
      if decide (0 < arg_connections args)%Z then Parsed.Run args
      else Parsed.Panic "--connections must be positive"
  | flag :: raw =>
      if contains ["--help"; "-h"] flag then Parsed.Usage
      else match flag_setter flag with
      | None => Parsed.Panic ("unknown flag " +:+ flag)
      | Some set =>
          match raw with
          | [] => Parsed.Panic ("flag " +:+ flag +:+ " requires a value")
          | v :: raw =>
              match set v args with
              | Ok args => args_parse args raw
              | Err message => Parsed.Panic message
              end
          end
      end
  end.
End CommandLine.

(** ** The state it serves *)

(** What [build_state] puts behind the router: the configuration, the static
    tokens, the limiter and the provider. *)
Record ProfileState : Type := mkProfileState {
  state_config : Config;
  state_identities : gmap string Identity;
  state_limiter : RateLimiter;
  state_provider : ConstProvider;
}.

(** [build_state] for what [Config::from_path] and [validate] give. *)
Definition build_state (from_path : string → result Config ConfigError)
    (validate : Config → result unit ConfigError) (args : Args) : result ProfileState ConfigError :=
  let? config := from_path (arg_config_path args) in
  let? _ := validate config in
  Ok (mkProfileState config (static_auth_new (static_tokens (auth config)))
        (limiter_new (per_token_commands_per_sec (rate_limit (server config))))
        (mkConstProvider (mkConst (RespValue.Bulk (arg_reply args))))).

(** ** The request *)

Definition CR : ascii := "013".
Definition LF : ascii := "010".
Definition CRLF : string := String CR (String LF EmptyString).

Definition request_bytes (args : Args) : bytes :=
  "POST " +:+ arg_path args +:+ " HTTP/1.1" +:+ CRLF +:+
  "Host: profile.invalid" +:+ CRLF +:+
  "Authorization: Bearer " +:+ arg_token args +:+ CRLF +:+
  "Content-Type: application/json" +:+ CRLF +:+
  "Content-Length: " +:+ pretty (N.of_nat (String.length (arg_body args))) +:+ CRLF +:+
  "Connection: keep-alive" +:+ CRLF +:+ CRLF +:+ arg_body args.

(** ** Reading a response *)

(** [windows(4).position(..)]: the first place the pattern starts. *)
Fixpoint position (pat s : string) : option nat :=
  if String.prefix pat s then Some O
  else match s with EmptyString => None | String _ s => S <$> position pat s end.

Definition find_head_end (buffer : bytes) : option nat :=
  (λ start, start + 4) <$> position (CRLF +:+ CRLF) buffer.

(** [str::lines]: a line ends at a line feed, with the carriage return before
    it if there is one, or at the end of the text. *)
Fixpoint lines (s : string) : list string :=
  match s with
  | EmptyString => []
  | String c rest =>
      if Ascii.eqb c LF then EmptyString :: lines rest
      else
        let longer := match lines rest with [] => [String c EmptyString] | l :: ls => String c l :: ls end in
        if Ascii.eqb c CR then
          match rest with
          | String d rest' => if Ascii.eqb d LF then EmptyString :: lines rest' else longer
          | EmptyString => longer
          end
        else longer
  end.

(** [str::split_once]. *)
Fixpoint split_once (sep : ascii) (s : string) : option (string * string) :=
  match s with
  | EmptyString => None
  | String c s =>
      if Ascii.eqb c sep then Some (EmptyString, s)
      else (λ '(a, b), (String c a, b)) <$> split_once sep s
  end.

(** [str::trim], on the characters of a valid text. *)
Definition trim (s : string) : string :=
  concat_string (rev (drop_while is_whitespace (rev (drop_while is_whitespace (chars s))))).

(** The closure of [find_map]. *)
Definition content_length_line (line : string) : option Z :=
  match split_once ":" line with
  | None => None
  | Some (name, value) =>
      if eq_ignore_ascii_case (trim name) "content-length" then
        match parse_unsigned usize_max (trim value) with Ok n => Some n | Err _ => None end
      else None
  end.

Definition parse_content_length (head : bytes) : Z :=
  let head := if valid_utf8 head then head else EmptyString in
  default 0%Z (List.hd_error (omap content_length_line (lines head))).

(** What [client.read] gives: some bytes, none at the end of the stream, or an
    error. *)
Module Read.
Inductive Read : Type :=
| Chunk (b : bytes)
| Failure.
End Read.
Abbreviation Read := Read.Read.

(** How the inner loop of [drive] ends for the reads so far: a response is
    complete with some reads left, the connection failed, or the client waits
    for more. *)
Module Reading.
Inductive Reading : Type :=
| Complete (rest : list Read)
| Failed
| Waiting (buffer : bytes).
End Reading.
Abbreviation Reading := Reading.Reading.

(** The inner loop of [drive]; a release build wraps the sum. *)
Fixpoint read_response (head_end : option nat) (content_length : Z) (buffer : bytes) (reads : list Read) :
    Reading :=
  let '(head_end, content_length) :=
    match head_end with
    | None =>
        match find_head_end buffer with
        | Some position => (Some position, parse_content_length (String.substring 0 position buffer))
        | None => (None, content_length)
        end
    | Some _ => (head_end, content_length)
    end in
  let complete :=
    match head_end with
    | Some position =>
        bool_decide (wrapping_add (Z.of_nat position) content_length ≤ Z.of_nat (String.length buffer))%Z
    | None => false
    end in
  if complete then Reading.Complete reads
  else match reads with
  | [] => Reading.Waiting buffer
  | Read.Failure :: _ | Read.Chunk EmptyString :: _ => Reading.Failed
  | Read.Chunk b :: reads => read_response head_end content_length (buffer +:+ b) reads
  end.

(** The shared counters. *)
Record Counters : Type := mkCounters { completed : Z; failed : Z }.

Definition count_completed (c : Counters) : Counters := mkCounters (wrapping_add (completed c) 1) (failed c).
Definition count_failed (c : Counters) : Counters := mkCounters (completed c) (wrapping_add (failed c) 1).

(** [drive] over its turns, each with what [stop] reads and whether the write
    succeeds, and the reads of the connection; the result tells whether the
    driver has returned. *)
Fixpoint drive (turns : list (bool * bool)) (reads : list Read) (c : Counters) : Counters * bool :=
  match turns with
  | [] => (c, false)
  | (true, _) :: _ => (c, true)
  | (false, false) :: _ => (count_failed c, true)
  | (false, true) :: turns =>
      match read_response None 0 EmptyString reads with
      | Reading.Complete rest => drive turns rest (count_completed c)
      | Reading.Failed => (count_failed c, true)
      | Reading.Waiting _ => (c, false)
      end
  end.

(** ** Running it *)

(** The threads of a runtime: the argument, or half of what is available. *)
Definition div_ceil (a b : Z) : Z := ((a + b - 1) / b)%Z.
Definition runtime_threads (requested available : Z) : Z :=
  if decide (0 < requested)%Z then requested else div_ceil available 2.

(** The port of the peer of a connection: [u16::try_from] or 40000. *)
Definition peer_port (index : Z) : Z :=
  let p := (40000 + index mod 20000)%Z in
  if decide (0 ≤ p ≤ u16_max)%Z then p else 40000.

(** The number of requests between two readings of the counter, and the final
    assertion on the failures. *)
Definition measure (baseline completed_now failures : Z) : result Z string :=
  let measured := ((completed_now - baseline) mod 2 ^ 64)%Z in
  if decide (failures = 0%Z) then Ok measured else Err "in-process harness must not drop connections".

(** ** The constant executor is lawful *)

#[export] Instance const_lawful : LawfulExecutor ConstExecutor.
Proof. split; [intros cmds x; apply length_fmap|done|done]. Qed.

(** ** Strings *)

Lemma append_assoc (a b c : string) : (a +:+ b) +:+ c = a +:+ (b +:+ c).
Proof. induction a as [|x a IH]; [done|]. unfold String.append in *. cbn. by rewrite IH. Qed.

Lemma append_cons x (a b : string) : String x a +:+ b = String x (a +:+ b).
Proof. done. Qed.

Lemma append_empty (a : string) : a +:+ EmptyString = a.
Proof. induction a as [|x a IH]; [done|]. by rewrite append_cons, IH. Qed.

(** The characters of a string, as a predicate on each. *)
Definition every (P : ascii → Prop) (s : string) : Prop := Forall P (String.list_ascii_of_string s).

Lemma every_cons P x s : every P (String x s) ↔ P x ∧ every P s.
Proof. apply Forall_cons. Qed.

(** A text with neither carriage return nor line feed. *)
Definition one_line (s : string) : Prop := every (λ c, c ≠ CR ∧ c ≠ LF) s.

Lemma substring_append (a b : string) : String.substring 0 (String.length a) (a +:+ b) = a.
Proof.
  induction a as [|x a IH]; [by destruct b|]. rewrite append_cons. cbn. by rewrite IH.
Qed.

(** ** Framing *)

Lemma prefix_cons_ne p q (a b : ascii) : a ≠ b → String.prefix (String a p) (String b q) = false.
Proof. intros H. cbn. by destruct (ascii_dec a b). Qed.

Lemma prefix_cons_eq p q (a : ascii) : String.prefix (String a p) (String a q) = String.prefix p q.
Proof. cbn. by destruct (ascii_dec a a). Qed.

(** A line that does not have the pattern's first character is skipped. *)
Lemma position_skip pat x line s :
  every (λ c, c ≠ x) line →
  position (String x pat) (line +:+ s) = (λ n, String.length line + n) <$> position (String x pat) s.
Proof.
  induction line as [|y line IH]; intros H; [change (EmptyString +:+ s) with s; by destruct (position (String x pat) s)|].
  apply every_cons in H as [Hy Hl]. rewrite append_cons. cbn [position].
  rewrite prefix_cons_ne by congruence. rewrite IH by done. by destruct (position (String x pat) s).
Qed.

Lemma position_cons pat c s :
  String.prefix pat (String c s) = false → position pat (String c s) = S <$> position pat s.
Proof. intros H. cbn [position]. by rewrite H. Qed.

(** A line ending is not the end of the head when a line follows. *)
Lemma position_next_line y s :
  y ≠ CR → position (CRLF +:+ CRLF) (CRLF +:+ String y s) =
    (λ n, 2 + n) <$> position (CRLF +:+ CRLF) (String y s).
Proof.
  intros H1. unfold CRLF at 3. rewrite !append_cons. change (EmptyString +:+ String y s) with (String y s).
  rewrite position_cons.
  - rewrite position_cons; [by destruct (position _ (String y s))|done].
  - unfold CRLF. rewrite !append_cons, !prefix_cons_eq. by apply prefix_cons_ne.
Qed.

(** The end of a head: lines, then an empty line. *)
Lemma position_blank_line s : position (CRLF +:+ CRLF) (CRLF +:+ CRLF +:+ s) = Some 0.
Proof. by destruct s. Qed.

Lemma prefix_append pat s t :
  String.length pat ≤ String.length s → String.prefix pat (s +:+ t) = String.prefix pat s.
Proof.
  revert s. induction pat as [|c pat IH]; intros [|d s] H; cbn in H; [by destruct t|done|lia|].
  rewrite append_cons. cbn. destruct (ascii_dec c d); [apply IH; lia|done].
Qed.

Lemma prefix_length pat s : String.prefix pat s = true → String.length pat ≤ String.length s.
Proof.
  revert s. induction pat as [|c pat IH]; intros [|d s] H; cbn in *; [lia|lia|done|].
  destruct (ascii_dec c d); [apply IH in H; lia|done].
Qed.

Lemma position_bound pat s n : position pat s = Some n → n + String.length pat ≤ String.length s.
Proof.
  revert n. induction s as [|c s IH]; intros n H; cbn [position] in H;
    destruct (String.prefix pat _) eqn:Hp; simplify_eq; try (apply prefix_length in Hp; simpl in *; lia).
  destruct (position pat s) as [m|] eqn:Hm; simplify_eq/=. specialize (IH m eq_refl). lia.
Qed.

(** More input does not move the first occurrence. *)
Lemma position_append pat s t n : position pat s = Some n → position pat (s +:+ t) = Some n.
Proof.
  revert n. induction s as [|c s IH]; intros n H.
  { pose proof (position_bound _ _ _ H) as Hb. cbn in Hb. destruct pat; [|simpl in Hb; lia].
    assert (n = 0) as -> by (cbn in *; lia). by destruct t. }
  pose proof (position_bound _ _ _ H) as Hb. cbn [position] in H. rewrite append_cons. cbn [position].
  rewrite <- append_cons, prefix_append by lia.
  destruct (String.prefix pat (String c s)); [done|].
  destruct (position pat s) as [m|]; simplify_eq/=. by rewrite (IH m).
Qed.

Lemma find_head_end_append s t n : find_head_end s = Some n → find_head_end (s +:+ t) = Some n.
Proof.
  unfold find_head_end. intros (m & Hm & ->)%fmap_Some. by rewrite (position_append _ _ t _ Hm).
Qed.

Lemma find_head_end_bound s n : find_head_end s = Some n → n ≤ String.length s.
Proof.
  unfold find_head_end. intros (m & Hm & ->)%fmap_Some. apply position_bound in Hm. change (String.length (CRLF +:+ CRLF)) with 4 in Hm. lia.
Qed.

(** Two ways to cut one string. *)
Lemma append_cut (a b c d : string) :
  a +:+ b = c +:+ d →
  (∃ s, a = c +:+ s ∧ d = s +:+ b) ∨ (∃ s, s ≠ EmptyString ∧ c = a +:+ s ∧ b = s +:+ d).
Proof.
  revert c. induction a as [|x a IH]; intros [|y c] H.
  - left. by exists EmptyString.
  - right. by exists (String y c).
  - left. by exists (String x a).
  - rewrite !append_cons in H. simplify_eq. destruct (IH c) as [(s & -> & ->)|(s & ? & -> & ->)]; [done|..].
    + left. by exists s.
    + right. by exists s.
Qed.

(** ** Reading one response *)

Section Response.
Context (head body : string).
Hypothesis head_ends : find_head_end head = Some (String.length head).
Hypothesis length_given : parse_content_length head = Z.of_nat (String.length body).
Hypothesis fits : (Z.of_nat (String.length head + String.length body) ≤ usize_max)%Z.

(** What the loop knows of the response: nothing, or the end of its head and
    the length of its body. *)
Definition knows (head_end : option nat) (content_length : Z) : Prop :=
  head_end = None ∨
  head_end = Some (String.length head) ∧ content_length = Z.of_nat (String.length body).

Lemma sum_exact :
  wrapping_add (Z.of_nat (String.length head)) (Z.of_nat (String.length body)) =
  Z.of_nat (String.length head + String.length body).
Proof. unfold wrapping_add. unfold usize_max, u64_max in fits. rewrite Z.mod_small; lia. Qed.

(** Once the head is in the buffer the loop knows the response. *)
Lemma head_found s :
  find_head_end (head +:+ s) = Some (String.length head) ∧
  parse_content_length (String.substring 0 (String.length head) (head +:+ s)) =
    Z.of_nat (String.length body).
Proof. split; [by apply find_head_end_append|by rewrite substring_append]. Qed.

(** Before that, it does not. *)
Lemma head_not_found p s : s ≠ EmptyString → head = p +:+ s → find_head_end p = None.
Proof.
  intros Hs Hh. destruct (find_head_end p) as [n|] eqn:Hn; [exfalso|done].
  pose proof (find_head_end_bound _ _ Hn). apply (find_head_end_append _ s) in Hn.
  rewrite <- Hh, head_ends in Hn. apply (inj Some) in Hn.
  apply (f_equal String.length) in Hh. rewrite string_length_append in Hh. destruct s; [done|simpl in *; lia].
Qed.

(** With part of the response in the buffer, the loop reads on. *)
Lemma read_on head_end content_length buffer missing :
  knows head_end content_length → missing ≠ EmptyString → buffer +:+ missing = head +:+ body →
  ∃ head_end' content_length', knows head_end' content_length' ∧
    ∀ reads, read_response head_end content_length buffer reads =
      match reads with
      | [] => Reading.Waiting buffer
      | Read.Failure :: _ | Read.Chunk EmptyString :: _ => Reading.Failed
      | Read.Chunk b :: reads => read_response head_end' content_length' (buffer +:+ b) reads
      end.
Proof.
  intros Hk Hm Hb.
  assert (String.length buffer < String.length head + String.length body) as Hlt.
  { apply (f_equal String.length) in Hb. rewrite !string_length_append in Hb.
    destruct missing; [done|simpl in Hb; lia]. }
  destruct Hk as [->|[-> ->]].
  - destruct (append_cut _ _ _ _ Hb) as [(s & -> & _)|(s & Hs & Hh & _)].
    + destruct (head_found s) as [Hf Hp]. exists (Some (String.length head)), (Z.of_nat (String.length body)). split; [by right|]. intros reads.
      destruct reads as [|r reads]; cbn [read_response]; rewrite Hf, Hp, bool_decide_false
        by (rewrite sum_exact; lia); done.
    + exists None, content_length. split; [by left|]. intros reads.
      destruct reads as [|r reads]; cbn [read_response]; by rewrite (head_not_found _ _ Hs Hh).
  - exists (Some (String.length head)), (Z.of_nat (String.length body)). split; [by right|]. intros reads.
    destruct reads as [|r reads]; cbn [read_response]; rewrite bool_decide_false
      by (rewrite sum_exact; lia); done.
Qed.

(** With all of it, the loop ends. *)
Lemma read_complete head_end content_length reads :
  knows head_end content_length →
  read_response head_end content_length (head +:+ body) reads = Reading.Complete reads.
Proof.
  intros Hk. destruct (head_found body) as [Hf Hp].
  destruct Hk as [->|[-> ->]]; destruct reads; cbn [read_response]; rewrite ?Hf, ?Hp, bool_decide_true;
    rewrite ?sum_exact, ?string_length_append; done || lia.
Qed.

(** Any number of pieces. *)
Lemma read_pieces pieces head_end content_length buffer missing :
  knows head_end content_length → Forall (λ b, b ≠ EmptyString) pieces → missing ≠ EmptyString →
  buffer +:+ concat_string pieces +:+ missing = head +:+ body →
  ∃ head_end' content_length', knows head_end' content_length' ∧
    ∀ reads, read_response head_end content_length buffer ((Read.Chunk <$> pieces) ++ reads) =
      read_response head_end' content_length' (buffer +:+ concat_string pieces) reads.
Proof.
  revert head_end content_length buffer. induction pieces as [|b pieces IH]; intros he cl buffer Hk Hp Hm Hb.
  - exists he, cl. split; [done|]. intros reads. cbn [concat_string foldr]. by rewrite append_empty.
  - apply Forall_cons in Hp as [Hne Hp]. rewrite concat_string_cons, append_assoc in Hb.
    destruct (read_on he cl buffer (b +:+ concat_string pieces +:+ missing)) as (he' & cl' & Hk' & Hstep);
      [done|by destruct b|done|].
    rewrite <- append_assoc in Hb. destruct (IH he' cl' (buffer +:+ b)) as (he2 & cl2 & Hk2 & Hrest); [done..|].
    exists he2, cl2. split; [done|]. intros reads. cbn [fmap list_fmap app]. rewrite Hstep.
    rewrite concat_string_cons, <- append_assoc, <- Hrest. by destruct b.
Qed.
End Response.

(** A message: a head that ends at its first empty line and gives the length
    of the body. *)
Record message_ok (head body : bytes) : Prop := {
  ok_head : find_head_end head = Some (String.length head);
  ok_length : parse_content_length head = Z.of_nat (String.length body);
  ok_fits : (Z.of_nat (String.length head + String.length body) ≤ usize_max)%Z;
}.

(** The client finds the end of a response however it is cut into pieces: with
    all of it the response is complete and nothing of what follows was read;
    with part of it the client waits for more, and fails when the connection
    ends there. *)
Theorem response_framing head body pieces missing :
  message_ok head body → Forall (λ b, b ≠ EmptyString) pieces →
  concat_string pieces +:+ missing = head +:+ body →
  (missing = EmptyString → ∀ later,
     read_response None 0 EmptyString ((Read.Chunk <$> pieces) ++ later) = Reading.Complete later) ∧
  (missing ≠ EmptyString →
     read_response None 0 EmptyString (Read.Chunk <$> pieces) = Reading.Waiting (concat_string pieces) ∧
     ∀ e later, e ∈ [Read.Chunk EmptyString; Read.Failure] →
       read_response None 0 EmptyString ((Read.Chunk <$> pieces) ++ e :: later) = Reading.Failed).
Proof.
  intros [Hh Hl Hf] Hp Hb. assert (knows head body None 0) as Hk by by left. split.
  - intros -> later. destruct pieces as [|last init _] using rev_ind.
    { rewrite !append_empty in Hb. apply (f_equal String.length) in Hb. rewrite string_length_append in Hb.
      cbn in Hb. destruct head; [by cbn in Hh|simpl in Hb; lia]. }
    apply Forall_app in Hp as [Hi [Hne _]%Forall_cons].
    assert (concat_string (init ++ [last]) = concat_string init +:+ last) as Hc.
    { clear. induction init as [|b init IH]; [apply append_empty|].
      cbn [app]. by rewrite !concat_string_cons, IH, append_assoc. }
    rewrite append_empty, Hc in Hb.
    destruct (read_pieces head body Hh Hl Hf init None 0 EmptyString last) as (he & cl & Hk1 & Hr); [done..|].
    rewrite fmap_app, <- app_assoc, Hr. cbn [app fmap list_fmap].
    destruct (read_on head body Hh Hl Hf he cl (concat_string init) last) as (he' & cl' & Hk2 & Hs); [done..|].
    change (EmptyString +:+ concat_string init) with (concat_string init). rewrite Hs, Hb.
    destruct last; [done|]. by apply read_complete.
  - intros Hm. destruct (read_pieces head body Hh Hl Hf pieces None 0 EmptyString missing)
      as (he & cl & Hk1 & Hr); [done..|].
    change (EmptyString +:+ concat_string pieces) with (concat_string pieces) in Hr.
    destruct (read_on head body Hh Hl Hf he cl (concat_string pieces) missing) as (he' & cl' & Hk2 & Hs); [done..|].
    split; [by rewrite <- (app_nil_r (_ <$> _)), Hr, Hs|].
    intros e later He. rewrite Hr, Hs. set_solver.
Qed.

(** ** Driving a connection *)

Lemma iter_completed n c :
  (0 ≤ completed c < 2 ^ 64)%Z →
  completed (Nat.iter n count_completed c) = ((completed c + Z.of_nat n) mod 2 ^ 64)%Z ∧
  failed (Nat.iter n count_completed c) = failed c.
Proof.
  intros Hc. induction n as [|n [IH1 IH2]].
  - cbn [Nat.iter nat_rect]. rewrite Z.add_0_r, Z.mod_small; [done|lia].
  - change (Nat.iter (S n) count_completed c) with (count_completed (Nat.iter n count_completed c)).
    cbn [count_completed completed failed]. rewrite IH2. split; [|done]. unfold wrapping_add. rewrite IH1, Zplus_mod_idemp_l. f_equal. lia.
Qed.

(** The driver counts each response once, however the stream is cut, and the
    measured window reports their number. *)
Theorem drive_counts_responses (rs : list (bytes * bytes * list bytes)) turns later c :
  Forall (λ '(head, body, pieces), message_ok head body ∧ Forall (λ b, b ≠ EmptyString) pieces ∧
    concat_string pieces = head +:+ body) rs →
  (0 ≤ completed c < 2 ^ 64)%Z → (Z.of_nat (length rs) < 2 ^ 64)%Z → failed c = 0%Z →
  ∃ c', drive (replicate (length rs) (false, true) ++ turns) ((Read.Chunk <$> (rs ≫= snd)) ++ later) c =
          drive turns later c' ∧
        measure (completed c) (completed c') (failed c') = Ok (Z.of_nat (length rs)).
Proof.
  intros Hrs Hc Hn Hf. exists (Nat.iter (length rs) count_completed c). split.
  - clear Hc Hn Hf. revert c. induction Hrs as [|[[head body] pieces] rs (Hok & Hp & He) Hrs IH]; intros c; [done|].
    cbn [length replicate app drive]. rewrite bind_cons, fmap_app, <- app_assoc. cbn [snd].
    rewrite <- (append_empty (concat_string pieces)) in He.
    rewrite (proj1 (response_framing _ _ _ _ Hok Hp He) eq_refl). rewrite IH. f_equal.
    symmetry. apply Nat.iter_succ_r.
  - destruct (iter_completed (length rs) c Hc) as [-> ->]. unfold measure. rewrite decide_True by done.
    rewrite Zminus_mod_idemp_l. f_equal. rewrite Z.add_simpl_l. apply Z.mod_small. lia.
Qed.

(** ** Heads made of lines *)

Definition http_head (ls : list string) : string := foldr (λ l s, l +:+ CRLF +:+ s) CRLF ls.

Lemma position_skip_line l s :
  one_line l →
  position (CRLF +:+ CRLF) (l +:+ s) = (λ n, String.length l + n) <$> position (CRLF +:+ CRLF) s.
Proof. intros H. apply (position_skip _ CR). eapply Forall_impl; [exact H|]. by intros c [? _]. Qed.

Lemma position_http_head l ls :
  Forall (λ l, one_line l ∧ l ≠ EmptyString) (l :: ls) →
  position (CRLF +:+ CRLF) (http_head (l :: ls)) = Some (String.length (http_head (l :: ls)) - 4).
Proof.
  revert l. induction ls as [|l' ls IH]; intros l [[Hl _] Hls]%Forall_cons; cbn [http_head foldr];
    rewrite position_skip_line by done.
  - change (position _ (CRLF +:+ CRLF)) with (Some 0). rewrite !string_length_append.
    change (String.length CRLF) with 2. cbn [fmap option_fmap option_map]. f_equal. lia.
  - specialize (IH l' Hls). apply Forall_cons in Hls as [[Hl' Hne] _].
    destruct l' as [|y l']; [done|]. cbn [http_head foldr] in IH. rewrite append_cons in IH |- *.
    apply every_cons in Hl' as [[Hy _] _]. rewrite position_next_line, IH by done. cbn [fmap option_fmap option_map].
    rewrite !string_length_append. cbn [String.length]. rewrite !string_length_append.
    assert (2 ≤ String.length (foldr (λ l s, l +:+ CRLF +:+ s) CRLF ls)).
    { destruct ls; cbn [foldr]; rewrite ?string_length_append; cbn; lia. }
    change (String.length CRLF) with 2. f_equal. lia.
Qed.

Lemma find_http_head l ls :
  Forall (λ l, one_line l ∧ l ≠ EmptyString) (l :: ls) →
  find_head_end (http_head (l :: ls)) = Some (String.length (http_head (l :: ls))).
Proof.
  intros H. unfold find_head_end. rewrite position_http_head by done. cbn [fmap option_fmap option_map]. f_equal.
  cbn [http_head foldr]. rewrite !string_length_append. change (String.length CRLF) with 2.
  assert (2 ≤ String.length (foldr (λ l s, l +:+ CRLF +:+ s) CRLF ls)); [|lia].
  destruct ls; cbn [foldr]; rewrite ?string_length_append; cbn; lia.
Qed.

Lemma lines_line l s : one_line l → lines (l +:+ CRLF +:+ s) = l :: lines s.
Proof.
  induction l as [|c l IH]; intros H; [done|]. apply every_cons in H as [[H1 H2] Hl].
  rewrite append_cons. cbn [lines].
  rewrite (proj2 (Ascii.eqb_neq c LF)), (proj2 (Ascii.eqb_neq c CR)), IH by done. done.
Qed.

Lemma lines_http_head ls : Forall one_line ls → lines (http_head ls) = ls ++ [EmptyString].
Proof. induction 1 as [|l ls Hl _ IH]; [done|]. cbn [http_head foldr app]. rewrite lines_line by done. by f_equal. Qed.

Lemma utf8_chunks_append a b : valid_utf8 a = true → utf8_chunks (a +:+ b) = utf8_chunks a ++ utf8_chunks b.
Proof.
  unfold valid_utf8. induction (utf8_chunks_decoded a) as [|c s l ?? Hc Hd IH|]; [done| |done].
  intros [_ Hl]%andb_true_iff. rewrite append_assoc, Hc. cbn [app]. by rewrite IH.
Qed.

Lemma valid_utf8_append a b : valid_utf8 a = true → valid_utf8 (a +:+ b) = valid_utf8 b.
Proof.
  intros Ha. unfold valid_utf8. rewrite utf8_chunks_append, forallb_app by done.
  unfold valid_utf8 in Ha. by rewrite Ha.
Qed.

Lemma valid_http_head ls : Forall (λ l, valid_utf8 l = true) ls → valid_utf8 (http_head ls) = true.
Proof. induction 1 as [|l ls Hl _ IH]; [done|]. cbn [http_head foldr]. by rewrite !valid_utf8_append. Qed.

(** ** Printing and reading a length *)

Lemma parse_digits_cons max c s acc :
  is_ascii_digit c = true → (acc * 10 + Z.of_N (N_of_ascii c - 48) ≤ max)%Z →
  parse_digits max (String c s) acc = parse_digits max s (acc * 10 + Z.of_N (N_of_ascii c - 48)).
Proof. intros Hc Hm. cbn. by rewrite Hc, decide_True. Qed.

Lemma digit_char d :
  (d < 10)%N → is_ascii_digit (pretty_N_char d) = true ∧ (N_of_ascii (pretty_N_char d) - 48)%N = d.
Proof.
  intros Hd. assert (d ∈ (N.of_nat <$> seq 0 10)) as Hin.
  { apply list_elem_of_fmap. exists (N.to_nat d). split; [lia|]. apply elem_of_seq. lia. }
  cbn in Hin. repeat (apply elem_of_cons in Hin as [->|Hin]; [done|]). by apply elem_of_nil in Hin.
Qed.

(** Reading what was printed in front of [s] continues on [s] with the number. *)
Lemma parse_pretty_go max n s :
  (Z.of_N n ≤ max)%Z → parse_digits max (pretty_N_go n s) 0 = parse_digits max s (Z.of_N n).
Proof.
  revert s. induction n as [n IH] using (well_founded_induction N.lt_wf_0). intros s Hn.
  destruct (decide (n = 0%N)) as [->|Hz]; [by rewrite pretty_N_go_0|].
  rewrite pretty_N_go_step by lia.
  pose proof (N.div_mod n 10 ltac:(lia)) as Hdm. pose proof (N.mod_lt n 10 ltac:(lia)) as Hlt.
  destruct (digit_char (n `mod` 10)%N) as [Hd Hv]; [done|].
  rewrite IH by (try apply N.div_lt; lia). rewrite parse_digits_cons; rewrite ?Hv; [f_equal; lia|done|lia].
Qed.

(** The characters of a printed number are digits. *)
Lemma pretty_go_digits n s :
  every (λ c, is_ascii_digit c = true) s → every (λ c, is_ascii_digit c = true) (pretty_N_go n s).
Proof.
  revert s. induction n as [n IH] using (well_founded_induction N.lt_wf_0). intros s Hs.
  destruct (decide (n = 0%N)) as [->|Hz]; [by rewrite pretty_N_go_0|].
  rewrite pretty_N_go_step by lia. apply IH; [apply N.div_lt; lia|]. apply every_cons. split; [|done].
  apply digit_char, N.mod_lt. lia.
Qed.

Lemma pretty_digits (n : N) : every (λ c, is_ascii_digit c = true) (pretty n).
Proof.
  unfold pretty, pretty_N. case_decide; [repeat constructor|]. apply pretty_go_digits. constructor.
Qed.

(** [str::parse] reads back what [format!] printed. *)
Lemma parse_pretty (n : N) : (Z.of_N n ≤ usize_max)%Z → parse_unsigned usize_max (pretty n) = Ok (Z.of_N n).
Proof.
  intros Hn. assert (parse_digits usize_max (pretty n) 0 = Ok (Z.of_N n)) as Hp.
  { unfold pretty, pretty_N. case_decide; [by subst|]. by rewrite parse_pretty_go. }
  pose proof (pretty_digits n) as Hd. destruct (pretty n) as [|c s] eqn:Hs.
  - exfalso. unfold pretty, pretty_N in Hs. case_decide; [done|].
    pose proof (parse_pretty_go (Z.of_N n) n EmptyString ltac:(lia)) as He. rewrite Hs in He. cbn in He.
    simplify_eq. lia.
  - apply every_cons in Hd as [Hc _]. unfold parse_unsigned. clear Hs. by byte_cases c.
Qed.

(** ** The request *)

Lemma drop_whitespace_none l : Forall (λ c, is_whitespace c = false) l → drop_while is_whitespace l = l.
Proof. destruct 1 as [|c l Hc _]; [done|]. cbn. by rewrite Hc. Qed.

Lemma digits_chunks s :
  every (λ c, is_ascii_digit c = true) s →
  is_ascii s = true ∧ Forall (λ c, is_whitespace c = false) (chars s).
Proof.
  induction s as [|c s IH]; intros H; [by split; [|constructor]|].
  apply every_cons in H as [Hc Hs]. destruct (IH Hs) as [Ha Hw].
  assert (byte_in 0 127 c = true ∧ is_whitespace (String c EmptyString) = false) as [Hb Hn]
    by (clear -Hc; by byte_cases c).
  split; [by unfold is_ascii in *; cbn [String.list_ascii_of_string forallb]; rewrite Hb|].
  unfold chars. cbn [utf8_chunks]. unfold utf8_char_width. rewrite Hb. by constructor.
Qed.

(** A space before a number is trimmed. *)
Lemma trim_number s : every (λ c, is_ascii_digit c = true) s → trim (String " " s) = s.
Proof.
  intros [Ha Hw]%digits_chunks. unfold trim.
  change (chars (String " " s)) with (String " " EmptyString :: chars s).
  cbn [drop_while]. change (is_whitespace (String " " EmptyString)) with true. cbv iota.
  rewrite (drop_whitespace_none _ Hw), (drop_whitespace_none (rev _)), rev_involutive by by apply Forall_rev.
  by apply chars_concat, is_ascii_valid.
Qed.

(** The first header line with a length decides. *)
Lemma content_length_of_head l ls n :
  Forall one_line (l :: ls) → Forall (λ l, valid_utf8 l = true) (l :: ls) →
  List.hd_error (omap content_length_line (l :: ls)) = Some n →
  parse_content_length (http_head (l :: ls)) = n.
Proof.
  intros H1 Hv Hn. unfold parse_content_length. rewrite valid_http_head, lines_http_head by done.
  rewrite omap_app. by destruct (omap content_length_line (l :: ls)); simplify_eq/=.
Qed.

(** The header lines of the request. *)
Definition request_lines (args : Args) : list string :=
  [ "POST " +:+ arg_path args +:+ " HTTP/1.1"; "Host: profile.invalid";
    "Authorization: Bearer " +:+ arg_token args; "Content-Type: application/json";
    "Content-Length: " +:+ pretty (N.of_nat (String.length (arg_body args))); "Connection: keep-alive" ].

Lemma request_bytes_lines args : request_bytes args = http_head (request_lines args) +:+ arg_body args.
Proof. unfold request_bytes, request_lines, http_head. cbn [foldr]. by rewrite !append_assoc. Qed.

Lemma every_append P a b : every P (a +:+ b) ↔ every P a ∧ every P b.
Proof.
  induction a as [|c a IH]; [split; [by split; [constructor|]|by intros [_ ?]]|].
  rewrite append_cons, !every_cons, IH. tauto.
Qed.

(** The path and the token as the request needs them: text on one line. *)
Record text_line (s : string) : Prop := {
  text_one_line : one_line s;
  text_valid : valid_utf8 s = true;
}.

Lemma one_line_ascii s :
  forallb (λ c, negb (Ascii.eqb c CR) && negb (Ascii.eqb c LF)) (String.list_ascii_of_string s) = true →
  one_line s.
Proof.
  intros H. apply Forall_forall. intros c Hc. apply list_elem_of_In in Hc.
  rewrite List.forallb_forall in H. specialize (H c Hc). apply andb_true_iff in H as [H1 H2].
  by rewrite !negb_true_iff, !Ascii.eqb_neq in *.
Qed.

Lemma text_line_literal s :
  forallb (λ c, negb (Ascii.eqb c CR) && negb (Ascii.eqb c LF)) (String.list_ascii_of_string s) = true →
  valid_utf8 s = true → text_line s.
Proof. intros. split; [by apply one_line_ascii|done]. Qed.

Lemma text_line_append a b : text_line a → text_line b → text_line (a +:+ b).
Proof.
  intros [H1 H2] [H3 H4]. split; [by apply every_append|]. by rewrite valid_utf8_append.
Qed.

Lemma text_line_number (n : N) : text_line (pretty n).
Proof.
  pose proof (pretty_digits n) as H. split; [|by apply is_ascii_valid, digits_chunks].
  eapply Forall_impl; [exact H|]. intros c Hc. unfold CR, LF. split; intros ->; by cbn in Hc.
Qed.

Create HintDb srh_text.
#[local] Hint Resolve text_line_append text_line_number : srh_text.
#[local] Hint Extern 3 (text_line _) => (apply text_line_literal; reflexivity) : srh_text.

Lemma request_lines_text args :
  text_line (arg_path args) → text_line (arg_token args) →
  Forall (λ l, text_line l ∧ l ≠ EmptyString) (request_lines args).
Proof. intros Hp Ht. repeat (constructor; [split; [by auto 6 with srh_text|done]|]). constructor. Qed.

Lemma split_once_header name value :
  every (λ c, c ≠ ":"%char) name → split_once ":" (name +:+ String ":" value) = Some (name, value).
Proof.
  induction name as [|c name IH]; intros H; [done|]. apply every_cons in H as [Hc Hn].
  rewrite append_cons. cbn [split_once]. rewrite (proj2 (Ascii.eqb_neq c ":"%char)) by done. by rewrite IH.
Qed.

Lemma drop_whitespace_snoc l c : is_whitespace c = false → drop_while is_whitespace (l ++ [c]) = drop_while is_whitespace l ++ [c].
Proof.
  intros Hc. induction l as [|d l IH]; cbn [app drop_while]; [by rewrite Hc|]. by destruct (is_whitespace d).
Qed.

(** Trimming keeps a first character that is not white space. *)
Lemma trim_first c s :
  byte_in 0 127 c = true → is_whitespace (String c EmptyString) = false → ∃ t, trim (String c s) = String c t.
Proof.
  intros Hb Hw. unfold trim, chars. cbn [utf8_chunks]. unfold utf8_char_width. rewrite Hb.
  cbn [omap list_omap id].
  cbn [drop_while]. rewrite Hw. cbn [rev]. rewrite drop_whitespace_snoc, rev_app_distr by done.
  cbn [rev app]. rewrite concat_string_cons. by eexists.
Qed.

(** A line whose name is another header's gives no length. *)
Lemma other_header name value :
  every (λ c, c ≠ ":"%char) name → eq_ignore_ascii_case (trim name) "content-length" = false →
  content_length_line (name +:+ String ":" value) = None.
Proof. intros Hn He. unfold content_length_line. rewrite split_once_header by done. by rewrite He. Qed.

Lemma request_line_gives_none s : content_length_line (String "P" s) = None.
Proof.
  unfold content_length_line. destruct (split_once ":" (String "P" s)) as [[name value]|] eqn:Hs; [|done].
  cbn in Hs. destruct (split_once ":" s) as [[a b]|]; simplify_eq/=.
  destruct (trim_first "P" a) as [t ->]; done.
Qed.

(** Only the fifth line of the request gives a length. *)
Lemma request_length args :
  (Z.of_nat (String.length (arg_body args)) ≤ usize_max)%Z →
  List.hd_error (omap content_length_line (request_lines args)) =
    Some (Z.of_nat (String.length (arg_body args))).
Proof.
  intros Hfits. unfold request_lines. cbn [omap list_omap].
  change ("POST " +:+ arg_path args +:+ " HTTP/1.1") with (String "P" ("OST " +:+ arg_path args +:+ " HTTP/1.1")).
  rewrite request_line_gives_none.
  change ("Authorization: Bearer " +:+ arg_token args)
    with ("Authorization" +:+ String ":" (" Bearer " +:+ arg_token args)).
  rewrite other_header by (done || by repeat (constructor; [done|])).
  set (n := N.of_nat (String.length (arg_body args))).
  assert (content_length_line ("Content-Length: " +:+ pretty n) = Some (Z.of_N n)) as Hn.
  { change ("Content-Length: " +:+ pretty n) with ("Content-Length" +:+ String ":" (String " " (pretty n))).
    unfold content_length_line. rewrite split_once_header by (by repeat (constructor; [done|])).
    rewrite trim_number by apply pretty_digits. rewrite parse_pretty by lia. done. }
  assert (content_length_line "Host: profile.invalid" = None) as -> by (vm_compute; reflexivity).
  assert (content_length_line "Content-Type: application/json" = None) as -> by (vm_compute; reflexivity).
  rewrite Hn. cbn [List.hd_error]. f_equal. lia.
Qed.

(** The request is framed as the client frames responses: for a path and a
    token that are text on one line, its head ends at the first empty line and
    announces the length of exactly the body that follows. *)
Theorem request_well_framed args :
  text_line (arg_path args) → text_line (arg_token args) →
  (Z.of_nat (String.length (request_bytes args)) ≤ usize_max)%Z →
  ∃ head, request_bytes args = head +:+ arg_body args ∧ message_ok head (arg_body args).
Proof.
  intros Hp Ht Hfits. exists (http_head (request_lines args)). rewrite request_bytes_lines in Hfits |- *.
  rewrite string_length_append in Hfits. pose proof (request_lines_text args Hp Ht) as Hl.
  split; [done|]. split; [| |done].
  - apply find_http_head. eapply Forall_impl; [exact Hl|]. by intros l [[? _] ?].
  - apply content_length_of_head; [..|apply request_length; lia];
      (eapply Forall_impl; [exact Hl|]); by intros l [[??] _].
Qed.

(** ** Running it *)

(** The peers' ports are in the range of unprivileged ports and the fallback is
    never taken; each runtime has a thread. *)
Lemma peer_port_range index : peer_port index = (40000 + index mod 20000)%Z ∧ (40000 ≤ peer_port index < 60000)%Z.
Proof.
  unfold peer_port, u16_max. pose proof (Z.mod_pos_bound index 20000 ltac:(lia)). rewrite decide_True; lia.
Qed.

Lemma runtime_threads_positive requested available :
  (0 < available)%Z → (0 < runtime_threads requested available)%Z.
Proof. intros. unfold runtime_threads, div_ceil. case_decide; [done|]. apply Z.div_str_pos. lia. Qed.

(** A command line that is accepted asks for at least one connection. *)
Lemma args_parse_connections parse_secs_f64 args raw args' :
  args_parse parse_secs_f64 args raw = Parsed.Run args' → (0 < arg_connections args')%Z.
Proof.
  revert args. remember (length raw) as n eqn:Hn. revert raw Hn.
  induction n as [n IH] using lt_wf_ind. intros raw Hn args H. destruct raw as [|flag raw]; cbn in H.
  { by case_decide; simplify_eq. }
  destruct (contains _ flag); [done|]. destruct (flag_setter _ flag) as [set|]; [|done].
  destruct raw as [|v raw]; [done|]. destruct (set v args) as [args1|]; [|done].
  eapply (IH (length raw)); [simpl in Hn; lia|done|exact H].
Qed.

(** ** Examples *)

(** The first response of the demonstration, cut in the middle of the empty
    line. *)
Definition demo_response : bytes :=
  http_head ["HTTP/1.1 200 OK"; "content-type: application/json"; "CONTENT-LENGTH :  4"].

Example demo_reads :
  read_response None 0 EmptyString
    [Read.Chunk (String.substring 0 71 demo_response); Read.Chunk (String LF "{}"); Read.Chunk "[]"; Read.Failure] =
  Reading.Complete [Read.Failure].
Proof. vm_compute. reflexivity. Qed.

Example demo_args :
  args_parse (λ _, None) args_default ["--connections"; "4"; "--path"; "/pipeline"; "--duration"; "x"] =
    Parsed.Panic "--duration must be seconds" ∧
  args_parse (λ _, None) args_default ["--connections"; "0"] = Parsed.Panic "--connections must be positive" ∧
  args_parse (λ _, None) args_default ["--token"] = Parsed.Panic "flag --token requires a value".
Proof. by vm_compute. Qed.
