(* ===== verification/Conformance.v ===== *)
(** * The repository's unit tests, replayed on the model

    The tests in the [mod tests] of the sources are executions of the code with
    the results its authors expect.  Here each is written as an executable
    check of the model, with the inputs and the expected results of the test,
    and evaluated; a definition that had drifted from the code would fail
    them.  Third-party functions are given concrete stand-ins: base64 is
    [b64_encode], a number prints in decimal, and a digest is the text padded
    to 32 bytes.  A check is a [bool]; a test of a component with state is a
    list of steps that [play] runs in order. *)
From stdpp Require Import pretty.
From S2P Require Import Prelude Domain Utf8 F64 Acl Convert Parse Config Breaker RateLimit Ports Handlers Auth Pool Fred Observability Executors Main.

(** ** Steps *)

(** A step of a test on a state: its successor, or [None] when an assertion
    fails. *)
Definition Step (S : Type) : Type := S → option S.

Fixpoint play {S : Type} (steps : list (Step S)) (s : S) : bool :=
  match steps with
  | [] => true
  | step :: steps => match step s with Some s => play steps s | None => false end
  end.

Definition assert_that {S : Type} (p : S → bool) : Step S := λ s, if p s then Some s else None.

(** ** [domain/acl.rs] *)

(** Digests of the stand-in have the length of SHA-256. *)
Definition digest32 (s : bytes) : bytes := String.substring 0 32 (s +:+ "................................").

Definition test_identity : Identity :=
  mkIdentity "subject" "bucket" "pool" false false false None ∅ ∅ None.

(** The identity with some fields changed, in the order of the record. *)
Definition policy (ro admin old : bool) (allowed : option (list string)) (blocked scripts : list string)
    (prefix : option string) : Identity :=
  mkIdentity "subject" "bucket" "pool" ro admin old (list_to_set <$> allowed) (list_to_set blocked)
    (list_to_set scripts) prefix.

Definition print_number (n : Number) : string :=
  match n with
  | Number.PosInt u => pretty u
  | Number.NegInt i => pretty i
  | Number.Float _ => "not an integer"
  end.

Abbreviation str := Value.String.
Abbreviation num n := (Value.Number (Number.PosInt n)).

(** [parsed]: the command of a JSON array. *)
Definition parsed (command : list Value) : RedisCommand :=
  mkRedisCommand (match command with Value.String s :: _ => s | _ => "" end)
    (omap (λ v, match json_value_to_bytes print_number (λ _, Err tt) v with Ok b => Some b | Err _ => None end)
       (tail command)).

Definition allowed (who : Identity) (command : list Value) : bool :=
  is_ok (check digest32 who (parsed command)).

Definition assert_denied (who : Identity) (command : list Value) : bool :=
  match check digest32 who (parsed command) with Err (AclError.Forbidden _) => true | _ => false end.

Definition read_only_policy_matches_the_corrected_command_set : bool :=
  let who := policy true false false None [] [] None in
  forallb (allowed who) [[str "GET"; str "key"]; [str "XREAD"; str "STREAMS"; str "key"; str "0"]] &&
  forallb (assert_denied who) [[str "SET"; str "key"; str "v"]; [str "SCAN"; num 0]; [str "KEYS"; str "*"]].

Definition hard_denies_have_no_non_admin_escape_hatch : bool :=
  forallb (λ name, assert_denied test_identity [str name])
    ["CONFIG"; "SHUTDOWN"; "DEBUG"; "SLAVEOF"; "REPLICAOF"; "MIGRATE"; "MODULE"; "SAVE"; "BGSAVE";
     "BGREWRITEAOF"; "LASTSAVE"; "ACL"; "CLIENT"; "CLUSTER"; "LATENCY"; "MONITOR"; "PSYNC"; "SYNC";
     "FAILOVER"; "RESET"; "SLOWLOG"; "COMMAND"; "MEMORY"; "HELLO"; "SELECT"; "SWAPDB"; "AUTH"; "QUIT";
     "MULTI"; "EXEC"; "DISCARD"; "WATCH"; "UNWATCH"; "SUBSCRIBE"; "PSUBSCRIBE"; "UNSUBSCRIBE";
     "PUNSUBSCRIBE"; "SSUBSCRIBE"; "SUNSUBSCRIBE"; "PUBLISH"; "PUBSUB"; "BLPOP"; "BRPOP"; "BLMOVE";
     "BRPOPLPUSH"; "BLMPOP"; "BZPOPMIN"; "BZPOPMAX"; "BZMPOP"; "WAIT"; "WAITAOF"; "SCRIPT"; "FUNCTION"] &&
  assert_denied test_identity [str "CONFIG"; str "GET"; str "maxmemory"] &&
  assert_denied test_identity [str "MEMORY"; str "USAGE"; str "key"].

Definition transaction_state_commands_cannot_escape_onto_a_pooled_connection : bool :=
  forallb (λ who, forallb (λ name, assert_denied who [str name]) ["MULTI"; "EXEC"; "DISCARD"; "WATCH"; "UNWATCH"])
    [test_identity; policy false true false None [] [] None].

Definition command_names_are_normalized_before_every_policy_layer : bool :=
  let who := policy false false false (Some ["GET"; "SET"; "EVAL"]) ["SET"] [] None in
  forallb (assert_denied who)
    [[str "config"; str "get"; str "maxmemory"]; [str "flushall"]; [str "subscribe"; str "channel"];
     [str "set"; str "key"; str "value"]; [str "eval"; str "return 1"; num 0]] &&
  allowed who [str "get"; str "key"].

Definition admin_allowlist_is_subcommand_aware_and_remains_a_gate : bool :=
  let admin := policy false true false None [] [] None in
  forallb (allowed admin)
    [[str "CONFIG"; str "GET"; str "maxmemory"]; [str "CLIENT"; str "LIST"];
     [str "MEMORY"; str "USAGE"; str "key"]; [str "INFO"]] &&
  forallb (assert_denied admin)
    [[str "HELLO"; num 2]; [str "CONFIG"; str "SET"; str "x"; str "y"]; [str "MODULE"; str "LOAD"; str "x"];
     [str "MIGRATE"]; [str "SLAVEOF"]; [str "CLIENT"; str "KILL"]] &&
  assert_denied (policy false true false None ["CONFIG"] [] None) [str "CONFIG"; str "GET"; str "maxmemory"].

Definition default_blocks_apply_only_to_current_format_identities : bool :=
  let current := test_identity in
  let old := policy false false true None [] [] None in
  forallb (λ name, assert_denied current [str name])
    ["FLUSHALL"; "FLUSHDB"; "KEYS"; "RANDOMKEY"; "INFO"; "DBSIZE"] &&
  allowed current [str "SCAN"; num 0] &&
  allowed (policy false false false (Some ["KEYS"]) [] [] None) [str "KEYS"; str "*"] &&
  forallb (allowed old) [[str "FLUSHALL"]; [str "KEYS"; str "*"]; [str "DBSIZE"]; [str "INFO"]].

Definition explicit_command_allowlist_rejects_every_command_not_named : bool :=
  let who := policy false false false (Some ["GET"]) [] [] None in
  allowed who [str "GET"; str "key"] && assert_denied who [str "MGET"; str "one"; str "two"].

Definition script_allowlist_is_a_gate_not_a_grant : bool :=
  let script := "return redis.call('GET', KEYS[1])" in
  let digest := hex_digest (digest32 script) in
  let who ro cmds := policy ro false false (Some cmds) [] [digest] None in
  allowed (who false ["EVAL"]) [str "EVAL"; str script; num 1; str "key"] &&
  assert_denied (who true ["EVAL"]) [str "EVAL"; str script; num 1; str "key"] &&
  assert_denied (who false ["GET"; "SET"]) [str "EVAL"; str script; num 1; str "key"] &&
  assert_denied (who false ["EVAL"]) [str "EVAL"; str "return 1"; num 0] &&
  assert_denied (who false ["EVALSHA"]) [str "EVALSHA"; str script; num 0].

Definition argument_guards_reject_blocking_xread_and_indirect_sort_keys : bool :=
  let who := policy true false false None [] [] None in
  let tenant := policy true false false None [] [] (Some "tenant:") in
  let blocking := Err (AclError.Forbidden "NOPERM blocking XREAD is not allowed") in
  allowed who [str "XREAD"; str "STREAMS"; str "key"; str "0"] &&
  bool_decide (check digest32 who (parsed [str "XREAD"; str "BLOCK"; num 0]) = blocking) &&
  bool_decide (check digest32 who (parsed [str "XREAD"; str "block"; num 0]) = blocking) &&
  assert_denied tenant [str "SORT_RO"; str "tenant:list"; str "BY"; str "other:*"] &&
  assert_denied tenant [str "SORT_RO"; str "tenant:list"; str "GET"; str "other:*"].

Example acl_tests :
  forallb id
    [read_only_policy_matches_the_corrected_command_set; hard_denies_have_no_non_admin_escape_hatch;
     transaction_state_commands_cannot_escape_onto_a_pooled_connection;
     command_names_are_normalized_before_every_policy_layer;
     admin_allowlist_is_subcommand_aware_and_remains_a_gate;
     default_blocks_apply_only_to_current_format_identities;
     explicit_command_allowlist_rejects_every_command_not_named; script_allowlist_is_a_gate_not_a_grant;
     argument_guards_reject_blocking_xread_and_indirect_sort_keys] = true.
Proof. vm_compute. reflexivity. Qed.

(** ** [domain/compat.rs] *)

Definition geodist_units_match_plain_redis_case_requirements : bool :=
  let command := mkRedisCommand "GEODIST" ["key"; "from"; "to"; "KM"] in
  bool_decide (last (args (Compat.normalize command)) = Some "km").

Definition unrelated_arguments_are_preserved_byte_for_byte : bool :=
  let command := mkRedisCommand "SET" ["key"; "MI"] in
  bool_decide (Compat.normalize command = command).

Example compat_tests :
  geodist_units_match_plain_redis_case_requirements && unrelated_arguments_are_preserved_byte_for_byte = true.
Proof. vm_compute. reflexivity. Qed.

(** ** [domain/breaker.rs] *)

(** The breaker, the fake clock and the permits the test has bound, the latest
    first. *)
Record BreakerRun : Type := mkBreakerRun {
  run_breaker : Inner;
  run_now : Z;
  run_permits : list BreakerPermit;
}.

Section BreakerSteps.
Context (b : BreakerParams).

(** [breaker.admit().unwrap().permit], with an assertion on the admission. *)
Definition admits_as (p : BreakerAdmission → bool) : Step BreakerRun := λ s,
  match breaker_admit b (run_now s) (run_breaker s) with
  | (Ok a, i) => if p a then Some (mkBreakerRun i (run_now s) (permit a :: run_permits s)) else None
  | (Err _, _) => None
  end.
Definition admits : Step BreakerRun := admits_as (λ _, true).

(** [assert_eq!(breaker.admit(), Err(secs))]. *)
Definition turns_away (secs : Z) : Step BreakerRun := λ s,
  match breaker_admit b (run_now s) (run_breaker s) with
  | (Err e, i) => if decide (e = secs) then Some (mkBreakerRun i (run_now s) (run_permits s)) else None
  | (Ok _, _) => None
  end.

(** [breaker.record] of the permit bound last, with an assertion on the transition. *)
Definition records_as (p : option BreakerTransition → bool) (failed : bool) : Step BreakerRun := λ s,
  match run_permits s with
  | [] => None
  | permit :: permits =>
      let '(t, i) := Breaker.record b (run_now s) permit failed (run_breaker s) in
      if p t then Some (mkBreakerRun i (run_now s) permits) else None
  end.
Definition records : bool → Step BreakerRun := records_as (λ _, true).
Definition records_to (t : option BreakerTransition) : bool → Step BreakerRun := records_as (λ t', bool_decide (t' = t)).

Definition cancels : Step BreakerRun := λ s,
  match run_permits s with
  | [] => None
  | permit :: permits => Some (mkBreakerRun (cancel permit (run_breaker s)) (run_now s) permits)
  end.
End BreakerSteps.

Definition ticks (d : Z) : Step BreakerRun := λ s, Some (mkBreakerRun (run_breaker s) (run_now s + d) (run_permits s)).
Definition is_in (st : BreakerState) : Step BreakerRun := assert_that (λ s, bool_decide (state (run_breaker s) = st)).
Definition fresh_breaker : BreakerRun := mkBreakerRun breaker_new 0 [].

Definition opens_after_consecutive_failures_and_allows_exactly_one_probe : bool :=
  let b := mkBreakerParams 2 (from_millis 500) in
  play
    [ admits b; records_to b None true;
      admits b; records_to b (Some BreakerTransition.Opened) true;
      is_in BreakerState.Open; turns_away b 1;
      ticks (from_millis 500);
      admits_as b (λ a, bool_decide (transition a = Some BreakerTransition.ProbeStarted) && probe (permit a));
      turns_away b 1;
      records_to b (Some BreakerTransition.Closed) false; is_in BreakerState.Closed ] fresh_breaker.

Definition an_in_flight_probe_reports_the_configured_cooldown : bool :=
  let b := mkBreakerParams 1 (from_millis 1500) in
  play [admits b; records b true; ticks (from_millis 1500); admits b; turns_away b 2] fresh_breaker.

Definition canceling_an_unused_probe_allows_another_probe_immediately : bool :=
  let b := mkBreakerParams 1 (from_secs 1) in
  play [admits b; records b true; ticks (from_secs 1); admits b; cancels; admits b] fresh_breaker.

Definition success_resets_failures_and_failed_probe_restarts_cooldown : bool :=
  let b := mkBreakerParams 2 (from_secs 2) in
  play
    [ admits b; records b true; admits b; records b false; admits b; records b true;
      is_in BreakerState.Closed; admits b; records b true;
      ticks (from_secs 2); admits b; records_to b (Some BreakerTransition.Opened) true; turns_away b 2 ]
    fresh_breaker.

Example breaker_tests :
  forallb id
    [opens_after_consecutive_failures_and_allows_exactly_one_probe;
     an_in_flight_probe_reports_the_configured_cooldown;
     canceling_an_unused_probe_allows_another_probe_immediately;
     success_resets_failures_and_failed_probe_restarts_cooldown] = true.
Proof. vm_compute. reflexivity. Qed.

(** ** [domain/rate_limit.rs] *)

(** The limiter's state and the reading of the manual clock. *)
Record LimiterRun : Type := mkLimiterRun { run_limiter : LimiterState; run_time : Z }.

Section LimiterSteps.
Context (rl : RateLimiter).

(** An access with an assertion on its answer. *)
Definition accesses (p : result unit RateLimitExceeded → bool) (k : string) (a : Access) : Step LimiterRun := λ s,
  let '(r, st) := access rl (run_time s) k a (run_limiter s) in
  if p r then Some (mkLimiterRun st (run_time s)) else None.

Definition exceeds (secs : Z) (r : result unit RateLimitExceeded) : bool :=
  match r with Err e => bool_decide (retry_after_secs e = secs) | Ok _ => false end.

Definition probes (k : string) : Step LimiterRun := accesses is_ok k Access.Probe.
Definition probe_fails (k : string) : Step LimiterRun := accesses (λ r, negb (is_ok r)) k Access.Probe.
Definition probe_exceeds (k : string) (secs : Z) : Step LimiterRun := accesses (exceeds secs) k Access.Probe.
Definition charges (k : string) (n : Z) : Step LimiterRun := accesses is_ok k (Access.Charge n).
Definition charge_exceeds (k : string) (n secs : Z) : Step LimiterRun := accesses (exceeds secs) k (Access.Charge n).
Definition any_access (k : string) (a : Access) : Step LimiterRun := accesses (λ _, true) k a.

(** [assert_eq!(limiter.sweep_idle(), count)]. *)
Definition sweeps (count : Z) : Step LimiterRun := λ s,
  let '(n, st) := sweep_idle rl (run_time s) (map_to_list (entries (buckets (run_limiter s)))).*1 (run_limiter s) in
  if decide (n = count) then Some (mkLimiterRun st (run_time s)) else None.
End LimiterSteps.

Definition forgives (count : Z) : Step LimiterRun := λ s,
  let '(n, st) := take_debt_forgiven_evictions (run_limiter s) in
  if decide (n = count) then Some (mkLimiterRun st (run_time s)) else None.

Definition advances (d : Z) : Step LimiterRun := λ s, Some (mkLimiterRun (run_limiter s) (run_time s + d)).

Definition has_bucket (k : string) (s : LimiterRun) : bool :=
  bool_decide (is_Some (entries (buckets (run_limiter s)) !! k)).
Definition buckets_are (n : nat) (s : LimiterRun) : bool := size (entries (buckets (run_limiter s))) =? n.

Definition fresh_limiter : LimiterRun := mkLimiterRun limiter_init 0.

Definition oversized_batch_is_admitted_then_debt_sets_retry_after : bool :=
  let rl := limiter_new 10 in
  play [probes rl "token"; charges rl "token" 100; probe_exceeds rl "token" 8; advances (from_secs 8);
        probe_fails rl "token"; advances (from_millis 1); probes rl "token"] fresh_limiter.

Definition rejected_requests_are_not_charged : bool :=
  let rl := limiter_new 1 in
  play [charges rl "token" 2; charge_exceeds rl "token" 1 1; charge_exceeds rl "token" 100 1;
        advances (from_secs 1); charges rl "token" 1] fresh_limiter.

Definition sequential_commands_spend_the_two_second_burst_without_deepening_debt : bool :=
  let rl := limiter_new 10 in
  play (replicate 20 (charges rl "token" 1) ++
        [charge_exceeds rl "token" 1 1; charge_exceeds rl "token" 100 1]) fresh_limiter.

Definition full_bucket_keys_are_isolated : bool :=
  let rl := limiter_new 10 in
  play [charges rl "deadbeef-rest-of-first" 100; probe_fails rl "deadbeef-rest-of-first";
        probes rl "deadbeef-rest-of-second"] fresh_limiter.

Definition disabled_limiter_never_allocates_or_rejects : bool :=
  let rl := limiter_new 0 in
  play [probes rl "token"; charges rl "token" usize_max;
        assert_that (λ s, bool_decide (bucket_count (run_limiter s) = 0%Z))] fresh_limiter.

Definition sweep_evicts_idle_credit_but_never_live_debt : bool :=
  let rl := limiter_new 1 in
  play [charges rl "credit" 1; charges rl "debt" 10000; advances (from_secs 901); sweeps rl 1;
        assert_that (negb ∘ has_bucket "credit"); assert_that (has_bucket "debt")] fresh_limiter.

Definition a_debt_repaid_by_idling_is_swept_and_leaves_no_stale_index_entry : bool :=
  let rl := limiter_new 1 in
  play [charges rl "repaid" 5;
        assert_that (λ s, size (debt (lru (buckets (run_limiter s)))) =? 1);
        advances (from_secs 901); sweeps rl 1; assert_that (buckets_are 0);
        assert_that (λ s, (size (credit (lru (buckets (run_limiter s)))) =? 0)
                          && (size (debt (lru (buckets (run_limiter s)))) =? 0))] fresh_limiter.

Definition every_retained_bucket_is_indexed_exactly_once : bool :=
  let rl := limiter_new 10 in
  let round r :=
    (["a"; "b"; "c"] ≫= λ name, [any_access rl name Access.Probe; any_access rl name (Access.Charge (r * 9 + 1))])
    ++ [advances (from_millis 400)] in
  play (([0; 1; 2; 3]%Z ≫= round) ++
    [ assert_that (λ s, let l := lru (buckets (run_limiter s)) in
        size (credit l) + size (debt l) =? size (entries (buckets (run_limiter s))));
      assert_that (λ s, forallb (λ kb : string * Bucket,
          bool_decide (index (indebted kb.2) (lru (buckets (run_limiter s))) !! order kb.2 = Some (key kb.2)))
        (map_to_list (entries (buckets (run_limiter s))))) ]) fresh_limiter.

Definition refill_never_accumulates_more_than_two_seconds_of_credit : bool :=
  let rl := limiter_new 10 in
  play [charges rl "token" 20; advances (from_secs 3600); charges rl "token" 21; probe_exceeds rl "token" 1]
    fresh_limiter.

Definition bucket_map_stays_bounded_and_prefers_evicting_credit : bool :=
  let rl := with_max_buckets 10 2 in
  play [charges rl "debt" 100; charges rl "credit" 1; charges rl "new" 1; assert_that (buckets_are 2);
        assert_that (has_bucket "debt"); assert_that (has_bucket "new"); assert_that (negb ∘ has_bucket "credit")]
    fresh_limiter.

Definition all_debt_at_the_hard_bound_evicts_only_the_oldest_bucket : bool :=
  let rl := with_max_buckets 10 2 in
  play [charges rl "old-debt" 100; charges rl "new-debt" 100; charges rl "arrival" 100; assert_that (buckets_are 2);
        assert_that (negb ∘ has_bucket "old-debt"); assert_that (has_bucket "new-debt");
        assert_that (has_bucket "arrival"); forgives 1; forgives 0] fresh_limiter.

Example rate_limit_tests :
  forallb id
    [oversized_batch_is_admitted_then_debt_sets_retry_after; rejected_requests_are_not_charged;
     sequential_commands_spend_the_two_second_burst_without_deepening_debt; full_bucket_keys_are_isolated;
     disabled_limiter_never_allocates_or_rejects; sweep_evicts_idle_credit_but_never_live_debt;
     a_debt_repaid_by_idling_is_swept_and_leaves_no_stale_index_entry;
     every_retained_bucket_is_indexed_exactly_once; refill_never_accumulates_more_than_two_seconds_of_credit;
     bucket_map_stays_bounded_and_prefers_evicting_credit;
     all_debt_at_the_hard_bound_evicts_only_the_oldest_bucket] = true.
Proof. vm_compute. reflexivity. Qed.

(** ** [domain/convert.rs] *)

Fixpoint ser_eqb (a b : Ser) : bool :=
  match a, b with
  | Ser.Str s, Ser.Str t => String.eqb s t
  | Ser.I64 x, Ser.I64 y => Z.eqb x y
  | Ser.Nothing, Ser.Nothing => true
  | Ser.Seq l, Ser.Seq m =>
      (fix go (l m : list Ser) : bool :=
         match l, m with
         | [], [] => true
         | x :: l, y :: m => ser_eqb x y && go l m
         | _, _ => false
         end) l m
  | _, _ => false
  end.

(** [render]: charge, then serialise; the budget left and what is written. *)
Definition render (value : RespValue) (encoding : Encoding) (budget : Z) : result (Z * Ser) ConversionError :=
  let? budget := charge_response_budget value encoding budget in
  Ok (budget, response_json b64_encode value encoding).

Definition renders_as (expected : Ser) (r : result (Z * Ser) ConversionError) : bool :=
  match r with Ok (_, s) => ser_eqb s expected | Err _ => false end.
Definition leaves (budget : Z) (r : result (Z * Ser) ConversionError) : bool :=
  match r with Ok (b, _) => bool_decide (b = budget) | Err _ => false end.
Definition too_large (r : result (Z * Ser) ConversionError) : bool :=
  match r with Err ConversionError.ResponseTooLarge => true | _ => false end.

Definition octets (l : list N) : bytes := foldr (λ n s, String (ascii_of_N n) s) EmptyString l.

Definition converts_every_resp2_value_recursively : bool :=
  renders_as (Ser.Seq [Ser.Str "OK"; Ser.Str "bar"; Ser.I64 42; Ser.Nothing; Ser.Seq [Ser.Str (REPLACEMENT +:+ "a")]])
    (render (RespValue.Array
       [RespValue.Simple "OK"; RespValue.Bulk "bar"; RespValue.Int 42; RespValue.Nil;
        RespValue.Array [RespValue.Bulk (octets [255; 97]%N)]]) Encoding.None 1024).

Definition base64_encodes_original_bytes_and_preserves_ok : bool :=
  renders_as (Ser.Seq [Ser.Str "OK"; Ser.Str "YmFy"; Ser.Str "//4AAQ=="; Ser.I64 1; Ser.Nothing])
    (render (RespValue.Array
       [RespValue.Simple "OK"; RespValue.Simple "bar"; RespValue.Bulk (octets [255; 254; 0; 1]%N);
        RespValue.Int 1; RespValue.Nil]) Encoding.Base64 1024).

Definition response_budget_is_shared_and_fails_immediately : bool :=
  too_large (render (RespValue.Array [RespValue.Bulk "first"; RespValue.Bulk "second"]) Encoding.None
    (NODE_COST * 3 + len "first" + len "second" - 1)).

Definition invalid_utf8_is_charged_at_its_expanded_length : bool :=
  let value := RespValue.Bulk (octets [255; 255]%N) in
  leaves 0 (render value Encoding.None (NODE_COST + 6)) && too_large (render value Encoding.None (NODE_COST + 5)).

Definition nest (depth : nat) : RespValue := Nat.iter depth (λ inner, RespValue.Array [inner]) (RespValue.Int 1).

Definition nesting_is_bounded_without_exhausting_the_stack : bool :=
  match render (nest (MAX_DEPTH - 1)) Encoding.None usize_max with
  | Ok (budget, _) => too_large (render (nest (MAX_DEPTH + 8)) Encoding.None budget)
  | Err _ => false
  end.

Definition base64_budget_uses_exact_padded_size : bool :=
  leaves 0 (render (RespValue.Bulk "x") Encoding.Base64 (NODE_COST + 4)).

Example convert_tests :
  forallb id
    [converts_every_resp2_value_recursively; base64_encodes_original_bytes_and_preserves_ok;
     response_budget_is_shared_and_fails_immediately; invalid_utf8_is_charged_at_its_expanded_length;
     nesting_is_bounded_without_exhausting_the_stack; base64_budget_uses_exact_padded_size] = true.
Proof. vm_compute. reflexivity. Qed.

(** ** [http/parse.rs] *)

Definition quote (s : string) : string := String "034" (s +:+ String "034" EmptyString).

Definition join (l : list string) : string :=
  match l with [] => "" | x :: l => x +:+ concat_string ((λ s, "," +:+ s) <$> l) end.

(** Compact JSON for the values of the tests, whose strings need no escapes. *)
Fixpoint print_value (v : Value) : string :=
  match v with
  | Value.Null => "null"
  | Value.Bool b => if b then "true" else "false"
  | Value.Number n => print_number n
  | Value.String s => quote s
  | Value.Array l => "[" +:+ join (print_value <$> l) +:+ "]"
  | Value.Object m => "{" +:+ join ((λ '(k, v), quote k +:+ ":" +:+ print_value v) <$> m) +:+ "}"
  end.

(** The document of a body that the tokenizer accepts. *)
Fixpoint node_of (v : Value) : Node :=
  match v with
  | Value.Null => Node.Null
  | Value.Bool b => Node.Bool b
  | Value.Number (Number.PosInt u) => Node.U64 u
  | Value.Number (Number.NegInt i) => Node.I64 i
  | Value.Number (Number.Float f) => Node.F64 f
  | Value.String s => Node.Str s
  | Value.Array l => Node.Seq ((λ v, (true, node_of v)) <$> l) true
  | Value.Object m => Node.Map ((λ '(k, v), (k, node_of v)) <$> m) Node.Closed
  end.

Definition parse_command (v : Value) (max_elements : Z) : result RedisCommand ParseError :=
  Parse.command print_number (λ v, Ok (print_value v)) (λ _, mkDocument (node_of v) true) "" max_elements.
Definition parse_pipeline (v : Value) (max_commands max_elements : Z) : result (list RedisCommand) ParseError :=
  Parse.pipeline print_number (λ v, Ok (print_value v)) (λ _, mkDocument (node_of v) true) "" max_commands max_elements.

Definition too_complex {A : Type} (r : result A ParseError) : bool :=
  match r with Err ParseError.RequestTooComplex => true | _ => false end.
Definition pipeline_too_large {A : Type} (r : result A ParseError) : bool :=
  match r with Err ParseError.PipelineTooLarge => true | _ => false end.
Definition parse_invalid {A : Type} (r : result A ParseError) : bool :=
  match r with Err ParseError.Invalid => true | _ => false end.

Definition rejects_flat_and_nested_nodes_before_materializing_beyond_the_cap : bool :=
  too_complex (parse_command (Value.Array (replicate (Z.to_nat 10000) (str "A"))) 1000) &&
  too_complex (parse_command (Value.Array [str "SET"; str "key"; Value.Array (replicate (Z.to_nat 10000) (num 1))]) 1000).

Definition distinguishes_pipeline_length_from_request_node_budget : bool :=
  pipeline_too_large (parse_pipeline (Value.Array (replicate 1001 (Value.Array [str "PING"]))) 1000 10000) &&
  too_complex (parse_pipeline (Value.Array [Value.Array (replicate 1001 (str "A"))]) 1000 1000).

Definition arguments_are (l : list bytes) (r : result RedisCommand ParseError) : bool :=
  match r with Ok c => bool_decide (args c = l) | Err _ => false end.

Definition scalar_arguments_match_the_shared_conversion : bool :=
  forallb (λ scalar,
    match json_value_to_bytes print_number (λ v, Ok (print_value v)) scalar with
    | Ok b => arguments_are [b] (parse_command (Value.Array [str "CMD"; scalar]) 100)
    | Err _ => false
    end)
    [str "text"; str ("es" +:+ String "034" "caped"); num 100; Value.Number (Number.NegInt (-7));
     Value.Number (Number.Float (f64_div (f64_of_Z 3) (f64_of_Z 2))); Value.Bool true; Value.Bool false; Value.Null].

Definition nested_arguments_are_re_serialized_as_json_text : bool :=
  arguments_are ["key"; "{" +:+ quote "a" +:+ ":1}"; "[" +:+ quote "x" +:+ ",2]"]
    (parse_command (Value.Array [str "SET"; str "key"; Value.Object [("a", num 1)]; Value.Array [str "x"; num 2]]) 100).

Definition a_command_name_must_be_a_string_and_present : bool :=
  forallb (λ body, parse_invalid (parse_command (Value.Array body) 100))
    [[]; [num 1; str "key"]; [Value.Null]; [Value.Array [str "GET"]]].

Example parse_tests :
  forallb id
    [rejects_flat_and_nested_nodes_before_materializing_beyond_the_cap;
     distinguishes_pipeline_length_from_request_node_budget; scalar_arguments_match_the_shared_conversion;
     nested_arguments_are_re_serialized_as_json_text; a_command_name_must_be_a_string_and_present] = true.
Proof. vm_compute. reflexivity. Qed.

(** ** [error.rs] *)

Definition response_of (e : AppError) : Response := (run (sample_oracle "") (into_response e) []).2.

Definition responds (e : AppError) (code secs : Z) : bool :=
  bool_decide (status (response_of e) = code) && bool_decide (retry_after (response_of e) = Some secs).

Definition rate_limit_response_has_retry_after : bool := responds (AppError.RateLimited 17) 429 17.
Definition overload_response_uses_its_configured_retry_delay : bool := responds (AppError.Overloaded 23) 503 23.
Definition open_pool_response_uses_the_breaker_retry_delay : bool :=
  responds (AppError.PoolOpen 7 "cooldown active") 503 7.

Example error_tests :
  forallb id [rate_limit_response_has_retry_after; overload_response_uses_its_configured_retry_delay;
    open_pool_response_uses_the_breaker_retry_delay] = true.
Proof. vm_compute. reflexivity. Qed.

(** ** [adapters/auth_chain.rs] and [adapters/static_auth.rs] *)

Definition Abstain (_bearer : string) : Prog (result (option Identity) AuthError) := Ret (Ok None).
Definition Reject (_bearer : string) : Prog (result (option Identity) AuthError) := Ret (Err AuthError.Rejected).

Definition answer {A : Type} (p : Prog A) : A := (run (sample_oracle "") p []).2.

Definition an_error_stops_the_chain : bool :=
  match answer (chain_authenticate [Abstain; Reject] "token") with Err AuthError.Rejected => true | _ => false end.
Definition exhaustion_is_unauthorized : bool := negb (is_ok (answer (chain_authenticate [Abstain] "token"))).

Definition cache_token (ro : bool) : gmap string StaticTokenConfig :=
  {[ digest32 "secret" := mkStaticTokenConfig "cache" ro false None ∅ ∅ None ]}.

(** The assertion on the text of [Debug] is not part of the model. *)
Definition authenticates_by_digest_without_exposing_bucket_key_in_debug : bool :=
  match answer (static_authenticate digest32 (static_auth_new (cache_token true)) "secret") with
  | Ok (Some who) => (String.length (subject who) =? 8) && (String.length (bucket_key who) =? 64) && read_only who
  | _ => false
  end.
Definition abstains_for_an_unknown_token : bool :=
  match answer (static_authenticate digest32 (static_auth_new ∅) "wrong") with Ok None => true | _ => false end.
Definition satisfies_the_authenticator_contract : bool :=
  authenticator_contract (sample_oracle "") [] (static_authenticate digest32 (static_auth_new (cache_token false)))
    "secret" "not-configured".

Example auth_tests :
  forallb id [an_error_stops_the_chain; exhaustion_is_unauthorized;
    authenticates_by_digest_without_exposing_bucket_key_in_debug; abstains_for_an_unknown_token;
    satisfies_the_authenticator_contract] = true.
Proof. vm_compute. reflexivity. Qed.

(** ** The cache of [adapters/jwt_auth.rs] *)

Definition introspection_cache_is_ttl_swept_bounded_and_lru_evicted : bool :=
  let c := mkCacheParams 30 2 in
  let oldest := digest32 "0" in
  let next_oldest := digest32 "1" in
  let st := cache_insert c 0 next_oldest true (cache_insert c 0 oldest true cache_init) in
  let '(found, st) := cache_get 0 oldest st in
  let st := cache_insert c 0 (digest32 "one-over-the-bound") false st in
  bool_decide (MAX_INTROSPECTION_ENTRIES = 100000%Z) && bool_decide (found = Some true) &&
  (size (cache_entries st) =? 2) && bool_decide (is_Some (cache_entries st !! oldest)) &&
  bool_decide (cache_entries st !! next_oldest = None) &&
  bool_decide ((cache_sweep (from_secs 31) (map_to_list (cache_entries st)).*1 st).1 = 2%Z).

Example cache_tests : introspection_cache_is_ttl_swept_bounded_and_lru_evicted = true.
Proof. vm_compute. reflexivity. Qed.

(** ** [http/observability.rs] *)

(** [in_flight]: the value of the gauge. *)
Definition in_flight_gauge (s : Obs) : Z :=
  foldl (λ n e, match e with Emission.Adjust k d => if decide (k = http_in_flight) then n + d else n | _ => n end)%Z
    0%Z (emitted s).

Definition a_request_abandoned_before_completion_releases_the_in_flight_gauge : bool :=
  let s := call "/" 0 (mkObs ∅ [] []) in
  bool_decide (in_flight_gauge s = 1%Z) &&
  match drop_future 0 s with Some s => bool_decide (in_flight_gauge s = 0%Z) | None => false end.

Definition endpoint_metric_labels_have_bounded_cardinality : bool :=
  String.eqb (endpoint_label "/pipeline") "/pipeline" &&
  String.eqb (endpoint_label "/attacker-controlled/one") "other" &&
  String.eqb (endpoint_label "/attacker-controlled/two") "other".

(** The number of events a recorded response logs. *)
Definition audited (endpoint : string) (code : Z) : option nat :=
  (λ ems, length (omap (λ e, match e with Emission.Line l => Some l | _ => None end) ems)) <$>
    Observability.record 0 endpoint audit_default code.

Definition a_healthy_probe_is_not_audited_but_a_failing_one_is : bool :=
  bool_decide (audited "/health" 200 = Some 0) && bool_decide (audited "/ready" 503 = Some 1) &&
  bool_decide (audited "/" 200 = Some 1).

Definition status_metric_labels_have_bounded_cardinality : bool :=
  String.eqb (status_label 200) "200" && String.eqb (status_label 503) "503" &&
  String.eqb (status_label 418) "other" && String.eqb (status_label 599) "other".

Definition label_of (command : string) : option string := label ← label_uppercase command; label_as_str label.
Definition repeat_text (s : string) (n : nat) : string := concat_string (replicate n s).

Definition command_labels_uppercase_and_truncate_without_allocating_a_string : bool :=
  bool_decide (label_of "get" = Some "GET") &&
  bool_decide (label_of (repeat_text "a" (COMMAND_LABEL_CAPACITY * 2)) =
               Some (repeat_text "A" COMMAND_LABEL_CAPACITY)).

(** The euro sign is E2 82 AC. *)
Definition a_label_truncated_mid_character_falls_back_instead_of_panicking : bool :=
  bool_decide (label_of (repeat_text (octets [226; 130; 172]%N) COMMAND_LABEL_CAPACITY) = Some "-").

Example observability_tests :
  forallb id
    [a_request_abandoned_before_completion_releases_the_in_flight_gauge;
     endpoint_metric_labels_have_bounded_cardinality; a_healthy_probe_is_not_audited_but_a_failing_one_is;
     status_metric_labels_have_bounded_cardinality;
     command_labels_uppercase_and_truncate_without_allocating_a_string;
     a_label_truncated_mid_character_falls_back_instead_of_panicking] = true.
Proof. vm_compute. reflexivity. Qed.

(** ** [adapters/fred_executor.rs] and [adapters/breaker_executor.rs] *)

Definition raw_frames_preserve_simple_and_bulk_string_kinds : bool :=
  bool_decide (fred_frame_to_resp (Resp3Frame.SimpleString "OK") = Ok (RespValue.Simple "OK")) &&
  bool_decide (fred_frame_to_resp (Resp3Frame.BlobString "OK") = Ok (RespValue.Bulk "OK")).

Definition preserves_raw_redis_errors_and_classifies_client_errors : bool :=
  let wrong := "WRONGTYPE Operation against a key" in
  bool_decide (map_fred_error (mkFredError wrong false ("Invalid Argument: " +:+ wrong)) = ExecError.Redis wrong) &&
  bool_decide (map_fred_error (mkFredError "command timed out" true "Timeout Error: command timed out")
               = ExecError.Timeout) &&
  match map_fred_error (mkFredError "connection reset" false "IO Error: connection reset") with
  | ExecError.Transport _ => true
  | _ => false
  end.

(** A breaker executor around a scripted one, with a permit of a fresh breaker
    and a clock that stands still. *)
Definition test_breaker : BreakerParams := mkBreakerParams 1 (from_secs 1).

Definition scripted (script : list (result RespValue ExecError)) : option (Guarded FakeExecutor) :=
  match breaker_admit test_breaker 0 breaker_new with
  | (Ok a, inner) => Some (mkGuarded (fake_new script) (breaker_executor_new (permit a)) inner 0)
  | (Err _, _) => None
  end.

Definition ping : RedisCommand := mkRedisCommand "PING" [""].

Definition ends_in (st : BreakerState) {A : Type} (r : A * Guarded FakeExecutor) : bool :=
  bool_decide (state (shared_breaker r.2) = st).

Definition fails_and_leaves (error : ExecError) (st : BreakerState) : bool :=
  match scripted [Err error] with
  | Some g => let r := guarded_execute test_breaker (λ _, 0%Z) ping g in negb (is_ok r.1) && ends_in st r
  | None => false
  end.

Definition only_transport_and_timeout_failures_open_the_breaker : bool :=
  fails_and_leaves (ExecError.Redis "WRONGTYPE") BreakerState.Closed &&
  fails_and_leaves ExecError.ResponseTooLarge BreakerState.Closed &&
  fails_and_leaves ExecError.Timeout BreakerState.Open.

Definition any_transport_failure_in_a_pipeline_counts_once : bool :=
  match scripted [Ok (RespValue.Int 1); Err (ExecError.Transport "closed")] with
  | Some g => ends_in BreakerState.Open (guarded_pipeline test_breaker (λ _, 0%Z) [ping; ping] g)
  | None => false
  end.

Example executor_tests :
  forallb id
    [raw_frames_preserve_simple_and_bulk_string_kinds; preserves_raw_redis_errors_and_classifies_client_errors;
     only_transport_and_timeout_failures_open_the_breaker; any_transport_failure_in_a_pipeline_counts_once] = true.
Proof. vm_compute. reflexivity. Qed.

(** ** [ports/mod.rs] and [main.rs] *)

(** The calls of a program on one handle end with its release. *)
Definition releases {A : Type} (p : Prog A) : bool :=
  match (run (sample_oracle "") p []).1 with Call.Release h :: _ => bool_decide (lease h = 1%Z) | _ => false end.

Definition consuming_execution_releases_each_lease_before_returning : bool :=
  let h := mkHandle 1 in
  let command := mkRedisCommand "PING" [] in
  releases (execute_and_release h command) && releases (pipeline_and_release h [command]) &&
  releases (transaction_and_release h [command]).

Definition formats_ipv4_and_ipv6_bind_addresses : bool :=
  String.eqb (bind_address "127.0.0.1" 80) "127.0.0.1:80" && String.eqb (bind_address "::1" 80) "[::1]:80" &&
  String.eqb (bind_address "::" 80) "[::]:80".

(** One tick after 901 seconds sweeps the bucket, then the task is stopped. *)
Definition maintenance_loop_sweeps_idle_rate_limit_buckets : bool :=
  let rl := limiter_new 1 in
  let '(charged, st) := limiter_charge rl 0 "idle" 1 limiter_init in
  let p := mkProcess st (mkCacheSys cache_init ∅ 0) manager_new in
  let '(p, stopped) := run_pool_maintenance rl false
    [Wake.Tick 0 (from_secs 901) [] ["idle"] []; Wake.Changed (Some true)] p in
  is_ok charged && bool_decide (bucket_count (p_limiter p) = 0%Z) && stopped.

Example port_and_main_tests :
  forallb id
    [consuming_execution_releases_each_lease_before_returning; formats_ipv4_and_ipv6_bind_addresses;
     maintenance_loop_sweeps_idle_rate_limit_buckets] = true.
Proof. vm_compute. reflexivity. Qed.

(** ** [adapters/pool_manager.rs] *)

(** The manager and the readings of the fake clock. *)
Record PoolRun : Type := mkPoolRun { run_manager : PoolManager; run_unix : Z }.

Definition instant_of (s : PoolRun) : Z := from_secs (run_unix s).

(** [config(max_connections, max_waiters)] with a failure threshold. *)
Definition pool_test_config (connections max_wait threshold : Z) : Config :=
  mkConfig server_default (mkAuthConfig None ∅)
    {[ "test" := mkPoolConfig (SecretString_new "redis://127.0.0.1:1") connections 20 200 max_wait
                   (mkBreakerConfig threshold 20) ∅ ]}.

(** The entry of the pool and the requests on it; [None] when it is not built. *)
Definition test_entry (s : PoolRun) : option (nat * (PoolParams * PoolSys)) :=
  id ← manager_pools (run_manager s) !! "test"; cs ← heap (run_manager s) !! id; Some (id, cs).

Definition put_entry (id : nat) (c : PoolParams) (e : PoolEntry) (ts : list Stage) (s : PoolRun) : PoolRun :=
  mkPoolRun (mkPoolManager (manager_pools (run_manager s))
    (<[id := (c, mkPoolSys e ts (instant_of s))]> (heap (run_manager s)))) (run_unix s).

Section PoolSteps.
Context (config : Config).

(** [manager.acquire("test")] when nobody else moves: the stage it reaches, or
    its error; a request that stays is put in front of the others. *)
Definition acquires_as (p : result Stage (option AcquireError) → bool) : Step PoolRun := λ s,
  match manager_acquire (λ _, Ok tt) config (run_unix s) (instant_of s) "test" (run_manager s) with
  | (Ok id, m) =>
      match heap m !! id with
      | Some (c, sys) =>
          match tasks sys with
          | request :: ts =>
              let '(e, r) := acquire_entry (permit_count c + 6) c (instant_of s) (entry sys) request in
              if p r then
                Some (put_entry id c e (match r with Ok stage => stage :: ts | Err _ => ts end)
                        (mkPoolRun m (run_unix s)))
              else None
          | [] => None
          end
      | None => None
      end
  | (Err _, _) => None
  end.
End PoolSteps.

Definition gets_handle (r : result Stage (option AcquireError)) : bool :=
  match r with Ok (Stage.Handle _ _) => true | _ => false end.
Definition gets_queued (r : result Stage (option AcquireError)) : bool :=
  match r with Ok (Stage.Waiting _) => true | _ => false end.
Definition gets_overloaded (r : result Stage (option AcquireError)) : bool :=
  match r with Err (Some AcquireError.Overloaded) => true | _ => false end.
Definition gets_open (r : result Stage (option AcquireError)) : bool :=
  match r with Err (Some (AcquireError.PoolOpen _)) => true | _ => false end.

(** The last request of the list goes on until it has a handle. *)
Definition oldest_proceeds : Step PoolRun := λ s,
  match test_entry s with
  | Some (id, (c, sys)) =>
      match rev (tasks sys) with
      | request :: ts =>
          let '(e, r) := acquire_entry (permit_count c + 6) c (instant_of s) (entry sys) request in
          match r with
          | Ok (Stage.Handle x i) => Some (put_entry id c e (Stage.Handle x i :: rev ts) s)
          | _ => None
          end
      | [] => None
      end
  | None => None
  end.

(** [drop(handle)] for the handle at the given place. *)
Definition drops_handle (place : nat) : Step PoolRun := λ s,
  match test_entry s with
  | Some (id, (c, sys)) =>
      match tasks sys !! place with
      | Some handle =>
          match abandon (entry sys) handle with
          | Some (e, stage) =>
              match acquire_entry 3 c (instant_of s) e stage with
              | (e, Err None) => Some (put_entry id c e (take place (tasks sys) ++ drop (S place) (tasks sys)) s)
              | _ => None
              end
          | None => None
          end
      | None => None
      end
  | None => None
  end.

(** The handle in front runs a command, which gives these errors. *)
Definition runs_command (errors : list ExecError) : Step PoolRun := λ s,
  match test_entry s with
  | Some (id, (c, sys)) =>
      match tasks sys with
      | handle :: ts =>
          match operate c (instant_of s) errors (entry sys) handle with
          | Some (e, stage) => Some (put_entry id c e (stage :: ts) s)
          | None => None
          end
      | [] => None
      end
  | None => None
  end.

Definition advances_secs (d : Z) : Step PoolRun := λ s, Some (mkPoolRun (run_manager s) (run_unix s + d)).

Definition evicts (count : nat) : Step PoolRun := λ s,
  let '(n, m) := evict_idle (run_unix s) (map_to_list (manager_pools (run_manager s))).*1 (run_manager s) in
  if decide (n = count) then Some (mkPoolRun m (run_unix s)) else None.

Definition built_pool_count (n : nat) : Step PoolRun := assert_that (λ s, size (manager_pools (run_manager s)) =? n).

Definition entry_is (p : PoolEntry → bool) : Step PoolRun :=
  assert_that (λ s, match test_entry s with Some (_, (_, sys)) => p (entry sys) | None => false end).
Definition breaker_is (st : BreakerState) : Step PoolRun :=
  entry_is (λ e, bool_decide (state (breaker e) = st)).

Definition shuts_down : Step PoolRun := λ s,
  Some (mkPoolRun (manager_shutdown (map_to_list (manager_pools (run_manager s))).*1 (run_manager s)) (run_unix s)).

Definition fresh_manager : PoolRun := mkPoolRun manager_new 1000.

Definition builds_once_lazily_and_reuses_the_pool : bool :=
  let config := pool_test_config 1 2 2 in
  play [built_pool_count 0; acquires_as config gets_handle; drops_handle 0; acquires_as config gets_handle;
        drops_handle 0; built_pool_count 1; shuts_down] fresh_manager.

(** The tasks that wait get the connection after [drop(active)], and drop it;
    how long the refusals take is not part of the model. *)
Definition bounds_waiters_and_sheds_excess_acquisitions : bool :=
  let config := pool_test_config 1 2 2 in
  play ([acquires_as config gets_handle; acquires_as config gets_queued; acquires_as config gets_queued;
         entry_is (λ e, bool_decide (waiters e = 2%Z))]
        ++ replicate 7 (acquires_as config gets_overloaded)
        ++ [drops_handle 2; oldest_proceeds; drops_handle 0; oldest_proceeds; drops_handle 0; shuts_down])
    fresh_manager.

Definition evicts_only_fully_idle_entries_after_fifteen_minutes : bool :=
  let config := pool_test_config 1 2 2 in
  play [acquires_as config gets_handle; advances_secs (IDLE_EVICTION_SECS + 1); evicts 0; drops_handle 0; evicts 1;
        built_pool_count 0] fresh_manager.

(** The command fails because no server listens; how long the refusals take is
    not part of the model. *)
Definition backend_failures_open_before_waiter_or_permit_acquisition : bool :=
  let config := pool_test_config 1 2 1 in
  play ([acquires_as config gets_handle; runs_command [ExecError.Transport "connection refused"]]
        ++ replicate 50 (acquires_as config gets_open)
        ++ [entry_is (λ e, bool_decide (waiters e = 0%Z)); entry_is (λ e, available_permits e =? 0);
            drops_handle 0; shuts_down]) fresh_manager.

(** The command fails while no server listens and succeeds once one does. *)
Definition half_open_probe_cancels_when_unused_and_closes_after_success : bool :=
  let config := pool_test_config 1 2 1 in
  play [acquires_as config gets_handle; runs_command [ExecError.Transport "connection refused"]; drops_handle 0;
        advances_secs 1;
        acquires_as config gets_handle; breaker_is BreakerState.HalfOpen; drops_handle 0; breaker_is BreakerState.Open;
        acquires_as config gets_handle; runs_command []; drops_handle 0; breaker_is BreakerState.Closed;
        acquires_as config gets_handle; drops_handle 0; shuts_down] fresh_manager.

Example pool_tests :
  forallb id
    [builds_once_lazily_and_reuses_the_pool; bounds_waiters_and_sheds_excess_acquisitions;
     evicts_only_fully_idle_entries_after_fifteen_minutes;
     backend_failures_open_before_waiter_or_permit_acquisition;
     half_open_probe_cancels_when_unused_and_closes_after_success] = true.
Proof. vm_compute. reflexivity. Qed.

(** ** [adapters/jwt_auth.rs] *)

(** A signed token: its header's algorithm, the registered claims the decoder
    checks, and the claims it gives.  The tokens of the tests are named by
    texts with two dots. *)
Record SignedToken : Type := mkSigned {
  signed_with : option Algorithm;
  signed_issuer : string;
  signed_expiry : Z;
  signed_not_before : Z;
  signed_claims : Claims;
}.

#[local] Instance algorithm_eq_dec : EqDecision Algorithm.
Proof. solve_decision. Defined.

Definition token_clock : Z := 1000000.

(** [config()]: the issuer, audience and client, and one pool. *)
Definition jwt_test_config : JwtConfig :=
  mkJwtConfig "https://issuer.test/realms/test" "srh" 600 "redis:" "srh"
    (mkIntrospectionConfig false "" "" (SecretString_new "") 30).
Definition jwt_test_pools : gmap string PoolConfig :=
  {[ "default" := mkPoolConfig (SecretString_new "redis://localhost:6379") 3 2000 500 100
                    (mkBreakerConfig 10 2000) {[ "abcd" ]} ]}.

(** [claims()], with the fields the tests change. *)
Definition test_claims (audience : Audience) (party : option string) (kind : string) (granted : list string) : Claims :=
  mkClaims "user-123" audience party kind {[ "srh" := mkClientAccess granted ]} None ["client"] (Some "tenant:").
Definition good_claims : Claims := test_claims (Audience.Many ["srh"]) None "Bearer" ["redis:write"].

(** [token(claims, algorithm)]. *)
Definition signed (a : Algorithm) (c : Claims) : SignedToken :=
  mkSigned (Some a) "https://issuer.test/realms/test" (token_clock + 300) (token_clock - 1) c.

Section JwtTests.
(** The tokens the tests have made. *)
Context (tokens : list (string * SignedToken)).

Definition find_token (bearer : string) : option SignedToken :=
  snd <$> List.find (λ t, String.eqb t.1 bearer) tokens.

(** The decoder of [jsonwebtoken] on those tokens: a header with an unknown
    algorithm is refused, and so are claims that the validation rules out. *)
Definition test_decode_header (bearer : string) : option (option string) :=
  t ← find_token bearer; _ ← signed_with t; Some (Some "test-key").
Definition test_decode (bearer : string) (_ : unit) (v : Validation) : option Claims :=
  t ← find_token bearer; a ← signed_with t;
  if bool_decide (a = validation_algorithm v) &&
     contains (issuers v) (signed_issuer t) &&
     (token_clock <=? signed_expiry t + leeway v)%Z && (signed_not_before t - leeway v <=? token_clock)%Z
  then Some (signed_claims t) else None.

(** [auth(Rs256)] against an environment that has the key and, when asked, an
    introspection service that is down. *)
Definition jwks_oracle (keys : list string) : Oracle := λ X e hist,
  match e in Eff.Eff X return X with
  | Eff.KeyFor kid => if contains keys kid then Ok (mkCachedKey JwtAlgorithm.Rs256 "jwk") else Err JwksError.NotFound
  | Eff.IsActive _ => Err (mkIntrospectError "introspection unavailable")
  | e => trusting_oracle _ e hist
  end.

Definition jwt_answer (keys : list string) (introspector : bool) (bearer : string) : result (option Identity) AuthError :=
  (run (jwks_oracle keys)
     (jwt_authenticate test_decode_header (λ _, Some tt) test_decode (λ s, Some s)
        (λ s, match find_token (s +:+ ".c.s") with Some _ => Some (Value.Object []) | None => None end) digest32
        (jwt_auth_new jwt_test_config jwt_test_pools introspector).1 bearer) []).2.
End JwtTests.

Definition rejected (r : result (option Identity) AuthError) : bool :=
  match r with Err AuthError.Rejected => true | _ => false end.

Definition valid_write_token_maps_claims_and_pool_policy : bool :=
  match jwt_answer [("h.c.s", signed Algorithm.RS256 good_claims)] ["test-key"] false "h.c.s" with
  | Ok (Some who) =>
      String.eqb (subject who) "user-123" && String.eqb (bucket_key who) "user-123" &&
      String.eqb (pool who) "default" && negb (read_only who) &&
      bool_decide ("CLIENT" ∈ blocked_commands who) && bool_decide ("abcd" ∈ allowed_script_sha256 who) &&
      bool_decide (key_prefix who = Some "tenant:")
  | _ => false
  end.

(** A header with HS256 or none is no algorithm the decoder is asked for. *)
Definition validation_rejects_untrusted_algorithms_and_security_claims : bool :=
  let good := signed Algorithm.RS256 good_claims in
  let with_claims c := signed Algorithm.RS256 c in
  let tokens :=
    [ ("rs384.c.s", signed Algorithm.RS384 good_claims);
      ("hs256.c.s", mkSigned None (signed_issuer good) (signed_expiry good) (signed_not_before good) good_claims);
      ("none.c.s", mkSigned None (signed_issuer good) (signed_expiry good) (signed_not_before good) good_claims);
      ("iss.c.s", mkSigned (Some Algorithm.RS256) "https://wrong.test" (signed_expiry good) (signed_not_before good) good_claims);
      ("aud.c.s", with_claims (test_claims (Audience.Many ["wrong"]) None "Bearer" ["redis:write"]));
      ("typ.c.s", with_claims (test_claims (Audience.Many ["srh"]) None "ID" ["redis:write"]));
      ("exp.c.s", mkSigned (Some Algorithm.RS256) (signed_issuer good) 1 (signed_not_before good) good_claims);
      ("nbf.c.s", mkSigned (Some Algorithm.RS256) (signed_issuer good) (signed_expiry good) (token_clock + 300) good_claims) ] in
  forallb (λ t, rejected (jwt_answer tokens ["test-key"] false t.1)) tokens &&
  match jwt_answer tokens ["test-key"] false "not-a-static-token" with Ok None => true | _ => false end.

Definition azp_is_an_audience_fallback_and_missing_role_is_forbidden : bool :=
  let candidate granted := signed Algorithm.RS256 (test_claims (Audience.Many ["account"]) (Some "srh") "Bearer" granted) in
  let answer granted := jwt_answer [("h.c.s", candidate granted)] ["test-key"] false "h.c.s" in
  match answer ["redis:write"] with Ok (Some _) => true | _ => false end &&
  match answer [] with Err (AuthError.Forbidden m) => String.eqb m "NOPERM no redis role" | _ => false end &&
  match answer ["redis:admin"] with Ok (Some admin) => is_admin admin && negb (read_only admin) | _ => false end.

Definition introspection_dependency_failure_is_service_unavailable : bool :=
  match jwt_answer [("h.c.s", signed Algorithm.RS256 good_claims)] ["test-key"] true "h.c.s" with
  | Err (AuthError.ServiceUnavailable m) => String.eqb m "introspection unavailable"
  | _ => false
  end.

Definition unknown_kid_is_a_definitive_rejection : bool :=
  rejected (jwt_answer [("h.c.s", signed Algorithm.RS256 good_claims)] [] false "h.c.s").

Example jwt_tests :
  forallb id
    [valid_write_token_maps_claims_and_pool_policy; validation_rejects_untrusted_algorithms_and_security_claims;
     azp_is_an_audience_fallback_and_missing_role_is_forbidden;
     introspection_dependency_failure_is_service_unavailable; unknown_kid_is_a_definitive_rejection] = true.
Proof. vm_compute. reflexivity. Qed.
